(* ===== verification/_CoqProject ===== *)
-Q . S2P
Prelude.v
GoStd.v
Errors.v
Protocol.v
Framing.v
Samples.v
ProtocolFacts.v
FramingFacts.v
Proc.v
Connection.v
ConnectionInv.v
ConnectionSafety.v
ConnectionWriter.v
ConnectionProps.v
ConnectionSpec.v
GoText.v
Registry.v
RegistrySpec.v
RegistryOps.v
RegistryReads.v
RegistryProps.v
RegistryHistory.v
Locks.v
RegistryLocks.v
RegistryCalls.v
RegistryRace.v
Batch.v
BatchFacts.v
Dispatcher.v
DispatcherFacts.v
Config.v
ConfigFacts.v
Handler.v
RegistryMoves.v
HandlerInv.v
HandlerSafety.v
Serve.v
ServeSafety.v
RequestSafety.v
HandlerProps.v
HandlerAPI.v
HandlerRuns.v
HandlerAPIFacts.v
Server.v
Hertz.v
Quiet.v
Answers.v
Heartbeat.v
Lifecycle.v
HandlerOnce.v
ServerFacts.v
