(* ===== verification/Prelude.v ===== *)
(** * Signalg: a websocket messaging server, verified

    Signalg keeps websocket connections to clients, reads protocol frames from
    them, routes the frames to the methods of a hub and sends frames to one
    client, a user, a group or everybody.  This library models the Go code under
    src/ and proves what its parts and their composition guarantee.  This is the
    root file: the documentation of the whole, then the notations, tactics and
    generic lemmas that all files use.

    ** The program and its model

    - The wire format (protocol.go): frames, body codecs, [decodeFrame].
      [Protocol.v] models it, with the error values of the package in [Errors.v]
      and Go's integers, bytes and strings in [GoStd.v].  [Framing.v] has the pure
      part of building frames from connection.go (header sealing, the adaptive size of
      encode buffers).
    - Goroutines.  [Proc.v]: a Go function that touches shared state is a tree of
      atomic actions on a store; an action lists its possible results, none when it
      blocks.  [pool_step] interleaves goroutines, [safe] carries an invariant and
      what each goroutine holds through every interleaving, [twp] is total
      correctness of one goroutine alone.  [Locks.v] adds mutexes with an
      order, and progress.
    - A connection (connection.go): [Connection.v].  The store [cstate] has the
      fields of [Connection], of [connectionOps] and the queue; [Send], [SendRaw],
      [Complete], [Ping], [Close], [beginDrain], the writer's loop and the rest are one
      definition each, with the source's names.
    - The registry (registry.go): [Registry.v].  The store [rstate] has the
      sharded maps, the entries, the sets of the user and group indices and all
      mutexes; every method is a definition.
    - Bulk sends and closes (batch_send.go, batch_close.go): [Batch.v], a state
      machine of the caller, its workers and the channels between them.
    - Hub methods by reflection (dispatcher.go): [Dispatcher.v].
    - Configuration (server.go, connected.go): [Config.v], with the text functions of
      Go in [GoText.v].
    - The handler (server.go): [Handler.v] has the store [hstate], admission, the heartbeat
      loop and [Shutdown]; [Serve.v] one request from [ServeHTTP] to [OnDisconnected],
      with the read loop and the buffers of internal/bpool; [HandlerAPI.v] the exported
      sends, closes, groups and lookups.  Programs of a connection or of the registry are
      lifted to [hstate] by [on_conn] and [on_registry].
    - The standalone server (server.go): [Server.v].  The wrapper for Hertz
      (hertz/handler.go): [Hertz.v], definitions only, since its methods pass
      their arguments on.

    ** What is proved

    - The format ([ProtocolFacts.v], [FramingFacts.v]): the decoder accepts exactly the
      reference layout of valid frames and inverts the encoder; no bytes make it panic, and
      its error names a rule of the format that the frame breaks; the size hint of encode buffers
      stays in its bounds and converges.
    - A connection under any interleaving ([ConnectionInv.v], [ConnectionSafety.v],
      [ConnectionWriter.v], [ConnectionProps.v]): operation counters, the queue's
      capacity, frames written in the order they were accepted, nothing accepted after the
      queue is closed, no buffer queued and free at once, a drain that is final.
      [ConnectionSpec.v]: every branch of every sender.
    - The registry: each method refines one finite map
      ([RegistrySpec.v], [RegistryOps.v], [RegistryReads.v], [RegistryProps.v]); in a history of
      calls that adds a key only while it is free, every answer follows from what
      was called about each connection ([RegistryHistory.v]); concurrent
      calls keep entries well filed, never deadlock and return ([RegistryLocks.v],
      [RegistryCalls.v]); three schedules where concurrent calls break the refinement
      ([RegistryRace.v]).
    - Batches ([BatchFacts.v]): one call for each connection, exact counts, and an end.
    - Dispatch and configuration ([DispatcherFacts.v], [ConfigFacts.v]): the routes of
      a hub, exactly what dispatching a message can give, the settings of a handler.
    - The handler, with any number of requests, user goroutines and callbacks
      ([RegistryMoves.v], [HandlerInv.v], [HandlerSafety.v], [ServeSafety.v],
      [RequestSafety.v], [HandlerProps.v]): the wait group covers the registry, a
      shutdown misses no connection, admits none and is complete when it
      reports success.  [Lifecycle.v] (with [Quiet.v]): what a hub sees of a connection.  Run
      alone: [Shutdown] returns ([HandlerRuns.v]), a frame that arrives is answered
      ([Answers.v]), a heartbeat closes the silent connections ([Heartbeat.v]), bulk calls
      reach whom they name ([HandlerAPIFacts.v]).
    - The server ([ServerFacts.v], with [HandlerOnce.v]): it listens once, and its
      [Shutdown] stops both halves.

    ** Bounds and fuel

    Integers of fixed width keep their width ([i64], [u32] and their like in
    [GoStd.v]); the online counter and the wait group are unbounded, as no run is
    long enough to wrap them.  The writer's [writeLoop] and the handler's
    [heartbeatLoop] have no bound of their own: they run at most [fuel] rounds, and
    theorems about pools hold for every [fuel].  [discard_loop] gets one round
    more than there are queued frames and [trim] as many as its input has bytes,
    which is enough for both to finish: after its writer a queue is proved to be
    empty, and [trim_spec] says that nothing more can be stripped.  The read loop is
    structural on the messages its client will send.

    ** What stands for code outside src/

    - [ShardMap]: the third-party concurrent map, whose operations (its [Range] too)
      are atomic, with the laws of a finite map.
    - [SlicePool]: the third-party pool of frame buffers; [Get] gives exclusive use of
      an array that was put back or is new.  Each connection has a pool of its own.  The
      [sync.Pool] of read buffers returns any of its buffers or a new one.
    - [ExternalCodecs]: the JSON, msgpack and protobuf encoders and decoders.
    - Reflection, the addresses of connections ([fmt_p]), request ids and the
      network: arguments of the definitions.  What a client sends is the list
      [x_inbox]; a read or write on a socket may fail at any moment.  What
      [net.Listen] and [http.Server.Shutdown] return is any of a list.
    - Contexts of callers are numbers in [h_ctxs] (nil is the background, which never
      ends); time advances by a goroutine of its own.
    - User code (hubs, factories, other goroutines) is any program over the exported
      operations ([client] in [RequestSafety.v]).

    ** Choices of the model

    - Panics: indexing and slicing in the decoder and [IsNil] on an error that a
      hub method returned give [Panicked] where Go panics ([failure] in
      [Errors.v]); a negative wait group and a second close of a channel set [h_panicked] and
      [panicked].  A panic in a request sets [h_panicked] and its goroutine goes no further; the
      deferred calls that then run are not modelled.  The decoder is proved not to panic.  The
      dispatcher does for a hub method whose error type has no nil, so theorems
      about handlers ask that there are none ([wb_errors]); with that, no interleaving panics.
    - Slices are bounded by their length; Go lets [frame[i:j]] run up to the capacity,
      into bytes that are not of the frame, and the model counts that as a panic.
    - The short sections under a connection's [opsMu] are one action, as they
      touch only what it guards.
    - [Conn], the immutable fields of a connection by address, is fixed for a run,
      and theorems about pools of requests ask for distinct connection keys.
    - In a batch, receiving a connection and calling it is one step, and the result of
      the call is an argument.
    - Values of [any] are an abstract type with the codecs' operations on it.

    ** Not modelled

    Logging; panics in user code; a nil receiver of [Shutdown] on a handler; the generated code of the
    connected message (proto/signalg/v1), of which [Config.v] has the fields;
    example/main.go, a program that uses the package; [nextConnectionID] and [remoteAddr],
    which call the random generator and the network; tests. *)

From stdpp Require Export base gmap sets list strings fin_maps pretty.
From Stdlib Require Export ZArith Lia.

Declare Scope go_scope.
Delimit Scope go_scope with go.
#[global] Open Scope Z_scope.

(** ** Results: a Go pair [(value, error)] of which exactly one is meaningful *)

Inductive result (E A : Type) : Type :=
| Ok (a : A)
| Err (e : E).
Arguments Ok {E A} a.
Arguments Err {E A} e.

Definition result_bind {E A B} (f : A → result E B) (m : result E A) : result E B :=
  match m with Ok a => f a | Err e => Err e end.

Definition is_ok {E A} (m : result E A) : bool :=
  match m with Ok _ => true | Err _ => false end.

(** [guard_err c e k] is Go's [if c { return ..., e }; k]. *)
Definition guard_err {E A} (c : bool) (e : E) (k : result E A) : result E A :=
  if c then Err e else k.

(** [check_err o k] is Go's [if err := o; err != nil { return ..., err }; k]. *)
Definition check_err {E A} (o : option E) (k : result E A) : result E A :=
  match o with Some e => Err e | None => k end.

(** [first_err o k] is the same for a function that returns only an error. *)
Definition first_err {E} (o k : option E) : option E :=
  match o with Some e => Some e | None => k end.

Notation "'fail_if' c 'with' e ';;' k" := (guard_err c e k)
  (at level 100, c at level 99, e at level 99, k at level 200, right associativity) : go_scope.
Notation "'try' o ';;' k" := (check_err o k)
  (at level 100, o at level 99, k at level 200, right associativity) : go_scope.
Notation "'let*' x ':=' m 'in' k" := (result_bind (fun x => k) m)
  (at level 100, x binder, m at level 99, k at level 200, right associativity) : go_scope.

Create HintDb go discriminated.

(** ** Tactics *)

(** Case analysis on the boolean tests a model takes from the code. *)
Ltac bool_to_prop :=
  repeat match goal with
  | H : andb _ _ = true |- _ => apply andb_true_iff in H as [? ?]
  | H : orb _ _ = false |- _ => apply orb_false_iff in H as [? ?]
  | H : negb _ = true |- _ => apply negb_true_iff in H
  | H : negb _ = false |- _ => apply negb_false_iff in H
  | H : (_ =? _)%Z = true |- _ => apply Z.eqb_eq in H
  | H : (_ =? _)%Z = false |- _ => apply Z.eqb_neq in H
  | H : (_ <? _)%Z = true |- _ => apply Z.ltb_lt in H
  | H : (_ <? _)%Z = false |- _ => apply Z.ltb_ge in H
  | H : (_ <=? _)%Z = true |- _ => apply Z.leb_le in H
  | H : (_ <=? _)%Z = false |- _ => apply Z.leb_gt in H
  | H : bool_decide _ = true |- _ => apply bool_decide_eq_true_1 in H
  | H : bool_decide _ = false |- _ => apply bool_decide_eq_false_1 in H
  end.

(** Walks one early return of a hypothesis [... = Ok _]. *)
Ltac step_ok H :=
  match type of H with
  | guard_err ?c _ _ = Ok _ =>
      let E := fresh "Hc" in destruct c eqn:E; [discriminate H | cbn [guard_err] in H]
  | check_err ?o _ = Ok _ =>
      let E := fresh "Ho" in destruct o eqn:E; [discriminate H | cbn [check_err] in H]
  | result_bind _ ?m = Ok _ =>
      let E := fresh "Hm" in destruct m eqn:E; [cbn [result_bind] in H | discriminate H]
  end.

Ltac walk_ok H := repeat step_ok H; bool_to_prop.

(** Walks a hypothesis [... = None] through functions that return an error. *)
Ltac step_none H :=
  match type of H with
  | first_err ?o _ = None =>
      let E := fresh "Ho" in destruct o eqn:E; [discriminate H | cbn [first_err] in H]
  | (if ?c then Some _ else _) = None =>
      let E := fresh "Hc" in destruct c eqn:E; [discriminate H |]
  end.

Ltac walk_none H := repeat step_none H; bool_to_prop.

(** ** Generic lemmas *)

Lemma guard_err_false {E A} (e : E) (k : result E A) : guard_err false e k = k.
Proof. reflexivity. Qed.

Lemma guard_err_ok {E A} c (e : E) (k : result E A) a :
  guard_err c e k = Ok a ↔ c = false ∧ k = Ok a.
Proof. destruct c; cbn; naive_solver. Qed.

Lemma check_err_ok {E A} o (k : result E A) a :
  check_err o k = Ok a ↔ o = None ∧ k = Ok a.
Proof. destruct o; cbn; naive_solver. Qed.

Lemma first_err_none {E} (o k : option E) :
  first_err o k = None ↔ o = None ∧ k = None.
Proof. destruct o; cbn; naive_solver. Qed.

#[export] Hint Rewrite @guard_err_ok @check_err_ok @first_err_none : go.

Lemma take_drop_middle_app {A} (n : nat) (l : list A) : take n l ++ drop n l = l.
Proof. apply take_drop. Qed.

Lemma app_take_length {A} (l k : list A) : take (length l) (l ++ k) = l.
Proof. rewrite take_app_le by lia. apply take_ge; lia. Qed.

Lemma app_drop_length {A} (l k : list A) : drop (length l) (l ++ k) = k.
Proof. rewrite drop_app_ge by lia. replace (length l - length l)%nat with 0%nat by lia. done. Qed.

Lemma NoDup_fst_filter {A B} (P : A * B → Prop) `{!∀ x, Decision (P x)} (l : list (A * B)) :
  NoDup l.*1 → NoDup (filter P l).*1.
Proof.
  induction l as [|[a b] l IH]; [done|]. rewrite fmap_cons.
  intros [Ha Hnd]%NoDup_cons. rewrite filter_cons. case_decide; [|by apply IH].
  cbn. apply NoDup_cons. split; [|by apply IH].
  rewrite list_elem_of_fmap. intros (x & Hx & Hin). apply list_elem_of_filter in Hin as [_ Hin].
  apply Ha. rewrite list_elem_of_fmap. eauto.
Qed.

Lemma filter_all {A} (P : A → Prop) `{!∀ x, Decision (P x)} (l : list A) :
  (∀ x, x ∈ l → P x) → filter P l = l.
Proof.
  induction l as [|a l IH]; intros Hl; [done|]. rewrite filter_cons, decide_True by (apply Hl; set_solver).
  f_equal. apply IH. set_solver.
Qed.

Lemma filter_nil_all {A} (P : A → Prop) `{!∀ x, Decision (P x)} (l : list A) :
  (∀ x, x ∈ l → ¬ P x) → filter P l = [].
Proof.
  induction l as [|a l IH]; intros Hl; [done|]. rewrite filter_cons, decide_False by (apply Hl; set_solver).
  apply IH. set_solver.
Qed.
