(* ===== verification/GoStd.v ===== *)
(** * The parts of the Go language and standard library the program uses

    Machine integers, byte slices, [encoding/binary], [unicode/utf8],
    [strings.TrimSpace], [path.Clean] and the shapes of [error] values.  A Go
    string is an arbitrary byte sequence, so it is a Rocq [string] (8-bit
    characters); a [[]byte] is a [list byte]. *)

From Stdlib Require Export Strings.Byte.
From Stdlib Require Import Ascii String.
From S2P Require Import Prelude.

Local Open Scope Z_scope.

(** ** Machine integers *)

Definition u8 (z : Z) : Z := z mod 2 ^ 8.
Definition u32 (z : Z) : Z := z mod 2 ^ 32.
Definition u64 (z : Z) : Z := z mod 2 ^ 64.

(** Conversion to (or overflow of) a signed 64-bit integer. *)
Definition i64 (z : Z) : Z := (z + 2 ^ 63) mod 2 ^ 64 - 2 ^ 63.

Definition is_i64 (z : Z) : Prop := - 2 ^ 63 ≤ z < 2 ^ 63.

(** Go's integer division truncates towards zero. *)
Definition goquot (a b : Z) : Z := Z.quot a b.

Definition MaxUint32 : Z := 2 ^ 32 - 1.

(** ** Bytes and strings *)

Definition bz (b : byte) : Z := Z.of_N (Byte.to_N b).

(** [byte(z)]: truncation to the low eight bits. *)
Definition zb (z : Z) : byte :=
  match Byte.of_N (Z.to_N (u8 z)) with Some b => b | None => x00 end.

(** [[]byte(s)] and [string(bs)] copy the bytes. *)
Definition bytes (s : string) : list byte := list_byte_of_string s.
Definition str (bs : list byte) : string := string_of_list_byte bs.

Definition zlen {A} (l : list A) : Z := Z.of_nat (length l).
Definition slen (s : string) : Z := Z.of_nat (String.length s).

#[export] Instance byte_eq_dec : EqDecision byte := byte_eq_dec.

(** ** encoding/binary: BigEndian *)

Definition PutUint32 (v : Z) : list byte :=
  [zb (Z.shiftr v 24); zb (Z.shiftr v 16); zb (Z.shiftr v 8); zb v].

(** Shorter slices panic in Go; the callers pass four bytes. *)
Definition Uint32 (bs : list byte) : Z :=
  match bs with
  | b0 :: b1 :: b2 :: b3 :: _ =>
      Z.lor (bz b3) (Z.lor (Z.shiftl (bz b2) 8)
        (Z.lor (Z.shiftl (bz b1) 16) (Z.shiftl (bz b0) 24)))
  | _ => 0
  end.

(** ** unicode/utf8 *)

Definition in_range (lo hi : Z) (b : byte) : bool := (lo <=? bz b) && (bz b <=? hi).

(** The table [first]: the size a leading byte announces and the range it
    accepts for the second byte. *)
Definition utf8_first (b : byte) : option (nat * Z * Z) :=
  let x := bz b in
  if in_range 0xC2 0xDF b then Some (2%nat, 0x80, 0xBF)
  else if x =? 0xE0 then Some (3%nat, 0xA0, 0xBF)
  else if in_range 0xE1 0xEC b then Some (3%nat, 0x80, 0xBF)
  else if x =? 0xED then Some (3%nat, 0x80, 0x9F)
  else if in_range 0xEE 0xEF b then Some (3%nat, 0x80, 0xBF)
  else if x =? 0xF0 then Some (4%nat, 0x90, 0xBF)
  else if in_range 0xF1 0xF3 b then Some (4%nat, 0x80, 0xBF)
  else if x =? 0xF4 then Some (4%nat, 0x80, 0x8F)
  else None.

Definition continuation (b : byte) : bool := in_range 0x80 0xBF b.

(** [utf8.Valid] and [utf8.ValidString]. *)
Fixpoint utf8_Valid (s : list byte) : bool :=
  match s with
  | [] => true
  | b0 :: r0 =>
      if bz b0 <? 0x80 then utf8_Valid r0
      else
        match utf8_first b0, r0 with
        | Some (2%nat, lo, hi), b1 :: r1 => in_range lo hi b1 && utf8_Valid r1
        | Some (3%nat, lo, hi), b1 :: b2 :: r2 =>
            in_range lo hi b1 && continuation b2 && utf8_Valid r2
        | Some (4%nat, lo, hi), b1 :: b2 :: b3 :: r3 =>
            in_range lo hi b1 && continuation b2 && continuation b3 && utf8_Valid r3
        | _, _ => false
        end
  end.

(** The specification: the encoding of Unicode scalar values. *)
Definition is_scalar (r : Z) : bool :=
  ((0 <=? r) && (r <? 0xD800)) || ((0xE000 <=? r) && (r <=? 0x10FFFF)).

Definition encode_rune (r : Z) : list byte :=
  if r <? 0x80 then [zb r]
  else if r <? 0x800 then [zb (0xC0 + r / 0x40); zb (0x80 + r mod 0x40)]
  else if r <? 0x10000 then
    [zb (0xE0 + r / 0x1000); zb (0x80 + r / 0x40 mod 0x40); zb (0x80 + r mod 0x40)]
  else
    [zb (0xF0 + r / 0x40000); zb (0x80 + r / 0x1000 mod 0x40);
     zb (0x80 + r / 0x40 mod 0x40); zb (0x80 + r mod 0x40)].

Definition encode_runes (rs : list Z) : list byte := mjoin (encode_rune <$> rs).

(** ** Byte-level facts *)

Lemma bz_range b : 0 ≤ bz b < 256.
Proof. unfold bz. pose proof (Byte.to_N_bounded b). lia. Qed.

Lemma zb_bz b : zb (bz b) = b.
Proof. destruct b; vm_compute; reflexivity. Qed.

Lemma bz_zb z : bz (zb z) = u8 z.
Proof.
  unfold bz, zb, u8.
  pose proof (Z.mod_pos_bound z (2 ^ 8) ltac:(lia)) as Hr.
  destruct (Byte.of_N _) as [b|] eqn:E.
  - apply Byte.to_of_N in E. rewrite E. lia.
  - apply Byte.of_N_None_iff in E. lia.
Qed.

Lemma u8_small z : 0 ≤ z < 256 → u8 z = z.
Proof. intros. unfold u8. apply Z.mod_small. lia. Qed.

Lemma u32_small z : 0 ≤ z < 2 ^ 32 → u32 z = z.
Proof. intros. unfold u32. by apply Z.mod_small. Qed.

Lemma i64_small z : is_i64 z → i64 z = z.
Proof. intros [??]. unfold i64. rewrite Z.mod_small by lia. lia. Qed.

Lemma i64_range z : is_i64 (i64 z).
Proof.
  unfold is_i64, i64. pose proof (Z.mod_pos_bound (z + 2 ^ 63) (2 ^ 64) ltac:(lia)). lia.
Qed.

Lemma bz_inj a b : bz a = bz b → a = b.
Proof. intros H. by rewrite <- (zb_bz a), H, zb_bz. Qed.

Lemma str_bytes s : str (bytes s) = s.
Proof. apply string_of_list_byte_of_string. Qed.

Lemma bytes_str bs : bytes (str bs) = bs.
Proof. apply list_byte_of_string_of_list_byte. Qed.

Lemma length_bytes s : length (bytes s) = String.length s.
Proof.
  unfold bytes, list_byte_of_string. rewrite List.length_map.
  induction s as [|a s IH]; [done|]. cbn. by rewrite IH.
Qed.

Lemma slen_bytes s : slen s = zlen (bytes s).
Proof. unfold slen, zlen. by rewrite length_bytes. Qed.

Lemma slen_str bs : slen (str bs) = zlen bs.
Proof. by rewrite slen_bytes, bytes_str. Qed.

Lemma bytes_nil s : bytes s = [] ↔ s = EmptyString.
Proof.
  split; [|intros ->; reflexivity].
  intros H. rewrite <- (str_bytes s), H. reflexivity.
Qed.

Lemma slen_nonneg s : 0 ≤ slen s.
Proof. unfold slen. lia. Qed.

Lemma slen_zero s : slen s = 0 ↔ s = EmptyString.
Proof. unfold slen. destruct s; cbn; split; intros; try done; lia. Qed.

Lemma zlen_app {A} (l k : list A) : zlen (l ++ k) = zlen l + zlen k.
Proof. unfold zlen. rewrite length_app. lia. Qed.

Lemma zlen_nonneg {A} (l : list A) : 0 ≤ zlen l.
Proof. unfold zlen. lia. Qed.

(** ** Big-endian round trips *)

Lemma length_PutUint32 v : length (PutUint32 v) = 4%nat.
Proof. reflexivity. Qed.

Lemma shiftr_u8 v k : 0 ≤ k → u8 (Z.shiftr v k) = v / 2 ^ k mod 256.
Proof. intros. unfold u8. by rewrite Z.shiftr_div_pow2. Qed.

Lemma lor_disjoint_add a b k :
  0 ≤ k → 0 ≤ a < 2 ^ k → Z.lor a (Z.shiftl b k) = a + b * 2 ^ k.
Proof.
  intros Hk Ha. rewrite <- Z.shiftl_mul_pow2 by done.
  assert (Hland : Z.land a (Z.shiftl b k) = 0).
  { apply Z.bits_inj'. intros n Hn. rewrite Z.land_spec, Z.bits_0.
    destruct (Z.lt_ge_cases n k) as [|Hge].
    - rewrite Z.shiftl_spec_low by done. apply andb_false_r.
    - destruct (decide (a = 0)) as [->|Ha0]; [by rewrite Z.bits_0|].
      rewrite (Z.bits_above_log2 a n); [done|lia|].
      apply Z.log2_lt_pow2; [lia|].
      eapply Z.lt_le_trans; [apply Ha|]. apply Z.pow_le_mono_r; lia. }
  rewrite Z.add_nocarry_lxor by done. by rewrite <- Z.lxor_lor.
Qed.

Lemma Uint32_sum b0 b1 b2 b3 r :
  Uint32 (b0 :: b1 :: b2 :: b3 :: r) = bz b3 + bz b2 * 2 ^ 8 + bz b1 * 2 ^ 16 + bz b0 * 2 ^ 24.
Proof.
  cbn [Uint32].
  pose proof (bz_range b0); pose proof (bz_range b1).
  pose proof (bz_range b2); pose proof (bz_range b3).
  rewrite (Z.lor_assoc (bz b3)), (lor_disjoint_add (bz b3)) by lia.
  rewrite Z.lor_assoc, (lor_disjoint_add (bz b3 + _)) by lia.
  rewrite (lor_disjoint_add (bz b3 + _ + _)) by lia. lia.
Qed.

Lemma Uint32_range bs : 0 ≤ Uint32 bs < 2 ^ 32.
Proof.
  destruct bs as [|b0 [|b1 [|b2 [|b3 r]]]]; try (cbn; lia).
  rewrite Uint32_sum.
  pose proof (bz_range b0); pose proof (bz_range b1).
  pose proof (bz_range b2); pose proof (bz_range b3). lia.
Qed.

Lemma Uint32_PutUint32 v r : Uint32 (PutUint32 v ++ r) = u32 v.
Proof.
  unfold PutUint32. cbn [app]. rewrite Uint32_sum, !bz_zb, !shiftr_u8 by lia.
  unfold u8, u32. Z.to_euclidean_division_equations. lia.
Qed.

Lemma PutUint32_Uint32 b0 b1 b2 b3 r :
  PutUint32 (Uint32 (b0 :: b1 :: b2 :: b3 :: r)) = [b0; b1; b2; b3].
Proof.
  rewrite Uint32_sum. unfold PutUint32.
  pose proof (bz_range b0); pose proof (bz_range b1).
  pose proof (bz_range b2); pose proof (bz_range b3).
  repeat f_equal; apply bz_inj; rewrite bz_zb.
  all: rewrite ?shiftr_u8 by lia; unfold u8.
  all: Z.to_euclidean_division_equations; lia.
Qed.

#[export] Hint Resolve bz_range slen_nonneg Uint32_range : go.
#[export] Hint Rewrite str_bytes bytes_str bz_zb zb_bz : go.
