(* ===== verification/Errors.v ===== *)
(** * Error values: the sentinels of the package and the ways Go wraps them *)

From Stdlib Require Import Ascii String.
From S2P Require Import Prelude.

(** The [var (...)] blocks of the package, one type per source file. *)

Inductive protocol_error :=
| ErrInvalidFrame
| ErrUnsupportedCodec
| ErrUnexpectedCodec
| ErrPayloadTooLarge
| ErrInvalidMessageType
| ErrUnsupportedBodyValue
| ErrInvalidMethodName
| ErrInvalidInvocationID
| ErrInvalidFrameKind.

Inductive server_error :=
| ErrMissingAddr
| ErrNilHubFactory
| ErrNilHub
| ErrHandlerShuttingDown
| ErrConnectionNotFound
| ErrInvalidGroup
| ErrSlowConsumer.

Inductive dispatcher_error :=
| ErrMethodNotFound
| errNilDispatcherTarget.

(** Comparable error values: the package's own and those of [context]. *)
Inductive sentinel :=
| Sproto (e : protocol_error)
| Sserver (e : server_error)
| Sdispatcher (e : dispatcher_error)
| Canceled
| DeadlineExceeded.

(** An [error]: a sentinel, an [errors.New] of its own, [fmt.Errorf] with one
    [%w] between two literal texts, [errors.Join], or a value made by code
    outside the package, of which only the text is known. *)
Inductive error :=
| Sentinel (s : sentinel)
| New (text : string)
| Errorf (pre : string) (w : error) (post : string)
| Join (es : list error)
| External (text : string).

Coercion Sproto : protocol_error >-> sentinel.
Coercion Sserver : server_error >-> sentinel.
Coercion Sdispatcher : dispatcher_error >-> sentinel.
Coercion Sentinel : sentinel >-> error.

#[export] Instance protocol_error_eq_dec : EqDecision protocol_error.
Proof. solve_decision. Defined.
#[export] Instance server_error_eq_dec : EqDecision server_error.
Proof. solve_decision. Defined.
#[export] Instance dispatcher_error_eq_dec : EqDecision dispatcher_error.
Proof. solve_decision. Defined.
#[export] Instance sentinel_eq_dec : EqDecision sentinel.
Proof. solve_decision. Defined.

(** How a call ends that gives no value: it returns an error, or it panics at
    run time (an index out of range, a method of reflect on the wrong kind). *)
Inductive failure :=
| Returned (e : error)
| Panicked.

Definition panics {A} (r : result failure A) : bool :=
  match r with Err Panicked => true | _ => false end.

Local Open Scope string_scope.

Definition protocol_error_text (e : protocol_error) : string :=
  match e with
  | ErrInvalidFrame => "signalg: invalid protocol frame"
  | ErrUnsupportedCodec => "signalg: unsupported serialization codec"
  | ErrUnexpectedCodec => "signalg: unexpected serialization codec"
  | ErrPayloadTooLarge => "signalg: protocol payload too large"
  | ErrInvalidMessageType => "signalg: websocket message must be binary"
  | ErrUnsupportedBodyValue => "signalg: unsupported body value"
  | ErrInvalidMethodName => "signalg: invalid method name"
  | ErrInvalidInvocationID => "signalg: invalid invocation id"
  | ErrInvalidFrameKind => "signalg: invalid frame kind"
  end.

Definition server_error_text (e : server_error) : string :=
  match e with
  | ErrMissingAddr => "signalg: server addr is required"
  | ErrNilHubFactory => "signalg: hub factory is required"
  | ErrNilHub => "signalg: hub factory returned nil hub"
  | ErrHandlerShuttingDown => "signalg: handler is shutting down"
  | ErrConnectionNotFound => "signalg: connection is not managed by handler"
  | ErrInvalidGroup => "signalg: invalid group"
  | ErrSlowConsumer => "signalg: slow consumer"
  end.

Definition dispatcher_error_text (e : dispatcher_error) : string :=
  match e with
  | ErrMethodNotFound => "signalg: method not found"
  | errNilDispatcherTarget => "signalg: nil dispatcher target"
  end.

Definition sentinel_text (s : sentinel) : string :=
  match s with
  | Sproto e => protocol_error_text e
  | Sserver e => server_error_text e
  | Sdispatcher e => dispatcher_error_text e
  | Canceled => "context canceled"
  | DeadlineExceeded => "context deadline exceeded"
  end.

(** The newline that separates the texts of a joined error. *)
Definition newline : string := String (ascii_of_nat 10) "".

(** [err.Error()]. *)
Fixpoint error_text (e : error) : string :=
  match e with
  | Sentinel s => sentinel_text s
  | New t => t
  | Errorf pre w post => pre ++ error_text w ++ post
  | Join es =>
      (fix go (es : list error) : string :=
         match es with
         | [] => ""
         | [e] => error_text e
         | e :: es => error_text e ++ newline ++ go es
         end) es
  | External t => t
  end.

(** [errors.Is(err, target)]: the tree of wrapped errors holds the target. *)
Fixpoint errors_Is (e : error) (t : sentinel) : bool :=
  match e with
  | Sentinel s => bool_decide (s = t)
  | Errorf _ w _ => errors_Is w t
  | Join es => existsb (λ e, errors_Is e t) es
  | New _ | External _ => false
  end.

(** [errors.Join(errs...)]: nil values are dropped, and nothing left is nil. *)
Definition errors_Join (es : list (option error)) : option error :=
  match omap id es with
  | [] => None
  | es => Some (Join es)
  end.

Lemma errors_Join_none es : errors_Join es = None ↔ Forall (λ e, e = None) es.
Proof.
  unfold errors_Join. induction es as [|[e|] es IH]; cbn.
  - split; [constructor|done].
  - split; [done|]. intros H. by inversion H.
  - rewrite IH, Forall_cons. tauto.
Qed.
