(* ===== verification/Protocol.v ===== *)
(** * The wire protocol (protocol.go)

    Frame headers, the three body codecs and the frame decoder.  The encoders
    that the connection uses to build frames are in Framing.v. *)

From Stdlib Require Import Ascii String.
From S2P Require Import Prelude GoStd Errors.

Local Open Scope Z_scope.
Local Open Scope go_scope.

(** ** Constants *)

Definition HeaderSize : Z := 8.
Definition MaxMethodNameLen : Z := 255.
Definition MaxInvocationIDLen : Z := 255.
Definition DefaultMaxPayloadSize : Z := Z.shiftl 1 20.
Definition protocolMagic : Z := 0x5.
Definition protocolVersion : Z := 1.

(** [type Serialization uint8] and [type FrameKind uint8]: any 8-bit value is
    possible, the constants name a few of them. *)
Definition Serialization := Z.
Definition SerializationMessagePack : Serialization := 0.
Definition SerializationProtobuf : Serialization := 1.
Definition SerializationJSON : Serialization := 2.

Definition FrameKind := Z.
Definition FrameKindMessage : FrameKind := 0.
Definition FrameKindInvoke : FrameKind := 1.
Definition FrameKindCompletion : FrameKind := 2.
Definition FrameKindError : FrameKind := 3.
Definition FrameKindPing : FrameKind := 4.
Definition FrameKindPong : FrameKind := 5.

Definition Serialization_String (s : Serialization) : string :=
  if s =? SerializationMessagePack then "messagepack"
  else if s =? SerializationProtobuf then "protobuf"
  else if s =? SerializationJSON then "json"
  else "unknown(" ++ pretty s ++ ")".

Definition FrameKind_String (k : FrameKind) : string :=
  if k =? FrameKindMessage then "message"
  else if k =? FrameKindInvoke then "invoke"
  else if k =? FrameKindCompletion then "completion"
  else if k =? FrameKindError then "error"
  else if k =? FrameKindPing then "ping"
  else if k =? FrameKindPong then "pong"
  else "unknown(" ++ pretty k ++ ")".

Record FrameHeader := {
  Magic : Z;
  Version : Z;
  Codec : Serialization;
  Kind : FrameKind;
  MethodLen : Z;
  InvocationIDLen : Z;
  BodyLen : Z;
}.

(** ** Body codecs *)

(** The codec packages the source calls: [msgpack], [proto] and [encoding/json]
    over the non-nil dynamic values [V]; an [any] is an [option V].  Decoding
    returns the target after the call. *)
Class ExternalCodecs (V : Type) := {
  msgpack_Marshal : V → result error (list byte);
  msgpack_Unmarshal : list byte → option V → option V * option error;
  json_Marshal : V → result error (list byte);
  json_Unmarshal : list byte → option V → option V * option error;
  is_proto_Message : V → bool;
  proto_MarshalAppend : list byte → V → list byte * option error;
  proto_Unmarshal : list byte → V → V * option error;
}.

(** [type BodyCodec interface]. *)
Record BodyCodec (V : Type) := {
  codec_Serialization : Serialization;
  codec_MarshalAppend : list byte → option V → list byte * option error;
  codec_Unmarshal : list byte → option V → option V * option error;
}.
Arguments codec_Serialization {V} b.
Arguments codec_MarshalAppend {V} b dst v.
Arguments codec_Unmarshal {V} b data v.

Section codecs.
Context {V : Type} `{!ExternalCodecs V}.

Definition marshal_then_append (marshal : V → result error (list byte))
    (dst : list byte) (v : option V) : list byte * option error :=
  match v with
  | None => (dst, None)
  | Some v =>
      match marshal v with
      | Err err => (dst, Some err)
      | Ok body => (dst ++ body, None)
      end
  end.

Definition unmarshal_nonempty
    (unmarshal : list byte → option V → option V * option error)
    (data : list byte) (v : option V) : option V * option error :=
  if zlen data =? 0 then (v, None) else unmarshal data v.

Definition messagePackCodec : BodyCodec V := {|
  codec_Serialization := SerializationMessagePack;
  codec_MarshalAppend := marshal_then_append msgpack_Marshal;
  codec_Unmarshal := unmarshal_nonempty msgpack_Unmarshal;
|}.

Definition jsonCodec : BodyCodec V := {|
  codec_Serialization := SerializationJSON;
  codec_MarshalAppend := marshal_then_append json_Marshal;
  codec_Unmarshal := unmarshal_nonempty json_Unmarshal;
|}.

Definition protobuf_MarshalAppend (dst : list byte) (v : option V) : list byte * option error :=
  match v with
  | None => (dst, None)
  | Some msg =>
      if negb (is_proto_Message msg) then
        (dst, Some (Errorf "" ErrUnsupportedBodyValue
                      ": protobuf body must implement proto.Message"))
      else proto_MarshalAppend dst msg
  end.

Definition protobuf_Unmarshal (data : list byte) (v : option V) : option V * option error :=
  match v with
  | Some msg =>
      if negb (is_proto_Message msg) then
        (v, Some (Errorf "" ErrUnsupportedBodyValue
                    ": protobuf target must implement proto.Message"))
      else if zlen data =? 0 then (v, None)
      else let '(msg', err) := proto_Unmarshal data msg in (Some msg', err)
  | None =>
      (v, Some (Errorf "" ErrUnsupportedBodyValue
                  ": protobuf target must implement proto.Message"))
  end.

Definition protobufCodec : BodyCodec V := {|
  codec_Serialization := SerializationProtobuf;
  codec_MarshalAppend := protobuf_MarshalAppend;
  codec_Unmarshal := protobuf_Unmarshal;
|}.

Definition newBodyCodec (s : Serialization) : result error (BodyCodec V) :=
  if s =? SerializationMessagePack then Ok messagePackCodec
  else if s =? SerializationProtobuf then Ok protobufCodec
  else if s =? SerializationJSON then Ok jsonCodec
  else Err (Errorf "" ErrUnsupportedCodec (": " ++ Serialization_String s)).
End codecs.

(** ** Messages and the decoder *)

Record Message (V : Type) := {
  msg_Header : FrameHeader;
  msg_Kind : FrameKind;
  msg_Method : string;
  msg_InvocationID : string;
  msg_Payload : list byte;
  msg_codec : option (BodyCodec V);
}.
Arguments msg_Header {V} m.
Arguments msg_Kind {V} m.
Arguments msg_Method {V} m.
Arguments msg_InvocationID {V} m.
Arguments msg_Payload {V} m.
Arguments msg_codec {V} m.

Definition Message_Decode {V} (m : Message V) (dst : option V) : option V * option error :=
  match msg_codec m with
  | None => (dst, Some (ErrUnsupportedCodec : error))
  | Some codec => codec_Unmarshal codec (msg_Payload m) dst
  end.

Definition normalizeMaxPayloadSize (n : Z) : Z :=
  if n <=? 0 then DefaultMaxPayloadSize else n.

(** [encodeFrameHeader(dst, header)] writes the first eight bytes of [dst]
    (a shorter slice panics; the only caller passes exactly eight). *)
Definition encodeFrameHeader (dst : list byte) (header : FrameHeader) : list byte :=
  let dst := <[0%nat := zb (Z.lor (Z.shiftl protocolMagic 4) (Z.land protocolVersion 0x0f))]> dst in
  let dst := <[1%nat := zb (Z.lor (u8 (Z.shiftl (Codec header) 4)) (Z.land (Kind header) 0x0f))]> dst in
  let dst := <[2%nat := zb (MethodLen header)]> dst in
  let dst := <[3%nat := zb (InvocationIDLen header)]> dst in
  list_inserts 4 (PutUint32 (BodyLen header)) dst.

Definition validateMethodName (method : string) : option error :=
  if slen method =? 0 then
    Some (Errorf "" ErrInvalidMethodName ": method name is empty")
  else if MaxMethodNameLen <? slen method then
    Some (Errorf "" ErrInvalidMethodName
            (": method name length " ++ pretty (slen method) ++ " > " ++ pretty MaxMethodNameLen))
  else if negb (utf8_Valid (bytes method)) then
    Some (Errorf "" ErrInvalidMethodName ": method name must be utf-8")
  else None.

Definition validateInvocationID (invocationID : string) : option error :=
  if slen invocationID =? 0 then
    Some (Errorf "" ErrInvalidInvocationID ": invocation id is empty")
  else if MaxInvocationIDLen <? slen invocationID then
    Some (Errorf "" ErrInvalidInvocationID
            (": invocation id length " ++ pretty (slen invocationID) ++ " > "
               ++ pretty MaxInvocationIDLen))
  else if negb (utf8_Valid (bytes invocationID)) then
    Some (Errorf "" ErrInvalidInvocationID ": invocation id must be utf-8")
  else None.

Definition validateFrameKind (kind : FrameKind) : option error :=
  if (kind =? FrameKindMessage) || (kind =? FrameKindInvoke) || (kind =? FrameKindCompletion)
     || (kind =? FrameKindError) || (kind =? FrameKindPing) || (kind =? FrameKindPong)
  then None
  else Some (Errorf "" ErrInvalidFrameKind (": " ++ FrameKind_String kind)).

Definition isControlFrameKind (kind : FrameKind) : bool :=
  (kind =? FrameKindPing) || (kind =? FrameKindPong).

Definition ensurePayloadSize (n maxPayloadSize : Z) : option error :=
  if (n <? 0) || (maxPayloadSize <? n) || (MaxUint32 <? u64 n) then
    Some (Errorf "" ErrPayloadTooLarge (": " ++ pretty n ++ " > " ++ pretty maxPayloadSize))
  else None.

(** The elements from [i] to [j] of a long enough slice, and [copy(dst, src)]. *)
Definition slice {A} (i j : Z) (l : list A) : list A :=
  take (Z.to_nat (j - i)) (drop (Z.to_nat i) l).
Definition go_copy {A} (dst src : list A) : list A :=
  take (length dst) src ++ drop (length src) dst.

(** [frame[i]] and [frame[i:j]] panic out of range.  (Go bounds the second by the
    capacity; bytes behind the end are not of the frame, so reading them counts
    as a panic too.) *)
Definition index_at (frame : list byte) (i : nat) : result failure Z :=
  match frame !! i with Some b => Ok (bz b) | None => Err Panicked end.
Definition slice_at (i j : Z) (frame : list byte) : result failure (list byte) :=
  if (0 <=? i) && (i <=? j) && (j <=? zlen frame) then Ok (slice i j frame) else Err Panicked.

(** The header as [decodeFrame] reads it, after its first byte. *)
Definition readHeader (magic version : Z) (frame : list byte) : result failure FrameHeader :=
  let* b1 := index_at frame 1 in
  let* b2 := index_at frame 2 in
  let* b3 := index_at frame 3 in
  let* body := slice_at 4 8 frame in
  Ok {| Magic := magic;
        Version := version;
        Codec := Z.shiftr b1 4;
        Kind := Z.land b1 0x0f;
        MethodLen := b2;
        InvocationIDLen := b3;
        BodyLen := Uint32 body |}.

Definition decodeFrame {V} (frame : list byte) (codec : option (BodyCodec V))
    (maxPayloadSize : Z) : result failure (Message V) :=
  let maxPayloadSize := normalizeMaxPayloadSize maxPayloadSize in
  fail_if zlen frame <? HeaderSize
    with Returned (Errorf "" ErrInvalidFrame ": frame shorter than header") ;;
  let* b0 := index_at frame 0 in
  let magic := Z.shiftr b0 4 in
  let version := Z.land b0 0x0f in
  fail_if negb (magic =? protocolMagic)
    with Returned (Errorf "" ErrInvalidFrame ": bad magic") ;;
  fail_if negb (version =? protocolVersion)
    with Returned (Errorf "" ErrInvalidFrame (": unsupported version " ++ pretty version)) ;;
  match codec with
  | None => Err (Returned ErrUnsupportedCodec)
  | Some codec =>
    let* header := readHeader magic version frame in
    fail_if negb (Codec header =? codec_Serialization codec)
      with Returned (Errorf "" ErrUnexpectedCodec
             (": got " ++ Serialization_String (Codec header) ++ ", want "
                ++ Serialization_String (codec_Serialization codec))) ;;
    try Returned <$> validateFrameKind (Kind header) ;;
    fail_if isControlFrameKind (Kind header) && negb (MethodLen header =? 0)
      with Returned (Errorf "" ErrInvalidMethodName ": control frame method must be empty") ;;
    fail_if isControlFrameKind (Kind header) && negb (InvocationIDLen header =? 0)
      with Returned (Errorf "" ErrInvalidInvocationID ": control frame invocation id must be empty") ;;
    fail_if isControlFrameKind (Kind header) && negb (BodyLen header =? 0)
      with Returned (Errorf "" ErrInvalidFrame ": control frame body must be empty") ;;
    fail_if negb (isControlFrameKind (Kind header))
            && (((Kind header =? FrameKindMessage) || (Kind header =? FrameKindInvoke))
                && (MethodLen header =? 0))
      with Returned (Errorf "" ErrInvalidMethodName ": method name is empty") ;;
    fail_if negb (isControlFrameKind (Kind header)) && negb (Kind header =? FrameKindMessage)
            && (InvocationIDLen header =? 0)
      with Returned (Errorf "" ErrInvalidInvocationID ": invocation id is empty") ;;
    fail_if maxPayloadSize <? BodyLen header
      with Returned (Errorf "" ErrPayloadTooLarge
             (": " ++ pretty (BodyLen header) ++ " > " ++ pretty maxPayloadSize)) ;;
    let wantLen := HeaderSize + MethodLen header + InvocationIDLen header + BodyLen header in
    fail_if negb (zlen frame =? wantLen)
      with Returned (Errorf "" ErrInvalidFrame
             (": length mismatch got " ++ pretty (zlen frame) ++ " want " ++ pretty wantLen)) ;;
    let methodStart := HeaderSize in
    let methodEnd := methodStart + MethodLen header in
    let* methodBytes := slice_at methodStart methodEnd frame in
    fail_if negb (utf8_Valid methodBytes)
      with Returned (Errorf "" ErrInvalidMethodName ": method name must be utf-8") ;;
    let invocationIDStart := methodEnd in
    let invocationIDEnd := invocationIDStart + InvocationIDLen header in
    let* invocationIDBytes := slice_at invocationIDStart invocationIDEnd frame in
    fail_if negb (utf8_Valid invocationIDBytes)
      with Returned (Errorf "" ErrInvalidInvocationID ": invocation id must be utf-8") ;;
    let* body := slice_at invocationIDEnd (zlen frame) frame in
    let payload := go_copy (replicate (Z.to_nat (BodyLen header)) x00) body in
    Ok {| msg_Header := header;
          msg_Kind := Kind header;
          msg_Method := str methodBytes;
          msg_InvocationID := str invocationIDBytes;
          msg_Payload := payload;
          msg_codec := Some codec |}
  end.

(** ** protocolConfig: methods on a pointer that may be nil *)

Record protocolConfig (V : Type) := {
  pc_codec : option (BodyCodec V);
  pc_maxPayloadSize : Z;
}.
Arguments pc_codec {V} p.
Arguments pc_maxPayloadSize {V} p.

Section config.
Context {V : Type}.

Definition newProtocolConfig `{!ExternalCodecs V} (serialization : Serialization)
    (maxPayloadSize : Z) : result error (protocolConfig V) :=
  let* codec := newBodyCodec serialization in
  Ok {| pc_codec := Some codec;
        pc_maxPayloadSize := normalizeMaxPayloadSize maxPayloadSize |}.

Definition pc_serialization (p : option (protocolConfig V)) : Serialization :=
  match p with
  | Some {| pc_codec := Some codec |} => codec_Serialization codec
  | _ => SerializationMessagePack
  end.

Definition pc_marshalAppend (p : option (protocolConfig V)) (dst : list byte) (v : option V)
    : list byte * option error :=
  match p with
  | Some {| pc_codec := Some codec |} => codec_MarshalAppend codec dst v
  | _ => (dst, Some (ErrUnsupportedCodec : error))
  end.

Definition pc_decodeFrame (p : option (protocolConfig V)) (frame : list byte)
    : result failure (Message V) :=
  match p with
  | None => Err (Returned ErrUnsupportedCodec)
  | Some p => decodeFrame frame (pc_codec p) (pc_maxPayloadSize p)
  end.

Definition pc_ensurePayloadSize (p : option (protocolConfig V)) (n : Z) : option error :=
  match p with
  | None => Some (ErrUnsupportedCodec : error)
  | Some p => ensurePayloadSize n (pc_maxPayloadSize p)
  end.
End config.
