(* ===== verification/Framing.v ===== *)
(** * Building outbound frames (connection.go, the part that is pure)

    Frame validation before sending, the sealing of a prepared buffer with its
    header, and the adaptive size hint of encode buffers. *)

From Stdlib Require Import Ascii String.
From S2P Require Import Prelude GoStd Errors Protocol.

Local Open Scope Z_scope.
Local Open Scope go_scope.

(** [var emptyFrameHeader [HeaderSize]byte]. *)
Definition emptyFrameHeader : list byte := replicate (Z.to_nat HeaderSize) x00.

Definition defaultEncodedPayloadSizeHint : Z := 128.
Definition encodedPayloadHeadroomDivisor : Z := 8.
Definition encodedPayloadDecayDivisor : Z := 8.

Definition validateProtocolFrame (kind : FrameKind) (method invocationID : string)
    : option error :=
  first_err (validateFrameKind kind) (
  if isControlFrameKind kind then
    if negb (slen method =? 0) then
      Some (Errorf "" ErrInvalidMethodName ": control frame method must be empty")
    else if negb (slen invocationID =? 0) then
      Some (Errorf "" ErrInvalidInvocationID ": control frame invocation id must be empty")
    else None
  else
    first_err
      (if (kind =? FrameKindMessage) || (kind =? FrameKindInvoke) then validateMethodName method
       else if negb (slen method =? 0) then validateMethodName method
       else None)
    (first_err
      (if negb (kind =? FrameKindMessage) then validateInvocationID invocationID
       else if negb (slen invocationID =? 0) then validateInvocationID invocationID
       else None)
     None)).

(** The bytes the two writers append to an empty buffer before the payload:
    header placeholder, method and invocation id. *)
Definition framePrefix (method invocationID : string) : list byte :=
  (emptyFrameHeader ++ bytes method) ++ bytes invocationID.

Definition prefixLen (method invocationID : string) : Z :=
  HeaderSize + slen method + slen invocationID.

(** The pure part of [enqueuePreparedProtocolFrame]: the checks on a prepared
    buffer and the header written over its first eight bytes. *)
Definition sealFrame {V} (p : option (protocolConfig V)) (kind : FrameKind)
    (method invocationID : string) (frame : list byte) : result error (list byte) :=
  fail_if zlen frame <? prefixLen method invocationID
    with Errorf "" ErrInvalidFrame ": frame shorter than header" ;;
  let bodyLen := zlen frame - prefixLen method invocationID in
  try pc_ensurePayloadSize p bodyLen ;;
  Ok (encodeFrameHeader (slice 0 HeaderSize frame)
        {| Magic := 0;
           Version := protocolVersion;
           Codec := pc_serialization p;
           Kind := kind;
           MethodLen := u8 (slen method);
           InvocationIDLen := u8 (slen invocationID);
           BodyLen := u32 bodyLen |}
      ++ drop (Z.to_nat HeaderSize) frame).

(** The bytes [writeRawProtocolFrame] hands to the queue, or its error. *)
Definition rawFrameBytes {V} (p : option (protocolConfig V)) (kind : FrameKind)
    (method invocationID : string) (payload : list byte) : result error (list byte) :=
  try validateProtocolFrame kind method invocationID ;;
  try pc_ensurePayloadSize p (zlen payload) ;;
  sealFrame p kind method invocationID (framePrefix method invocationID ++ payload).

(** The bytes [writeEncodedProtocolFrame] hands to the queue, or its error. *)
Definition encodedFrameBytes {V} (p : option (protocolConfig V)) (kind : FrameKind)
    (method invocationID : string) (body : option V) : result error (list byte) :=
  try validateProtocolFrame kind method invocationID ;;
  let '(frame, err) := pc_marshalAppend p (framePrefix method invocationID) body in
  try err ;;
  let bodyLen := zlen frame - prefixLen method invocationID in
  try pc_ensurePayloadSize p bodyLen ;;
  sealFrame p kind method invocationID frame.

(** [encodedFrameBufferSize]: the hint is the atomic field of the connection
    ([None] for a nil connection). *)
Definition encodedFrameBufferSize {V} (hint : option Z) (p : option (protocolConfig V))
    (prefixLen : Z) : Z :=
  let bodyHint :=
    match hint with
    | Some hint => if 0 <? hint then hint else defaultEncodedPayloadSizeHint
    | None => defaultEncodedPayloadSizeHint
    end in
  let bodyHint := i64 (bodyHint + goquot bodyHint encodedPayloadHeadroomDivisor) in
  let bodyHint :=
    match hint, p with
    | Some _, Some p =>
        if (0 <? pc_maxPayloadSize p) && (pc_maxPayloadSize p <? bodyHint)
        then pc_maxPayloadSize p else bodyHint
    | _, _ => bodyHint
    end in
  i64 (prefixLen + bodyHint).

(** The value one successful [CompareAndSwap] of [observeEncodedPayloadSize]
    stores over [current]. *)
Definition nextPayloadHint (current size : Z) : Z :=
  let size := if size <? defaultEncodedPayloadSizeHint then defaultEncodedPayloadSizeHint
              else size in
  let nextSample := size in
  if (0 <? current) && (nextSample <? current)
  then current - goquot (current - nextSample) encodedPayloadDecayDivisor
  else nextSample.

(** ** Headers *)

Lemma encodeFrameHeader_shape d0 d1 d2 d3 d4 d5 d6 d7 h :
  encodeFrameHeader [d0; d1; d2; d3; d4; d5; d6; d7] h =
  zb 0x51 :: zb (Z.lor (u8 (Z.shiftl (Codec h) 4)) (Z.land (Kind h) 0x0f))
    :: zb (MethodLen h) :: zb (InvocationIDLen h) :: PutUint32 (BodyLen h).
Proof. reflexivity. Qed.

Lemma list_len8 {A} (l : list A) :
  length l = 8%nat → ∃ a b c d e f g h, l = [a; b; c; d; e; f; g; h].
Proof.
  do 8 (destruct l as [|? l]; [discriminate|]). destruct l; [|discriminate].
  intros _. by repeat eexists.
Qed.

Lemma nibbles hi lo :
  0 ≤ hi < 16 → 0 ≤ lo < 16 →
  let b := bz (zb (Z.lor (u8 (Z.shiftl hi 4)) (Z.land lo 0x0f))) in
  Z.shiftr b 4 = hi ∧ Z.land b 0x0f = lo.
Proof.
  intros Hhi Hlo b. subst b. rewrite bz_zb.
  replace (Z.land lo 15) with lo
    by (change 15 with (Z.ones 4); rewrite Z.land_ones by lia; symmetry; apply Z.mod_small; lia).
  rewrite Z.shiftl_mul_pow2 by lia. rewrite (u8_small (hi * 2 ^ 4)) by lia.
  rewrite Z.lor_comm, <- Z.shiftl_mul_pow2 by lia.
  rewrite lor_disjoint_add by lia.
  rewrite u8_small by lia. split.
  - rewrite Z.shiftr_div_pow2 by lia. rewrite Z.div_add by lia.
    rewrite Z.div_small by lia. lia.
  - change 15 with (Z.ones 4). rewrite Z.land_ones by lia.
    rewrite Z.mod_add by lia. apply Z.mod_small. lia.
Qed.
