(* ===== verification/Samples.v ===== *)
(** * Concrete parameters

    The development is parametric in code the repository does not contain:
    body codecs, buffer pools, sharded maps.  The instances below are the simplest
    ones that meet what the theorems ask for; the witnesses evaluate the model
    with them. *)

From S2P Require Import Prelude GoStd Errors Protocol.

Local Open Scope Z_scope.

(** A body that is its own encoding; the JSON encoder rejects the byte 0. *)
#[export] Instance sample_codecs : ExternalCodecs (list byte) := {
  msgpack_Marshal v := Ok v;
  msgpack_Unmarshal data _ := (Some data, None);
  json_Marshal v :=
    if bool_decide (x00 ∈ v) then Err (External "json: unsupported value") else Ok v;
  json_Unmarshal data _ := (Some data, None);
  is_proto_Message _ := true;
  proto_MarshalAppend dst v := (dst ++ v, None);
  proto_Unmarshal data _ := (data, None);
}.

(** The configuration of a connection that talks MessagePack. *)
Definition sample_config : protocolConfig (list byte) :=
  {| pc_codec := Some messagePackCodec; pc_maxPayloadSize := DefaultMaxPayloadSize |}.
