(* ===== verification/ProtocolFacts.v ===== *)
(** * The wire format: encoder and decoder agree

    [frameBytes] is the reference layout of one frame and [valid_frame] the
    frames the protocol allows.  The encoders of Framing.v produce exactly the
    reference layout of valid frames, and [decodeFrame] accepts exactly those. *)

From Stdlib Require Import Ascii String.
From S2P Require Import Prelude GoStd Errors Protocol Framing Samples.

Local Open Scope Z_scope.
Local Open Scope go_scope.

(** ** The reference format *)

Definition frameBytes (ser : Serialization) (kind : FrameKind) (m i payload : list byte)
    : list byte :=
  [zb 0x51; zb (Z.lor (u8 (Z.shiftl ser 4)) (Z.land kind 0x0f)); zb (zlen m); zb (zlen i)]
  ++ PutUint32 (zlen payload) ++ m ++ i ++ payload.

(** Method and invocation id fit the kind of the frame. *)
Definition valid_names (kind : FrameKind) (m i : list byte) : Prop :=
  (0 ≤ kind ≤ 5) ∧ (zlen m ≤ 255 ∧ zlen i ≤ 255)
  ∧ (utf8_Valid m = true ∧ utf8_Valid i = true)
  ∧ (kind = 4 ∨ kind = 5 → zlen m = 0 ∧ zlen i = 0)
  ∧ (kind = 0 ∨ kind = 1 → zlen m ≠ 0)
  ∧ (kind = 1 ∨ kind = 2 ∨ kind = 3 → zlen i ≠ 0).

Definition valid_frame (maxPayload : Z) (kind : FrameKind) (m i payload : list byte) : Prop :=
  valid_names kind m i
  ∧ (kind = 4 ∨ kind = 5 → zlen payload = 0)
  ∧ zlen payload ≤ maxPayload ∧ zlen payload < 2 ^ 32.

Definition header_of (ser : Serialization) (kind : FrameKind) (m i payload : list byte)
    : FrameHeader :=
  {| Magic := protocolMagic; Version := protocolVersion; Codec := ser; Kind := kind;
     MethodLen := zlen m; InvocationIDLen := zlen i; BodyLen := zlen payload |}.

Definition message_of {V} (codec : BodyCodec V) (kind : FrameKind) (m i payload : list byte)
    : Message V :=
  {| msg_Header := header_of (codec_Serialization codec) kind m i payload;
     msg_Kind := kind;
     msg_Method := str m;
     msg_InvocationID := str i;
     msg_Payload := payload;
     msg_codec := Some codec |}.

(** ** Validation *)

Lemma validateMethodName_spec m :
  validateMethodName m = None ↔
  slen m ≠ 0 ∧ slen m ≤ 255 ∧ utf8_Valid (bytes m) = true.
Proof.
  unfold validateMethodName, MaxMethodNameLen.
  destruct (Z.eqb_spec (slen m) 0); [naive_solver|].
  destruct (Z.ltb_spec 255 (slen m)); [naive_solver lia|].
  destruct (utf8_Valid (bytes m)); cbn; naive_solver.
Qed.

Lemma validateInvocationID_spec i :
  validateInvocationID i = None ↔
  slen i ≠ 0 ∧ slen i ≤ 255 ∧ utf8_Valid (bytes i) = true.
Proof.
  unfold validateInvocationID, MaxInvocationIDLen.
  destruct (Z.eqb_spec (slen i) 0); [naive_solver|].
  destruct (Z.ltb_spec 255 (slen i)); [naive_solver lia|].
  destruct (utf8_Valid (bytes i)); cbn; naive_solver.
Qed.

Lemma validateFrameKind_spec k : validateFrameKind k = None ↔ 0 ≤ k ≤ 5.
Proof.
  unfold validateFrameKind, FrameKindMessage, FrameKindInvoke, FrameKindCompletion,
    FrameKindError, FrameKindPing, FrameKindPong.
  repeat match goal with
  | |- context [?a =? ?b] => destruct (Z.eqb_spec a b); cbn [orb]; [split; [lia|done]|]
  end.
  split; [done|lia].
Qed.

Lemma kind_cases k : 0 ≤ k ≤ 5 → k = 0 ∨ k = 1 ∨ k = 2 ∨ k = 3 ∨ k = 4 ∨ k = 5.
Proof. lia. Qed.

Lemma utf8_empty s : slen s = 0 → utf8_Valid (bytes s) = true.
Proof. rewrite slen_zero. by intros ->. Qed.

(** An optional name: checked only when present. *)
Lemma optional_check (s : string) (o : option error) (P : Prop) :
  (o = None ↔ slen s ≠ 0 ∧ P) →
  (if negb (slen s =? 0) then o else None) = None ↔ (slen s = 0 ∨ P).
Proof.
  intros Ho. destruct (Z.eqb_spec (slen s) 0); cbn; [tauto|]. rewrite Ho. tauto.
Qed.

Lemma validateProtocolFrame_spec kind m i :
  validateProtocolFrame kind m i = None ↔ valid_names kind (bytes m) (bytes i).
Proof.
  unfold validateProtocolFrame, valid_names. rewrite <- !slen_bytes.
  rewrite first_err_none, validateFrameKind_spec.
  pose proof (slen_nonneg m). pose proof (slen_nonneg i).
  pose proof (utf8_empty m). pose proof (utf8_empty i).
  pose proof (optional_check m _ _ (validateMethodName_spec m)) as Hm.
  pose proof (optional_check i _ _ (validateInvocationID_spec i)) as Hi.
  split.
  - intros [Hk H']. destruct (kind_cases kind Hk) as [->|[->|[->|[->|[->| ->]]]]];
      cbn in H'; rewrite ?first_err_none, ?validateMethodName_spec, ?validateInvocationID_spec,
        ?Hm, ?Hi in H'.
    5,6: destruct (Z.eqb_spec (slen m) 0); [|done];
         destruct (Z.eqb_spec (slen i) 0); [|done].
    all: repeat split; try lia; try tauto; destruct_and?; destruct_or?; try lia; tauto.
  - intros (Hk & Hlen & Hutf & Hctl & Hmeth & Hinv). split; [done|].
    destruct (kind_cases kind Hk) as [->|[->|[->|[->|[->| ->]]]]];
      cbn; rewrite ?first_err_none, ?validateMethodName_spec, ?validateInvocationID_spec, ?Hm, ?Hi.
    5,6: destruct Hctl as [-> ->]; [tauto|done].
    all: specialize (λ H, Hmeth H); tauto.
Qed.

Lemma ensurePayloadSize_spec n max :
  0 ≤ n < 2 ^ 63 → ensurePayloadSize n max = None ↔ n ≤ max ∧ n < 2 ^ 32.
Proof.
  intros Hn. unfold ensurePayloadSize, MaxUint32, u64.
  rewrite (Z.mod_small n) by lia.
  destruct (Z.ltb_spec n 0); [lia|]. cbn [orb].
  destruct (Z.ltb_spec max n); cbn; [naive_solver lia|].
  destruct (Z.ltb_spec (2 ^ 32 - 1) n); naive_solver lia.
Qed.

(** ** Reading frames that are long enough *)

(** The byte at a position (zero behind the end), and the header the first
    eight bytes hold. *)
Definition byte_at (f : list byte) (i : nat) : Z := bz (nth i f x00).

Definition header_fields (f : list byte) : FrameHeader := {|
  Magic := Z.shiftr (byte_at f 0) 4;
  Version := Z.land (byte_at f 0) 0x0f;
  Codec := Z.shiftr (byte_at f 1) 4;
  Kind := Z.land (byte_at f 1) 0x0f;
  MethodLen := byte_at f 2;
  InvocationIDLen := byte_at f 3;
  BodyLen := Uint32 (slice 4 8 f);
|}.

Lemma index_at_long f i : (Z.of_nat i < zlen f) → index_at f i = Ok (byte_at f i).
Proof.
  intros Hi. unfold index_at, byte_at, zlen in *.
  destruct (lookup_lt_is_Some_2 f i) as [b Hb]; [lia|]. rewrite Hb.
  by rewrite <- (nth_lookup_Some _ _ x00 _ Hb).
Qed.

Lemma slice_at_long i j f : 0 ≤ i ≤ j → j ≤ zlen f → slice_at i j f = Ok (slice i j f).
Proof.
  intros Hij Hj. unfold slice_at. destruct (Z.leb_spec 0 i), (Z.leb_spec i j), (Z.leb_spec j (zlen f));
    done || lia.
Qed.

Lemma slice_at_inv i j f l : slice_at i j f = Ok l → l = slice i j f.
Proof. unfold slice_at. destruct (_ && _); naive_solver. Qed.

Lemma slice_to_end {A} i (l : list A) : 0 ≤ i ≤ zlen l → slice i (zlen l) l = drop (Z.to_nat i) l.
Proof. intros Hi. unfold slice, zlen in *. apply take_ge. rewrite length_drop. lia. Qed.

Lemma readHeader_long f :
  8 ≤ zlen f →
  readHeader (Z.shiftr (byte_at f 0) 4) (Z.land (byte_at f 0) 0x0f) f = Ok (header_fields f).
Proof. intros H8. unfold readHeader. by rewrite !index_at_long, slice_at_long by lia. Qed.

(** ** The reference layout as the header reader sees it *)

Lemma frameBytes_length ser kind m i payload :
  zlen (frameBytes ser kind m i payload) = 8 + zlen m + zlen i + zlen payload.
Proof. unfold frameBytes. rewrite !zlen_app. unfold zlen. cbn [length PutUint32]. lia. Qed.

Lemma frameBytes_tail ser kind m i payload :
  drop 8 (frameBytes ser kind m i payload) = m ++ i ++ payload.
Proof. reflexivity. Qed.

Lemma header_fields_frameBytes ser kind m i payload :
  0 ≤ ser < 16 → 0 ≤ kind < 16 → zlen m ≤ 255 → zlen i ≤ 255 → zlen payload < 2 ^ 32 →
  header_fields (frameBytes ser kind m i payload) = header_of ser kind m i payload.
Proof.
  intros Hs Hk Hm Hi Hp. unfold header_fields, header_of.
  pose proof (zlen_nonneg m); pose proof (zlen_nonneg i); pose proof (zlen_nonneg payload).
  destruct (nibbles ser kind Hs Hk) as [Hhi Hlo].
  change (byte_at (frameBytes ser kind m i payload) 0) with (bz (zb 0x51)).
  change (byte_at (frameBytes ser kind m i payload) 1)
    with (bz (zb (Z.lor (u8 (Z.shiftl ser 4)) (Z.land kind 0x0f)))).
  change (byte_at (frameBytes ser kind m i payload) 2) with (bz (zb (zlen m))).
  change (byte_at (frameBytes ser kind m i payload) 3) with (bz (zb (zlen i))).
  change (slice 4 8 (frameBytes ser kind m i payload)) with (PutUint32 (zlen payload) ++ []).
  rewrite Hhi, Hlo, Uint32_PutUint32, (bz_zb (zlen m)), (bz_zb (zlen i)).
  rewrite !u8_small, u32_small by lia. reflexivity.
Qed.

Lemma byte_nibbles b :
  zb (Z.lor (u8 (Z.shiftl (Z.shiftr (bz b) 4) 4)) (Z.land (Z.land (bz b) 0x0f) 0x0f)) = b.
Proof. destruct b; vm_compute; reflexivity. Qed.

Lemma shiftr4_range b : 0 ≤ Z.shiftr (bz b) 4 < 16.
Proof.
  pose proof (bz_range b). rewrite Z.shiftr_div_pow2 by lia.
  split; [apply Z.div_pos; lia|apply Z.div_lt_upper_bound; lia].
Qed.

Lemma land15_range z : 0 ≤ Z.land z 0x0f < 16.
Proof. change 15 with (Z.ones 4). rewrite Z.land_ones by lia. apply Z.mod_pos_bound. lia. Qed.

(** A frame long enough whose header announces its own length is the reference
    layout of the fields read from it. *)
Lemma frame_reconstruct f :
  8 ≤ zlen f →
  let h := header_fields f in
  zlen f = 8 + MethodLen h + InvocationIDLen h + BodyLen h →
  Magic h = protocolMagic → Version h = protocolVersion →
  let m := slice 8 (8 + MethodLen h) f in
  let i := slice (8 + MethodLen h) (8 + MethodLen h + InvocationIDLen h) f in
  let payload := drop (Z.to_nat (8 + MethodLen h + InvocationIDLen h)) f in
  f = frameBytes (Codec h) (Kind h) m i payload ∧
  zlen m = MethodLen h ∧ zlen i = InvocationIDLen h ∧ zlen payload = BodyLen h.
Proof.
  intros H8 h Hlen Hmag Hver m i payload.
  destruct f as [|b0 [|b1 [|b2 [|b3 [|b4 [|b5 [|b6 [|b7 r]]]]]]]];
    try (exfalso; unfold zlen in H8; cbn in H8; lia).
  pose proof (bz_range b2) as R2. pose proof (bz_range b3) as R3.
  pose proof (Uint32_range [b4; b5; b6; b7]) as R4.
  change (MethodLen h) with (bz b2) in *. change (InvocationIDLen h) with (bz b3) in *.
  change (BodyLen h) with (Uint32 [b4; b5; b6; b7]) in *.
  assert (Hr : zlen r = bz b2 + bz b3 + Uint32 [b4; b5; b6; b7]).
  { unfold zlen in *. cbn [length] in Hlen. lia. }
  assert (Hm : m = take (Z.to_nat (bz b2)) r).
  { unfold m, slice. replace (8 + bz b2 - 8) with (bz b2) by lia. reflexivity. }
  assert (Hi : i = take (Z.to_nat (bz b3)) (drop (Z.to_nat (bz b2)) r)).
  { unfold i, slice. replace (8 + bz b2 + bz b3 - (8 + bz b2)) with (bz b3) by lia.
    replace (Z.to_nat (8 + bz b2)) with (8 + Z.to_nat (bz b2))%nat by lia. reflexivity. }
  assert (Hp : payload = drop (Z.to_nat (bz b3)) (drop (Z.to_nat (bz b2)) r)).
  { unfold payload. rewrite drop_drop.
    replace (Z.to_nat (8 + bz b2 + bz b3)) with (8 + (Z.to_nat (bz b2) + Z.to_nat (bz b3)))%nat
      by lia. reflexivity. }
  assert (Lm : zlen m = bz b2).
  { rewrite Hm. unfold zlen in *. rewrite length_take. lia. }
  assert (Li : zlen i = bz b3).
  { rewrite Hi. unfold zlen in *. rewrite length_take, length_drop. lia. }
  assert (Lp : zlen payload = Uint32 [b4; b5; b6; b7]).
  { rewrite Hp. unfold zlen in *. rewrite !length_drop. lia. }
  split; [|done]. unfold frameBytes. rewrite Lm, Li, Lp, !zb_bz, PutUint32_Uint32.
  change (Codec h) with (Z.shiftr (bz b1) 4). change (Kind h) with (Z.land (bz b1) 0x0f).
  rewrite byte_nibbles, Hm, Hi, Hp, !take_drop.
  change (Magic h) with (Z.shiftr (bz b0) 4) in Hmag.
  change (Version h) with (Z.land (bz b0) 0x0f) in Hver.
  replace b0 with (zb 0x51); [reflexivity|].
  rewrite <- (byte_nibbles b0), Hmag, Hver. reflexivity.
Qed.

(** ** The decoder accepts exactly the valid frames *)

Lemma go_copy_exact (n : nat) (l : list byte) : length l = n → go_copy (replicate n x00) l = l.
Proof.
  intros <-. unfold go_copy. rewrite length_replicate, take_ge, drop_ge by
    (rewrite ?length_replicate; lia). apply app_nil_r.
Qed.

Lemma isControl_spec k : isControlFrameKind k = true ↔ k = 4 ∨ k = 5.
Proof.
  unfold isControlFrameKind, FrameKindPing, FrameKindPong.
  rewrite orb_true_iff, !Z.eqb_eq. tauto.
Qed.

Lemma slice_app_mid {A} (p m r : list A) :
  slice (zlen p) (zlen p + zlen m) (p ++ m ++ r) = m.
Proof.
  unfold slice, zlen. replace (Z.to_nat (_ + _ - _)) with (length m) by lia.
  rewrite Nat2Z.id, app_drop_length. apply app_take_length.
Qed.

Lemma decodeFrame_complete {V} (codec : BodyCodec V) max kind m i payload :
  0 ≤ codec_Serialization codec < 16 →
  valid_frame (normalizeMaxPayloadSize max) kind m i payload →
  decodeFrame (frameBytes (codec_Serialization codec) kind m i payload) (Some codec) max
  = Ok (message_of codec kind m i payload).
Proof.
  intros Hser ((Hk & (Hm & Hi) & (Um & Ui) & Hctl & Hmeth & Hinv) & Hbody & Hmax & H32).
  pose proof (zlen_nonneg m); pose proof (zlen_nonneg i); pose proof (zlen_nonneg payload).
  set (f := frameBytes _ _ _ _ _).
  assert (Hlen : zlen f = 8 + zlen m + zlen i + zlen payload) by apply frameBytes_length.
  assert (Hh : header_fields f = header_of (codec_Serialization codec) kind m i payload)
    by (apply header_fields_frameBytes; lia).
  unfold decodeFrame, HeaderSize. destruct (Z.ltb_spec (zlen f) 8); [lia|]. cbn [guard_err].
  rewrite index_at_long by lia. cbn [result_bind].
  change (byte_at f 0) with (bz (zb 0x51)) at 1 2. cbn [guard_err].
  change (negb (Z.shiftr (bz (zb 0x51)) 4 =? protocolMagic)) with false.
  change (negb (Z.land (bz (zb 0x51)) 0x0f =? protocolVersion)) with false. cbn [guard_err].
  rewrite readHeader_long, Hh by lia. cbn [result_bind].
  unfold header_of; cbn [Magic Version Codec Kind MethodLen InvocationIDLen BodyLen].
  rewrite !Z.eqb_refl. cbn [negb guard_err check_err].
  rewrite (proj2 (validateFrameKind_spec kind) Hk). cbn [check_err fmap option_fmap option_map].
  rewrite Hlen, Z.eqb_refl. cbn [negb guard_err].
  rewrite !slice_at_long by lia. cbn [result_bind].
  assert (Sm : slice 8 (8 + zlen m) f = m).
  { apply (slice_app_mid (take 8 f) m (i ++ payload)). }
  assert (Si : slice (8 + zlen m) (8 + zlen m + zlen i) f = i).
  { replace (8 + zlen m) with (zlen (take 8 f ++ m)) by (rewrite zlen_app; reflexivity).
    assert (Ef : f = (take 8 f ++ m) ++ i ++ payload) by (rewrite <- app_assoc; reflexivity).
    rewrite Ef at 3. apply slice_app_mid. }
  assert (Sp : drop (Z.to_nat (8 + zlen m + zlen i)) f = payload).
  { replace (Z.to_nat (8 + zlen m + zlen i)) with (length ((take 8 f ++ m) ++ i)).
    - assert (Ef : f = ((take 8 f ++ m) ++ i) ++ payload) by (rewrite <- !app_assoc; reflexivity).
      rewrite Ef at 2. apply app_drop_length.
    - rewrite !length_app. unfold zlen. change (length (take 8 f)) with 8%nat. lia. }
  rewrite <- Hlen, (slice_to_end _ f), Sm, Si, Sp, Um, Ui by lia. cbn [negb guard_err result_bind].
  rewrite go_copy_exact by (unfold zlen; lia).
  destruct (Z.ltb_spec (normalizeMaxPayloadSize max) (zlen payload)); [lia|].
  destruct (isControlFrameKind kind) eqn:Hc.
  - apply isControl_spec in Hc as Hc'. unfold message_of, header_of.
    destruct (Hctl Hc') as [-> ->]. rewrite (Hbody Hc'). reflexivity.
  - assert (Hnc : ¬ (kind = 4 ∨ kind = 5)) by (rewrite <- isControl_spec, Hc; done).
    unfold FrameKindMessage, FrameKindInvoke. cbn [negb andb guard_err].
    destruct (Z.eqb_spec kind 0); [|destruct (Z.eqb_spec kind 1)];
      cbn [negb andb orb guard_err].
    all: repeat match goal with
         | |- context [?a =? 0] => destruct (Z.eqb_spec a 0); [exfalso; lia|]
         end; reflexivity.
Qed.

(** Walks a hypothesis that [decodeFrame] accepts [f]. *)
Ltac walk_frame H :=
  unfold decodeFrame, HeaderSize in H; step_ok H; bool_to_prop;
  match goal with H0 : 8 ≤ zlen ?f |- _ =>
    rename H0 into Hlong; rewrite (index_at_long f 0) in H by lia; cbn [result_bind] in H;
    do 2 step_ok H; rewrite (readHeader_long f) in H by lia; cbn [result_bind] in H
  end;
  walk_ok H;
  repeat match goal with H0 : slice_at _ _ _ = Ok _ |- _ => apply slice_at_inv in H0; subst end;
  repeat match goal with H0 : Returned <$> _ = None |- _ => apply fmap_None in H0 end.

Lemma decodeFrame_sound {V} f (codec : BodyCodec V) max msg :
  decodeFrame f (Some codec) max = Ok msg →
  ∃ kind m i payload,
    valid_frame (normalizeMaxPayloadSize max) kind m i payload ∧
    f = frameBytes (codec_Serialization codec) kind m i payload ∧
    msg = message_of codec kind m i payload.
Proof.
  intros H. walk_frame H. pose proof (frame_reconstruct f Hlong) as R.
  set (h := header_fields f) in *. cbn zeta in R.
  destruct R as (Ef & Lm & Li & Lp); [done..|].
  match goal with H0 : validateFrameKind _ = None |- _ => apply validateFrameKind_spec in H0 as Hk end.
  set (m := slice 8 (8 + MethodLen h) f) in *.
  set (i := slice (8 + MethodLen h) (8 + MethodLen h + InvocationIDLen h) f) in *.
  set (payload := drop _ f) in *.
  exists (Kind h), m, i, payload.
  assert (Hcodec : Codec h = codec_Serialization codec) by done.
  assert (Hmagic : Magic h = protocolMagic) by done.
  assert (Hversion : Version h = protocolVersion) by done.
  pose proof (bz_range (nth 2 f x00)) as R2. pose proof (bz_range (nth 3 f x00)) as R3.
  fold (byte_at f 2) in R2. fold (byte_at f 3) in R3.
  change (byte_at f 2) with (MethodLen h) in R2. change (byte_at f 3) with (InvocationIDLen h) in R3.
  pose proof (Uint32_range (slice 4 8 f)) as R4. change (Uint32 (slice 4 8 f)) with (BodyLen h) in R4.
  rewrite slice_to_end in H by lia. fold payload in H.
  rewrite go_copy_exact in H by (unfold zlen in Lp; lia).
  split; [|split; [by rewrite <- Hcodec|]].
  - unfold valid_frame, valid_names. rewrite Lm, Li, Lp.
    destruct (kind_cases _ Hk) as [E|[E|[E|[E|[E|E]]]]]; rewrite E in *;
      cbn [isControlFrameKind FrameKindPing FrameKindPong FrameKindMessage FrameKindInvoke
           Z.eqb Pos.eqb negb andb orb] in *; bool_to_prop.
    all: split_and!; try assumption; try lia.
  - injection H as <-. unfold message_of, header_of. rewrite Lm, Li, Lp, <- Hcodec.
    assert (Eh : h = {| Magic := protocolMagic; Version := protocolVersion; Codec := Codec h;
      Kind := Kind h; MethodLen := MethodLen h; InvocationIDLen := InvocationIDLen h;
      BodyLen := BodyLen h |}) by (destruct h; cbn in *; congruence).
    rewrite Eh at 1. reflexivity.
Qed.

(** ** The encoders produce the reference layout *)

Lemma framePrefix_app m i payload :
  framePrefix m i ++ payload = emptyFrameHeader ++ bytes m ++ bytes i ++ payload.
Proof. unfold framePrefix. by rewrite <- !app_assoc. Qed.

Lemma framePrefix_length m i : zlen (framePrefix m i) = prefixLen m i.
Proof.
  unfold framePrefix, prefixLen, HeaderSize. rewrite !zlen_app, <- !slen_bytes. reflexivity.
Qed.

Lemma pc_ensurePayloadSize_spec {V} (p : protocolConfig V) n :
  0 ≤ n < 2 ^ 63 →
  pc_ensurePayloadSize (Some p) n = None ↔ n ≤ pc_maxPayloadSize p ∧ n < 2 ^ 32.
Proof. apply ensurePayloadSize_spec. Qed.

Lemma ensure_none {V} (p : protocolConfig V) n :
  0 ≤ n → n ≤ pc_maxPayloadSize p → n < 2 ^ 32 → pc_ensurePayloadSize (Some p) n = None.
Proof. intros. apply pc_ensurePayloadSize_spec; [lia|done]. Qed.

Lemma sealFrame_ok {V} (p : protocolConfig V) kind m i payload :
  valid_names kind (bytes m) (bytes i) →
  zlen payload ≤ pc_maxPayloadSize p → zlen payload < 2 ^ 32 →
  sealFrame (Some p) kind m i (framePrefix m i ++ payload)
  = Ok (frameBytes (pc_serialization (Some p)) kind (bytes m) (bytes i) payload).
Proof.
  intros Hn Hmax H32. destruct Hn as (_ & (Hm & Hi) & _).
  rewrite <- slen_bytes in Hm, Hi.
  pose proof (slen_nonneg m); pose proof (slen_nonneg i); pose proof (zlen_nonneg payload).
  unfold sealFrame. rewrite zlen_app, framePrefix_length.
  replace (prefixLen m i + zlen payload - prefixLen m i) with (zlen payload) by lia.
  rewrite ensure_none by done. destruct (Z.ltb_spec (prefixLen m i + zlen payload) (prefixLen m i));
    [lia|]. cbn [guard_err check_err]. f_equal.
  rewrite framePrefix_app.
  change (slice 0 HeaderSize (emptyFrameHeader ++ bytes m ++ bytes i ++ payload))
    with [x00; x00; x00; x00; x00; x00; x00; x00].
  rewrite encodeFrameHeader_shape. cbn [Codec Kind MethodLen InvocationIDLen BodyLen].
  rewrite (u8_small (slen m)), (u8_small (slen i)), u32_small by lia.
  rewrite !slen_bytes. reflexivity.
Qed.

Lemma rawFrameBytes_ok {V} (p : protocolConfig V) kind m i payload f
    (Hlen : zlen payload < 2 ^ 63) :
  rawFrameBytes (Some p) kind m i payload = Ok f ↔
  valid_names kind (bytes m) (bytes i)
  ∧ zlen payload ≤ pc_maxPayloadSize p ∧ zlen payload < 2 ^ 32
  ∧ f = frameBytes (pc_serialization (Some p)) kind (bytes m) (bytes i) payload.
Proof.
  unfold rawFrameBytes. rewrite !check_err_ok, validateProtocolFrame_spec.
  pose proof (zlen_nonneg payload). rewrite pc_ensurePayloadSize_spec by lia.
  split.
  - intros (Hn & (Hmax & H32) & Hf). rewrite sealFrame_ok in Hf by done. naive_solver.
  - intros (Hn & Hmax & H32 & ->). split; [done|split; [done|by apply sealFrame_ok]].
Qed.

(** C15. The decoder accepts a byte sequence exactly when it is the reference
    layout of some frame the protocol allows and whose payload is within the
    limit, and returns the fields of that frame. *)
Theorem decodeFrame_iff {V} (f : list byte) (codec : BodyCodec V) max msg
    (Hser : 0 ≤ codec_Serialization codec < 16) :
  decodeFrame f (Some codec) max = Ok msg ↔
  ∃ kind m i payload,
    valid_frame (normalizeMaxPayloadSize max) kind m i payload ∧
    f = frameBytes (codec_Serialization codec) kind m i payload ∧
    msg = message_of codec kind m i payload.
Proof.
  split; [apply decodeFrame_sound|].
  intros (kind & m & i & payload & Hv & -> & ->). by apply decodeFrame_complete.
Qed.

(** C16. Round trip: a frame a peer with the same codec and limit builds with
    [writeRawProtocolFrame] decodes to the kind, method, invocation id and
    payload it was built from (control frames carry no payload). *)
Theorem raw_frame_roundtrip {V} (codec : BodyCodec V) max kind m i payload f
    (Hser : 0 ≤ codec_Serialization codec < 16) (Hmax : 0 < max)
    (Hlen : zlen payload < 2 ^ 63)
    (Hctl : isControlFrameKind kind = true → payload = [])
    (Hf : rawFrameBytes (Some {| pc_codec := Some codec; pc_maxPayloadSize := max |})
            kind m i payload = Ok f) :
  pc_decodeFrame (Some {| pc_codec := Some codec; pc_maxPayloadSize := max |}) f
  = Ok {| msg_Header := header_of (codec_Serialization codec) kind (bytes m) (bytes i) payload;
          msg_Kind := kind; msg_Method := m; msg_InvocationID := i;
          msg_Payload := payload; msg_codec := Some codec |}.
Proof.
  apply rawFrameBytes_ok in Hf as (Hn & Hle & H32 & ->); [|done].
  cbn [pc_decodeFrame pc_codec pc_maxPayloadSize pc_serialization] in *.
  rewrite decodeFrame_complete; [unfold message_of; by rewrite !str_bytes|done|].
  split; [done|]. split; [|split; [|done]].
  - rewrite <- isControl_spec. intros Hc. by rewrite (Hctl Hc).
  - unfold normalizeMaxPayloadSize. destruct (Z.leb_spec max 0); lia.
Qed.

(** The wire encoding is canonical: two byte sequences that decode to the
    same kind, method, invocation id and payload are the same sequence. *)
Lemma decodeFrame_injective {V} (codec : BodyCodec V) max f1 f2 m1 m2
    (H1 : decodeFrame f1 (Some codec) max = Ok m1)
    (H2 : decodeFrame f2 (Some codec) max = Ok m2)
    (Hk : msg_Kind m1 = msg_Kind m2) (Hm : msg_Method m1 = msg_Method m2)
    (Hi : msg_InvocationID m1 = msg_InvocationID m2) (Hp : msg_Payload m1 = msg_Payload m2) :
  f1 = f2.
Proof.
  apply decodeFrame_sound in H1 as (k1 & n1 & i1 & p1 & _ & -> & ->).
  apply decodeFrame_sound in H2 as (k2 & n2 & i2 & p2 & _ & -> & ->).
  cbn in *. apply (f_equal bytes) in Hm, Hi. rewrite !bytes_str in *. congruence.
Qed.

(** ** What a frame that is refused breaks *)

(** The fields of a frame by position, as the format describes them. *)
Definition frame_kind (f : list byte) : Z := byte_at f 1 mod 16.
Definition frame_codec (f : list byte) : Z := byte_at f 1 / 16.
Definition method_len (f : list byte) : Z := byte_at f 2.
Definition id_len (f : list byte) : Z := byte_at f 3.
Definition body_len (f : list byte) : Z :=
  byte_at f 4 * 2 ^ 24 + byte_at f 5 * 2 ^ 16 + byte_at f 6 * 2 ^ 8 + byte_at f 7.

Definition control (f : list byte) : Prop := frame_kind f = 4 ∨ frame_kind f = 5.

(** The rules of the format, each with the error for breaking it. *)
Inductive breaks {V} (f : list byte) (codec : option (BodyCodec V)) (max : Z) : protocol_error → Prop :=
| too_short : zlen f < 8 → breaks f codec max ErrInvalidFrame
| bad_magic : 8 ≤ zlen f → byte_at f 0 / 16 ≠ 5 → breaks f codec max ErrInvalidFrame
| bad_version : 8 ≤ zlen f → byte_at f 0 mod 16 ≠ 1 → breaks f codec max ErrInvalidFrame
| no_codec : codec = None → breaks f codec max ErrUnsupportedCodec
| other_codec c : 8 ≤ zlen f → codec = Some c → frame_codec f ≠ codec_Serialization c →
    breaks f codec max ErrUnexpectedCodec
| unknown_kind : 8 ≤ zlen f → 5 < frame_kind f → breaks f codec max ErrInvalidFrameKind
| control_with_method : 8 ≤ zlen f → control f → method_len f ≠ 0 →
    breaks f codec max ErrInvalidMethodName
| control_with_id : 8 ≤ zlen f → control f → id_len f ≠ 0 →
    breaks f codec max ErrInvalidInvocationID
| control_with_body : 8 ≤ zlen f → control f → body_len f ≠ 0 → breaks f codec max ErrInvalidFrame
| no_method : 8 ≤ zlen f → frame_kind f = 0 ∨ frame_kind f = 1 → method_len f = 0 →
    breaks f codec max ErrInvalidMethodName
| no_id : 8 ≤ zlen f → 1 ≤ frame_kind f ≤ 3 → id_len f = 0 →
    breaks f codec max ErrInvalidInvocationID
| too_large : 8 ≤ zlen f → normalizeMaxPayloadSize max < body_len f →
    breaks f codec max ErrPayloadTooLarge
| other_length : 8 ≤ zlen f → zlen f ≠ 8 + method_len f + id_len f + body_len f →
    breaks f codec max ErrInvalidFrame
| method_not_utf8 : 8 ≤ zlen f → utf8_Valid (slice 8 (8 + method_len f) f) = false →
    breaks f codec max ErrInvalidMethodName
| id_not_utf8 : 8 ≤ zlen f →
    utf8_Valid (slice (8 + method_len f) (8 + method_len f + id_len f) f) = false →
    breaks f codec max ErrInvalidInvocationID.

Lemma header_fields_values f :
  8 ≤ zlen f →
  Magic (header_fields f) = byte_at f 0 / 16 ∧ Version (header_fields f) = byte_at f 0 mod 16
  ∧ Codec (header_fields f) = frame_codec f ∧ Kind (header_fields f) = frame_kind f
  ∧ MethodLen (header_fields f) = method_len f ∧ InvocationIDLen (header_fields f) = id_len f
  ∧ BodyLen (header_fields f) = body_len f.
Proof.
  intros H8.
  destruct f as [|b0 [|b1 [|b2 [|b3 [|b4 [|b5 [|b6 [|b7 r]]]]]]]];
    try (exfalso; unfold zlen in H8; cbn in H8; lia).
  unfold header_fields, frame_codec, frame_kind. cbn [Magic Version Codec Kind MethodLen InvocationIDLen BodyLen].
  rewrite !Z.shiftr_div_pow2 by lia. change 0x0f with (Z.ones 4). rewrite !Z.land_ones by lia.
  split_and!; try done. etransitivity; [exact (Uint32_sum b4 b5 b6 b7 [])|]. unfold body_len, byte_at. cbn. lia.
Qed.

(** Every way a chain of early returns ends satisfies [P], when it gives no value. *)
Definition ends {A} (P : failure → Prop) (m : result failure A) : Prop :=
  match m with Ok _ => True | Err e => P e end.

Lemma ends_guard {A} (P : failure → Prop) c e (k : result failure A) :
  (c = true → P e) → (c = false → ends P k) → ends P (guard_err c e k).
Proof. destruct c; cbn; auto. Qed.

Lemma ends_check {A} (P : failure → Prop) o (k : result failure A) :
  (∀ e, o = Some e → P e) → (o = None → ends P k) → ends P (check_err o k).
Proof. destruct o; cbn; auto. Qed.

(** The error names a rule that is broken, and no other. *)
Definition names_broken {V} f (codec : option (BodyCodec V)) max (x : failure) : Prop :=
  match x with
  | Returned e => ∃ rule, breaks f codec max rule ∧ ∀ s, errors_Is e s = true ↔ s = Sproto rule
  | Panicked => False
  end.

Lemma names_rule {V} f (codec : option (BodyCodec V)) max (rule : protocol_error) text :
  breaks f codec max rule → names_broken f codec max (Returned (Errorf "" rule text)).
Proof.
  intros Hb. exists rule. split; [done|]. intros s. cbn. rewrite bool_decide_eq_true. naive_solver.
Qed.

Lemma names_kind {V} f (codec : option (BodyCodec V)) max e :
  8 ≤ zlen f → validateFrameKind (frame_kind f) = Some e → names_broken f codec max (Returned e).
Proof.
  intros Hlen He. unfold validateFrameKind in He. destruct (_ || _) eqn:Hk in He; [done|].
  injection He as <-. apply names_rule, unknown_kind; [done|]. bool_to_prop.
  unfold frame_kind, FrameKindMessage, FrameKindInvoke, FrameKindCompletion, FrameKindError,
    FrameKindPing, FrameKindPong in *.
  pose proof (Z.mod_pos_bound (byte_at f 1) 16). lia.
Qed.

Lemma field_lengths_nonneg f : 8 ≤ zlen f → 0 ≤ method_len f ∧ 0 ≤ id_len f ∧ 0 ≤ body_len f.
Proof.
  intros Hlen. destruct (header_fields_values f Hlen) as (_ & _ & _ & _ & El & Ei & Eb).
  rewrite <- Ei, <- El, <- Eb. split_and!; [apply bz_range..|apply Uint32_range].
Qed.

Lemma decodeFrame_ends {V} f (codec : option (BodyCodec V)) max :
  ends (names_broken f codec max) (decodeFrame f codec max).
Proof.
  unfold decodeFrame, HeaderSize. apply ends_guard; intros Hlen; bool_to_prop.
  { by apply names_rule, too_short. }
  destruct (header_fields_values f Hlen) as (Em & Ev & Ec & Ek & El & Ei & Eb).
  rewrite index_at_long by lia. cbn [result_bind].
  apply ends_guard; intros Hmagic; bool_to_prop.
  { apply names_rule, bad_magic; [done|]. by rewrite <- Em. }
  apply ends_guard; intros Hversion; bool_to_prop.
  { apply names_rule, bad_version; [done|]. by rewrite <- Ev. }
  destruct codec as [codec|].
  2:{ exists ErrUnsupportedCodec. split; [by apply no_codec|]. intros s. cbn.
      rewrite bool_decide_eq_true. naive_solver. }
  rewrite readHeader_long by done. cbn [result_bind]. rewrite Ec, Ek, El, Ei, Eb.
  apply ends_guard; intros Hcodec; bool_to_prop; [by eapply names_rule, other_codec|].
  apply ends_check; [|intros Hknown%fmap_None%validateFrameKind_spec].
  { intros e (e' & He & ->)%fmap_Some. by apply names_kind. }
  pose proof (isControl_spec (frame_kind f)) as Hctl. change (frame_kind f = 4 ∨ _) with (control f) in Hctl.
  apply ends_guard; intros ?; bool_to_prop; [by apply names_rule, control_with_method; [|apply Hctl|]|].
  apply ends_guard; intros ?; bool_to_prop; [by apply names_rule, control_with_id; [|apply Hctl|]|].
  apply ends_guard; intros ?; bool_to_prop; [by apply names_rule, control_with_body; [|apply Hctl|]|].
  apply ends_guard; intros ?; bool_to_prop.
  { apply names_rule, no_method; [done| |done].
    match goal with H : _ || _ = true |- _ => apply orb_true_iff in H end. by rewrite <- !Z.eqb_eq. }
  apply ends_guard; intros ?; bool_to_prop.
  { apply names_rule, no_id; [done| |done].
    assert (Hnot : ¬ control f) by (rewrite <- Hctl; congruence).
    unfold control, FrameKindMessage in *. lia. }
  apply ends_guard; intros ?; bool_to_prop; [by apply names_rule, too_large|].
  apply ends_guard; intros ?; bool_to_prop; [by apply names_rule, other_length|].
  destruct (field_lengths_nonneg f Hlen) as (? & ? & ?).
  rewrite !slice_at_long by lia. cbn [result_bind].
  apply ends_guard; intros ?; bool_to_prop; [by apply names_rule, method_not_utf8|].
  apply ends_guard; intros ?; bool_to_prop; [by apply names_rule, id_not_utf8|]. done.
Qed.

(** No bytes make the decoder panic. *)
Lemma pc_decodeFrame_returns {V} (p : option (protocolConfig V)) f : pc_decodeFrame p f ≠ Err Panicked.
Proof.
  destruct p as [p|]; [|done]. cbn. intros E.
  pose proof (decodeFrame_ends f (pc_codec p) (pc_maxPayloadSize p)) as Hends. by rewrite E in Hends.
Qed.

(** A frame that is accepted breaks no rule. *)
Lemma decodeFrame_unbroken {V} f (codec : BodyCodec V) max msg rule :
  decodeFrame f (Some codec) max = Ok msg → ¬ breaks f (Some codec) max rule.
Proof.
  intros H Hb. walk_frame H. clear H.
  destruct (header_fields_values f Hlong) as (Em & Ev & Ec & Ek & El & Ei & Eb).
  change (Z.shiftr (byte_at f 0) 4) with (Magic (header_fields f)) in *.
  change (Z.land (byte_at f 0) 15) with (Version (header_fields f)) in *.
  repeat match goal with H0 : validateFrameKind _ = None |- _ => apply validateFrameKind_spec in H0 end.
  pose proof (isControl_spec (frame_kind f)) as Hctl. change (frame_kind f = 4 ∨ _) with (control f) in Hctl.
  rewrite ?Em, ?Ev, ?Ec, ?Ek, ?El, ?Ei, ?Eb in *.
  unfold protocolMagic, protocolVersion, FrameKindMessage, FrameKindInvoke in *.
  assert (Hcases : isControlFrameKind (frame_kind f) = true ∧ control f
             ∨ isControlFrameKind (frame_kind f) = false ∧ ¬ control f).
  { destruct (isControlFrameKind (frame_kind f)); [left|right; rewrite <- Hctl]; naive_solver. }
  clear Hctl.
  destruct Hb; try congruence; try lia;
    destruct Hcases as [[E Hcontrol]|[E Hcontrol]]; rewrite ?E in *; cbn [negb andb] in *;
    repeat match goal with
      | H : (_ && _) = false |- _ => apply andb_false_iff in H
      | H : context [negb _ = false] |- _ => rewrite negb_false_iff in H
      | H : context [(_ || _) = false] |- _ => rewrite orb_false_iff in H
      | H : context [(_ =? _) = false] |- _ => rewrite Z.eqb_neq in H
      | H : context [(_ =? _) = true] |- _ => rewrite Z.eqb_eq in H
      end; unfold control in *; lia.
Qed.

(** C33. The decoder never panics, and says what is wrong.  Every byte sequence, of any
    length and with any codec, is handled without an access out of range.  An accepted frame
    breaks no rule of the format and its payload respects the limit (a limit that
    is not positive counts as the default one); the error for any other frame
    matches ([errors.Is]) the sentinel of a rule that the frame breaks, and
    no other error. *)
Theorem decodeFrame_total {V} (f : list byte) (codec : option (BodyCodec V)) max :
  match decodeFrame f codec max with
  | Ok msg => zlen (msg_Payload msg) ≤ normalizeMaxPayloadSize max
              ∧ ∀ rule, ¬ breaks f codec max rule
  | Err (Returned e) => ∃ rule, breaks f codec max rule ∧ ∀ s, errors_Is e s = true ↔ s = Sproto rule
  | Err Panicked => False
  end.
Proof.
  pose proof (decodeFrame_ends f codec max) as Hends.
  destruct (decodeFrame f codec max) as [msg|[e|]] eqn:E; [|exact Hends..].
  destruct codec as [codec|].
  - split; [|intros rule; by eapply decodeFrame_unbroken].
    by apply decodeFrame_sound in E as (k & m & i & p & (_ & _ & Hmax & _) & _ & ->).
  - exfalso. unfold decodeFrame in E. by walk_ok E.
Qed.

(** ** Witnesses *)

Definition sample_frame : list byte :=
  frameBytes SerializationMessagePack FrameKindMessage (bytes "m") [] [x01; x02].

Definition sample_message : Message (list byte) :=
  message_of messagePackCodec FrameKindMessage (bytes "m") [] [x01; x02].

Lemma decodeFrame_iff_witness :
  decodeFrame sample_frame (Some messagePackCodec) 0 = Ok sample_message ↔
  ∃ kind m i payload,
    valid_frame (normalizeMaxPayloadSize 0) kind m i payload ∧
    sample_frame = frameBytes SerializationMessagePack kind m i payload ∧
    sample_message = message_of messagePackCodec kind m i payload.
Proof. apply (decodeFrame_iff sample_frame messagePackCodec 0). by split. Defined.

Lemma raw_frame_roundtrip_witness :
  pc_decodeFrame (Some sample_config) sample_frame = Ok sample_message.
Proof.
  apply (raw_frame_roundtrip messagePackCodec DefaultMaxPayloadSize FrameKindMessage "m" ""
    [x01; x02]); [by split|reflexivity..|discriminate|reflexivity].
Defined.

