(* ===== verification/FramingFacts.v ===== *)
(** * Encoded bodies and the adaptive encode buffer *)

From Stdlib Require Import Ascii String.
From S2P Require Import Prelude GoStd Errors Protocol Framing Samples ProtocolFacts.

Local Open Scope Z_scope.
Local Open Scope go_scope.

(** ** Encoding a body appends to the buffer *)

(** What the source relies on in [proto.MarshalOptions.MarshalAppend]: it
    appends an encoding that does not depend on the buffer, or fails. *)
Class CodecLaws (V : Type) `{!ExternalCodecs V} := {
  proto_MarshalAppend_appends v :
    (∃ enc, ∀ dst, proto_MarshalAppend dst v = (dst ++ enc, None))
    ∨ (∀ dst, ∃ out err, proto_MarshalAppend dst v = (out, Some err));
}.

(** A marshaller that appends one encoding to every buffer, or fails on all. *)
Definition appends {V} (codec : BodyCodec V) (v : option V) : Prop :=
  (∃ enc, ∀ dst, codec_MarshalAppend codec dst v = (dst ++ enc, None))
  ∨ (∀ dst, ∃ out err, codec_MarshalAppend codec dst v = (out, Some err)).

#[export] Instance sample_codec_laws : CodecLaws (list byte).
Proof. split. intros v. left. by exists v. Qed.

Section codecs.
Context {V : Type} `{!ExternalCodecs V} `{!CodecLaws V}.

Lemma marshal_then_append_appends (marshal : V → result error (list byte)) v :
  (∃ enc, ∀ dst, marshal_then_append marshal dst v = (dst ++ enc, None))
  ∨ (∀ dst, ∃ out err, marshal_then_append marshal dst v = (out, Some err)).
Proof.
  destruct v as [v|]; cbn.
  - destruct (marshal v) as [enc|err]; [left|right]; eauto.
  - left. exists []. intros dst. by rewrite app_nil_r.
Qed.

Lemma newBodyCodec_appends s codec v : newBodyCodec s = Ok codec → appends codec v.
Proof.
  unfold newBodyCodec. intros H.
  repeat match type of H with (if ?c then _ else _) = _ => destruct c end; simplify_eq;
    unfold appends; cbn; try apply marshal_then_append_appends.
  destruct v as [v|]; cbn.
  - destruct (is_proto_Message v); cbn; [apply proto_MarshalAppend_appends|right; eauto].
  - left. exists []. intros dst. by rewrite app_nil_r.
Qed.

Lemma newBodyCodec_nibble s codec :
  newBodyCodec s = Ok codec → codec_Serialization codec = s ∧ 0 ≤ s < 16.
Proof.
  unfold newBodyCodec, SerializationMessagePack, SerializationProtobuf, SerializationJSON.
  intros H. repeat match type of H with
    (if ?c then _ else _) = _ => destruct c eqn:?; bool_to_prop end; by simplify_eq.
Qed.

Lemma newProtocolConfig_inv s max p :
  newProtocolConfig s max = Ok p →
  ∃ codec, newBodyCodec s = Ok codec
         ∧ p = {| pc_codec := Some codec; pc_maxPayloadSize := normalizeMaxPayloadSize max |}.
Proof.
  unfold newProtocolConfig. destruct (newBodyCodec s); cbn; naive_solver.
Qed.

Lemma encoded_is_raw s max p kind m i body pl
    (Hp : newProtocolConfig s max = Ok p)
    (Henc : pc_marshalAppend (Some p) [] body = (pl, None)) :
  encodedFrameBytes (Some p) kind m i body = rawFrameBytes (Some p) kind m i pl.
Proof.
  destruct (newProtocolConfig_inv _ _ _ Hp) as (codec & Hc & ->).
  unfold encodedFrameBytes, rawFrameBytes.
  destruct (validateProtocolFrame kind m i) eqn:Hv; cbn [check_err]; [done|].
  cbn [pc_marshalAppend] in *.
  destruct (newBodyCodec_appends _ _ body Hc) as [(enc & Happ)|Hfail].
  - rewrite Happ in Henc. injection Henc as <-. rewrite Happ. cbn [check_err].
    rewrite zlen_app, framePrefix_length.
    by replace (prefixLen m i + zlen enc - prefixLen m i) with (zlen enc) by lia.
  - destruct (Hfail []) as (out & err & E). congruence.
Qed.

(** A body the codec cannot encode never produces a frame. *)
Lemma encoded_frame_marshal_error s max p kind m i body dst err
    (Hp : newProtocolConfig s max = Ok p)
    (Henc : pc_marshalAppend (Some p) [] body = (dst, Some err)) :
  is_ok (encodedFrameBytes (Some p) kind m i body) = false.
Proof.
  destruct (newProtocolConfig_inv _ _ _ Hp) as (codec & Hc & ->).
  unfold encodedFrameBytes.
  destruct (validateProtocolFrame kind m i) eqn:Hv; cbn [check_err]; [done|].
  cbn [pc_marshalAppend] in *.
  destruct (newBodyCodec_appends _ _ body Hc) as [(enc & Happ)|Hfail]; [congruence|].
  destruct (Hfail (framePrefix m i)) as (out & err' & ->). done.
Qed.

End codecs.

(** ** The adaptive size hint *)

(** The sample that a payload of [size] bytes contributes. *)
Definition hint_sample (size : Z) : Z := Z.max size defaultEncodedPayloadSizeHint.

Lemma nextPayloadHint_eq current size :
  0 ≤ current →
  nextPayloadHint current size =
  if hint_sample size <? current
  then current - (current - hint_sample size) / 8 else hint_sample size.
Proof.
  intros Hc. unfold nextPayloadHint, hint_sample, goquot, encodedPayloadDecayDivisor.
  assert (Hs : (if size <? defaultEncodedPayloadSizeHint then defaultEncodedPayloadSizeHint
    else size) = Z.max size defaultEncodedPayloadSizeHint)
    by (destruct (Z.ltb_spec size defaultEncodedPayloadSizeHint); lia).
  rewrite !Hs. set (s := Z.max _ _). assert (128 ≤ s) by (unfold s, defaultEncodedPayloadSizeHint; lia).
  destruct (Z.ltb_spec s current); [|by rewrite andb_false_r].
  destruct (Z.ltb_spec 0 current); [|lia]. cbn. rewrite Z.quot_div_nonneg by lia. done.
Qed.

Lemma nextPayloadHint_bounds current size (Hc : 0 ≤ current) :
  defaultEncodedPayloadSizeHint ≤ nextPayloadHint current size
  ∧ hint_sample size ≤ nextPayloadHint current size ≤ Z.max current (hint_sample size)
  ∧ (current ≤ hint_sample size → nextPayloadHint current size = hint_sample size)
  ∧ (hint_sample size + 8 ≤ current → nextPayloadHint current size < current).
Proof.
  rewrite nextPayloadHint_eq by done.
  assert (defaultEncodedPayloadSizeHint ≤ hint_sample size) by (unfold hint_sample; lia).
  destruct (Z.ltb_spec (hint_sample size) current); [|lia].
  pose proof (Z.div_le_mono 8 (current - hint_sample size) 8 ltac:(lia)).
  pose proof (Z.mul_div_le (current - hint_sample size) 8 ltac:(lia)).
  pose proof (Z.div_pos (current - hint_sample size) 8 ltac:(lia) ltac:(lia)).
  change (8 / 8) with 1 in *. lia.
Qed.

Lemma nextPayloadHint_converges current size :
  0 ≤ current →
  ∃ n, Z.of_nat n ≤ current + 1 ∧
    hint_sample size ≤ Nat.iter n (λ h, nextPayloadHint h size) current < hint_sample size + 8.
Proof.
  remember (Z.to_nat current) as k eqn:Hk. revert current Hk.
  induction k as [k IH] using lt_wf_ind. intros current -> Hc.
  destruct (nextPayloadHint_bounds current size Hc) as (Hdef & Hb & Hgrow & Hdec).
  unfold defaultEncodedPayloadSizeHint in Hdef.
  destruct (Z.lt_ge_cases current (hint_sample size + 8)) as [Hlt|Hge].
  - exists 1%nat. cbn. split; [lia|].
    destruct (Z.le_gt_cases current (hint_sample size)); [rewrite Hgrow by done; lia|lia].
  - destruct (IH (Z.to_nat (nextPayloadHint current size)) ltac:(lia)
      (nextPayloadHint current size) eq_refl ltac:(lia)) as (n & Hn & Hn').
    exists (S n). split; [lia|]. by rewrite Nat.iter_succ_r.
Qed.

(** C34. The adaptive size hint: one observation moves it to a value between the
    new sample and the old hint (never below the default, to a larger sample
    at once), and observing payloads of one size over and over brings it within
    eight bytes of that size after at most [current + 1] observations. *)
Theorem payload_hint_converges current size (Hc : 0 ≤ current) :
  (defaultEncodedPayloadSizeHint ≤ nextPayloadHint current size
   ∧ hint_sample size ≤ nextPayloadHint current size ≤ Z.max current (hint_sample size)
   ∧ (current ≤ hint_sample size → nextPayloadHint current size = hint_sample size))
  ∧ ∃ n, Z.of_nat n ≤ current + 1 ∧
      hint_sample size ≤ Nat.iter n (λ h, nextPayloadHint h size) current < hint_sample size + 8.
Proof.
  destruct (nextPayloadHint_bounds current size Hc) as (? & ? & ? & _).
  split; [done|]. by apply nextPayloadHint_converges.
Qed.

Lemma encodedFrameBufferSize_eq {V} hint (p : protocolConfig V) prefix
    (Hh : 0 ≤ hint < 2 ^ 61) (Hprefix : 0 ≤ prefix < 2 ^ 61) (Hmax : 0 < pc_maxPayloadSize p) :
  let h := if 0 <? hint then hint else defaultEncodedPayloadSizeHint in
  encodedFrameBufferSize (Some hint) (Some p) prefix
  = prefix + Z.min (h + h / 8) (pc_maxPayloadSize p).
Proof.
  cbn zeta. unfold encodedFrameBufferSize, goquot, encodedPayloadHeadroomDivisor.
  set (h := if 0 <? hint then _ else _).
  assert (Hpos : 0 < h < 2 ^ 61)
    by (unfold h, defaultEncodedPayloadSizeHint; destruct (Z.ltb_spec 0 hint); lia).
  rewrite Z.quot_div_nonneg by lia.
  pose proof (Z.div_pos h 8 ltac:(lia) ltac:(lia)).
  pose proof (Z.mul_div_le h 8 ltac:(lia)).
  rewrite (i64_small (h + h / 8)) by (unfold is_i64; lia).
  destruct (Z.ltb_spec 0 (pc_maxPayloadSize p)); [|lia]. cbn [andb].
  destruct (Z.ltb_spec (pc_maxPayloadSize p) (h + h / 8)).
  - rewrite i64_small by (unfold is_i64; lia). lia.
  - rewrite i64_small by (unfold is_i64; lia). lia.
Qed.

(** The capacity asked for an encode buffer: no overflow for hints and
    prefixes of in-memory size, never less than the prefix, at most an eighth
    above the hint and never more than the payload limit on top of the prefix. *)
Lemma encode_buffer_size_bounds {V} hint (p : protocolConfig V) prefix
    (Hh : 0 ≤ hint < 2 ^ 61) (Hprefix : 0 ≤ prefix < 2 ^ 61) (Hmax : 0 < pc_maxPayloadSize p) :
  let h := if 0 <? hint then hint else defaultEncodedPayloadSizeHint in
  encodedFrameBufferSize (Some hint) (Some p) prefix
  = prefix + Z.min (h + h / 8) (pc_maxPayloadSize p).
Proof. by apply encodedFrameBufferSize_eq. Qed.

(** A fresh connection (hint zero) asks for 144 bytes on top of the
    prefix, and after a 1024-byte sample one of 128 bytes lowers the hint to
    912. *)
Lemma fresh_hint_values {V} (p : protocolConfig V) prefix
    (Hprefix : 0 ≤ prefix < 2 ^ 61) (Hmax : 144 ≤ pc_maxPayloadSize p) :
  encodedFrameBufferSize (Some 0) (Some p) prefix = prefix + 144
  ∧ nextPayloadHint (nextPayloadHint 0 1024) 128 = 912.
Proof.
  split; [|reflexivity].
  pose proof (encodedFrameBufferSize_eq 0 p prefix ltac:(lia) Hprefix ltac:(lia)) as H.
  cbn zeta in H. rewrite H. change (if 0 <? 0 then _ else _) with 128.
  change (128 + 128 / 8) with 144. lia.
Qed.

(** ** Witnesses *)

Lemma payload_hint_converges_witness :
  (128 ≤ nextPayloadHint 4096 500
   ∧ hint_sample 500 ≤ nextPayloadHint 4096 500 ≤ Z.max 4096 (hint_sample 500)
   ∧ (4096 ≤ hint_sample 500 → nextPayloadHint 4096 500 = hint_sample 500))
  ∧ ∃ n, Z.of_nat n ≤ 4096 + 1 ∧
      hint_sample 500 ≤ Nat.iter n (λ h, nextPayloadHint h 500) 4096 < hint_sample 500 + 8.
Proof. apply (payload_hint_converges 4096 500). lia. Defined.
