(* ===== verification/Proc.v ===== *)
(** * Goroutines over a shared store

    A Go function that touches shared state is a [proc]: a tree of atomic
    actions.  An action maps the store to the list of its possible results, so
    an empty list is an operation that blocks (a held mutex, an empty channel)
    and a longer one a choice the language leaves open ([select], map
    iteration, the network).  [outcomes] runs one goroutine alone, [pool_step]
    interleaves several, and [safe] is the rule by which an invariant over the
    store and over what each goroutine holds is carried through every
    interleaving. *)

From S2P Require Import Prelude.

Local Open Scope nat_scope.

(** ** Programs *)

Inductive proc (S A : Type) : Type :=
| Ret (a : A)
| Act {X : Type} (f : S → list (X * S)) (k : X → proc S A).
Arguments Ret {S A} a.
Arguments Act {S A X} f k.

Fixpoint proc_bind {S A B} (g : A → proc S B) (p : proc S A) : proc S B :=
  match p with
  | Ret a => g a
  | Act f k => Act f (λ x, proc_bind g (k x))
  end.

#[export] Instance proc_mret S : MRet (proc S) := λ A a, Ret a.
#[export] Instance proc_mbind S : MBind (proc S) := λ A B g p, proc_bind g p.

(** Sequencing of a statement whose value is not used. *)
Notation "p ';;;' q" := (proc_bind (λ _, q) p)
  (at level 100, q at level 200, right associativity) : go_scope.
Notation "x '<-' p ';;;' q" := (proc_bind (λ x, q) p)
  (at level 100, p at level 99, q at level 200, right associativity) : go_scope.

Definition atomic {S X} (f : S → list (X * S)) : proc S X := Act f Ret.
Definition atomically {S X} (f : S → X * S) : proc S X := Act (λ s, [f s]) Ret.
Definition reads {S X} (g : S → X) : proc S X := Act (λ s, [(g s, s)]) Ret.
Definition modify {S} (g : S → S) : proc S unit := Act (λ s, [(tt, g s)]) Ret.

(** A [select] with a default case: the ready cases, or the default. *)
Definition select_default {A} (cases : list A) (default : A) : list A :=
  match cases with [] => [default] | _ => cases end.

Fixpoint for_each {S A} (l : list A) (body : A → proc S unit) : proc S unit :=
  match l with
  | [] => Ret tt
  | a :: l => proc_bind (λ _, for_each l body) (body a)
  end.

(** A loop that threads an accumulator. *)
Fixpoint fold_each {S A B} (l : list A) (acc : B) (body : B → A → proc S B) : proc S B :=
  match l with
  | [] => Ret acc
  | a :: l => proc_bind (λ acc, fold_each l acc body) (body acc a)
  end.

(** ** Running one goroutine alone *)

Fixpoint outcomes {S A} (p : proc S A) (s : S) : list (A * S) :=
  match p with
  | Ret a => [(a, s)]
  | Act f k => f s ≫= (λ '(x, s'), outcomes (k x) s')
  end.

(** ** Interleaving *)

Definition pool (S : Type) : Type := list (proc S unit) * S.

Inductive pool_step {S} : pool S → pool S → Prop :=
| pool_step_intro i X (f : S → list (X * S)) k x s s' ts :
    ts !! i = Some (Act f k) →
    (x, s') ∈ f s →
    pool_step (ts, s) (<[i := k x]> ts, s').

Definition pool_steps {S} : pool S → pool S → Prop := rtc pool_step.

(** One scheduler decision: which goroutine moves and which of its results. *)
Definition schedule1 {S} (d : nat * nat) (c : pool S) : option (pool S) :=
  let '(ts, s) := c in
  match ts !! d.1 with
  | Some (Act f k) =>
      match f s !! d.2 with
      | Some (x, s') => Some (<[d.1 := k x]> ts, s')
      | None => None
      end
  | _ => None
  end.

Fixpoint schedule {S} (ds : list (nat * nat)) (c : pool S) : option (pool S) :=
  match ds with
  | [] => Some c
  | d :: ds => schedule1 d c ≫= schedule ds
  end.

Definition possible {S} (ds : list (nat * nat)) (c : pool S) : bool :=
  match schedule ds c with Some _ => true | None => false end.

(** The state a schedule reaches (or the start, when it is not possible). *)
Definition run_to {S} (ds : list (nat * nat)) (c : pool S) : pool S :=
  default c (schedule ds c).

(** ** One goroutine alone: it never blocks and every result satisfies [Q] *)

Fixpoint twp {S A} (p : proc S A) (Q : A → S → Prop) (s : S) : Prop :=
  match p with
  | Ret a => Q a s
  | Act f k => f s ≠ [] ∧ ∀ x s', (x, s') ∈ f s → twp (k x) Q s'
  end.

(** ** Every result the program can have, whatever the store *)

Fixpoint yields {S A} (Q : A → Prop) (p : proc S A) : Prop :=
  match p with
  | Ret a => Q a
  | Act f k => ∀ s x s', (x, s') ∈ f s → yields Q (k x)
  end.

(** ** Resources carried by goroutines

    [I s L]: the store is consistent with the list [L] of resources that all
    goroutines together hold.  [G s s'] relates the stores before and after
    any action. *)

Section logic.
Context {S T : Type} (I : S → list T → Prop) (G : S → S → Prop).

(** Holding [t], the program keeps the invariant whatever the others hold
    and do between its actions, and ends with resources that satisfy [Q]. *)
Fixpoint safe {A} (Q : A → list T → Prop) (t : list T) (p : proc S A) : Prop :=
  match p with
  | Ret a => Q a t
  | Act f k =>
      ∀ s fr, I s (t ++ fr) → ∀ x s', (x, s') ∈ f s →
        G s s' ∧ ∃ t', I s' (t' ++ fr) ∧ safe Q t' (k x)
  end.

Definition pool_ok (Q : list T → Prop) (c : pool S) : Prop :=
  ∃ toks, Forall2 (safe (λ _, Q)) toks c.1 ∧ I c.2 (mjoin toks).
End logic.

(** ** Facts about runs *)

Lemma bind_ret {S A B} (a : A) (g : A → proc S B) : proc_bind g (Ret a) = g a.
Proof. reflexivity. Qed.

Lemma outcomes_bind {S A B} (p : proc S A) (g : A → proc S B) s :
  outcomes (proc_bind g p) s = outcomes p s ≫= (λ '(a, s'), outcomes (g a) s').
Proof.
  revert s. induction p as [a|X f k IH]; intros s; cbn.
  - by rewrite app_nil_r.
  - induction (f s) as [|[x s'] l IHl]; cbn; [done|].
    rewrite IH. unfold mbind in *. rewrite IHl. by rewrite bind_app.
Qed.

Lemma outcomes_atomically {S X} (f : S → X * S) s : outcomes (atomically f) s = [f s].
Proof. cbn. by destruct (f s). Qed.

Lemma schedule1_sound {S} d (c c' : pool S) : schedule1 d c = Some c' → pool_step c c'.
Proof.
  destruct c as [ts s], d as [i j]. cbn.
  destruct (ts !! i) as [[a|X f k]|] eqn:E; [done| |done].
  destruct (f s !! j) as [[x s']|] eqn:F; [|done]. intros [= <-].
  apply (pool_step_intro i X f k x s s'); [done|]. by eapply list_elem_of_lookup_2.
Qed.

Lemma schedule_sound {S} ds (c c' : pool S) : schedule ds c = Some c' → pool_steps c c'.
Proof.
  revert c. induction ds as [|d ds IH]; cbn; intros c H; [simplify_eq; apply rtc_refl|].
  destruct (schedule1 d c) as [c1|] eqn:E; [|done]. cbn in H.
  eapply rtc_l; [by apply schedule1_sound in E|by apply IH].
Qed.

Lemma run_to_steps {S} ds (c : pool S) : pool_steps c (run_to ds c).
Proof.
  unfold run_to. destruct (schedule ds c) eqn:E; cbn; [by eapply schedule_sound|apply rtc_refl].
Qed.

(** ** Total correctness of one goroutine *)

Lemma twp_bind {S A B} (p : proc S A) (g : A → proc S B) Q s :
  twp p (λ a s', twp (g a) Q s') s → twp (proc_bind g p) Q s.
Proof.
  revert s. induction p as [a|X f k IH]; cbn; intros s H; [done|].
  destruct H as [Hne H]. split; [done|]. intros x s' Hin. by apply IH, H.
Qed.

Lemma twp_unbind {S A B} (p : proc S A) (g : A → proc S B) Q s :
  twp (proc_bind g p) Q s → twp p (λ a s', twp (g a) Q s') s.
Proof.
  revert s. induction p as [a|X f k IH]; cbn; intros s H; [done|].
  destruct H as [Hne H]. split; [done|]. intros x s' Hin. by apply IH, H.
Qed.

Lemma twp_mono {S A} (p : proc S A) (Q Q' : A → S → Prop) s :
  twp p Q s → (∀ a s', Q a s' → Q' a s') → twp p Q' s.
Proof.
  intros H HQ. revert s H. induction p as [a|X f k IH]; cbn; intros s H; [by apply HQ|].
  destruct H as [Hne H]. split; [done|]. intros x s' Hin. by apply IH, H.
Qed.

Lemma twp_atomically {S X} (f : S → X * S) (Q : X → S → Prop) s :
  Q (f s).1 (f s).2 → twp (atomically f) Q s.
Proof.
  intros H. cbn. split; [done|]. intros x s' Hin.
  apply list_elem_of_singleton in Hin. by rewrite <- Hin in H.
Qed.

Lemma twp_reads {S X} (g : S → X) (Q : X → S → Prop) s : Q (g s) s → twp (reads g) Q s.
Proof. intros H. cbn. split; [done|]. by intros x s' [= -> ->]%list_elem_of_singleton. Qed.

Lemma twp_modify {S} (g : S → S) (Q : unit → S → Prop) s : Q tt (g s) → twp (modify g) Q s.
Proof. intros H. cbn. split; [done|]. by intros x s' [= -> ->]%list_elem_of_singleton. Qed.

(** A loop keeps what its body keeps, with the elements already visited. *)
Lemma twp_for_each {S A} (l : list A) (body : A → proc S unit) (I : list A → S → Prop) s :
  I [] s →
  (∀ done a rest s, l = done ++ a :: rest → I done s →
     twp (body a) (λ _ s', I (done ++ [a]) s') s) →
  twp (for_each l body) (λ _ s', I l s') s.
Proof.
  intros H0 Hb.
  assert (H : ∀ rest done s, l = done ++ rest → I done s →
    twp (for_each rest body) (λ _ s', I l s') s); [|by apply (H l [])].
  induction rest as [|a rest IH]; intros d s' -> HI; cbn.
  - by rewrite app_nil_r in *.
  - apply twp_bind. eapply twp_mono; [by apply (Hb d a rest)|].
    intros [] s2 H2. apply (IH (d ++ [a])); [by rewrite <- app_assoc|done].
Qed.

Lemma twp_fold_each {S A B} (l : list A) (acc : B) (body : B → A → proc S B)
    (I : list A → B → S → Prop) s :
  I [] acc s →
  (∀ done a rest acc s, l = done ++ a :: rest → I done acc s →
     twp (body acc a) (λ acc' s', I (done ++ [a]) acc' s') s) →
  twp (fold_each l acc body) (λ acc' s', I l acc' s') s.
Proof.
  intros H0 Hb.
  assert (H : ∀ rest done acc s, l = done ++ rest → I done acc s →
    twp (fold_each rest acc body) (λ acc' s', I l acc' s') s); [|by apply (H l [])].
  induction rest as [|a rest IH]; intros d acc' s' -> HI; cbn.
  - by rewrite app_nil_r in *.
  - apply twp_bind. eapply twp_mono; [by apply (Hb d a rest)|].
    intros acc2 s2 H2. apply (IH (d ++ [a])); [by rewrite <- app_assoc|done].
Qed.

(** Loops whose bodies have the same results. *)
Lemma twp_fold_ext {S A B} (l : list A) (acc : B) (body body' : B → A → proc S B) Q s :
  (∀ acc a (Q : B → S → Prop) s, twp (body acc a) Q s → twp (body' acc a) Q s) →
  twp (fold_each l acc body) Q s → twp (fold_each l acc body') Q s.
Proof.
  intros Hb. revert acc s. induction l as [|a l IH]; intros acc s; cbn; [done|]. intros H.
  apply twp_bind, Hb. apply twp_unbind in H. eapply twp_mono; [exact H|]. intros acc' s'. apply IH.
Qed.

(** What [twp] says of the list of outcomes. *)
Lemma twp_outcomes {S A} (p : proc S A) Q s :
  twp p Q s ↔ outcomes p s ≠ [] ∧ (∀ a s', (a, s') ∈ outcomes p s → Q a s') ∧ twp p (λ _ _, True) s.
Proof.
  split.
  - intros H. split_and!; [| |by eapply twp_mono].
    + revert s H. induction p as [a|X f k IH]; cbn; intros s; [done|]. intros [Hne H].
      destruct (f s) as [|[x s'] l]; [done|]. cbn.
      specialize (IH x s' (H x s' ltac:(left))). by destruct (outcomes (k x) s').
    + revert s H. induction p as [a|X f k IH]; cbn; intros s.
      * by intros HQ a' s' [= -> ->]%list_elem_of_singleton.
      * intros [_ H] a s' Hin. apply list_elem_of_bind in Hin as ([x s1] & Hin & Hx).
        eapply IH; [|exact Hin]. by apply H.
  - intros (_ & HQ & H). revert s HQ H. induction p as [a|X f k IH]; cbn; intros s HQ H.
    + apply HQ. by left.
    + destruct H as [Hne H]. split; [done|]. intros x s' Hin. apply IH; [|by apply H].
      intros a s2 Hin2. apply HQ. apply list_elem_of_bind. by exists (x, s').
Qed.

(** The first outcome, when evaluating one is enough. *)
Lemma twp_head {S A} (p : proc S A) (Q : A → S → Prop) s d :
  twp p Q s → Q (hd d (outcomes p s)).1 (hd d (outcomes p s)).2.
Proof.
  intros (Hne & HQ & _)%twp_outcomes. destruct (outcomes p s) as [|[a s'] l]; [done|].
  apply HQ. by left.
Qed.

Lemma yields_bind {S A B} (Q : B → Prop) (p : proc S A) (g : A → proc S B) :
  (∀ a, yields Q (g a)) → yields Q (proc_bind g p).
Proof. intros Hg. induction p as [a|X f k IH]; cbn; [apply Hg|]. intros s x s' _. apply IH. Qed.

Lemma yields_bind_mono {S A B} (Z : A → Prop) (Q : B → Prop) (p : proc S A) (g : A → proc S B) :
  yields Z p → (∀ a, Z a → yields Q (g a)) → yields Q (proc_bind g p).
Proof.
  intros Hp Hg. induction p as [a|X f k IH]; cbn in *; [by apply Hg|].
  intros s x s' Hin. apply IH. by eapply Hp.
Qed.

(** ** Rules *)

Section rules.
Context {S T : Type} (I : S → list T → Prop) (G : S → S → Prop).
Context `{!PreOrder G}.
Context (I_proper : ∀ s, Proper ((≡ₚ) ==> iff) (I s)).

Lemma safe_mono {A} (Q Q' : A → list T → Prop) t p :
  safe I G Q t p → (∀ a t', Q a t' → Q' a t') → safe I G Q' t p.
Proof.
  intros H HQ. revert t H. induction p as [a|X f k IH]; cbn; intros t H; [by apply HQ|].
  intros s fr HI x s' Hin. destruct (H s fr HI x s' Hin) as (HG & t' & HI' & Hk).
  split; [done|]. exists t'. split; [done|]. by apply IH.
Qed.

Lemma safe_bind {A B} (Q : A → list T → Prop) (R : B → list T → Prop) t p g :
  safe I G Q t p → (∀ a t', Q a t' → safe I G R t' (g a)) → safe I G R t (proc_bind g p).
Proof.
  intros H Hg. revert t H. induction p as [a|X f k IH]; cbn; intros t H; [by apply Hg|].
  intros s fr HI x s' Hin. destruct (H s fr HI x s' Hin) as (HG & t' & HI' & Hk).
  split; [done|]. exists t'. split; [done|]. by apply IH.
Qed.

(** What follows a program only has to be safe for the results it can have. *)
Lemma safe_bind_yields {A B} (Q : A → Prop) (R : B → list T → Prop) t p (g g' : A → proc S B) :
  yields Q p → (∀ a, Q a → g' a = g a) →
  safe I G R t (proc_bind g' p) → safe I G R t (proc_bind g p).
Proof.
  intros Hy Hg. revert t Hy. induction p as [a|X f k IH]; cbn; intros t Hy; [by rewrite Hg|].
  intros Hs s fr HI x s' Hin. destruct (Hs s fr HI x s' Hin) as (HG & t' & HI' & Hk).
  split; [done|]. exists t'. split; [done|]. apply IH; [|done]. by eapply Hy.
Qed.

Lemma safe_yields {A} (Q : A → list T → Prop) (K : Prop) (Z : A → Prop) t p :
  safe I G Q t p → (K → yields Z p) → safe I G (λ a t', Q a t' ∧ (K → Z a)) t p.
Proof.
  revert t. induction p as [a|X f k IH]; intros t; cbn; [done|].
  intros Hs Hy s fr HI x s' Hin. destruct (Hs s fr HI x s' Hin) as (? & t' & ? & ?).
  split; [done|]. exists t'. split; [done|]. apply IH; [done|]. intros HK. by eapply Hy.
Qed.

(** What a program does not need it keeps. *)
Lemma safe_frame {A} (Q : A → list T → Prop) t r p :
  safe I G Q t p → safe I G (λ a t', ∃ t0, t' = t0 ++ r ∧ Q a t0) (t ++ r) p.
Proof.
  intros H. revert t H. induction p as [a|X f k IH]; cbn; intros t H; [by exists t|].
  intros s fr HI x s' Hin. rewrite <- app_assoc in HI.
  destruct (H s (r ++ fr) HI x s' Hin) as (HG & t' & HI' & Hk).
  split; [done|]. exists (t' ++ r). rewrite <- app_assoc. split; [done|]. by apply IH.
Qed.

Lemma safe_bind_frame {A B} (Q : A → list T → Prop) (R : B → list T → Prop) t r p g :
  safe I G Q t p → (∀ a t', Q a t' → safe I G R (t' ++ r) (g a)) →
  safe I G R (t ++ r) (proc_bind g p).
Proof.
  intros H Hg. eapply safe_bind; [by apply safe_frame|].
  intros a t' (t0 & -> & HQ). by apply Hg.
Qed.

(** One atomic action that exchanges [t] for [t' x]. *)
Lemma safe_act {A X} (Q : A → list T → Prop) t (f : S → list (X * S)) k (t' : X → list T) :
  (∀ s fr x s', I s (t ++ fr) → (x, s') ∈ f s → G s s' ∧ I s' (t' x ++ fr)) →
  (∀ x, safe I G Q (t' x) (k x)) →
  safe I G Q t (Act f k).
Proof.
  intros Hf Hk s fr HI x s' Hin. destruct (Hf s fr x s' HI Hin).
  split; [done|]. by exists (t' x).
Qed.

Lemma safe_reads {A X} (Q : A → list T → Prop) t (g : S → X) k :
  (∀ x, safe I G Q t (k x)) → safe I G Q t (Act (λ s, [(g s, s)]) k).
Proof.
  intros Hk s fr HI x s' Hin. apply list_elem_of_singleton in Hin as [= -> ->].
  split; [reflexivity|]. by exists t.
Qed.

Lemma safe_for_each {A} (l : list A) (body : A → proc S unit) t :
  (∀ a, safe I G (λ _ t', t' = t) t (body a)) →
  safe I G (λ _ t', t' = t) t (for_each l body).
Proof.
  intros Hb. induction l as [|a l IH]; cbn; [done|].
  eapply safe_bind; [apply Hb|]. by intros ? ? ->.
Qed.

(** ** Soundness: the invariant holds after any interleaving *)

Lemma mjoin_insert_perm (toks : list (list T)) i t t' :
  toks !! i = Some t →
  ∃ fr, mjoin toks ≡ₚ t ++ fr ∧ mjoin (<[i := t']> toks) ≡ₚ t' ++ fr.
Proof.
  intros Hi. exists (mjoin (take i toks) ++ mjoin (drop (Datatypes.S i) toks)).
  split.
  - rewrite <- (take_drop_middle toks i t Hi) at 1.
    rewrite join_app. apply Permutation_app_swap_app.
  - rewrite insert_take_drop by (by eapply lookup_lt_Some).
    rewrite join_app. apply Permutation_app_swap_app.
Qed.

Lemma pool_ok_step Q c c' :
  pool_ok I G Q c → pool_step c c' → pool_ok I G Q c' ∧ G c.2 c'.2.
Proof.
  intros (toks & Hs & HI) Hstep.
  destruct Hstep as [i X f k x s s' ts Hi Hin]. cbn in *.
  destruct (Forall2_lookup_r _ _ _ _ _ Hs Hi) as (t & Ht & Hsafe).
  destruct (mjoin_insert_perm toks i t t Ht) as (fr & Hp & _).
  rewrite Hp in HI. cbn in Hsafe.
  destruct (Hsafe s fr HI x s' Hin) as (HG & t' & HI' & Hk). split; [|done].
  exists (<[i := t']> toks). split; [by apply Forall2_insert|].
  destruct (mjoin_insert_perm toks i t t' Ht) as (fr' & Hp1 & Hp2). cbn.
  rewrite Hp2. rewrite Hp1 in Hp. apply Permutation_app_inv_l in Hp. by rewrite Hp.
Qed.

Lemma pool_ok_steps Q c c' :
  pool_ok I G Q c → pool_steps c c' → pool_ok I G Q c' ∧ G c.2 c'.2.
Proof.
  intros Hok Hsteps. induction Hsteps as [c|c c1 c' Hstep _ IH]; [done|].
  destruct (pool_ok_step Q c c1 Hok Hstep) as [Hok1 HG].
  destruct (IH Hok1) as [? HG']. split; [done|]. by etransitivity.
Qed.

Lemma pool_ok_inv Q c : pool_ok I G Q c → ∃ L, I c.2 L.
Proof. intros (toks & _ & HI). eauto. Qed.
End rules.
