(* ===== verification/Connection.v ===== *)
(** * One websocket connection (connection.go)

    The store [cstate] is one [Connection] with what its goroutines share: the
    frame buffer pool, the allocator and the contexts of callers.  Methods are
    [proc]s over it, one atomic action per synchronisation primitive; the
    short sections under [opsMu], which touch only the fields it guards, are
    one action each. *)

From Stdlib Require Import Ascii String.
From S2P Require Import Prelude GoStd Errors Protocol Framing Proc.

Local Open Scope Z_scope.
Local Open Scope go_scope.

(** ** Frame buffers: slices whose backing array has an identity *)

Record frameBuf := {
  fb_id : nat;            (* the backing array *)
  fb_cap : Z;
  fb_data : list byte;
}.

(** [slicepool.Pool[byte]] (a third-party package): [Get p size next] may
    allocate arrays from [next] on. *)
Class SlicePool (P : Type) := {
  sp_Get : P → Z → nat → frameBuf * P * nat;
  sp_Put : P → frameBuf → P;
  sp_free : P → gset nat;          (* arrays the pool holds *)
}.

(** The documented behaviour: [Get] gives exclusive use of an array that was
    put before or is new, [Put] hands the array over. *)
Class SlicePoolLaws (P : Type) `{!SlicePool P} := {
  sp_Get_spec p size next b p' next' :
    sp_Get p size next = (b, p', next') →
    (next ≤ next')%nat ∧ sp_free p' ⊆ sp_free p
    ∧ ((fb_id b ∈ sp_free p ∧ fb_id b ∉ sp_free p') ∨ (next ≤ fb_id b < next')%nat);
  sp_Put_spec p b : sp_free (sp_Put p b) ⊆ {[ fb_id b ]} ∪ sp_free p;
}.

(** ** Contexts *)

Inductive context :=
| CtxNil                (* a nil context.Context *)
| CtxBackground
| CtxConn               (* the connection's own ctx *)
| CtxOther (n : nat).   (* any other context of a caller *)

(** A method receiver: the nil pointer, or the connection of the store. *)
Inductive receiver := nilConn | theConn.

(** ** The store *)

(** The fields [opsMu] guards, and the channels [opsDone] ranges over. *)
Record ops := {
  activeOps : Z;
  activeHandlers : Z;
  draining : bool;
  opsDone : nat;
  closedChans : gset nat;
  nextChan : nat;
  panicked : bool;        (* a close of a closed channel *)
}.

(** The underlying websocket: what was written to it, in order. *)
Record wsConn := {
  ws_written : list (list byte);
  ws_closed : bool;
}.

Record cstate {V P : Type} := {
  c_protocol : option (protocolConfig V);
  c_ws : option wsConn;
  c_ctx : option error;             (* ctx.Err() *)
  c_hasCancel : bool;               (* cancel != nil *)
  c_sendQueue : list frameBuf;
  c_queueCap : Z;
  c_sendMu : bool;                  (* held *)
  c_sendClosed : bool;
  c_writeTimeout : Z;
  c_slowConsumerPolicy : Z;
  c_encodedPayloadHint : Z;
  c_ops : ops;
  c_pool : P;
  c_next : nat;                     (* next fresh array *)
  c_others : gmap nat error;        (* cancelled contexts of callers *)
  c_accepted : list (list byte);    (* history: frames the queue took, in order *)
}.
Arguments cstate V P : clear implicits.

Definition SlowConsumerPolicyDisconnect : Z := 0.

(** ** The operation counters: sections under opsMu *)

Definition beginOperationLocked (o : ops) : ops :=
  let '(opsDone, nextChan) :=
    if activeOps o =? 0 then (nextChan o, S (nextChan o)) else (opsDone o, nextChan o) in
  {| activeOps := activeOps o + 1; activeHandlers := activeHandlers o;
     draining := draining o; opsDone := opsDone; closedChans := closedChans o;
     nextChan := nextChan; panicked := panicked o |}.

(** [close(c.opsDone)] panics when the channel is closed already. *)
Definition endOperationLocked (o : ops) : ops :=
  if activeOps o =? 0 then o
  else
    let n := activeOps o - 1 in
    let closes := n =? 0 in
    {| activeOps := n; activeHandlers := activeHandlers o;
       draining := draining o; opsDone := opsDone o;
       closedChans := if closes then {[ opsDone o ]} ∪ closedChans o else closedChans o;
       nextChan := nextChan o;
       panicked := panicked o || (closes && bool_decide (opsDone o ∈ closedChans o)) |}.

Definition set_activeHandlers (n : Z) (o : ops) : ops :=
  {| activeOps := activeOps o; activeHandlers := n; draining := draining o;
     opsDone := opsDone o; closedChans := closedChans o; nextChan := nextChan o;
     panicked := panicked o |}.

Definition set_draining (o : ops) : ops :=
  {| activeOps := activeOps o; activeHandlers := activeHandlers o; draining := true;
     opsDone := opsDone o; closedChans := closedChans o; nextChan := nextChan o;
     panicked := panicked o |}.

Definition beginHandlerOperation_ops (o : ops) : bool * ops :=
  if draining o then (false, o)
  else
    let o := beginOperationLocked o in
    (true, set_activeHandlers (activeHandlers o + 1) o).

Definition endHandlerOperation_ops (o : ops) : ops :=
  let o := if 0 <? activeHandlers o then set_activeHandlers (activeHandlers o - 1) o else o in
  endOperationLocked o.

Definition beginSendOperation_ops (o : ops) : bool * ops :=
  if draining o && (activeHandlers o =? 0) then (false, o)
  else (true, beginOperationLocked o).

(** [make(chan struct{})] followed by [close]. *)
Definition newClosedChan (o : ops) : nat * ops :=
  (nextChan o,
   {| activeOps := activeOps o; activeHandlers := activeHandlers o; draining := draining o;
      opsDone := opsDone o; closedChans := {[ nextChan o ]} ∪ closedChans o;
      nextChan := S (nextChan o); panicked := panicked o |}).

Definition beginDrain_ops (o : ops) : nat * ops :=
  (opsDone o, set_draining o).

(** A connection starts with a closed done channel. *)
Definition initial_ops : ops :=
  {| activeOps := 0; activeHandlers := 0; draining := false; opsDone := 0%nat;
     closedChans := {[ 0%nat ]}; nextChan := 1%nat; panicked := false |}.

(** ** Field updates *)

Section updates.
Context {V P : Type}.

Definition set_ws (v : option wsConn) (s : cstate V P) : cstate V P :=
  {| c_protocol := c_protocol s; c_ws := v; c_ctx := c_ctx s; c_hasCancel := c_hasCancel
     s; c_sendQueue := c_sendQueue s; c_queueCap := c_queueCap s; c_sendMu := c_sendMu s;
     c_sendClosed := c_sendClosed s; c_writeTimeout := c_writeTimeout s;
     c_slowConsumerPolicy := c_slowConsumerPolicy s; c_encodedPayloadHint :=
     c_encodedPayloadHint s; c_ops := c_ops s; c_pool := c_pool s; c_next := c_next s;
     c_others := c_others s; c_accepted := c_accepted s |}.

Definition set_ctx (v : option error) (s : cstate V P) : cstate V P :=
  {| c_protocol := c_protocol s; c_ws := c_ws s; c_ctx := v; c_hasCancel := c_hasCancel s;
     c_sendQueue := c_sendQueue s; c_queueCap := c_queueCap s; c_sendMu := c_sendMu s;
     c_sendClosed := c_sendClosed s; c_writeTimeout := c_writeTimeout s;
     c_slowConsumerPolicy := c_slowConsumerPolicy s; c_encodedPayloadHint :=
     c_encodedPayloadHint s; c_ops := c_ops s; c_pool := c_pool s; c_next := c_next s;
     c_others := c_others s; c_accepted := c_accepted s |}.

Definition set_sendQueue (v : list frameBuf) (s : cstate V P) : cstate V P :=
  {| c_protocol := c_protocol s; c_ws := c_ws s; c_ctx := c_ctx s; c_hasCancel :=
     c_hasCancel s; c_sendQueue := v; c_queueCap := c_queueCap s; c_sendMu := c_sendMu s;
     c_sendClosed := c_sendClosed s; c_writeTimeout := c_writeTimeout s;
     c_slowConsumerPolicy := c_slowConsumerPolicy s; c_encodedPayloadHint :=
     c_encodedPayloadHint s; c_ops := c_ops s; c_pool := c_pool s; c_next := c_next s;
     c_others := c_others s; c_accepted := c_accepted s |}.

Definition set_sendMu (v : bool) (s : cstate V P) : cstate V P :=
  {| c_protocol := c_protocol s; c_ws := c_ws s; c_ctx := c_ctx s; c_hasCancel :=
     c_hasCancel s; c_sendQueue := c_sendQueue s; c_queueCap := c_queueCap s; c_sendMu :=
     v; c_sendClosed := c_sendClosed s; c_writeTimeout := c_writeTimeout s;
     c_slowConsumerPolicy := c_slowConsumerPolicy s; c_encodedPayloadHint :=
     c_encodedPayloadHint s; c_ops := c_ops s; c_pool := c_pool s; c_next := c_next s;
     c_others := c_others s; c_accepted := c_accepted s |}.

Definition set_sendClosed (v : bool) (s : cstate V P) : cstate V P :=
  {| c_protocol := c_protocol s; c_ws := c_ws s; c_ctx := c_ctx s; c_hasCancel :=
     c_hasCancel s; c_sendQueue := c_sendQueue s; c_queueCap := c_queueCap s; c_sendMu :=
     c_sendMu s; c_sendClosed := v; c_writeTimeout := c_writeTimeout s;
     c_slowConsumerPolicy := c_slowConsumerPolicy s; c_encodedPayloadHint :=
     c_encodedPayloadHint s; c_ops := c_ops s; c_pool := c_pool s; c_next := c_next s;
     c_others := c_others s; c_accepted := c_accepted s |}.

Definition set_encodedPayloadHint (v : Z) (s : cstate V P) : cstate V P :=
  {| c_protocol := c_protocol s; c_ws := c_ws s; c_ctx := c_ctx s; c_hasCancel :=
     c_hasCancel s; c_sendQueue := c_sendQueue s; c_queueCap := c_queueCap s; c_sendMu :=
     c_sendMu s; c_sendClosed := c_sendClosed s; c_writeTimeout := c_writeTimeout s;
     c_slowConsumerPolicy := c_slowConsumerPolicy s; c_encodedPayloadHint := v; c_ops :=
     c_ops s; c_pool := c_pool s; c_next := c_next s; c_others := c_others s; c_accepted
     := c_accepted s |}.

Definition set_ops (v : ops) (s : cstate V P) : cstate V P :=
  {| c_protocol := c_protocol s; c_ws := c_ws s; c_ctx := c_ctx s; c_hasCancel :=
     c_hasCancel s; c_sendQueue := c_sendQueue s; c_queueCap := c_queueCap s; c_sendMu :=
     c_sendMu s; c_sendClosed := c_sendClosed s; c_writeTimeout := c_writeTimeout s;
     c_slowConsumerPolicy := c_slowConsumerPolicy s; c_encodedPayloadHint :=
     c_encodedPayloadHint s; c_ops := v; c_pool := c_pool s; c_next := c_next s; c_others
     := c_others s; c_accepted := c_accepted s |}.

Definition set_pool (v : P) (s : cstate V P) : cstate V P :=
  {| c_protocol := c_protocol s; c_ws := c_ws s; c_ctx := c_ctx s; c_hasCancel :=
     c_hasCancel s; c_sendQueue := c_sendQueue s; c_queueCap := c_queueCap s; c_sendMu :=
     c_sendMu s; c_sendClosed := c_sendClosed s; c_writeTimeout := c_writeTimeout s;
     c_slowConsumerPolicy := c_slowConsumerPolicy s; c_encodedPayloadHint :=
     c_encodedPayloadHint s; c_ops := c_ops s; c_pool := v; c_next := c_next s; c_others
     := c_others s; c_accepted := c_accepted s |}.

Definition set_next (v : nat) (s : cstate V P) : cstate V P :=
  {| c_protocol := c_protocol s; c_ws := c_ws s; c_ctx := c_ctx s; c_hasCancel :=
     c_hasCancel s; c_sendQueue := c_sendQueue s; c_queueCap := c_queueCap s; c_sendMu :=
     c_sendMu s; c_sendClosed := c_sendClosed s; c_writeTimeout := c_writeTimeout s;
     c_slowConsumerPolicy := c_slowConsumerPolicy s; c_encodedPayloadHint :=
     c_encodedPayloadHint s; c_ops := c_ops s; c_pool := c_pool s; c_next := v; c_others
     := c_others s; c_accepted := c_accepted s |}.

Definition set_others (v : gmap nat error) (s : cstate V P) : cstate V P :=
  {| c_protocol := c_protocol s; c_ws := c_ws s; c_ctx := c_ctx s; c_hasCancel :=
     c_hasCancel s; c_sendQueue := c_sendQueue s; c_queueCap := c_queueCap s; c_sendMu :=
     c_sendMu s; c_sendClosed := c_sendClosed s; c_writeTimeout := c_writeTimeout s;
     c_slowConsumerPolicy := c_slowConsumerPolicy s; c_encodedPayloadHint :=
     c_encodedPayloadHint s; c_ops := c_ops s; c_pool := c_pool s; c_next := c_next s;
     c_others := v; c_accepted := c_accepted s |}.

Definition set_accepted (v : list (list byte)) (s : cstate V P) : cstate V P :=
  {| c_protocol := c_protocol s; c_ws := c_ws s; c_ctx := c_ctx s; c_hasCancel :=
     c_hasCancel s; c_sendQueue := c_sendQueue s; c_queueCap := c_queueCap s; c_sendMu :=
     c_sendMu s; c_sendClosed := c_sendClosed s; c_writeTimeout := c_writeTimeout s;
     c_slowConsumerPolicy := c_slowConsumerPolicy s; c_encodedPayloadHint :=
     c_encodedPayloadHint s; c_ops := c_ops s; c_pool := c_pool s; c_next := c_next s;
     c_others := c_others s; c_accepted := v |}.

(** A critical section of [opsMu] is one action. *)
Definition on_ops {X} (f : ops → X * ops) : proc (cstate V P) X :=
  atomically (λ s, let '(x, o) := f (c_ops s) in (x, set_ops o s)).
End updates.

Section connection.
Context {V P : Type} `{!ExternalCodecs V} `{!SlicePool P}.

Local Abbreviation state := (cstate V P).
Local Abbreviation M := (proc (cstate V P)).

(** ** Operations *)

Definition beginHandlerOperation (c : receiver) : M bool :=
  match c with
  | nilConn => mret false
  | theConn => on_ops beginHandlerOperation_ops
  end.

Definition endHandlerOperation (c : receiver) : M unit :=
  match c with
  | nilConn => mret tt
  | theConn => on_ops (λ o, (tt, endHandlerOperation_ops o))
  end.

Definition beginSendOperation (c : receiver) : M bool :=
  match c with
  | nilConn => mret false
  | theConn => on_ops beginSendOperation_ops
  end.

Definition endOperation (c : receiver) : M unit :=
  match c with
  | nilConn => mret tt
  | theConn => on_ops (λ o, (tt, endOperationLocked o))
  end.

(** The done channel to wait on. *)
Definition beginDrain (c : receiver) : M nat :=
  match c with
  | nilConn => on_ops newClosedChan
  | theConn => on_ops beginDrain_ops
  end.

(** ** Frame buffers *)

Definition alloc_bytes (size : Z) (s : state) : frameBuf * state :=
  ({| fb_id := c_next s; fb_cap := size; fb_data := [] |}, set_next (S (c_next s)) s).

Definition getFrameBuffer (size : Z) : M frameBuf :=
  frame <- atomically (λ s,
    let '(b, p, next) := sp_Get (c_pool s) size (c_next s) in (b, set_next next (set_pool p s))) ;;;
  if fb_cap frame <? size then atomically (alloc_bytes size)
  else mret {| fb_id := fb_id frame; fb_cap := fb_cap frame; fb_data := [] |}.

Definition putFrameBuffer (frame : frameBuf) : M unit :=
  modify (λ s, set_pool (sp_Put (c_pool s)
    {| fb_id := fb_id frame; fb_cap := fb_cap frame; fb_data := [] |}) s).

(** The slice that holds [out] after appending to [frame] gave these bytes:
    the same array while the capacity allows, a new one otherwise. *)
Definition fits (frame : frameBuf) (out : list byte) : bool :=
  bool_decide (fb_data frame `prefix_of` out) && (zlen out <=? fb_cap frame).

Definition append_to (frame : frameBuf) (out : list byte) : M frameBuf :=
  if fits frame out
  then mret {| fb_id := fb_id frame; fb_cap := fb_cap frame; fb_data := out |}
  else atomically (λ s,
    ({| fb_id := c_next s; fb_cap := zlen out; fb_data := out |}, set_next (S (c_next s)) s)).

(** [append(frame, data...)]. *)
Definition append (frame : frameBuf) (data : list byte) : M frameBuf :=
  append_to frame (fb_data frame ++ data).

Definition sameFrameBuffer (a b : frameBuf) : bool :=
  if (zlen (fb_data a) =? 0) || (zlen (fb_data b) =? 0)
  then zlen (fb_data a) =? zlen (fb_data b)
  else Nat.eqb (fb_id a) (fb_id b).

(** ** Contexts and closing *)

Definition ctx_Err (ctx : context) (s : state) : option error :=
  match ctx with
  | CtxNil | CtxBackground => None
  | CtxConn => c_ctx s
  | CtxOther n => c_others s !! n
  end.

(** [once.Do(cancel)]: cancelling twice changes nothing. *)
Definition closeContext (c : receiver) : M unit :=
  match c with
  | nilConn => mret tt
  | theConn =>
      modify (λ s,
        if negb (c_hasCancel s) then s
        else match c_ctx s with
             | None => set_ctx (Some (Canceled : error)) s
             | Some _ => s
             end)
  end.

(** Closing a websocket may itself fail. *)
Definition ws_close (s : state) : list (option error * state) :=
  match c_ws s with
  | None => [(None, s)]
  | Some w =>
      let s := set_ws (Some {| ws_written := ws_written w; ws_closed := true |}) s in
      [(None, s); (Some (External "websocket: close failed"), s)]
  end.

Definition closeNow (c : receiver) : M (option error) :=
  match c with
  | nilConn => mret None
  | theConn => atomic ws_close
  end.

Definition CloseWithStatus (c : receiver) (code : Z) (reason : string) : M (option error) :=
  match c with
  | nilConn => mret None
  | theConn =>
      ws <- reads c_ws ;;;
      match ws with
      | None => mret None
      | Some _ =>
          err <- atomic ws_close ;;;
          closeContext c ;;;
          mret err
      end
  end.

Definition StatusNormalClosure : Z := 1000.

Definition Close (c : receiver) : M (option error) :=
  CloseWithStatus c StatusNormalClosure "".

Definition disconnectSlowConsumer (c : receiver) : M unit :=
  policy <- reads c_slowConsumerPolicy ;;;
  if policy =? SlowConsumerPolicyDisconnect
  then closeContext c ;;; _ <- closeNow c ;;; mret tt
  else closeContext c ;;; _ <- closeNow c ;;; mret tt.

(** ** The send queue *)

Inductive enqueue_case := CaseCtxDone | CaseConnDone | CaseQueued | CaseDefault.

Definition is_done (e : option error) (x : enqueue_case) : list enqueue_case :=
  match e with Some _ => [x] | None => [] end.

Definition lock_sendMu : M unit :=
  atomic (λ s, if c_sendMu s then [] else [(tt, set_sendMu true s)]).
Definition unlock_sendMu : M unit := modify (set_sendMu false).

Definition closedSendQueueError : M (option error) :=
  err <- reads c_ctx ;;;
  match err with
  | Some err => mret (Some err)
  | None => mret (Some (ErrHandlerShuttingDown : error))
  end.

(** The first [select]: is either context done. *)
Definition select_done (ctx : context) : M enqueue_case :=
  atomic (λ s, (λ x, (x, s)) <$>
    select_default (is_done (ctx_Err ctx s) CaseCtxDone ++ is_done (c_ctx s) CaseConnDone)
      CaseDefault).

(** The second [select]: put the frame in the queue if there is room. *)
Definition push (frame : frameBuf) (s : state) : state :=
  set_accepted (c_accepted s ++ [fb_data frame]) (set_sendQueue (c_sendQueue s ++ [frame]) s).

Definition select_push (frame : frameBuf) : M enqueue_case :=
  atomic (λ s,
    let room := if zlen (c_sendQueue s) <? c_queueCap s
                then [(CaseQueued, push frame s)] else [] in
    let done := (λ x, (x, s)) <$> is_done (c_ctx s) CaseConnDone in
    select_default (room ++ done) (CaseDefault, s)).

Definition enqueueFrame (c : receiver) (ctx : context) (frame : frameBuf) : M (option error) :=
  let ctx := match ctx with CtxNil => CtxBackground | _ => ctx end in
  early <- select_done ctx ;;;
  match early with
  | CaseCtxDone =>
      putFrameBuffer frame ;;;
      reads (ctx_Err ctx)
  | CaseConnDone =>
      putFrameBuffer frame ;;;
      reads c_ctx
  | _ =>
      lock_sendMu ;;;
      closed <- reads c_sendClosed ;;;
      if closed : bool then
        unlock_sendMu ;;;
        putFrameBuffer frame ;;;
        closedSendQueueError
      else
        r <- select_push frame ;;;
        match r with
        | CaseQueued =>
            unlock_sendMu ;;;
            mret None
        | CaseConnDone =>
            unlock_sendMu ;;;
            putFrameBuffer frame ;;;
            reads c_ctx
        | _ =>
            unlock_sendMu ;;;
            putFrameBuffer frame ;;;
            disconnectSlowConsumer c ;;;
            mret (Some (ErrSlowConsumer : error))
        end
  end.

(** ** Writing frames *)

Definition enqueuePreparedProtocolFrame (c : receiver) (ctx : context) (kind : FrameKind)
    (method invocationID : string) (frame : frameBuf) : M (option error) :=
  p <- reads c_protocol ;;;
  match sealFrame p kind method invocationID (fb_data frame) with
  | Err err => putFrameBuffer frame ;;; mret (Some err)
  | Ok data =>
      enqueueFrame c ctx {| fb_id := fb_id frame; fb_cap := fb_cap frame; fb_data := data |}
  end.

Definition writeRawProtocolFrame (c : receiver) (ctx : context) (kind : FrameKind)
    (method invocationID : string) (payload : list byte) : M (option error) :=
  match validateProtocolFrame kind method invocationID with
  | Some err => mret (Some err)
  | None =>
      p <- reads c_protocol ;;;
      match pc_ensurePayloadSize p (zlen payload) with
      | Some err => mret (Some err)
      | None =>
          frame <- getFrameBuffer (HeaderSize + slen method + slen invocationID + zlen payload) ;;;
          frame <- append frame emptyFrameHeader ;;;
          frame <- append frame (bytes method) ;;;
          frame <- append frame (bytes invocationID) ;;;
          frame <- append frame payload ;;;
          enqueuePreparedProtocolFrame c ctx kind method invocationID frame
      end
  end.

(** The [CompareAndSwap] loop: its successful round replaces the hint it
    read, so the update is one action. *)
Definition observeEncodedPayloadSize (c : receiver) (size : Z) : M unit :=
  match c with
  | nilConn => mret tt
  | theConn =>
      modify (λ s, set_encodedPayloadHint (nextPayloadHint (c_encodedPayloadHint s) size) s)
  end.

Definition writeEncodedProtocolFrame (c : receiver) (ctx : context) (kind : FrameKind)
    (method invocationID : string) (body : option V) : M (option error) :=
  match validateProtocolFrame kind method invocationID with
  | Some err => mret (Some err)
  | None =>
      let prefixLen := prefixLen method invocationID in
      size <- reads (λ s,
        encodedFrameBufferSize (Some (c_encodedPayloadHint s)) (c_protocol s) prefixLen) ;;;
      frame <- getFrameBuffer size ;;;
      frame <- append frame emptyFrameHeader ;;;
      frame <- append frame (bytes method) ;;;
      prefixFrame <- append frame (bytes invocationID) ;;;
      p <- reads c_protocol ;;;
      let '(data, err) := pc_marshalAppend p (fb_data prefixFrame) body in
      frame <- append_to prefixFrame data ;;;
      (if negb (sameFrameBuffer prefixFrame frame)
       then putFrameBuffer prefixFrame else mret tt) ;;;
      match err with
      | Some err => putFrameBuffer frame ;;; mret (Some err)
      | None =>
          let bodyLen := zlen (fb_data frame) - prefixLen in
          match pc_ensurePayloadSize p bodyLen with
          | Some err => putFrameBuffer frame ;;; mret (Some err)
          | None =>
              observeEncodedPayloadSize c bodyLen ;;;
              enqueuePreparedProtocolFrame c ctx kind method invocationID frame
          end
      end
  end.

Definition errNilWebsocket : error := New "signalg: nil websocket connection".

(** The shape the six senders share: nil checks, the operation counter around
    the write, and the counter given back when the frame was not queued. *)
Definition sendOperation (c : receiver) (write : M (option error)) : M (option error) :=
  ws <- reads c_ws ;;;
  p <- reads c_protocol ;;;
  match c, ws, p with
  | nilConn, _, _ | _, None, _ => mret (Some errNilWebsocket)
  | _, _, None => mret (Some (ErrUnsupportedCodec : error))
  | theConn, Some _, Some _ =>
      ok <- beginSendOperation c ;;;
      if negb ok then mret (Some (ErrHandlerShuttingDown : error))
      else
        err <- write ;;;
        match err with
        | Some err => endOperation c ;;; mret (Some err)
        | None => mret None
        end
  end.

Definition Send (c : receiver) (ctx : context) (method : string) (body : option V)
    : M (option error) :=
  sendOperation c (writeEncodedProtocolFrame c ctx FrameKindMessage method "" body).

Definition SendRaw (c : receiver) (ctx : context) (method : string) (payload : list byte)
    : M (option error) :=
  sendOperation c (writeRawProtocolFrame c ctx FrameKindMessage method "" payload).

Definition Complete (c : receiver) (ctx : context) (invocationID : string) (body : option V)
    : M (option error) :=
  sendOperation c (writeEncodedProtocolFrame c ctx FrameKindCompletion "" invocationID body).

Definition CompleteError (c : receiver) (ctx : context) (invocationID : string)
    (err : option error) : M (option error) :=
  let err := match err with Some err => err | None => New "signalg: invocation failed" end in
  sendOperation c
    (writeRawProtocolFrame c ctx FrameKindError "" invocationID (bytes (error_text err))).

Definition Ping (c : receiver) (ctx : context) : M (option error) :=
  sendOperation c (writeRawProtocolFrame c ctx FrameKindPing "" "" []).

Definition Pong (c : receiver) (ctx : context) : M (option error) :=
  sendOperation c (writeRawProtocolFrame c ctx FrameKindPong "" "" []).

(** ** The writer goroutine *)

(** [ws.Write]: it writes the frame, or fails (a closed socket, a done
    context, the write timeout). *)
Definition ws_write_step (frame : frameBuf) (s : state) : list (option error * state) :=
  let failed := (Some (External "websocket: write failed"), s) in
  match c_ws s with
  | Some {| ws_written := l; ws_closed := false |} =>
      [(None, set_ws (Some {| ws_written := l ++ [fb_data frame]; ws_closed := false |}) s);
       failed]
  | _ => [failed]
  end.

Definition ws_Write (timeout : option Z) (frame : frameBuf) : M (option error) :=
  atomic (ws_write_step frame).

Definition writeQueuedFrame (c : receiver) (frame : frameBuf) : M bool :=
  timeout <- reads (λ s, if 0 <? c_writeTimeout s then Some (c_writeTimeout s) else None) ;;;
  err <- ws_Write timeout frame ;;;
  ok <- match err with
        | Some _ => closeContext c ;;; _ <- closeNow c ;;; mret false
        | None => mret true
        end ;;;
  putFrameBuffer frame ;;;
  endOperation c ;;;
  mret ok.

(** A receive that does not block. *)
Definition try_recv : M (option frameBuf) :=
  atomically (λ s,
    match c_sendQueue s with
    | [] => (None, s)
    | frame :: q => (Some frame, set_sendQueue q s)
    end).

(** The drain loop; one round more than there are queued frames is enough,
    since [sendMu] is held and nobody else receives. *)
Fixpoint discard_loop (fuel : nat) (c : receiver) : M unit :=
  match fuel with
  | O => mret tt
  | S fuel =>
      r <- try_recv ;;;
      match r with
      | Some frame => putFrameBuffer frame ;;; endOperation c ;;; discard_loop fuel c
      | None => mret tt
      end
  end.

Definition discardQueuedFrames (c : receiver) : M unit :=
  lock_sendMu ;;;
  closed <- reads c_sendClosed ;;;
  if closed : bool then unlock_sendMu
  else
    modify (set_sendClosed true) ;;;
    n <- reads (λ s, length (c_sendQueue s)) ;;;
    discard_loop (S n) c ;;;
    unlock_sendMu.

(** A blocking [select] on the queue and the connection's context. *)
Definition select_frame : M (option frameBuf) :=
  atomic (λ s,
    match c_sendQueue s with
    | [] => []
    | frame :: q => [(Some frame, set_sendQueue q s)]
    end ++ match c_ctx s with Some _ => [(None, s)] | None => [] end).

(** At most [fuel] rounds of the loop. *)
Fixpoint writeLoop (fuel : nat) (c : receiver) : M unit :=
  match fuel with
  | O => mret tt
  | S fuel =>
      ev <- select_frame ;;;
      match ev with
      | Some frame =>
          ok <- writeQueuedFrame c frame ;;;
          if ok : bool then writeLoop fuel c else discardQueuedFrames c
      | None => discardQueuedFrames c
      end
  end.

(** [Handler.runHandlerOperation] (server.go), which brackets every callback
    into a hub. *)
Definition runHandlerOperation (c : receiver) (fn : M (option error)) : M (option error) :=
  ok <- beginHandlerOperation c ;;;
  if negb ok then mret (Some (ErrHandlerShuttingDown : error))
  else
    err <- fn ;;;
    endHandlerOperation c ;;;
    mret err.

(** [newConnection] over a websocket; the writer goroutine is started apart. *)
Definition newConnection (p : option (protocolConfig V)) (ws : option wsConn)
    (sendQueueSize writeTimeout slowConsumerPolicy : Z) (pool : P) (next : nat) : state :=
  {| c_protocol := p; c_ws := ws; c_ctx := None; c_hasCancel := true;
     c_sendQueue := []; c_queueCap := sendQueueSize; c_sendMu := false; c_sendClosed := false;
     c_writeTimeout := writeTimeout; c_slowConsumerPolicy := slowConsumerPolicy;
     c_encodedPayloadHint := 0; c_ops := initial_ops; c_pool := pool; c_next := next;
     c_others := ∅; c_accepted := [] |}.
End connection.
