(* ===== verification/ConnectionInv.v ===== *)
(** * The invariant of a connection under any interleaving

    What goroutines hold while they run ([tok]), the invariant [Inv] that ties
    the store to it, the relation [Grows] every action respects, and the two
    facts about resource lists the proofs of ConnectionSafety.v need. *)

From Stdlib Require Import Ascii String.
From S2P Require Import Prelude GoStd Errors Protocol Framing Proc Connection.

Local Open Scope Z_scope.

(** ** What a goroutine holds *)

(** Progress of the holder of [sendMu]: nothing known; the queue seen open;
    the queue closed and at most [n] frames left to discard. *)
Inductive mu_state :=
| MuHeld
| MuChecked
| MuDiscard (n : nat).

(** Progress of the writer goroutine. *)
Inductive writer_state :=
| WIdle
| WBusy (frame : list byte)   (* took the frame, has not written it *)
| WWritten                    (* wrote it, has not ended the operation *)
| WFailing                    (* the write failed, context not yet cancelled *)
| WFailed                     (* context cancelled, operation not ended *)
| WBroken.                    (* will not write any more *)

Inductive tok :=
| TSend                       (* one begun send operation *)
| THandler                    (* one begun handler operation *)
| TBuf (id : nat)             (* exclusive use of a backing array *)
| TMu (m : mu_state)          (* sendMu *)
| TDone (ctx : context)       (* this context was seen done *)
| TWriter (w : writer_state). (* the writer role *)

Fixpoint collect {A} (f : tok → list A) (L : list tok) : list A :=
  match L with [] => [] | t :: L => f t ++ collect f L end.

(** One entry per operation the goroutine has begun and not ended. *)
Definition is_op (t : tok) : list unit :=
  match t with
  | TSend | THandler | TWriter (WBusy _ | WWritten | WFailing | WFailed) => [tt]
  | _ => []
  end.
Definition is_handler (t : tok) : list unit := match t with THandler => [tt] | _ => [] end.
Definition is_buf (t : tok) : list nat := match t with TBuf i => [i] | _ => [] end.
Definition is_mu (t : tok) : list mu_state := match t with TMu m => [m] | _ => [] end.
Definition is_doneTok (t : tok) : list context := match t with TDone c => [c] | _ => [] end.
Definition is_writer (t : tok) : list writer_state := match t with TWriter w => [w] | _ => [] end.

Definition opcount (L : list tok) : Z := zlen (collect is_op L).
Definition handlers (L : list tok) : Z := zlen (collect is_handler L).

(** ** The invariant *)

(** The counters count: [n] operations in all, [h] of them handlers; the done
    channel is closed exactly when none is running; nothing panicked. *)
Definition ops_ok (o : ops) (n h : Z) : Prop :=
  panicked o = false ∧ activeHandlers o = h ∧ activeOps o = n ∧ 0 ≤ h ≤ n
  ∧ (opsDone o < nextChan o)%nat
  ∧ (∀ ch, ch ∈ closedChans o → (ch < nextChan o)%nat)
  ∧ (opsDone o ∈ closedChans o ↔ n = 0).

Section inv.
Context {V P : Type} `{!SlicePool P}.

Local Abbreviation state := (cstate V P).

Definition written (s : state) : list (list byte) :=
  match c_ws s with Some w => ws_written w | None => [] end.

Definition queued (s : state) : list (list byte) := fb_data <$> c_sendQueue s.

(** Every array in use has one owner, and the pool holds none of them. *)
Definition bufs_ok (s : state) (ids : list nat) : Prop :=
  NoDup (ids ++ (fb_id <$> c_sendQueue s))
  ∧ (∀ i, i ∈ ids ++ (fb_id <$> c_sendQueue s) →
       (i < c_next s)%nat ∧ i ∉ sp_free (c_pool s))
  ∧ (∀ i, i ∈ sp_free (c_pool s) → (i < c_next s)%nat).

Definition mu_ok (s : state) (ms : list mu_state) : Prop :=
  match ms with
  | [] => c_sendMu s = false ∧ (c_sendClosed s = true → c_sendQueue s = [])
  | [MuHeld] => c_sendMu s = true ∧ (c_sendClosed s = true → c_sendQueue s = [])
  | [MuChecked] => c_sendMu s = true ∧ c_sendClosed s = false
  | [MuDiscard n] =>
      c_sendMu s = true ∧ c_sendClosed s = true ∧ (length (c_sendQueue s) ≤ n)%nat
  | _ => False
  end.

Definition writer_ok (s : state) (w : writer_state) : Prop :=
  match w with
  | WIdle | WWritten => c_sendClosed s = false ∧ c_accepted s = written s ++ queued s
  | WBusy frame => c_sendClosed s = false ∧ c_accepted s = written s ++ frame :: queued s
  | WFailing => written s `prefix_of` c_accepted s
  | WFailed | WBroken => written s `prefix_of` c_accepted s ∧ c_ctx s ≠ None
  end.

Definition writers_ok (s : state) (ws : list writer_state) : Prop :=
  match ws with [w] => writer_ok s w | _ => False end.

Record Inv (s : state) (L : list tok) : Prop := {
  inv_ops : ops_ok (c_ops s) (opcount L + zlen (c_sendQueue s)) (handlers L);
  inv_bufs : bufs_ok s (collect is_buf L);
  inv_mu : mu_ok s (collect is_mu L);
  inv_done : ∀ c, c ∈ collect is_doneTok L → ctx_Err c s ≠ None;
  inv_writer : writers_ok s (collect is_writer L);
  inv_queue : zlen (c_sendQueue s) ≤ c_queueCap s;
  inv_cancel : c_hasCancel s = true ∧ c_ws s ≠ None;
}.

(** ** What never goes back *)

Record Grows (s s' : state) : Prop := {
  grows_draining : draining (c_ops s) = true →
    draining (c_ops s') = true ∧ opsDone (c_ops s') = opsDone (c_ops s);
  grows_closed : closedChans (c_ops s) ⊆ closedChans (c_ops s');
  grows_quiet : draining (c_ops s) = true → activeOps (c_ops s) = 0 →
    activeOps (c_ops s') = 0 ∧ c_accepted s' = c_accepted s;
  grows_accepted : c_accepted s `prefix_of` c_accepted s';
  grows_written : written s `prefix_of` written s';
  grows_ctx e : c_ctx s = Some e → c_ctx s' = Some e;
  grows_sendClosed : c_sendClosed s = true →
    c_sendClosed s' = true ∧ c_accepted s' = c_accepted s;
  grows_fixed : c_protocol s' = c_protocol s ∧ c_queueCap s' = c_queueCap s;
}.

#[export] Instance Grows_PreOrder : PreOrder Grows.
Proof.
  split.
  - intros s. constructor; auto; reflexivity.
  - intros s1 s2 s3 [A1 B1 C1 D1 E1 F1 H1 J1] [A2 B2 C2 D2 E2 F2 H2 J2].
    constructor; eauto.
    + intros Hd. destruct (A1 Hd) as [Hd' ?]. destruct (A2 Hd'). split; congruence.
    + set_solver.
    + intros Hd Ha. destruct (C1 Hd Ha) as [Ha' ?]. destruct (A1 Hd) as [Hd' _].
      destruct (C2 Hd' Ha'). split; congruence.
    + by etransitivity.
    + by etransitivity.
    + intros Hc. destruct (H1 Hc) as [Hc' ?]. destruct (H2 Hc'). split; congruence.
    + destruct J1, J2. split; congruence.
Qed.

(** ** Resource lists *)

Lemma collect_app {A} (f : tok → list A) L1 L2 :
  collect f (L1 ++ L2) = collect f L1 ++ collect f L2.
Proof. induction L1; cbn; [done|]. by rewrite <- app_assoc, IHL1. Qed.

#[export] Instance collect_proper {A} (f : tok → list A) : Proper ((≡ₚ) ==> (≡ₚ)) (collect f).
Proof.
  induction 1; cbn; [done|by f_equiv| |by etransitivity].
  rewrite !app_assoc. f_equiv. apply Permutation_app_comm.
Qed.

Lemma perm_match1 {A} (l1 l2 : list A) :
  l1 ≡ₚ l2 → l1 = l2 ∨ (∃ a b l, l1 = a :: b :: l) ∧ (∃ a b l, l2 = a :: b :: l).
Proof.
  intros H. destruct l1 as [|a [|b l1]].
  - left. by apply Permutation_nil_l in H.
  - left. symmetry. by apply Permutation_singleton_r.
  - right. destruct l2 as [|c [|d l2]].
    + by apply Permutation_nil_r in H.
    + by apply Permutation_singleton_r in H.
    + eauto 10.
Qed.

Lemma Inv_perm s L1 L2 : L1 ≡ₚ L2 → Inv s L1 → Inv s L2.
Proof.
  intros HL [Ho Hb Hm Hd Hw Hq Hc].
  pose proof (collect_proper is_op _ _ HL) as Es.
  pose proof (collect_proper is_handler _ _ HL) as Eh.
  pose proof (collect_proper is_buf _ _ HL) as Eb.
  pose proof (collect_proper is_mu _ _ HL) as Em.
  pose proof (collect_proper is_doneTok _ _ HL) as Ed.
  pose proof (collect_proper is_writer _ _ HL) as Ew.
  apply Permutation_length in Es, Eh.
  assert (Hw' : collect is_writer L1 = collect is_writer L2).
  { destruct (perm_match1 _ _ Ew) as [?|((a & b & l & E) & _)]; [done|]. by rewrite E in Hw. }
  constructor; try done.
  - unfold opcount, handlers, zlen in *. by rewrite <- Es, <- Eh.
  - destruct Hb as (Hnd & Hlt & Hfree). unfold bufs_ok. setoid_rewrite <- Eb. done.
  - destruct (perm_match1 _ _ Em) as [<-|((a & b & l & E) & _)]; [done|].
    rewrite E in Hm. by destruct a.
  - intros c Hin. apply Hd. by rewrite Ed.
  - by rewrite <- Hw'.
Qed.

#[export] Instance Inv_proper s : Proper ((≡ₚ) ==> iff) (Inv s).
Proof. intros L1 L2 HL. split; apply Inv_perm; [done|by symmetry]. Qed.
End inv.
