(* ===== verification/ConnectionSafety.v ===== *)
(** * Every method of a connection keeps the invariant

    One lemma per kind of atomic action, then one [safe] specification per
    method: what a goroutine holds when it enters and when it returns. *)

From Stdlib Require Import Ascii String.
From S2P Require Import Prelude GoStd Errors Protocol Framing Proc Connection.
From S2P Require Import ConnectionInv.

Local Open Scope Z_scope.
Local Open Scope go_scope.

(** ** The operation counters alone *)

Definition ops_grows (o o' : ops) : Prop :=
  (draining o = true → draining o' = true ∧ opsDone o' = opsDone o)
  ∧ closedChans o ⊆ closedChans o'
  ∧ (draining o = true → activeOps o = 0 → activeOps o' = 0).

Lemma ops_grows_refl o : ops_grows o o.
Proof. split_and!; naive_solver. Qed.

Lemma begin_ops_ok o n h :
  ops_ok o n h → ops_ok (beginOperationLocked o) (n + 1) h.
Proof.
  intros (Hp & Hh & Hn & Hle & Hlt & Hch & Hdone). unfold ops_ok, beginOperationLocked.
  destruct (Z.eqb_spec (activeOps o) 0) as [E|E]; cbn; split_and!; try done; try lia.
  - intros ch Hin. specialize (Hch ch Hin). lia.
  - split; [|lia]. intros Hin. specialize (Hch _ Hin). lia.
  - split; [|lia]. intros Hin. apply Hdone in Hin. lia.
Qed.

Lemma beginHandler_ok o n h b o' :
  ops_ok o n h → beginHandlerOperation_ops o = (b, o') →
  ops_ok o' (if b then n + 1 else n) (if b then h + 1 else h) ∧ ops_grows o o'.
Proof.
  intros Hok. unfold beginHandlerOperation_ops.
  destruct (draining o) eqn:Hd; intros [= <- <-]; [by split; [|apply ops_grows_refl]|].
  destruct (begin_ops_ok o n h Hok) as (Hp & Hh & Hn & Hle & Hrest).
  split; [|unfold ops_grows; rewrite Hd; split_and!; try done].
  - unfold ops_ok in *. cbn. split_and!; try done; try lia; tauto.
  - unfold beginOperationLocked. destruct (_ =? _); cbn; set_solver.
Qed.

Lemma beginSend_ok o n h b o' :
  ops_ok o n h → beginSendOperation_ops o = (b, o') →
  ops_ok o' (if b then n + 1 else n) h ∧ ops_grows o o'.
Proof.
  intros Hok. unfold beginSendOperation_ops.
  destruct (_ && _) eqn:Hd; intros [= <- <-]; [by split; [|apply ops_grows_refl]|].
  split; [by apply begin_ops_ok|].
  destruct Hok as (Hp & Hh & Hn & Hle & Hrest).
  unfold ops_grows, beginOperationLocked.
  destruct (draining o); cbn in Hd; bool_to_prop;
    destruct (Z.eqb_spec (activeOps o) 0); cbn; split_and!; try done; try lia; set_solver.
Qed.

Lemma endOperation_ok o n h :
  ops_ok o n h → h < n → ops_ok (endOperationLocked o) (n - 1) h ∧ ops_grows o (endOperationLocked o).
Proof.
  intros (Hp & Hh & Hn & Hle & Hlt & Hch & Hdone) Hlt'. unfold endOperationLocked.
  destruct (Z.eqb_spec (activeOps o) 0) as [E|E]; [lia|].
  split; [|unfold ops_grows; destruct (_ =? _); cbn; split_and!; try done; try lia; set_solver].
  unfold ops_ok. cbn. destruct (Z.eqb_spec (activeOps o - 1) 0) as [E1|E1];
    cbn; split_and!; try done; try lia.
  - rewrite Hp. apply bool_decide_eq_false_2. intros Hin. apply Hdone in Hin. lia.
  - intros ch. rewrite elem_of_union, elem_of_singleton. intros [->|Hin]; [done|by apply Hch].
  - split; [lia|set_solver].
  - by rewrite Hp.
  - rewrite Hdone. lia.
Qed.

Lemma endHandler_ok o n h :
  ops_ok o n h → 0 < h →
  ops_ok (endHandlerOperation_ops o) (n - 1) (h - 1) ∧ ops_grows o (endHandlerOperation_ops o).
Proof.
  intros Hok Hpos. pose proof Hok as (Hp & Hh & Hn & Hle & Hlt & Hch & Hdone).
  unfold endHandlerOperation_ops. destruct (Z.ltb_spec 0 (activeHandlers o)); [|lia].
  destruct (endOperation_ok (set_activeHandlers (activeHandlers o - 1) o) n (h - 1))
    as [Hok' Hg]; [|lia|split; [done|]].
  - unfold ops_ok. cbn. split_and!; try done; try lia; tauto.
  - exact Hg.
Qed.

Lemma beginDrain_ok o n h ch o' :
  ops_ok o n h → beginDrain_ops o = (ch, o') → ops_ok o' n h ∧ ops_grows o o'.
Proof. intros Hok [= <- <-]. split; [exact Hok|]. split_and!; naive_solver. Qed.

Lemma newClosedChan_ok o n h ch o' :
  ops_ok o n h → newClosedChan o = (ch, o') → ops_ok o' n h ∧ ops_grows o o'.
Proof.
  intros (Hp & Hh & Hn & Hle & Hlt & Hch & Hdone) [= <- <-].
  split; [|split_and!; cbn; try done; set_solver].
  unfold ops_ok. cbn. split_and!; try done; try lia.
  - intros c. rewrite elem_of_union, elem_of_singleton. intros [->|Hin]; [lia|].
    specialize (Hch c Hin). lia.
  - rewrite elem_of_union, elem_of_singleton, <- Hdone. split; [intros [?|?]; [lia|done]|tauto].
Qed.

Section safety.
Context {V P : Type} `{!ExternalCodecs V} `{!SlicePool P} `{!SlicePoolLaws P}.

Local Abbreviation state := (cstate V P).
Local Abbreviation M := (proc (cstate V P)).
Local Abbreviation Safe := (safe (S := cstate V P) Inv Grows).

Implicit Types s : state.
Implicit Types t fr : list tok.

(** Views of a list that starts with known resources. *)
Lemma opcount_app t fr : opcount (t ++ fr) = opcount t + opcount fr.
Proof. unfold opcount. by rewrite collect_app, zlen_app. Qed.

Lemma handlers_app t fr : handlers (t ++ fr) = handlers t + handlers fr.
Proof. unfold handlers. by rewrite collect_app, zlen_app. Qed.

Lemma handlers_le_opcount fr : 0 ≤ handlers fr ≤ opcount fr.
Proof.
  split; [apply zlen_nonneg|]. induction fr as [|a fr IH]; [done|].
  change (a :: fr) with ([a] ++ fr). rewrite handlers_app, opcount_app.
  enough (handlers [a] ≤ opcount [a]) by lia. destruct a as [| | | | |[]]; done.
Qed.

(** What the writer's promise depends on. *)
Lemma writers_ok_ext s s' ws :
  c_sendClosed s' = c_sendClosed s → c_accepted s' = c_accepted s →
  c_ws s' = c_ws s → c_sendQueue s' = c_sendQueue s →
  (c_ctx s ≠ None → c_ctx s' ≠ None) →
  writers_ok s ws → writers_ok s' ws.
Proof.
  intros E1 E2 E3 E4 E5. destruct ws as [|w [|]]; cbn; try done.
  destruct w; cbn; unfold written, queued; rewrite ?E1, ?E2, ?E3, ?E4; try done.
  all: naive_solver.
Qed.

Lemma mu_ok_ext s s' ms :
  c_sendMu s' = c_sendMu s → c_sendClosed s' = c_sendClosed s →
  c_sendQueue s' = c_sendQueue s → mu_ok s ms → mu_ok s' ms.
Proof.
  intros E1 E2 E3. destruct ms as [|[] []]; cbn; by rewrite ?E1, ?E2, ?E3.
Qed.

(** ** Kinds of actions *)

(** An action on the counters, exchanging operations only. *)
Lemma safe_on_ops {A X} (Q : A → list tok → Prop) (f : ops → X * ops) t (t' : X → list tok) k :
  (∀ o n h x o', 0 ≤ h ≤ n → ops_ok o (opcount t + n) (handlers t + h) → f o = (x, o') →
     ops_ok o' (opcount (t' x) + n) (handlers (t' x) + h) ∧ ops_grows o o') →
  (∀ x, collect is_buf (t' x) = collect is_buf t ∧ collect is_mu (t' x) = collect is_mu t
      ∧ collect is_doneTok (t' x) = collect is_doneTok t) →
  (∀ s x ws, writers_ok s (collect is_writer t ++ ws) →
     writers_ok s (collect is_writer (t' x) ++ ws)) →
  (∀ x, Safe Q (t' x) (k x)) →
  Safe Q t (proc_bind k (on_ops f)).
Proof.
  intros Hf Hsame Hw Hk. cbn. apply safe_act with (t' := t'); [|done].
  intros s fr x s' [Ho Hb Hm Hd Hwr Hq Hc] Hin.
  destruct (f (c_ops s)) as [x1 o1] eqn:E. apply list_elem_of_singleton in Hin as [= -> ->].
  rewrite opcount_app, handlers_app in Ho.
  pose proof (handlers_le_opcount fr). pose proof (zlen_nonneg (c_sendQueue s)).
  destruct (Hf (c_ops s) (opcount fr + zlen (c_sendQueue s)) (handlers fr) x1 o1)
    as [Ho' (Hg1 & Hg2 & Hg3)]; [lia|by rewrite Z.add_assoc|done|].
  destruct (Hsame x1) as (Sb & Sm & Sd). rewrite !collect_app in *.
  split.
  - constructor; cbn; try done; try reflexivity. by intros; split; [apply Hg3|].
  - constructor; rewrite ?collect_app, ?opcount_app, ?handlers_app, ?Sb, ?Sm, ?Sd; cbn; try done.
    + by rewrite <- Z.add_assoc.
    + eapply writers_ok_ext, Hw, Hwr; done.
Qed.

(** An action on the buffer pool and the allocator, exchanging arrays only. *)
Lemma safe_on_bufs {A X} (Q : A → list tok → Prop) (f : state → X * state) t (t' : X → list tok) k :
  (∀ s fr x s', Inv s (t ++ fr) → f s = (x, s') →
     (∃ p n, s' = set_next n (set_pool p s)) ∧ bufs_ok s' (collect is_buf (t' x ++ fr))
     ∧ opcount (t' x) = opcount t ∧ handlers (t' x) = handlers t
     ∧ collect is_mu (t' x) = collect is_mu t
     ∧ collect is_doneTok (t' x) = collect is_doneTok t
     ∧ collect is_writer (t' x) = collect is_writer t) →
  (∀ s fr x s', Inv s (t ++ fr) → f s = (x, s') → Safe Q (t' x) (k x)) →
  Safe Q t (Act (λ s, [f s]) k).
Proof.
  intros Hf Hk s fr HI x s' Hin.
  destruct (f s) as [x1 s1] eqn:E. apply list_elem_of_singleton in Hin as [= -> ->].
  destruct (Hf s fr x1 s1 HI E) as ((p & n & ->) & Hb' & So & Sh & Sm & Sd & Sw).
  pose proof (Hk s fr x1 _ HI E) as Hk'.
  destruct HI as [Ho Hb Hm Hd Hwr Hq Hc]. split.
  - constructor; cbn; try done; auto; reflexivity.
  - exists (t' x1). split; [|done].
    rewrite opcount_app, handlers_app in Ho.
    constructor; rewrite ?opcount_app, ?handlers_app, ?So, ?Sh; cbn; try done.
    + rewrite collect_app in Hm |- *. by rewrite Sm.
    + intros c. rewrite collect_app in Hd |- *. rewrite Sd. apply Hd.
    + rewrite collect_app in Hwr |- *. by rewrite Sw.
Qed.

(** An action on the contexts, the websocket or the size hint, or a read. *)
Record quiet_step s s' : Prop := {
  qs_ops : c_ops s' = c_ops s;
  qs_pool : c_pool s' = c_pool s ∧ c_next s' = c_next s;
  qs_queue : c_sendQueue s' = c_sendQueue s ∧ c_queueCap s' = c_queueCap s;
  qs_mu : c_sendMu s' = c_sendMu s ∧ c_sendClosed s' = c_sendClosed s;
  qs_accepted : c_accepted s' = c_accepted s;
  qs_written : written s `prefix_of` written s';
  qs_fixed : c_protocol s' = c_protocol s ∧ c_hasCancel s' = c_hasCancel s;
  qs_ws : c_ws s ≠ None → c_ws s' ≠ None;
  qs_ctx e : c_ctx s = Some e → c_ctx s' = Some e;
  qs_others : c_others s' = c_others s;
}.

Lemma quiet_refl s : quiet_step s s.
Proof. by constructor. Qed.

Lemma safe_quiet {A X} (Q : A → list tok → Prop) (f : state → list (X * state)) t
    (t' : X → list tok) k :
  (∀ s x s', (x, s') ∈ f s → quiet_step s s') →
  (∀ x, opcount (t' x) = opcount t ∧ handlers (t' x) = handlers t
      ∧ collect is_buf (t' x) = collect is_buf t ∧ collect is_mu (t' x) = collect is_mu t) →
  (∀ s x s' c, (x, s') ∈ f s → c ∈ collect is_doneTok (t' x) →
     c ∈ collect is_doneTok t ∨ ctx_Err c s' ≠ None) →
  (∀ s x s' ws, c_hasCancel s = true → (x, s') ∈ f s →
     writers_ok s (collect is_writer t ++ ws) →
     writers_ok s' (collect is_writer (t' x) ++ ws)) →
  (∀ x, Safe Q (t' x) (k x)) →
  Safe Q t (Act f k).
Proof.
  intros Hf Ht Hdone Hw Hk. apply safe_act with (t' := t'); [|done].
  intros s fr x s' [Ho Hb Hm Hd Hwr Hq Hc] Hin.
  destruct (Hf s x s' Hin) as
    [Eo [Ep En] [Eq Ecap] [Emu Ecl] Ea Ewr [Epr Ehc] Ews Ectx Eot].
  destruct (Ht x) as (So & Sh & Sb & Sm).
  assert (Hctx : ∀ c, ctx_Err c s ≠ None → ctx_Err c s' ≠ None).
  { intros [| | |n]; cbn; rewrite ?Eot; try done.
    destruct (c_ctx s) as [e|]; [|done]. intros _. by rewrite (Ectx e eq_refl). }
  split.
  - constructor; rewrite ?Eo, ?Ea, ?Ecl, ?Epr, ?Ecap; auto; reflexivity.
  - rewrite opcount_app, handlers_app in Ho.
    constructor; rewrite ?opcount_app, ?handlers_app, ?So, ?Sh, ?Eo, ?Eq, ?Ecap; try done.
    + unfold bufs_ok in *. rewrite collect_app in *. by rewrite Sb, Ep, En, Eq.
    + rewrite collect_app in Hm |- *. rewrite Sm. by eapply mu_ok_ext.
    + intros c. rewrite collect_app in Hd |- *. rewrite elem_of_app. intros [Hin'|Hin'].
      * destruct (Hdone s x s' c Hin Hin') as [Hin''|]; [|done].
        apply Hctx, Hd. set_solver.
      * apply Hctx, Hd. set_solver.
    + rewrite collect_app in Hwr |- *. eapply Hw; [apply Hc|done|done].
    + rewrite Ehc. destruct Hc. auto.
Qed.

(** A read of the store that teaches nothing. *)
Lemma safe_read {A X} (Q : A → list tok → Prop) t (g : state → X) k :
  (∀ x, Safe Q t (k x)) → Safe Q t (proc_bind k (reads g)).
Proof. apply safe_reads. apply _. Qed.

(** ** The operation counters *)

Lemma beginSend_safe {A} (Q : A → list tok → Prop) k :
  Safe Q [TSend] (k true) → Safe Q [] (k false) →
  Safe Q [] (proc_bind k (beginSendOperation theConn)).
Proof.
  intros Ht Hf. apply safe_on_ops with (t' := λ b : bool, if b then [TSend] else []).
  - intros o n h x o' ? Hok Hx. destruct (beginSend_ok _ _ _ _ _ Hok Hx) as [Hok' ?].
    split; [|done]. destruct x; [|done].
    change (opcount [TSend]) with 1. change (opcount []) with 0 in Hok'.
    change (handlers [TSend]) with (handlers []).
    by replace (1 + n) with (0 + n + 1) by lia.
  - by intros [].
  - by intros ? [].
  - by intros [].
Qed.

Lemma beginHandler_safe {A} (Q : A → list tok → Prop) k :
  Safe Q [THandler] (k true) → Safe Q [] (k false) →
  Safe Q [] (proc_bind k (beginHandlerOperation theConn)).
Proof.
  intros Ht Hf. apply safe_on_ops with (t' := λ b : bool, if b then [THandler] else []).
  - intros o n h x o' ? Hok Hx. destruct (beginHandler_ok _ _ _ _ _ Hok Hx) as [Hok' ?].
    split; [|done]. destruct x; [|done].
    change (opcount [THandler]) with 1. change (opcount []) with 0 in Hok'.
    change (handlers [THandler]) with 1. change (handlers []) with 0 in Hok'.
    replace (1 + n) with (0 + n + 1) by lia. by replace (1 + h) with (0 + h + 1) by lia.
  - by intros [].
  - by intros ? [].
  - by intros [].
Qed.

Lemma endHandler_safe {A} (Q : A → list tok → Prop) k :
  Safe Q [] (k tt) → Safe Q [THandler] (proc_bind k (endHandlerOperation theConn)).
Proof.
  intros Hk. apply safe_on_ops with (t' := λ _, []); [|done|done|by intros []].
  intros o n h x o' ? Hok [= _ <-].
  change (opcount [THandler]) with 1 in Hok. change (handlers [THandler]) with 1 in Hok.
  destruct (endHandler_ok o (1 + n) (1 + h) Hok) as [Hok' ?]; [lia|]. split; [|done].
  change (opcount []) with 0. change (handlers []) with 0.
  replace (0 + n) with (1 + n - 1) by lia. by replace (0 + h) with (1 + h - 1) by lia.
Qed.

(** The writer's step when it ends the operation of a frame. *)
Definition after_end (t : list tok) : list tok :=
  match t with
  | [TWriter WWritten] => [TWriter WIdle]
  | [TWriter WFailed] => [TWriter WBroken]
  | _ => []
  end.

Lemma endOperation_safe {A} (Q : A → list tok → Prop) t k :
  t = [TSend] ∨ t = [TWriter WWritten] ∨ t = [TWriter WFailed] →
  Safe Q (after_end t) (k tt) → Safe Q t (proc_bind k (endOperation theConn)).
Proof.
  intros Ht Hk. apply safe_on_ops with (t' := λ _, after_end t).
  - intros o n h x o' ? Hok [= _ <-].
    assert (E : opcount t = 1 ∧ handlers t = 0 ∧ opcount (after_end t) = 0
      ∧ handlers (after_end t) = 0) by (destruct Ht as [->|[->| ->]]; done).
    destruct E as (E1 & E2 & E3 & E4). rewrite E1, E2 in Hok. rewrite E3, E4.
    destruct (endOperation_ok o (1 + n) (0 + h) Hok) as [Hok' ?]; [lia|]. split; [|done].
    by replace (0 + n) with (1 + n - 1) by lia.
  - destruct Ht as [->|[->| ->]]; done.
  - destruct Ht as [->|[->| ->]]; intros s x [|]; cbn; done.
  - intros []. done.
Qed.

Lemma beginDrain_safe c : Safe (λ _ t, t = []) [] (beginDrain c).
Proof.
  destruct c; cbn [beginDrain].
  - change (on_ops newClosedChan) with (proc_bind Ret (on_ops (V := V) (P := P) newClosedChan)).
    apply safe_on_ops with (t' := λ _, []); try done.
    intros o n h x o' _ Hok Hf. by apply newClosedChan_ok with (ch := x).
  - change (on_ops beginDrain_ops) with (proc_bind Ret (on_ops (V := V) (P := P) beginDrain_ops)).
    apply safe_on_ops with (t' := λ _, []); try done.
    intros o n h x o' _ Hok Hf. by apply beginDrain_ok with (ch := x).
Qed.

(** ** Frame buffers *)

Lemma bufs_ok_drop s i ids : bufs_ok s (i :: ids) → bufs_ok s ids.
Proof.
  intros (Hnd & Hlt & Hfree). cbn in *. apply NoDup_cons in Hnd as [_ Hnd].
  split_and!; try done. intros j Hj. apply Hlt. set_solver.
Qed.

(** A new array from the allocator. *)
Lemma bufs_ok_alloc s ids :
  bufs_ok s ids → bufs_ok (set_next (S (c_next s)) s) (c_next s :: ids).
Proof.
  intros (Hnd & Hlt & Hfree). split_and!; cbn.
  - apply NoDup_cons. split; [|done]. intros Hin. destruct (Hlt _ Hin). lia.
  - intros i Hi. rewrite elem_of_cons in Hi. destruct Hi as [->|Hi].
    + split; [lia|]. intros Hin. specialize (Hfree _ Hin). lia.
    + destruct (Hlt i Hi). split; [lia|done].
  - intros i Hi. specialize (Hfree _ Hi). lia.
Qed.

Lemma bufs_ok_get s ids size b p next :
  bufs_ok s ids → sp_Get (c_pool s) size (c_next s) = (b, p, next) →
  bufs_ok (set_next next (set_pool p s)) (fb_id b :: ids).
Proof.
  intros (Hnd & Hlt & Hfree) Hget.
  destruct (sp_Get_spec _ _ _ _ _ _ Hget) as (Hle & Hsub & Hid).
  assert (Hb : (fb_id b < next)%nat ∧ fb_id b ∉ sp_free p).
  { destruct Hid as [[Hin Hout]|Hfresh].
    - specialize (Hfree _ Hin). split; [lia|done].
    - split; [lia|]. intros Hin. assert (fb_id b < c_next s)%nat by (apply Hfree; set_solver). lia. }
  split_and!; cbn.
  - apply NoDup_cons. split; [|done]. intros Hin. destruct (Hlt _ Hin) as [Hl Hn].
    destruct Hid as [[? _]|?]; [done|lia].
  - intros i Hi. rewrite elem_of_cons in Hi. destruct Hi as [->|Hi]; [done|].
    destruct (Hlt i Hi). split; [lia|]. set_solver.
  - intros i Hi. assert (i < c_next s)%nat by (apply Hfree; set_solver). lia.
Qed.

Lemma bufs_ok_put s ids b :
  bufs_ok s (fb_id b :: ids) → bufs_ok (set_pool (sp_Put (c_pool s) b) s) ids.
Proof.
  intros Hok. pose proof (sp_Put_spec (c_pool s) b) as Hsub.
  pose proof Hok as (Hnd & Hlt & Hfree). cbn in *. apply NoDup_cons in Hnd as [Hout Hnd].
  split_and!; cbn; try done.
  - intros i Hi. destruct (Hlt i) as [? ?]; [set_solver|]. split; [done|].
    intros Hin. apply Hsub in Hin. set_solver.
  - intros i Hi. apply Hsub in Hi. rewrite elem_of_union, elem_of_singleton in Hi.
    destruct Hi as [->|Hi]; [|by apply Hfree]. apply Hlt. set_solver.
Qed.

Local Ltac same_views := split_and!; reflexivity.

Lemma getFrameBuffer_safe size :
  Safe (λ b t, t = [TBuf (fb_id b)] ∧ fb_data b = []) [] (getFrameBuffer size).
Proof.
  unfold getFrameBuffer, atomically. cbn [proc_bind].
  apply safe_on_bufs with (t' := λ b, [TBuf (fb_id b)]).
  - intros s fr b s' HI Hf. destruct (sp_Get _ _ _) as [[b1 p] next] eqn:Hget.
    injection Hf as <- <-. split; [by exists p, next|]. split; [|same_views].
    by apply (bufs_ok_get s _ size); [apply HI|].
  - intros s fr b s' _ _. destruct (_ <? _); [|done].
    apply safe_on_bufs with (t' := λ b, [TBuf (fb_id b)]).
    + intros s1 fr1 b1 s1' HI [= <- <-]. split; [by exists (c_pool s1), (S (c_next s1))|].
      split; [|same_views]. apply bufs_ok_alloc. by eapply bufs_ok_drop, HI.
    + intros s1 fr1 b1 s1' _ [= <- <-]. done.
Qed.

Lemma putFrameBuffer_safe b :
  Safe (λ _ t, t = []) [TBuf (fb_id b)] (putFrameBuffer b).
Proof.
  unfold putFrameBuffer, modify.
  apply safe_on_bufs with (f := λ s, (tt, _)) (t' := λ _, []); [|done].
  intros s fr x s' HI [= <- <-]. split; [by eexists (sp_Put (c_pool s) _), (c_next s)|].
  split; [|same_views].
  apply (bufs_ok_put s _ {| fb_id := fb_id b; fb_cap := fb_cap b; fb_data := [] |}). apply HI.
Qed.

(** Appending stays in the array, or moves to one nobody has. *)
Lemma append_to_safe b out :
  Safe (λ b' t, fb_data b' = out ∧
          ((fits b out = true ∧ fb_id b' = fb_id b ∧ t = [TBuf (fb_id b)])
           ∨ (fits b out = false ∧ fb_id b' ≠ fb_id b ∧ t = [TBuf (fb_id b'); TBuf (fb_id b)])))
    [TBuf (fb_id b)] (append_to b out).
Proof.
  unfold append_to. destruct (fits b out) eqn:Hf; [cbn; by split; [|left]|].
  unfold atomically. apply safe_on_bufs with (t' := λ b', [TBuf (fb_id b'); TBuf (fb_id b)]).
  - intros s fr b' s' HI [= <- <-]. split; [by exists (c_pool s), (S (c_next s))|].
    split; [|same_views]. by apply bufs_ok_alloc, HI.
  - intros s fr b' s' HI [= <- <-]. cbn. split; [done|]. right. split_and!; try done.
    destruct HI as [_ (_ & Hlt & _) _ _ _ _ _].
    destruct (Hlt (fb_id b)) as [? _]; [cbn; set_solver|]. lia.
Qed.

(** A plain append gives up the old array when it moves. *)
Lemma append_safe b data :
  Safe (λ b' t, fb_data b' = fb_data b ++ data ∧ t = [TBuf (fb_id b')])
    [TBuf (fb_id b)] (append b data).
Proof.
  unfold append, append_to. destruct (fits b _) eqn:Hf; [done|].
  unfold atomically. apply safe_on_bufs with (t' := λ b', [TBuf (fb_id b')]).
  - intros s fr b' s' HI [= <- <-]. split; [by exists (c_pool s), (S (c_next s))|].
    split; [|same_views]. apply bufs_ok_alloc. by eapply bufs_ok_drop, HI.
  - intros s fr b' s' HI [= <- <-]. done.
Qed.

(** ** Contexts and closing *)

Lemma quiet_ws s w w' :
  c_ws s = Some w → ws_written w' = ws_written w → quiet_step s (set_ws (Some w') s).
Proof. intros Hw E. constructor; cbn; try done. unfold written. cbn. by rewrite Hw, E. Qed.

Lemma ws_close_quiet s x s' : (x, s') ∈ ws_close s → quiet_step s s' ∧ written s' = written s.
Proof.
  unfold ws_close, written. destruct (c_ws s) as [w|] eqn:E; intros Hin.
  - assert (s' = set_ws (Some {| ws_written := ws_written w; ws_closed := true |}) s) as ->
      by set_solver. split; [by eapply quiet_ws|done].
  - assert (s' = s) as -> by set_solver. split; [apply quiet_refl|]. by rewrite E.
Qed.

Lemma writers_ok_quiet s s' ws :
  quiet_step s s' → written s' = written s → writers_ok s ws → writers_ok s' ws.
Proof.
  intros [Eo Ep [Eq Ecap] [Emu Ecl] Ea Ewr Epr Ews Ectx Eot] Hw.
  destruct ws as [|w [|]]; cbn; try done.
  assert (Hc : c_ctx s ≠ None → c_ctx s' ≠ None).
  { destruct (c_ctx s) as [e|]; [|done]. intros _. by rewrite (Ectx e eq_refl). }
  destruct w; cbn; unfold queued; rewrite ?Hw, ?Eq, ?Ecl, ?Ea; naive_solver.
Qed.

(** Actions that change nothing a goroutine holds. *)
Lemma safe_same {A X} (Q : A → list tok → Prop) (f : state → list (X * state)) t k :
  (∀ s x s', (x, s') ∈ f s → quiet_step s s' ∧ written s' = written s) →
  (∀ x, Safe Q t (k x)) → Safe Q t (Act f k).
Proof.
  intros Hf Hk. apply safe_quiet with (t' := λ _, t); try done.
  - intros s x s' Hin. by apply (Hf s x s').
  - auto.
  - intros s x s' ws _ Hin. destruct (Hf s x s' Hin). by apply writers_ok_quiet.
Qed.

Definition cancel_step s : state :=
  if negb (c_hasCancel s) then s
  else match c_ctx s with
       | None => set_ctx (Some (Canceled : error)) s
       | Some _ => s
       end.

Lemma cancel_quiet s : quiet_step s (cancel_step s) ∧ written (cancel_step s) = written s.
Proof.
  unfold cancel_step. destruct (c_hasCancel s); cbn; [|split; [apply quiet_refl|done]].
  destruct (c_ctx s) as [e|] eqn:E; (split; [|done]); [apply quiet_refl|].
  constructor; cbn; try done. by rewrite E.
Qed.

Lemma closeContext_safe c t : Safe (λ _ t', t' = t) t (closeContext c).
Proof.
  destruct c; [done|]. apply safe_same; [|done].
  intros s x s' Hin. apply list_elem_of_singleton in Hin as [= -> ->]. apply cancel_quiet.
Qed.

Lemma closeNow_safe c t : Safe (λ _ t', t' = t) t (closeNow c).
Proof. destruct c; [done|]. apply safe_same; [apply ws_close_quiet|done]. Qed.

Lemma CloseWithStatus_safe c code reason t :
  Safe (λ _ t', t' = t) t (CloseWithStatus c code reason).
Proof.
  destruct c; [done|]. apply safe_read. intros [w|]; [|done].
  apply safe_same; [apply ws_close_quiet|]. intros err.
  eapply safe_bind; [apply (closeContext_safe theConn)|]. by intros ? ? ->.
Qed.

Lemma disconnectSlowConsumer_safe c t : Safe (λ _ t', t' = t) t (disconnectSlowConsumer c).
Proof.
  apply safe_read. intros policy.
  destruct (_ =? _); (eapply safe_bind; [apply closeContext_safe|]); intros ? ? ->;
    (eapply safe_bind; [apply closeNow_safe|]); by intros ? ? ->.
Qed.

Lemma observe_safe c size t : Safe (λ _ t', t' = t) t (observeEncodedPayloadSize c size).
Proof.
  destruct c; [done|]. apply safe_same; [|done].
  intros s x s' Hin. apply list_elem_of_singleton in Hin as [= -> ->]. by split.
Qed.

(** The writer cancels after a failed write. *)
Lemma writer_cancel_safe {A} (Q : A → list tok → Prop) t k :
  Safe Q (TWriter WFailed :: t) (k tt) →
  collect is_writer t = [] →
  Safe Q (TWriter WFailing :: t) (proc_bind k (closeContext theConn)).
Proof.
  intros Hk Ht. apply safe_quiet with (t' := λ _, TWriter WFailed :: t).
  - intros s x s' Hin. apply list_elem_of_singleton in Hin as [= -> ->]. apply cancel_quiet.
  - intros x. by split_and!.
  - auto.
  - intros s x s' ws Hc Hin. apply list_elem_of_singleton in Hin as [= -> ->].
    fold (cancel_step s). destruct (cancel_quiet s) as [[] Hw]. cbn. rewrite Ht. cbn.
    destruct ws; cbn; [|done]. rewrite qs_accepted0, Hw. intros ?. split; [done|].
    unfold cancel_step. rewrite Hc. cbn. by destruct (c_ctx s) eqn:E; cbn; rewrite ?E.
  - by intros [].
Qed.

(** ** The queue mutex *)

Lemma lock_safe {A} (Q : A → list tok → Prop) t k :
  Safe Q (TMu MuHeld :: t) (k tt) → Safe Q t (proc_bind k lock_sendMu).
Proof.
  intros Hk. apply safe_act with (t' := λ _, TMu MuHeld :: t); [|by intros []].
  intros s fr x s' [Ho Hb Hm Hd Hw Hq Hc] Hin.
  destruct (c_sendMu s) eqn:E; [by apply elem_of_nil in Hin|].
  apply list_elem_of_singleton in Hin as [= -> ->].
  destruct (collect is_mu (t ++ fr)) as [|[] []] eqn:El; cbn in Hm; try (destruct Hm; congruence); try done.
  split; constructor; cbn; try done; auto; try reflexivity.
  rewrite El. cbn. split; [done|apply Hm].
Qed.

Lemma unlock_safe {A} (Q : A → list tok → Prop) m t k :
  m = MuHeld ∨ m = MuChecked ∨ m = MuDiscard 0 →
  Safe Q t (k tt) → Safe Q (TMu m :: t) (proc_bind k unlock_sendMu).
Proof.
  intros Hm' Hk. apply safe_act with (t' := λ _, t); [|by intros []].
  intros s fr x s' [Ho Hb Hm Hd Hw Hq Hc] Hin.
  apply list_elem_of_singleton in Hin as [= -> ->].
  split; constructor; cbn; try done; auto; try reflexivity.
  cbn in Hm. destruct (collect is_mu (t ++ fr)); [|by destruct m]. cbn. split; [done|].
    destruct Hm' as [->|[->| ->]]; cbn in Hm.
  - apply Hm.
  - destruct Hm as [_ ->]. done.
  - intros _. destruct (c_sendQueue s); [done|]. cbn in Hm. lia.
Qed.

(** Reading [sendClosed] under the mutex. *)
Lemma read_closed_safe {A} (Q : A → list tok → Prop) t k :
  Safe Q (TMu MuHeld :: t) (k true) → Safe Q (TMu MuChecked :: t) (k false) →
  Safe Q (TMu MuHeld :: t) (proc_bind k (reads c_sendClosed)).
Proof.
  intros Ht Hf. apply safe_act with (t' := λ b : bool, TMu (if b then MuHeld else MuChecked) :: t);
    [|by intros []].
  intros s fr x s' [Ho Hb Hm Hd Hw Hq Hc] Hin. apply list_elem_of_singleton in Hin as [= -> ->].
  split; [reflexivity|]. constructor; try done. cbn in *.
  destruct (c_sendClosed s) eqn:E; [done|].
  destruct (collect is_mu (t ++ fr)); cbn in *; [|done]. by destruct Hm.
Qed.

(** ** The send queue *)

(** After the selects: what was seen done stays done. *)
Definition saw (x : enqueue_case) (ctx : context) : list tok :=
  match x with CaseCtxDone => [TDone ctx] | CaseConnDone => [TDone CtxConn] | _ => [] end.

Lemma is_done_elem e x y : y ∈ is_done e x → y = x ∧ e ≠ None.
Proof. destruct e; cbn; [|set_solver]. rewrite list_elem_of_singleton. done. Qed.

Lemma select_default_elem {B} (cases : list B) d x :
  x ∈ select_default cases d → x ∈ cases ∨ x = d.
Proof. destruct cases; cbn; [|tauto]. rewrite list_elem_of_singleton. tauto. Qed.

Lemma select_done_safe {A} (Q : A → list tok → Prop) ctx t k :
  (∀ x, x = CaseCtxDone ∨ x = CaseConnDone ∨ x = CaseDefault → Safe Q (saw x ctx ++ t) (k x)) →
  Safe Q t (proc_bind k (select_done ctx)).
Proof.
  intros Hk s fr HI x s' Hin. apply list_elem_of_fmap in Hin as (y & [= -> ->] & Hin).
  split; [reflexivity|]. exists (saw y ctx ++ t).
  assert (Hx : (y = CaseDefault) ∨ (y = CaseCtxDone ∧ ctx_Err ctx s ≠ None)
    ∨ (y = CaseConnDone ∧ c_ctx s ≠ None)).
  { apply select_default_elem in Hin as [Hin| ->]; [|tauto].
    apply elem_of_app in Hin as [Hin|Hin]; apply is_done_elem in Hin; tauto. }
  split; [|apply Hk; tauto].
  destruct HI as [Ho Hb Hm Hd Hw Hq Hc].
  destruct Hx as [->|[[-> He]|[-> He]]]; cbn; [by constructor|..]; constructor; try done;
    cbn; intros c; rewrite elem_of_cons; intros [->|Hin']; auto.
Qed.

(** The error of a context that was seen done, given up after reading it. *)
Lemma read_done_safe (Q : option error → list tok → Prop) ctx t :
  (∀ e, Q (Some e) t) → Safe Q (TDone ctx :: t) (reads (ctx_Err ctx)).
Proof.
  intros HQ s fr HI x s' Hin. apply list_elem_of_singleton in Hin as [= -> ->].
  split; [reflexivity|]. exists t. destruct HI as [Ho Hb Hm Hd Hw Hq Hc].
  assert (He : ctx_Err ctx s ≠ None) by (apply Hd; cbn; set_solver).
  split; [|cbn; by destruct (ctx_Err ctx s)].
  constructor; try done. intros c Hin. apply Hd. cbn. set_solver.
Qed.

Lemma queued_push s frame : queued (push frame s) = queued s ++ [fb_data frame].
Proof. unfold queued, push. cbn [c_sendQueue set_accepted set_sendQueue]. by rewrite fmap_app. Qed.

Lemma push_inv s frame fr :
  Inv s ([TMu MuChecked; TBuf (fb_id frame); TSend] ++ fr) →
  zlen (c_sendQueue s) < c_queueCap s →
  Grows s (push frame s) ∧ Inv (push frame s) ([TMu MuChecked] ++ fr).
Proof.
  intros [Ho Hb Hm Hd Hw Hq Hc] Hroom. cbn in Hm.
  destruct (collect is_mu fr) eqn:El; [|done]. destruct Hm as [Hmu Hcl]. split.
  - constructor; cbn; try done; auto.
    + intros _ Ha. exfalso. destruct Ho as (_ & _ & Hn & Hle & _).
      unfold opcount, zlen in Hn. cbn in Hn. lia.
    + by apply prefix_app_r.
    + congruence.
  - constructor; cbn; try done.
    + rewrite zlen_app. unfold opcount, handlers, zlen in *. cbn in *.
      by replace (_ + _) with (Z.of_nat (S (length (collect is_op fr))) + Z.of_nat (length (c_sendQueue s))) by lia.
    + change (collect is_buf ([TMu MuChecked; TBuf (fb_id frame); TSend] ++ fr))
        with (fb_id frame :: collect is_buf fr) in Hb.
      unfold bufs_ok in *. cbn [c_sendQueue push set_accepted set_sendQueue c_next c_pool].
      rewrite fmap_app. cbn [fmap list_fmap].
      assert (Hp : collect is_buf fr ++ (fb_id <$> c_sendQueue s) ++ [fb_id frame]
        ≡ₚ fb_id frame :: collect is_buf fr ++ (fb_id <$> c_sendQueue s))
        by (rewrite app_assoc; symmetry; apply Permutation_cons_append).
      by setoid_rewrite Hp.
    + by rewrite El.
    + cbn in Hw. destruct (collect is_writer fr) as [|w [|]]; cbn in *; try done.
      pose proof (queued_push s frame) as Eq.
      destruct w; cbn in *; rewrite ?Eq; change (written (push frame s)) with (written s).
      1,3: destruct Hw as [? ->]; by rewrite app_assoc.
      1: destruct Hw as [? ->]; by rewrite <- app_assoc.
      1: by apply prefix_app_r.
      all: destruct Hw; split; [by apply prefix_app_r|done].
    + rewrite zlen_app. unfold zlen in *. cbn. lia.
Qed.

Lemma select_push_safe {A} (Q : A → list tok → Prop) frame k :
  Safe Q [TMu MuChecked] (k CaseQueued) →
  Safe Q [TMu MuChecked; TDone CtxConn; TBuf (fb_id frame); TSend] (k CaseConnDone) →
  Safe Q [TMu MuChecked; TBuf (fb_id frame); TSend] (k CaseDefault) →
  Safe Q [TMu MuChecked; TBuf (fb_id frame); TSend] (proc_bind k (select_push frame)).
Proof.
  intros Hp Hd Hf s fr HI x s' Hin.
  assert (Hx : (x = CaseQueued ∧ s' = push frame s ∧ zlen (c_sendQueue s) < c_queueCap s)
    ∨ (x = CaseConnDone ∧ s' = s ∧ c_ctx s ≠ None) ∨ (x = CaseDefault ∧ s' = s)).
  { apply select_default_elem in Hin as [Hin|[= -> ->]]; [|tauto].
    apply elem_of_app in Hin as [Hin|Hin].
    - destruct (Z.ltb_spec (zlen (c_sendQueue s)) (c_queueCap s)); [|by apply elem_of_nil in Hin].
      apply list_elem_of_singleton in Hin as [= -> ->]. auto.
    - apply list_elem_of_fmap in Hin as (y & [= -> ->] & Hin).
      apply is_done_elem in Hin as [-> ?]. auto. }
  destruct Hx as [(-> & -> & Hroom)|[(-> & -> & He)|(-> & ->)]].
  - destruct (push_inv s frame fr HI Hroom). split; [done|]. by exists [TMu MuChecked].
  - split; [reflexivity|]. eexists. split; [|exact Hd].
    destruct HI as [Ho Hb Hm Hd' Hw Hq Hc]. constructor; try done.
    cbn in *. intros c. rewrite elem_of_cons. intros [->|?]; auto.
  - split; [reflexivity|]. eexists. by split.
Qed.

(** ** The senders *)

(** After a write: the operation went to the queue, or is still held. *)
Definition sent (r : option error) (t : list tok) : Prop :=
  match r with None => t = [] | Some _ => t = [TSend] end.

(** Gives the buffer back while holding [r]. *)
Lemma put_then {A} (Q : A → list tok → Prop) b r k :
  Safe Q r (k tt) → Safe Q (TBuf (fb_id b) :: r) (proc_bind k (putFrameBuffer b)).
Proof.
  intros Hk. apply (safe_bind_frame Inv Grows (λ _ t, t = []) Q [TBuf (fb_id b)] r);
    [apply putFrameBuffer_safe|]. by intros [] ? ->.
Qed.

(** Holding [t] while running something that gives it back. *)
Lemma keep_then {A B} (Q : B → list tok → Prop) t (p : M A) k :
  Safe (λ _ t', t' = t) t p → (∀ a, Safe Q t (k a)) → Safe Q t (proc_bind k p).
Proof. intros Hp Hk. eapply safe_bind; [exact Hp|]. by intros a ? ->. Qed.

(** Resources may be listed in any order. *)
Lemma reorder {A} (Q : A → list tok → Prop) t t2 X (f : state → list (X * state)) k :
  t ≡ₚ t2 → Safe Q t2 (Act f k) → Safe Q t (Act f k).
Proof.
  intros Ht H s fr HI. apply (H s fr). by rewrite <- Ht.
Qed.

Lemma enqueueFrame_safe ctx frame :
  Safe sent [TBuf (fb_id frame); TSend] (enqueueFrame theConn ctx frame).
Proof.
  unfold enqueueFrame. apply select_done_safe. intros x [->|[->| ->]]; cbn [saw app].
  - eapply reorder; [apply perm_swap|]. apply put_then.
    by apply read_done_safe.
  - eapply reorder; [apply perm_swap|]. apply put_then.
    by apply (read_done_safe _ CtxConn).
  - apply lock_safe. apply read_closed_safe.
    + apply unlock_safe; [tauto|]. apply put_then. apply safe_read. by intros [e|].
    + apply select_push_safe.
      * apply unlock_safe; [tauto|done].
      * apply unlock_safe; [tauto|].
        eapply reorder; [apply perm_swap|]. apply put_then.
        by apply (read_done_safe _ CtxConn).
      * apply unlock_safe; [tauto|]. apply put_then.
        apply keep_then; [apply disconnectSlowConsumer_safe|done].
Qed.

Lemma enqueuePrepared_safe ctx kind m i frame :
  Safe sent [TBuf (fb_id frame); TSend] (enqueuePreparedProtocolFrame theConn ctx kind m i frame).
Proof.
  unfold enqueuePreparedProtocolFrame. apply safe_read. intros p.
  destruct (sealFrame _ _ _ _ _) as [data|err]; [|by apply put_then].
  by apply (enqueueFrame_safe ctx {| fb_id := fb_id frame; fb_cap := _; fb_data := data |}).
Qed.

(** Getting a buffer and appending to it, holding a send operation. *)
Lemma get_then {A} (Q : A → list tok → Prop) size r k :
  (∀ b, fb_data b = [] → Safe Q ([TBuf (fb_id b)] ++ r) (k b)) →
  Safe Q r (proc_bind k (getFrameBuffer size)).
Proof.
  intros Hk. apply (safe_bind_frame Inv Grows (λ b t, t = [TBuf (fb_id b)] ∧ fb_data b = []) Q [] r);
    [apply getFrameBuffer_safe|]. intros b ? [-> ?]. by apply Hk.
Qed.

Lemma append_then {A} (Q : A → list tok → Prop) b data r k :
  (∀ b', fb_data b' = fb_data b ++ data → Safe Q ([TBuf (fb_id b')] ++ r) (k b')) →
  Safe Q ([TBuf (fb_id b)] ++ r) (proc_bind k (append b data)).
Proof.
  intros Hk. eapply safe_bind_frame; [apply append_safe|]. intros b' ? [? ->]. by apply Hk.
Qed.

Lemma writeRaw_safe ctx kind m i payload :
  Safe sent [TSend] (writeRawProtocolFrame theConn ctx kind m i payload).
Proof.
  unfold writeRawProtocolFrame. destruct (validateProtocolFrame _ _ _); [done|].
  apply safe_read. intros p. destruct (pc_ensurePayloadSize _ _); [done|].
  apply get_then. intros b0 _. do 4 (apply append_then; intros ? _).
  apply enqueuePrepared_safe.
Qed.

(** The buffer the body was encoded into is the prefix's or another, and in
    that case the prefix goes back to the pool: nothing is put twice. *)
Lemma writeEncoded_safe ctx kind m i body :
  Safe sent [TSend] (writeEncodedProtocolFrame theConn ctx kind m i body).
Proof.
  unfold writeEncodedProtocolFrame. destruct (validateProtocolFrame _ _ _); [done|].
  apply safe_read. intros size. apply get_then. intros b0 E0.
  apply append_then. intros b1 E1. apply append_then. intros b2 E2.
  apply append_then. intros prefix E3. apply safe_read. intros p.
  destruct (pc_marshalAppend p (fb_data prefix) body) as [data err].
  assert (Hlen : 8 ≤ zlen (fb_data prefix)).
  { rewrite E3, E2, E1, E0, !zlen_app. change (zlen emptyFrameHeader) with 8.
    pose proof (zlen_nonneg (bytes m)). pose proof (zlen_nonneg (bytes i)).
    change (zlen (@nil byte)) with 0. lia. }
  eapply safe_bind_frame; [apply append_to_safe|].
  intros frame t [Hdata Hcase].
  assert (Hput : ∀ (k : unit → M (option error)),
    Safe sent ([TBuf (fb_id frame)] ++ [TSend]) (k tt) →
    Safe sent (t ++ [TSend]) (proc_bind k
      (if negb (sameFrameBuffer prefix frame) then putFrameBuffer prefix else mret tt))).
  { intros k Hk. unfold sameFrameBuffer.
    destruct (Z.eqb_spec (zlen (fb_data prefix)) 0); [lia|]. cbn [orb].
    destruct Hcase as [(Hf & Eid & ->)|(Hf & Eid & ->)].
    - assert (zlen (fb_data prefix) ≤ zlen (fb_data frame)).
      { unfold fits in Hf. bool_to_prop. rewrite Hdata. apply prefix_length in H. unfold zlen. lia. }
      destruct (Z.eqb_spec (zlen (fb_data frame)) 0); [lia|].
      rewrite Eid, Nat.eqb_refl. cbn. by rewrite Eid in Hk.
    - assert ((if zlen (fb_data frame) =? 0 then zlen (fb_data prefix) =? zlen (fb_data frame)
        else Nat.eqb (fb_id prefix) (fb_id frame)) = false) as ->.
      { destruct (Z.eqb_spec (zlen (fb_data frame)) 0).
        - by apply Z.eqb_neq; lia.
        - apply Nat.eqb_neq. congruence. }
      cbn [negb]. eapply reorder; [apply perm_swap|]. by apply put_then. }
  apply Hput. destruct err as [err|]; [by apply put_then|].
  destruct (pc_ensurePayloadSize _ _); [by apply put_then|].
  apply keep_then; [apply observe_safe|]. intros _. apply enqueuePrepared_safe.
Qed.

Lemma sendOperation_safe c write :
  (c = theConn → Safe sent [TSend] write) →
  Safe (λ _ t, t = []) [] (sendOperation c write).
Proof.
  intros Hw. unfold sendOperation. apply safe_read. intros ws. apply safe_read. intros p.
  destruct c, ws, p; try done. apply beginSend_safe; [|done]. cbn [negb].
  eapply safe_bind; [by apply Hw|]. intros [err|] t ->; [|done].
  apply endOperation_safe; [tauto|done].
Qed.

Lemma Send_safe c ctx m body : Safe (λ _ t, t = []) [] (Send c ctx m body).
Proof. apply sendOperation_safe. intros ->. apply writeEncoded_safe. Qed.

Lemma SendRaw_safe c ctx m payload : Safe (λ _ t, t = []) [] (SendRaw c ctx m payload).
Proof. apply sendOperation_safe. intros ->. apply writeRaw_safe. Qed.

Lemma Complete_safe c ctx i body : Safe (λ _ t, t = []) [] (Complete c ctx i body).
Proof. apply sendOperation_safe. intros ->. apply writeEncoded_safe. Qed.

Lemma CompleteError_safe c ctx i err : Safe (λ _ t, t = []) [] (CompleteError c ctx i err).
Proof. apply sendOperation_safe. intros ->. apply writeRaw_safe. Qed.

Lemma Ping_safe c ctx : Safe (λ _ t, t = []) [] (Ping c ctx).
Proof. apply sendOperation_safe. intros ->. apply writeRaw_safe. Qed.

Lemma Pong_safe c ctx : Safe (λ _ t, t = []) [] (Pong c ctx).
Proof. apply sendOperation_safe. intros ->. apply writeRaw_safe. Qed.

Lemma runHandlerOperation_safe c fn :
  Safe (λ _ t, t = []) [] fn → Safe (λ _ t, t = []) [] (runHandlerOperation c fn).
Proof.
  intros Hfn. unfold runHandlerOperation. destruct c; [done|].
  apply beginHandler_safe; [|done]. cbn [negb].
  eapply (safe_bind_frame Inv Grows _ _ [] [THandler]); [exact Hfn|].
  intros r ? ->. by apply endHandler_safe.
Qed.
End safety.
