(* ===== verification/ConnectionWriter.v ===== *)
(** * The writer goroutine and the other goroutines of a connection

    [goroutine] lists what may run on one connection; [pool_of] starts them
    beside the writer.  The theorems at the end hold for every such pool in
    every state any interleaving reaches. *)

From Stdlib Require Import Ascii String.
From S2P Require Import Prelude GoStd Errors Protocol Framing Proc Connection.
From S2P Require Import ConnectionInv ConnectionSafety.

Local Open Scope Z_scope.
Local Open Scope go_scope.

(** ** Goroutines *)

(** One call of a method by user code. *)
Inductive call (V : Type) :=
| CallSend (ctx : context) (method : string) (body : option V)
| CallSendRaw (ctx : context) (method : string) (payload : list byte)
| CallComplete (ctx : context) (invocationID : string) (body : option V)
| CallCompleteError (ctx : context) (invocationID : string) (err : option error)
| CallPing (ctx : context)
| CallPong (ctx : context)
| CallClose (code : Z) (reason : string).
Arguments CallSend {V}.
Arguments CallSendRaw {V}.
Arguments CallComplete {V}.
Arguments CallCompleteError {V}.
Arguments CallPing {V}.
Arguments CallPong {V}.
Arguments CallClose {V}.

Inductive goroutine (V : Type) :=
| GCalls (l : list (call V))         (* user code outside of a callback *)
| GHandler (l : list (call V))       (* a hub callback: [runHandlerOperation] *)
| GDrain                             (* [beginDrain] *)
| GCloser                            (* [closeContext] and [closeNow] *)
| GBuffers (sizes : list Z).         (* another user of the buffer pool *)
Arguments GCalls {V}.
Arguments GHandler {V}.
Arguments GDrain {V}.
Arguments GCloser {V}.
Arguments GBuffers {V}.

Section goroutines.
Context {V P : Type} `{!ExternalCodecs V} `{!SlicePool P}.

Local Abbreviation state := (cstate V P).
Local Abbreviation M := (proc (cstate V P)).

Definition run_call (c : call V) : M (option error) :=
  match c with
  | CallSend ctx m body => Send theConn ctx m body
  | CallSendRaw ctx m payload => SendRaw theConn ctx m payload
  | CallComplete ctx i body => Complete theConn ctx i body
  | CallCompleteError ctx i err => CompleteError theConn ctx i err
  | CallPing ctx => Ping theConn ctx
  | CallPong ctx => Pong theConn ctx
  | CallClose code reason => CloseWithStatus theConn code reason
  end.

Definition run_calls (l : list (call V)) : M unit :=
  for_each l (λ c, _ <- run_call c ;;; mret tt).

Definition run_goroutine (g : goroutine V) : M unit :=
  match g with
  | GCalls l => run_calls l
  | GHandler l =>
      _ <- runHandlerOperation theConn (run_calls l ;;; mret None) ;;; mret tt
  | GDrain => _ <- beginDrain theConn ;;; mret tt
  | GCloser => closeContext theConn ;;; _ <- closeNow theConn ;;; mret tt
  | GBuffers sizes => for_each sizes (λ n, b <- getFrameBuffer n ;;; putFrameBuffer b)
  end.

(** The writer (at most [fuel] rounds) and the others, on a new connection. *)
Definition pool_of (fuel : nat) (gs : list (goroutine V)) (s : state) : pool state :=
  (writeLoop fuel theConn :: (run_goroutine <$> gs), s).
End goroutines.

Section writer.
Context {V P : Type} `{!ExternalCodecs V} `{!SlicePool P} `{!SlicePoolLaws P}.

Local Abbreviation state := (cstate V P).
Local Abbreviation M := (proc (cstate V P)).
Local Abbreviation Safe := (safe (S := cstate V P) Inv Grows).

Implicit Types s : state.
Implicit Types t fr : list tok.

(** ** Taking and writing frames *)

(** Removing the head of the queue, when the writer's promise allows it. *)
Lemma pop_inv s frame q t t' fr :
  c_sendQueue s = frame :: q →
  Inv s (t ++ fr) →
  opcount t' = opcount t + 1 → handlers t' = handlers t →
  collect is_buf t' = fb_id frame :: collect is_buf t →
  collect is_doneTok t' = collect is_doneTok t →
  mu_ok (set_sendQueue q s) (collect is_mu t' ++ collect is_mu fr) →
  writers_ok (set_sendQueue q s) (collect is_writer t' ++ collect is_writer fr) →
  Grows s (set_sendQueue q s) ∧ Inv (set_sendQueue q s) (t' ++ fr).
Proof.
  intros Eq [Ho Hb Hm Hd Hw Hq Hc] So Sh Sb Sd Sm Sw. split.
  - constructor; cbn; try done; auto; reflexivity.
  - rewrite opcount_app, handlers_app, Eq in Ho.
    constructor; cbn; rewrite ?opcount_app, ?handlers_app, ?collect_app, ?So, ?Sh, ?Sb; try done.
    + replace (opcount t + 1 + opcount fr + zlen q) with (opcount t + opcount fr + zlen (frame :: q));
        [done|]. unfold zlen. cbn. lia.
    + unfold bufs_ok in *. rewrite collect_app, Eq in Hb. cbn in *.
      assert (Hp : fb_id frame :: (collect is_buf t ++ collect is_buf fr) ++ (fb_id <$> q)
        ≡ₚ (collect is_buf t ++ collect is_buf fr) ++ fb_id frame :: (fb_id <$> q))
        by apply Permutation_middle. by setoid_rewrite Hp.
    + intros c. rewrite Sd, <- collect_app. apply Hd.
    + rewrite Eq in Hq. unfold zlen in *. cbn in Hq. lia.
Qed.

Lemma select_frame_safe {A} (Q : A → list tok → Prop) k :
  (∀ b, Safe Q [TBuf (fb_id b); TWriter (WBusy (fb_data b))] (k (Some b))) →
  Safe Q [TWriter WBroken] (k None) →
  Safe Q [TWriter WIdle] (proc_bind k select_frame).
Proof.
  intros Hs Hn s fr HI x s' Hin.
  pose proof (inv_writer s _ HI) as Hw. cbn in Hw.
  destruct (collect is_writer fr) as [|] eqn:Ew; [|done]. destruct Hw as [Hcl Hacc].
  apply elem_of_app in Hin as [Hin|Hin].
  - destruct (c_sendQueue s) as [|b q] eqn:Eq; [by apply elem_of_nil in Hin|].
    apply list_elem_of_singleton in Hin as [= -> ->].
    destruct (pop_inv s b q [TWriter WIdle] [TBuf (fb_id b); TWriter (WBusy (fb_data b))] fr)
      as [HG HI']; try done.
    + pose proof (inv_mu s _ HI) as Hm. cbn in *.
      destruct (collect is_mu fr) as [|[] []]; cbn in *; try done; rewrite ?Hcl in *.
      * naive_solver.
      * naive_solver.
      * naive_solver.
    + rewrite Ew. cbn. split; [done|]. rewrite Hacc. unfold queued. by rewrite Eq.
    + split; [done|]. eexists. split; [exact HI'|apply Hs].
  - destruct (c_ctx s) as [e|] eqn:Ec; [|by apply elem_of_nil in Hin].
    apply list_elem_of_singleton in Hin as [= -> ->]. split; [reflexivity|].
    exists [TWriter WBroken]. split; [|exact Hn].
    destruct HI as [Ho Hb Hm Hd Hw Hq Hc]. constructor; try done.
    cbn. rewrite Ew. cbn. rewrite Hacc, Ec. split; [by apply prefix_app_r|done].
Qed.

Lemma ws_write_cases b s x s' :
  (x, s') ∈ ws_write_step b s →
  (s' = s ∧ x ≠ None)
  ∨ (∃ l, c_ws s = Some {| ws_written := l; ws_closed := false |} ∧ x = None
      ∧ s' = set_ws (Some {| ws_written := l ++ [fb_data b]; ws_closed := false |}) s).
Proof.
  unfold ws_write_step. destruct (c_ws s) as [[l [|]]|]; set_solver.
Qed.

Lemma ws_Write_safe {A} (Q : A → list tok → Prop) timeout b t k :
  collect is_writer t = [] →
  Safe Q (TWriter WWritten :: t) (k None) →
  (∀ e, Safe Q (TWriter WFailing :: t) (k (Some e))) →
  Safe Q (TWriter (WBusy (fb_data b)) :: t) (proc_bind k (ws_Write timeout b)).
Proof.
  intros Ht Hn Hs. apply safe_quiet with
    (t' := λ r, TWriter (match r with None => WWritten | Some _ => WFailing end) :: t).
  - intros s x s' Hin. destruct (ws_write_cases _ _ _ _ Hin) as [[-> _]|(l & E & _ & ->)];
      [apply quiet_refl|].
    constructor; cbn; try done. unfold written. cbn. rewrite E. by apply prefix_app_r.
  - by intros [].
  - auto.
  - intros s x s' ws _ Hin. cbn. rewrite Ht. cbn. destruct ws; cbn; [|by destruct x].
    intros [Hcl Hacc].
    destruct (ws_write_cases _ _ _ _ Hin) as [[-> Hx]|(l & E & -> & ->)]; cbn.
    + destruct x; [|done]. cbn. rewrite Hacc. by apply prefix_app_r.
    + split; [done|]. unfold written in *. rewrite E in Hacc. cbn in *.
      rewrite Hacc. unfold queued. cbn. by rewrite <- app_assoc.
  - by intros [e|].
Qed.

Lemma writeQueuedFrame_safe b :
  Safe (λ ok t, t = [TWriter (if ok : bool then WIdle else WBroken)])
    [TBuf (fb_id b); TWriter (WBusy (fb_data b))] (writeQueuedFrame theConn b).
Proof.
  unfold writeQueuedFrame. apply safe_read. intros timeout.
  eapply reorder; [apply perm_swap|]. apply (ws_Write_safe _ timeout b [TBuf (fb_id b)]); [reflexivity| |].
  - eapply reorder; [apply perm_swap|]. apply put_then. apply endOperation_safe; [tauto|done].
  - intros e.
    eapply (safe_bind _ _ (λ ok t, ok = false ∧ t = [TWriter WFailed; TBuf (fb_id b)])).
    + apply writer_cancel_safe; [|done]. apply keep_then; [apply closeNow_safe|done].
    + intros ? ? [-> ->]. eapply reorder; [apply perm_swap|]. apply put_then.
      apply endOperation_safe; [tauto|done].
Qed.

(** ** Discarding what is left *)

Lemma try_recv_safe {A} (Q : A → list tok → Prop) n k :
  (∀ b m, n = S m →
     Safe Q [TBuf (fb_id b); TSend; TMu (MuDiscard m); TWriter WBroken] (k (Some b))) →
  Safe Q [TMu (MuDiscard 0); TWriter WBroken] (k None) →
  Safe Q [TMu (MuDiscard n); TWriter WBroken] (proc_bind k try_recv).
Proof.
  intros Hs Hn s fr HI x s' Hin.
  pose proof (inv_mu s _ HI) as Hm. cbn in Hm.
  destruct (collect is_mu fr) as [|] eqn:Em; [|done]. destruct Hm as (Hmu & Hcl & Hlen).
  pose proof (inv_writer s _ HI) as Hw. cbn in Hw.
  destruct (collect is_writer fr) as [|] eqn:Ew; [|done].
  destruct (c_sendQueue s) as [|b q] eqn:Eq; apply list_elem_of_singleton in Hin as [= -> ->].
  - split; [reflexivity|]. eexists. split; [|exact Hn].
    destruct HI as [Ho Hb Hm Hd Hw' Hq Hc]. constructor; try done.
    cbn. rewrite Em. cbn. by rewrite Eq.
  - cbn in Hlen. destruct n as [|m]; [lia|].
    destruct (pop_inv s b q [TMu (MuDiscard (S m)); TWriter WBroken]
      [TBuf (fb_id b); TSend; TMu (MuDiscard m); TWriter WBroken] fr) as [HG HI']; try done.
    + cbn. rewrite Em. cbn. split_and!; [done..|lia].
    + cbn. by rewrite Ew.
    + split; [done|]. eexists. split; [exact HI'|by apply Hs].
Qed.

Lemma discard_loop_safe fuel n :
  (n < fuel)%nat →
  Safe (λ _ t, t = [TMu (MuDiscard 0); TWriter WBroken])
    [TMu (MuDiscard n); TWriter WBroken] (discard_loop fuel theConn).
Proof.
  revert n. induction fuel as [|fuel IH]; intros n Hn; [lia|]. cbn [discard_loop].
  apply try_recv_safe; [|done]. intros b m ->. apply put_then.
  apply (safe_bind_frame Inv Grows (λ _ t, t = []) _ [TSend]).
  - change (endOperation theConn) with (proc_bind Ret (endOperation (V := V) (P := P) theConn)).
    apply endOperation_safe; [tauto|done].
  - intros [] ? ->. apply IH. lia.
Qed.

(** Closing the queue and counting what it holds. *)
Lemma close_queue_safe {A} (Q : A → list tok → Prop) (k : nat → M A) :
  (∀ n, Safe Q [TMu (MuDiscard n); TWriter WBroken] (k n)) →
  Safe Q [TMu MuChecked; TWriter WBroken]
    (modify (set_sendClosed true) ;;; proc_bind k (reads (λ s, length (c_sendQueue s)))).
Proof.
  intros Hk s fr HI x s' Hin. apply list_elem_of_singleton in Hin as [= -> ->].
  destruct HI as [Ho Hb Hm Hd Hw Hq Hc]. cbn in Hm, Hw.
  destruct (collect is_mu fr) as [|] eqn:Em; [|done]. destruct Hm as [Hmu Hcl].
  destruct (collect is_writer fr) as [|] eqn:Ew; [|done].
  split; [constructor; cbn; try done; auto; reflexivity|].
  exists [TMu (MuDiscard (length (c_sendQueue s))); TWriter WBroken]. split.
  { constructor; cbn; try done; rewrite ?Em, ?Ew; cbn; done. }
  intros s1 fr1 [Ho1 Hb1 Hm1 Hd1 Hw1 Hq1 Hc1] x s' Hin.
  apply list_elem_of_singleton in Hin as [= -> ->]. split; [reflexivity|].
  exists [TMu (MuDiscard (length (c_sendQueue s1))); TWriter WBroken]. split; [|apply Hk].
  constructor; try done. cbn in *. destruct (collect is_mu fr1); [|done]. naive_solver.
Qed.

Lemma discardQueuedFrames_safe :
  Safe (λ _ t, t = [TWriter WBroken]) [TWriter WBroken] (discardQueuedFrames theConn).
Proof.
  unfold discardQueuedFrames. apply lock_safe. apply read_closed_safe.
  - by apply (unlock_safe _ MuHeld [TWriter WBroken] Ret); [tauto|].
  - apply close_queue_safe. intros n.
    eapply safe_bind; [apply discard_loop_safe; lia|]. intros ? ? ->.
    by apply (unlock_safe _ (MuDiscard 0) [TWriter WBroken] Ret); [tauto|].
Qed.

(** What a goroutine may still hold when it has ended. *)
Definition ended (t : list tok) : Prop := t = [] ∨ t = [TWriter WIdle] ∨ t = [TWriter WBroken].

Lemma writeLoop_safe fuel : Safe (λ _, ended) [TWriter WIdle] (writeLoop fuel theConn).
Proof.
  unfold ended. induction fuel as [|fuel IH]; cbn [writeLoop]; [cbn; tauto|].
  assert (Hd : Safe (λ _, ended) [TWriter WBroken] (discardQueuedFrames theConn)).
  { eapply safe_mono; [apply discardQueuedFrames_safe|]. unfold ended. naive_solver. }
  apply select_frame_safe; [|exact Hd].
  intros b. eapply safe_bind; [apply writeQueuedFrame_safe|].
  intros [] ? ->; [exact IH|exact Hd].
Qed.

(** ** The other goroutines *)

Local Abbreviation Neutral p := (Safe (λ _ t, t = []) [] p).

Lemma run_call_safe c : Neutral (run_call c).
Proof.
  destruct c; cbn [run_call].
  - apply Send_safe.
  - apply SendRaw_safe.
  - apply Complete_safe.
  - apply CompleteError_safe.
  - apply Ping_safe.
  - apply Pong_safe.
  - apply CloseWithStatus_safe.
Qed.

Lemma run_calls_safe l : Neutral (run_calls l).
Proof. apply safe_for_each. intros c. by apply keep_then; [apply run_call_safe|]. Qed.

Lemma run_goroutine_safe g : Neutral (run_goroutine g).
Proof.
  destruct g as [l|l| | |sizes]; cbn [run_goroutine].
  - apply run_calls_safe.
  - apply keep_then; [|done]. apply runHandlerOperation_safe.
    by apply keep_then; [apply run_calls_safe|].
  - by apply keep_then; [apply beginDrain_safe|].
  - apply keep_then; [apply closeContext_safe|]. intros _.
    by apply keep_then; [apply closeNow_safe|].
  - apply safe_for_each. intros n. apply get_then. intros b _. apply putFrameBuffer_safe.
Qed.
End writer.
