(* ===== verification/ConnectionProps.v ===== *)
(** * What holds of a connection in every reachable state

    For a new connection with its writer goroutine and any number of other
    goroutines (user calls, hub callbacks, drains, closers), in every state
    any interleaving reaches. *)

From Stdlib Require Import Ascii String.
From S2P Require Import Prelude GoStd Errors Protocol Framing Samples Proc.
From S2P Require Import Connection ConnectionInv ConnectionSafety ConnectionWriter.

Local Open Scope Z_scope.
Local Open Scope go_scope.

(** ** A pool over a list, for the witnesses *)

(** The simplest buffer pool: it hands out new arrays and forgets what it gets. *)
#[export] Instance fresh_pool : SlicePool unit := {
  sp_Get _ size next := ({| fb_id := next; fb_cap := size; fb_data := [] |}, tt, S next);
  sp_Put _ _ := tt;
  sp_free _ := ∅;
}.

#[export] Instance fresh_pool_laws : SlicePoolLaws unit.
Proof.
  split.
  - intros p size next b p' next' [= <- <- <-]. cbn. split_and!; [lia|done|]. right. lia.
  - intros p b. cbn. set_solver.
Qed.

Definition sample_connection : cstate (list byte) unit :=
  newConnection (Some sample_config) (Some {| ws_written := []; ws_closed := false |}) 2 0 0 tt 0.

(** One sender, one drain and one closer beside the writer. *)
Definition sample_pool : pool (cstate (list byte) unit) :=
  pool_of 3 [GCalls [CallSendRaw CtxBackground "m" [x01]]; GDrain; GCloser] sample_connection.

(** The frame is queued; then it is drained and written; or the closer comes first. *)
Definition sample_queued := run_to (repeat (1, 0) 11)%nat sample_pool.
Definition sample_drained := run_to ((2, 0) :: repeat (0, 0) 5)%nat sample_queued.
Definition sample_closed := run_to ((3, 0) :: repeat (0, 0) 4)%nat sample_pool.

Section props.
Context {V P : Type} `{!ExternalCodecs V} `{!SlicePool P} `{!SlicePoolLaws P}.

Local Abbreviation state := (cstate V P).

(** A connection as [newConnection] makes it over an open websocket. *)
Definition fresh_connection (s : state) : Prop :=
  ∃ p cap timeout policy pool next,
    s = newConnection p (Some {| ws_written := []; ws_closed := false |}) cap timeout policy pool next
    ∧ 0 ≤ cap ∧ (∀ i, i ∈ sp_free pool → (i < next)%nat).

Lemma fresh_Inv s : fresh_connection s → Inv s [TWriter WIdle].
Proof.
  intros (p & cap & timeout & policy & pool & next & -> & Hcap & Hfree).
  constructor; cbn; try done.
  - unfold ops_ok, opcount, handlers, zlen. cbn. split_and!; try done; try lia; set_solver.
  - unfold bufs_ok. cbn. split_and!; [constructor|set_solver|done].
  - set_solver.
Qed.

Lemma mjoin_nils {A B} (l : list A) : mjoin ((λ _ : A, [] : list B) <$> l) = [].
Proof. by induction l. Qed.

Lemma pool_of_ok fuel gs s :
  fresh_connection s → pool_ok Inv Grows ended (pool_of fuel gs s).
Proof.
  intros Hs. exists ([TWriter WIdle] :: ((λ _, []) <$> gs)). split.
  - cbn. constructor; [apply writeLoop_safe|].
    induction gs as [|g gs IH]; cbn; constructor; [|done].
    eapply safe_mono; [apply run_goroutine_safe|]. intros ? ? ->. by left.
  - change (Inv s ([TWriter WIdle] ++ mjoin ((λ _ : goroutine V, [] : list tok) <$> gs))).
    rewrite mjoin_nils. by apply fresh_Inv.
Qed.

(** The invariant, and growth since any earlier state. *)
Lemma reachable_Inv fuel gs s c :
  fresh_connection s → pool_steps (pool_of fuel gs s) c → ∃ L, Inv c.2 L.
Proof.
  intros Hs Hc. destruct (pool_ok_steps Inv Grows Inv_proper ended _ c (pool_of_ok fuel gs s Hs) Hc).
  by eapply pool_ok_inv.
Qed.

Lemma reachable_Grows fuel gs s c1 c2 :
  fresh_connection s → pool_steps (pool_of fuel gs s) c1 → pool_steps c1 c2 → Grows c1.2 c2.2.
Proof.
  intros Hs H1 H2.
  destruct (pool_ok_steps Inv Grows Inv_proper ended _ c1 (pool_of_ok fuel gs s Hs) H1) as [Hok _].
  by destruct (pool_ok_steps Inv Grows Inv_proper ended _ c2 Hok H2).
Qed.

(** C13. The operation counters never go wrong: whatever goroutines run, in
    every reachable state no channel was closed twice, the handler count is
    between zero and the operation count, every queued frame counts as one
    running operation, and the done channel is closed exactly when no
    operation is running. *)
Theorem operations_counted fuel gs s c
    (Hs : fresh_connection s) (Hc : pool_steps (pool_of fuel gs s) c) :
  let o := c_ops c.2 in
  panicked o = false ∧ 0 ≤ activeHandlers o ≤ activeOps o
  ∧ zlen (c_sendQueue c.2) + activeHandlers o ≤ activeOps o
  ∧ (opsDone o ∈ closedChans o ↔ activeOps o = 0).
Proof.
  destruct (reachable_Inv fuel gs s c Hs Hc) as (L & HI). cbn.
  destruct (inv_ops _ _ HI) as (Hp & Hh & Hn & Hle & _ & _ & Hdone).
  pose proof (handlers_le_opcount L). rewrite Hn, Hh. split_and!; try done; lia.
Qed.

(** C7. The outbound queue is bounded and ordered: it never holds more frames
    than its capacity, and the frames written to the socket are always a
    prefix of the accepted frames in the order they were accepted (nothing
    is lost in between, duplicated or reordered). *)
Theorem frames_written_in_order fuel gs s c
    (Hs : fresh_connection s) (Hc : pool_steps (pool_of fuel gs s) c) :
  zlen (c_sendQueue c.2) ≤ c_queueCap c.2 ∧ written c.2 `prefix_of` c_accepted c.2.
Proof.
  destruct (reachable_Inv fuel gs s c Hs Hc) as (L & HI).
  split; [apply HI|]. pose proof (inv_writer _ _ HI) as Hw.
  destruct (collect is_writer L) as [|w [|]]; try done.
  destruct w; cbn in Hw; try done; try (by destruct Hw);
    destruct Hw as [_ Hacc]; rewrite Hacc; by apply prefix_app_r.
Qed.

(** C27. Buffer ownership: in every reachable state the arrays behind the
    queued frames are pairwise different and none of them is in the pool, so
    no sender can be given an array that still waits to be written. *)
Theorem queued_buffers_owned fuel gs s c
    (Hs : fresh_connection s) (Hc : pool_steps (pool_of fuel gs s) c) :
  NoDup (fb_id <$> c_sendQueue c.2)
  ∧ ∀ b, b ∈ c_sendQueue c.2 → fb_id b ∉ sp_free (c_pool c.2).
Proof.
  destruct (reachable_Inv fuel gs s c Hs Hc) as (L & HI).
  destruct (inv_bufs _ _ HI) as (Hnd & Hout & _). split.
  - by apply NoDup_app in Hnd as (_ & _ & ?).
  - intros b Hb. apply Hout. apply elem_of_app. right. by apply list_elem_of_fmap_2.
Qed.

(** Without running operations the writer is idle or has given up. *)
Lemma writer_idle_op L (HL : opcount L = 0) (s : state) :
  writers_ok s (collect is_writer L) → writer_ok s WIdle ∨ writer_ok s WBroken.
Proof.
  assert (H : ∀ w, TWriter w ∈ L → w = WIdle ∨ w = WBroken).
  { clear -HL. induction L as [|a L IH]; [set_solver|]. intros w.
    change (a :: L) with ([a] ++ L) in HL. rewrite opcount_app in HL.
    pose proof (zlen_nonneg (collect is_op L)) as Hl. fold (opcount L) in Hl.
    pose proof (zlen_nonneg (collect is_op [a])) as Ha. fold (opcount [a]) in Ha.
    rewrite elem_of_cons. intros [Heq|Hin]; [subst a|apply IH; [lia|done]].
    destruct w; try tauto; cbn in *; unfold opcount, zlen in HL; cbn in HL; lia. }
  assert (Hin : ∀ w, w ∈ collect is_writer L → TWriter w ∈ L).
  { clear. induction L as [|a L IH]; cbn; [set_solver|]. intros w.
    rewrite elem_of_app. intros [Hw|Hw]; [|set_solver].
    destruct a; cbn in Hw; set_solver. }
  destruct (collect is_writer L) as [|w [|]]; try done. cbn. intros Hw.
  destruct (H w) as [->| ->]; [apply Hin; set_solver|by left|by right].
Qed.

(** C3. Draining is complete and final: once a connection is draining and its
    done channel is closed, no operation is running and the queue is empty,
    and in every later state that is still so and no further frame has been
    accepted; as long as the connection was not cancelled, every frame ever
    accepted has been written. *)
Theorem drained_is_final fuel gs s c1 c2
    (Hs : fresh_connection s) (H1 : pool_steps (pool_of fuel gs s) c1)
    (Hdrain : draining (c_ops c1.2) = true)
    (Hdone : opsDone (c_ops c1.2) ∈ closedChans (c_ops c1.2))
    (H2 : pool_steps c1 c2) :
  draining (c_ops c2.2) = true ∧ opsDone (c_ops c2.2) = opsDone (c_ops c1.2)
  ∧ opsDone (c_ops c2.2) ∈ closedChans (c_ops c2.2)
  ∧ activeOps (c_ops c2.2) = 0 ∧ c_sendQueue c2.2 = []
  ∧ c_accepted c2.2 = c_accepted c1.2
  ∧ (c_ctx c2.2 = None → written c2.2 = c_accepted c2.2).
Proof.
  pose proof (reachable_Grows fuel gs s c1 c2 Hs H1 H2) as G.
  destruct (reachable_Inv fuel gs s c1 Hs H1) as (L1 & I1).
  destruct (reachable_Inv fuel gs s c2 Hs ltac:(by etransitivity)) as (L2 & I2).
  destruct (inv_ops _ _ I1) as (_ & _ & Hn1 & _ & _ & _ & Hd1).
  apply Hd1 in Hdone as Hz. rewrite Hz in Hn1.
  destruct (grows_quiet _ _ G Hdrain Hn1) as [Hn2 Hacc].
  destruct (grows_draining _ _ G Hdrain) as [Hdr2 Hch2].
  destruct (inv_ops _ _ I2) as (_ & _ & Hn2' & _ & _ & _ & Hd2).
  pose proof (zlen_nonneg (c_sendQueue c2.2)). pose proof (zlen_nonneg (collect is_op L2)) as Hop.
  fold (opcount L2) in Hop.
  assert (Hq : c_sendQueue c2.2 = []).
  { destruct (c_sendQueue c2.2); [done|]. unfold zlen in *. cbn in *. lia. }
  split_and!; try done.
  - apply Hd2. lia.
  - intros Hctx. pose proof (inv_writer _ _ I2) as Hw.
    assert (Hzero : opcount L2 = 0) by lia.
    destruct (writer_idle_op L2 Hzero (c2.2) Hw) as [Hw'|Hw'].
    + destruct Hw' as [_ Hacc']. rewrite Hacc'. unfold queued. rewrite Hq. cbn. by rewrite app_nil_r.
    + by destruct Hw'.
Qed.

(** C28. The capacity of the queue, the protocol and a cancellation are
    permanent, and after the writer closed the queue no frame is accepted. *)
Theorem closed_queue_accepts_nothing fuel gs s c1 c2
    (Hs : fresh_connection s) (H1 : pool_steps (pool_of fuel gs s) c1)
    (Hclosed : c_sendClosed c1.2 = true) (H2 : pool_steps c1 c2) :
  c_sendClosed c2.2 = true ∧ c_accepted c2.2 = c_accepted c1.2
  ∧ (c_sendMu c2.2 = false → c_sendQueue c2.2 = []).
Proof.
  pose proof (reachable_Grows fuel gs s c1 c2 Hs H1 H2) as G.
  destruct (reachable_Inv fuel gs s c2 Hs ltac:(by etransitivity)) as (L2 & I2).
  destruct (grows_sendClosed _ _ G Hclosed) as [Hcl ?]. split_and!; try done.
  intros Hmu. pose proof (inv_mu _ _ I2) as Hm.
  destruct (collect is_mu L2) as [|[] []]; cbn in Hm; rewrite ?Hmu in Hm; naive_solver.
Qed.
End props.

(** ** Witnesses *)

Lemma sample_fresh : fresh_connection sample_connection.
Proof. do 6 eexists. split; [reflexivity|]. split; [lia|]. cbn. set_solver. Qed.

Lemma sample_queued_reachable : pool_steps sample_pool sample_queued.
Proof. apply run_to_steps. Qed.

Lemma sample_drained_reachable : pool_steps sample_queued sample_drained.
Proof. apply run_to_steps. Qed.

Lemma sample_closed_reachable : pool_steps sample_pool sample_closed.
Proof. apply run_to_steps. Qed.

Lemma sample_to_drained : pool_steps sample_pool sample_drained.
Proof. etransitivity; [apply sample_queued_reachable|apply sample_drained_reachable]. Qed.

Lemma operations_counted_witness :
  activeOps (c_ops sample_queued.2) = 1
  ∧ (let o := c_ops sample_queued.2 in
     panicked o = false ∧ 0 ≤ activeHandlers o ≤ activeOps o
     ∧ zlen (c_sendQueue sample_queued.2) + activeHandlers o ≤ activeOps o
     ∧ (opsDone o ∈ closedChans o ↔ activeOps o = 0)).
Proof.
  split; [by vm_compute|].
  exact (operations_counted _ _ _ _ sample_fresh sample_queued_reachable).
Defined.

Lemma frames_written_in_order_witness :
  zlen (written sample_drained.2) = 1
  ∧ zlen (c_sendQueue sample_drained.2) ≤ c_queueCap sample_drained.2
  ∧ written sample_drained.2 `prefix_of` c_accepted sample_drained.2.
Proof.
  split; [by vm_compute|].
  exact (frames_written_in_order _ _ _ _ sample_fresh sample_to_drained).
Defined.

Lemma queued_buffers_owned_witness :
  zlen (c_sendQueue sample_queued.2) = 1
  ∧ NoDup (fb_id <$> c_sendQueue sample_queued.2)
  ∧ ∀ b, b ∈ c_sendQueue sample_queued.2 → fb_id b ∉ sp_free (c_pool sample_queued.2).
Proof.
  split; [by vm_compute|].
  exact (queued_buffers_owned _ _ _ _ sample_fresh sample_queued_reachable).
Defined.

Lemma drained_is_final_witness :
  zlen (written sample_drained.2) = 1 ∧ written sample_drained.2 = c_accepted sample_drained.2.
Proof.
  split; [by vm_compute|].
  assert (Hdone : opsDone (c_ops sample_drained.2) ∈ closedChans (c_ops sample_drained.2)).
  { refine (bool_decide_unpack (_ ∈ closedChans (c_ops sample_drained.2)) _). vm_compute. exact I. }
  apply (drained_is_final _ _ _ _ sample_drained sample_fresh sample_to_drained);
    [by vm_compute|exact Hdone|apply rtc_refl|by vm_compute].
Defined.

Lemma closed_queue_accepts_nothing_witness :
  c_sendClosed sample_closed.2 = true
  ∧ c_accepted sample_closed.2 = c_accepted sample_closed.2
  ∧ (c_sendMu sample_closed.2 = false → c_sendQueue sample_closed.2 = []).
Proof.
  apply (closed_queue_accepts_nothing _ _ _ _ sample_closed sample_fresh sample_closed_reachable);
    [by vm_compute|apply rtc_refl].
Defined.
