(* ===== verification/ConnectionSpec.v ===== *)
(** * What one send does, on every branch

    The senders run alone from any state whose queue mutex is free: they never
    block, and [send_outcome] lists their results, with the frame they queue
    given by the reference encoders of Framing.v. *)

From Stdlib Require Import Ascii String.
From S2P Require Import Prelude GoStd Errors Protocol Framing Samples Proc.
From S2P Require Import Connection ConnectionInv ConnectionProps.

Local Open Scope Z_scope.
Local Open Scope go_scope.

Section spec.
Context {V P : Type} `{!ExternalCodecs V} `{!SlicePool P}.

Local Abbreviation state := (cstate V P).
Local Abbreviation M := (proc (cstate V P)).

Implicit Types s : state.

(** Equal but for the buffer pool, the allocator and the size hint. *)
Record aux s s' : Prop := {
  aux_protocol : c_protocol s' = c_protocol s;
  aux_ws : c_ws s' = c_ws s;
  aux_ctx : c_ctx s' = c_ctx s;
  aux_hasCancel : c_hasCancel s' = c_hasCancel s;
  aux_queue : c_sendQueue s' = c_sendQueue s;
  aux_cap : c_queueCap s' = c_queueCap s;
  aux_mu : c_sendMu s' = c_sendMu s;
  aux_closed : c_sendClosed s' = c_sendClosed s;
  aux_ops : c_ops s' = c_ops s;
  aux_others : c_others s' = c_others s;
  aux_accepted : c_accepted s' = c_accepted s;
}.

#[export] Instance aux_PreOrder : PreOrder aux.
Proof.
  split; [by constructor|]. intros s1 s2 s3 [] []. constructor; congruence.
Qed.

(** What a failed send leaves as it was. *)
Record unsent s s' : Prop := {
  un_queue : c_sendQueue s' = c_sendQueue s;
  un_accepted : c_accepted s' = c_accepted s;
  un_closed : c_sendClosed s' = c_sendClosed s;
  un_mu : c_sendMu s' = false;
  un_ops : activeOps (c_ops s') = activeOps (c_ops s)
         ∧ activeHandlers (c_ops s') = activeHandlers (c_ops s)
         ∧ draining (c_ops s') = draining (c_ops s);
  un_written : written s' = written s;
}.

(** Neither context is done. *)
Definition live (ctx : context) s : Prop := ctx_Err ctx s = None ∧ c_ctx s = None.

Definition room s : Prop := zlen (c_sendQueue s) < c_queueCap s.

(** Queuing one frame, or failing to. *)
Inductive enqueue_outcome s (ctx : context) (f : list byte) : option error → state → Prop :=
| enq_done e s' :
    ctx_Err ctx s = Some e ∨ c_ctx s = Some e →
    aux s s' → enqueue_outcome s ctx f (Some e) s'
| enq_closed s' :
    live ctx s → c_sendClosed s = true →
    aux s s' → enqueue_outcome s ctx f (Some (ErrHandlerShuttingDown : error)) s'
| enq_full s' :
    live ctx s → c_sendClosed s = false → ¬ room s →
    unsent s s' → c_ops s' = c_ops s →
    (c_hasCancel s = true → c_ctx s' = Some (Canceled : error)) →
    (∀ w, c_ws s' = Some w → ws_closed w = true) →
    enqueue_outcome s ctx f (Some (ErrSlowConsumer : error)) s'
| enq_queued b s' :
    live ctx s → c_sendClosed s = false → room s →
    fb_data b = f →
    c_sendQueue s' = c_sendQueue s ++ [b] → c_accepted s' = c_accepted s ++ [f] →
    c_ops s' = c_ops s → c_sendMu s' = false → c_ctx s' = None → written s' = written s →
    enqueue_outcome s ctx f None s'.

Definition admitted s : Prop := draining (c_ops s) = false ∨ activeHandlers (c_ops s) ≠ 0.

(** The result of one of the senders; [o] is the frame or the error of the
    reference encoder. *)
Inductive send_outcome s (ctx : context) (o : result error (list byte))
    : option error → state → Prop :=
| out_shutdown :
    ¬ admitted s → send_outcome s ctx o (Some (ErrHandlerShuttingDown : error)) s
| out_invalid e s' :
    admitted s → o = Err e → unsent s s' → c_ctx s' = c_ctx s →
    send_outcome s ctx o (Some e) s'
| out_done f e s' :
    admitted s → o = Ok f → ctx_Err ctx s = Some e ∨ c_ctx s = Some e →
    unsent s s' → c_ctx s' = c_ctx s → send_outcome s ctx o (Some e) s'
| out_closed f s' :
    admitted s → o = Ok f → live ctx s → c_sendClosed s = true →
    unsent s s' → c_ctx s' = c_ctx s →
    send_outcome s ctx o (Some (ErrHandlerShuttingDown : error)) s'
| out_full f s' :
    admitted s → o = Ok f → live ctx s → c_sendClosed s = false → ¬ room s →
    unsent s s' → (c_hasCancel s = true → c_ctx s' = Some (Canceled : error)) →
    (∀ w, c_ws s' = Some w → ws_closed w = true) →
    send_outcome s ctx o (Some (ErrSlowConsumer : error)) s'
| out_queued f s' :
    admitted s → o = Ok f → live ctx s → c_sendClosed s = false → room s →
    queued s' = queued s ++ [f] → c_accepted s' = c_accepted s ++ [f] →
    activeOps (c_ops s') = activeOps (c_ops s) + 1 →
    c_sendMu s' = false → c_ctx s' = None → written s' = written s →
    send_outcome s ctx o None s'.

(** ** Buffers *)

Lemma twp_get size (Q : frameBuf → state → Prop) s :
  (∀ b s', fb_data b = [] → aux s s' → Q b s') → twp (getFrameBuffer size) Q s.
Proof.
  intros HQ. apply twp_bind, twp_atomically. destruct (sp_Get _ _ _) as [[b p] n]; cbn [fst snd].
  destruct (_ <? _).
  - apply twp_atomically. by apply HQ.
  - by apply HQ.
Qed.

Lemma twp_append_to b out (Q : frameBuf → state → Prop) s :
  (∀ b' s', fb_data b' = out → aux s s' → Q b' s') → twp (append_to b out) Q s.
Proof.
  intros HQ. unfold append_to. destruct (fits _ _).
  - by apply HQ.
  - apply twp_atomically. by apply HQ.
Qed.

Lemma twp_put b (Q : unit → state → Prop) s :
  (∀ s', aux s s' → Q tt s') → twp (putFrameBuffer b) Q s.
Proof. intros HQ. apply twp_modify. by apply HQ. Qed.

(** ** Queuing *)

Lemma twp_select_done ctx (Q : enqueue_case → state → Prop) s :
  (∀ e, ctx_Err ctx s = Some e → Q CaseCtxDone s) →
  (∀ e, c_ctx s = Some e → Q CaseConnDone s) →
  (live ctx s → Q CaseDefault s) →
  twp (select_done ctx) Q s.
Proof.
  intros H1 H2 H3. cbn. unfold live in *.
  destruct (ctx_Err ctx s) as [e1|], (c_ctx s) as [e2|]; cbn; (split; [done|]);
    intros x s' Hin; rewrite ?list_elem_of_singleton, ?elem_of_cons, ?elem_of_nil in Hin;
    naive_solver.
Qed.

Lemma twp_closeNow (Q : option error → state → Prop) s :
  (∀ r s', aux (set_ws (c_ws s') s) s' → written s' = written s →
     (∀ w, c_ws s' = Some w → ws_closed w = true) → Q r s') →
  twp (closeNow theConn) Q s.
Proof.
  intros HQ. cbn. unfold ws_close. destruct (c_ws s) as [w|] eqn:E; (split; [done|]);
    intros x s' Hin; rewrite ?list_elem_of_singleton, ?elem_of_cons, ?elem_of_nil in Hin.
  - assert (s' = set_ws (Some {| ws_written := ws_written w; ws_closed := true |}) s) as ->
      by naive_solver.
    apply HQ; [by constructor|unfold written; by rewrite E|naive_solver].
  - injection Hin as -> ->. apply HQ; [|done|congruence].
    constructor; cbn; by rewrite ?E.
Qed.

Lemma twp_closeContext (Q : unit → state → Prop) s :
  (∀ s', aux (set_ctx (c_ctx s') s) s' → (c_hasCancel s = true → c_ctx s = None →
      c_ctx s' = Some (Canceled : error)) → Q tt s') →
  twp (closeContext theConn) Q s.
Proof.
  intros HQ. apply twp_modify. apply HQ.
  - destruct (c_hasCancel s) eqn:E; cbn; [destruct (c_ctx s) eqn:Ec|];
      constructor; cbn; by rewrite ?E, ?Ec.
  - intros -> ->. done.
Qed.

Lemma twp_disconnect (Q : unit → state → Prop) s :
  (∀ s', c_ctx s = None → c_sendMu s = false → unsent s s' → c_ops s' = c_ops s →
     (c_hasCancel s = true → c_ctx s' = Some (Canceled : error)) →
     (∀ w, c_ws s' = Some w → ws_closed w = true) → Q tt s') →
  c_ctx s = None → c_sendMu s = false →
  twp (disconnectSlowConsumer theConn) Q s.
Proof.
  intros HQ Hctx Hmu. apply twp_bind, twp_reads.
  assert (H : twp (closeContext theConn ;;; _ <- closeNow theConn ;;; mret tt) Q s).
  { apply twp_bind, twp_closeContext. intros s1 A1 C1.
    apply twp_bind, twp_closeNow. intros _ s2 A2 W2 C2.
    destruct A1, A2; cbn in *. apply HQ; try done.
    - constructor; try congruence; [split_and!; congruence|].
      rewrite W2. unfold written. by rewrite aux_ws0.
    - congruence.
    - intros Hc. specialize (C1 Hc Hctx). congruence. }
  by destruct (_ =? _).
Qed.

Lemma twp_lock_sendMu (Q : unit → state → Prop) s :
  c_sendMu s = false → Q tt (set_sendMu true s) → twp lock_sendMu Q s.
Proof.
  intros Hmu HQ. cbn. rewrite Hmu. split; [done|].
  by intros [] s' [= ->]%list_elem_of_singleton.
Qed.

Lemma twp_select_push frame (Q : enqueue_case → state → Prop) s :
  c_ctx s = None →
  (room s → Q CaseQueued (push frame s)) → (¬ room s → Q CaseDefault s) →
  twp (select_push frame) Q s.
Proof.
  intros Hc H1 H2. unfold room in *. cbn. rewrite Hc.
  destruct (Z.ltb_spec (zlen (c_sendQueue s)) (c_queueCap s)) as [Hroom|Hroom]; cbn;
    (split; [done|]); intros r s' [= -> ->]%list_elem_of_singleton; [by apply H1|apply H2; lia].
Qed.

Lemma ctx_Err_nil ctx s :
  ctx_Err (match ctx with CtxNil => CtxBackground | _ => ctx end) s = ctx_Err ctx s.
Proof. by destruct ctx. Qed.

Lemma twp_enqueueFrame ctx frame (Q : option error → state → Prop) s :
  c_sendMu s = false →
  (∀ r s', enqueue_outcome s ctx (fb_data frame) r s' → Q r s') →
  twp (enqueueFrame theConn ctx frame) Q s.
Proof.
  intros Hmu HQ. unfold enqueueFrame. set (ctx' := match ctx with CtxNil => _ | _ => _ end).
  assert (Ectx : ∀ s', ctx_Err ctx' s' = ctx_Err ctx s') by (intros; apply ctx_Err_nil).
  apply twp_bind, twp_select_done.
  - intros e He. apply twp_bind, twp_put. intros s' A. apply twp_reads.
    assert (ctx_Err ctx' s' = Some e) as ->.
    { rewrite <- He. destruct A, ctx'; cbn; congruence. }
    apply HQ. apply enq_done; [|done]. rewrite <- Ectx. tauto.
  - intros e He. apply twp_bind, twp_put. intros s' A. apply twp_reads.
    rewrite (aux_ctx _ _ A), He. apply HQ. apply enq_done; [tauto|done].
  - intros [He Hc]. rewrite Ectx in He. assert (Hlive : live ctx s) by done.
    apply twp_bind, twp_lock_sendMu; [done|].
    apply twp_bind, twp_reads. cbn [c_sendClosed set_sendMu].
    destruct (c_sendClosed s) eqn:Hcl.
    + apply twp_bind, twp_modify, twp_bind, twp_put. intros s' A.
      apply twp_bind, twp_reads. rewrite (aux_ctx _ _ A). cbn [c_ctx set_sendMu]. rewrite Hc.
      apply HQ. apply enq_closed; [done..|]. destruct A; constructor; cbn in *; congruence.
    + apply twp_bind, twp_select_push; [done|intros Hroom..].
      * apply twp_bind, twp_modify. apply HQ.
        by apply (enq_queued s ctx (fb_data frame) frame).
      * apply twp_bind, twp_modify, twp_bind, twp_put. intros s1 A.
        destruct A; cbn in * |-.
        apply twp_bind, twp_disconnect; [|congruence..]. intros s' _ _ U Ho Hcan Hws.
        apply HQ. apply enq_full; [done..|  |congruence| |done].
        -- destruct U. constructor; try congruence.
           rewrite un_written0. unfold written. by rewrite aux_ws0.
        -- intros. apply Hcan. congruence.
Qed.

Lemma twp_enqueuePrepared ctx kind m i frame (Q : option error → state → Prop) s :
  c_sendMu s = false →
  match sealFrame (c_protocol s) kind m i (fb_data frame) with
  | Err e => ∀ s', aux s s' → Q (Some e) s'
  | Ok f => ∀ r s', enqueue_outcome s ctx f r s' → Q r s'
  end →
  twp (enqueuePreparedProtocolFrame theConn ctx kind m i frame) Q s.
Proof.
  intros Hmu HQ. apply twp_bind, twp_reads.
  destruct (sealFrame _ _ _ _ _) as [f|e].
  - by apply twp_enqueueFrame.
  - apply twp_bind, twp_put. intros s' A. by apply HQ.
Qed.

(** The frame of a reference encoder, or its error, decides what is queued. *)
Definition write_post (o : result error (list byte)) ctx s (Q : option error → state → Prop) : Prop :=
  match o with
  | Err e => ∀ s', aux s s' → Q (Some e) s'
  | Ok f => ∀ s1 r s', aux s s1 → enqueue_outcome s1 ctx f r s' → Q r s'
  end.

Lemma twp_writeRaw ctx kind m i payload (Q : option error → state → Prop) s :
  c_sendMu s = false →
  write_post (rawFrameBytes (c_protocol s) kind m i payload) ctx s Q →
  twp (writeRawProtocolFrame theConn ctx kind m i payload) Q s.
Proof.
  intros Hmu. unfold writeRawProtocolFrame, rawFrameBytes.
  destruct (validateProtocolFrame _ _ _) as [e|]; cbn [check_err]; [intros HQ; by apply HQ|].
  intros HQ. apply twp_bind, twp_reads.
  destruct (pc_ensurePayloadSize _ _) as [e|]; cbn [check_err] in HQ; [by apply HQ|].
  apply twp_bind, twp_get. intros b0 s0 E0 A0.
  apply twp_bind, twp_append_to. intros b1 s1 E1 A1.
  apply twp_bind, twp_append_to. intros b2 s2 E2 A2.
  apply twp_bind, twp_append_to. intros b3 s3 E3 A3.
  apply twp_bind, twp_append_to. intros b4 s4 E4 A4.
  assert (A : aux s s4) by (do 4 (etransitivity; [eassumption|]); done).
  rewrite E3, E2, E1, E0 in E4.
  apply twp_enqueuePrepared; [by rewrite (aux_mu _ _ A)|].
  rewrite (aux_protocol _ _ A), E4. unfold framePrefix in HQ. cbn [app] in *.
  destruct (sealFrame _ _ _ _ _) as [f|e]; cbn in HQ.
  - intros r s'. by apply HQ.
  - intros s' A'. apply HQ. by etransitivity.
Qed.

Lemma twp_writeEncoded ctx kind m i body (Q : option error → state → Prop) s :
  c_sendMu s = false →
  write_post (encodedFrameBytes (c_protocol s) kind m i body) ctx s Q →
  twp (writeEncodedProtocolFrame theConn ctx kind m i body) Q s.
Proof.
  intros Hmu. unfold writeEncodedProtocolFrame, encodedFrameBytes.
  destruct (validateProtocolFrame _ _ _) as [e|]; cbn [check_err]; [intros HQ; by apply HQ|].
  intros HQ. apply twp_bind, twp_reads.
  apply twp_bind, twp_get. intros b0 s0 E0 A0.
  apply twp_bind, twp_append_to. intros b1 s1 E1 A1.
  apply twp_bind, twp_append_to. intros b2 s2 E2 A2.
  apply twp_bind, twp_append_to. intros b3 s3 E3 A3.
  assert (A : aux s s3) by (do 3 (etransitivity; [eassumption|]); done).
  rewrite E2, E1, E0 in E3. cbn [app] in E3. fold (framePrefix m i) in E3.
  apply twp_bind, twp_reads. rewrite (aux_protocol _ _ A), E3.
  destruct (pc_marshalAppend _ _ _) as [data err].
  apply twp_bind, twp_append_to. intros b4 s4 E4 A4.
  assert (Hput : ∀ (Q' : unit → state → Prop), (∀ s5, aux s s5 → Q' tt s5) →
    twp (if negb (sameFrameBuffer b3 b4) then putFrameBuffer b3 else mret tt) Q' s4).
  { intros Q' HQ'. destruct (negb _); [apply twp_put; intros s5 A5|]; apply HQ'.
    - by do 2 (etransitivity; [eassumption|]).
    - by etransitivity. }
  apply twp_bind, Hput. intros s5 A5. destruct err as [e|]; cbn [check_err] in HQ.
  { apply twp_bind, twp_put. intros s6 A6. apply HQ. by etransitivity. }
  rewrite E4. destruct (pc_ensurePayloadSize _ _) as [e|]; cbn [check_err] in HQ.
  { apply twp_bind, twp_put. intros s6 A6. apply HQ. by etransitivity. }
  apply twp_bind, twp_modify.
  set (s6 := set_encodedPayloadHint _ s5). assert (A6 : aux s s6) by (etransitivity; [done|]; done).
  apply twp_enqueuePrepared; [by rewrite (aux_mu _ _ A6)|].
  rewrite (aux_protocol _ _ A6), E4.
  destruct (sealFrame _ _ _ _ _) as [f|e]; cbn in HQ.
  - intros r s'. by apply HQ.
  - intros s' A'. apply HQ. by etransitivity.
Qed.
(** ** The senders *)

Lemma begin_end_ops o :
  0 ≤ activeOps o →
  activeOps (endOperationLocked (beginOperationLocked o)) = activeOps o
  ∧ activeHandlers (endOperationLocked (beginOperationLocked o)) = activeHandlers o
  ∧ draining (endOperationLocked (beginOperationLocked o)) = draining o.
Proof.
  intros Hn. unfold endOperationLocked, beginOperationLocked.
  destruct (activeOps o =? 0); cbn; destruct (Z.eqb_spec (activeOps o + 1) 0); cbn;
    split_and!; try done; lia.
Qed.

Lemma beginOperation_count o : activeOps (beginOperationLocked o) = activeOps o + 1.
Proof. unfold beginOperationLocked. by destruct (_ =? _). Qed.

(** A begun operation that is given back. *)
Lemma unsent_ended s s1 s2 :
  0 ≤ activeOps (c_ops s) → c_sendMu s = false →
  aux (set_ops (beginOperationLocked (c_ops s)) s) s1 →
  c_ops s2 = c_ops s1 → unsent s1 s2 →
  unsent s (set_ops (endOperationLocked (c_ops s2)) s2).
Proof.
  intros Hn Hmu [] Ho []. cbn in *. rewrite Ho, aux_ops0. constructor; cbn; try congruence.
  - by apply begin_end_ops.
  - change (written s2 = written s). rewrite un_written0. unfold written. by rewrite aux_ws0.
Qed.

Lemma aux_unsent s s' : c_sendMu s = false → aux s s' → unsent s s'.
Proof.
  intros Hmu []. constructor; try congruence; [by rewrite aux_ops0|].
  unfold written. by rewrite aux_ws0.
Qed.

Lemma aux_live s s' ctx : aux s s' → live ctx s' → live ctx s.
Proof. intros [] [H1 H2]. split; [destruct ctx; cbn in *|]; congruence. Qed.

Lemma aux_ctx_Err s s' ctx : aux s s' → ctx_Err ctx s' = ctx_Err ctx s.
Proof. intros []. destruct ctx; cbn; congruence. Qed.

Lemma aux_room s s' : aux s s' → room s' ↔ room s.
Proof. intros []. unfold room. by rewrite aux_queue0, aux_cap0. Qed.

Lemma not_admitted s :
  (draining (c_ops s) && (activeHandlers (c_ops s) =? 0)) = true ↔ ¬ admitted s.
Proof.
  unfold admitted. destruct (draining _), (Z.eqb_spec (activeHandlers (c_ops s)) 0); cbn; naive_solver.
Qed.

Lemma twp_end (Q : unit → state → Prop) s :
  Q tt (set_ops (endOperationLocked (c_ops s)) s) → twp (endOperation theConn) Q s.
Proof. intros HQ. by apply twp_atomically. Qed.

Lemma twp_sendOperation write ctx (o : result error (list byte)) s :
  c_sendMu s = false → c_ws s ≠ None → c_protocol s ≠ None → 0 ≤ activeOps (c_ops s) →
  (∀ s1 Q, aux (set_ops (beginOperationLocked (c_ops s)) s) s1 →
     write_post o ctx s1 Q → twp write Q s1) →
  twp (sendOperation theConn write) (send_outcome s ctx o) s.
Proof.
  intros Hmu Hws Hp Hn Hw. unfold sendOperation.
  apply twp_bind, twp_reads, twp_bind, twp_reads.
  destruct (c_ws s) as [w|] eqn:Ews; [|done]. destruct (c_protocol s) as [p|] eqn:Ep; [|done].
  apply twp_bind, twp_atomically. unfold beginSendOperation_ops.
  destruct (_ && _) eqn:Ead; cbn [fst snd negb].
  { apply not_admitted in Ead. replace (set_ops (c_ops s) s) with s by (by destruct s).
    by apply out_shutdown. }
  assert (Had : admitted s).
  { unfold admitted. destruct (draining _), (Z.eqb_spec (activeHandlers (c_ops s)) 0);
      cbn in Ead; naive_solver. }
  set (s0 := set_ops _ s). apply twp_bind, Hw; [done|].
  destruct o as [f|e]; cbn [write_post].
  - intros s1 r s2 A Henq.
    assert (Hmu1 : c_sendMu s1 = false) by (by rewrite (aux_mu _ _ A)).
    assert (Hlive : live ctx s1 → live ctx s).
    { intros [? ?]%(aux_live s0 s1 ctx A). by destruct ctx. }
    pose proof (aux_room s0 s1 A) as Hroom.
    pose proof (aux_closed _ _ A) as Hcl. pose proof (aux_ctx _ _ A) as Hctx.
    assert (HU : ∀ s2, aux s1 s2 → unsent s (set_ops (endOperationLocked (c_ops s2)) s2)).
    { intros s3 A3. apply (unsent_ended s s1); [done..|apply A3|by apply aux_unsent]. }
    destruct Henq as [e s2 He A2|s2 Hl Hc A2|s2 Hl Hc Hf U Ho Hcan Hwc|b s2 Hl Hc Hr <- Hq Ha Ho Hm Hcx Hwr].
    + apply twp_bind, twp_end. apply (out_done _ _ _ f); auto.
      * rewrite (aux_ctx_Err _ _ ctx A), Hctx in He. by destruct ctx.
      * cbn. by rewrite (aux_ctx _ _ A2).
    + apply twp_bind, twp_end. apply (out_closed _ _ _ f); auto.
      * cbn in *. congruence.
      * cbn. by rewrite (aux_ctx _ _ A2).
    + apply twp_bind, twp_end. apply (out_full _ _ _ f); auto.
      * cbn in *. congruence.
      * by rewrite Hroom in Hf.
      * by apply (unsent_ended s s1).
      * intros Hcn. apply Hcan. by rewrite (aux_hasCancel _ _ A).
    + apply (out_queued _ _ _ (fb_data b)); auto.
      * cbn in *. congruence.
      * by apply Hroom.
      * unfold queued. rewrite Hq, fmap_app. by rewrite (aux_queue _ _ A).
      * by rewrite Ha, (aux_accepted _ _ A).
      * rewrite Ho, (aux_ops _ _ A). apply beginOperation_count.
      * rewrite Hwr. unfold written. by rewrite (aux_ws _ _ A).
  - intros s1 A. apply twp_bind, twp_end. apply out_invalid; [done..| |cbn; by rewrite (aux_ctx _ _ A)].
    apply (unsent_ended s s1); [done..|]. apply aux_unsent; [|done]. by rewrite (aux_mu _ _ A).
Qed.

(** A connection a sender can use: a websocket, a codec, nobody in the
    critical section of the queue. *)
Record sendable s : Prop := {
  sendable_mu : c_sendMu s = false;
  sendable_ws : c_ws s ≠ None;
  sendable_protocol : c_protocol s ≠ None;
  sendable_ops : 0 ≤ activeOps (c_ops s);
}.

Lemma twp_sendRaw ctx kind m i payload s :
  sendable s →
  twp (sendOperation theConn (writeRawProtocolFrame theConn ctx kind m i payload))
    (send_outcome s ctx (rawFrameBytes (c_protocol s) kind m i payload)) s.
Proof.
  intros []. apply twp_sendOperation; [done..|]. intros s1 Q A HQ.
  apply twp_writeRaw; [by rewrite (aux_mu _ _ A)|]. by rewrite (aux_protocol _ _ A).
Qed.

Lemma twp_sendEncoded ctx kind m i body s :
  sendable s →
  twp (sendOperation theConn (writeEncodedProtocolFrame theConn ctx kind m i body))
    (send_outcome s ctx (encodedFrameBytes (c_protocol s) kind m i body)) s.
Proof.
  intros []. apply twp_sendOperation; [done..|]. intros s1 Q A HQ.
  apply twp_writeEncoded; [by rewrite (aux_mu _ _ A)|]. by rewrite (aux_protocol _ _ A).
Qed.

(** C24. [Send] on every branch: run alone on a usable connection it never
    blocks, and it either queues exactly the frame the reference encoder
    builds (when the connection admits operations, both contexts are live,
    the queue is open and has room) or returns the error of the first check
    that fails and leaves queue, history, counters and socket output as they
    were; a full queue also cancels the connection and closes its socket. *)
Theorem Send_outcome s ctx m (body : option V) (Hs : sendable s) :
  twp (Send theConn ctx m body)
    (send_outcome s ctx (encodedFrameBytes (c_protocol s) FrameKindMessage m "" body)) s.
Proof. by apply twp_sendEncoded. Qed.

(** [Complete] does the same with a completion frame for the invocation. *)
Lemma Complete_outcome s ctx i (body : option V) (Hs : sendable s) :
  twp (Complete theConn ctx i body)
    (send_outcome s ctx (encodedFrameBytes (c_protocol s) FrameKindCompletion "" i body)) s.
Proof. by apply twp_sendEncoded. Qed.

(** The senders of raw payloads ([SendRaw], [CompleteError], [Ping],
    [Pong]) queue, on every branch where they queue, exactly the raw frame of
    their kind: the payload, the text of the error, or nothing; otherwise
    they return the first failing check's error and change nothing but what
    [send_outcome] lists. *)
Lemma raw_senders_outcome s ctx m i payload (err : option error) (Hs : sendable s) :
  let raw kind m i payload := send_outcome s ctx (rawFrameBytes (c_protocol s) kind m i payload) in
  twp (SendRaw theConn ctx m payload) (raw FrameKindMessage m "" payload) s
  ∧ twp (CompleteError theConn ctx i err)
      (raw FrameKindError "" i
        (bytes (default "signalg: invocation failed" (error_text <$> err)))) s
  ∧ twp (Ping theConn ctx) (raw FrameKindPing "" "" []) s
  ∧ twp (Pong theConn ctx) (raw FrameKindPong "" "" []) s.
Proof.
  cbn zeta. split_and!; try by apply twp_sendRaw.
  unfold CompleteError. destruct err; by apply twp_sendRaw.
Qed.
End spec.

(** ** Witnesses *)

Lemma sample_sendable : sendable sample_connection.
Proof. by split. Qed.

Lemma Send_outcome_witness :
  twp (Send theConn CtxBackground "m" (Some [x01]))
    (send_outcome sample_connection CtxBackground
       (encodedFrameBytes (Some sample_config) FrameKindMessage "m" "" (Some [x01])))
    sample_connection.
Proof. exact (Send_outcome _ _ _ _ sample_sendable). Defined.
