(* ===== verification/GoText.v ===== *)
(** * [strings.TrimSpace], [strings.HasPrefix] and [path.Clean]

    The text functions of the Go standard library the handler uses, on the
    bytes of a string, with the facts its normalisations rely on. *)

From Stdlib Require Import Ascii String.
From S2P Require Import Prelude GoStd.

Local Open Scope Z_scope.

(** ** Trimming *)

(** The code points [unicode.IsSpace] accepts. *)
Definition space_runes : list Z :=
  [0x09; 0x0A; 0x0B; 0x0C; 0x0D; 0x20; 0x85; 0xA0; 0x1680;
   0x2000; 0x2001; 0x2002; 0x2003; 0x2004; 0x2005; 0x2006; 0x2007; 0x2008; 0x2009; 0x200A;
   0x2028; 0x2029; 0x202F; 0x205F; 0x3000].

Definition spaces : list (list byte) := encode_rune <$> space_runes.

(** The first pattern that starts [s], removed. *)
Fixpoint strip (pats : list (list byte)) (s : list byte) : option (list byte) :=
  match pats with
  | [] => None
  | p :: pats => if bool_decide (p `prefix_of` s) then Some (drop (length p) s) else strip pats s
  end.

(** [fuel] rounds; the length of [s] is enough, since patterns are not empty. *)
Fixpoint trim (fuel : nat) (pats : list (list byte)) (s : list byte) : list byte :=
  match fuel with
  | O => s
  | S fuel =>
      match strip pats s with
      | Some s => trim fuel pats s
      | None => s
      end
  end.

Definition trim_left (pats : list (list byte)) (s : list byte) : list byte := trim (length s) pats s.

Definition trim_right (pats : list (list byte)) (s : list byte) : list byte :=
  reverse (trim_left (reverse <$> pats) (reverse s)).

Definition TrimSpace_bytes (s : list byte) : list byte := trim_right spaces (trim_left spaces s).

Definition TrimSpace (s : string) : string := str (TrimSpace_bytes (bytes s)).

Definition HasPrefix (s p : string) : bool := bool_decide (bytes p `prefix_of` bytes s).

(** ** Paths *)

Definition slash : byte := x2f.
Definition dot : byte := x2e.

(** The elements between slashes. *)
Fixpoint split_slash (s : list byte) : list (list byte) :=
  match s with
  | [] => [[]]
  | b :: s =>
      if Byte.eqb b slash then [] :: split_slash s
      else match split_slash s with
           | e :: es => (b :: e) :: es
           | [] => [[b]]
           end
  end.

Fixpoint join_slash (es : list (list byte)) : list byte :=
  match es with
  | [] => []
  | [e] => e
  | e :: es => e ++ slash :: join_slash es
  end.

(** The rules of [path.Clean] on the elements, [acc] being those kept so far,
    last first. *)
Definition clean_step (rooted : bool) (acc : list (list byte)) (e : list byte) : list (list byte) :=
  if bool_decide (e = []) || bool_decide (e = [dot]) then acc
  else if bool_decide (e = [dot; dot]) then
    match acc with
    | last :: rest => if bool_decide (last = [dot; dot]) then e :: acc else rest
    | [] => if rooted then [] else [e]
    end
  else e :: acc.

Definition clean_elems (rooted : bool) (es : list (list byte)) : list (list byte) :=
  reverse (fold_left (clean_step rooted) es []).

Definition path_Clean_bytes (p : list byte) : list byte :=
  let rooted := match p with b :: _ => Byte.eqb b slash | [] => false end in
  let out := (if rooted then [slash] else []) ++ join_slash (clean_elems rooted (split_slash p)) in
  match out with [] => [dot] | _ => out end.

Definition path_Clean (p : string) : string := str (path_Clean_bytes (bytes p)).

(** ** Facts about trimming *)

Lemma strip_some pats s t :
  strip pats s = Some t → ∃ p, p ∈ pats ∧ s = p ++ t.
Proof.
  induction pats as [|p pats IH]; cbn; [done|]. case_bool_decide as Hp.
  - intros [= <-]. destruct Hp as [k ->]. exists p. split; [set_solver|].
    by rewrite app_drop_length.
  - intros H. destruct (IH H) as (q & ? & ?). exists q. set_solver.
Qed.

Lemma strip_none pats s p : strip pats s = None → p ∈ pats → ¬ p `prefix_of` s.
Proof.
  induction pats as [|q pats IH]; cbn; [set_solver|]. case_bool_decide; [done|].
  intros Hs [-> |Hin]%elem_of_cons; [done|by apply IH].
Qed.

(** Trimming removes a run of patterns and leaves none in front. *)
Lemma trim_spec fuel pats s :
  (length s ≤ fuel)%nat → (∀ p, p ∈ pats → p ≠ []) →
  ∃ ps, Forall (.∈ pats) ps ∧ s = mjoin ps ++ trim fuel pats s
      ∧ strip pats (trim fuel pats s) = None.
Proof.
  intros Hlen Hne. revert s Hlen. induction fuel as [|fuel IH]; intros s Hlen; cbn.
  - exists []. split; [constructor|split; [done|]].
    destruct s; [|cbn in Hlen; lia]. destruct (strip pats []) as [t|] eqn:E; [|done].
    apply strip_some in E as (p & Hp & E). destruct p; [by apply Hne in Hp|done].
  - destruct (strip pats s) as [t|] eqn:E.
    + apply strip_some in E as (p & Hp & ->). rewrite length_app in Hlen.
      assert (length p ≠ 0%nat) by (destruct p; [by apply Hne in Hp|done]).
      destruct (IH t ltac:(lia)) as (ps & Hps & Ht & Hn). exists (p :: ps).
      split; [by constructor|]. split; [|done]. cbn. rewrite <- app_assoc. by f_equal.
    + by exists [].
Qed.

Lemma spaces_nonempty p : p ∈ spaces → p ≠ [].
Proof.
  assert (H : Forall (λ p, p ≠ []) spaces) by (repeat constructor; discriminate).
  rewrite Forall_forall in H. apply H.
Qed.

Lemma reverse_spaces_nonempty p : p ∈ reverse <$> spaces → p ≠ [].
Proof.
  intros (q & -> & Hq)%list_elem_of_fmap Hnil. apply (spaces_nonempty q Hq).
  by rewrite <- (reverse_involutive q), Hnil.
Qed.

Lemma mjoin_reverse {A} (ps : list (list A)) :
  reverse (mjoin ps) = mjoin (reverse <$> reverse ps).
Proof.
  induction ps as [|p ps IH]; [done|]. change (mjoin (p :: ps)) with (p ++ mjoin ps).
  rewrite reverse_app, IH, reverse_cons, fmap_app, join_app. cbn. by rewrite app_nil_r.
Qed.

(** What [TrimSpace] removes and what it leaves. *)
Lemma TrimSpace_bytes_spec s :
  ∃ ps qs, Forall (.∈ spaces) ps ∧ Forall (.∈ spaces) qs
    ∧ s = mjoin ps ++ TrimSpace_bytes s ++ mjoin qs
    ∧ (∀ p, p ∈ spaces → ¬ p `suffix_of` TrimSpace_bytes s).
Proof.
  unfold TrimSpace_bytes, trim_right, trim_left.
  destruct (trim_spec (length s) spaces s ltac:(lia) spaces_nonempty) as (ps & Hps & Hs & _).
  set (t := trim _ _ s) in *.
  destruct (trim_spec (length (reverse t)) (reverse <$> spaces) (reverse t) ltac:(lia)
    reverse_spaces_nonempty) as (qs & Hqs & Ht & Hn).
  set (u := trim _ _ (reverse t)) in *.
  exists ps, (reverse <$> reverse qs). split; [done|]. split; [|split].
  - apply Forall_fmap, Forall_reverse. eapply Forall_impl; [exact Hqs|].
    intros q (p & -> & Hp)%list_elem_of_fmap. cbn. by rewrite reverse_involutive.
  - rewrite <- mjoin_reverse, <- reverse_app, <- Ht, reverse_involutive. done.
  - intros p Hp [k Hk].
    apply (strip_none _ _ (reverse p) Hn); [by apply list_elem_of_fmap_2|].
    exists (reverse k). by rewrite <- reverse_app, <- Hk, reverse_involutive.
Qed.

(** ** Facts about paths *)

Lemma Byte_eqb_spec a b : Byte.eqb a b = true ↔ a = b.
Proof. split; [apply Byte.byte_dec_bl|apply Byte.byte_dec_lb]. Qed.

(** An element a cleaned rooted path may have. *)
Definition clean_elem (e : list byte) : Prop := e ≠ [] ∧ e ≠ [dot] ∧ e ≠ [dot; dot] ∧ slash ∉ e.

Lemma split_slash_free s : Forall (λ e, slash ∉ e) (split_slash s).
Proof.
  induction s as [|b s IH]; cbn; [repeat constructor; set_solver|].
  destruct (Byte.eqb b slash) eqn:E; [constructor; [set_solver|done]|].
  assert (b ≠ slash) by (intros H; apply Byte_eqb_spec in H; congruence).
  destruct (split_slash s); [repeat constructor; set_solver|].
  inversion IH; subst. constructor; [set_solver|done].
Qed.

Lemma clean_step_ok acc e :
  slash ∉ e → Forall clean_elem acc → Forall clean_elem (clean_step true acc e).
Proof.
  intros He Hacc. unfold clean_step.
  repeat case_bool_decide; cbn; try done.
  - destruct acc as [|l acc]; [done|]. inversion Hacc as [|? ? Hl]; subst.
    case_bool_decide; [by destruct Hl as (_ & _ & ? & _)|done].
  - by constructor.
Qed.

Lemma clean_elems_ok es :
  Forall (λ e, slash ∉ e) es → Forall clean_elem (clean_elems true es).
Proof.
  intros Hes. unfold clean_elems. apply Forall_reverse.
  assert (H : ∀ acc, Forall clean_elem acc →
    Forall clean_elem (fold_left (clean_step true) es acc)); [|by apply H].
  induction Hes as [|e es He Hes IH]; intros acc Hacc; cbn; [done|].
  apply IH. by apply clean_step_ok.
Qed.

(** A cleaned rooted path: a slash and clean elements separated by slashes. *)
Lemma path_Clean_rooted p :
  ∃ es, Forall clean_elem es ∧ path_Clean_bytes (slash :: p) = slash :: join_slash es.
Proof.
  eexists. split; [apply (clean_elems_ok (split_slash (slash :: p))), split_slash_free|].
  reflexivity.
Qed.

Lemma split_join e es :
  slash ∉ e → Forall (λ e, slash ∉ e) es →
  split_slash (join_slash (e :: es)) = e :: es.
Proof.
  assert (Happ : ∀ e r, slash ∉ e →
    split_slash (e ++ slash :: r) = e :: split_slash r ∧ split_slash e = [e]).
  { clear. induction e as [|b e IH]; intros r He; cbn.
    - change (Byte.eqb slash slash) with true. done.
    - destruct (Byte.eqb b slash) eqn:E; [apply Byte_eqb_spec in E; set_solver|].
      destruct (IH r ltac:(set_solver)) as [-> ->]. done. }
  intros He Hes. revert e He. induction Hes as [|e' es He' Hes IH]; intros e He.
  - cbn. by apply (Happ e []).
  - change (join_slash (e :: e' :: es)) with (e ++ slash :: join_slash (e' :: es)).
    destruct (Happ e (join_slash (e' :: es)) He) as [-> _]. by rewrite IH.
Qed.

Lemma fold_clean es acc :
  Forall clean_elem es → fold_left (clean_step true) es acc = reverse es ++ acc.
Proof.
  intros Hes. revert acc. induction Hes as [|e es (H1 & H2 & H3 & _) Hes IH]; intros acc; [done|].
  cbn [fold_left]. unfold clean_step at 2. rewrite !bool_decide_eq_false_2 by done. cbn [orb].
  rewrite IH, reverse_cons, <- app_assoc. done.
Qed.

(** Cleaning a clean path changes nothing. *)
Lemma path_Clean_idempotent p :
  path_Clean_bytes (path_Clean_bytes (slash :: p)) = path_Clean_bytes (slash :: p).
Proof.
  destruct (path_Clean_rooted p) as (es & Hes & ->).
  unfold path_Clean_bytes. change (Byte.eqb slash slash) with true. cbn [app].
  do 2 f_equal. unfold clean_elems.
  change (split_slash (slash :: join_slash es)) with ([] :: split_slash (join_slash es)).
  cbn [fold_left]. change (clean_step true [] []) with (@nil (list byte)).
  destruct es as [|e es]; [reflexivity|].
  rewrite split_join.
  - rewrite fold_clean by done. by rewrite app_nil_r, reverse_involutive.
  - inversion Hes as [|? ? (_ & _ & _ & ?)]. done.
  - inversion Hes; subst. eapply Forall_impl; [done|]. by intros ? (_ & _ & _ & ?).
Qed.

Example TrimSpace_ex :
  TrimSpace (str (zb <$> [0x20; 0x61; 0x20; 0x62; 0xC2; 0xA0; 0x0A])) = "a b"%string.
Proof. reflexivity. Qed.
Example path_Clean_ex1 : path_Clean "/a//b/./../c/" = "/a/c"%string.
Proof. reflexivity. Qed.
Example path_Clean_ex2 : path_Clean "/../.." = "/"%string.
Proof. reflexivity. Qed.
Example path_Clean_ex3 : path_Clean "a/../../b" = "../b"%string.
Proof. reflexivity. Qed.
