(* ===== verification/Registry.v ===== *)
(** * The connection registry (registry.go)

    The store [rstate] holds the three sharded maps of [connectionRegistry], the heaps of
    the objects they point to ([registryEntry] and [connectionSet]), the mutexes
    and the clock.  Pointers are numbers and 0 is nil.  Methods are [proc]s: one
    atomic action per map operation, mutex operation or atomic load and store. *)

From Stdlib Require Import Ascii String.
From S2P Require Import Prelude GoStd GoText Errors Proc Connection.

Local Open Scope Z_scope.
Local Open Scope go_scope.

(** ** Sharded maps (a third-party package) *)

(** [mapx.ShardMap[string, A]]; each operation is atomic.  [sm_Range] is the
    order in which the callback sees the entries (it always returns true here). *)
Class ShardMap (M : Type → Type) := {
  sm_New {A} : Z → M A;
  sm_Get {A} : M A → string → option A;
  sm_Set {A} : string → A → M A → M A;
  sm_Delete {A} : string → M A → M A;
  sm_Len {A} : M A → Z;
  sm_Range {A} : M A → list (string * A);
}.

(** The documented behaviour: it is a finite map. *)
Class ShardMapLaws (M : Type → Type) `{!ShardMap M} := {
  sm_model {A} : M A → gmap string A;
  sm_New_model {A} n : sm_model (sm_New n : M A) = ∅;
  sm_Get_model {A} (m : M A) k : sm_Get m k = sm_model m !! k;
  sm_Set_model {A} k v (m : M A) : sm_model (sm_Set k v m) = <[k := v]> (sm_model m);
  sm_Delete_model {A} k (m : M A) : sm_model (sm_Delete k m) = delete k (sm_model m);
  sm_Len_model {A} (m : M A) : sm_Len m = Z.of_nat (size (sm_model m));
  sm_Range_model {A} (m : M A) : sm_Range m ≡ₚ map_to_list (sm_model m);
}.

(** ** Data *)

Notation ptr := nat (only parsing).
Definition nil : ptr := 0%nat.
Definition is_nil (p : ptr) : bool := Nat.eqb p nil.

(** The exported fields of a [*Connection] the registry reads; nothing writes
    them after [newConnection]. *)
Record connInfo := {
  ID : string;
  UserID : string;
}.

Definition shardNumLarge : Z := 256.
Definition shardNumSmall : Z := 8.

Record registryEntry := {
  e_mu : bool;              (* held *)
  e_conn : ptr;
  e_lastSeen : Z;
  e_groups : gset string;
}.

Definition zeroEntry : registryEntry :=
  {| e_mu := false; e_conn := nil; e_lastSeen := 0; e_groups := ∅ |}.

(** A [[]*Connection]: its backing array, its capacity and its elements. *)
Record connSlice := {
  cs_id : nat;
  cs_cap : Z;
  cs_conns : list ptr;
}.

Definition nilSlice : connSlice := {| cs_id := 0%nat; cs_cap := 0; cs_conns := [] |}.

Record rstate {M : Type → Type} {P : Type} := {
  r_connections : M ptr;
  r_userConnIndex : M ptr;
  r_groupConnIndex : M ptr;
  r_entries : gmap ptr registryEntry;
  r_sets : gmap ptr (M ptr);
  r_next : ptr;                      (* next fresh object *)
  r_indexInitLocks : gset Z;         (* stripes held *)
  r_now : Z;                         (* the clock, in nanoseconds *)
  r_slices : P;                      (* connectionSlicePool *)
  r_nextArray : nat;
  r_fatal : bool;                    (* an unlock of a free mutex *)
}.
Arguments rstate M P : clear implicits.

(** The two index maps. *)
Inductive index := userConnIndex | groupConnIndex.
#[export] Instance index_eq_dec : EqDecision index.
Proof. solve_decision. Defined.

(** ** Keys and stripes *)

Definition normalizeGroup (group : string) : string := TrimSpace group.

(** FNV-1a over 64-bit words, reduced to the number of stripes. *)
Definition lockShard (key : string) : Z :=
  let offset64 := 14695981039346656037 in
  let prime64 := 1099511628211 in
  let hash := fold_left (λ hash b, u64 (Z.lxor hash (bz b) * prime64)) (bytes key) offset64 in
  hash mod shardNumLarge.

Lemma lockShard_bound key : 0 ≤ lockShard key < shardNumLarge.
Proof. unfold lockShard, shardNumLarge. apply Z.mod_pos_bound. lia. Qed.

(** ** Field updates *)

Section updates.
Context {M : Type → Type} {P : Type}.

Local Abbreviation state := (rstate M P).

Definition set_connections (v : M ptr) (s : state) : state :=
  {| r_connections := v; r_userConnIndex := r_userConnIndex s;
     r_groupConnIndex := r_groupConnIndex s; r_entries := r_entries s; r_sets := r_sets s;
     r_next := r_next s; r_indexInitLocks := r_indexInitLocks s; r_now := r_now s;
     r_slices := r_slices s; r_nextArray := r_nextArray s; r_fatal := r_fatal s |}.

Definition get_index (i : index) (s : state) : M ptr :=
  match i with userConnIndex => r_userConnIndex s | groupConnIndex => r_groupConnIndex s end.

Definition set_index (i : index) (v : M ptr) (s : state) : state :=
  {| r_connections := r_connections s;
     r_userConnIndex := match i with userConnIndex => v | _ => r_userConnIndex s end;
     r_groupConnIndex := match i with groupConnIndex => v | _ => r_groupConnIndex s end;
     r_entries := r_entries s; r_sets := r_sets s;
     r_next := r_next s; r_indexInitLocks := r_indexInitLocks s; r_now := r_now s;
     r_slices := r_slices s; r_nextArray := r_nextArray s; r_fatal := r_fatal s |}.

Definition set_entries (v : gmap ptr registryEntry) (s : state) : state :=
  {| r_connections := r_connections s; r_userConnIndex := r_userConnIndex s;
     r_groupConnIndex := r_groupConnIndex s; r_entries := v; r_sets := r_sets s;
     r_next := r_next s; r_indexInitLocks := r_indexInitLocks s; r_now := r_now s;
     r_slices := r_slices s; r_nextArray := r_nextArray s; r_fatal := r_fatal s |}.

Definition set_sets (v : gmap ptr (M ptr)) (s : state) : state :=
  {| r_connections := r_connections s; r_userConnIndex := r_userConnIndex s;
     r_groupConnIndex := r_groupConnIndex s; r_entries := r_entries s; r_sets := v;
     r_next := r_next s; r_indexInitLocks := r_indexInitLocks s; r_now := r_now s;
     r_slices := r_slices s; r_nextArray := r_nextArray s; r_fatal := r_fatal s |}.

Definition set_rnext (v : ptr) (s : state) : state :=
  {| r_connections := r_connections s; r_userConnIndex := r_userConnIndex s;
     r_groupConnIndex := r_groupConnIndex s; r_entries := r_entries s; r_sets := r_sets s;
     r_next := v; r_indexInitLocks := r_indexInitLocks s; r_now := r_now s;
     r_slices := r_slices s; r_nextArray := r_nextArray s; r_fatal := r_fatal s |}.

Definition set_indexInitLocks (v : gset Z) (s : state) : state :=
  {| r_connections := r_connections s; r_userConnIndex := r_userConnIndex s;
     r_groupConnIndex := r_groupConnIndex s; r_entries := r_entries s; r_sets := r_sets s;
     r_next := r_next s; r_indexInitLocks := v; r_now := r_now s;
     r_slices := r_slices s; r_nextArray := r_nextArray s; r_fatal := r_fatal s |}.

Definition set_now (v : Z) (s : state) : state :=
  {| r_connections := r_connections s; r_userConnIndex := r_userConnIndex s;
     r_groupConnIndex := r_groupConnIndex s; r_entries := r_entries s; r_sets := r_sets s;
     r_next := r_next s; r_indexInitLocks := r_indexInitLocks s; r_now := v;
     r_slices := r_slices s; r_nextArray := r_nextArray s; r_fatal := r_fatal s |}.

Definition set_slices (p : P) (n : nat) (s : state) : state :=
  {| r_connections := r_connections s; r_userConnIndex := r_userConnIndex s;
     r_groupConnIndex := r_groupConnIndex s; r_entries := r_entries s; r_sets := r_sets s;
     r_next := r_next s; r_indexInitLocks := r_indexInitLocks s; r_now := r_now s;
     r_slices := p; r_nextArray := n; r_fatal := r_fatal s |}.

Definition set_fatal (s : state) : state :=
  {| r_connections := r_connections s; r_userConnIndex := r_userConnIndex s;
     r_groupConnIndex := r_groupConnIndex s; r_entries := r_entries s; r_sets := r_sets s;
     r_next := r_next s; r_indexInitLocks := r_indexInitLocks s; r_now := r_now s;
     r_slices := r_slices s; r_nextArray := r_nextArray s; r_fatal := true |}.

(** The object behind a pointer the maps hold. *)
Definition entry_at (s : state) (p : ptr) : registryEntry := default zeroEntry (r_entries s !! p).

Definition update_entry (p : ptr) (f : registryEntry → registryEntry) (s : state) : state :=
  set_entries (alter f p (r_entries s)) s.

Definition update_set (p : ptr) (f : M ptr → M ptr) (s : state) : state :=
  set_sets (alter f p (r_sets s)) s.
End updates.

Definition with_mu (b : bool) (e : registryEntry) : registryEntry :=
  {| e_mu := b; e_conn := e_conn e; e_lastSeen := e_lastSeen e; e_groups := e_groups e |}.
Definition with_lastSeen (t : Z) (e : registryEntry) : registryEntry :=
  {| e_mu := e_mu e; e_conn := e_conn e; e_lastSeen := t; e_groups := e_groups e |}.
Definition with_groups (f : gset string → gset string) (e : registryEntry) : registryEntry :=
  {| e_mu := e_mu e; e_conn := e_conn e; e_lastSeen := e_lastSeen e; e_groups := f (e_groups e) |}.

Section registry.
Context {M : Type → Type} `{!ShardMap M} {P : Type} `{!SlicePool P}.
(** The connections by pointer, and [fmt.Sprintf("%p", conn)]. *)
Context (Conn : ptr → connInfo) (fmt_p : ptr → string).

Local Abbreviation state := (rstate M P).
Local Abbreviation Mo := (proc (rstate M P)).

Definition newConnectionMap : M ptr := sm_New shardNumLarge.
Definition newConnectionSetIndex : M ptr := sm_New shardNumLarge.
Definition newConnectionSet : M ptr := sm_New shardNumSmall.

Definition newConnectionRegistry (pool : P) (now : Z) : state :=
  {| r_connections := newConnectionMap;
     r_userConnIndex := newConnectionSetIndex;
     r_groupConnIndex := newConnectionSetIndex;
     r_entries := ∅; r_sets := ∅; r_next := 1%nat; r_indexInitLocks := ∅; r_now := now;
     r_slices := pool; r_nextArray := 0%nat; r_fatal := false |}.

Definition connectionKey (conn : ptr) : string :=
  if (ID (Conn conn) =? "")%string then fmt_p conn else ID (Conn conn).

(** ** Mutexes and the clock *)

Definition time_Now : Mo Z := reads r_now.

Definition lock_entry (entry : ptr) : Mo unit :=
  atomic (λ s, if e_mu (entry_at s entry) then [] else [(tt, update_entry entry (with_mu true) s)]).

Definition unlock_entry (entry : ptr) : Mo unit :=
  modify (λ s, if e_mu (entry_at s entry) then update_entry entry (with_mu false) s else set_fatal s).

(** [stripedMutexes.lock]; the function it returns is [unlock_stripe]. *)
Definition lock_stripe (key : string) : Mo unit :=
  atomic (λ s,
    if bool_decide (lockShard key ∈ r_indexInitLocks s) then []
    else [(tt, set_indexInitLocks ({[ lockShard key ]} ∪ r_indexInitLocks s) s)]).

Definition unlock_stripe (key : string) : Mo unit :=
  modify (λ s,
    if bool_decide (lockShard key ∈ r_indexInitLocks s)
    then set_indexInitLocks (r_indexInitLocks s ∖ {[ lockShard key ]}) s else set_fatal s).

(** ** Map operations *)

Definition connections_Get (key : string) : Mo (option ptr) :=
  reads (λ s, sm_Get (r_connections s) key).
Definition connections_Set (key : string) (entry : ptr) : Mo unit :=
  modify (λ s, set_connections (sm_Set key entry (r_connections s)) s).
Definition connections_Delete (key : string) : Mo unit :=
  modify (λ s, set_connections (sm_Delete key (r_connections s)) s).
Definition connections_Len : Mo Z := reads (λ s, sm_Len (r_connections s)).
Definition connections_Range : Mo (list (string * ptr)) := reads (λ s, sm_Range (r_connections s)).

Definition index_Get (i : index) (key : string) : Mo (option ptr) :=
  reads (λ s, sm_Get (get_index i s) key).
Definition index_Set (i : index) (key : string) (set : ptr) : Mo unit :=
  modify (λ s, set_index i (sm_Set key set (get_index i s)) s).
Definition index_Delete (i : index) (key : string) : Mo unit :=
  modify (λ s, set_index i (sm_Delete key (get_index i s)) s).

(** A connection set, by pointer. *)
Definition set_at (s : state) (set : ptr) : M ptr := default newConnectionSet (r_sets s !! set).
Definition set_Set (set : ptr) (key : string) (conn : ptr) : Mo unit :=
  modify (update_set set (sm_Set key conn)).
Definition set_Delete (set : ptr) (key : string) : Mo unit :=
  modify (update_set set (sm_Delete key)).
Definition set_Len (set : ptr) : Mo Z := reads (λ s, sm_Len (set_at s set)).
Definition set_Range (set : ptr) : Mo (list (string * ptr)) := reads (λ s, sm_Range (set_at s set)).

(** [&registryEntry{...}] and [newConnectionSet()]. *)
Definition new_entry (conn : ptr) (lastSeen : Z) : Mo ptr :=
  atomically (λ s,
    (r_next s, set_rnext (S (r_next s))
       (set_entries (<[r_next s := {| e_mu := false; e_conn := conn;
                                      e_lastSeen := lastSeen; e_groups := ∅ |}]>
                       (r_entries s)) s))).

Definition new_set : Mo ptr :=
  atomically (λ s,
    (r_next s, set_rnext (S (r_next s)) (set_sets (<[r_next s := newConnectionSet]> (r_sets s)) s))).

(** Iteration over [entry.groups], in any order. *)
Definition groups_Range (entry : ptr) : Mo (list string) :=
  atomic (λ s, (λ l, (l, s)) <$> permutations (elements (e_groups (entry_at s entry)))).

(** ** The indices *)

Definition connectionSetFor (i : index) (indexKey : string) : Mo ptr :=
  found <- index_Get i indexKey ;;;
  match found with
  | Some connections => mret connections
  | None =>
      lock_stripe indexKey ;;;
      found <- index_Get i indexKey ;;;
      connections <- match found with
                     | Some connections => mret connections
                     | None =>
                         connections <- new_set ;;;
                         index_Set i indexKey connections ;;;
                         mret connections
                     end ;;;
      unlock_stripe indexKey ;;;
      mret connections
  end.

Definition removeConnectionFromIndex (i : index) (indexKey connKey : string) : Mo unit :=
  found <- index_Get i indexKey ;;;
  match found with
  | None => mret tt
  | Some connections =>
      set_Delete connections connKey ;;;
      n <- set_Len connections ;;;
      if n =? 0 then
        lock_stripe indexKey ;;;
        found <- index_Get i indexKey ;;;
        match found with
        | Some connections =>
            n <- set_Len connections ;;;
            if n =? 0 then index_Delete i indexKey else mret tt
        | None => mret tt
        end ;;;
        unlock_stripe indexKey
      else mret tt
  end.

(** [if conn.UserID != "" { removeConnectionFromIndex(userConnIndex, ...) }]. *)
Definition removeFromUserIndex (conn : ptr) (connKey : string) : Mo unit :=
  if negb (UserID (Conn conn) =? "")%string
  then removeConnectionFromIndex userConnIndex (UserID (Conn conn)) connKey
  else mret tt.

(** ** Adding and removing *)

Definition add (conn : ptr) : Mo unit :=
  if is_nil conn then mret tt
  else
    let connKey := connectionKey conn in
    now <- time_Now ;;;
    entry <- new_entry conn now ;;;
    connections_Set connKey entry ;;;
    (if negb (UserID (Conn conn) =? "")%string then
       set <- connectionSetFor userConnIndex (UserID (Conn conn)) ;;;
       set_Set set connKey conn
     else mret tt) ;;;
    lock_entry entry ;;;
    current <- connections_Get connKey ;;;
    (if negb (bool_decide (current = Some entry)) then removeFromUserIndex conn connKey
     else mret tt) ;;;
    unlock_entry entry.

(** [entry, ok := r.connections.Get(key)] with [!ok || entry.conn != conn]. *)
Definition lookup_entry (conn : ptr) : Mo (option ptr) :=
  found <- connections_Get (connectionKey conn) ;;;
  match found with
  | None => mret None
  | Some entry =>
      c <- reads (λ s, e_conn (entry_at s entry)) ;;;
      mret (if Nat.eqb c conn then Some entry else None)
  end.

Definition remove (conn : ptr) : Mo bool :=
  if is_nil conn then mret false
  else
    let connKey := connectionKey conn in
    found <- lookup_entry conn ;;;
    match found with
    | None => mret false
    | Some entry =>
        lock_entry entry ;;;
        connections_Delete connKey ;;;
        removeFromUserIndex conn connKey ;;;
        groups <- groups_Range entry ;;;
        for_each groups (λ group, removeConnectionFromIndex groupConnIndex group connKey) ;;;
        unlock_entry entry ;;;
        mret true
    end.

(** ** Slices of connections *)

Definition getConnectionSlice (size : Z) : Mo connSlice :=
  if size <=? 0 then mret nilSlice
  else atomically (λ s,
    let '(b, p, next) := sp_Get (r_slices s) size (r_nextArray s) in
    ({| cs_id := fb_id b; cs_cap := fb_cap b; cs_conns := [] |}, set_slices p next s)).

(** [release]: the elements are cleared before the array goes back. *)
Definition putConnectionSlice (connections : connSlice) : Mo unit :=
  if cs_cap connections =? 0 then mret tt
  else modify (λ s, set_slices (sp_Put (r_slices s)
    {| fb_id := cs_id connections; fb_cap := cs_cap connections; fb_data := [] |}) (r_nextArray s) s).

(** [append(connections, conn)]. *)
Definition append_conn (connections : connSlice) (conn : ptr) : Mo connSlice :=
  let l := cs_conns connections ++ [conn] in
  if zlen l <=? cs_cap connections
  then mret {| cs_id := cs_id connections; cs_cap := cs_cap connections; cs_conns := l |}
  else atomically (λ s,
    ({| cs_id := r_nextArray s; cs_cap := zlen l; cs_conns := l |},
     set_slices (r_slices s) (S (r_nextArray s)) s)).

(** ** Snapshots *)

Definition entry_conn (entry : ptr) : Mo ptr :=
  if is_nil entry then mret nil else reads (λ s, e_conn (entry_at s entry)).

Definition allConnections : Mo (list ptr) :=
  n <- connections_Len ;;;
  if n =? 0 then mret []
  else
    range <- connections_Range ;;;
    fold_each range [] (λ connections '(_, entry),
      conn <- entry_conn entry ;;;
      mret (if is_nil conn then connections else connections ++ [conn])).

Definition allConnectionsPooled : Mo connSlice :=
  n <- connections_Len ;;;
  if n =? 0 then mret nilSlice
  else
    n <- connections_Len ;;;
    connections <- getConnectionSlice n ;;;
    range <- connections_Range ;;;
    fold_each range connections (λ connections '(_, entry),
      conn <- entry_conn entry ;;;
      if is_nil conn then mret connections else append_conn connections conn).

Definition userOnline (userID : string) : Mo Z :=
  found <- index_Get userConnIndex userID ;;;
  match found with
  | None => mret 0
  | Some userConnections => set_Len userConnections
  end.

Definition copyConnectionSet (set : ptr) : Mo (list ptr) :=
  if is_nil set then mret []
  else
    range <- set_Range set ;;;
    mret (filter (λ conn, is_nil conn = false) range.*2).

Definition copyConnectionSetPooled (set : ptr) : Mo connSlice :=
  if is_nil set then mret nilSlice
  else
    n <- set_Len set ;;;
    connections <- getConnectionSlice n ;;;
    range <- set_Range set ;;;
    fold_each range connections (λ connections '(_, conn),
      if is_nil conn then mret connections else append_conn connections conn).

Definition userConnections (userID : string) : Mo (list ptr) :=
  found <- index_Get userConnIndex userID ;;;
  match found with
  | None => mret []
  | Some userConnections => copyConnectionSet userConnections
  end.

(** The connection behind an id, nil when there is none. *)
Definition lookup_conn (connectionID : string) : Mo ptr :=
  found <- connections_Get connectionID ;;;
  match found with
  | None => mret nil
  | Some entry => entry_conn entry
  end.

(** The loop both snapshots by connection id share: [visit] appends. *)
Definition snapshot_ids {B} (connectionIDs : list string) (empty : B) (visit : B → ptr → Mo B)
    : Mo B :=
  r <- fold_each connectionIDs (empty, (∅ : gset string)) (λ '(connections, seen) connectionID,
    if (connectionID =? "")%string then mret (connections, seen)
    else if bool_decide (connectionID ∈ seen) then mret (connections, seen)
    else
      let seen := {[ connectionID ]} ∪ seen in
      conn <- lookup_conn connectionID ;;;
      if is_nil conn then mret (connections, seen)
      else
        connections <- visit connections conn ;;;
        mret (connections, seen)) ;;;
  mret r.1.

Definition connectionSnapshot (connectionIDs : list string) : Mo (list ptr) :=
  match connectionIDs with
  | [] => mret []
  | [connectionID] =>
      if (connectionID =? "")%string then mret []
      else
        conn <- lookup_conn connectionID ;;;
        mret (if is_nil conn then [] else [conn])
  | _ => snapshot_ids connectionIDs [] (λ connections conn, mret (connections ++ [conn]))
  end.

Definition connectionSnapshotPooled (connectionIDs : list string) : Mo connSlice :=
  match connectionIDs with
  | [] => mret nilSlice
  | [connectionID] =>
      if (connectionID =? "")%string then mret nilSlice
      else
        conn <- lookup_conn connectionID ;;;
        if is_nil conn then mret nilSlice
        else
          connections <- getConnectionSlice 1 ;;;
          append_conn connections conn
  | _ =>
      connections <- getConnectionSlice (zlen connectionIDs) ;;;
      snapshot_ids connectionIDs connections append_conn
  end.

(** The first loop of the user snapshots: how many connections there are. *)
Definition user_total (userIDs : list string) : Mo Z :=
  fold_each userIDs 0 (λ total userID,
    if (userID =? "")%string then mret total
    else
      found <- index_Get userConnIndex userID ;;;
      match found with
      | None => mret total
      | Some userConnections => n <- set_Len userConnections ;;; mret (total + n)
      end).

(** The second loop: one entry per connection key. *)
Definition snapshot_users {B} (userIDs : list string) (empty : B) (visit : B → ptr → Mo B) : Mo B :=
  r <- fold_each userIDs (empty, (∅ : gset string)) (λ '(connections, seen) userID,
    if (userID =? "")%string then mret (connections, seen)
    else
      found <- index_Get userConnIndex userID ;;;
      match found with
      | None => mret (connections, seen)
      | Some userConnections =>
          range <- set_Range userConnections ;;;
          fold_each range (connections, seen) (λ '(connections, seen) '(connKey, conn),
            if bool_decide (connKey ∈ seen) then mret (connections, seen)
            else
              let seen := {[ connKey ]} ∪ seen in
              if is_nil conn then mret (connections, seen)
              else
                connections <- visit connections conn ;;;
                mret (connections, seen))
      end) ;;;
  mret r.1.

Definition userSnapshot (userIDs : list string) : Mo (list ptr) :=
  match userIDs with
  | [] => mret []
  | [userID] => if (userID =? "")%string then mret [] else userConnections userID
  | _ =>
      total <- user_total userIDs ;;;
      if total =? 0 then mret []
      else snapshot_users userIDs [] (λ connections conn, mret (connections ++ [conn]))
  end.

Definition userSnapshotPooled (userIDs : list string) : Mo connSlice :=
  match userIDs with
  | [] => mret nilSlice
  | [userID] =>
      if (userID =? "")%string then mret nilSlice
      else
        found <- index_Get userConnIndex userID ;;;
        match found with
        | None => mret nilSlice
        | Some userConnections => copyConnectionSetPooled userConnections
        end
  | _ =>
      total <- user_total userIDs ;;;
      if total =? 0 then mret nilSlice
      else
        connections <- getConnectionSlice total ;;;
        snapshot_users userIDs connections append_conn
  end.

(** ** Groups *)

Definition addToGroup (conn : ptr) (group : string) : Mo (option error) :=
  let group := normalizeGroup group in
  if (group =? "")%string then mret (Some (ErrInvalidGroup : error))
  else if is_nil conn then mret (Some (ErrConnectionNotFound : error))
  else
    let connKey := connectionKey conn in
    found <- lookup_entry conn ;;;
    match found with
    | None => mret (Some (ErrConnectionNotFound : error))
    | Some entry =>
        lock_entry entry ;;;
        modify (update_entry entry (with_groups (union {[ group ]}))) ;;;
        set <- connectionSetFor groupConnIndex group ;;;
        set_Set set connKey conn ;;;
        unlock_entry entry ;;;
        mret None
    end.

Definition removeFromGroup (conn : ptr) (group : string) : Mo (option error) :=
  let group := normalizeGroup group in
  if (group =? "")%string then mret (Some (ErrInvalidGroup : error))
  else if is_nil conn then mret (Some (ErrConnectionNotFound : error))
  else
    let connKey := connectionKey conn in
    found <- lookup_entry conn ;;;
    match found with
    | None => mret (Some (ErrConnectionNotFound : error))
    | Some entry =>
        lock_entry entry ;;;
        modify (update_entry entry (with_groups (λ groups, groups ∖ {[ group ]}))) ;;;
        removeConnectionFromIndex groupConnIndex group connKey ;;;
        unlock_entry entry ;;;
        mret None
    end.

(** Unlike its siblings it does not compare [entry.conn] with [conn]. *)
Definition removeFromAllGroups (conn : ptr) : Mo unit :=
  if is_nil conn then mret tt
  else
    let connKey := connectionKey conn in
    found <- connections_Get connKey ;;;
    match found with
    | None => mret tt
    | Some entry =>
        lock_entry entry ;;;
        groups <- groups_Range entry ;;;
        for_each groups (λ group,
          removeConnectionFromIndex groupConnIndex group connKey ;;;
          modify (update_entry entry (with_groups (λ groups, groups ∖ {[ group ]})))) ;;;
        unlock_entry entry
    end.

Definition groupOnline (group : string) : Mo Z :=
  found <- index_Get groupConnIndex group ;;;
  match found with
  | None => mret 0
  | Some groupConnections => set_Len groupConnections
  end.

Definition groupConnections (group : string) : Mo (list ptr) :=
  found <- index_Get groupConnIndex group ;;;
  match found with
  | None => mret []
  | Some groupConnections => copyConnectionSet groupConnections
  end.

Definition groupConnectionsPooled (group : string) : Mo connSlice :=
  found <- index_Get groupConnIndex group ;;;
  match found with
  | None => mret nilSlice
  | Some groupConnections => copyConnectionSetPooled groupConnections
  end.

(** ** Heartbeats *)

Definition touch (conn : ptr) : Mo unit :=
  if is_nil conn then mret tt
  else
    found <- lookup_entry conn ;;;
    match found with
    | None => mret tt
    | Some entry =>
        now <- time_Now ;;;
        modify (update_entry entry (with_lastSeen now))
    end.

(** The first loop of [expired]: the entries not seen since the deadline. *)
Definition collect_expired (deadlineNano : Z) : Mo (list (string * ptr)) :=
  range <- connections_Range ;;;
  fold_each range [] (λ candidates '(key, entry),
    conn <- entry_conn entry ;;;
    if is_nil conn then mret candidates
    else
      lastSeen <- reads (λ s, e_lastSeen (entry_at s entry)) ;;;
      mret (if lastSeen <? deadlineNano then candidates ++ [(key, entry)] else candidates)).

(** One round of the second loop: the entry is checked again under its mutex. *)
Definition expire_entry (deadlineNano : Z) (expiredConns : list ptr) (candidate : string * ptr)
    : Mo (list ptr) :=
  let '(key, entry) := candidate in
  lock_entry entry ;;;
  current <- connections_Get key ;;;
  if negb (bool_decide (current = Some entry)) then
    unlock_entry entry ;;;
    mret expiredConns
  else
    lastSeen <- reads (λ s, e_lastSeen (entry_at s entry)) ;;;
    if deadlineNano <=? lastSeen then
      unlock_entry entry ;;;
      mret expiredConns
    else
      connections_Delete key ;;;
      conn <- reads (λ s, e_conn (entry_at s entry)) ;;;
      removeFromUserIndex conn key ;;;
      groups <- groups_Range entry ;;;
      for_each groups (λ group, removeConnectionFromIndex groupConnIndex group key) ;;;
      unlock_entry entry ;;;
      mret (expiredConns ++ [conn]).

Definition expired (now timeout : Z) : Mo (list ptr) :=
  if timeout <=? 0 then mret []
  else
    let deadlineNano := i64 (now - timeout) in
    candidates <- collect_expired deadlineNano ;;;
    match candidates with
    | [] => mret []
    | _ => fold_each candidates [] (expire_entry deadlineNano)
    end.

Definition nextExpiration (timeout : Z) : Mo (Z * bool) :=
  if timeout <=? 0 then mret (0, false)
  else
    n <- connections_Len ;;;
    if n =? 0 then mret (0, false)
    else mret (goquot timeout 2, true).
End registry.
