(* ===== verification/RegistrySpec.v ===== *)
(** * The registry implements a map from keys to connections with groups

    The specification [areg] is one finite map; the user and group indices are
    derived from it.  [RegOk s A] relates the heap of the registry to it: the
    connections map and its entries, the two indices (every set they point to
    has exactly the members of its user or group, none is empty, none is
    shared) and every mutex free.  Each lemma [twp_*] runs one method alone
    from such a state: it never blocks and ends in a state related to the
    specification's result. *)

From Stdlib Require Import Ascii String.
From S2P Require Import Prelude GoStd GoText Errors Proc Connection Registry.

Local Open Scope Z_scope.
Local Open Scope go_scope.

(** ** The specification *)

Record aentry := {
  a_conn : ptr;
  a_groups : gset string;
  a_seen : Z;
}.

Notation areg := (gmap string aentry).

(** Changing one entry of a family of sets. *)
Definition upd (F : index → string → gmap string ptr) (i : index) (u : string)
    (f : gmap string ptr → gmap string ptr) : index → string → gmap string ptr :=
  λ i' u', if decide (i = i' ∧ u = u') then f (F i' u') else F i' u'.

Section spec.
Context {M : Type → Type} `{!ShardMap M} `{!ShardMapLaws M} {P : Type} `{!SlicePool P}.
Context (Conn : ptr → connInfo) (fmt_p : ptr → string).

Local Abbreviation state := (rstate M P).
Local Abbreviation Mo := (proc (rstate M P)).

Implicit Types s : state.
Implicit Types A : areg.
Implicit Types F : index → string → gmap string ptr.

(** The user or group [u] has the entry [e] as a member. *)
Definition belongs (i : index) (u : string) (e : aentry) : bool :=
  match i with
  | userConnIndex => negb (u =? "")%string && (UserID (Conn (a_conn e)) =? u)%string
  | groupConnIndex => bool_decide (u ∈ a_groups e)
  end.

Definition members (A : areg) (i : index) (u : string) : gmap string ptr :=
  omap (λ e, if belongs i u e then Some (a_conn e) else None) A.

Lemma lookup_members A i u k :
  members A i u !! k =
  match A !! k with Some e => if belongs i u e then Some (a_conn e) else None | None => None end.
Proof. unfold members. rewrite lookup_omap. by destruct (A !! k). Qed.

(** ** The indices *)

Record Idx s F : Prop := {
  idx_ok i u :
    match sm_model (get_index i s) !! u with
    | Some sp => ∃ m, r_sets s !! sp = Some m ∧ sm_model m = F i u
    | None => F i u = ∅
    end;
  idx_inj i u i' u' sp :
    sm_model (get_index i s) !! u = Some sp → sm_model (get_index i' s) !! u' = Some sp →
    i = i' ∧ u = u';
  idx_fresh sp m : r_sets s !! sp = Some m → (0 < sp < r_next s)%nat;
  idx_locks : r_indexInitLocks s = ∅;
  idx_next : (0 < r_next s)%nat;
}.

(** No empty sets, but perhaps for one key. *)
Definition Tight s F : Prop :=
  ∀ i u sp, sm_model (get_index i s) !! u = Some sp → F i u ≠ ∅.
Definition TightBut s F i u : Prop :=
  ∀ i' u' sp, sm_model (get_index i' s) !! u' = Some sp → F i' u' = ∅ → i' = i ∧ u' = u.

(** The part of the store the index operations leave alone. *)
Record off_index s s' : Prop := {
  off_connections : r_connections s' = r_connections s;
  off_entries : r_entries s' = r_entries s;
  off_now : r_now s' = r_now s;
  off_fatal : r_fatal s' = r_fatal s;
  off_slices : r_slices s' = r_slices s ∧ r_nextArray s' = r_nextArray s;
  off_next : (r_next s ≤ r_next s')%nat;
}.

#[export] Instance off_index_PreOrder : PreOrder off_index.
Proof.
  split; [by constructor|]. intros s1 s2 s3 [? ? ? ? [? ?] ?] [? ? ? ? [? ?] ?].
  constructor; try congruence; [split; congruence|lia].
Qed.

(** What the indices depend on. *)
Lemma Idx_frame s s' F :
  (∀ i, get_index i s' = get_index i s) → r_sets s' = r_sets s → (r_next s ≤ r_next s')%nat →
  r_indexInitLocks s' = r_indexInitLocks s → Idx s F → Idx s' F.
Proof.
  intros Hi Hs Hn Hl [Hok Hinj Hf Hlk Hnx]. constructor.
  - intros i u. rewrite Hi, Hs. apply Hok.
  - intros i u i' u' sp. rewrite !Hi. apply Hinj.
  - intros sp m. rewrite Hs. intros H. specialize (Hf sp m H). lia.
  - by rewrite Hl.
  - lia.
Qed.

Lemma Idx_ext s F G : (∀ i u, F i u = G i u) → Idx s F → Idx s G.
Proof.
  intros HFG [Hok Hinj Hf Hlk Hnx]. constructor; [|done..].
  intros i u. specialize (Hok i u). by rewrite <- HFG.
Qed.

Lemma Tight_frame s s' F : (∀ i, get_index i s' = get_index i s) → Tight s F → Tight s' F.
Proof. intros Hi Ht i u sp. rewrite Hi. apply Ht. Qed.

Lemma Tight_ext s F G : (∀ i u, F i u = G i u) → Tight s F → Tight s G.
Proof. intros HFG Ht i u sp H. rewrite <- HFG. by eapply Ht. Qed.

Lemma Idx_set_at s F i u sp :
  Idx s F → sm_model (get_index i s) !! u = Some sp →
  sm_model (set_at s sp) = F i u ∧ is_nil sp = false.
Proof.
  intros HI Hu. pose proof (idx_ok _ _ HI i u) as H. rewrite Hu in H.
  destruct H as (m & Hm & <-). unfold set_at. rewrite Hm. split; [done|].
  apply (idx_fresh _ _ HI) in Hm. unfold is_nil, nil. apply Nat.eqb_neq. lia.
Qed.

(** ** Running the primitives *)

Lemma get_set_index i i' v s :
  get_index i' (set_index i v s) = if decide (i = i') then v else get_index i' s.
Proof. by destruct i, i'. Qed.

Lemma twp_index_Get i u (Q : option ptr → state → Prop) s :
  Q (sm_model (get_index i s) !! u) s → twp (index_Get i u) Q s.
Proof. intros HQ. apply twp_reads. by rewrite sm_Get_model. Qed.

Lemma twp_connections_Get k (Q : option ptr → state → Prop) s :
  Q (sm_model (r_connections s) !! k) s → twp (connections_Get k) Q s.
Proof. intros HQ. apply twp_reads. by rewrite sm_Get_model. Qed.

Lemma twp_set_Len sp (Q : Z → state → Prop) s :
  Q (Z.of_nat (size (sm_model (set_at s sp)))) s → twp (set_Len sp) Q s.
Proof. intros HQ. apply twp_reads. by rewrite sm_Len_model. Qed.

(** Taking a free stripe. *)
Definition locked (u : string) s : state := set_indexInitLocks ({[ lockShard u ]} ∪ r_indexInitLocks s) s.

Lemma twp_lock_stripe u (Q : unit → state → Prop) s :
  r_indexInitLocks s = ∅ → Q tt (locked u s) → twp (lock_stripe u) Q s.
Proof.
  intros Hl HQ. cbn. rewrite Hl, bool_decide_eq_false_2 by set_solver. split; [done|].
  intros [] s' [= ->]%list_elem_of_singleton. unfold locked in HQ. by rewrite Hl in HQ.
Qed.

Lemma twp_unlock_stripe u (Q : unit → state → Prop) s s0 :
  r_indexInitLocks s0 = ∅ → r_indexInitLocks s = r_indexInitLocks (locked u s0) →
  Q tt (set_indexInitLocks ∅ s) → twp (unlock_stripe u) Q s.
Proof.
  intros H0 Hl HQ. apply twp_modify. rewrite Hl. cbn. rewrite H0.
  rewrite bool_decide_eq_true_2 by set_solver.
  by replace (({[lockShard u]} ∪ ∅) ∖ {[lockShard u]}) with (∅ : gset Z) by set_solver.
Qed.

Lemma set_locks_same s : r_indexInitLocks s = ∅ → set_indexInitLocks ∅ s = s.
Proof. destruct s; cbn. by intros ->. Qed.

(** ** Index operations *)

(** A new empty set for a key that has none. *)
Lemma Idx_new_set s F i u :
  Idx s F → sm_model (get_index i s) !! u = None →
  let s' := set_index i (sm_Set u (r_next s) (get_index i s))
              (set_rnext (S (r_next s)) (set_sets (<[r_next s := newConnectionSet]> (r_sets s)) s)) in
  Idx s' F.
Proof.
  intros HI Hu s'. pose proof (idx_ok _ _ HI i u) as Hok. rewrite Hu in Hok.
  assert (Hget : ∀ i' u', sm_model (get_index i' s') !! u' =
    if decide (i = i' ∧ u = u') then Some (r_next s) else sm_model (get_index i' s) !! u').
  { intros i' u'. unfold s'. rewrite get_set_index. destruct (decide (i = i')) as [<-|Hne].
    - rewrite sm_Set_model. destruct (decide (u = u')) as [<-|Hne'].
      + rewrite lookup_insert_eq. rewrite decide_True by done. done.
      + rewrite lookup_insert_ne by done. rewrite decide_False by naive_solver. by destruct i.
    - rewrite decide_False by naive_solver. by destruct i'. }
  assert (Hnew : ∀ i' u', sm_model (get_index i' s) !! u' ≠ Some (r_next s)).
  { intros i' u' H'. pose proof (idx_ok _ _ HI i' u') as H. rewrite H' in H.
    destruct H as (m & Hm & _). apply (idx_fresh _ _ HI) in Hm. lia. }
  constructor.
  - intros i' u'. rewrite Hget. replace (r_sets s') with (<[r_next s := newConnectionSet]> (r_sets s))
      by (by destruct i). case_decide as Hd.
    + destruct Hd as [<- <-]. exists newConnectionSet. rewrite lookup_insert_eq. split; [done|].
      rewrite Hok. apply sm_New_model.
    + pose proof (idx_ok _ _ HI i' u') as H.
      destruct (sm_model (get_index i' s) !! u') as [sp|] eqn:E; [|done].
      rewrite lookup_insert_ne; [done|]. intros <-. by apply (Hnew i' u').
  - intros i1 u1 i2 u2 sp. rewrite !Hget. repeat case_decide; intros; simplify_eq;
      try naive_solver; try by exfalso; eapply Hnew. by eapply (idx_inj _ _ HI).
  - intros sp m. replace (r_sets s') with (<[r_next s := newConnectionSet]> (r_sets s))
      by (by destruct i). replace (r_next s') with (S (r_next s)) by (by destruct i).
    pose proof (idx_next _ _ HI). intros [[<- <-]|[Hne Hm]]%lookup_insert_Some; [lia|].
    apply (idx_fresh _ _ HI) in Hm. lia.
  - destruct i; apply HI.
  - replace (r_next s') with (S (r_next s)) by (by destruct i). lia.
Qed.

(** [connectionSetFor] gives the set of the key, at worst a new empty one. *)
Lemma twp_connectionSetFor i u F (Q : ptr → state → Prop) s :
  Idx s F → Tight s F →
  (∀ sp s', Idx s' F → TightBut s' F i u → off_index s s' →
     sm_model (get_index i s') !! u = Some sp → Q sp s') →
  twp (connectionSetFor i u) Q s.
Proof.
  intros HI HT HQ. apply twp_bind, twp_index_Get.
  destruct (sm_model (get_index i s) !! u) as [sp|] eqn:Hu.
  { apply HQ; [done| |done|done]. intros i' u' sp' H' Hempty. by apply HT in H'. }
  apply twp_bind, twp_lock_stripe; [apply HI|].
  apply twp_bind, twp_index_Get.
  replace (sm_model (get_index i (locked u s)) !! u) with (None : option ptr) by (by destruct i).
  apply twp_bind, twp_bind, twp_atomically, twp_bind, twp_modify.
  set (s2 := set_index i _ _). apply twp_bind.
  apply (twp_unlock_stripe u _ s2 s); [apply HI|by destruct i|].
  pose proof (Idx_new_set s F i u HI Hu) as HI'. cbn zeta in HI'. set (s3 := set_index i _ _) in HI'.
  replace (set_indexInitLocks ∅ s2) with s3.
  - apply HQ; [done| | |].
    + intros i' u' sp' H' Hempty. unfold s3 in H'. rewrite get_set_index in H'.
      destruct (decide (i = i')) as [<-|Hne].
      * rewrite sm_Set_model in H'. apply lookup_insert_Some in H' as [[<- <-]|[_ H']]; [done|].
        exfalso. apply (HT i u' sp'); [by destruct i|done].
      * exfalso. apply (HT i' u' sp'); [by destruct i'|done].
    + destruct i; constructor; cbn; try done; lia.
    + unfold s3. rewrite get_set_index, decide_True by done. rewrite sm_Set_model.
      apply lookup_insert_eq.
  - unfold s2, s3. pose proof (idx_locks _ _ HI) as Hl. destruct s; cbn in *. by destruct i; cbn; rewrite Hl.
Qed.

Lemma upd_ne F i u f i' u' : ¬ (i = i' ∧ u = u') → upd F i u f i' u' = F i' u'.
Proof. intros H. unfold upd. by rewrite decide_False. Qed.

Lemma upd_eq F i u f : upd F i u f i u = f (F i u).
Proof. unfold upd. by rewrite decide_True. Qed.

(** Changing the set of one key through its pointer. *)
Lemma Idx_update_set s F i u sp (g : M ptr → M ptr) f :
  (∀ m, sm_model (g m) = f (sm_model m)) →
  Idx s F → sm_model (get_index i s) !! u = Some sp →
  Idx (update_set sp g s) (upd F i u f).
Proof.
  intros Hg HI Hu. constructor.
  - intros i' u'. replace (get_index i' (update_set sp g s)) with (get_index i' s) by (by destruct i').
    pose proof (idx_ok _ _ HI i' u') as Hok. cbn.
    destruct (decide (i = i' ∧ u = u')) as [[<- <-]|Hne].
    + rewrite Hu in *. destruct Hok as (m & Hm & HF). exists (g m).
      rewrite lookup_alter_eq, Hm. split; [done|]. by rewrite upd_eq, Hg, HF.
    + rewrite upd_ne by done. destruct (sm_model (get_index i' s) !! u') as [sp'|] eqn:E; [|done].
      rewrite lookup_alter_ne; [done|]. intros <-. apply Hne. by apply (idx_inj _ _ HI i u i' u' sp).
  - intros i1 u1 i2 u2 sp'.
    replace (get_index i1 (update_set sp g s)) with (get_index i1 s) by (by destruct i1).
    replace (get_index i2 (update_set sp g s)) with (get_index i2 s) by (by destruct i2).
    apply HI.
  - intros sp' m. cbn. intros Hm.
    assert (is_Some (r_sets s !! sp')) as [m' Hm'].
    { destruct (decide (sp = sp')) as [<-|]; [|by rewrite lookup_alter_ne in Hm].
      rewrite lookup_alter_eq in Hm. apply fmap_Some in Hm as (m0 & ? & _). eauto. }
    by apply (idx_fresh _ _ HI) in Hm'.
  - apply HI.
  - apply HI.
Qed.

(** Setting a member; the key's set may have been empty. *)
Lemma twp_set_Set i u sp k c F (Q : unit → state → Prop) s :
  Idx s F → TightBut s F i u → sm_model (get_index i s) !! u = Some sp →
  (∀ s', Idx s' (upd F i u (insert k c)) → Tight s' (upd F i u (insert k c)) → off_index s s' →
     Q tt s') →
  twp (set_Set sp k c) Q s.
Proof.
  intros HI HT Hu HQ. apply twp_modify. apply HQ.
  - apply Idx_update_set; [intros m; apply sm_Set_model|done..].
  - intros i' u' sp' H'.
    replace (get_index i' (update_set sp (sm_Set k c) s)) with (get_index i' s) in H' by (by destruct i').
    destruct (decide (i = i' ∧ u = u')) as [[<- <-]|Hne].
    + rewrite upd_eq. apply insert_non_empty.
    + rewrite upd_ne by done. intros Hempty. destruct (HT i' u' sp' H' Hempty). naive_solver.
  - by constructor.
Qed.

(** Dropping the key of a set that became empty. *)
Lemma Idx_drop s F i u :
  Idx s F → F i u = ∅ → Idx (set_index i (sm_Delete u (get_index i s)) s) F.
Proof.
  intros HI Hempty. set (s' := set_index _ _ _).
  assert (Hget : ∀ i' u', sm_model (get_index i' s') !! u' =
    if decide (i = i' ∧ u = u') then None else sm_model (get_index i' s) !! u').
  { intros i' u'. unfold s'. rewrite get_set_index. destruct (decide (i = i')) as [<-|Hne].
    - rewrite sm_Delete_model. destruct (decide (u = u')) as [<-|Hne'].
      + by rewrite lookup_delete_eq, decide_True.
      + rewrite lookup_delete_ne by done. by rewrite decide_False by naive_solver.
    - by rewrite decide_False by naive_solver. }
  constructor.
  - intros i' u'. rewrite Hget. replace (r_sets s') with (r_sets s) by (by destruct i).
    case_decide as Hd; [by destruct Hd as [<- <-]|]. apply (idx_ok _ _ HI).
  - intros i1 u1 i2 u2 sp. rewrite !Hget. repeat case_decide; intros; simplify_eq.
    by eapply (idx_inj _ _ HI).
  - destruct i; apply HI.
  - destruct i; apply HI.
  - destruct i; apply HI.
Qed.

Lemma twp_removeConnectionFromIndex i u k F (Q : unit → state → Prop) s :
  Idx s F → Tight s F →
  (∀ s', Idx s' (upd F i u (delete k)) → Tight s' (upd F i u (delete k)) → off_index s s' →
     Q tt s') →
  twp (removeConnectionFromIndex i u k) Q s.
Proof.
  intros HI HT HQ. apply twp_bind, twp_index_Get.
  destruct (sm_model (get_index i s) !! u) as [sp|] eqn:Hu.
  2: { pose proof (idx_ok _ _ HI i u) as Hok. rewrite Hu in Hok.
    assert (Hext : ∀ i' u', F i' u' = upd F i u (delete k) i' u').
    { intros i' u'. destruct (decide (i = i' ∧ u = u')) as [[<- <-]|Hne].
      - by rewrite upd_eq, Hok, delete_empty.
      - by rewrite upd_ne. }
    apply HQ; [by eapply Idx_ext|by eapply Tight_ext|done]. }
  apply twp_bind, twp_modify.
  set (s1 := update_set _ _ _). set (F' := upd F i u (delete k)) in *.
  assert (HI1 : Idx s1 F') by (apply Idx_update_set; [intros m; apply sm_Delete_model|done..]).
  assert (Hget1 : ∀ i', get_index i' s1 = get_index i' s) by (by intros []).
  assert (HT1 : TightBut s1 F' i u).
  { intros i' u' sp' H' Hempty. rewrite Hget1 in H'.
    destruct (decide (i = i' ∧ u = u')) as [[<- <-]|Hne]; [done|].
    unfold F' in Hempty. rewrite upd_ne in Hempty by done. by apply HT in H'. }
  assert (Hu1 : sm_model (get_index i s1) !! u = Some sp) by (by rewrite Hget1).
  destruct (Idx_set_at s1 F' i u sp HI1 Hu1) as [Hset _].
  apply twp_bind, twp_set_Len. rewrite Hset.
  destruct (Z.eqb_spec (Z.of_nat (size (F' i u))) 0) as [Hz|Hz].
  2: { apply HQ; [done| |by constructor]. intros i' u' sp' H' Hempty.
    destruct (HT1 i' u' sp' H' Hempty) as [-> ->]. by rewrite Hempty, map_size_empty in Hz. }
  assert (Hempty : F' i u = ∅) by (apply map_size_empty_inv; lia).
  apply twp_bind, twp_lock_stripe; [apply HI1|].
  apply twp_bind, twp_index_Get.
  replace (sm_model (get_index i (locked u s1)) !! u) with (Some sp) by (rewrite <- Hu1; by destruct i).
  apply twp_bind, twp_bind, twp_set_Len.
  change (set_at (locked u s1) sp) with (set_at s1 sp). rewrite Hset, Hempty, map_size_empty.
  cbn [Z.of_nat Z.eqb]. apply twp_modify. set (s2 := set_index i _ _).
  apply (twp_unlock_stripe u _ s2 s1); [apply HI1|by destruct i|].
  replace (set_indexInitLocks ∅ s2) with (set_index i (sm_Delete u (get_index i s1)) s1).
  - apply HQ; [by apply Idx_drop| |destruct i; by constructor].
    intros i' u' sp' H' Hemp. rewrite get_set_index in H'. destruct (decide (i = i')) as [<-|Hne].
    + rewrite sm_Delete_model in H'. apply lookup_delete_Some in H' as [Hne H'].
      destruct (HT1 i u' sp' H' Hemp). congruence.
    + destruct (HT1 i' u' sp' H' Hemp). congruence.
  - unfold s2. pose proof (idx_locks _ _ HI1) as Hl. destruct s1; cbn in *. by destruct i; cbn; rewrite Hl.
Qed.
End spec.
