(* ===== verification/RegistryOps.v ===== *)
(** * The mutating methods of the registry against the specification *)

From Stdlib Require Import Ascii String.
From S2P Require Import Prelude GoStd GoText Errors Proc Connection Registry RegistrySpec.

Local Open Scope Z_scope.
Local Open Scope go_scope.

Lemma decide_iff_if {B} (X Y : Prop) `{!Decision X, !Decision Y} (a b : B) :
  X ↔ Y → (if decide X then a else b) = if decide Y then a else b.
Proof. intros H. destruct (decide X), (decide Y); tauto. Qed.

(** ** Parts of the specification *)

Definition is_expired (deadline : Z) (e : aentry) : bool := a_seen e <? deadline.

(** The entries not seen since the deadline, and the others. *)
Definition spec_expired (A : areg) (deadline : Z) : areg := filter (λ '(_, e), is_expired deadline e = true) A.
Definition spec_alive (A : areg) (deadline : Z) : areg := filter (λ '(_, e), is_expired deadline e = false) A.

Definition conns_of (A : areg) : list ptr := (λ '(_, e), a_conn e) <$> map_to_list A.

Definition drop_keys (A : areg) (ks : list string) : areg := filter (λ '(k, _), k ∉ ks) A.

Lemma lookup_drop_keys (A : areg) ks k : drop_keys A ks !! k = if decide (k ∈ ks) then None else A !! k.
Proof.
  unfold drop_keys. rewrite map_lookup_filter. destruct (A !! k) as [e|]; cbn.
  - repeat case_decide; try done; case_guard; naive_solver.
  - by case_decide.
Qed.

Lemma drop_keys_snoc (A : areg) ks k : delete k (drop_keys A ks) = drop_keys A (ks ++ [k]).
Proof.
  apply map_eq. intros k'. rewrite lookup_drop_keys. destruct (decide (k = k')) as [<-|Hne].
  - rewrite lookup_delete_eq. by rewrite decide_True by set_solver.
  - rewrite lookup_delete_ne, lookup_drop_keys by done. apply decide_iff_if. set_solver.
Qed.

(** The connections behind a list of candidates. *)
Definition conn_at (A : areg) (kp : string * ptr) : list ptr :=
  match A !! kp.1 with Some e => [a_conn e] | None => [] end.

Lemma conns_perm (A : areg) (l : list (string * ptr)) m :
  NoDup l.*1 → (∀ k, k ∈ l.*1 ↔ is_Some (m !! k)) → m ⊆ A →
  mjoin (conn_at A <$> l) ≡ₚ conns_of m.
Proof.
  revert m. induction l as [|[k p] l IH]; intros m Hnd Hm HA; cbn in *.
  - assert (m = ∅) as ->; [|done]. apply map_eq. intros k. rewrite lookup_empty.
    destruct (m !! k) as [e|] eqn:E; [|done]. destruct (Hm k) as [_ H]. rewrite E in H.
    specialize (H (ltac:(eauto))). set_solver.
  - apply NoDup_cons in Hnd as [Hk Hnd].
    destruct (Hm k) as [[e He] _]; [set_solver|].
    unfold conns_of. rewrite <- (insert_delete_id m k e He).
    rewrite map_to_list_insert by apply lookup_delete_eq. cbn.
    unfold conn_at at 1. cbn [fst]. rewrite (lookup_weaken _ _ _ _ He HA). cbn. f_equiv.
    apply IH; [done| |].
    + intros k'. destruct (decide (k = k')) as [<-|Hne].
      * rewrite lookup_delete_eq. split; [done|]. by intros [].
      * rewrite lookup_delete_ne by done. rewrite <- Hm. set_solver.
    + etransitivity; [apply delete_subseteq|done].
Qed.

Section ops.
Context {M : Type → Type} `{!ShardMap M} `{!ShardMapLaws M} {P : Type} `{!SlicePool P}.
Context (Conn : ptr → connInfo) (fmt_p : ptr → string).

Local Abbreviation state := (rstate M P).
Local Abbreviation Mo := (proc (rstate M P)).
Local Abbreviation key := (connectionKey Conn fmt_p).
Local Abbreviation mem := (members Conn).

Implicit Types s : state.
Implicit Types A : areg.
Implicit Types F : index → string → gmap string ptr.

(** The heap object of a specified entry, its mutex free. *)
Definition entry_of (e : aentry) : registryEntry :=
  {| e_mu := false; e_conn := a_conn e; e_lastSeen := a_seen e; e_groups := a_groups e |}.

Definition found_ok s A (k : string) (op : option ptr) : Prop :=
  match op, A !! k with
  | Some p, Some e =>
      r_entries s !! p = Some (entry_of e) ∧ key (a_conn e) = k ∧ a_conn e ≠ nil
  | None, None => True
  | _, _ => False
  end.

Record RegOk s A : Prop := {
  ok_found k : found_ok s A k (sm_model (r_connections s) !! k);
  ok_idx : Idx s (mem A);
  ok_tight : Tight s (mem A);
  ok_fresh p e : r_entries s !! p = Some e → (0 < p < r_next s)%nat;
  ok_fatal : r_fatal s = false;
}.

(** ** The specification of the mutating methods *)

Definition spec_find A (conn : ptr) : option aentry :=
  match A !! key conn with
  | Some e => if Nat.eqb (a_conn e) conn then Some e else None
  | None => None
  end.

Definition spec_add A (now : Z) (conn : ptr) : areg :=
  if is_nil conn then A else <[key conn := {| a_conn := conn; a_groups := ∅; a_seen := now |}]> A.

Definition spec_remove A (conn : ptr) : bool * areg :=
  if is_nil conn then (false, A)
  else match spec_find A conn with
       | Some _ => (true, delete (key conn) A)
       | None => (false, A)
       end.

Definition spec_touch A (now : Z) (conn : ptr) : areg :=
  if is_nil conn then A
  else match spec_find A conn with
       | Some e => <[key conn := {| a_conn := a_conn e; a_groups := a_groups e; a_seen := now |}]> A
       | None => A
       end.

Definition set_groups (e : aentry) (g : gset string) : aentry :=
  {| a_conn := a_conn e; a_groups := g; a_seen := a_seen e |}.

(** Joining and leaving share their checks. *)
Definition spec_regroup A (conn : ptr) (group : string) (f : gset string → gset string)
    : option error * areg :=
  if (normalizeGroup group =? "")%string then (Some (ErrInvalidGroup : error), A)
  else if is_nil conn then (Some (ErrConnectionNotFound : error), A)
  else match spec_find A conn with
       | Some e => (None, <[key conn := set_groups e (f (a_groups e))]> A)
       | None => (Some (ErrConnectionNotFound : error), A)
       end.

Definition spec_addToGroup A conn group :=
  spec_regroup A conn group (union {[ normalizeGroup group ]}).
Definition spec_removeFromGroup A conn group :=
  spec_regroup A conn group (λ groups, groups ∖ {[ normalizeGroup group ]}).

(** It looks at the key only. *)
Definition spec_removeFromAllGroups A (conn : ptr) : areg :=
  if is_nil conn then A else alter (λ e, set_groups e ∅) (key conn) A.

(** ** States *)

Lemma RegOk_found s A k p :
  RegOk s A → sm_model (r_connections s) !! k = Some p →
  ∃ e, A !! k = Some e ∧ r_entries s !! p = Some (entry_of e) ∧ key (a_conn e) = k
     ∧ a_conn e ≠ nil ∧ entry_at s p = entry_of e ∧ is_nil p = false.
Proof.
  intros HR Hp. pose proof (ok_found _ _ HR k) as H. unfold found_ok in H. rewrite Hp in H.
  destruct (A !! k) as [e|]; [|done]. destruct H as (He & Hk & Hc).
  exists e. split_and!; try done; [unfold entry_at; by rewrite He|].
  apply (ok_fresh _ _ HR) in He. unfold is_nil, nil. apply Nat.eqb_neq. lia.
Qed.

Lemma RegOk_not_found s A k :
  RegOk s A → sm_model (r_connections s) !! k = None → A !! k = None.
Proof.
  intros HR Hp. pose proof (ok_found _ _ HR k) as H. unfold found_ok in H. rewrite Hp in H.
  by destruct (A !! k).
Qed.

(** Different keys have different entries. *)
Lemma RegOk_inj s A k1 k2 p :
  RegOk s A → sm_model (r_connections s) !! k1 = Some p → sm_model (r_connections s) !! k2 = Some p →
  k1 = k2.
Proof.
  intros HR H1 H2.
  destruct (RegOk_found s A k1 p HR H1) as (e1 & _ & E1 & <- & _).
  destruct (RegOk_found s A k2 p HR H2) as (e2 & _ & E2 & <- & _).
  rewrite E1 in E2. injection E2 as ->. congruence.
Qed.

Lemma entry_at_update s p f q :
  entry_at (update_entry p f s) q =
  if decide (p = q) then from_option f zeroEntry (r_entries s !! p) else entry_at s q.
Proof.
  unfold entry_at, update_entry. cbn. case_decide as Hd.
  - subst q. rewrite lookup_alter_eq. by destruct (r_entries s !! p).
  - by rewrite lookup_alter_ne.
Qed.

Lemma Idx_update_entry s p f F : Idx s F → Idx (update_entry p f s) F.
Proof. apply Idx_frame; [by intros []|done..]. Qed.

Lemma Tight_update_entry s p f F : Tight s F → Tight (update_entry p f s) F.
Proof. apply Tight_frame. by intros []. Qed.

Lemma Idx_set_connections s v F : Idx s F → Idx (set_connections v s) F.
Proof. apply Idx_frame; [by intros []|done..]. Qed.

Lemma Tight_set_connections s v F : Tight s F → Tight (set_connections v s) F.
Proof. apply Tight_frame. by intros []. Qed.

(** ** Mutexes, lookups and group iteration *)

Lemma twp_lock_entry p (Q : unit → state → Prop) s :
  e_mu (entry_at s p) = false → Q tt (update_entry p (with_mu true) s) → twp (lock_entry p) Q s.
Proof.
  intros Hmu HQ. cbn. rewrite Hmu. split; [done|]. by intros [] s' [= ->]%list_elem_of_singleton.
Qed.

Lemma twp_unlock_entry p (Q : unit → state → Prop) s :
  e_mu (entry_at s p) = true → Q tt (update_entry p (with_mu false) s) → twp (unlock_entry p) Q s.
Proof. intros Hmu HQ. apply twp_modify. by rewrite Hmu. Qed.

Lemma twp_lookup_entry conn (Q : option ptr → state → Prop) s A :
  RegOk s A →
  (spec_find A conn = None → Q None s) →
  (∀ p e, sm_model (r_connections s) !! key conn = Some p → A !! key conn = Some e →
     spec_find A conn = Some e → a_conn e = conn → r_entries s !! p = Some (entry_of e) →
     Q (Some p) s) →
  twp (lookup_entry Conn fmt_p conn) Q s.
Proof.
  intros HR Hnone Hsome. apply twp_bind, twp_connections_Get.
  destruct (sm_model (r_connections s) !! key conn) as [p|] eqn:Hp.
  - destruct (RegOk_found s A _ p HR Hp) as (e & He & Hep & Hk & Hc & Hat & _).
    apply twp_bind, twp_reads. rewrite Hat. cbn [e_conn entry_of].
    unfold spec_find in *. rewrite He in *.
    destruct (Nat.eqb_spec (a_conn e) conn) as [<-|Hne]; [by eapply Hsome|by apply Hnone].
  - apply Hnone. unfold spec_find. by rewrite (RegOk_not_found s A _ HR Hp).
Qed.

Lemma twp_groups_Range p (Q : list string → state → Prop) s :
  (∀ l, l ≡ₚ elements (e_groups (entry_at s p)) → Q l s) → twp (groups_Range p) Q s.
Proof.
  intros HQ. cbn. split.
  - intros Hnil%fmap_nil_inv. pose proof (permutations_refl (elements (e_groups (entry_at s p)))) as H.
    rewrite Hnil in H. inversion H.
  - intros l s' Hin. apply list_elem_of_fmap in Hin as (l' & [= -> ->] & Hl). apply HQ.
    symmetry. by apply permutations_Permutation.
Qed.

(** ** Leaving a list of groups *)

Definition del_groups F (l : list string) (k : string) : index → string → gmap string ptr :=
  λ i u, match i with
         | groupConnIndex => if decide (u ∈ l) then delete k (F i u) else F i u
         | userConnIndex => F i u
         end.

Lemma del_groups_snoc F l g k i u :
  upd (del_groups F l k) groupConnIndex g (delete k) i u = del_groups F (l ++ [g]) k i u.
Proof.
  unfold upd, del_groups. destruct i; [by rewrite decide_False by naive_solver|].
  destruct (decide (groupConnIndex = groupConnIndex ∧ g = u)) as [[_ <-]|Hne].
  - rewrite (decide_True (P := g ∈ l ++ [g])) by set_solver.
    case_decide; [by rewrite delete_delete_eq|done].
  - assert (g ≠ u) by naive_solver. destruct (decide (u ∈ l)).
    + by rewrite decide_True by set_solver.
    + by rewrite decide_False by set_solver.
Qed.

Lemma twp_remove_groups l k F s (Q : unit → state → Prop) :
  Idx s F → Tight s F →
  (∀ s', Idx s' (del_groups F l k) → Tight s' (del_groups F l k) → off_index s s' → Q tt s') →
  twp (for_each l (λ group, removeConnectionFromIndex groupConnIndex group k)) Q s.
Proof.
  intros HI HT HQ. eapply twp_mono.
  - apply (twp_for_each l _ (λ d s', Idx s' (del_groups F d k) ∧ Tight s' (del_groups F d k)
      ∧ off_index s s')).
    + split_and!; [| |done].
      * eapply Idx_ext; [|done]. intros [] u; cbn; [done|]. by rewrite decide_False by set_solver.
      * eapply Tight_ext; [|done]. intros [] u; cbn; [done|]. by rewrite decide_False by set_solver.
    + intros d g rest s1 _ (HI1 & HT1 & Ho1).
      eapply twp_removeConnectionFromIndex; [done..|]. intros s2 HI2 HT2 Ho2.
      split_and!; [|  |by etransitivity].
      * by eapply Idx_ext, HI2; intros; apply del_groups_snoc.
      * by eapply Tight_ext, HT2; intros; apply del_groups_snoc.
  - intros [] s' (? & ? & ?). by apply HQ.
Qed.

Lemma twp_removeFromUserIndex conn k F s (Q : unit → state → Prop) :
  let uid := UserID (Conn conn) in
  Idx s F → Tight s F →
  (∀ s' F', (∀ i u, F' i u = if (uid =? "")%string then F i u
                             else upd F userConnIndex uid (delete k) i u) →
     Idx s' F' → Tight s' F' → off_index s s' → Q tt s') →
  twp (removeFromUserIndex Conn conn k) Q s.
Proof.
  intros uid HI HT HQ. unfold removeFromUserIndex. fold uid. destruct (uid =? "")%string eqn:E.
  - by apply (HQ s F).
  - eapply twp_removeConnectionFromIndex; [done..|]. intros s' HI' HT' Ho'.
    by apply (HQ s' (upd F userConnIndex uid (delete k))).
Qed.

(** ** [add] *)

Lemma members_insert A k e i u :
  A !! k = None →
  mem (<[k := e]> A) i u = if belongs Conn i u e then <[k := a_conn e]> (mem A i u) else mem A i u.
Proof.
  intros Hk. apply map_eq. intros k'. rewrite lookup_members.
  destruct (decide (k = k')) as [<-|Hne].
  - rewrite lookup_insert_eq. destruct (belongs _ _ _ _); [by rewrite lookup_insert_eq|].
    by rewrite lookup_members, Hk.
  - rewrite lookup_insert_ne by done. destruct (belongs Conn i u e).
    + rewrite lookup_insert_ne by done. by rewrite lookup_members.
    + by rewrite lookup_members.
Qed.

(** The entry of a connection that was just added. *)
Definition added_entry (now : Z) (conn : ptr) : aentry :=
  {| a_conn := conn; a_groups := ∅; a_seen := now |}.

Lemma members_added A now conn i u :
  A !! key conn = None →
  (if (UserID (Conn conn) =? "")%string then mem A i u
   else upd (mem A) userConnIndex (UserID (Conn conn)) (insert (key conn) conn) i u)
  = mem (<[key conn := added_entry now conn]> A) i u.
Proof.
  intros Hfresh. set (uid := UserID (Conn conn)). symmetry. rewrite members_insert by done.
  unfold upd, belongs, added_entry. cbn. fold uid. destruct i.
  - destruct (String.eqb_spec uid "") as [->|Hne].
    + destruct (String.eqb_spec u ""); [done|]. by destruct u.
    + destruct (String.eqb_spec uid u) as [<-|Hne'].
      * destruct (String.eqb_spec uid ""); [done|]. cbn. by rewrite decide_True.
      * rewrite andb_false_r. by rewrite decide_False by naive_solver.
  - rewrite bool_decide_eq_false_2 by set_solver. destruct (uid =? "")%string; [done|].
    by rewrite decide_False by naive_solver.
Qed.

(** The connection joins the set of its user, if it has one. *)
Lemma twp_join_user conn A now (Q : unit → state → Prop) s :
  A !! key conn = None → Idx s (mem A) → Tight s (mem A) →
  (∀ s', Idx s' (mem (<[key conn := added_entry now conn]> A)) →
     Tight s' (mem (<[key conn := added_entry now conn]> A)) → off_index s s' → Q tt s') →
  twp (if negb (UserID (Conn conn) =? "")%string
       then set <- connectionSetFor userConnIndex (UserID (Conn conn)) ;;; set_Set set (key conn) conn
       else mret tt) Q s.
Proof.
  intros Hfresh HI HT HQ. pose proof (λ i u, members_added A now conn i u Hfresh) as Hext.
  destruct (UserID (Conn conn) =? "")%string; cbn [negb].
  - apply HQ; [by eapply Idx_ext, HI|by eapply Tight_ext, HT|done].
  - apply twp_bind. eapply twp_connectionSetFor; [done..|]. intros sp s3 HI3 HT3 Ho3 Hsp.
    eapply twp_set_Set; [done..|]. intros s4 HI4 HT4 Ho4.
    apply HQ; [by eapply Idx_ext, HI4|by eapply Tight_ext, HT4|by etransitivity].
Qed.

(** A store with one new entry under a free key. *)
Lemma RegOk_insert s A s' k e :
  RegOk s A → a_conn e ≠ nil → key (a_conn e) = k →
  sm_model (r_connections s') = <[k := r_next s]> (sm_model (r_connections s)) →
  r_entries s' = <[r_next s := entry_of e]> (r_entries s) →
  Idx s' (mem (<[k := e]> A)) → Tight s' (mem (<[k := e]> A)) →
  (r_next s < r_next s')%nat → r_fatal s' = r_fatal s → RegOk s' (<[k := e]> A).
Proof.
  intros HR Hnil Hk Hcon Hent HI HT Hnext Hfatal. constructor; [|done|done| |by rewrite Hfatal; apply HR].
  - intros k'. unfold found_ok. rewrite Hcon, Hent. destruct (decide (k = k')) as [<-|Hne].
    + rewrite !lookup_insert_eq. by split_and!.
    + rewrite !(lookup_insert_ne _ k k') by done.
      pose proof (ok_found _ _ HR k') as H. unfold found_ok in H.
      destruct (sm_model (r_connections s) !! k') as [q|] eqn:Hq, (A !! k') as [e'|]; try done.
      rewrite lookup_insert_ne; [done|]. intros <-. destruct H as [H _].
      apply (ok_fresh _ _ HR) in H. lia.
  - intros q e'. rewrite Hent. pose proof (idx_next _ _ (ok_idx _ _ HR)).
    intros [[<- _]|[_ Hq]]%lookup_insert_Some; [lia|]. apply (ok_fresh _ _ HR) in Hq. lia.
Qed.

Lemma twp_add conn A s :
  RegOk s A → (is_nil conn = false → A !! key conn = None) →
  twp (add Conn fmt_p conn)
    (λ _ s', RegOk s' (spec_add A (r_now s) conn) ∧ r_now s' = r_now s) s.
Proof.
  intros HR Hfresh. unfold add, spec_add. destruct (is_nil conn) eqn:Hnil; [done|].
  specialize (Hfresh eq_refl). fold (added_entry (r_now s) conn). set (e := added_entry (r_now s) conn).
  apply twp_bind, twp_reads, twp_bind, twp_atomically. cbn [fst snd].
  set (p := r_next s). set (s1 := set_rnext _ _).
  apply twp_bind, twp_modify. set (s2 := set_connections _ s1).
  apply twp_bind, (twp_join_user conn A (r_now s)); [done| | |fold e].
  { apply (Idx_frame s); [by intros []|done|cbn; lia|done|apply HR]. }
  { apply (Tight_frame s); [by intros []|apply HR]. }
  intros s3 HI3 HT3 Ho3.
  assert (Hent : r_entries s3 = <[p := entry_of e]> (r_entries s)) by (by rewrite (off_entries _ _ Ho3)).
  assert (Hcon : r_connections s3 = sm_Set (key conn) p (r_connections s))
    by (by rewrite (off_connections _ _ Ho3)).
  apply twp_bind, twp_lock_entry; [by unfold entry_at; rewrite Hent, lookup_insert_eq|].
  apply twp_bind, twp_connections_Get. cbn [r_connections update_entry set_entries].
  rewrite Hcon, sm_Set_model, lookup_insert_eq, bool_decide_eq_true_2 by done. cbn [negb].
  apply twp_bind. change (mret ()) with (Ret (S := state) tt). cbn [twp].
  apply twp_unlock_entry.
  { rewrite entry_at_update, decide_True by done. by rewrite Hent, lookup_insert_eq. }
  split; [|exact (off_now _ _ Ho3)].
  eapply (RegOk_insert s A); [done|by apply Nat.eqb_neq in Hnil|done| | | | | |].
  - cbn [r_connections update_entry set_entries]. by rewrite Hcon, sm_Set_model.
  - cbn. rewrite Hent. apply map_eq. intros q. fold p. destruct (decide (p = q)) as [<-|Hne].
    + by rewrite !lookup_alter_eq, lookup_insert_eq.
    + by rewrite !lookup_alter_ne, lookup_insert_ne.
  - by do 2 apply Idx_update_entry.
  - by do 2 apply Tight_update_entry.
  - pose proof (off_next _ _ Ho3) as Hn. cbn in Hn |- *. lia.
  - cbn. by rewrite (off_fatal _ _ Ho3).
Qed.
(** ** Entries, before and after *)

Lemma entries_update s p x f :
  r_entries s !! p = Some x → r_entries (update_entry p f s) = <[p := f x]> (r_entries s).
Proof.
  intros Hx. cbn. apply map_eq. intros q. destruct (decide (p = q)) as [<-|Hne].
  - by rewrite lookup_alter_eq, lookup_insert_eq, Hx.
  - by rewrite lookup_alter_ne, lookup_insert_ne.
Qed.

Lemma entry_at_lookup s p x : r_entries s !! p = Some x → entry_at s p = x.
Proof. intros Hx. unfold entry_at. by rewrite Hx. Qed.

(** One entry changed, the rest as before. *)
Lemma RegOk_update s A s' k p e e' :
  RegOk s A → sm_model (r_connections s) !! k = Some p → A !! k = Some e → a_conn e' = a_conn e →
  r_connections s' = r_connections s → r_entries s' = <[p := entry_of e']> (r_entries s) →
  (r_next s ≤ r_next s')%nat → r_fatal s' = false →
  Idx s' (mem (<[k := e']> A)) → Tight s' (mem (<[k := e']> A)) →
  RegOk s' (<[k := e']> A).
Proof.
  intros HR Hp He Hc Hcon Hent Hnext Hfat HI HT.
  destruct (RegOk_found s A k p HR Hp) as (e0 & He0 & Hep & Hk & Hnil & _). simplify_eq.
  constructor; try done.
  - intros k'. rewrite Hcon. unfold found_ok. rewrite Hent.
    destruct (decide (key (a_conn e0) = k')) as [<-|Hne].
    + rewrite Hp, !lookup_insert_eq. split_and!; try done; congruence.
    + rewrite (lookup_insert_ne A) by done.
      pose proof (ok_found _ _ HR k') as H. unfold found_ok in H.
      destruct (sm_model (r_connections s) !! k') as [q|] eqn:Hq, (A !! k') as [e1|]; try done.
      rewrite lookup_insert_ne; [done|]. intros <-. apply Hne. by apply (RegOk_inj s A _ _ p).
  - intros q x. rewrite Hent. intros [[<- _]|[_ Hq]]%lookup_insert_Some.
    + apply (ok_fresh _ _ HR) in Hep. lia.
    + apply (ok_fresh _ _ HR) in Hq. lia.
Qed.

(** One key gone; its entry is garbage. *)
Lemma RegOk_delete s A s' k p x :
  RegOk s A → sm_model (r_connections s) !! k = Some p →
  sm_model (r_connections s') = delete k (sm_model (r_connections s)) →
  r_entries s' = <[p := x]> (r_entries s) →
  (r_next s ≤ r_next s')%nat → r_fatal s' = false →
  Idx s' (mem (delete k A)) → Tight s' (mem (delete k A)) →
  RegOk s' (delete k A).
Proof.
  intros HR Hp Hcon Hent Hnext Hfat HI HT. constructor; try done.
  - intros k'. rewrite Hcon. unfold found_ok. rewrite Hent.
    destruct (decide (k = k')) as [<-|Hne]; [by rewrite !lookup_delete_eq|].
    rewrite !lookup_delete_ne by done.
    pose proof (ok_found _ _ HR k') as H. unfold found_ok in H.
    destruct (sm_model (r_connections s) !! k') as [q|] eqn:Hq, (A !! k') as [e1|]; try done.
    rewrite lookup_insert_ne; [done|]. intros <-. apply Hne. by apply (RegOk_inj s A _ _ p).
  - intros q y. rewrite Hent. intros [[<- _]|[_ Hq]]%lookup_insert_Some.
    + destruct (RegOk_found s A k p HR Hp) as (e0 & _ & Hep & _).
      apply (ok_fresh _ _ HR) in Hep. lia.
    + apply (ok_fresh _ _ HR) in Hq. lia.
Qed.

(** ** [remove] *)

(** Leaving the user index and every group is leaving the specification. *)
Lemma members_detached A k e l F i u :
  A !! k = Some e → l ≡ₚ elements (a_groups e) →
  (∀ i u, F i u = if (UserID (Conn (a_conn e)) =? "")%string then mem A i u
                  else upd (mem A) userConnIndex (UserID (Conn (a_conn e))) (delete k) i u) →
  del_groups F l k i u = mem (delete k A) i u.
Proof.
  intros He Hl HF. set (uid := UserID (Conn (a_conn e))) in *.
  assert (Hin : u ∈ l ↔ u ∈ a_groups e) by (by rewrite Hl, elem_of_elements).
  apply map_eq. intros k'. rewrite lookup_members.
  destruct (decide (k = k')) as [<-|Hne].
  - rewrite lookup_delete_eq. unfold del_groups. destruct i; rewrite !HF.
    + unfold upd. destruct (String.eqb_spec uid "") as [E|E].
      * rewrite lookup_members, He. unfold belongs. fold uid. rewrite E.
        destruct (String.eqb_spec "" u) as [<-|]; [done|]. by rewrite andb_false_r.
      * case_decide as Hd; [apply lookup_delete_eq|]. rewrite lookup_members, He. unfold belongs.
        fold uid. destruct (String.eqb_spec uid u) as [<-|]; [naive_solver|]. by rewrite andb_false_r.
    + case_decide as Hd; [apply lookup_delete_eq|].
      assert (Hm : mem A groupConnIndex u !! k = None).
      { rewrite lookup_members, He. cbn. rewrite bool_decide_eq_false_2; [done|]. tauto. }
      destruct (uid =? "")%string; [done|]. by rewrite upd_ne by naive_solver.
  - rewrite lookup_delete_ne by done. rewrite <- lookup_members. unfold del_groups, upd in *.
    destruct i; rewrite !HF; repeat case_decide; destruct (uid =? "")%string;
      rewrite ?lookup_delete_ne by done; done.
Qed.

Lemma twp_detach {B} conn k p A e (K : Mo B) (Q : B → state → Prop) s :
  Idx s (mem A) → Tight s (mem A) → A !! k = Some e → a_conn e = conn →
  e_groups (entry_at s p) = a_groups e →
  (∀ s', Idx s' (mem (delete k A)) → Tight s' (mem (delete k A)) → off_index s s' → twp K Q s') →
  twp (removeFromUserIndex Conn conn k ;;;
       groups <- groups_Range p ;;;
       for_each groups (λ group, removeConnectionFromIndex groupConnIndex group k) ;;;
       K) Q s.
Proof.
  intros HI HT He <- Hg HQ. apply twp_bind. eapply twp_removeFromUserIndex; [done..|].
  intros s1 F1 HF1 HI1 HT1 Ho1. apply twp_bind, twp_groups_Range. intros l Hl.
  unfold entry_at in Hl. rewrite (off_entries _ _ Ho1) in Hl. fold (entry_at s p) in Hl.
  rewrite Hg in Hl. apply twp_bind. eapply twp_remove_groups; [done..|].
  intros s2 HI2 HT2 Ho2. apply HQ; [| |by etransitivity].
  - by eapply Idx_ext, HI2; intros; eapply members_detached.
  - by eapply Tight_ext, HT2; intros; eapply members_detached.
Qed.

Lemma twp_remove conn A s :
  RegOk s A →
  twp (remove Conn fmt_p conn)
    (λ b s', b = (spec_remove A conn).1 ∧ RegOk s' (spec_remove A conn).2 ∧ r_now s' = r_now s) s.
Proof.
  intros HR. unfold remove, spec_remove. destruct (is_nil conn); [done|].
  apply twp_bind. eapply twp_lookup_entry; [done|by intros ->|].
  intros p e Hp He -> Hc Hep. apply twp_bind.
  apply twp_lock_entry; [by rewrite (entry_at_lookup _ _ _ Hep)|].
  apply twp_bind, twp_modify. set (s2 := set_connections _ _).
  assert (Hent : r_entries s2 = <[p := with_mu true (entry_of e)]> (r_entries s))
    by (by apply entries_update).
  assert (Hat : entry_at s2 p = with_mu true (entry_of e)).
  { apply entry_at_lookup. by rewrite Hent, lookup_insert_eq. }
  apply (twp_detach conn (key conn) p A e); try done.
  - apply Idx_set_connections, Idx_update_entry, HR.
  - apply Tight_set_connections, Tight_update_entry, HR.
  - by rewrite Hat.
  - intros s3 HI3 HT3 Ho3.
    assert (Hat3 : r_entries s3 !! p = Some (with_mu true (entry_of e))).
    { by rewrite (off_entries _ _ Ho3), Hent, lookup_insert_eq. }
    apply twp_bind, twp_unlock_entry; [by rewrite (entry_at_lookup _ _ _ Hat3)|].
    split; [done|]. split; [|exact (off_now _ _ Ho3)].
    eapply (RegOk_delete s A _ _ p); [done..| | | | | |].
    + cbn. rewrite (off_connections _ _ Ho3). cbn. apply sm_Delete_model.
    + rewrite (entries_update _ _ _ _ Hat3), (off_entries _ _ Ho3), Hent. by rewrite insert_insert_eq.
    + apply (off_next _ _ Ho3).
    + cbn. rewrite (off_fatal _ _ Ho3). apply HR.
    + by apply Idx_update_entry.
    + by apply Tight_update_entry.
Qed.
(** ** Groups *)

(** Changing the groups of one entry, seen from one set. *)
Lemma members_regroup A k e g i u k' :
  A !! k = Some e →
  mem (<[k := set_groups e g]> A) i u !! k' =
  if decide (k = k' ∧ i = groupConnIndex)
  then (if decide (u ∈ g) then Some (a_conn e) else None) else mem A i u !! k'.
Proof.
  intros He. rewrite !lookup_members. destruct (decide (k = k')) as [<-|Hne].
  - rewrite lookup_insert_eq, He. destruct i; cbn.
    + by rewrite decide_False by naive_solver.
    + rewrite decide_True by done. by destruct (decide (u ∈ g)); [rewrite bool_decide_eq_true_2|rewrite bool_decide_eq_false_2].
  - rewrite lookup_insert_ne by done. by rewrite decide_False by naive_solver.
Qed.

(** The members of one set are told apart by key. *)
Lemma members_eq A k e g i u (m : gmap string ptr) :
  A !! k = Some e →
  (i = groupConnIndex → m !! k = if decide (u ∈ g) then Some (a_conn e) else None) →
  (i ≠ groupConnIndex → m !! k = mem A i u !! k) →
  (∀ k', k ≠ k' → m !! k' = mem A i u !! k') →
  m = mem (<[k := set_groups e g]> A) i u.
Proof.
  intros He H1 H2 H3. apply map_eq. intros k'. rewrite (members_regroup _ _ _ _ _ _ _ He).
  destruct (decide (k = k')) as [<-|Hne].
  - destruct (decide (i = groupConnIndex)).
    + rewrite decide_True by done. by apply H1.
    + rewrite decide_False by tauto. by apply H2.
  - rewrite decide_False by tauto. by apply H3.
Qed.

Lemma members_group_self A k e u :
  A !! k = Some e →
  mem A groupConnIndex u !! k = if decide (u ∈ a_groups e) then Some (a_conn e) else None.
Proof.
  intros He. rewrite lookup_members, He. cbn.
  by destruct (decide _); [rewrite bool_decide_eq_true_2|rewrite bool_decide_eq_false_2].
Qed.

Lemma members_join A k e g i u :
  A !! k = Some e →
  upd (mem A) groupConnIndex g (insert k (a_conn e)) i u
  = mem (<[k := set_groups e ({[ g ]} ∪ a_groups e)]> A) i u.
Proof.
  intros He. unfold upd.
  apply (members_eq _ _ e); [done|intros ->|intros Hi|intros k' Hk].
  - case_decide as Hd.
    + destruct Hd as [_ <-]. rewrite lookup_insert_eq. by rewrite decide_True by set_solver.
    + rewrite (members_group_self _ _ _ _ He). apply decide_iff_if. set_solver.
  - by rewrite decide_False by naive_solver.
  - case_decide; [by rewrite lookup_insert_ne|done].
Qed.

Lemma members_leave A k e g i u :
  A !! k = Some e →
  upd (mem A) groupConnIndex g (delete k) i u
  = mem (<[k := set_groups e (a_groups e ∖ {[ g ]})]> A) i u.
Proof.
  intros He. unfold upd.
  apply (members_eq _ _ e); [done|intros ->|intros Hi|intros k' Hk].
  - case_decide as Hd.
    + destruct Hd as [_ <-]. rewrite lookup_delete_eq. by rewrite decide_False by set_solver.
    + rewrite (members_group_self _ _ _ _ He). apply decide_iff_if. set_solver.
  - by rewrite decide_False by naive_solver.
  - case_decide; [by rewrite lookup_delete_ne|done].
Qed.

Lemma members_leave_all A k e l i u :
  A !! k = Some e → l ≡ₚ elements (a_groups e) →
  del_groups (mem A) l k i u = mem (<[k := set_groups e ∅]> A) i u.
Proof.
  intros He Hl. assert (Hin : u ∈ l ↔ u ∈ a_groups e) by (by rewrite Hl, elem_of_elements).
  unfold del_groups. apply (members_eq _ _ e); [done|intros ->|intros Hi|intros k' Hk].
  - rewrite (decide_False (P := u ∈ ∅)) by set_solver. case_decide; [apply lookup_delete_eq|].
    rewrite (members_group_self _ _ _ _ He). by rewrite decide_False by tauto.
  - by destruct i.
  - destruct i; [done|]. case_decide; [by rewrite lookup_delete_ne|done].
Qed.

Lemma members_touch A k e t i u :
  A !! k = Some e →
  mem A i u = mem (<[k := {| a_conn := a_conn e; a_groups := a_groups e; a_seen := t |}]> A) i u.
Proof.
  intros He. apply map_eq. intros k'. rewrite !lookup_members.
  destruct (decide (k = k')) as [<-|Hne]; [by rewrite lookup_insert_eq, He|].
  by rewrite lookup_insert_ne.
Qed.

(** The locked section of joining and leaving: [work] updates the group index
    while the entry's groups become [f groups]. *)
Lemma twp_regroup conn group f (work : Mo (option error) → Mo (option error)) A s :
  let g := normalizeGroup group in
  (∀ e s' K Q, Idx s' (mem A) → Tight s' (mem A) →
     A !! key conn = Some e → a_conn e = conn →
     (∀ s'', Idx s'' (mem (<[key conn := set_groups e (f (a_groups e))]> A)) →
        Tight s'' (mem (<[key conn := set_groups e (f (a_groups e))]> A)) → off_index s' s'' →
        twp K Q s'') →
     twp (work K) Q s') →
  RegOk s A →
  twp (if (g =? "")%string then mret (Some (ErrInvalidGroup : error))
       else if is_nil conn then mret (Some (ErrConnectionNotFound : error))
       else
         found <- lookup_entry Conn fmt_p conn ;;;
         match found with
         | None => mret (Some (ErrConnectionNotFound : error))
         | Some entry =>
             lock_entry entry ;;;
             modify (update_entry entry (with_groups f)) ;;;
             work (unlock_entry entry ;;; mret None)
         end)
    (λ r s', r = (spec_regroup A conn group f).1 ∧ RegOk s' (spec_regroup A conn group f).2
       ∧ r_now s' = r_now s) s.
Proof.
  intros g Hwork HR. unfold spec_regroup. fold g. destruct (g =? "")%string; [done|].
  destruct (is_nil conn); [done|]. apply twp_bind. eapply twp_lookup_entry; [done|by intros ->|].
  intros p e Hp He -> Hc Hep. set (e' := set_groups e (f (a_groups e))).
  apply twp_bind, twp_lock_entry; [by rewrite (entry_at_lookup _ _ _ Hep)|].
  apply twp_bind, twp_modify. set (s2 := update_entry _ _ (update_entry _ _ s)).
  assert (Hent : r_entries s2 = <[p := with_mu true (entry_of e')]> (r_entries s)).
  { unfold s2. rewrite (entries_update _ p (with_mu true (entry_of e))).
    - rewrite (entries_update _ _ _ _ Hep). by rewrite insert_insert_eq.
    - by rewrite (entries_update _ _ _ _ Hep), lookup_insert_eq. }
  eapply (Hwork e); [| |done..|].
  { by do 2 apply Idx_update_entry; apply HR. }
  { by do 2 apply Tight_update_entry; apply HR. }
  intros s3 HI3 HT3 Ho3.
  assert (Hat3 : r_entries s3 !! p = Some (with_mu true (entry_of e'))).
  { by rewrite (off_entries _ _ Ho3), Hent, lookup_insert_eq. }
  apply twp_bind, twp_unlock_entry; [by rewrite (entry_at_lookup _ _ _ Hat3)|].
  split; [done|]. split; [|exact (off_now _ _ Ho3)].
  eapply (RegOk_update s A _ _ p e e'); try done.
  - exact (off_connections _ _ Ho3).
  - rewrite (entries_update _ _ _ _ Hat3), (off_entries _ _ Ho3), Hent. by rewrite insert_insert_eq.
  - apply (off_next _ _ Ho3).
  - cbn. rewrite (off_fatal _ _ Ho3). apply HR.
  - by apply Idx_update_entry.
Qed.

Lemma twp_addToGroup conn group A s :
  RegOk s A →
  twp (addToGroup Conn fmt_p conn group)
    (λ r s', r = (spec_addToGroup A conn group).1 ∧ RegOk s' (spec_addToGroup A conn group).2
       ∧ r_now s' = r_now s) s.
Proof.
  intros HR. set (g := normalizeGroup group).
  assert (H := twp_regroup conn group (union {[ g ]})
    (λ K, set <- connectionSetFor groupConnIndex g ;;; set_Set set (key conn) conn ;;; K) A s).
  cbn zeta in H. fold g in H. refine (H _ HR). clear H.
  intros e s' K Q HI HT He <- HQ. apply twp_bind.
  eapply twp_connectionSetFor; [done..|]. intros sp s1 HI1 HT1 Ho1 Hsp. apply twp_bind.
  eapply twp_set_Set; [done..|]. intros s2 HI2 HT2 Ho2.
  apply HQ; [| |by etransitivity].
  - by eapply Idx_ext, HI2; intros; apply members_join.
  - by eapply Tight_ext, HT2; intros; apply members_join.
Qed.

Lemma twp_removeFromGroup conn group A s :
  RegOk s A →
  twp (removeFromGroup Conn fmt_p conn group)
    (λ r s', r = (spec_removeFromGroup A conn group).1 ∧ RegOk s' (spec_removeFromGroup A conn group).2
       ∧ r_now s' = r_now s) s.
Proof.
  intros HR. set (g := normalizeGroup group).
  assert (H := twp_regroup conn group (λ groups, groups ∖ {[ g ]})
    (λ K, removeConnectionFromIndex groupConnIndex g (key conn) ;;; K) A s).
  cbn zeta in H. fold g in H. refine (H _ HR). clear H.
  intros e s' K Q HI HT He Hc HQ. apply twp_bind.
  eapply twp_removeConnectionFromIndex; [done..|]. intros s2 HI2 HT2 Ho2.
  apply HQ; [| |done].
  - by eapply Idx_ext, HI2; intros; apply members_leave.
  - by eapply Tight_ext, HT2; intros; apply members_leave.
Qed.
(** Leaving every group: the loop also empties the entry's own set. *)
Lemma twp_leave_groups p k e A s l x (Q : unit → state → Prop) :
  A !! k = Some e → l ≡ₚ elements (a_groups e) →
  Idx s (mem A) → Tight s (mem A) → r_entries s !! p = Some x → e_groups x = a_groups e →
  (∀ s', Idx s' (mem (<[k := set_groups e ∅]> A)) → Tight s' (mem (<[k := set_groups e ∅]> A)) →
     r_connections s' = r_connections s → r_entries s' = <[p := with_groups (λ _, ∅) x]> (r_entries s) →
     (r_next s ≤ r_next s')%nat → r_fatal s' = r_fatal s → r_now s' = r_now s → Q tt s') →
  twp (for_each l (λ group,
         removeConnectionFromIndex groupConnIndex group k ;;;
         modify (update_entry p (with_groups (λ groups, groups ∖ {[ group ]}))))) Q s.
Proof.
  intros He Hl HI HT Hx Hg HQ. set (F := mem A) in *. eapply twp_mono.
  - apply (twp_for_each l _ (λ d s', Idx s' (del_groups F d k) ∧ Tight s' (del_groups F d k)
      ∧ r_connections s' = r_connections s
      ∧ r_entries s' = <[p := with_groups (λ groups, groups ∖ list_to_set d) x]> (r_entries s)
      ∧ (r_next s ≤ r_next s')%nat ∧ r_fatal s' = r_fatal s ∧ r_now s' = r_now s)).
    + split_and!; try done.
      * eapply Idx_ext; [|done]. intros [] u; cbn; [done|]. by rewrite decide_False by set_solver.
      * eapply Tight_ext; [|done]. intros [] u; cbn; [done|]. by rewrite decide_False by set_solver.
      * rewrite insert_id; [done|]. rewrite Hx. destruct x. f_equal. unfold with_groups. cbn.
        f_equal. set_solver.
    + intros d g rest s1 _ (HI1 & HT1 & Hc1 & He1 & Hn1 & Hf1 & Hnow1).
      apply twp_bind. eapply twp_removeConnectionFromIndex; [done..|]. intros s2 HI2 HT2 Ho2.
      apply twp_modify.
      assert (Hx2 : r_entries s2 !! p = Some (with_groups (λ groups, groups ∖ list_to_set d) x)).
      { by rewrite (off_entries _ _ Ho2), He1, lookup_insert_eq. }
      split_and!.
      * apply Idx_update_entry. by eapply Idx_ext, HI2; intros; apply del_groups_snoc.
      * apply Tight_update_entry. by eapply Tight_ext, HT2; intros; apply del_groups_snoc.
      * cbn. by rewrite (off_connections _ _ Ho2).
      * rewrite (entries_update _ _ _ _ Hx2), (off_entries _ _ Ho2), He1, insert_insert_eq.
        f_equal. unfold with_groups. cbn. f_equal. rewrite list_to_set_app_L. set_solver.
      * pose proof (off_next _ _ Ho2). cbn. lia.
      * cbn. by rewrite (off_fatal _ _ Ho2).
      * cbn. by rewrite (off_now _ _ Ho2).
  - intros [] s' (HI' & HT' & Hc' & He' & Hn' & Hf' & Hnow'). apply HQ; try done.
    + by eapply Idx_ext, HI'; intros; apply members_leave_all.
    + by eapply Tight_ext, HT'; intros; apply members_leave_all.
    + rewrite He'. f_equal. unfold with_groups. f_equal. rewrite Hg, Hl. set_solver.
Qed.

Lemma twp_removeFromAllGroups conn A s :
  RegOk s A →
  twp (removeFromAllGroups Conn fmt_p conn)
    (λ _ s', RegOk s' (spec_removeFromAllGroups A conn) ∧ r_now s' = r_now s) s.
Proof.
  intros HR. unfold removeFromAllGroups, spec_removeFromAllGroups. destruct (is_nil conn); [done|].
  apply twp_bind, twp_connections_Get.
  destruct (sm_model (r_connections s) !! key conn) as [p|] eqn:Hp.
  2: { apply (RegOk_not_found s A _ HR) in Hp. split; [|done].
    replace (alter _ (key conn) A) with A; [done|].
    apply map_eq. intros k. destruct (decide (key conn = k)) as [<-|].
    - by rewrite lookup_alter_eq, Hp.
    - by rewrite lookup_alter_ne. }
  destruct (RegOk_found s A _ p HR Hp) as (e & He & Hep & Hk & Hc & Hat & _).
  replace (alter (λ e, set_groups e ∅) (key conn) A) with (<[key conn := set_groups e ∅]> A).
  2: { apply map_eq. intros k. destruct (decide (key conn = k)) as [<-|].
    - by rewrite lookup_alter_eq, lookup_insert_eq, He.
    - by rewrite lookup_alter_ne, lookup_insert_ne. }
  apply twp_bind, twp_lock_entry; [by rewrite Hat|].
  set (s1 := update_entry _ _ s).
  assert (Hent : r_entries s1 !! p = Some (with_mu true (entry_of e))).
  { unfold s1. by rewrite (entries_update _ _ _ _ Hep), lookup_insert_eq. }
  apply twp_bind, twp_groups_Range. rewrite (entry_at_lookup _ _ _ Hent). intros l Hl.
  apply twp_bind. eapply (twp_leave_groups p (key conn) e A s1); try done.
  { by apply Idx_update_entry, HR. }
  { by apply Tight_update_entry, HR. }
  intros s2 HI2 HT2 Hc2 He2 Hn2 Hf2 Hnow2.
  assert (Hx2 : r_entries s2 !! p = Some (with_groups (λ _, ∅) (with_mu true (entry_of e)))).
  { by rewrite He2, lookup_insert_eq. }
  apply twp_unlock_entry; [by rewrite (entry_at_lookup _ _ _ Hx2)|].
  split; [|done]. eapply (RegOk_update s A _ _ p e); try done.
  - rewrite (entries_update _ _ _ _ Hx2), He2, insert_insert_eq.
    unfold s1. rewrite (entries_update _ _ _ _ Hep). by rewrite insert_insert_eq.
  - cbn. rewrite Hf2. apply HR.
  - by apply Idx_update_entry.
Qed.

(** ** Heartbeats *)

Lemma twp_touch conn A s :
  RegOk s A →
  twp (touch Conn fmt_p conn)
    (λ _ s', RegOk s' (spec_touch A (r_now s) conn) ∧ r_now s' = r_now s) s.
Proof.
  intros HR. unfold touch, spec_touch. destruct (is_nil conn); [done|].
  apply twp_bind. eapply twp_lookup_entry; [done|by intros ->|].
  intros p e Hp He -> Hc Hep. apply twp_bind, twp_reads, twp_modify.
  set (e' := {| a_conn := _; a_groups := _; a_seen := _ |}). split; [|done].
  eapply (RegOk_update s A _ _ p e e'); try done.
  - by rewrite (entries_update _ _ _ _ Hep).
  - apply HR.
  - apply Idx_update_entry. eapply Idx_ext, HR. intros. by apply members_touch.
  - apply Tight_update_entry. eapply Tight_ext, HR. intros. by apply members_touch.
Qed.
(** The candidates of the first loop, in the order of the range. *)
Definition candidate_of s (deadline : Z) (kp : string * ptr) : bool :=
  e_lastSeen (entry_at s kp.2) <? deadline.

Lemma twp_collect_expired deadline A s :
  RegOk s A →
  twp (collect_expired deadline)
    (λ l s', s' = s ∧ l = filter (λ kp, candidate_of s deadline kp = true) (sm_Range (r_connections s))) s.
Proof.
  intros HR. apply twp_bind, twp_reads. eapply twp_mono.
  - apply (twp_fold_each _ _ _ (λ d acc s', s' = s ∧
      acc = filter (λ kp, candidate_of s deadline kp = true) d)); [done|].
    intros d [k p] rest acc s' Hsplit [-> ->].
    assert (Hp : sm_model (r_connections s) !! k = Some p).
    { apply elem_of_map_to_list. rewrite <- sm_Range_model, Hsplit. set_solver. }
    destruct (RegOk_found s A k p HR Hp) as (e & He & Hep & Hk & Hc & Hat & Hnil).
    apply twp_bind. unfold entry_conn. rewrite Hnil. apply twp_reads.
    rewrite Hat. cbn [e_conn entry_of]. unfold is_nil. destruct (Nat.eqb_spec (a_conn e) nil); [done|].
    apply twp_bind, twp_reads. rewrite filter_app. split; [done|].
    rewrite filter_cons, filter_nil. unfold candidate_of. cbn [snd].
    destruct (e_lastSeen (entry_at s p) <? deadline); [by rewrite decide_True|].
    rewrite decide_False by done. by rewrite app_nil_r.
  - by intros l s' [-> ->].
Qed.

Lemma twp_expire_entry deadline acc k p e A s :
  RegOk s A → sm_model (r_connections s) !! k = Some p → A !! k = Some e → a_seen e < deadline →
  twp (expire_entry Conn deadline acc (k, p))
    (λ acc' s', acc' = acc ++ [a_conn e] ∧ RegOk s' (delete k A) ∧ r_now s' = r_now s
       ∧ sm_model (r_connections s') = delete k (sm_model (r_connections s))) s.
Proof.
  intros HR Hp He Hold. destruct (RegOk_found s A k p HR Hp) as (e0 & He0 & Hep & Hk & Hc & Hat & _).
  simplify_eq. unfold expire_entry. apply twp_bind, twp_lock_entry; [by rewrite Hat|].
  set (s1 := update_entry p (with_mu true) s).
  assert (Hent : r_entries s1 = <[p := with_mu true (entry_of e0)]> (r_entries s))
    by (by apply entries_update).
  assert (Hat1 : entry_at s1 p = with_mu true (entry_of e0)).
  { apply entry_at_lookup. by rewrite Hent, lookup_insert_eq. }
  apply twp_bind, twp_connections_Get. change (r_connections s1) with (r_connections s).
  rewrite Hp, bool_decide_eq_true_2 by done. cbn [negb].
  apply twp_bind, twp_reads. rewrite Hat1. cbn [e_lastSeen with_mu entry_of].
  destruct (Z.leb_spec deadline (a_seen e0)); [lia|].
  apply twp_bind, twp_modify. apply twp_bind, twp_reads.
  change (entry_at (set_connections _ s1) p) with (entry_at s1 p). rewrite Hat1.
  cbn [e_conn with_mu entry_of].
  eapply (twp_detach (a_conn e0) _ p A e0); try done.
  - apply Idx_set_connections, Idx_update_entry, HR.
  - apply Tight_set_connections, Tight_update_entry, HR.
  - change (entry_at (set_connections _ s1) p) with (entry_at s1 p). by rewrite Hat1.
  - intros s3 HI3 HT3 Ho3.
    assert (Hat3 : r_entries s3 !! p = Some (with_mu true (entry_of e0))).
    { rewrite (off_entries _ _ Ho3). change (r_entries (set_connections _ s1)) with (r_entries s1).
      by rewrite Hent, lookup_insert_eq. }
    assert (Hcon : sm_model (r_connections s3) = delete (key (a_conn e0)) (sm_model (r_connections s))).
    { rewrite (off_connections _ _ Ho3). cbn. apply sm_Delete_model. }
    apply twp_bind, twp_unlock_entry; [by rewrite (entry_at_lookup _ _ _ Hat3)|].
    split; [done|]. split; [|split; [exact (off_now _ _ Ho3)|exact Hcon]].
    eapply (RegOk_delete s A _ _ p); [done|done|exact Hcon| | | | |].
    + rewrite (entries_update _ _ _ _ Hat3), (off_entries _ _ Ho3).
      change (r_entries (set_connections _ s1)) with (r_entries s1).
      rewrite Hent. by rewrite insert_insert_eq.
    + apply (off_next _ _ Ho3).
    + cbn. rewrite (off_fatal _ _ Ho3). apply HR.
    + by apply Idx_update_entry.
    + by apply Tight_update_entry.
Qed.
(** The candidates, and what the loop over them finds. *)
Definition candidates s (deadline : Z) : list (string * ptr) :=
  filter (λ kp, candidate_of s deadline kp = true) (sm_Range (r_connections s)).

Lemma elem_of_candidates s deadline k p :
  (k, p) ∈ candidates s deadline
  ↔ sm_model (r_connections s) !! k = Some p ∧ candidate_of s deadline (k, p) = true.
Proof. unfold candidates. rewrite list_elem_of_filter, sm_Range_model, elem_of_map_to_list. tauto. Qed.

Lemma candidates_NoDup s deadline : NoDup (candidates s deadline).*1.
Proof. apply NoDup_fst_filter. rewrite sm_Range_model. apply NoDup_fst_map_to_list. Qed.

(** An old entry of the map, under the key of a candidate. *)
Definition old_entry (A : areg) s (deadline : Z) (kp : string * ptr) : Prop :=
  ∃ e, A !! kp.1 = Some e ∧ a_seen e < deadline ∧ sm_model (r_connections s) !! kp.1 = Some kp.2.

Lemma candidates_old A s deadline :
  RegOk s A → Forall (old_entry A s deadline) (candidates s deadline).
Proof.
  intros HR. apply Forall_forall. intros [k p] [Hp Hcand]%elem_of_candidates.
  destruct (RegOk_found s A k p HR Hp) as (e & He & _ & _ & _ & Hat & _).
  exists e. split_and!; try done. unfold candidate_of in Hcand. cbn in Hcand. rewrite Hat in Hcand.
  cbn in Hcand. lia.
Qed.

Lemma candidates_keys A s deadline k :
  RegOk s A → k ∈ (candidates s deadline).*1 ↔ is_Some (spec_expired A deadline !! k).
Proof.
  intros HR. rewrite list_elem_of_fmap. split.
  - intros ([k' p] & -> & Hkp).
    pose proof (candidates_old A s deadline HR) as Hold. rewrite Forall_forall in Hold.
    destruct (Hold _ Hkp) as (e & He & Hlt & _). exists e.
    apply map_lookup_filter_Some. split; [done|]. unfold is_expired. lia.
  - intros [e [He Hex]%map_lookup_filter_Some].
    pose proof (ok_found _ _ HR k) as Hf. unfold found_ok in Hf. rewrite He in Hf.
    destruct (sm_model (r_connections s) !! k) as [p|] eqn:Hp; [|done].
    exists (k, p). split; [done|]. apply elem_of_candidates. split; [done|]. unfold candidate_of. cbn.
    destruct Hf as [Hf _]. by rewrite (entry_at_lookup _ _ _ Hf).
Qed.

Lemma drop_keys_nil A : drop_keys A [] = A.
Proof. apply map_eq. intros k. by rewrite lookup_drop_keys, decide_False by set_solver. Qed.

Lemma drop_candidates A s deadline :
  RegOk s A → drop_keys A (candidates s deadline).*1 = spec_alive A deadline.
Proof.
  intros HR. apply map_eq. intros k. rewrite lookup_drop_keys. unfold spec_alive.
  rewrite map_lookup_filter. case_decide as Hk.
  - apply (candidates_keys A) in Hk as [e [He Hex]%map_lookup_filter_Some]; [|done].
    rewrite He. cbn. by rewrite Hex.
  - destruct (A !! k) as [e|] eqn:He; [|done]. cbn. destruct (is_expired deadline e) eqn:Hex; [|done].
    exfalso. apply Hk, (candidates_keys A); [done|]. exists e. by apply map_lookup_filter_Some.
Qed.

Lemma twp_expire_all deadline cands A s :
  RegOk s A → NoDup cands.*1 → Forall (old_entry A s deadline) cands →
  twp (fold_each cands [] (expire_entry Conn deadline))
    (λ l s', RegOk s' (drop_keys A cands.*1) ∧ r_now s' = r_now s ∧ l = mjoin (conn_at A <$> cands)) s.
Proof.
  intros HR Hnd Hold. rewrite Forall_forall in Hold. eapply twp_mono.
  - apply (twp_fold_each _ _ _ (λ d acc s', RegOk s' (drop_keys A d.*1) ∧ r_now s' = r_now s
      ∧ acc = mjoin (conn_at A <$> d)
      ∧ ∀ k, k ∉ d.*1 → sm_model (r_connections s') !! k = sm_model (r_connections s) !! k)).
    + cbn. rewrite drop_keys_nil. done.
    + intros d [k p] rest acc s1 Hsplit (HR1 & Hnow1 & -> & Hsame).
      destruct (Hold (k, p)) as (e & He & Hlt & Hp); [rewrite Hsplit; set_solver|]. cbn in He, Hp.
      assert (Hkd : k ∉ d.*1).
      { rewrite Hsplit, fmap_app in Hnd. apply NoDup_app in Hnd as (_ & Hnd & _).
        intros H. apply (Hnd k H). cbn. set_solver. }
      eapply twp_mono.
      { apply (twp_expire_entry deadline _ k p e); [done| | |done].
        - by rewrite Hsame.
        - by rewrite lookup_drop_keys, decide_False by done. }
      intros acc' s2 (-> & HR2 & Hnow2 & Hcon2). rewrite !fmap_app. cbn [fmap list_fmap].
      split_and!; [by rewrite <- drop_keys_snoc|congruence| |].
      * rewrite join_app. cbn. unfold conn_at at 3. cbn. rewrite He. by rewrite app_nil_r.
      * intros k' Hk'. rewrite Hcon2, lookup_delete_ne by set_solver. apply Hsame. set_solver.
  - intros l s' (H1 & H2 & H3 & _). done.
Qed.

Lemma twp_expired now timeout A s :
  RegOk s A →
  let deadline := i64 (now - timeout) in
  twp (expired Conn now timeout)
    (λ l s', RegOk s' (if timeout <=? 0 then A else spec_alive A deadline)
       ∧ r_now s' = r_now s
       ∧ l ≡ₚ (if timeout <=? 0 then [] else conns_of (spec_expired A deadline))) s.
Proof.
  intros HR deadline. unfold expired. destruct (timeout <=? 0); [done|]. fold deadline.
  apply twp_bind. eapply twp_mono; [by eapply twp_collect_expired|]. intros cands s' [-> Hc].
  fold (candidates s deadline) in Hc. pose proof (drop_candidates A s deadline HR) as Halive.
  assert (Hperm : mjoin (conn_at A <$> cands) ≡ₚ conns_of (spec_expired A deadline)).
  { rewrite Hc. apply conns_perm; [apply candidates_NoDup| |apply map_filter_subseteq].
    intros k. by apply candidates_keys. }
  pose proof (twp_expire_all deadline cands A s HR) as Hloop. rewrite <- Hc in Halive.
  destruct cands as [|c cands].
  - split_and!; [|done|exact Hperm]. rewrite <- Halive. by rewrite drop_keys_nil.
  - eapply twp_mono; [apply Hloop; rewrite Hc; [apply candidates_NoDup|by apply candidates_old]|].
    intros l s' (H1 & H2 & ->). by rewrite <- Halive.
Qed.
End ops.
