(* ===== verification/RegistryReads.v ===== *)
(** * The queries of the registry against the specification

    Snapshots exist in two variants, over a fresh slice and over a pooled one;
    the loops they share are proved once, for any way of appending. *)

From Stdlib Require Import Ascii String.
From S2P Require Import Prelude GoStd GoText Errors Proc Connection Registry.
From S2P Require Import RegistrySpec RegistryOps.

Local Open Scope Z_scope.
Local Open Scope go_scope.

(** The ids a snapshot visits: each one once, in order of first occurrence. *)
Fixpoint first_ids (seen : gset string) (ids : list string) : list string :=
  match ids with
  | [] => []
  | id :: ids =>
      if (id =? "")%string then first_ids seen ids
      else if bool_decide (id ∈ seen) then first_ids seen ids
      else id :: first_ids ({[ id ]} ∪ seen) ids
  end.

Lemma first_ids_elem seen ids id : id ∈ first_ids seen ids ↔ id ∈ ids ∧ id ≠ ""%string ∧ id ∉ seen.
Proof.
  revert seen. induction ids as [|a ids IH]; intros seen; cbn; [set_solver|].
  destruct (String.eqb_spec a "") as [->|Ha]; [rewrite IH; set_solver|].
  case_bool_decide as Hs; [rewrite IH; set_solver|].
  rewrite elem_of_cons, IH, elem_of_cons, not_elem_of_union, not_elem_of_singleton.
  destruct (decide (id = a)) as [->|]; naive_solver.
Qed.

Lemma first_ids_NoDup seen ids : NoDup (first_ids seen ids).
Proof.
  revert seen. induction ids as [|a ids IH]; intros seen; cbn; [constructor|].
  destruct (a =? "")%string; [done|]. case_bool_decide; [done|].
  constructor; [|done]. rewrite first_ids_elem. set_solver.
Qed.

Definition spec_ids (A : areg) (ids : list string) : list ptr :=
  omap (λ id, a_conn <$> A !! id) (first_ids ∅ ids).

Definition values (m : gmap string ptr) : list ptr := (map_to_list m).*2.

Section reads.
Context {M : Type → Type} `{!ShardMap M} `{!ShardMapLaws M} {P : Type} `{!SlicePool P}.
Context (Conn : ptr → connInfo) (fmt_p : ptr → string).

Local Abbreviation state := (rstate M P).
Local Abbreviation Mo := (proc (rstate M P)).
Local Abbreviation mem := (members Conn).
Local Abbreviation RegOk := (RegOk Conn fmt_p).

Implicit Types s : state.
Implicit Types A : areg.

(** The connections of the given users. *)
Definition of_users (ids : list string) (A : areg) : areg :=
  filter (λ '(_, e), UserID (Conn (a_conn e)) ≠ ""%string ∧ UserID (Conn (a_conn e)) ∈ ids) A.

(** Equal but for the slice pool. *)
Definition same_reg s s' : Prop := s' = set_slices (r_slices s') (r_nextArray s') s.

#[export] Instance same_reg_PreOrder : PreOrder same_reg.
Proof.
  split; [by intros []|]. intros s1 s2 s3 H1 H2. unfold same_reg in *.
  rewrite H2, H1. done.
Qed.

Lemma same_reg_slices s p n : same_reg s (set_slices p n s).
Proof. done. Qed.

Lemma RegOk_same s s' A : same_reg s s' → RegOk s A → RegOk s' A.
Proof.
  intros -> HR. constructor; try apply HR. eapply Idx_frame, HR; [by intros []|done..].
Qed.

Lemma same_reg_now s s' : same_reg s s' → r_now s' = r_now s.
Proof. by intros ->. Qed.

(** ** Sizes *)

Lemma twp_index_Len i u A s :
  RegOk s A →
  twp (found <- index_Get i u ;;; match found with None => mret 0 | Some set => set_Len set end)
    (λ n s', s' = s ∧ n = Z.of_nat (size (mem A i u))) s.
Proof.
  intros HR. apply twp_bind, twp_index_Get.
  destruct (sm_model (get_index i s) !! u) as [sp|] eqn:Hu.
  - apply twp_set_Len. split; [done|].
    by destruct (Idx_set_at s _ i u sp (ok_idx _ _ _ _ HR) Hu) as [-> _].
  - pose proof (idx_ok _ _ (ok_idx _ _ _ _ HR) i u) as Hok. rewrite Hu in Hok.
    by rewrite Hok, map_size_empty.
Qed.

Lemma twp_connections_Len A s :
  RegOk s A → twp connections_Len (λ n s', s' = s ∧ n = Z.of_nat (size A)) s.
Proof.
  intros HR. apply twp_reads. split; [done|]. rewrite sm_Len_model. f_equal.
  rewrite <- !size_dom. f_equal. apply set_eq. intros k. rewrite !elem_of_dom.
  pose proof (ok_found _ _ _ _ HR k) as H. unfold found_ok in H.
  destruct (_ !! k), (A !! k); naive_solver.
Qed.

(** ** Ways of appending *)

Class Appends {B} (get : B → list ptr) (visit : B → ptr → Mo B) : Prop :=
  twp_visit b c s : twp (visit b c) (λ b' s', get b' = get b ++ [c] ∧ same_reg s s') s.

#[export] Instance Appends_list : Appends id (λ connections conn, mret (connections ++ [conn])).
Proof. intros b c s. cbn. split; [done|reflexivity]. Qed.

#[export] Instance Appends_slice : Appends cs_conns append_conn.
Proof.
  intros b c s. unfold append_conn. destruct (_ <=? _).
  - cbn. split; [done|reflexivity].
  - by apply twp_atomically.
Qed.

Lemma twp_getConnectionSlice n s :
  twp (getConnectionSlice n) (λ b s', cs_conns b = [] ∧ same_reg s s') s.
Proof.
  unfold getConnectionSlice. destruct (_ <=? _); [cbn; split; [done|reflexivity]|].
  apply twp_atomically. by destruct (sp_Get _ _ _) as [[b p] m].
Qed.

(** ** By connection id *)

Lemma twp_lookup_conn cid A s :
  RegOk s A →
  twp (lookup_conn cid)
    (λ c s', s' = s ∧ match A !! cid with Some e => c = a_conn e ∧ is_nil c = false | None => c = nil end) s.
Proof.
  intros HR. apply twp_bind, twp_connections_Get.
  destruct (sm_model (r_connections s) !! cid) as [p|] eqn:Hp.
  - destruct (RegOk_found _ _ s A cid p HR Hp) as (e & -> & _ & _ & Hc & Hat & Hnil).
    unfold entry_conn. rewrite Hnil. apply twp_reads. rewrite Hat. cbn.
    split_and!; try done. unfold is_nil. by apply Nat.eqb_neq.
  - rewrite (RegOk_not_found _ _ s A _ HR Hp). done.
Qed.

Lemma first_ids_app seen d ids :
  first_ids seen (d ++ ids) = first_ids seen d ++ first_ids (seen ∪ list_to_set (first_ids seen d)) ids.
Proof.
  revert seen. induction d as [|a d IH]; intros seen; cbn.
  - f_equal. set_solver.
  - destruct (a =? "")%string; [apply IH|]. case_bool_decide; [apply IH|].
    cbn. f_equal. rewrite IH. do 2 f_equal. set_solver.
Qed.

Lemma twp_snapshot_ids {B} (get : B → list ptr) visit `{!Appends get visit} ids b0 A s :
  RegOk s A →
  twp (snapshot_ids ids b0 visit)
    (λ b s', get b = get b0 ++ spec_ids A ids ∧ same_reg s s') s.
Proof.
  intros HR. apply twp_bind. eapply twp_mono.
  - apply (twp_fold_each _ _ _ (λ d '(b, seen) s',
      seen = list_to_set (first_ids ∅ d) ∧ get b = get b0 ++ spec_ids A d ∧ same_reg s s')).
    + split_and!; [done| |reflexivity]. unfold spec_ids. cbn. by rewrite app_nil_r.
    + intros d cid rest [b seen] s1 _ (-> & Hb & Hs1).
      assert (Hids : first_ids ∅ (d ++ [cid]) = first_ids ∅ d ++
        (if (cid =? "")%string then [] else if bool_decide (cid ∈ (list_to_set (first_ids ∅ d) : gset string))
         then [] else [cid])).
      { rewrite first_ids_app. cbn. f_equal. destruct (cid =? "")%string; [done|].
        rewrite union_empty_l_L. by case_bool_decide. }
      assert (Hskip : first_ids ∅ (d ++ [cid]) = first_ids ∅ d →
        list_to_set (first_ids ∅ d) = (list_to_set (first_ids ∅ (d ++ [cid])) : gset string)
        ∧ get b = get b0 ++ spec_ids A (d ++ [cid]) ∧ same_reg s s1).
      { intros E. unfold spec_ids in *. by rewrite E. }
      destruct (cid =? "")%string eqn:Ecid; [apply Hskip; by rewrite Hids, app_nil_r|].
      case_bool_decide as Hin; [apply Hskip; by rewrite Hids, app_nil_r|].
      assert (Hset : {[cid]} ∪ list_to_set (first_ids ∅ d)
        = (list_to_set (first_ids ∅ (d ++ [cid])) : gset string)).
      { rewrite Hids, list_to_set_app_L. cbn. set_solver. }
      apply twp_bind. eapply twp_mono; [eapply twp_lookup_conn, RegOk_same; [exact Hs1|exact HR]|].
      intros c s2 [-> Hc]. destruct (A !! cid) as [e|] eqn:He.
      * destruct Hc as [-> ->]. apply twp_bind. eapply twp_mono; [apply Appends0|].
        intros b' s3 [Hb' Hs3]. split_and!; [done| |by etransitivity].
        rewrite Hb', Hb, <- app_assoc. f_equal. unfold spec_ids.
        rewrite Hids, omap_app. cbn. by rewrite He.
      * subst c. split_and!; [done| |done]. rewrite Hb. f_equal. unfold spec_ids.
        rewrite Hids, omap_app. cbn. by rewrite He, app_nil_r.
  - intros [b seen] s' (_ & ? & ?). done.
Qed.

Lemma twp_connectionSnapshot ids A s :
  RegOk s A → twp (connectionSnapshot ids) (λ l s', l = spec_ids A ids ∧ same_reg s s') s.
Proof.
  intros HR. destruct ids as [|cid [|cid2 ids]].
  - split; [done|reflexivity].
  - unfold connectionSnapshot, spec_ids. cbn [first_ids]. destruct (cid =? "")%string; [split; [done|reflexivity]|].
    apply twp_bind. eapply twp_mono; [by eapply twp_lookup_conn|]. intros c s' [-> Hc].
    rewrite bool_decide_eq_false_2 by set_solver. cbn [omap list_omap].
    destruct (A !! cid) as [e|]; [destruct Hc as [-> ->]|subst c]; split; try done; reflexivity.
  - eapply twp_mono; [by apply (twp_snapshot_ids id)|]. intros l s' [Hl ?]. done.
Qed.

Lemma twp_connectionSnapshotPooled ids A s :
  RegOk s A →
  twp (connectionSnapshotPooled ids) (λ b s', cs_conns b = spec_ids A ids ∧ same_reg s s') s.
Proof.
  intros HR. destruct ids as [|cid [|cid2 ids]].
  - split; [done|reflexivity].
  - unfold connectionSnapshotPooled, spec_ids. cbn [first_ids]. destruct (cid =? "")%string; [split; [done|reflexivity]|].
    apply twp_bind. eapply twp_mono; [by eapply twp_lookup_conn|]. intros c s' [-> Hc].
    rewrite bool_decide_eq_false_2 by set_solver. cbn [omap list_omap].
    destruct (A !! cid) as [e|]; [destruct Hc as [-> ->]|subst c; split; [done|reflexivity]].
    apply twp_bind. eapply twp_mono; [apply twp_getConnectionSlice|]. intros b s1 [Hb Hs1].
    eapply twp_mono; [apply Appends_slice|]. intros b' s2 [Hb' Hs2].
    split; [by rewrite Hb', Hb|by etransitivity].
  - apply twp_bind. eapply twp_mono; [apply twp_getConnectionSlice|]. intros b s1 [Hb Hs1].
    eapply twp_mono; [eapply (twp_snapshot_ids cs_conns append_conn), RegOk_same; [exact Hs1|exact HR]|].
    intros b' s2 [Hb' Hs2]. split; [by rewrite Hb', Hb|by etransitivity].
Qed.
(** ** Sets *)

Lemma values_members A i u :
  values (mem A i u) ≡ₚ conns_of (filter (λ '(_, e), belongs Conn i u e = true) A).
Proof.
  assert (E : mem A i u = a_conn <$> filter (λ '(_, e), belongs Conn i u e = true) A).
  { apply map_eq. intros k. rewrite lookup_members, lookup_fmap, map_lookup_filter.
    destruct (A !! k) as [e|]; [|done]. cbn. by destruct (belongs Conn i u e). }
  unfold values, conns_of. rewrite E, map_to_list_fmap, <- list_fmap_compose.
  erewrite list_fmap_ext; [reflexivity|]. by intros ? [k e] _.
Qed.

Lemma members_not_nil A s i u k c : RegOk s A → mem A i u !! k = Some c → is_nil c = false.
Proof.
  intros HR Hc. rewrite lookup_members in Hc. destruct (A !! k) as [e|] eqn:He; [|done].
  pose proof (ok_found _ _ _ _ HR k) as H. unfold found_ok in H. rewrite He in H.
  destruct (sm_model (r_connections s) !! k) as [p|]; [|done]. destruct H as (_ & _ & H).
  destruct (belongs _ _ _ _); [|done]. injection Hc as <-. unfold is_nil. by apply Nat.eqb_neq.
Qed.

(** The range of a set: every member once. *)
Lemma twp_set_Range i u sp A s (Q : list (string * ptr) → state → Prop) :
  RegOk s A → sm_model (get_index i s) !! u = Some sp →
  (∀ l, l ≡ₚ map_to_list (mem A i u) → (∀ k c, (k, c) ∈ l → is_nil c = false) → NoDup l.*1 → Q l s) →
  twp (set_Range sp) Q s.
Proof.
  intros HR Hu HQ. apply twp_reads.
  destruct (Idx_set_at s _ i u sp (ok_idx _ _ _ _ HR) Hu) as [Hset _].
  assert (Hl : sm_Range (set_at s sp) ≡ₚ map_to_list (mem A i u)) by (by rewrite sm_Range_model, Hset).
  apply HQ; [done| |].
  - intros k c. rewrite Hl, elem_of_map_to_list. by eapply members_not_nil.
  - rewrite Hl. apply NoDup_fst_map_to_list.
Qed.

(** Appending the elements of a range that are not nil. *)
Lemma twp_append_range {B} (get : B → list ptr) visit `{!Appends get visit} (l : list (string * ptr)) b0 s :
  (∀ k c, (k, c) ∈ l → is_nil c = false) →
  twp (fold_each l b0 (λ b '(_, c), if is_nil c then mret b else visit b c))
    (λ b s', get b = get b0 ++ l.*2 ∧ same_reg s s') s.
Proof.
  intros Hl. apply (twp_fold_each _ _ _ (λ d b s', get b = get b0 ++ d.*2 ∧ same_reg s s')).
  - split; [by rewrite app_nil_r|reflexivity].
  - intros d [k c] rest b s1 Hsplit [Hb Hs1]. rewrite (Hl k c) by (rewrite Hsplit; set_solver).
    eapply twp_mono; [apply Appends0|]. intros b' s2 [Hb' Hs2].
    split; [by rewrite Hb', Hb, fmap_app, <- app_assoc|by etransitivity].
Qed.

Definition index_conns (i : index) (u : string) A : list ptr := values (mem A i u).

Lemma twp_index_conns i u A s :
  RegOk s A →
  twp (found <- index_Get i u ;;;
       match found with None => mret [] | Some set => copyConnectionSet set end)
    (λ l s', l ≡ₚ index_conns i u A ∧ same_reg s s') s.
Proof.
  intros HR. unfold index_conns. apply twp_bind, twp_index_Get.
  destruct (sm_model (get_index i s) !! u) as [sp|] eqn:Hu.
  - destruct (Idx_set_at s _ i u sp (ok_idx _ _ _ _ HR) Hu) as [_ Hnil].
    unfold copyConnectionSet. rewrite Hnil. apply twp_bind.
    eapply twp_set_Range; [done..|]. intros l Hl Hn _. split; [|reflexivity].
    replace (filter _ l.*2) with l.*2; [unfold values; by rewrite Hl|].
    symmetry. apply filter_all. intros c Hc. apply list_elem_of_fmap in Hc as ([k c'] & -> & Hin).
    by eapply Hn.
  - pose proof (idx_ok _ _ (ok_idx _ _ _ _ HR) i u) as Hok. rewrite Hu in Hok.
    rewrite Hok. split; [done|reflexivity].
Qed.

Lemma twp_index_conns_pooled i u A s :
  RegOk s A →
  twp (found <- index_Get i u ;;;
       match found with None => mret nilSlice | Some set => copyConnectionSetPooled set end)
    (λ b s', cs_conns b ≡ₚ index_conns i u A ∧ same_reg s s') s.
Proof.
  intros HR. unfold index_conns. apply twp_bind, twp_index_Get.
  destruct (sm_model (get_index i s) !! u) as [sp|] eqn:Hu.
  - destruct (Idx_set_at s _ i u sp (ok_idx _ _ _ _ HR) Hu) as [_ Hnil].
    unfold copyConnectionSetPooled. rewrite Hnil. apply twp_bind, twp_set_Len.
    apply twp_bind. eapply twp_mono; [apply twp_getConnectionSlice|]. intros b s1 [Hb Hs1].
    assert (HR1 : RegOk s1 A) by (by eapply RegOk_same).
    assert (Hu1 : sm_model (get_index i s1) !! u = Some sp) by (rewrite Hs1; by destruct i).
    apply twp_bind. eapply twp_set_Range; [done..|]. intros l Hl Hn _.
    eapply twp_mono; [exact (twp_append_range cs_conns append_conn l b s1 Hn)|]. intros b' s2 [Hb' Hs2].
    split; [|by etransitivity]. rewrite Hb', Hb. unfold values. by rewrite Hl.
  - pose proof (idx_ok _ _ (ok_idx _ _ _ _ HR) i u) as Hok. rewrite Hu in Hok.
    rewrite Hok. split; [done|reflexivity].
Qed.

(** ** All connections *)

Lemma twp_Range_entries A s (Q : list (string * ptr) → state → Prop) :
  RegOk s A →
  (∀ l, NoDup l.*1 → (∀ k, k ∈ l.*1 ↔ is_Some (A !! k)) →
     (∀ k p, (k, p) ∈ l → sm_model (r_connections s) !! k = Some p) → Q l s) →
  twp connections_Range Q s.
Proof.
  intros HR HQ. apply twp_reads. apply HQ.
  - rewrite sm_Range_model. apply NoDup_fst_map_to_list.
  - intros k. rewrite list_elem_of_fmap. pose proof (ok_found _ _ _ _ HR k) as H. unfold found_ok in H.
    split.
    + intros ([k' p] & -> & Hin). rewrite sm_Range_model in Hin. apply elem_of_map_to_list in Hin. cbn in *.
      rewrite Hin in H. destruct (A !! k'); [eauto|done].
    + intros [e He]. rewrite He in H. destruct (sm_model (r_connections s) !! k) as [p|] eqn:Hp; [|done].
      exists (k, p). split; [done|]. rewrite sm_Range_model. by apply elem_of_map_to_list.
  - intros k p. rewrite sm_Range_model. by rewrite elem_of_map_to_list.
Qed.

(** The loop over the entries, for any way of appending. *)
Lemma twp_visit_entries {B} (get : B → list ptr) visit `{!Appends get visit} (l : list (string * ptr)) b0 A s :
  RegOk s A → (∀ k p, (k, p) ∈ l → sm_model (r_connections s) !! k = Some p) →
  twp (fold_each l b0 (λ b '(_, entry),
         conn <- entry_conn entry ;;; if is_nil conn then mret b else visit b conn))
    (λ b s', get b = get b0 ++ mjoin (conn_at A <$> l) ∧ same_reg s s') s.
Proof.
  intros HR Hl. apply (twp_fold_each _ _ _ (λ d b s',
    get b = get b0 ++ mjoin (conn_at A <$> d) ∧ same_reg s s')).
  - split; [by rewrite app_nil_r|reflexivity].
  - intros d [k p] rest b s1 Hsplit [Hb Hs1].
    assert (Hp : sm_model (r_connections s1) !! k = Some p).
    { rewrite Hs1. apply Hl. rewrite Hsplit. set_solver. }
    assert (HR1 : RegOk s1 A) by (by eapply RegOk_same).
    destruct (RegOk_found _ _ s1 A k p HR1 Hp) as (e & He & _ & _ & Hc & Hat & Hnil).
    apply twp_bind. unfold entry_conn. rewrite Hnil. apply twp_reads. rewrite Hat. cbn [e_conn entry_of].
    unfold is_nil. destruct (Nat.eqb_spec (a_conn e) nil); [done|].
    eapply twp_mono; [apply Appends0|]. intros b' s2 [Hb' Hs2].
    split; [|by etransitivity]. rewrite Hb', Hb, fmap_app, join_app, <- app_assoc. cbn.
    unfold conn_at at 3. cbn. by rewrite He.
Qed.

Lemma size_zero A : Z.of_nat (size A) = 0 → A = ∅.
Proof. intros H. apply map_size_empty_inv. lia. Qed.

Lemma twp_allConnections A s :
  RegOk s A → twp allConnections (λ l s', l ≡ₚ conns_of A ∧ same_reg s s') s.
Proof.
  intros HR. apply twp_bind. eapply twp_mono; [by eapply twp_connections_Len|].
  intros n s' [-> ->]. destruct (Z.eqb_spec (Z.of_nat (size A)) 0) as [Hz|_].
  { rewrite (size_zero A Hz). split; [done|reflexivity]. }
  apply twp_bind. eapply twp_Range_entries; [done|]. intros l Hnd Hdom Hl.
  assert (Hext : twp (fold_each l [] (λ b '(_, entry),
      conn <- entry_conn entry ;;; if is_nil conn then mret b else mret (b ++ [conn])))
    (λ b s', b = [] ++ mjoin (conn_at A <$> l) ∧ same_reg s s') s).
  { exact (twp_visit_entries id (λ b c, mret (b ++ [c])) l [] A s HR Hl). }
  eapply twp_mono.
  - eapply twp_fold_ext; [|exact Hext]. intros b [k p]. unfold entry_conn.
    intros Q s'. destruct (is_nil p); cbn; [done|]. intros [_ H]. split; [done|].
    intros c s2 Hin. specialize (H c s2 Hin). by destruct (is_nil c).
  - intros b s' [-> ?]. split; [|done]. by apply conns_perm.
Qed.

Lemma twp_allConnectionsPooled A s :
  RegOk s A → twp allConnectionsPooled (λ b s', cs_conns b ≡ₚ conns_of A ∧ same_reg s s') s.
Proof.
  intros HR. apply twp_bind. eapply twp_mono; [by eapply twp_connections_Len|].
  intros n s' [-> ->]. destruct (Z.eqb_spec (Z.of_nat (size A)) 0) as [Hz|_].
  { rewrite (size_zero A Hz). split; [done|reflexivity]. }
  apply twp_bind. eapply twp_mono; [by eapply twp_connections_Len|]. intros n s' [-> ->].
  apply twp_bind. eapply twp_mono; [apply twp_getConnectionSlice|]. intros b s1 [Hb Hs1].
  assert (HR1 : RegOk s1 A) by (by eapply RegOk_same).
  apply twp_bind. eapply twp_Range_entries; [done|]. intros l Hnd Hdom Hl.
  eapply twp_mono; [eapply (twp_visit_entries cs_conns append_conn); [exact HR1|exact Hl]|].
  intros b' s2 [Hb' Hs2].
  split; [|by etransitivity]. rewrite Hb', Hb. cbn. by apply conns_perm.
Qed.
(** ** By user *)

(** The visited keys: [L] has each key of [m] once, [b] got their connections. *)
Definition visited {B} (get : B → list ptr) A b0 (D : string → Prop) (b : B) (seen : gset string) s s' : Prop :=
  ∃ L : list (string * ptr), NoDup L.*1 ∧ (∀ k, k ∈ L.*1 ↔ D k) ∧ seen = list_to_set L.*1
    ∧ get b = get b0 ++ mjoin (conn_at A <$> L) ∧ same_reg s s'.

Lemma lookup_of_users d A k :
  is_Some (of_users d A !! k) ↔
  ∃ e, A !! k = Some e ∧ UserID (Conn (a_conn e)) ≠ ""%string ∧ UserID (Conn (a_conn e)) ∈ d.
Proof.
  unfold of_users. split.
  - intros [e He]. apply map_lookup_filter_Some in He. naive_solver.
  - intros (e & He & H). exists e. by apply map_lookup_filter_Some.
Qed.

Lemma member_of_user A u k c :
  mem A userConnIndex u !! k = Some c ↔
  ∃ e, A !! k = Some e ∧ a_conn e = c ∧ UserID (Conn (a_conn e)) = u ∧ u ≠ ""%string.
Proof.
  rewrite lookup_members. destruct (A !! k) as [e|]; [|naive_solver]. unfold belongs.
  destruct (String.eqb_spec u "") as [Hu|Hu], (String.eqb_spec (UserID (Conn (a_conn e))) u);
    cbn; naive_solver.
Qed.

(** One more user. *)
Lemma of_users_snoc d u A k :
  is_Some (of_users (d ++ [u]) A !! k) ↔
  is_Some (of_users d A !! k) ∨ is_Some (mem A userConnIndex u !! k).
Proof.
  rewrite !lookup_of_users. unfold is_Some. setoid_rewrite member_of_user.
  setoid_rewrite elem_of_app. setoid_rewrite list_elem_of_singleton.
  split; [|naive_solver].
  intros (e & He & Hne & [Hin|Hin]); [left; by exists e|right; exists (a_conn e), e].
  split_and!; try done. congruence.
Qed.

Lemma twp_visit_users {B} (get : B → list ptr) visit `{!Appends get visit} b0 D b seen
    (l : list (string * ptr)) A s s1 :
  visited get A b0 D b seen s s1 →
  NoDup l.*1 → (∀ k c, (k, c) ∈ l → is_nil c = false ∧ conn_at A (k, c) = [c]) →
  twp (fold_each l (b, seen) (λ '(b, seen) '(k, c),
         if bool_decide (k ∈ seen) then mret (b, seen)
         else
           let seen := {[ k ]} ∪ seen in
           if is_nil c then mret (b, seen)
           else b <- visit b c ;;; mret (b, seen)))
    (λ '(b, seen) s', visited get A b0 (λ k, D k ∨ k ∈ l.*1) b seen s s') s1.
Proof.
  intros H0 Hnd Hl.
  apply (twp_fold_each _ _ _ (λ d '(b, seen) s', visited get A b0 (λ k, D k ∨ k ∈ d.*1) b seen s s')).
  - destruct H0 as (L & H1 & H2 & H3 & H4 & H5). exists L. split_and!; try done.
    intros k. rewrite H2. set_solver.
  - intros d [k c] rest [b1 seen1] s2 Hsplit (L & HL & Hdom & -> & Hb & Hs).
    destruct (Hl k c) as [Hnil Hc]; [rewrite Hsplit; set_solver|].
    case_bool_decide as Hin.
    + exists L. split_and!; try done. intros k'. rewrite Hdom, fmap_app, elem_of_app. cbn.
      rewrite list_elem_of_singleton. split; [tauto|]. intros [?|[?| ->]]; try tauto.
      apply Hdom. set_solver.
    + rewrite Hnil. apply twp_bind. eapply twp_mono; [apply Appends0|]. intros b2 s3 [Hb2 Hs3].
      exists (L ++ [(k, c)]). rewrite !fmap_app, join_app. cbn [fmap list_fmap fst mjoin list_join].
      split_and!.
      * apply NoDup_app. split_and!; [done| |apply NoDup_singleton]. intros x Hx ->%list_elem_of_singleton.
        apply Hin. set_solver.
      * intros k'. rewrite elem_of_app, Hdom, elem_of_app, !list_elem_of_singleton. tauto.
      * rewrite list_to_set_app_L. cbn. set_solver.
      * rewrite Hb2, Hb, Hc, app_nil_r, <- app_assoc. done.
      * by etransitivity.
Qed.

Lemma visited_ext {B} (get : B → list ptr) A b0 D D' b seen s s' :
  (∀ k, D k ↔ D' k) → visited get A b0 D b seen s s' → visited get A b0 D' b seen s s'.
Proof. intros H (L & ? & HL & ?). exists L. setoid_rewrite <- H. done. Qed.

Lemma twp_snapshot_users {B} (get : B → list ptr) visit `{!Appends get visit} ids b0 A s :
  RegOk s A →
  twp (snapshot_users ids b0 visit)
    (λ b s', ∃ l, get b = get b0 ++ l ∧ l ≡ₚ conns_of (of_users ids A) ∧ same_reg s s') s.
Proof.
  intros HR. apply twp_bind. eapply twp_mono.
  - apply (twp_fold_each _ _ _ (λ d '(b, seen) s',
      visited get A b0 (λ k, is_Some (of_users d A !! k)) b seen s s')).
    + exists []. split_and!; [constructor| |done|by rewrite app_nil_r|reflexivity].
      intros k. rewrite lookup_of_users. set_solver.
    + intros d u rest [b seen] s1 _ HV.
      assert (Hskip : (∀ k, mem A userConnIndex u !! k = None) →
        visited get A b0 (λ k, is_Some (of_users (d ++ [u]) A !! k)) b seen s s1).
      { intros Hno. eapply visited_ext, HV. intros k. rewrite of_users_snoc, (Hno k).
        split; [tauto|]. intros [?|[]]; done. }
      destruct (String.eqb_spec u "") as [->|Hu].
      { apply Hskip. intros k. destruct (_ !! k) eqn:E; [|done]. apply member_of_user in E. naive_solver. }
      assert (HR1 : RegOk s1 A) by (destruct HV as (L & _ & _ & _ & _ & Hs1); by eapply RegOk_same).
      apply twp_bind, twp_index_Get.
      destruct (sm_model (get_index userConnIndex s1) !! u) as [sp|] eqn:Hsp.
      2: { apply Hskip. intros k. pose proof (idx_ok _ _ (ok_idx _ _ _ _ HR1) userConnIndex u) as Hok.
        rewrite Hsp in Hok. by rewrite Hok, lookup_empty. }
      apply twp_bind. eapply twp_set_Range; [done..|]. intros l Hl Hn Hnd.
      assert (Hm : ∀ k c, (k, c) ∈ l ↔ mem A userConnIndex u !! k = Some c)
        by (intros k c; by rewrite Hl, elem_of_map_to_list).
      eapply twp_mono.
      * apply (twp_visit_users get visit b0 _ b seen l A s s1 HV Hnd). intros k c Hkc.
        split; [by eapply Hn|]. apply Hm, member_of_user in Hkc as (e & He & <- & _).
        unfold conn_at. cbn. by rewrite He.
      * intros [b' seen'] s2. apply visited_ext. intros k. rewrite of_users_snoc. f_equiv.
        rewrite list_elem_of_fmap. split.
        -- intros ([k' c] & -> & Hkc). apply Hm in Hkc. eauto.
        -- intros [c Hc]. exists (k, c). split; [done|]. by apply Hm.
  - intros [b seen] s' (L & HL & Hdom & _ & Hb & Hs). exists (mjoin (conn_at A <$> L)).
    split; [done|]. split; [|done]. by apply (conns_perm A); [..|apply map_filter_subseteq].
Qed.

(** The sum of the sizes is zero only when there is nothing to visit. *)
Lemma twp_user_total ids A s :
  RegOk s A →
  twp (user_total ids) (λ n s', s' = s ∧ (n = 0 → of_users ids A = ∅)) s.
Proof.
  intros HR. eapply twp_mono.
  - apply (twp_fold_each _ _ _ (λ d n s', s' = s ∧ 0 ≤ n ∧ (n = 0 → ∀ k, of_users d A !! k = None))).
    + split_and!; [done..|]. intros _ k. apply eq_None_not_Some. rewrite lookup_of_users. set_solver.
    + intros d u rest n s' _ (-> & Hn & Hz).
      assert (Hskip : (∀ k, mem A userConnIndex u !! k = None) →
        s = s ∧ 0 ≤ n ∧ (n = 0 → ∀ k, of_users (d ++ [u]) A !! k = None)).
      { intros Hno. split_and!; [done..|]. intros H0 k. apply eq_None_not_Some.
        rewrite of_users_snoc, (Hno k), (Hz H0 k). by intros [[]|[]]. }
      destruct (String.eqb_spec u "") as [->|Hu].
      { apply Hskip. intros k. destruct (_ !! k) eqn:E; [|done]. apply member_of_user in E. naive_solver. }
      apply twp_bind, twp_index_Get.
      pose proof (idx_ok _ _ (ok_idx _ _ _ _ HR) userConnIndex u) as Hok.
      destruct (sm_model (get_index userConnIndex s) !! u) as [sp|] eqn:Hsp.
      2: { apply Hskip. intros k. by rewrite Hok, lookup_empty. }
      apply twp_bind, twp_set_Len.
      destruct (Idx_set_at s _ _ _ _ (ok_idx _ _ _ _ HR) Hsp) as [-> _].
      split_and!; [done|lia|]. intros H0 k. apply eq_None_not_Some. rewrite of_users_snoc, (Hz ltac:(lia) k).
      rewrite (map_size_empty_inv (mem A userConnIndex u)) by lia. rewrite lookup_empty. by intros [[]|[]].
  - intros n s' (-> & _ & Hz). split; [done|]. intros H0. apply map_eq. intros k.
    by rewrite lookup_empty, Hz.
Qed.

Lemma index_conns_user u A :
  u ≠ ""%string → index_conns userConnIndex u A ≡ₚ conns_of (of_users [u] A).
Proof.
  intros Hu. unfold index_conns. rewrite values_members.
  replace (filter (λ '(_, e), belongs Conn userConnIndex u e = true) A) with (of_users [u] A); [done|].
  apply map_filter_ext. intros k e _. unfold belongs.
  destruct (String.eqb_spec u ""), (String.eqb_spec (UserID (Conn (a_conn e))) u); cbn; set_solver.
Qed.

Lemma of_users_none A : of_users [] A = ∅ ∧ of_users [""%string] A = ∅.
Proof.
  split; apply map_eq; intros k; rewrite lookup_empty; apply eq_None_not_Some;
    rewrite lookup_of_users; set_solver.
Qed.

Lemma twp_userSnapshot ids A s :
  RegOk s A → twp (userSnapshot ids) (λ l s', l ≡ₚ conns_of (of_users ids A) ∧ same_reg s s') s.
Proof.
  intros HR. destruct (of_users_none A) as [E0 E1]. destruct ids as [|u [|u2 ids]].
  - rewrite E0. split; [done|reflexivity].
  - unfold userSnapshot. destruct (String.eqb_spec u "") as [->|Hu].
    + rewrite E1. split; [done|reflexivity].
    + eapply twp_mono; [by apply (twp_index_conns userConnIndex u A)|]. intros l s' [-> ?].
      by rewrite index_conns_user.
  - apply twp_bind. eapply twp_mono; [by eapply twp_user_total|]. intros n s' [-> Hz].
    destruct (Z.eqb_spec n 0) as [H0|_]; [rewrite (Hz H0); split; [done|reflexivity]|].
    eapply twp_mono; [by apply (twp_snapshot_users id)|]. intros l s' (l' & Hl & ? & ?).
    cbn in Hl. by subst l.
Qed.

Lemma twp_userSnapshotPooled ids A s :
  RegOk s A →
  twp (userSnapshotPooled ids) (λ b s', cs_conns b ≡ₚ conns_of (of_users ids A) ∧ same_reg s s') s.
Proof.
  intros HR. destruct (of_users_none A) as [E0 E1]. destruct ids as [|u [|u2 ids]].
  - rewrite E0. split; [done|reflexivity].
  - unfold userSnapshotPooled. destruct (String.eqb_spec u "") as [->|Hu].
    + rewrite E1. split; [done|reflexivity].
    + eapply twp_mono; [by apply (twp_index_conns_pooled userConnIndex u A)|]. intros l s' [-> ?].
      by rewrite index_conns_user.
  - apply twp_bind. eapply twp_mono; [by eapply twp_user_total|]. intros n s' [-> Hz].
    destruct (Z.eqb_spec n 0) as [H0|_]; [rewrite (Hz H0); split; [done|reflexivity]|].
    apply twp_bind. eapply twp_mono; [apply twp_getConnectionSlice|]. intros b s1 [Hb Hs1].
    eapply twp_mono; [eapply (twp_snapshot_users cs_conns append_conn), RegOk_same; [exact Hs1|exact HR]|].
    intros b' s2 (l & Hl & Hp & Hs2). rewrite Hl, Hb. split; [done|by etransitivity].
Qed.

(** ** The next heartbeat *)

Lemma twp_nextExpiration timeout A s :
  RegOk s A →
  twp (nextExpiration timeout)
    (λ r s', s' = s ∧ r = if (0 <? timeout) && negb (Z.of_nat (size A) =? 0)
                          then (goquot timeout 2, true) else (0, false)) s.
Proof.
  intros HR. unfold nextExpiration. destruct (Z.leb_spec timeout 0).
  - by destruct (Z.ltb_spec 0 timeout); [lia|].
  - apply twp_bind. eapply twp_mono; [by eapply twp_connections_Len|]. intros n s' [-> ->].
    destruct (Z.ltb_spec 0 timeout); [|lia]. by destruct (Z.eqb_spec (Z.of_nat (size A)) 0).
Qed.
End reads.
