(* ===== verification/RegistryProps.v ===== *)
(** * The registry refines its specification

    [reg_op] lists the methods of [connectionRegistry], [run_op] runs one and
    [spec_next] and [spec_result] say what it does to the specification.  The theorems:
    every method refines its specification; what a client can conclude from it about
    snapshots, removal and groups.  Whole histories of calls are in RegistryHistory.v. *)

From Stdlib Require Import Ascii String.
From S2P Require Import Prelude GoStd GoText Errors Proc Connection ConnectionProps.
From S2P Require Import Registry RegistrySpec RegistryOps RegistryReads.

Local Open Scope Z_scope.
Local Open Scope go_scope.

Inductive reg_op :=
| OpAdd (conn : ptr)
| OpRemove (conn : ptr)
| OpTouch (conn : ptr)
| OpAddToGroup (conn : ptr) (group : string)
| OpRemoveFromGroup (conn : ptr) (group : string)
| OpRemoveFromAllGroups (conn : ptr)
| OpExpired (now timeout : Z)
| OpTick (d : Z)                        (* time passes *)
| OpUserOnline (userID : string)
| OpGroupOnline (group : string)
| OpUserConnections (userID : string)
| OpGroupConnections (group : string) (pooled : bool)
| OpAllConnections (pooled : bool)
| OpConnectionSnapshot (connectionIDs : list string) (pooled : bool)
| OpUserSnapshot (userIDs : list string) (pooled : bool)
| OpNextExpiration (timeout : Z).

Inductive reg_res :=
| RUnit
| RBool (b : bool)
| RErr (e : option error)
| RNum (n : Z)
| RConns (l : list ptr)
| RWait (w : Z * bool).

(** The simplest sharded map. *)
#[export] Instance gmap_shards : ShardMap (gmap string) := {
  sm_New _ _ := ∅;
  sm_Get _ m k := m !! k;
  sm_Set _ k v m := <[k := v]> m;
  sm_Delete _ k m := delete k m;
  sm_Len _ m := Z.of_nat (size m);
  sm_Range _ m := map_to_list m;
}.

#[export] Instance gmap_shards_laws : ShardMapLaws (gmap string).
Proof. by refine {| sm_model _ m := m |}. Defined.

Section props.
Context {M : Type → Type} `{!ShardMap M} `{!ShardMapLaws M} {P : Type} `{!SlicePool P}.
Context (Conn : ptr → connInfo) (fmt_p : ptr → string).

Local Abbreviation state := (rstate M P).
Local Abbreviation Mo := (proc (rstate M P)).
Local Abbreviation key := (connectionKey Conn fmt_p).
Local Abbreviation RegOk := (RegOk Conn fmt_p).
Local Abbreviation index_conns := (index_conns Conn).

Implicit Types s : state.
Implicit Types A : areg.

(** A pooled snapshot, used and released. *)
Definition pooled_snapshot (p : Mo connSlice) : Mo reg_res :=
  b <- p ;;;
  putConnectionSlice b ;;;
  mret (RConns (cs_conns b)).

Definition run_op (op : reg_op) : Mo reg_res :=
  match op with
  | OpAdd conn => add Conn fmt_p conn ;;; mret RUnit
  | OpRemove conn => b <- remove Conn fmt_p conn ;;; mret (RBool b)
  | OpTouch conn => touch Conn fmt_p conn ;;; mret RUnit
  | OpAddToGroup conn group => e <- addToGroup Conn fmt_p conn group ;;; mret (RErr e)
  | OpRemoveFromGroup conn group => e <- removeFromGroup Conn fmt_p conn group ;;; mret (RErr e)
  | OpRemoveFromAllGroups conn => removeFromAllGroups Conn fmt_p conn ;;; mret RUnit
  | OpExpired now timeout => l <- expired Conn now timeout ;;; mret (RConns l)
  | OpTick d => modify (λ s, set_now (r_now s + d) s) ;;; mret RUnit
  | OpUserOnline userID => n <- userOnline userID ;;; mret (RNum n)
  | OpGroupOnline group => n <- groupOnline group ;;; mret (RNum n)
  | OpUserConnections userID => l <- userConnections userID ;;; mret (RConns l)
  | OpGroupConnections group false => l <- groupConnections group ;;; mret (RConns l)
  | OpGroupConnections group true => pooled_snapshot (groupConnectionsPooled group)
  | OpAllConnections false => l <- allConnections ;;; mret (RConns l)
  | OpAllConnections true => pooled_snapshot allConnectionsPooled
  | OpConnectionSnapshot ids false => l <- connectionSnapshot ids ;;; mret (RConns l)
  | OpConnectionSnapshot ids true => pooled_snapshot (connectionSnapshotPooled ids)
  | OpUserSnapshot ids false => l <- userSnapshot ids ;;; mret (RConns l)
  | OpUserSnapshot ids true => pooled_snapshot (userSnapshotPooled ids)
  | OpNextExpiration timeout => w <- nextExpiration timeout ;;; mret (RWait w)
  end.

(** The specification after the call. *)
Definition spec_next (op : reg_op) A (now : Z) : areg * Z :=
  match op with
  | OpAdd conn => (spec_add Conn fmt_p A now conn, now)
  | OpRemove conn => ((spec_remove Conn fmt_p A conn).2, now)
  | OpTouch conn => (spec_touch Conn fmt_p A now conn, now)
  | OpAddToGroup conn group => ((spec_addToGroup Conn fmt_p A conn group).2, now)
  | OpRemoveFromGroup conn group => ((spec_removeFromGroup Conn fmt_p A conn group).2, now)
  | OpRemoveFromAllGroups conn => (spec_removeFromAllGroups Conn fmt_p A conn, now)
  | OpExpired t timeout => (if timeout <=? 0 then A else spec_alive A (i64 (t - timeout)), now)
  | OpTick d => (A, now + d)
  | _ => (A, now)
  end.

(** The results the call may give. *)
Definition spec_result (op : reg_op) A (r : reg_res) : Prop :=
  match op with
  | OpAdd _ | OpTouch _ | OpRemoveFromAllGroups _ | OpTick _ => r = RUnit
  | OpRemove conn => r = RBool (spec_remove Conn fmt_p A conn).1
  | OpAddToGroup conn group => r = RErr (spec_addToGroup Conn fmt_p A conn group).1
  | OpRemoveFromGroup conn group => r = RErr (spec_removeFromGroup Conn fmt_p A conn group).1
  | OpExpired t timeout => ∃ l, r = RConns l
      ∧ l ≡ₚ if timeout <=? 0 then [] else conns_of (spec_expired A (i64 (t - timeout)))
  | OpUserOnline u => r = RNum (Z.of_nat (size (members Conn A userConnIndex u)))
  | OpGroupOnline g => r = RNum (Z.of_nat (size (members Conn A groupConnIndex g)))
  | OpUserConnections u => ∃ l, r = RConns l ∧ l ≡ₚ index_conns userConnIndex u A
  | OpGroupConnections g _ => ∃ l, r = RConns l ∧ l ≡ₚ index_conns groupConnIndex g A
  | OpAllConnections _ => ∃ l, r = RConns l ∧ l ≡ₚ conns_of A
  | OpConnectionSnapshot ids _ => r = RConns (spec_ids A ids)
  | OpUserSnapshot ids _ => ∃ l, r = RConns l ∧ l ≡ₚ conns_of (of_users Conn ids A)
  | OpNextExpiration timeout =>
      r = RWait (if (0 <? timeout) && negb (Z.of_nat (size A) =? 0)
                 then (goquot timeout 2, true) else (0, false))
  end.

(** A connection is added once: its key is not in use. *)
Definition allowed (op : reg_op) A : Prop :=
  match op with OpAdd conn => is_nil conn = false → A !! key conn = None | _ => True end.

Lemma twp_pooled (p : Mo connSlice) (R : list ptr → Prop) (spec : reg_res → Prop) s A :
  RegOk s A → twp p (λ b s', R (cs_conns b) ∧ same_reg s s') s → (∀ l, R l → spec (RConns l)) →
  twp (pooled_snapshot p) (λ r s', spec r ∧ RegOk s' A ∧ r_now s' = r_now s) s.
Proof.
  intros HR Hp Hspec. apply twp_bind. eapply twp_mono; [exact Hp|]. intros b s1 [Hb Hs1].
  assert (HR1 : RegOk s1 A) by (by eapply RegOk_same).
  pose proof (same_reg_now _ _ Hs1) as Hnow.
  apply twp_bind. unfold putConnectionSlice. destruct (_ =? _).
  - cbn. auto.
  - apply twp_modify. split; [by apply Hspec|]. split; [|done]. eapply RegOk_same, HR1. done.
Qed.

Lemma twp_query {X} (p : Mo X) (f : X → reg_res) (R : X → Prop) (spec : reg_res → Prop) s A :
  RegOk s A → twp p (λ x s', R x ∧ same_reg s s') s → (∀ x, R x → spec (f x)) →
  twp (x <- p ;;; mret (f x)) (λ r s', spec r ∧ RegOk s' A ∧ r_now s' = r_now s) s.
Proof.
  intros HR Hp Hspec. apply twp_bind. eapply twp_mono; [exact Hp|]. intros x s1 [Hx Hs1].
  split; [by apply Hspec|]. split; [by eapply RegOk_same|by apply same_reg_now].
Qed.

Lemma same_of_eq {X} (p : Mo X) (R : X → Prop) s :
  twp p (λ x s', s' = s ∧ R x) s → twp p (λ x s', R x ∧ same_reg s s') s.
Proof. intros Hp. eapply twp_mono; [exact Hp|]. intros x s' [-> ?]. by split. Qed.

Lemma op_refines op A s :
  RegOk s A → allowed op A →
  twp (run_op op)
    (λ r s', spec_result op A r ∧ RegOk s' (spec_next op A (r_now s)).1
       ∧ r_now s' = (spec_next op A (r_now s)).2) s.
Proof.
  intros HR Hal.
  destruct op as [c|c|c|c g|c g|c|n t|d|u|g|u|g []|[]|ids []|ids []|t];
    cbn [spec_next spec_result run_op fst snd].
  - apply twp_bind. eapply twp_mono; [by apply twp_add|]. by intros [] s' [? ?].
  - apply twp_bind. eapply twp_mono; [by apply twp_remove|]. by intros b s' (-> & ? & ?).
  - apply twp_bind. eapply twp_mono; [by apply twp_touch|]. by intros [] s' [? ?].
  - apply twp_bind. eapply twp_mono; [by apply twp_addToGroup|]. by intros b s' (-> & ? & ?).
  - apply twp_bind. eapply twp_mono; [by apply twp_removeFromGroup|]. by intros b s' (-> & ? & ?).
  - apply twp_bind. eapply twp_mono; [by apply twp_removeFromAllGroups|]. by intros [] s' [? ?].
  - apply twp_bind. eapply twp_mono; [by apply twp_expired|]. intros l s' (? & ? & ?).
    split; [by exists l|done].
  - apply twp_bind, twp_modify. split; [done|]. split; [|done].
    constructor; try apply HR. eapply Idx_frame, HR; [by intros []|done..].
  - eapply twp_query; [done|by eapply same_of_eq, twp_index_Len|by intros ? ->].
  - eapply twp_query; [done|by eapply same_of_eq, twp_index_Len|by intros ? ->].
  - eapply twp_query; [done|by eapply twp_index_conns|eauto].
  - eapply (twp_pooled _ (λ l, l ≡ₚ index_conns groupConnIndex g A)); [done|by eapply twp_index_conns_pooled|eauto].
  - eapply twp_query; [done|by eapply twp_index_conns|eauto].
  - eapply (twp_pooled _ (λ l, l ≡ₚ conns_of A)); [done|by eapply twp_allConnectionsPooled|eauto].
  - eapply twp_query; [done|by eapply twp_allConnections|eauto].
  - eapply (twp_pooled _ (λ l, l = spec_ids A ids)); [done|by eapply twp_connectionSnapshotPooled|by intros ? ->].
  - eapply twp_query; [done|by eapply twp_connectionSnapshot|by intros ? ->].
  - eapply (twp_pooled _ (λ l, l ≡ₚ conns_of (of_users Conn ids A)));
      [done|by eapply twp_userSnapshotPooled|eauto].
  - eapply twp_query; [done|by eapply twp_userSnapshot|eauto].
  - eapply twp_query; [done|by eapply same_of_eq, twp_nextExpiration|by intros ? ->].
Qed.
(** ** Histories *)

Fixpoint run_ops (l : list reg_op) : Mo (list reg_res) :=
  match l with
  | [] => mret []
  | op :: l => r <- run_op op ;;; rs <- run_ops l ;;; mret (r :: rs)
  end.

Fixpoint spec_run (l : list reg_op) A (now : Z) : areg * Z :=
  match l with
  | [] => (A, now)
  | op :: l => let '(A', now') := spec_next op A now in spec_run l A' now'
  end.

Fixpoint spec_results (l : list reg_op) A (now : Z) (rs : list reg_res) : Prop :=
  match l, rs with
  | [], [] => True
  | op :: l, r :: rs =>
      spec_result op A r ∧ let '(A', now') := spec_next op A now in spec_results l A' now' rs
  | _, _ => False
  end.

(** Every key is free when a connection is added under it. *)
Fixpoint allowed_run (l : list reg_op) A (now : Z) : Prop :=
  match l with
  | [] => True
  | op :: l => allowed op A ∧ let '(A', now') := spec_next op A now in allowed_run l A' now'
  end.

Lemma twp_run_ops l A s :
  RegOk s A → allowed_run l A (r_now s) →
  twp (run_ops l)
    (λ rs s', spec_results l A (r_now s) rs ∧ RegOk s' (spec_run l A (r_now s)).1
       ∧ r_now s' = (spec_run l A (r_now s)).2) s.
Proof.
  revert A s. induction l as [|op l IH]; intros A s HR; cbn [run_ops spec_run allowed_run]; [done|].
  intros [Hop Hl]. apply twp_bind. eapply twp_mono; [by apply op_refines|].
  intros r s1 (Hr & HR1 & Hnow1).
  destruct (spec_next op A (r_now s)) as [A1 now1] eqn:E. cbn [fst snd] in *. subst now1.
  apply twp_bind. eapply twp_mono; [by apply (IH A1)|].
  intros rs s2 (Hrs & HR2 & Hnow2). split; [|done]. cbn. by rewrite E.
Qed.

Lemma new_RegOk (pool : P) now : RegOk (newConnectionRegistry pool now) ∅.
Proof.
  constructor; cbn; try done.
  - intros k. unfold newConnectionMap. by rewrite sm_New_model, lookup_empty.
  - assert (Hnew : ∀ i, sm_model (get_index i (newConnectionRegistry pool now : state)) = ∅).
    { intros []; apply sm_New_model. }
    constructor; cbn; try done; try lia.
    + intros i u. rewrite Hnew, lookup_empty. apply map_eq. intros k.
      by rewrite lookup_members, !lookup_empty.
    + intros i u i' u' sp. by rewrite Hnew, lookup_empty.
  - intros i u sp H. exfalso. destruct i; cbn in H; unfold newConnectionSetIndex in H;
      by rewrite sm_New_model, lookup_empty in H.
Qed.

(** C4. The registry refines a finite map: from every state that represents
    [A], each method, run alone, never blocks, ends in a state that represents
    the specification's next map, and gives a result the specification allows
    (for snapshots: exactly the connections it lists). *)
Theorem registry_refines op A s (HR : RegOk s A) (Hop : allowed op A) :
  twp (run_op op)
    (λ r s', spec_result op A r ∧ RegOk s' (spec_next op A (r_now s)).1
       ∧ r_now s' = (spec_next op A (r_now s)).2) s.
Proof. by apply op_refines. Qed.

(** ** What clients rely on *)

Lemma conns_of_spec A c : c ∈ conns_of A ↔ ∃ k e, A !! k = Some e ∧ a_conn e = c.
Proof.
  unfold conns_of. rewrite list_elem_of_fmap. split.
  - intros ([k e] & -> & Hin). apply elem_of_map_to_list in Hin. eauto.
  - intros (k & e & He & <-). exists (k, e). split; [done|]. by apply elem_of_map_to_list.
Qed.

Lemma RegOk_key s A k e : RegOk s A → A !! k = Some e → key (a_conn e) = k.
Proof.
  intros HR He. pose proof (ok_found _ _ _ _ HR k) as H. unfold found_ok in H. rewrite He in H.
  destruct (sm_model (r_connections s) !! k); [|done]. by destruct H as (_ & ? & _).
Qed.

Lemma conns_of_NoDup s A m : RegOk s A → m ⊆ A → NoDup (conns_of m).
Proof.
  intros HR Hm. unfold conns_of. apply NoDup_fmap_2_strong; [|apply NoDup_map_to_list].
  intros [k1 e1] [k2 e2] H1%elem_of_map_to_list H2%elem_of_map_to_list Heq.
  pose proof (RegOk_key s A k1 e1 HR (lookup_weaken _ _ _ _ H1 Hm)).
  pose proof (RegOk_key s A k2 e2 HR (lookup_weaken _ _ _ _ H2 Hm)).
  assert (k1 = k2) as -> by congruence. congruence.
Qed.

Lemma twp_user_snapshot_exact ids A s :
  RegOk s A →
  twp (userSnapshotPooled ids) (λ b s', (NoDup (cs_conns b) ∧ ∀ c, c ∈ cs_conns b ↔
    ∃ k e, A !! k = Some e ∧ a_conn e = c ∧ UserID (Conn c) ∈ ids ∧ UserID (Conn c) ≠ ""%string)
    ∧ same_reg s s') s.
Proof.
  intros HR. eapply twp_mono; [by eapply twp_userSnapshotPooled|]. intros b s' [Hb ?].
  split; [|done]. rewrite Hb. split.
  - eapply conns_of_NoDup; [done|apply map_filter_subseteq].
  - intros c. rewrite Hb, conns_of_spec. split.
    + intros (k & e & [He Hf]%map_lookup_filter_Some & <-). naive_solver.
    + intros (k & e & He & <- & ? & ?). exists k, e. split; [|done]. by apply map_lookup_filter_Some.
Qed.

Lemma spec_ids_exact ids A s :
  RegOk s A →
  NoDup (spec_ids A ids)
  ∧ ∀ c, c ∈ spec_ids A ids ↔ ∃ k e, A !! k = Some e ∧ a_conn e = c ∧ k ∈ ids ∧ k ≠ ""%string.
Proof.
  intros HR. unfold spec_ids. split.
  - assert (H : ∀ l, NoDup l → NoDup (omap (λ id, a_conn <$> A !! id) l)); [|apply H, first_ids_NoDup].
    induction 1 as [|k l Hk Hnd IH]; cbn; [constructor|].
    destruct (A !! k) as [e|] eqn:He; [|done]. cbn. constructor; [|done].
    intros (k' & Hk' & Hc)%list_elem_of_omap. apply fmap_Some in Hc as (e' & He' & Heq).
    apply Hk. pose proof (RegOk_key s A k e HR He). pose proof (RegOk_key s A k' e' HR He').
    congruence.
  - intros c. rewrite list_elem_of_omap. setoid_rewrite first_ids_elem. split.
    + intros (k & (? & ? & _) & (e & ? & ->)%fmap_Some). eauto 10.
    + intros (k & e & He & <- & ? & ?). exists k. split; [set_solver|]. by rewrite He.
Qed.

(** C26. Removal is complete and happens once: when [remove] reports true, the
    connection was registered, afterwards its key is in no user and no group
    set, no set of an index is empty, and a second [remove] reports false. *)
Theorem remove_leaves_no_trace conn A s (HR : RegOk s A) :
  twp (remove Conn fmt_p conn)
    (λ b s', b = true →
       (∃ e, A !! key conn = Some e ∧ a_conn e = conn)
       ∧ (∀ i u sp, sm_model (get_index i s') !! u = Some sp →
            ∃ m, r_sets s' !! sp = Some m ∧ sm_model m !! key conn = None ∧ sm_model m ≠ ∅)
       ∧ twp (remove Conn fmt_p conn) (λ b' _, b' = false) s') s.
Proof.
  eapply twp_mono; [by apply twp_remove|]. intros b s' (Hb & HR' & _) ->.
  unfold spec_remove in *. destruct (is_nil conn); [done|]. unfold spec_find in *.
  destruct (A !! key conn) as [e|] eqn:He; [|done].
  destruct (Nat.eqb_spec (a_conn e) conn) as [Hc|]; [|done]. cbn in HR'.
  split_and!; [by exists e| |].
  - intros i u sp Hsp. pose proof (idx_ok _ _ (ok_idx _ _ _ _ HR') i u) as Hok. rewrite Hsp in Hok.
    destruct Hok as (m & Hm & HF). exists m. split_and!; [done| |].
    + rewrite HF, lookup_members. by rewrite lookup_delete_eq.
    + rewrite HF. by apply (ok_tight _ _ _ _ HR' i u sp).
  - eapply twp_mono; [by eapply twp_remove|]. intros b' s2 (-> & _).
    unfold spec_remove. destruct (is_nil conn); [done|]. unfold spec_find. by rewrite lookup_delete_eq.
Qed.
End props.

(** ** Witnesses *)

Definition sample_conn (p : ptr) : connInfo :=
  match p with
  | 1%nat => {| ID := "a"; UserID := "u" |}
  | 2%nat => {| ID := "b"; UserID := "u" |}
  | _ => {| ID := ""; UserID := "" |}
  end.

Definition sample_fmt (p : ptr) : string := "0xc000"%string.

Definition sample_registry : rstate (gmap string) unit := newConnectionRegistry tt 1000.

Lemma registry_refines_witness :
  twp (run_op sample_conn sample_fmt (OpAdd 1%nat))
    (λ r s', r = RUnit ∧ RegOk sample_conn sample_fmt s'
       (spec_add sample_conn sample_fmt ∅ 1000 1%nat) ∧ r_now s' = 1000) sample_registry.
Proof.
  apply (registry_refines sample_conn sample_fmt (OpAdd 1%nat) ∅ sample_registry (new_RegOk _ _ _ _)).
  intros _. reflexivity.
Defined.

(** Two connections of one user, one of them in a group. *)
Definition sample_ops : list reg_op := [OpAdd 1%nat; OpAdd 2%nat; OpAddToGroup 1%nat " g "].

Definition sample_busy : rstate (gmap string) unit :=
  (hd ([], sample_registry) (outcomes (run_ops sample_conn sample_fmt sample_ops) sample_registry)).2.

Definition sample_spec : areg := (spec_run sample_conn sample_fmt sample_ops ∅ 1000).1.

Lemma sample_busy_ok : RegOk sample_conn sample_fmt sample_busy sample_spec.
Proof.
  apply (twp_head _ (λ _ s', RegOk sample_conn sample_fmt s' sample_spec)).
  eapply twp_mono.
  - apply (twp_run_ops sample_conn sample_fmt sample_ops ∅ sample_registry).
    + apply new_RegOk.
    + by vm_compute.
  - by intros rs s' (_ & H & _).
Qed.

Lemma remove_leaves_no_trace_witness :
  a_groups <$> sample_spec !! "a"%string = Some {[ "g"%string ]}
  ∧ twp (remove sample_conn sample_fmt 1%nat)
    (λ b s', b = true →
       (∃ e, sample_spec !! connectionKey sample_conn sample_fmt 1%nat = Some e ∧ a_conn e = 1%nat)
       ∧ (∀ i u sp, sm_model (get_index i s') !! u = Some sp →
            ∃ m, r_sets s' !! sp = Some m
               ∧ sm_model m !! connectionKey sample_conn sample_fmt 1%nat = None ∧ sm_model m ≠ ∅)
       ∧ twp (remove sample_conn sample_fmt 1%nat) (λ b' _, b' = false) s') sample_busy.
Proof.
  split; [by vm_compute|].
  exact (remove_leaves_no_trace sample_conn sample_fmt 1%nat _ _ sample_busy_ok).
Defined.
