(* ===== verification/RegistryHistory.v ===== *)
(** * What the calls of a registry say about each connection

    The registry as its clients see it, without its keys, entries and indices.
    The calls made so far give every connection a standing of its own: not
    registered, or registered in some groups and last seen at some time.
    [track] computes it from the calls alone, one connection at a time; the theorem is that every
    answer of the registry follows from the standings. *)

From Stdlib Require Import Ascii String.
From S2P Require Import Prelude GoStd GoText Errors Proc Connection ConnectionProps.
From S2P Require Import Registry RegistrySpec RegistryOps RegistryReads RegistryProps.

Local Open Scope Z_scope.
Local Open Scope go_scope.

Record standing := {
  st_groups : gset string;
  st_seen : Z;
}.

Section history.
Context {M : Type → Type} `{!ShardMap M} `{!ShardMapLaws M} {P : Type} `{!SlicePool P}.
Context (Conn : ptr → connInfo) (fmt_p : ptr → string).

Local Abbreviation key := (connectionKey Conn fmt_p).
Local Abbreviation run_ops := (run_ops (M := M) (P := P) Conn fmt_p).
Local Abbreviation spec_find := (spec_find Conn fmt_p).
Local Abbreviation spec_next := (spec_next Conn fmt_p).

Implicit Types A : areg.
Implicit Types R : ptr → option standing.
Implicit Types v : option standing.

(** ** Standings *)

Definition seen_at (now : Z) (m : standing) : standing :=
  {| st_groups := st_groups m; st_seen := now |}.
Definition regroup (f : gset string → gset string) (m : standing) : standing :=
  {| st_groups := f (st_groups m); st_seen := st_seen m |}.

(** What a call at the time [now] makes of the standing of [c].  Leaving all groups
    goes by the key. *)
Definition follow (c : ptr) (op : reg_op) (now : Z) v : option standing :=
  match op with
  | OpAdd c' =>
      if negb (is_nil c) && Nat.eqb c' c then Some {| st_groups := ∅; st_seen := now |} else v
  | OpRemove c' => if Nat.eqb c' c then None else v
  | OpTouch c' => if Nat.eqb c' c then seen_at now <$> v else v
  | OpAddToGroup c' g =>
      if Nat.eqb c' c && negb (normalizeGroup g =? "")%string
      then regroup (union {[ normalizeGroup g ]}) <$> v else v
  | OpRemoveFromGroup c' g =>
      if Nat.eqb c' c && negb (normalizeGroup g =? "")%string
      then regroup (λ groups, groups ∖ {[ normalizeGroup g ]}) <$> v else v
  | OpRemoveFromAllGroups c' =>
      if negb (is_nil c') && (key c' =? key c)%string then regroup (λ _, ∅) <$> v else v
  | OpExpired t timeout =>
      m ← v; if (0 <? timeout) && (st_seen m <? i64 (t - timeout)) then None else Some m
  | _ => v
  end.

Definition clock (op : reg_op) (now : Z) : Z := match op with OpTick d => now + d | _ => now end.

Fixpoint track (c : ptr) (l : list reg_op) (now : Z) v : option standing :=
  match l with
  | [] => v
  | op :: l => track c l (clock op now) (follow c op now v)
  end.

(** After the calls [l] on a registry that was new at the time [now]. *)
Definition standing_after (now : Z) (l : list reg_op) (c : ptr) : option standing :=
  track c l now None.

(** ** Answers *)

Definition registered_in R (c : ptr) : Prop := is_Some (R c).
Definition of_user (u : string) R (c : ptr) : Prop :=
  registered_in R c ∧ UserID (Conn c) = u ∧ u ≠ ""%string.
Definition in_group (g : string) R (c : ptr) : Prop := ∃ m, R c = Some m ∧ g ∈ st_groups m.

(** The answer lists each of these connections once, or counts them. *)
Definition lists (r : reg_res) (Q : ptr → Prop) : Prop :=
  ∃ l, r = RConns l ∧ NoDup l ∧ ∀ c, c ∈ l ↔ Q c.
Definition counts (r : reg_res) (Q : ptr → Prop) : Prop :=
  ∃ l, r = RNum (zlen l) ∧ NoDup l ∧ ∀ c, c ∈ l ↔ Q c.

Definition answers R (op : reg_op) (r : reg_res) : Prop :=
  match op with
  | OpAdd _ | OpTouch _ | OpRemoveFromAllGroups _ | OpTick _ => r = RUnit
  | OpRemove c => r = RBool (bool_decide (is_Some (R c)))
  | OpAddToGroup c g | OpRemoveFromGroup c g =>
      r = RErr (if (normalizeGroup g =? "")%string then Some (ErrInvalidGroup : error)
                else match R c with Some _ => None | None => Some (ErrConnectionNotFound : error) end)
  | OpExpired t timeout =>
      lists r (λ c, 0 < timeout ∧ ∃ m, R c = Some m ∧ st_seen m < i64 (t - timeout))
  | OpUserOnline u => counts r (of_user u R)
  | OpGroupOnline g => counts r (in_group g R)
  | OpUserConnections u => lists r (of_user u R)
  | OpGroupConnections g _ => lists r (in_group g R)
  | OpAllConnections _ => lists r (registered_in R)
  | OpConnectionSnapshot ids _ =>
      lists r (λ c, registered_in R c ∧ key c ∈ ids ∧ key c ≠ ""%string)
  | OpUserSnapshot ids _ => lists r (λ c, ∃ u, u ∈ ids ∧ of_user u R c)
  | OpNextExpiration timeout =>
      (0 < timeout → (∃ c, registered_in R c) → r = RWait (goquot timeout 2, true))
      ∧ (timeout ≤ 0 ∨ (∀ c, R c = None) → r = RWait (0, false))
  end.

(** A connection is added while none with its key is registered. *)
Definition adds_free (now : Z) (l : list reg_op) : Prop :=
  ∀ h c l', l = h ++ OpAdd c :: l' → is_nil c = false →
    ∀ c', key c' = key c → standing_after now h c' = None.

(** ** The specification by standings *)

Definition standing_of (e : aentry) : standing :=
  {| st_groups := a_groups e; st_seen := a_seen e |}.

Definition agrees A R : Prop := ∀ c, R c = standing_of <$> spec_find A c.

Lemma find_insert A c0 e' c :
  a_conn e' = c0 → (∀ e, A !! key c0 = Some e → a_conn e = c0) →
  spec_find (<[key c0 := e']> A) c = if Nat.eqb c0 c then Some e' else spec_find A c.
Proof.
  intros <- Hold. unfold spec_find. destruct (Nat.eqb_spec (a_conn e') c) as [<-|Hne].
  - by rewrite lookup_insert_eq, Nat.eqb_refl.
  - destruct (decide (key (a_conn e') = key c)) as [E|]; [|by rewrite lookup_insert_ne].
    rewrite <- E, lookup_insert_eq, (proj2 (Nat.eqb_neq _ _) Hne).
    destruct (A !! _) as [e|]; [|done]. by rewrite (Hold e eq_refl), (proj2 (Nat.eqb_neq _ _) Hne).
Qed.

Lemma find_delete A c0 c :
  (∀ e, A !! key c0 = Some e → a_conn e = c0) →
  spec_find (delete (key c0) A) c = if Nat.eqb c0 c then None else spec_find A c.
Proof.
  intros Hold. unfold spec_find. destruct (Nat.eqb_spec c0 c) as [<-|Hne].
  - by rewrite lookup_delete_eq.
  - destruct (decide (key c0 = key c)) as [E|]; [|by rewrite lookup_delete_ne].
    rewrite <- E, lookup_delete_eq.
    destruct (A !! _) as [e|]; [|done]. by rewrite (Hold e eq_refl), (proj2 (Nat.eqb_neq _ _) Hne).
Qed.

Lemma find_filter A (Q : string * aentry → Prop) `{∀ x, Decision (Q x)} c :
  spec_find (filter Q A) c = e ← spec_find A c; if decide (Q (key c, e)) then Some e else None.
Proof.
  unfold spec_find. rewrite map_lookup_filter. destruct (A !! key c) as [e|]; cbn; [|done].
  by case_guard; cbn; destruct (Nat.eqb _ _); simplify_option_eq.
Qed.

Lemma find_alter A f c0 c :
  (∀ e, a_conn (f e) = a_conn e) →
  spec_find (alter f (key c0) A) c
  = if (key c0 =? key c)%string then f <$> spec_find A c else spec_find A c.
Proof.
  intros Hf. unfold spec_find. destruct (String.eqb_spec (key c0) (key c)) as [->|Hne].
  - rewrite lookup_alter_eq. destruct (A !! key c) as [e|]; cbn; [|done]. rewrite Hf. by destruct (Nat.eqb _ _).
  - by rewrite lookup_alter_ne.
Qed.

Lemma find_conn A c e : spec_find A c = Some e → A !! key c = Some e ∧ a_conn e = c.
Proof.
  unfold spec_find. destruct (A !! key c) as [e'|]; [|done].
  destruct (Nat.eqb_spec (a_conn e') c); naive_solver.
Qed.

Lemma find_nil A : (∀ k e, A !! k = Some e → a_conn e ≠ nil) → spec_find A nil = None.
Proof.
  intros Hnil. destruct (spec_find A nil) as [e|] eqn:E; [|done].
  destruct (find_conn _ _ _ E) as [Hk He]. by destruct (Hnil _ _ Hk).
Qed.

(** A call that changes the entry of one registered connection. *)
Definition change_own A (c0 : ptr) (f : aentry → aentry) : areg :=
  if is_nil c0 then A
  else match spec_find A c0 with Some e => <[key c0 := f e]> A | None => A end.

Lemma find_change_own A c0 f c :
  (∀ k e, A !! k = Some e → a_conn e ≠ nil) → (∀ e, a_conn (f e) = a_conn e) →
  spec_find (change_own A c0 f) c = if Nat.eqb c0 c then f <$> spec_find A c else spec_find A c.
Proof.
  intros Hnil Hf. unfold change_own. destruct (is_nil c0) eqn:Hn.
  - unfold is_nil in Hn. apply Nat.eqb_eq in Hn as ->.
    destruct (Nat.eqb_spec nil c) as [<-|]; [by rewrite find_nil|done].
  - destruct (spec_find A c0) as [e|] eqn:Hc0.
    + destruct (find_conn _ _ _ Hc0) as [Hk He]. rewrite find_insert; [|by rewrite Hf|naive_solver].
      destruct (Nat.eqb_spec c0 c) as [<-|]; [by rewrite Hc0|done].
    + destruct (Nat.eqb_spec c0 c) as [<-|]; [by rewrite Hc0|done].
Qed.

Lemma spec_regroup_own A c0 g f :
  (spec_regroup Conn fmt_p A c0 g f).2
  = if (normalizeGroup g =? "")%string then A else change_own A c0 (λ e, set_groups e (f (a_groups e))).
Proof.
  unfold spec_regroup, change_own. destruct (_ =? _)%string; [done|]. destruct (is_nil c0); [done|].
  by destruct (spec_find A c0).
Qed.

Lemma find_regroup A c0 g f c :
  (∀ k e, A !! k = Some e → a_conn e ≠ nil) →
  standing_of <$> spec_find (spec_regroup Conn fmt_p A c0 g f).2 c
  = if Nat.eqb c0 c && negb (normalizeGroup g =? "")%string
    then regroup f <$> (standing_of <$> spec_find A c) else standing_of <$> spec_find A c.
Proof.
  intros Hnil. rewrite spec_regroup_own. destruct (_ =? _)%string; [by rewrite andb_false_r|].
  rewrite find_change_own by done. destruct (Nat.eqb c0 c); [|done]. by destruct (spec_find A c).
Qed.

Lemma find_remove A c0 c :
  (∀ k e, A !! k = Some e → a_conn e ≠ nil) →
  spec_find (spec_remove Conn fmt_p A c0).2 c = if Nat.eqb c0 c then None else spec_find A c.
Proof.
  intros Hnil. unfold spec_remove. destruct (is_nil c0) eqn:Hn.
  - unfold is_nil in Hn. apply Nat.eqb_eq in Hn as ->.
    destruct (Nat.eqb_spec nil c) as [<-|]; [by rewrite find_nil|done].
  - destruct (spec_find A c0) as [e|] eqn:Hc0; cbn [snd].
    + destruct (find_conn _ _ _ Hc0) as [Hk He]. by rewrite find_delete by naive_solver.
    + destruct (Nat.eqb_spec c0 c) as [<-|]; [by rewrite Hc0|done].
Qed.

(** One call. *)
Lemma follow_agrees A R op now :
  (∀ k e, A !! k = Some e → a_conn e ≠ nil) → agrees A R → allowed Conn fmt_p op A →
  agrees (spec_next op A now).1 (λ c, follow c op now (R c)).
Proof.
  intros Hnil HA Hal c. specialize (HA c). cbn beta. rewrite HA.
  destruct op as [c0|c0|c0|c0 g|c0 g|c0|n t|d|u|g|u|g b|b|ids b|ids b|t]; cbn [spec_next follow fst]; try done.
  - unfold spec_add. cbn in Hal. destruct (is_nil c0) eqn:Hn.
    + destruct (Nat.eqb_spec c0 c) as [<-|]; [by rewrite Hn|by rewrite andb_false_r].
    + rewrite find_insert; [|done|by rewrite Hal]. destruct (Nat.eqb_spec c0 c) as [<-|]; [by rewrite Hn|].
      by rewrite andb_false_r.
  - rewrite find_remove by done. by destruct (Nat.eqb c0 c).
  - change (spec_touch _ _ _ _ _)
      with (change_own A c0 (λ e, {| a_conn := a_conn e; a_groups := a_groups e; a_seen := now |})).
    rewrite find_change_own by done. destruct (Nat.eqb c0 c); [|done]. by destruct (spec_find A c).
  - symmetry. by apply find_regroup.
  - symmetry. by apply find_regroup.
  - unfold spec_removeFromAllGroups. destruct (is_nil c0); [done|]. rewrite find_alter by done.
    destruct (_ =? _)%string; [|done]. by destruct (spec_find A c).
  - rewrite (Z.ltb_antisym t 0). destruct (t <=? 0); cbn [negb andb]; [by destruct (spec_find A c)|].
    unfold spec_alive. rewrite find_filter. destruct (spec_find A c) as [e|]; [|done]. cbn.
    unfold is_expired. case_decide as Hd; [by rewrite Hd|]. by apply not_false_is_true in Hd as ->.
Qed.

(** ** Answers *)

Local Abbreviation RegOk := (RegOk (M := M) (P := P) Conn fmt_p).

Lemma RegOk_nil s A k e : RegOk s A → A !! k = Some e → a_conn e ≠ nil.
Proof.
  intros HR He. pose proof (ok_found _ _ _ _ HR k) as H. unfold found_ok in H. rewrite He in H.
  destruct (sm_model (r_connections s) !! k); [|done]. by destruct H as (_ & _ & ?).
Qed.

Lemma find_of s A k e : RegOk s A → A !! k = Some e → spec_find A (a_conn e) = Some e.
Proof.
  intros HR He. unfold spec_find. by rewrite (RegOk_key _ _ s A k e HR He), He, Nat.eqb_refl.
Qed.

(** The connections of a part of the map. *)
Lemma elem_of_conns s A m Q c :
  RegOk s A → (∀ k e, m !! k = Some e ↔ A !! k = Some e ∧ Q e) →
  c ∈ conns_of m ↔ ∃ e, spec_find A c = Some e ∧ Q e.
Proof.
  intros HR Hm. rewrite conns_of_spec. split.
  - intros (k & e & [He HQ]%Hm & <-). exists e. split; [by eapply find_of|done].
  - intros (e & [He Hc]%find_conn & HQ). exists (key c), e. split; [by apply Hm|done].
Qed.

Lemma lists_conns s A m Q r R (Q' : ptr → Prop) l :
  RegOk s A → agrees A R → (∀ k e, m !! k = Some e ↔ A !! k = Some e ∧ Q e) →
  (∀ e, spec_find A (a_conn e) = Some e → Q e ↔ Q' (a_conn e)) →
  (∀ c, Q' c → registered_in R c) →
  r = RConns l → l ≡ₚ conns_of m → lists r Q'.
Proof.
  intros HR HA Hm HQ Hreg -> Hl. exists l. split; [done|]. rewrite Hl. split.
  - eapply conns_of_NoDup; [exact HR|]. apply map_subseteq_spec. intros k e He. by apply Hm in He as [? _].
  - intros c. rewrite Hl, (elem_of_conns s A m Q) by done. split.
    + intros (e & He & Hq). destruct (find_conn _ _ _ He) as [_ <-]. by apply HQ.
    + intros Hq. destruct (Hreg c Hq) as [st Hst]. rewrite HA in Hst.
      apply fmap_Some in Hst as (e & He & _). exists e. split; [done|].
      destruct (find_conn _ _ _ He) as [_ Hc]. apply HQ; rewrite Hc; done.
Qed.

(** The members of a user or a group. *)
Lemma index_lists s A R i u (Q' : ptr → Prop) :
  RegOk s A → agrees A R →
  (∀ e, spec_find A (a_conn e) = Some e → belongs Conn i u e = true ↔ Q' (a_conn e)) →
  (∀ c, Q' c → registered_in R c) →
  ∀ l, l ≡ₚ index_conns Conn i u A → lists (RConns l) Q'.
Proof.
  intros HR HA HQ Hreg l Hl. unfold index_conns in Hl. rewrite values_members in Hl.
  eapply (lists_conns s A _ (λ e, belongs Conn i u e = true)); try done.
  intros k e. apply map_lookup_filter_Some.
Qed.

Lemma index_counts s A R i u (Q' : ptr → Prop) :
  RegOk s A → agrees A R →
  (∀ e, spec_find A (a_conn e) = Some e → belongs Conn i u e = true ↔ Q' (a_conn e)) →
  (∀ c, Q' c → registered_in R c) →
  counts (RNum (Z.of_nat (size (members Conn A i u)))) Q'.
Proof.
  intros HR HA HQ Hreg.
  destruct (index_lists s A R i u Q' HR HA HQ Hreg (index_conns Conn i u A)) as (l & [= <-] & Hl); [done|].
  exists (index_conns Conn i u A). split; [|done].
  unfold index_conns, values, zlen. by rewrite length_fmap, length_map_to_list.
Qed.

Lemma in_group_belongs A R g e :
  agrees A R → spec_find A (a_conn e) = Some e →
  belongs Conn groupConnIndex g e = true ↔ in_group g R (a_conn e).
Proof.
  intros HA He. unfold in_group, belongs. rewrite HA, He, bool_decide_eq_true. cbn. split.
  - intros Hg. by eexists.
  - by intros (m & [= <-] & Hg).
Qed.

Lemma of_user_belongs A R u e :
  agrees A R → spec_find A (a_conn e) = Some e →
  belongs Conn userConnIndex u e = true ↔ of_user u R (a_conn e).
Proof.
  intros HA He. unfold of_user, registered_in, belongs. rewrite HA, He.
  rewrite andb_true_iff, negb_true_iff, String.eqb_neq, String.eqb_eq. naive_solver.
Qed.

Lemma in_group_registered g R c : in_group g R c → registered_in R c.
Proof. intros (m & Hm & _). by exists m. Qed.

Lemma of_user_registered u R c : of_user u R c → registered_in R c.
Proof. by intros [? _]. Qed.

Hint Resolve in_group_belongs of_user_belongs in_group_registered of_user_registered : core.

Lemma registered_agrees A R c : agrees A R → registered_in R c ↔ is_Some (spec_find A c).
Proof. intros HA. unfold registered_in. by rewrite HA, fmap_is_Some. Qed.

Lemma regroup_answer s A R c g f :
  RegOk s A → agrees A R →
  (spec_regroup Conn fmt_p A c g f).1
  = if (normalizeGroup g =? "")%string then Some (ErrInvalidGroup : error)
    else match R c with Some _ => None | None => Some (ErrConnectionNotFound : error) end.
Proof.
  intros HR HA. unfold spec_regroup. destruct (_ =? _)%string; [done|]. rewrite HA.
  destruct (is_nil c) eqn:Hn; [|by destruct (spec_find A c)].
  unfold is_nil in Hn. apply Nat.eqb_eq in Hn as ->. rewrite find_nil; [done|].
  intros k e. by eapply RegOk_nil.
Qed.

Lemma remove_answer s A R c :
  RegOk s A → agrees A R → (spec_remove Conn fmt_p A c).1 = bool_decide (is_Some (R c)).
Proof.
  intros HR HA. rewrite HA. unfold spec_remove. destruct (is_nil c) eqn:Hn.
  - unfold is_nil in Hn. apply Nat.eqb_eq in Hn as ->. rewrite find_nil; [done|].
    intros k e. by eapply RegOk_nil.
  - by destruct (spec_find A c).
Qed.

Lemma ids_answer s A R ids :
  RegOk s A → agrees A R →
  lists (RConns (spec_ids A ids)) (λ c, registered_in R c ∧ key c ∈ ids ∧ key c ≠ ""%string).
Proof.
  intros HR HA. destruct (spec_ids_exact Conn fmt_p ids A s HR) as [Hnd Hin].
  eexists. split; [done|]. split; [done|]. intros c. rewrite Hin, (registered_agrees A) by done. split.
  - intros (k & e & He & <- & ? & ?). rewrite (RegOk_key _ _ s A k e HR He).
    split; [|done]. eexists. by eapply find_of.
  - intros ([e He] & ? & ?). destruct (find_conn _ _ _ He) as [Hk Hc]. eauto 10.
Qed.

Lemma size_no_standing s A R : RegOk s A → agrees A R → Z.of_nat (size A) = 0 ↔ ∀ c, R c = None.
Proof.
  intros HR HA. split.
  - intros Hz c. rewrite HA. rewrite (size_zero A Hz). unfold spec_find. by rewrite lookup_empty.
  - intros Hnone. replace A with (∅ : areg); [done|]. symmetry. apply map_empty. intros k.
    destruct (A !! k) as [e|] eqn:He; [|done]. specialize (Hnone (a_conn e)).
    by rewrite HA, (find_of s A k e HR He) in Hnone.
Qed.

Lemma expired_lists s A R n t l :
  RegOk s A → agrees A R →
  l ≡ₚ (if t <=? 0 then [] else conns_of (spec_expired A (i64 (n - t)))) →
  lists (RConns l) (λ c, 0 < t ∧ ∃ m, R c = Some m ∧ st_seen m < i64 (n - t)).
Proof.
  intros HR HA Hl. destruct (Z.leb_spec t 0) as [Ht|Ht].
  - exists l. split; [done|]. rewrite Hl. split; [constructor|]. intros c. rewrite Hl.
    split; [by intros ?%not_elem_of_nil|lia].
  - eapply (lists_conns s A _ (λ e, is_expired (i64 (n - t)) e = true)); try done.
    + intros k e. apply map_lookup_filter_Some.
    + intros e He. rewrite HA, He. unfold is_expired. rewrite Z.ltb_lt. cbn. split; [|naive_solver].
      intros Hlt. split; [done|]. by eexists.
    + intros c (_ & m & Hm & _). by exists m.
Qed.

Lemma answers_follow s A R op r :
  RegOk s A → agrees A R → spec_result Conn fmt_p op A r → answers R op r.
Proof.
  intros HR HA Hr.
  destruct op as [c|c|c|c g|c g|c|n t|d|u|g|u|g b|b|ids b|ids b|t]; cbn [spec_result answers] in *; try done.
  - rewrite Hr. f_equal. by eapply remove_answer.
  - rewrite Hr. f_equal. by eapply regroup_answer.
  - rewrite Hr. f_equal. by eapply regroup_answer.
  - destruct Hr as (l & -> & Hl). by eapply expired_lists.
  - rewrite Hr. eapply index_counts; eauto.
  - rewrite Hr. eapply index_counts; eauto.
  - destruct Hr as (l & -> & Hl). eapply index_lists; eauto.
  - destruct Hr as (l & -> & Hl). eapply index_lists; eauto.
  - destruct Hr as (l & -> & Hl). eapply (lists_conns s A A (λ _, True)); try done.
    + intros k e. tauto.
    + intros e He. split; [|done]. intros _. apply (registered_agrees A); [done|]. by rewrite He.
  - rewrite Hr. by eapply ids_answer.
  - destruct Hr as (l & -> & Hl).
    eapply (lists_conns s A _ (λ e, UserID (Conn (a_conn e)) ≠ ""%string ∧ UserID (Conn (a_conn e)) ∈ ids)); try done.
    + intros k e. apply map_lookup_filter_Some.
    + intros e He. assert (registered_in R (a_conn e)) by (apply (registered_agrees A); [done|by rewrite He]).
      unfold of_user. naive_solver.
    + intros c (u & _ & Hu). by eapply of_user_registered.
  - rewrite Hr. pose proof (size_no_standing s A R HR HA) as Hsize. split.
    + intros Ht [c [m Hc]]. rewrite (proj2 (Z.ltb_lt 0 t) Ht), (proj2 (Z.eqb_neq _ 0)); [done|].
      intros Hz. by rewrite (proj1 Hsize Hz c) in Hc.
    + intros [Ht|Hnone]; [by rewrite (proj2 (Z.ltb_ge 0 t) Ht)|].
      apply Hsize in Hnone. rewrite Hnone. cbn. by rewrite andb_false_r.
Qed.

(** ** Histories *)

Lemma track_snoc c h op now v :
  track c (h ++ [op]) now v
  = follow c op (fold_left (λ t op, clock op t) h now) (track c h now v).
Proof. revert now v. induction h as [|op' h IH]; intros now v; cbn; [done|]. apply IH. Qed.

(** After some calls [h], which led to [A]. *)
Lemma twp_history l A s now h :
  RegOk s A → agrees A (standing_after now h) → r_now s = fold_left (λ t op, clock op t) h now →
  (∀ h' c l', l = h' ++ OpAdd c :: l' → is_nil c = false →
     ∀ c', key c' = key c → standing_after now (h ++ h') c' = None) →
  twp (run_ops l)
    (λ rs _, length rs = length l ∧ ∀ i op r, l !! i = Some op → rs !! i = Some r →
       answers (standing_after now (h ++ take i l)) op r) s.
Proof.
  revert A s h. induction l as [|op l IH]; intros A s h HR HA Hnow Hfree; cbn [RegistryProps.run_ops].
  { split; [done|]. by intros i op r Hi. }
  assert (Hal : allowed Conn fmt_p op A).
  { destruct op; try done. cbn. intros Hnil. destruct (A !! key conn) as [e|] eqn:He; [exfalso|done].
    assert (Hnone : standing_after now (h ++ []) (a_conn e) = None).
    { apply (Hfree [] conn l); [done|done|]. exact (RegOk_key _ _ s A _ e HR He). }
    rewrite app_nil_r in Hnone. by rewrite HA, (find_of s A _ e HR He) in Hnone. }
  assert (Hsnoc : ∀ c, standing_after now (h ++ [op]) c
                  = follow c op (r_now s) (standing_after now h c)).
  { intros c. rewrite Hnow. apply track_snoc. }
  apply twp_bind. eapply twp_mono; [by apply op_refines|]. intros r s1 (Hr & HR1 & Hnow1).
  apply twp_bind. eapply twp_mono.
  - apply (IH _ s1 (h ++ [op]) HR1).
    + intros c. rewrite Hsnoc. apply follow_agrees; [|done..]. intros k e. by eapply RegOk_nil.
    + rewrite Hnow1, fold_left_app, <- Hnow. by destruct op.
    + intros h' c l' El Hnil c' Hk. rewrite <- app_assoc.
      apply (Hfree (op :: h') c l'); [by rewrite El|done|done].
  - intros rs s2 [Hlen Hrs]. split; [cbn; congruence|]. intros [|i] op' r' Hi Hri; cbn in Hi, Hri.
    + injection Hi as <-. injection Hri as <-. rewrite app_nil_r. eapply answers_follow; [exact HR|exact HA|exact Hr].
    + specialize (Hrs i op' r' Hi Hri). by rewrite <- app_assoc in Hrs.
Qed.

(** C25. The answers of a registry follow from the calls, one connection at a
    time.  In any history of calls on a new registry that adds a connection only while none
    with its key is registered (so also add, remove, add), every call returns,
    and its answer is the one the connections' standings give it: [remove] says whether its
    connection was registered, joining and leaving a group fail exactly for a blank name or
    a connection that is not, expiry lists exactly the connections not seen since the
    deadline, and every snapshot and count of all connections, of a user, of a group
    or of a list of keys has exactly the connections it should, each once.  The
    standing of a connection depends on the calls about it and on expiry, not on
    those about others. *)
Theorem registry_history (pool : P) now l (Hfree : adds_free now l) :
  twp (run_ops l)
    (λ rs _, length rs = length l ∧ ∀ i op r, l !! i = Some op → rs !! i = Some r →
       answers (standing_after now (take i l)) op r)
    (newConnectionRegistry pool now).
Proof.
  apply (twp_history l ∅ _ now []); [apply new_RegOk| |done|exact Hfree].
  intros c. unfold spec_find. by rewrite lookup_empty.
Qed.
End history.

(** ** Witness *)

(** A connection is added, joins a group, is removed, and is added again, with
    another one of the same user. *)
Definition readded_ops : list reg_op :=
  [OpAdd 1%nat; OpAddToGroup 1%nat " g "; OpRemove 1%nat; OpAdd 2%nat; OpAdd 1%nat;
   OpGroupConnections "g" false; OpUserConnections "u"].

Lemma sample_key_one c c' :
  c = 1%nat ∨ c = 2%nat →
  connectionKey sample_conn sample_fmt c' = connectionKey sample_conn sample_fmt c → c' = c.
Proof. by destruct c' as [|[|[|c']]]; intros [-> | ->]. Qed.

Lemma readded_free : adds_free sample_conn sample_fmt 1000 readded_ops.
Proof.
  intros h c l' Hl _ c' Hk.
  assert (Hi : readded_ops !! length h = Some (OpAdd c)) by (rewrite Hl; by apply list_lookup_middle).
  assert (Hh : h = take (length h) readded_ops) by (rewrite Hl; by rewrite take_app_length).
  rewrite Hh. clear Hh Hl. revert Hi. generalize (length h) as i.
  assert (Hfree : Forall (λ '(i, c), standing_after sample_conn sample_fmt 1000 (take i readded_ops) c = None)
    [(0, 1); (3, 2); (4, 1)]%nat) by by repeat constructor.
  rewrite Forall_forall in Hfree. intros i Hi.
  destruct i as [|[|[|[|[|[|[|i]]]]]]]; try discriminate Hi; injection Hi as <-;
    apply sample_key_one in Hk as ->; auto; by apply (Hfree (_, _)); set_solver.
Qed.

Lemma registry_history_witness :
  twp (run_ops sample_conn sample_fmt readded_ops)
    (λ rs _, length rs = 7%nat ∧ (∀ r, rs !! 2%nat = Some r → r = RBool true)
       ∧ (∀ r, rs !! 5%nat = Some r → r = RConns [])
       ∧ ∀ r, rs !! 6%nat = Some r → ∃ l, r = RConns l ∧ NoDup l ∧ 1%nat ∈ l ∧ 2%nat ∈ l)
    sample_registry.
Proof.
  eapply twp_mono; [exact (registry_history sample_conn sample_fmt tt 1000 readded_ops readded_free)|].
  intros rs _ [Hlen Hrs]. split; [exact Hlen|]. split; [|split]; intros r Hr.
  - exact (Hrs 2%nat _ r eq_refl Hr).
  - specialize (Hrs 5%nat _ r eq_refl Hr). destruct Hrs as (l & -> & _ & Hl). destruct l as [|c l]; [done|]. exfalso.
    destruct (proj1 (Hl c)) as (m & Hm & Hg); [left|].
    cbn in Hm. by destruct c as [|[|[|c]]]; vm_compute in Hm; simplify_eq.
  - specialize (Hrs 6%nat _ r eq_refl Hr). destruct Hrs as (l & -> & Hnd & Hl). exists l. split; [done|]. split; [exact Hnd|].
    by split; apply Hl; (split; [eexists; by vm_compute|]).
Defined.
