(* ===== verification/Locks.v ===== *)
(** * Goroutines that take mutexes: invariants and progress

    The rule [safe] of Proc.v, refined for goroutines that block on mutexes.
    Resources with a rank are held mutexes, resources without one are facts
    that stay true.  A goroutine may block only on a mutex somebody holds and
    whose rank is below all those it holds itself; then no interleaving
    deadlocks, and since programs are finite trees every schedule ends with all
    goroutines finished. *)

From S2P Require Import Prelude Proc.

Local Open Scope nat_scope.

Section locks.
Context {S T : Type} (I : S → list T → Prop) (rank : T → option nat).
Context (I_proper : ∀ s, Proper ((≡ₚ) ==> iff) (I s)).

(** Blocked on a mutex that is held and ranks below all of [t]. *)
Definition waits (t fr : list T) : Prop :=
  ∃ r n, r ∈ fr ∧ rank r = Some n ∧ ∀ r' n', r' ∈ t → rank r' = Some n' → n < n'.

Definition facts (l : list T) : Prop := Forall (λ r, rank r = None) l.

(** Like [safe]; facts learnt on the way may be forgotten at the end. *)
Fixpoint lsafe {A} (Q : A → list T → Prop) (t : list T) (p : proc S A) : Prop :=
  match p with
  | Ret a => ∃ kn t', facts kn ∧ t ≡ₚ kn ++ t' ∧ Q a t'
  | Act f k =>
      ∀ s fr, I s (t ++ fr) →
        (f s = [] → waits t fr)
        ∧ ∀ x s', (x, s') ∈ f s → ∃ t', I s' (t' ++ fr) ∧ lsafe Q t' (k x)
  end.

Definition pool_lok (c : pool S) : Prop :=
  ∃ toks, Forall2 (lsafe (λ _ t, facts t)) toks c.1 ∧ I c.2 (mjoin toks).

(** ** Rules *)

Lemma waits_perm t1 t2 fr : t1 ≡ₚ t2 → waits t1 fr → waits t2 fr.
Proof. intros Ht (r & n & ? & ? & H). exists r, n. setoid_rewrite <- Ht. done. Qed.

Lemma lsafe_perm {A} (Q : A → list T → Prop) t1 t2 p :
  t1 ≡ₚ t2 → lsafe Q t1 p → lsafe Q t2 p.
Proof.
  intros Ht. destruct p as [a|X f k]; cbn.
  - intros (kn & t' & ? & H & ?). exists kn, t'. by rewrite <- Ht.
  - intros H s fr HI. rewrite <- Ht in HI. destruct (H s fr HI) as [Hb Hs].
    split; [|done]. intros Hf. eapply waits_perm; [exact Ht|by apply Hb].
Qed.

Lemma lsafe_weaken {A} (Q : A → list T → Prop) kn t p :
  facts kn → lsafe Q t p → lsafe Q (kn ++ t) p.
Proof.
  intros Hkn H. revert t H. induction p as [a|X f k IH]; cbn; intros t H.
  - destruct H as (kn' & t' & ? & Ht & ?). exists (kn ++ kn'), t'.
    split; [by apply Forall_app|]. split; [|done]. by rewrite Ht, app_assoc.
  - intros s fr HI.
    assert (HI' : I s (t ++ (kn ++ fr))).
    { rewrite Permutation_app_swap_app, app_assoc. done. }
    destruct (H s _ HI') as [Hb Hs]. split.
    + intros Hf. destruct (Hb Hf) as (r & n & Hr & Hn & Hlt). exists r, n.
      unfold facts in Hkn. rewrite Forall_forall in Hkn. split_and!; [|done|].
      * apply elem_of_app in Hr as [Hr|?]; [|done]. apply Hkn in Hr. congruence.
      * intros r' n' [Hr'|?]%elem_of_app Hn'; [|by eapply Hlt]. apply Hkn in Hr'. congruence.
    + intros x s' Hin. destruct (Hs x s' Hin) as (t' & HI2 & Hk). exists (kn ++ t'). split.
      * rewrite <- app_assoc. by rewrite Permutation_app_swap_app.
      * by apply IH.
Qed.

Lemma lsafe_mono {A} (Q Q' : A → list T → Prop) t p :
  lsafe Q t p → (∀ a t', Q a t' → Q' a t') → lsafe Q' t p.
Proof.
  intros H HQ. revert t H. induction p as [a|X f k IH]; cbn; intros t H.
  - destruct H as (kn & t' & ? & ? & ?). exists kn, t'. auto.
  - intros s fr HI. destruct (H s fr HI) as [Hb Hs]. split; [done|].
    intros x s' Hin. destruct (Hs x s' Hin) as (t' & ? & ?). exists t'. auto.
Qed.

(** Facts may be forgotten. *)
Lemma lsafe_forget {A} (Q Q' : A → list T → Prop) t p :
  lsafe Q t p →
  (∀ a t', Q a t' → ∃ kn t0, facts kn ∧ t' ≡ₚ kn ++ t0 ∧ Q' a t0) → lsafe Q' t p.
Proof.
  intros H HQ. revert t H. induction p as [a|X f k IH]; cbn; intros t H.
  - destruct H as (kn & t' & Hkn & Ht & Ha). destruct (HQ a t' Ha) as (kn' & t0 & ? & Ht' & ?).
    exists (kn ++ kn'), t0. split; [by apply Forall_app|]. split; [|done].
    by rewrite Ht, Ht', app_assoc.
  - intros s fr HI. destruct (H s fr HI) as [Hb Hs]. split; [done|].
    intros x s' Hin. destruct (Hs x s' Hin) as (t' & ? & ?). exists t'. auto.
Qed.

Lemma lsafe_ret {A} (Q : A → list T → Prop) t a : Q a t → lsafe Q t (Ret a).
Proof. intros H. exists [], t. split; [constructor|done]. Qed.

Lemma lsafe_bind {A B} (Q : A → list T → Prop) (R : B → list T → Prop) t p g :
  lsafe Q t p → (∀ a t', Q a t' → lsafe R t' (g a)) → lsafe R t (proc_bind g p).
Proof.
  intros H Hg. revert t H. induction p as [a|X f k IH]; cbn; intros t H.
  - destruct H as (kn & t' & Hkn & Ht & HQ). eapply lsafe_perm; [by symmetry|].
    apply lsafe_weaken; [done|]. by apply Hg.
  - intros s fr HI. destruct (H s fr HI) as [Hb Hs]. split; [done|].
    intros x s' Hin. destruct (Hs x s' Hin) as (t' & ? & ?). exists t'. auto.
Qed.

(** One atomic action that does not block. *)
Lemma lsafe_act {X} t (t' : X → list T) (f : S → list (X * S)) :
  (∀ s fr, I s (t ++ fr) → f s ≠ [] ∧ ∀ x s', (x, s') ∈ f s → I s' (t' x ++ fr)) →
  lsafe (λ x t2, t2 = t' x) t (Act f Ret).
Proof.
  intros H s fr HI. destruct (H s fr HI) as [Hne Hs]. split; [by intros ?%Hne|].
  intros x s' Hin. exists (t' x). split; [by apply Hs|]. by apply lsafe_ret.
Qed.

Lemma lsafe_atomically {X} t (t' : X → list T) (f : S → X * S) :
  (∀ s fr, I s (t ++ fr) → I (f s).2 (t' (f s).1 ++ fr)) →
  lsafe (λ x t2, t2 = t' x) t (atomically f).
Proof.
  intros H. apply lsafe_act. intros s fr HI. split; [done|].
  intros x s' Hin%list_elem_of_singleton. specialize (H s fr HI). by rewrite <- Hin in H.
Qed.

Lemma lsafe_reads {X} t (g : S → X) : lsafe (λ _ t2, t2 = t) t (reads g).
Proof. apply (lsafe_atomically t (λ _, t)). done. Qed.

Lemma lsafe_for_each {A} (l : list A) (body : A → proc S unit) t :
  (∀ a, lsafe (λ _ t', t' = t) t (body a)) → lsafe (λ _ t', t' = t) t (for_each l body).
Proof.
  intros Hb. induction l as [|a l IH]; cbn [for_each]; [by apply lsafe_ret|].
  eapply lsafe_bind; [apply Hb|]. by intros _ ? ->.
Qed.

Lemma lsafe_fold_each {A B} (l : list A) (acc : B) (body : B → A → proc S B) t :
  (∀ acc a, a ∈ l → lsafe (λ _ t', t' = t) t (body acc a)) →
  lsafe (λ _ t', t' = t) t (fold_each l acc body).
Proof.
  revert acc. induction l as [|a l IH]; intros acc Hb; cbn [fold_each]; [by apply lsafe_ret|].
  eapply lsafe_bind; [apply Hb; set_solver|]. intros acc' ? ->. apply IH. intros; apply Hb. set_solver.
Qed.

(** ** Every interleaving keeps the invariant *)

Lemma pool_lok_step c c' : pool_lok c → pool_step c c' → pool_lok c'.
Proof.
  intros (toks & Hs & HI) Hstep. destruct Hstep as [i X f k x s s' ts Hi Hin]. cbn in *.
  destruct (Forall2_lookup_r _ _ _ _ _ Hs Hi) as (t & Ht & Hsafe).
  destruct (mjoin_insert_perm toks i t t Ht) as (fr & Hp & _). rewrite Hp in HI.
  destruct (Hsafe s fr HI) as [_ Hk]. destruct (Hk x s' Hin) as (t' & HI' & Hk').
  exists (<[i := t']> toks). split; [by apply Forall2_insert|].
  destruct (mjoin_insert_perm toks i t t' Ht) as (fr' & Hp1 & Hp2). cbn.
  rewrite Hp2. rewrite Hp1 in Hp. apply Permutation_app_inv_l in Hp. by rewrite Hp.
Qed.

Lemma pool_lok_steps c c' : pool_lok c → pool_steps c c' → pool_lok c'.
Proof. intros Hok Hsteps. induction Hsteps; [done|]. eauto using pool_lok_step. Qed.

Lemma pool_lok_inv c : pool_lok c → ∃ L, I c.2 L.
Proof. intros (toks & _ & HI). eauto. Qed.

(** ** Progress *)

Definition unfinished (c : pool S) : Prop :=
  ∃ i X (f : S → list (X * S)) k, c.1 !! i = Some (Act f k).

(** A goroutine that has not finished, by evaluation. *)
Definition runs (c : pool S) (i : nat) : bool :=
  match c.1 !! i with Some (Act _ _) => true | _ => false end.

Lemma runs_unfinished c i : runs c i = true → unfinished c.
Proof.
  unfold runs, unfinished. destruct (c.1 !! i) as [[|X f k]|] eqn:E; [done| |done]. eauto 6.
Qed.

Definition finished (c : pool S) : bool :=
  forallb (λ t, match t with Act _ _ => false | Ret _ => true end) c.1.

Lemma finished_spec c : finished c = true → ¬ unfinished c.
Proof.
  intros H (i & X & f & k & Hi). unfold finished in H. rewrite forallb_forall in H.
  specialize (H (Act f k)). apply list_elem_of_lookup_2, list_elem_of_In, H in Hi. done.
Qed.

(** The holder of a mutex, or somebody it waits for, can move. *)
Lemma holder_moves (c : pool S) toks n :
  Forall2 (lsafe (λ _ t, facts t)) toks c.1 → I c.2 (mjoin toks) →
  ∀ i t r, toks !! i = Some t → r ∈ t → rank r = Some n → ∃ c', pool_step c c'.
Proof.
  intros Hs HI. induction n as [n IH] using lt_wf_ind. intros i t r Ht Hr Hn.
  destruct (Forall2_lookup_l _ _ _ _ _ Hs Ht) as (p & Hp & Hsafe).
  destruct p as [a|X f k].
  - destruct Hsafe as (kn & t' & Hkn & Hperm & Ht'). exfalso.
    assert (Hall : facts t) by (unfold facts; rewrite Hperm; by apply Forall_app).
    unfold facts in Hall. rewrite Forall_forall in Hall. specialize (Hall r Hr). congruence.
  - destruct (mjoin_insert_perm toks i t t Ht) as (fr & Hperm & _).
    pose proof HI as HI'. rewrite Hperm in HI'. destruct (Hsafe (c.2) fr HI') as [Hb _].
    destruct (f (c.2)) as [|[x s'] l] eqn:Ef.
    + destruct (Hb eq_refl) as (r2 & n2 & Hr2 & Hn2 & Hlt).
      assert (Hin : r2 ∈ mjoin toks) by (rewrite Hperm; set_solver).
      apply list_elem_of_join in Hin as (t2 & Hr2' & Ht2).
      apply list_elem_of_lookup in Ht2 as [j Hj].
      eapply (IH n2); [by eapply Hlt|exact Hj|done|done].
    + exists (<[i := k x]> (c.1), s'). destruct c as [ts s]. cbn in *.
      apply (pool_step_intro i X f k x); [done|]. rewrite Ef. by left.
Qed.

(** No deadlock: while a goroutine has not finished, one can move. *)
Lemma pool_lok_progress c : pool_lok c → unfinished c → ∃ c', pool_step c c'.
Proof.
  intros (toks & Hs & HI) (i & X & f & k & Hi).
  destruct (Forall2_lookup_r _ _ _ _ _ Hs Hi) as (t & Ht & Hsafe).
  destruct (mjoin_insert_perm toks i t t Ht) as (fr & Hperm & _).
  pose proof HI as HI'. rewrite Hperm in HI'. destruct (Hsafe (c.2) fr HI') as [Hb _].
  destruct (f (c.2)) as [|[x s'] l] eqn:Ef.
  - destruct (Hb eq_refl) as (r2 & n2 & Hr2 & Hn2 & _).
    assert (Hin : r2 ∈ mjoin toks) by (rewrite Hperm; set_solver).
    apply list_elem_of_join in Hin as (t2 & Hr2' & Ht2).
    apply list_elem_of_lookup in Ht2 as [j Hj].
    by eapply (holder_moves c toks n2).
  - exists (<[i := k x]> (c.1), s'). destruct c as [ts s]. cbn in *.
    apply (pool_step_intro i X f k x); [done|]. rewrite Ef. by left.
Qed.
End locks.

(** ** Every schedule is finite *)

Section termination.
Context {S : Type}.

(** A subtree of a program. *)
Definition child (t' t : proc S unit) : Prop :=
  match t with Ret _ => False | Act _ k => ∃ x, t' = k x end.

(** One goroutine of a list moves to a subtree of its program. *)
Inductive shrinks : list (proc S unit) → list (proc S unit) → Prop :=
| shrinks_here t t' ts : child t' t → shrinks (t' :: ts) (t :: ts)
| shrinks_later t ts ts' : shrinks ts' ts → shrinks (t :: ts') (t :: ts).

Lemma shrinks_nil : Acc shrinks [].
Proof. constructor. intros ts H. inversion H. Qed.

Lemma shrinks_cons t ts : Acc shrinks ts → Acc shrinks (t :: ts).
Proof.
  revert ts. induction t as [[]|X f k IH]; intros ts Hts;
    induction Hts as [ts Hts IHts]; constructor; intros ts' H; inversion H as [? ? ? Hc|]; subst.
  - done.
  - by apply IHts.
  - destruct Hc as [x ->]. apply IH. by constructor.
  - by apply IHts.
Qed.

Lemma shrinks_wf ts : Acc shrinks ts.
Proof. induction ts; [apply shrinks_nil|by apply shrinks_cons]. Qed.

Lemma shrinks_insert (ts : list (proc S unit)) i X (f : S → list (X * S)) k x :
  ts !! i = Some (Act f k) → shrinks (<[i := k x]> ts) ts.
Proof.
  revert i. induction ts as [|t ts IH]; intros [|i] Hi; try done; cbn in *.
  - injection Hi as ->. apply shrinks_here. by exists x.
  - apply shrinks_later. by apply IH.
Qed.

Lemma pool_step_finite (c : pool S) : Acc (λ c' c, pool_step c c') c.
Proof.
  destruct c as [ts s]. revert s. induction (shrinks_wf ts) as [ts _ IH]. intros s.
  constructor. intros c' Hstep. inversion Hstep; subst. apply IH. by eapply shrinks_insert.
Qed.

(** Steps that never get stuck reach a state where all have finished. *)
Lemma pool_finishes (P : pool S → Prop) c :
  (∀ c c', P c → pool_step c c' → P c') → (∀ c, P c → unfinished c → ∃ c', pool_step c c') →
  P c → ∃ c', pool_steps c c' ∧ ¬ unfinished c'.
Proof.
  intros Hstep Hprog. induction (pool_step_finite c) as [c _ IH]. intros HP.
  destruct (decide (Exists (λ t, match t with Act _ _ => true | Ret _ => false end = true) c.1)) as [He|He].
  - destruct (Hprog c HP) as [c1 H1].
    { apply Exists_exists in He as (t & Ht & Hact). destruct t as [|X f k]; [done|].
      apply list_elem_of_lookup in Ht as [i Hi]. by exists i, X, f, k. }
    destruct (IH c1 H1) as (c' & Hs & Hu); [by eapply Hstep|].
    exists c'. split; [by eapply rtc_l|done].
  - exists c. split; [apply rtc_refl|]. intros (i & X & f & k & Hi). apply He, Exists_exists.
    exists (Act f k). split; [by eapply list_elem_of_lookup_2|done].
Qed.
End termination.
