(* ===== verification/RegistryLocks.v ===== *)
(** * The registry under any interleaving of its methods

    The invariant [RI] holds whatever methods run concurrently: no pointer
    dangles, every entry and every member of a set is filed under the key of its
    connection, each mutex is held by at most one goroutine and only its holder
    unlocks it.  Mutexes are taken in one order (an entry's before a stripe), so
    no interleaving deadlocks and every call returns. *)

From Stdlib Require Import Ascii String.
From S2P Require Import Prelude GoStd GoText Errors Proc Locks Connection.
From S2P Require Import Registry RegistryProps.

Local Open Scope Z_scope.
Local Open Scope go_scope.

(** ** What a goroutine holds or knows *)

Inductive rtok :=
| TEntry (p : ptr)                    (* an entry's mutex *)
| TStripe (z : Z)                     (* one of the stripes *)
| TIsEntry (p : ptr) (k : string)     (* [p] is an entry filed under [k] *)
| TIsSet (sp : ptr).                  (* [sp] is a connection set *)

Definition rank (t : rtok) : option nat :=
  match t with
  | TEntry _ => Some 1%nat
  | TStripe _ => Some 0%nat
  | _ => None
  end.

Definition is_entry_lock (t : rtok) : list ptr := match t with TEntry p => [p] | _ => [] end.
Definition is_stripe_lock (t : rtok) : list Z := match t with TStripe z => [z] | _ => [] end.

Section locks.
Context {M : Type → Type} `{!ShardMap M} `{!ShardMapLaws M} {P : Type} `{!SlicePool P}.
Context (Conn : ptr → connInfo) (fmt_p : ptr → string).

Local Abbreviation state := (rstate M P).
Local Abbreviation Mo := (proc (rstate M P)).
Local Abbreviation key := (connectionKey Conn fmt_p).

Implicit Types s : state.
Implicit Types L t fr : list rtok.

Definition good_entry s (p : ptr) (k : string) : Prop :=
  ∃ e, r_entries s !! p = Some e ∧ e_conn e ≠ nil ∧ key (e_conn e) = k.

Definition good_set s (sp : ptr) : Prop := is_Some (r_sets s !! sp).

Record RI s L : Prop := {
  ri_conns k p : sm_model (r_connections s) !! k = Some p → good_entry s p k;
  ri_index i u sp : sm_model (get_index i s) !! u = Some sp → good_set s sp;
  ri_sets sp m k c : r_sets s !! sp = Some m → sm_model m !! k = Some c → c ≠ nil ∧ key c = k;
  ri_isentry p k : TIsEntry p k ∈ L → good_entry s p k;
  ri_isset sp : TIsSet sp ∈ L → good_set s sp;
  ri_next : (0 < r_next s)%nat;
  ri_fresh_entries p e : r_entries s !! p = Some e → (0 < p < r_next s)%nat;
  ri_fresh_sets sp m : r_sets s !! sp = Some m → (sp < r_next s)%nat;
  ri_entry_locks p : p ∈ L ≫= is_entry_lock ↔ ∃ e, r_entries s !! p = Some e ∧ e_mu e = true;
  ri_stripe_locks z : z ∈ L ≫= is_stripe_lock ↔ z ∈ r_indexInitLocks s;
  ri_NoDup : NoDup (L ≫= is_entry_lock) ∧ NoDup (L ≫= is_stripe_lock);
  ri_fatal : r_fatal s = false;
}.

#[export] Instance RI_proper s : Proper ((≡ₚ) ==> iff) (RI s).
Proof.
  assert (H : ∀ L1 L2, L1 ≡ₚ L2 → RI s L1 → RI s L2).
  { intros L1 L2 HL []. constructor; auto.
    - intros p k. rewrite <- HL. auto.
    - intros sp. rewrite <- HL. auto.
    - intros p. rewrite <- HL. auto.
    - intros z. rewrite <- HL. auto.
    - by rewrite <- HL. }
  intros L1 L2 HL. split; apply H; [done|by symmetry].
Qed.

Local Abbreviation Safe := (lsafe (S := rstate M P) RI rank).

(** The resources of a list that holds no mutex of an entry, or no stripe. *)
Definition no_entry t : Prop := t ≫= is_entry_lock = [].
Definition no_stripe t : Prop := t ≫= is_stripe_lock = [].

Lemma RI_learn s L r :
  rank r = None →
  match r with TIsEntry p k => good_entry s p k | TIsSet sp => good_set s sp | _ => True end →
  RI s L → RI s (r :: L).
Proof.
  intros Hr Hfact []. destruct r as [p|z|p k|sp]; try done.
  - constructor; auto. intros p' k' [[= -> ->]|?]%elem_of_cons; auto.
    intros sp' [?|?]%elem_of_cons; [done|auto].
  - constructor; auto. intros p' k' [?|?]%elem_of_cons; [done|auto].
    intros sp' [[= ->]|?]%elem_of_cons; auto.
Qed.

(** ** Reading *)

Lemma learn_entry t k :
  Safe (λ x t', t' = match x with Some p => TIsEntry p k :: t | None => t end) t (connections_Get k).
Proof.
  apply (lsafe_atomically _ _ t (λ x, match x with Some p => TIsEntry p k :: t | None => t end)).
  intros s fr HI. cbn. rewrite sm_Get_model.
  destruct (sm_model (r_connections s) !! k) as [p|] eqn:E; [|done].
  apply RI_learn; [done| |done]. by apply (ri_conns _ _ HI).
Qed.

Lemma learn_set t i u :
  Safe (λ x t', t' = match x with Some sp => TIsSet sp :: t | None => t end) t (index_Get i u).
Proof.
  apply (lsafe_atomically _ _ t (λ x, match x with Some sp => TIsSet sp :: t | None => t end)).
  intros s fr HI. cbn. rewrite sm_Get_model.
  destruct (sm_model (get_index i s) !! u) as [sp|] eqn:E; [|done].
  apply RI_learn; [done| |done]. by apply (ri_index _ _ HI i u).
Qed.

(** ** Steps that touch neither mutexes nor entries *)

(** Changing the indices and the sets. *)
Lemma RI_heap s s' L :
  r_connections s' = r_connections s → r_entries s' = r_entries s →
  r_indexInitLocks s' = r_indexInitLocks s → r_fatal s' = r_fatal s → (r_next s ≤ r_next s')%nat →
  (∀ sp, good_set s sp → good_set s' sp) →
  (∀ i u sp, sm_model (get_index i s') !! u = Some sp → good_set s' sp) →
  (∀ sp m, r_sets s' !! sp = Some m → (sp < r_next s')%nat
     ∧ ∀ k c, sm_model m !! k = Some c → c ≠ nil ∧ key c = k) →
  RI s L → RI s' L.
Proof.
  intros Ec Ee El Ef Hn Hset Hidx Hsets []. constructor; try done.
  - intros k p. rewrite Ec. unfold good_entry. rewrite Ee. apply ri_conns0.
  - intros sp m k c Hm. by apply (Hsets sp m Hm).
  - intros p k Hin. unfold good_entry. rewrite Ee. by apply ri_isentry0.
  - auto.
  - lia.
  - intros p e. rewrite Ee. intros H. apply ri_fresh_entries0 in H. lia.
  - intros sp m Hm. by apply (Hsets sp m Hm).
  - intros p. by rewrite Ee.
  - intros z. by rewrite El.
  - by rewrite Ef.
Qed.

Lemma safe_index_Set t i u sp :
  TIsSet sp ∈ t → Safe (λ _ t', t' = t) t (index_Set i u sp).
Proof.
  intros Hin. apply (lsafe_atomically _ _ t (λ _, t)). intros s fr HI.
  assert (Hgood : good_set s sp) by (apply (ri_isset _ _ HI); set_solver).
  eapply (RI_heap s); try done.
  - intros i' u' sp' H'. unfold good_set. replace (r_sets _) with (r_sets s) by (by destruct i).
    cbn [snd] in H'. rewrite RegistrySpec.get_set_index in H'. case_decide as Hd.
    + subst i'. rewrite sm_Set_model in H'.
      apply lookup_insert_Some in H' as [[<- <-]|[_ H']]; [done|]. by eapply (ri_index _ _ HI).
    + by eapply (ri_index _ _ HI).
  - intros sp' m. replace (r_sets _) with (r_sets s) by (by destruct i).
    replace (r_next _) with (r_next s) by (by destruct i). intros Hm.
    split; [by eapply (ri_fresh_sets _ _ HI)|]. intros k c. by eapply (ri_sets _ _ HI).
Qed.

Lemma safe_index_Delete t i u : Safe (λ _ t', t' = t) t (index_Delete i u).
Proof.
  apply (lsafe_atomically _ _ t (λ _, t)). intros s fr HI.
  eapply (RI_heap s); try done.
  - intros i' u' sp' H'. unfold good_set. replace (r_sets _) with (r_sets s) by (by destruct i).
    cbn [snd] in H'. rewrite RegistrySpec.get_set_index in H'. case_decide as Hd.
    + subst i'. rewrite sm_Delete_model in H'. apply lookup_delete_Some in H' as [_ H'].
      by eapply (ri_index _ _ HI).
    + by eapply (ri_index _ _ HI).
  - intros sp' m. replace (r_sets _) with (r_sets s) by (by destruct i).
    replace (r_next _) with (r_next s) by (by destruct i). intros Hm.
    split; [by eapply (ri_fresh_sets _ _ HI)|]. intros k c. by eapply (ri_sets _ _ HI).
Qed.

Lemma safe_update_set t sp (g : M ptr → M ptr) :
  (∀ m k c, sm_model (g m) !! k = Some c → sm_model m !! k = Some c ∨ (c ≠ nil ∧ key c = k)) →
  Safe (λ _ t', t' = t) t (modify (update_set sp g)).
Proof.
  intros Hg. apply (lsafe_atomically _ _ t (λ _, t)). intros s fr HI. cbn [snd].
  assert (Hlook : ∀ sp' m, r_sets (update_set sp g s) !! sp' = Some m →
    ∃ m0, r_sets s !! sp' = Some m0 ∧ (m = m0 ∨ m = g m0)).
  { intros sp' m. cbn. destruct (decide (sp = sp')) as [<-|].
    - rewrite lookup_alter_eq. intros (m0 & ? & ->)%fmap_Some. eauto.
    - rewrite lookup_alter_ne by done. eauto. }
  assert (Hset : ∀ sp', good_set s sp' → good_set (update_set sp g s) sp').
  { intros sp' [m Hm]. unfold good_set. cbn. destruct (decide (sp = sp')) as [<-|].
    - rewrite lookup_alter_eq, Hm. eauto.
    - rewrite lookup_alter_ne by done. eauto. }
  eapply (RI_heap s); try done.
  - intros i u sp' H'. apply Hset. eapply (ri_index _ _ HI i u). by destruct i.
  - intros sp' m Hm. destruct (Hlook sp' m Hm) as (m0 & Hm0 & Hcase).
    split; [by eapply (ri_fresh_sets _ _ HI)|]. intros k c Hc.
    destruct Hcase as [->| ->]; [by eapply (ri_sets _ _ HI)|].
    apply Hg in Hc as [Hc|?]; [by eapply (ri_sets _ _ HI)|done].
Qed.

Lemma safe_set_Set t sp k c :
  c ≠ nil → key c = k → Safe (λ _ t', t' = t) t (set_Set sp k c).
Proof.
  intros Hc Hk. apply safe_update_set. intros m k' c'. rewrite sm_Set_model.
  intros [[<- <-]|[_ ?]]%lookup_insert_Some; auto.
Qed.

Lemma safe_set_Delete t sp k : Safe (λ _ t', t' = t) t (set_Delete sp k).
Proof.
  apply safe_update_set. intros m k' c'. rewrite sm_Delete_model.
  intros [_ ?]%lookup_delete_Some. auto.
Qed.

Lemma safe_new_set t : Safe (λ sp t', t' = TIsSet sp :: t) t new_set.
Proof.
  apply (lsafe_atomically _ _ t (λ sp, TIsSet sp :: t)). intros s fr HI. cbn [fst snd].
  set (s' := set_rnext _ _).
  assert (Hset : ∀ sp, good_set s sp → good_set s' sp).
  { intros sp [m Hm]. unfold good_set. cbn. destruct (decide (r_next s = sp)) as [<-|].
    - rewrite lookup_insert_eq. eauto.
    - rewrite lookup_insert_ne by done. eauto. }
  apply RI_learn; [done|unfold good_set; cbn; rewrite lookup_insert_eq; eauto|].
  eapply (RI_heap s); try done; [cbn; lia| |].
  - intros i u sp' H'. apply Hset. eapply (ri_index _ _ HI i u). by destruct i.
  - intros sp' m. cbn. intros [[<- <-]|[_ Hm]]%lookup_insert_Some.
    + split; [lia|]. intros k c. unfold newConnectionSet. by rewrite sm_New_model, lookup_empty.
    + split; [apply (ri_fresh_sets _ _ HI) in Hm; lia|]. intros k c. by eapply (ri_sets _ _ HI).
Qed.
(** ** Entries and the connections map *)

Lemma entry_of_fact s L p k :
  RI s L → TIsEntry p k ∈ L →
  ∃ e, r_entries s !! p = Some e ∧ entry_at s p = e ∧ e_conn e ≠ nil ∧ key (e_conn e) = k.
Proof.
  intros HI Hin. destruct (ri_isentry _ _ HI p k Hin) as (e & He & ? & ?).
  exists e. split_and!; try done. unfold entry_at. by rewrite He.
Qed.

Lemma safe_new_entry t conn now :
  conn ≠ nil → Safe (λ p t', t' = TIsEntry p (key conn) :: t) t (new_entry conn now).
Proof.
  intros Hc. apply (lsafe_atomically _ _ t (λ p, TIsEntry p (key conn) :: t)).
  intros s fr HI. cbn [fst snd]. set (s' := set_rnext _ _).
  assert (Hnone : r_entries s !! r_next s = None).
  { destruct (r_entries s !! r_next s) eqn:E; [|done]. apply (ri_fresh_entries _ _ HI) in E. lia. }
  assert (Hkeep : ∀ p k, good_entry s p k → good_entry s' p k).
  { intros p k (e & He & ?). exists e. split; [|done]. cbn. rewrite lookup_insert_ne; [done|].
    intros <-. congruence. }
  apply RI_learn; [done| |].
  { eexists. cbn. rewrite lookup_insert_eq. split; [done|]. by split. }
  destruct HI. constructor; auto; try done; try (cbn; lia).
  - intros p e. cbn. intros [[<- _]|[_ He]]%lookup_insert_Some; [lia|].
    apply ri_fresh_entries0 in He. lia.
  - intros sp m Hm. apply ri_fresh_sets0 in Hm. cbn. lia.
  - intros p. rewrite ri_entry_locks0. cbn. destruct (decide (r_next s = p)) as [<-|Hne].
    + rewrite Hnone, lookup_insert_eq. naive_solver.
    + by rewrite lookup_insert_ne.
Qed.

(** An entry changed under its pointer; its connection stays. *)
Lemma RI_alter s L L' p f :
  (∀ e, e_conn (f e) = e_conn e) →
  (∀ q k, TIsEntry q k ∈ L' → TIsEntry q k ∈ L) → (∀ sp, TIsSet sp ∈ L' → TIsSet sp ∈ L) →
  (∀ q, q ∈ L' ≫= is_entry_lock ↔ ∃ e, alter f p (r_entries s) !! q = Some e ∧ e_mu e = true) →
  L' ≫= is_stripe_lock ≡ₚ L ≫= is_stripe_lock → NoDup (L' ≫= is_entry_lock) →
  RI s L → RI (update_entry p f s) L'.
Proof.
  intros Hf He Hs Hlocks Hstripes Hnd HI.
  assert (Hkeep : ∀ q k, good_entry s q k → good_entry (update_entry p f s) q k).
  { intros q k (e & Hq & ? & ?). unfold good_entry. cbn. destruct (decide (p = q)) as [<-|].
    - exists (f e). rewrite lookup_alter_eq, Hq. by rewrite Hf.
    - exists e. by rewrite lookup_alter_ne. }
  destruct HI. constructor; auto; try done.
  - intros sp Hin. by apply ri_isset0, Hs.
  - intros q e. cbn. destruct (decide (p = q)) as [<-|].
    + rewrite lookup_alter_eq. intros (e0 & He0 & _)%fmap_Some. by eapply ri_fresh_entries0.
    + rewrite lookup_alter_ne by done. apply ri_fresh_entries0.
  - intros z. rewrite Hstripes. apply ri_stripe_locks0.
  - rewrite Hstripes. by destruct ri_NoDup0.
Qed.

Lemma alter_same_mu s p f q :
  (∀ e, e_mu (f e) = e_mu e) →
  (∃ e, alter f p (r_entries s) !! q = Some e ∧ e_mu e = true)
  ↔ ∃ e, r_entries s !! q = Some e ∧ e_mu e = true.
Proof.
  intros Hf. destruct (decide (p = q)) as [<-|].
  - rewrite lookup_alter_eq. destruct (r_entries s !! p) as [e|]; [|naive_solver].
    split; [intros (? & [= <-] & ?); rewrite Hf in *; eauto|].
    intros (? & [= <-] & ?). exists (f e). by rewrite Hf.
  - by rewrite lookup_alter_ne.
Qed.

Lemma safe_update_entry t p f :
  (∀ e, e_conn (f e) = e_conn e) → (∀ e, e_mu (f e) = e_mu e) →
  Safe (λ _ t', t' = t) t (modify (update_entry p f)).
Proof.
  intros Hc Hm. apply (lsafe_atomically _ _ t (λ _, t)). intros s fr HI. cbn [snd].
  eapply RI_alter; try done; [|apply HI]. intros q. rewrite alter_same_mu by done.
  apply (ri_entry_locks _ _ HI).
Qed.

Lemma safe_connections_Set t k p :
  TIsEntry p k ∈ t → Safe (λ _ t', t' = t) t (connections_Set k p).
Proof.
  intros Hin. apply (lsafe_atomically _ _ t (λ _, t)). intros s fr HI. cbn [snd].
  assert (Hgood : good_entry s p k) by (apply (ri_isentry _ _ HI); set_solver).
  destruct HI. constructor; auto.
  - intros k' p'. cbn. rewrite sm_Set_model. intros [[<- <-]|[_ H]]%lookup_insert_Some; [done|].
    by apply ri_conns0.
Qed.

Lemma safe_connections_Delete t k : Safe (λ _ t', t' = t) t (connections_Delete k).
Proof.
  apply (lsafe_atomically _ _ t (λ _, t)). intros s fr HI. cbn [snd].
  destruct HI. constructor; auto.
  - intros k' p'. cbn. rewrite sm_Delete_model. intros [_ H]%lookup_delete_Some.
    by apply ri_conns0.
Qed.

(** Time and the slice pool are outside the invariant. *)
Lemma RI_outside s s' L :
  r_connections s' = r_connections s → (∀ i, get_index i s' = get_index i s) →
  r_entries s' = r_entries s → r_sets s' = r_sets s → r_next s' = r_next s →
  r_indexInitLocks s' = r_indexInitLocks s → r_fatal s' = r_fatal s → RI s L → RI s' L.
Proof.
  intros E1 E2 E3 E4 E5 E6 E7 []. constructor; unfold good_entry, good_set in *;
    rewrite ?E1, ?E3, ?E4, ?E5, ?E6, ?E7; auto.
  intros i u. rewrite E2. apply ri_index0.
Qed.

Lemma safe_set_slices {X} t (f : state → X * state) :
  (∀ s, (f s).2 = set_slices (r_slices (f s).2) (r_nextArray (f s).2) s) →
  Safe (λ _ t', t' = t) t (atomically f).
Proof.
  intros Hf. apply (lsafe_atomically _ _ t (λ _, t)). intros s fr HI. rewrite Hf.
  eapply RI_outside, HI; done.
Qed.

(** ** Mutexes *)

Lemma bind_locks {A} (f : rtok → list A) t fr x :
  x ∈ (t ++ fr) ≫= f → t ≫= f = [] → ∃ r, r ∈ fr ∧ x ∈ f r.
Proof.
  intros Hx Ht. rewrite bind_app in Hx. apply elem_of_app in Hx as [Hx|Hx].
  - rewrite Ht in Hx. set_solver.
  - apply list_elem_of_bind in Hx as (r & ? & ?). eauto.
Qed.

Lemma no_locks_rank t r n :
  no_entry t → no_stripe t → r ∈ t → rank r = Some n → False.
Proof.
  unfold no_entry, no_stripe. intros He Hs Hr Hn. destruct r as [p|z| |]; try done.
  - assert (p ∈ t ≫= is_entry_lock) as H; [|rewrite He in H; set_solver].
    apply list_elem_of_bind. exists (TEntry p). set_solver.
  - assert (z ∈ t ≫= is_stripe_lock) as H; [|rewrite Hs in H; set_solver].
    apply list_elem_of_bind. exists (TStripe z). set_solver.
Qed.

Lemma safe_lock_entry t p k :
  TIsEntry p k ∈ t → no_entry t → no_stripe t →
  Safe (λ _ t', t' = TEntry p :: t) t (lock_entry p).
Proof.
  intros Hin He Hs s fr HI.
  destruct (entry_of_fact s _ p k HI ltac:(set_solver)) as (e & Hep & Hat & _ & _).
  rewrite Hat. destruct (e_mu e) eqn:Hmu; split; try done.
  - intros _. assert (Hp : p ∈ (t ++ fr) ≫= is_entry_lock) by (apply (ri_entry_locks _ _ HI); eauto).
    apply bind_locks in Hp as (r & Hr & Hpr); [|done]. exists r, 1%nat.
    destruct r; cbn in Hpr; try set_solver. split_and!; [done|done|].
    intros r' n' Hr' Hn'. by destruct (no_locks_rank t r' n').
  - intros x s' Hx. set_solver.
  - intros [] s' [= ->]%list_elem_of_singleton. exists (TEntry p :: t). split; [|by apply lsafe_ret].
    eapply RI_alter; try exact HI; try done.
    + intros q k'. set_solver.
    + intros sp. set_solver.
    + intros q. cbn. rewrite elem_of_cons. destruct (decide (p = q)) as [<-|Hne].
      * rewrite lookup_alter_eq, Hep. cbn. naive_solver.
      * rewrite lookup_alter_ne by done. rewrite <- (ri_entry_locks _ _ HI). naive_solver.
    + cbn. constructor; [|by apply (ri_NoDup _ _ HI)]. rewrite (ri_entry_locks _ _ HI). intros (? & ? & ?). congruence.
Qed.

Lemma safe_unlock_entry t p :
  Safe (λ _ t', t' = t) (TEntry p :: t) (unlock_entry p).
Proof.
  apply (lsafe_atomically _ _ (TEntry p :: t) (λ _, t)). intros s fr HI. cbn [snd].
  destruct (proj1 (ri_entry_locks _ _ HI p)) as (e & Hep & Hmu); [cbn; set_solver|].
  replace (entry_at s p) with e by (unfold entry_at; by rewrite Hep). rewrite Hmu.
  destruct (ri_NoDup _ _ HI) as [Hnd _]. cbn in Hnd. apply NoDup_cons in Hnd as [Hp Hnd].
  eapply RI_alter; try exact HI; try done.
  - intros q k'. set_solver.
  - intros sp. set_solver.
  - intros q. pose proof (ri_entry_locks _ _ HI q) as Hq. cbn in Hq. rewrite elem_of_cons in Hq.
    destruct (decide (p = q)) as [<-|Hne].
    + rewrite lookup_alter_eq, Hep. cbn. naive_solver.
    + rewrite lookup_alter_ne by done. rewrite <- Hq. naive_solver.
Qed.

(** The stripes change, nothing else. *)
Lemma RI_stripes s L L' v :
  (∀ q k, TIsEntry q k ∈ L' → TIsEntry q k ∈ L) → (∀ sp, TIsSet sp ∈ L' → TIsSet sp ∈ L) →
  L' ≫= is_entry_lock = L ≫= is_entry_lock →
  (∀ z, z ∈ L' ≫= is_stripe_lock ↔ z ∈ v) → NoDup (L' ≫= is_stripe_lock) →
  RI s L → RI (set_indexInitLocks v s) L'.
Proof.
  intros He Hs Hel Hv Hnd []. constructor; auto.
  - intros p k Hin. by apply ri_isentry0, He.
  - intros sp Hin. by apply ri_isset0, Hs.
  - intros p. rewrite Hel. apply ri_entry_locks0.
  - rewrite Hel. by destruct ri_NoDup0.
Qed.

Lemma safe_lock_stripe t u :
  no_stripe t → Safe (λ _ t', t' = TStripe (lockShard u) :: t) t (lock_stripe u).
Proof.
  intros Hs s fr HI. case_bool_decide as Hin; split; try done.
  - intros _. apply (ri_stripe_locks _ _ HI) in Hin.
    apply bind_locks in Hin as (r & Hr & Hz); [|done]. exists r, 0%nat.
    destruct r as [|z| |]; cbn in Hz; try set_solver. split_and!; [done|done|].
    intros r' n' Hr' Hn'. destruct r' as [p|z'| |]; try done; [by injection Hn' as <-; lia|].
    exfalso. assert (z' ∈ t ≫= is_stripe_lock) as H.
    { apply list_elem_of_bind. exists (TStripe z'). set_solver. }
    rewrite Hs in H. set_solver.
  - intros x s' Hx. set_solver.
  - intros [] s' [= ->]%list_elem_of_singleton. exists (TStripe (lockShard u) :: t).
    split; [|by apply lsafe_ret]. eapply RI_stripes; try exact HI; try done.
    + intros q k'. set_solver.
    + intros sp. set_solver.
    + intros z. cbn. rewrite elem_of_cons, (ri_stripe_locks _ _ HI). set_solver.
    + cbn. constructor; [|by apply (ri_NoDup _ _ HI)]. by rewrite (ri_stripe_locks _ _ HI).
Qed.

Lemma safe_unlock_stripe t u :
  Safe (λ _ t', t' = t) (TStripe (lockShard u) :: t) (unlock_stripe u).
Proof.
  apply (lsafe_atomically _ _ (TStripe (lockShard u) :: t) (λ _, t)). intros s fr HI. cbn [snd].
  destruct (ri_NoDup _ _ HI) as [_ Hnd]. cbn in Hnd. apply NoDup_cons in Hnd as [Hp Hnd].
  rewrite bool_decide_eq_true_2 by (apply (ri_stripe_locks _ _ HI); cbn; set_solver).
  eapply RI_stripes; try exact HI; try done.
  - intros q k'. set_solver.
  - intros sp. set_solver.
  - intros z. rewrite elem_of_difference, <- (ri_stripe_locks _ _ HI). cbn. set_solver.
Qed.
End locks.
