(* ===== verification/RegistryCalls.v ===== *)
(** * Concurrent registry calls

    Every method of the registry keeps the invariant of RegistryLocks.v from
    any facts and holding no mutex; hence any number of concurrent calls is
    safe, never deadlocks, and every call returns. *)

From Stdlib Require Import Ascii String.
From S2P Require Import Prelude GoStd GoText Errors Proc Locks Connection ConnectionProps.
From S2P Require Import Registry RegistryProps RegistryLocks.

Local Open Scope Z_scope.
Local Open Scope go_scope.

Section calls.
Context {M : Type → Type} `{!ShardMap M} `{!ShardMapLaws M} {P : Type} `{!SlicePool P}.
Context (Conn : ptr → connInfo) (fmt_p : ptr → string).

Local Abbreviation state := (rstate M P).
Local Abbreviation Mo := (proc (rstate M P)).
Local Abbreviation key := (connectionKey Conn fmt_p).
Local Abbreviation RI := (RI Conn fmt_p).
Local Abbreviation Safe := (lsafe (S := rstate M P) RI rank).

Implicit Types s : state.
Implicit Types t fr : list rtok.

Section rules.
Context {A B : Type} (Q : B → list rtok → Prop).

Lemma step_bind t (p : Mo A) (g : A → Mo B) :
  Safe (λ _ t', t' = t) t p → (∀ a, Safe Q t (g a)) → Safe Q t (proc_bind g p).
Proof. intros Hp Hg. eapply lsafe_bind; [exact _|exact Hp|]. intros a ? ->. apply Hg. Qed.

Lemma step_forget t r (p : Mo B) : rank r = None → Safe Q t p → Safe Q (r :: t) p.
Proof. intros Hr Hp. apply (lsafe_weaken RI rank _ Q [r]); [by apply Forall_singleton|done]. Qed.

Lemma step_forget_under t x r (p : Mo B) : rank r = None → Safe Q (x :: t) p → Safe Q (x :: r :: t) p.
Proof.
  intros Hr Hp. eapply lsafe_perm; [exact _|apply Permutation_swap|]. by apply step_forget.
Qed.

Lemma step_Get t k (g : option ptr → Mo B) :
  Safe Q t (g None) → (∀ p, Safe Q (TIsEntry p k :: t) (g (Some p))) →
  Safe Q t (proc_bind g (connections_Get k)).
Proof. intros Hn Hs. eapply lsafe_bind; [exact _|apply learn_entry|]. by intros [p|] ? ->. Qed.

Lemma step_index_Get t i u (g : option ptr → Mo B) :
  Safe Q t (g None) → (∀ sp, Safe Q (TIsSet sp :: t) (g (Some sp))) →
  Safe Q t (proc_bind g (index_Get i u)).
Proof. intros Hn Hs. eapply lsafe_bind; [exact _|apply learn_set|]. by intros [p|] ? ->. Qed.

Lemma step_lock_stripe t u (g : unit → Mo B) :
  no_stripe t → Safe Q (TStripe (lockShard u) :: t) (g tt) →
  Safe Q t (proc_bind g (lock_stripe u)).
Proof. intros Ht Hg. eapply lsafe_bind; [exact _|by apply safe_lock_stripe|]. by intros [] ? ->. Qed.

Lemma step_unlock_stripe t u (g : unit → Mo B) :
  Safe Q t (g tt) → Safe Q (TStripe (lockShard u) :: t) (proc_bind g (unlock_stripe u)).
Proof. intros Hg. eapply lsafe_bind; [exact _|apply safe_unlock_stripe|]. by intros [] ? ->. Qed.

Lemma step_unlock_entry t p (g : unit → Mo B) :
  Safe Q t (g tt) → Safe Q (TEntry p :: t) (proc_bind g (unlock_entry p)).
Proof. intros Hg. eapply lsafe_bind; [exact _|apply safe_unlock_entry|]. by intros [] ? ->. Qed.

Lemma facts_no_locks t : facts rank t → no_entry t ∧ no_stripe t.
Proof. intros Ht. induction Ht as [|[] t Hr _ IH]; done. Qed.

Lemma step_lock_entry t p k (g : unit → Mo B) :
  facts rank t → TIsEntry p k ∈ t → Safe Q (TEntry p :: t) (g tt) →
  Safe Q t (proc_bind g (lock_entry p)).
Proof.
  intros [He Hs]%facts_no_locks Hin Hg.
  eapply lsafe_bind; [exact _|by apply (safe_lock_entry Conn fmt_p t p k)|]. by intros [] ? ->.
Qed.
End rules.

(** A call that ends holding what it held. *)
Local Abbreviation Keeps t p := (Safe (λ _ t', t' = t) t p).

Lemma keeps_ret {A} t (a : A) : Keeps t (Ret a).
Proof. by apply lsafe_ret. Qed.

Lemma keeps_reads {A} t (g : state → A) : Keeps t (reads g).
Proof. by apply lsafe_reads. Qed.

Lemma keeps_for_each {A} (l : list A) (body : A → Mo unit) t :
  (∀ a, Keeps t (body a)) → Keeps t (for_each l body).
Proof. intros Hb. by apply lsafe_for_each; [exact _|]. Qed.

Lemma keeps_fold_each {A B} (l : list A) (acc : B) (body : B → A → Mo B) t :
  (∀ acc a, a ∈ l → Keeps t (body acc a)) → Keeps t (fold_each l acc body).
Proof. intros Hb. by apply lsafe_fold_each; [exact _|]. Qed.

(** ** Index operations *)

Lemma keeps_connectionSetFor t i u : no_stripe t → Keeps t (connectionSetFor i u).
Proof.
  intros Ht. apply step_index_Get; [|intros; apply step_forget; [done|apply keeps_ret]].
  apply step_lock_stripe; [done|]. apply step_index_Get.
  - eapply lsafe_bind; [exact _| |].
    + eapply lsafe_bind; [exact _|apply safe_new_set|]. intros sp ? ->.
      eapply lsafe_bind; [exact _|by apply safe_index_Set; set_solver|]. intros [] ? ->.
      apply (lsafe_ret RI rank (λ _ t', ∃ sp, t' = TIsSet sp :: TStripe (lockShard u) :: t)). eauto.
    + intros sp ? [sp' ->]. apply step_forget; [done|]. apply step_unlock_stripe, keeps_ret.
  - intros sp. apply step_forget; [done|]. apply step_bind; [apply keeps_ret|]. intros sp'.
    apply step_unlock_stripe, keeps_ret.
Qed.

Lemma keeps_removeConnectionFromIndex t i u k :
  no_stripe t → Keeps t (removeConnectionFromIndex i u k).
Proof.
  intros Ht. apply step_index_Get; [apply keeps_ret|]. intros sp. apply step_forget; [done|].
  apply step_bind; [apply safe_set_Delete|]. intros [].
  apply step_bind; [apply keeps_reads|]. intros n. case_match; [|apply keeps_ret].
  apply step_lock_stripe; [done|]. apply step_index_Get.
  - apply step_bind; [apply keeps_ret|]. intros []. apply safe_unlock_stripe.
  - intros sp'. apply step_forget; [done|]. apply step_bind; [|intros []; apply safe_unlock_stripe].
    apply step_bind; [apply keeps_reads|]. intros n'. case_match; [|apply keeps_ret].
    apply safe_index_Delete.
Qed.

Lemma keeps_removeFromUserIndex t c k : no_stripe t → Keeps t (removeFromUserIndex Conn c k).
Proof.
  intros Ht. unfold removeFromUserIndex. case_match; [|apply keeps_ret].
  by apply keeps_removeConnectionFromIndex.
Qed.

Lemma keeps_groups_Range t p : Keeps t (groups_Range p).
Proof.
  apply (lsafe_act _ _ _ (λ _, t)). intros s fr HI. split.
  - intros Hn%fmap_nil_inv. pose proof (permutations_refl (elements (e_groups (entry_at s p)))) as H.
    rewrite Hn in H. set_solver.
  - intros l s' (l' & [= -> ->] & _)%list_elem_of_fmap. done.
Qed.

Lemma facts_learn t p k : facts rank t → facts rank (TIsEntry p k :: t).
Proof. intros Ht. by apply Forall_cons. Qed.

Lemma no_stripe_entry t p : facts rank t → no_stripe (TEntry p :: t).
Proof. by intros [_ ?]%facts_no_locks. Qed.

Section methods.
Context (t : list rtok) (Ht : facts rank t).

Lemma keeps_lookup_entry {A} (Q : A → list rtok → Prop) conn (g : option ptr → Mo A) :
  Safe Q t (g None) → (∀ p, Safe Q (TIsEntry p (key conn) :: t) (g (Some p))) →
  Safe Q t (proc_bind g (lookup_entry Conn fmt_p conn)).
Proof.
  intros Hn Hs. unfold lookup_entry. apply step_Get; [done|].
  intros p. cbn [proc_bind]. apply (step_bind Q _ (reads _)); [apply keeps_reads|]. intros c.
  destruct (Nat.eqb c conn); cbn; [apply Hs|by apply step_forget].
Qed.

Lemma keeps_add conn : Keeps t (add Conn fmt_p conn).
Proof.
  unfold add. destruct (is_nil conn) eqn:Hn; [apply keeps_ret|].
  assert (conn ≠ nil) by (intros ->; done).
  apply step_bind; [apply keeps_reads|]. intros now.
  eapply lsafe_bind; [exact _|by apply safe_new_entry|]. intros p ? ->.
  apply step_bind; [apply safe_connections_Set; set_solver|]. intros [].
  apply step_bind.
  { case_match; [|apply keeps_ret]. apply step_bind.
    - apply keeps_connectionSetFor. by apply facts_no_locks, facts_learn.
    - intros sp. by apply safe_set_Set. }
  intros []. apply (step_lock_entry _ _ p (key conn)); [by apply facts_learn|set_solver|].
  apply step_forget_under; [done|].
  apply step_Get; [|intros q; apply step_forget; [done|]].
  all: apply step_bind; [|intros []; apply safe_unlock_entry].
  all: case_match; [by apply keeps_removeFromUserIndex, no_stripe_entry|apply keeps_ret].
Qed.

(** The part of [remove] and [expired] that clears the indices. *)
Lemma keeps_clear p conn k A (a : A) :
  Safe (λ _ t', t' = t) (TEntry p :: t)
    (removeFromUserIndex Conn conn k ;;;
     groups <- groups_Range p ;;;
     for_each groups (λ group, removeConnectionFromIndex groupConnIndex group k) ;;;
     unlock_entry p ;;;
     mret a).
Proof.
  apply step_bind; [by apply keeps_removeFromUserIndex, no_stripe_entry|]. intros [].
  apply step_bind; [apply keeps_groups_Range|]. intros groups.
  apply step_bind; [|intros []; apply step_unlock_entry, keeps_ret].
  apply keeps_for_each. intros g. by apply keeps_removeConnectionFromIndex, no_stripe_entry.
Qed.

Lemma keeps_remove conn : Keeps t (remove Conn fmt_p conn).
Proof.
  unfold remove. case_match; [apply keeps_ret|]. apply keeps_lookup_entry; [apply keeps_ret|].
  intros p. apply (step_lock_entry _ _ p (key conn)); [by apply facts_learn|set_solver|].
  apply step_forget_under; [done|].
  apply step_bind; [apply safe_connections_Delete|]. intros []. apply keeps_clear.
Qed.

Lemma keeps_addToGroup conn g : Keeps t (addToGroup Conn fmt_p conn g).
Proof.
  unfold addToGroup. case_match; [apply keeps_ret|].
  destruct (is_nil conn) eqn:Hn; [apply keeps_ret|]. assert (conn ≠ nil) by (intros ->; done).
  apply keeps_lookup_entry; [apply keeps_ret|].
  intros p. apply (step_lock_entry _ _ p (key conn)); [by apply facts_learn|set_solver|].
  apply step_forget_under; [done|].
  apply step_bind; [by apply safe_update_entry|]. intros [].
  apply step_bind; [by apply keeps_connectionSetFor, no_stripe_entry|]. intros sp.
  apply step_bind; [by apply safe_set_Set|]. intros []. apply step_unlock_entry, keeps_ret.
Qed.

Lemma keeps_removeFromGroup conn g : Keeps t (removeFromGroup Conn fmt_p conn g).
Proof.
  unfold removeFromGroup. case_match; [apply keeps_ret|]. case_match; [apply keeps_ret|].
  apply keeps_lookup_entry; [apply keeps_ret|].
  intros p. apply (step_lock_entry _ _ p (key conn)); [by apply facts_learn|set_solver|].
  apply step_forget_under; [done|].
  apply step_bind; [by apply safe_update_entry|]. intros [].
  apply step_bind; [by apply keeps_removeConnectionFromIndex, no_stripe_entry|]. intros [].
  apply step_unlock_entry, keeps_ret.
Qed.

Lemma keeps_removeFromAllGroups conn : Keeps t (removeFromAllGroups Conn fmt_p conn).
Proof.
  unfold removeFromAllGroups. case_match; [apply keeps_ret|].
  apply step_Get; [apply keeps_ret|].
  intros p. apply (step_lock_entry _ _ p (key conn)); [by apply facts_learn|set_solver|].
  apply step_forget_under; [done|].
  apply step_bind; [apply keeps_groups_Range|]. intros groups.
  apply step_bind; [|intros []; apply safe_unlock_entry].
  apply keeps_for_each. intros g.
  apply step_bind; [by apply keeps_removeConnectionFromIndex, no_stripe_entry|]. intros [].
  by apply safe_update_entry.
Qed.

Lemma keeps_touch conn : Keeps t (touch Conn fmt_p conn).
Proof.
  unfold touch. case_match; [apply keeps_ret|].
  apply keeps_lookup_entry; [apply keeps_ret|]. intros p. apply step_forget; [done|].
  apply step_bind; [apply keeps_reads|]. intros now. by apply safe_update_entry.
Qed.

Lemma keeps_entry_conn p : Keeps t (entry_conn p).
Proof. unfold entry_conn. case_match; [apply keeps_ret|apply keeps_reads]. Qed.

Lemma keeps_expire_entry d l k p :
  TIsEntry p k ∈ t → Keeps t (expire_entry Conn d l (k, p)).
Proof.
  intros Hin. apply (step_lock_entry _ _ p k); [done|done|].
  apply step_Get; [|intros q; apply step_forget; [done|]].
  all: case_match; [apply step_unlock_entry, keeps_ret|].
  all: apply step_bind; [apply keeps_reads|]; intros seen.
  all: case_match; [apply step_unlock_entry, keeps_ret|].
  all: apply step_bind; [apply safe_connections_Delete|]; intros [].
  all: apply step_bind; [apply keeps_reads|]; intros conn; apply keeps_clear.
Qed.

(** ** Reads *)

Lemma keeps_copySet {A} sp (g : list ptr → A) :
  Keeps t (l <- copyConnectionSet sp ;;; mret (g l)).
Proof.
  apply step_bind; [|intros; apply keeps_ret]. unfold copyConnectionSet.
  case_match; [apply keeps_ret|]. apply step_bind; [apply keeps_reads|]. intros. apply keeps_ret.
Qed.

Lemma keeps_getConnectionSlice n : Keeps t (getConnectionSlice n).
Proof.
  unfold getConnectionSlice. case_match; [apply keeps_ret|]. apply safe_set_slices.
  intros s. by destruct (sp_Get _ _ _) as [[b p] next].
Qed.

Lemma keeps_putConnectionSlice b : Keeps t (putConnectionSlice b).
Proof. unfold putConnectionSlice. case_match; [apply keeps_ret|]. by apply safe_set_slices. Qed.

Lemma keeps_append_conn b c : Keeps t (append_conn b c).
Proof. unfold append_conn. case_match; [apply keeps_ret|]. by apply safe_set_slices. Qed.

Lemma keeps_Get_value {A} k (g : option ptr → Mo A) :
  (∀ o, Keeps t (g o)) → Keeps t (proc_bind g (connections_Get k)).
Proof. intros Hg. apply step_Get; [apply Hg|]. intros p. apply step_forget; [done|apply Hg]. Qed.

Lemma keeps_index_value {A} i u (g : option ptr → Mo A) :
  (∀ o, Keeps t (g o)) → Keeps t (proc_bind g (index_Get i u)).
Proof. intros Hg. apply step_index_Get; [apply Hg|]. intros p. apply step_forget; [done|apply Hg]. Qed.

End methods.

Ltac keeps :=
  repeat first
    [ apply keeps_ret | apply keeps_reads | apply keeps_entry_conn | apply keeps_append_conn
    | apply keeps_getConnectionSlice | apply keeps_putConnectionSlice
    | apply keeps_index_value; intros | apply keeps_Get_value; intros
    | apply keeps_fold_each; intros | apply step_bind; [|intros] | case_match ].

Section reads.
Context (t : list rtok).

Lemma keeps_snapshot_ids {B} ids (b : B) visit :
  (∀ b c, Keeps t (visit b c)) → Keeps t (snapshot_ids ids b visit).
Proof. intros Hv. unfold snapshot_ids, lookup_conn. keeps; apply Hv. Qed.

Lemma keeps_connectionSnapshot ids : Keeps t (connectionSnapshot ids).
Proof.
  unfold connectionSnapshot, lookup_conn. destruct ids as [|? []]; [keeps..|].
  apply keeps_snapshot_ids. intros. keeps.
Qed.

Lemma keeps_connectionSnapshotPooled ids : Keeps t (connectionSnapshotPooled ids).
Proof.
  unfold connectionSnapshotPooled, lookup_conn. destruct ids as [|? []]; [keeps..|].
  apply step_bind; [keeps|]. intros. apply keeps_snapshot_ids. intros. keeps.
Qed.

Lemma keeps_user_total ids : Keeps t (user_total ids).
Proof. unfold user_total. keeps. Qed.

Lemma keeps_snapshot_users {B} ids (b : B) visit :
  (∀ b c, Keeps t (visit b c)) → Keeps t (snapshot_users ids b visit).
Proof. intros Hv. unfold snapshot_users, set_Range. keeps; apply Hv. Qed.

Lemma keeps_copyConnectionSet sp : Keeps t (copyConnectionSet sp).
Proof. unfold copyConnectionSet, set_Range. keeps. Qed.

Lemma keeps_copyConnectionSetPooled sp : Keeps t (copyConnectionSetPooled sp).
Proof. unfold copyConnectionSetPooled, set_Range, set_Len. keeps. Qed.

Lemma keeps_userSnapshot ids : Keeps t (userSnapshot ids).
Proof.
  unfold userSnapshot, userConnections. destruct ids as [|? []].
  - keeps.
  - keeps. apply keeps_copyConnectionSet.
  - apply step_bind; [apply keeps_user_total|]. intros n. case_match; [keeps|].
    apply keeps_snapshot_users. intros. keeps.
Qed.

Lemma keeps_userSnapshotPooled ids : Keeps t (userSnapshotPooled ids).
Proof.
  unfold userSnapshotPooled. destruct ids as [|? []].
  - keeps.
  - keeps. apply keeps_copyConnectionSetPooled.
  - apply step_bind; [apply keeps_user_total|]. intros n. case_match; [keeps|].
    apply step_bind; [keeps|]. intros. apply keeps_snapshot_users. intros. keeps.
Qed.
End reads.

(** ** Expiry *)

Lemma RI_learn_entries s L (l : list (string * ptr)) :
  (∀ k p, (k, p) ∈ l → good_entry Conn fmt_p s p k) → RI s L →
  RI s (((λ '(k, p), TIsEntry p k) <$> l) ++ L).
Proof.
  intros Hl HI. induction l as [|[k p] l IH]; cbn; [done|].
  apply RI_learn; [done|apply Hl; set_solver|]. apply IH. intros. apply Hl. set_solver.
Qed.

Lemma learn_range t :
  Safe (λ l t', t' = ((λ '(k, p), TIsEntry p k) <$> l) ++ t) t connections_Range.
Proof.
  apply (lsafe_atomically _ _ t (λ l : list (string * ptr), ((λ '(k, p), TIsEntry p k) <$> l) ++ t)).
  intros s fr HI. cbn [fst snd]. rewrite <- app_assoc. apply RI_learn_entries; [|done].
  intros k p. rewrite sm_Range_model, elem_of_map_to_list. by apply (ri_conns _ _ _ _ HI).
Qed.

Lemma safe_collect t d (range : list (string * ptr)) (acc : list (string * ptr)) :
  acc ⊆ range →
  ∀ l, l ⊆ range →
  Safe (λ c t', t' = t ∧ c ⊆ range) t
    (fold_each l acc (λ candidates '(key, entry),
      conn <- entry_conn entry ;;;
      if is_nil conn then mret candidates
      else
        lastSeen <- reads (λ s, e_lastSeen (entry_at s entry)) ;;;
        mret (if lastSeen <? d then candidates ++ [(key, entry)] else candidates))).
Proof.
  intros Hacc l. revert acc Hacc. induction l as [|[k p] l IH]; intros acc Hacc Hl.
  - by apply lsafe_ret.
  - cbn [fold_each]. eapply (lsafe_bind _ _ _ (λ c t', t' = t ∧ c ⊆ range)).
    + apply step_bind; [apply keeps_entry_conn|]. intros c. case_match; [by apply lsafe_ret|].
      apply step_bind; [apply keeps_reads|]. intros seen. apply lsafe_ret. split; [done|].
      case_match; [|done]. apply list_subseteq_app_iff_l. set_solver.
    + intros acc' ? [-> ?]. apply IH; [done|]. set_solver.
Qed.

Lemma keeps_expired t now timeout : facts rank t → Keeps t (expired Conn now timeout).
Proof.
  intros Ht. unfold expired. case_match; [apply keeps_ret|].
  set (d := i64 _). unfold collect_expired.
  eapply (lsafe_bind _ _ _ (λ c t', ∃ range, c ⊆ range ∧ t' = ((λ '(k, p), TIsEntry p k) <$> range) ++ t)).
  - eapply lsafe_bind; [exact _|apply learn_range|]. intros range ? ->.
    eapply lsafe_mono; [apply (safe_collect _ d range []); [apply list_subseteq_nil|done]|]. intros c ? [-> ?]. eauto.
  - intros c ? (range & Hc & ->).
    assert (Hfacts : facts rank ((λ '(k, p), TIsEntry p k) <$> range)).
    { unfold facts. apply Forall_forall. intros r ([k p] & -> & _)%list_elem_of_fmap. done. }
    apply (lsafe_forget _ _ (λ _ t', t' = ((λ '(k, p), TIsEntry p k) <$> range) ++ t)).
    + destruct c as [|cand c]; [apply keeps_ret|]. apply keeps_fold_each. intros acc [k p] Hin.
      apply keeps_expire_entry; [by apply Forall_app|]. apply elem_of_app. left.
      apply list_elem_of_fmap. exists (k, p). split; [done|]. by apply Hc.
    + intros _ ? ->. by eexists _, t.
Qed.

(** ** Every method *)

Lemma keeps_run_op t op : facts rank t → Keeps t (run_op Conn fmt_p op).
Proof.
  intros Ht. destruct op; cbn [run_op]; unfold pooled_snapshot, userOnline, groupOnline,
    userConnections, groupConnections, groupConnectionsPooled, allConnections,
    allConnectionsPooled, nextExpiration, connections_Len, connections_Range, set_Len;
    try case_match; (apply step_bind; [|intros; keeps]); keeps;
    auto using keeps_add, keeps_remove, keeps_touch, keeps_addToGroup, keeps_removeFromGroup,
      keeps_removeFromAllGroups, keeps_expired, keeps_copyConnectionSet,
      keeps_copyConnectionSetPooled, keeps_connectionSnapshot, keeps_connectionSnapshotPooled,
      keeps_userSnapshot, keeps_userSnapshotPooled.
  apply (lsafe_atomically _ _ t (λ _, t)). intros s fr HI. by eapply RI_outside, HI.
Qed.

Lemma keeps_run_ops t l : facts rank t → Keeps t (run_ops Conn fmt_p l).
Proof.
  intros Ht. induction l as [|op l IH]; cbn [run_ops]; [apply keeps_ret|].
  apply step_bind; [by apply keeps_run_op|]. intros r.
  apply step_bind; [apply IH|]. intros rs. apply keeps_ret.
Qed.

(** ** Concurrent callers *)

(** One goroutine per list of calls. *)
Definition callers (ls : list (list reg_op)) : list (Mo unit) :=
  (λ l, run_ops Conn fmt_p l ;;; mret tt) <$> ls.

(** Every key of the connections map leads to an entry of a connection with
    that key, every index leads to sets that hold connections under their keys,
    and no goroutine unlocked a mutex that was free. *)
Definition well_filed s : Prop :=
  (∀ k p, sm_model (r_connections s) !! k = Some p →
     ∃ e, r_entries s !! p = Some e ∧ e_conn e ≠ nil ∧ key (e_conn e) = k)
  ∧ (∀ i u sp, sm_model (get_index i s) !! u = Some sp →
       ∃ m, r_sets s !! sp = Some m ∧ ∀ k c, sm_model m !! k = Some c → c ≠ nil ∧ key c = k)
  ∧ r_fatal s = false.

(** No mutex is held. *)
Definition unlocked s : Prop :=
  (∀ p e, r_entries s !! p = Some e → e_mu e = false) ∧ r_indexInitLocks s = ∅.

Lemma RI_well_filed s L : RI s L → well_filed s.
Proof.
  intros HI. split_and!; [by apply HI| |by apply HI].
  intros i u sp Hsp. destruct (ri_index _ _ _ _ HI i u sp Hsp) as [m Hm]. exists m.
  split; [done|]. intros k c. by apply (ri_sets _ _ _ _ HI sp).
Qed.

Lemma RI_unlocked s L : RI s L → facts rank L → unlocked s.
Proof.
  intros HI [He Hs]%facts_no_locks. split.
  - intros p e Hp. destruct (e_mu e) eqn:Hmu; [|done].
    assert (p ∈ L ≫= is_entry_lock) as H by (apply (ri_entry_locks _ _ _ _ HI); eauto).
    rewrite He in H. set_solver.
  - apply set_eq. intros z. rewrite <- (ri_stripe_locks _ _ _ _ HI), Hs. set_solver.
Qed.

Lemma RI_new (pool : P) now : RI (newConnectionRegistry pool now : state) [].
Proof.
  assert (Hempty : ∀ i, sm_model (get_index i (newConnectionRegistry pool now : state)) = ∅).
  { intros []; cbn; apply sm_New_model. }
  constructor; cbn -[get_index]; try set_solver.
  - intros k p. unfold newConnectionMap. by rewrite sm_New_model, lookup_empty.
  - intros i u sp. by rewrite Hempty, lookup_empty.
  - split; constructor.
Qed.

Lemma callers_lok ls s : RI s [] → pool_lok RI rank (callers ls, s).
Proof.
  intros HI. exists ((λ _, []) <$> ls). split.
  - cbn. unfold callers. induction ls as [|l ls IH]; cbn; constructor; [|done].
    eapply lsafe_bind; [exact _|apply keeps_run_ops; constructor|]. intros rs ? ->.
    apply lsafe_ret. constructor.
  - cbn. replace (mjoin _) with ([] : list rtok); [done|]. by induction ls.
Qed.

(** Once all goroutines have returned no mutex is held. *)
Lemma finished_unlocked (c : pool state) :
  pool_lok RI rank c → ¬ unfinished c → unlocked c.2.
Proof.
  intros (toks & Hs & HI) Hfin. apply (RI_unlocked _ _ HI).
  unfold facts. apply Forall_forall. intros r (t & Hr & Ht)%list_elem_of_join.
  apply list_elem_of_lookup in Ht as [i Hi].
  destruct (Forall2_lookup_l _ _ _ _ _ Hs Hi) as (p & Hp & Hsafe).
  destruct p as [a|X f k]; [|by destruct Hfin; exists i, X, f, k].
  destruct Hsafe as (kn & t' & Hkn & Hperm & Ht').
  assert (facts rank t) as Hall by (unfold facts; rewrite Hperm; by apply Forall_app).
  unfold facts in Hall. rewrite Forall_forall in Hall. by apply Hall.
Qed.

(** C18. Whatever methods any number of goroutines call, and however their atomic
    actions interleave, the registry stays well filed: no key of the
    connections map dangles or leads to an entry of another connection, no
    index leads to a missing set, a set holds each connection under that
    connection's own key, and no goroutine unlocks a mutex that is not locked
    (Go's fatal error). *)
Theorem registry_well_filed_concurrently pool now ls c :
  pool_steps (callers ls, newConnectionRegistry pool now) c → well_filed c.2.
Proof.
  intros Hsteps. destruct (pool_lok_inv RI rank c) as [L HI]; [|by eapply RI_well_filed].
  eapply pool_lok_steps; [exact _| |exact Hsteps]. apply callers_lok, RI_new.
Qed.

(** C17. Concurrent calls of the registry's methods always return: whatever state
    they reach, the next steps are finite in number, while a call is not over
    some goroutine can move (no deadlock between the entries' mutexes and the
    stripes), and when all calls are over no mutex is left locked. *)
Theorem registry_calls_return pool now ls c :
  pool_steps (callers ls, newConnectionRegistry pool now) c →
  Acc (λ c' c, pool_step c c') c
  ∧ (unfinished c → ∃ c', pool_step c c')
  ∧ (¬ unfinished c → unlocked c.2).
Proof.
  intros Hsteps. assert (Hok : pool_lok RI rank c).
  { eapply pool_lok_steps; [exact _| |exact Hsteps]. apply callers_lok, RI_new. }
  split; [apply pool_step_finite|]. split; [exact (λ Hu, pool_lok_progress RI rank _ c Hok Hu)|].
  by apply finished_unlocked.
Qed.
End calls.

(** ** Witnesses *)

(** Two goroutines add connections of one user, a third puts one in a group. *)
Definition sample_callers : pool (rstate (gmap string) unit) :=
  (callers sample_conn sample_fmt
     [[OpAdd 1%nat]; [OpAdd 2%nat; OpExpired 5000 1000]; [OpAddToGroup 1%nat "g"]],
   sample_registry).

Definition sample_callers_run : list (nat * nat) :=
  repeat (0, 0)%nat 4 ++ repeat (1, 0)%nat 5 ++ repeat (2, 0)%nat 6.

Lemma registry_well_filed_concurrently_witness :
  possible sample_callers_run sample_callers = true
  ∧ well_filed sample_conn sample_fmt (run_to sample_callers_run sample_callers).2.
Proof.
  split; [by vm_compute|].
  eapply (registry_well_filed_concurrently sample_conn sample_fmt tt 1000), run_to_steps.
Defined.

Lemma registry_calls_return_witness :
  possible sample_callers_run sample_callers = true
  ∧ ∃ c', pool_step (run_to sample_callers_run sample_callers) c'.
Proof.
  split; [by vm_compute|].
  apply (registry_calls_return sample_conn sample_fmt tt 1000 _ _ (run_to_steps _ sample_callers)).
  apply (runs_unfinished _ 0). by vm_compute.
Defined.
