(* ===== verification/RegistryRace.v ===== *)
(** * Interleavings of registry calls that lose the correspondence

    The sequential refinement of RegistryProps.v does not extend to concurrent
    calls.  Three schedules, evaluated step by step. *)

From Stdlib Require Import Ascii String.
From S2P Require Import Prelude GoStd GoText Errors Proc Locks Connection ConnectionProps.
From S2P Require Import Registry RegistryProps RegistryLocks RegistryCalls.

Local Open Scope Z_scope.
Local Open Scope go_scope.

(** ** Keeping the results of the calls *)

Section logged.
Context {S R : Type}.

(** The program on a store with a log beside it. *)
Fixpoint beside {A} (p : proc S A) : proc (S * list R) A :=
  match p with
  | Ret a => Ret a
  | Act f k => Act (λ '(s, log), (λ '(x, s'), (x, (s', log))) <$> f s) (λ x, beside (k x))
  end.

Definition logs (p : proc S R) : proc (S * list R) unit :=
  r <- beside p ;;;
  modify (λ '(s, log), (s, log ++ [r])).
End logged.

(** One goroutine per call, each logging its result when it returns. *)
Definition logged_calls (ops : list reg_op) : list (proc (rstate (gmap string) unit * list reg_res) unit) :=
  (λ op, logs (run_op sample_conn sample_fmt op)) <$> ops.

Definition after (ops : list reg_op) : rstate (gmap string) unit :=
  (hd ([], sample_registry) (outcomes (run_ops sample_conn sample_fmt ops) sample_registry)).2.

(** What a caller that runs alone sees. *)
Definition answer (op : reg_op) (s : rstate (gmap string) unit) : option reg_res :=
  (hd_error (outcomes (run_op sample_conn sample_fmt op) s)) ≫= λ r, Some r.1.

(** The first goroutine makes [before] steps, the second runs to its end, the
    first finishes. *)
Definition overtaken (before second rest : nat) : list (nat * nat) :=
  repeat (0, 0)%nat before ++ repeat (1, 0)%nat second ++ repeat (0, 0)%nat rest.

Lemma overtaken_reaches before second rest (c : pool (rstate (gmap string) unit * list reg_res)) :
  let c' := run_to (overtaken before second rest) c in
  finished c' = true → pool_steps c c' ∧ ¬ unfinished c'.
Proof. intros c' H. split; [apply run_to_steps|by apply finished_spec]. Qed.

(** C38. [addToGroup] looks its entry up before it takes the entry's mutex and
    does not look again; when [remove] of the same connection runs in between,
    both calls succeed and the connection, no longer registered, stays a member
    of the group for good. *)
Theorem removed_connection_left_in_group :
  ∃ c, pool_steps (logged_calls [OpAddToGroup 1%nat "g"; OpRemove 1%nat], (after [OpAdd 1%nat], [])) c
    ∧ ¬ unfinished c
    ∧ c.2.2 = [RBool true; RErr None]
    ∧ answer (OpAllConnections false) c.2.1 = Some (RConns [])
    ∧ answer (OpGroupConnections "g" false) c.2.1 = Some (RConns [1%nat]).
Proof.
  exists (run_to (overtaken 1 15 12)
    (logged_calls [OpAddToGroup 1%nat "g"; OpRemove 1%nat], (after [OpAdd 1%nat], []))).
  apply and_assoc. split; [apply overtaken_reaches; by vm_compute|]. by split_and!; vm_compute.
Qed.

(** C39. [remove] looks its entry up before it takes the entry's mutex and does
    not look again; when [expired] takes the connection out in between, both
    calls report that they removed it. *)
Theorem connection_removed_twice :
  ∃ c, pool_steps (logged_calls [OpRemove 1%nat; OpExpired 5000 1000], (after [OpAdd 1%nat], [])) c
    ∧ ¬ unfinished c
    ∧ c.2.2 = [RConns [1%nat]; RBool true].
Proof.
  exists (run_to (overtaken 1 19 7)
    (logged_calls [OpRemove 1%nat; OpExpired 5000 1000], (after [OpAdd 1%nat], []))).
  apply and_assoc. split; [apply overtaken_reaches; by vm_compute|by vm_compute].
Qed.

(** C40. [connectionSetFor] returns a set that [removeConnectionFromIndex] may drop
    from the index before the caller adds to it: a connection of a user added
    while the user's last connection is removed is registered, but the user
    counts as offline and is sent nothing. *)
Theorem added_connection_not_in_index :
  ∃ c, pool_steps (logged_calls [OpAdd 2%nat; OpRemove 1%nat], (after [OpAdd 1%nat], [])) c
    ∧ ¬ unfinished c
    ∧ answer (OpAllConnections false) c.2.1 = Some (RConns [2%nat])
    ∧ UserID (sample_conn 2%nat) = "u"%string
    ∧ answer (OpUserOnline "u") c.2.1 = Some (RNum 0)
    ∧ answer (OpUserSnapshot ["u"%string] false) c.2.1 = Some (RConns []).
Proof.
  exists (run_to (overtaken 4 15 5)
    (logged_calls [OpAdd 2%nat; OpRemove 1%nat], (after [OpAdd 1%nat], []))).
  apply and_assoc. split; [apply overtaken_reaches; by vm_compute|]. by split_and!; vm_compute.
Qed.
