(* ===== verification/Batch.v ===== *)
(** * Batch sends and closes (batch_send.go, batch_close.go)

    [sendConnections] and [closeConnections] start a pool of workers fed over an
    unbuffered channel; workers report over a channel the calling goroutine
    counts.  Each is a state [batch] (where every goroutine is, what the channels
    hold) and a step function over scheduler choices. *)

From Stdlib Require Import Ascii String.
From S2P Require Import Prelude GoStd Errors Registry.

Local Open Scope Z_scope.

(** ** Pure parts *)

Definition DefaultSendConcurrency : Z := 256.
Definition maxSendErrorSamples : Z := 4.

Definition normalizeSendConcurrency (n : Z) : Z :=
  if n <=? 0 then DefaultSendConcurrency else n.

Definition buildBatchError (operation : string) (failed : Z) (samples : list error) : option error :=
  if failed =? 0 then None
  else
    let text := ("signalg: failed to " ++ operation ++ " " ++ pretty failed ++ " connection(s)")%string in
    match errors_Join (Some <$> samples) with
    | None => Some (New text)
    | Some joined => Some (Errorf (text ++ ": ") joined "")
    end.

Definition buildSendError (failed : Z) (samples : list error) : option error :=
  buildBatchError "send" failed samples.
Definition buildCloseError (failed : Z) (samples : list error) : option error :=
  buildBatchError "close" failed samples.

Record SendResult := {
  sr_Matched : Z;
  sr_Sent : Z;
  sr_Failed : Z;
  sr_Err : option error;
}.

Record CloseResult := {
  cr_Matched : Z;
  cr_Closed : Z;
  cr_Failed : Z;
  cr_Err : option error;
}.

(** ** Goroutines and channels *)

(** The two batch operations; they differ in the job of a worker and in
    whether the feeder gives up when the context is done. *)
Inductive batch_kind := SendBatch | CloseBatch.

(** A worker: at [range jobs], in [SendRaw] or [closeNow], at [results <- err],
    or past [wg.Done()]. *)
Inductive worker :=
| Receiving
| Running (conn : ptr)
| Reporting (err : option error)
| Exited.

(** The goroutine that feeds the workers: in its loop, at [results <- ctx.Err()],
    in [wg.Wait()], or done with [close(results)]. *)
Inductive feeder :=
| Feeding (rest : list ptr)
| Cancelling (err : option error) (rest : list ptr)
| Waiting
| Closed.

(** What became of one connection. *)
Inductive fate :=
| Ran (err : option error)        (* [SendRaw] or [closeNow] was called *)
| Skipped (err : option error).   (* the context was done before *)

Record batch := {
  b_feeder : feeder;
  b_workers : list worker;
  b_wg : Z;
  b_jobsClosed : bool;
  b_results : list (option error);
  b_resultsCap : Z;
  b_resultsClosed : bool;
  b_ctx : option error;               (* ctx.Err() *)
  b_ok : Z;                           (* result.Sent or result.Closed *)
  b_failed : Z;
  b_samples : list error;
  b_returned : bool;                  (* the calling goroutine is past its loop *)
  b_log : list (ptr * fate);          (* history: fates in order *)
  b_taken : list (option error);      (* history: values read from results *)
}.

(** The start of both functions, when there is a connection. *)
Definition start_batch (sendConcurrency : Z) (ctx : option error) (connections : list ptr) : batch :=
  let workers := if zlen connections <? sendConcurrency then zlen connections else sendConcurrency in
  {| b_feeder := Feeding connections; b_workers := replicate (Z.to_nat workers) Receiving;
     b_wg := workers; b_jobsClosed := false; b_results := []; b_resultsCap := workers;
     b_resultsClosed := false; b_ctx := ctx; b_ok := 0; b_failed := 0; b_samples := [];
     b_returned := false; b_log := []; b_taken := [] |}.

(** ** Field updates *)

Definition set_feeder (v : feeder) (b : batch) : batch :=
  {| b_feeder := v; b_workers := b_workers b; b_wg := b_wg b; b_jobsClosed := b_jobsClosed b;
     b_results := b_results b; b_resultsCap := b_resultsCap b;
     b_resultsClosed := b_resultsClosed b; b_ctx := b_ctx b; b_ok := b_ok b;
     b_failed := b_failed b; b_samples := b_samples b; b_returned := b_returned b;
     b_log := b_log b; b_taken := b_taken b |}.

Definition set_worker (i : nat) (v : worker) (b : batch) : batch :=
  {| b_feeder := b_feeder b; b_workers := <[i := v]> (b_workers b); b_wg := b_wg b;
     b_jobsClosed := b_jobsClosed b; b_results := b_results b; b_resultsCap := b_resultsCap b;
     b_resultsClosed := b_resultsClosed b; b_ctx := b_ctx b; b_ok := b_ok b;
     b_failed := b_failed b; b_samples := b_samples b; b_returned := b_returned b;
     b_log := b_log b; b_taken := b_taken b |}.

Definition set_wg (v : Z) (b : batch) : batch :=
  {| b_feeder := b_feeder b; b_workers := b_workers b; b_wg := v; b_jobsClosed := b_jobsClosed b;
     b_results := b_results b; b_resultsCap := b_resultsCap b;
     b_resultsClosed := b_resultsClosed b; b_ctx := b_ctx b; b_ok := b_ok b;
     b_failed := b_failed b; b_samples := b_samples b; b_returned := b_returned b;
     b_log := b_log b; b_taken := b_taken b |}.

Definition close_jobs (b : batch) : batch :=
  {| b_feeder := b_feeder b; b_workers := b_workers b; b_wg := b_wg b; b_jobsClosed := true;
     b_results := b_results b; b_resultsCap := b_resultsCap b;
     b_resultsClosed := b_resultsClosed b; b_ctx := b_ctx b; b_ok := b_ok b;
     b_failed := b_failed b; b_samples := b_samples b; b_returned := b_returned b;
     b_log := b_log b; b_taken := b_taken b |}.

Definition close_results (b : batch) : batch :=
  {| b_feeder := b_feeder b; b_workers := b_workers b; b_wg := b_wg b;
     b_jobsClosed := b_jobsClosed b; b_results := b_results b; b_resultsCap := b_resultsCap b;
     b_resultsClosed := true; b_ctx := b_ctx b; b_ok := b_ok b;
     b_failed := b_failed b; b_samples := b_samples b; b_returned := b_returned b;
     b_log := b_log b; b_taken := b_taken b |}.

Definition put_result (e : option error) (b : batch) : batch :=
  {| b_feeder := b_feeder b; b_workers := b_workers b; b_wg := b_wg b;
     b_jobsClosed := b_jobsClosed b; b_results := b_results b ++ [e];
     b_resultsCap := b_resultsCap b; b_resultsClosed := b_resultsClosed b; b_ctx := b_ctx b;
     b_ok := b_ok b; b_failed := b_failed b; b_samples := b_samples b;
     b_returned := b_returned b; b_log := b_log b; b_taken := b_taken b |}.

Definition log_fate (conn : ptr) (x : fate) (b : batch) : batch :=
  {| b_feeder := b_feeder b; b_workers := b_workers b; b_wg := b_wg b;
     b_jobsClosed := b_jobsClosed b; b_results := b_results b; b_resultsCap := b_resultsCap b;
     b_resultsClosed := b_resultsClosed b; b_ctx := b_ctx b; b_ok := b_ok b;
     b_failed := b_failed b; b_samples := b_samples b; b_returned := b_returned b;
     b_log := b_log b ++ [(conn, x)]; b_taken := b_taken b |}.

Definition cancel_ctx (e : error) (b : batch) : batch :=
  {| b_feeder := b_feeder b; b_workers := b_workers b; b_wg := b_wg b;
     b_jobsClosed := b_jobsClosed b; b_results := b_results b; b_resultsCap := b_resultsCap b;
     b_resultsClosed := b_resultsClosed b; b_ctx := Some e; b_ok := b_ok b;
     b_failed := b_failed b; b_samples := b_samples b; b_returned := b_returned b;
     b_log := b_log b; b_taken := b_taken b |}.

(** One round of [for err := range results]. *)
Definition count_result (e : option error) (rest : list (option error)) (b : batch) : batch :=
  {| b_feeder := b_feeder b; b_workers := b_workers b; b_wg := b_wg b;
     b_jobsClosed := b_jobsClosed b; b_results := rest; b_resultsCap := b_resultsCap b;
     b_resultsClosed := b_resultsClosed b; b_ctx := b_ctx b;
     b_ok := match e with None => b_ok b + 1 | Some _ => b_ok b end;
     b_failed := match e with None => b_failed b | Some _ => b_failed b + 1 end;
     b_samples := match e with
                  | None => b_samples b
                  | Some err => if zlen (b_samples b) <? maxSendErrorSamples
                                then b_samples b ++ [err] else b_samples b
                  end;
     b_returned := b_returned b; b_log := b_log b; b_taken := b_taken b ++ [e] |}.

Definition set_returned (b : batch) : batch :=
  {| b_feeder := b_feeder b; b_workers := b_workers b; b_wg := b_wg b;
     b_jobsClosed := b_jobsClosed b; b_results := b_results b; b_resultsCap := b_resultsCap b;
     b_resultsClosed := b_resultsClosed b; b_ctx := b_ctx b; b_ok := b_ok b;
     b_failed := b_failed b; b_samples := b_samples b; b_returned := true;
     b_log := b_log b; b_taken := b_taken b |}.

(** ** Steps *)

(** A scheduler choice. *)
Inductive choice :=
| Deliver (i : nat)                        (* [jobs <- conn] meets worker [i] *)
| GiveUp                                   (* the feeder's [<-ctx.Done()] *)
| PutGivenUp                               (* [results <- ctx.Err()] *)
| CloseJobs
| CloseResults                             (* past [wg.Wait()] *)
| Return (i : nat) (err : option error)    (* the call of worker [i] returns *)
| Skip (i : nat)                           (* worker [i] sees [<-ctx.Done()] *)
| Report (i : nat)
| Exit (i : nat)                           (* worker [i] finds [jobs] closed *)
| Take
| Finish
| CtxDone (e : error).                     (* the caller's context ends *)

Definition has_room (b : batch) : bool := zlen (b_results b) <? b_resultsCap b.

Definition batch_step (kind : batch_kind) (ch : choice) (b : batch) : option batch :=
  match ch with
  | Deliver i =>
      match b_feeder b, b_workers b !! i with
      | Feeding (conn :: rest), Some Receiving =>
          Some (set_feeder (Feeding rest) (set_worker i (Running conn) b))
      | _, _ => None
      end
  | GiveUp =>
      match kind, b_feeder b, b_ctx b with
      | CloseBatch, Feeding (conn :: rest), Some e =>
          Some (log_fate conn (Skipped (Some e)) (set_feeder (Cancelling (Some e) rest) b))
      | _, _, _ => None
      end
  | PutGivenUp =>
      match b_feeder b with
      | Cancelling e rest =>
          if has_room b then Some (set_feeder (Feeding rest) (put_result e b)) else None
      | _ => None
      end
  | CloseJobs =>
      match b_feeder b with
      | Feeding [] => Some (set_feeder Waiting (close_jobs b))
      | _ => None
      end
  | CloseResults =>
      match b_feeder b with
      | Waiting => if b_wg b =? 0 then Some (set_feeder Closed (close_results b)) else None
      | _ => None
      end
  | Return i err =>
      match b_workers b !! i, kind, b_ctx b with
      | Some (Running _), CloseBatch, Some _ => None
      | Some (Running conn), _, _ =>
          Some (log_fate conn (Ran err) (set_worker i (Reporting err) b))
      | _, _, _ => None
      end
  | Skip i =>
      match b_workers b !! i, kind, b_ctx b with
      | Some (Running conn), CloseBatch, Some e =>
          Some (log_fate conn (Skipped (Some e)) (set_worker i (Reporting (Some e)) b))
      | _, _, _ => None
      end
  | Report i =>
      match b_workers b !! i with
      | Some (Reporting err) =>
          if has_room b then Some (set_worker i Receiving (put_result err b)) else None
      | _ => None
      end
  | Exit i =>
      match b_workers b !! i with
      | Some Receiving =>
          if b_jobsClosed b then Some (set_wg (b_wg b - 1) (set_worker i Exited b)) else None
      | _ => None
      end
  | Take =>
      match b_results b with
      | e :: rest => if b_returned b then None else Some (count_result e rest b)
      | [] => None
      end
  | Finish =>
      match b_results b with
      | [] => if b_resultsClosed b && negb (b_returned b) then Some (set_returned b) else None
      | _ => None
      end
  | CtxDone e => match b_ctx b with None => Some (cancel_ctx e b) | Some _ => None end
  end.

Definition batch_next (kind : batch_kind) (b b' : batch) : Prop :=
  ∃ ch, batch_step kind ch b = Some b'.

Definition batch_run (kind : batch_kind) : list choice → batch → option batch :=
  fix run chs b :=
    match chs with
    | [] => Some b
    | ch :: chs => batch_step kind ch b ≫= run chs
    end.

(** ** The two functions *)

(** What [sendConnections] returns: at once without connections, else the counts
    when the calling goroutine has left its loop. *)
Inductive sendConnections (sendConcurrency : Z) (ctx : option error) (connections : list ptr)
    : SendResult → Prop :=
| send_none :
    connections = [] →
    sendConnections sendConcurrency ctx connections
      {| sr_Matched := 0; sr_Sent := 0; sr_Failed := 0; sr_Err := None |}
| send_some b :
    connections ≠ [] →
    rtc (batch_next SendBatch) (start_batch sendConcurrency ctx connections) b →
    b_returned b = true →
    sendConnections sendConcurrency ctx connections
      {| sr_Matched := zlen connections; sr_Sent := b_ok b; sr_Failed := b_failed b;
         sr_Err := buildSendError (b_failed b) (b_samples b) |}.

Inductive closeConnections (sendConcurrency : Z) (ctx : option error) (connections : list ptr)
    : CloseResult → Prop :=
| close_none :
    connections = [] →
    closeConnections sendConcurrency ctx connections
      {| cr_Matched := 0; cr_Closed := 0; cr_Failed := 0; cr_Err := None |}
| close_some b :
    connections ≠ [] →
    rtc (batch_next CloseBatch) (start_batch sendConcurrency ctx connections) b →
    b_returned b = true →
    closeConnections sendConcurrency ctx connections
      {| cr_Matched := zlen connections; cr_Closed := b_ok b; cr_Failed := b_failed b;
         cr_Err := buildCloseError (b_failed b) (b_samples b) |}.
