(* ===== verification/BatchFacts.v ===== *)
(** * Batches: nothing lost, nothing tried twice, and always an end *)

From Stdlib Require Import Ascii String.
From S2P Require Import Prelude GoStd Errors Registry Batch.

Local Open Scope Z_scope.

(** ** Counting *)

(** The connections in the hands of workers, and the values they are to send. *)
Definition running (w : worker) : list ptr :=
  match w with Running conn => [conn] | _ => [] end.
Definition reporting (w : worker) : list (option error) :=
  match w with Reporting e => [e] | _ => [] end.
Definition live (w : worker) : bool := match w with Exited => false | _ => true end.

Definition fed (f : feeder) : list ptr :=
  match f with Feeding rest | Cancelling _ rest => rest | _ => [] end.
Definition cancelling (f : feeder) : list (option error) :=
  match f with Cancelling e _ => [e] | _ => [] end.

Definition fate_result (x : fate) : option error :=
  match x with Ran e | Skipped e => e end.

Definition oks (l : list (option error)) : Z := zlen (filter (λ e, e = None) l).
Definition errs (l : list (option error)) : list error := omap id l.

(** The invariant of both batches over [connections]. *)
Record batch_ok (kind : batch_kind) (connections : list ptr) (n : Z) (b : batch) : Prop := {
  bo_conns : (b_log b).*1 ++ (b_workers b ≫= running) ++ fed (b_feeder b) ≡ₚ connections;
  bo_results : fate_result <$> (b_log b).*2
    ≡ₚ (b_workers b ≫= reporting) ++ cancelling (b_feeder b) ++ b_results b ++ b_taken b;
  bo_ok : b_ok b = oks (b_taken b);
  bo_failed : b_failed b = zlen (errs (b_taken b));
  bo_samples : b_samples b = take 4 (errs (b_taken b));
  bo_workers : length (b_workers b) = Z.to_nat n;
  bo_cap : b_resultsCap b = n;
  bo_wg : b_wg b = zlen (filter (λ w, live w = true) (b_workers b));
  bo_jobs : b_jobsClosed b = match b_feeder b with Waiting | Closed => true | _ => false end;
  bo_resc : b_resultsClosed b = match b_feeder b with Closed => true | _ => false end;
  bo_exited : Exited ∈ b_workers b → b_jobsClosed b = true;
  bo_closed : b_feeder b = Closed → Forall (λ w, w = Exited) (b_workers b);
  bo_returned : b_returned b = true → b_feeder b = Closed ∧ b_results b = [];
  bo_send : kind = SendBatch →
    cancelling (b_feeder b) = [] ∧ ∀ conn x, (conn, x) ∈ b_log b → ∃ e, x = Ran e;
  bo_skipped : ∀ conn e, (conn, Skipped e) ∈ b_log b → is_Some e;
}.

(** Replacing worker [i] in a concatenation over the workers. *)
Lemma bind_insert {A B} (f : A → list B) (l : list A) i x y :
  l !! i = Some x → ∃ fr, l ≫= f ≡ₚ f x ++ fr ∧ <[i := y]> l ≫= f ≡ₚ f y ++ fr.
Proof.
  intros Hi. exists ((take i l ≫= f) ++ (drop (S i) l ≫= f)).
  rewrite insert_take_drop by (by eapply lookup_lt_Some).
  rewrite <- (take_drop_middle l i x Hi) at 1. rewrite !bind_app. cbn.
  split; apply Permutation_app_swap_app.
Qed.

Lemma elem_of_insert_inv {A} (l : list A) i x y : y ∈ <[i := x]> l → y = x ∨ y ∈ l.
Proof.
  intros (j & Hj)%list_elem_of_lookup. apply list_lookup_insert_Some in Hj as [(_ & -> & _)|[_ Hj]].
  - by left.
  - right. by eapply list_elem_of_lookup_2.
Qed.

Lemma filter_live_insert ws i w w' :
  ws !! i = Some w →
  zlen (filter (λ w, live w = true) (<[i := w']> ws))
  = zlen (filter (λ w, live w = true) ws) - (if live w then 1 else 0) + (if live w' then 1 else 0).
Proof.
  intros Hi. rewrite insert_take_drop by (by eapply lookup_lt_Some).
  rewrite <- (take_drop_middle ws i w Hi) at 3. rewrite !filter_app, !zlen_app, !filter_cons.
  unfold zlen. destruct (live w), (live w'); repeat case_decide; cbn; try done; lia.
Qed.

Lemma oks_app l e : oks (l ++ [e]) = oks l + match e with None => 1 | Some _ => 0 end.
Proof.
  unfold oks. rewrite filter_app, zlen_app, filter_cons. destruct e; case_decide; cbn; done.
Qed.

Lemma errs_app l e : errs (l ++ [e]) = errs l ++ match e with None => [] | Some e => [e] end.
Proof. unfold errs. rewrite omap_app. by destruct e. Qed.

Lemma sample_snoc (l : list error) e :
  (if zlen (take 4 l) <? maxSendErrorSamples then take 4 l ++ [e] else take 4 l)
  = take 4 (l ++ [e]).
Proof.
  unfold maxSendErrorSamples, zlen. rewrite length_take.
  destruct (decide (length l < 4)%nat), (Z.ltb_spec (Z.of_nat (4 `min` length l)) 4); try lia.
  - by rewrite !take_ge by (rewrite ?length_app; cbn; lia).
  - by rewrite take_app_le by lia.
Qed.

Lemma start_batch_ok kind conc ctx connections :
  0 < conc → connections ≠ [] →
  batch_ok kind connections (Z.min (zlen connections) conc) (start_batch conc ctx connections)
  ∧ 0 < Z.min (zlen connections) conc.
Proof.
  intros Hc Hne. assert (0 < zlen connections) by (destruct connections; [done|unfold zlen; cbn; lia]).
  assert (Hn : (if zlen connections <? conc then zlen connections else conc) = Z.min (zlen connections) conc).
  { destruct (Z.ltb_spec (zlen connections) conc); lia. }
  split; [|lia]. set (n := Z.min _ _) in *.
  assert (Hbind : ∀ {B} (f : worker → list B) k, f Receiving = [] → replicate k Receiving ≫= f = []).
  { intros B f k Hf. induction k as [|k IH]; cbn; [done|]. by rewrite Hf. }
  constructor; cbn; rewrite ?Hn; try done.
  - rewrite Hbind by done. done.
  - rewrite Hbind by done. done.
  - apply length_replicate.
  - rewrite filter_all by (by intros w [-> _]%elem_of_replicate). unfold zlen. rewrite length_replicate. lia.
  - intros [[=] _]%elem_of_replicate.
  - intros _. split; [done|]. set_solver.
  - set_solver.
Qed.

Section step.
Context (kind : batch_kind) (connections : list ptr) (n : Z) (b : batch).
Context (HI : batch_ok kind connections n b).

(** The parts of the invariant about the workers, after worker [i] moved. *)
Lemma insert_workers i w w' :
  b_workers b !! i = Some w → live w = true →
  length (<[i := w']> (b_workers b)) = Z.to_nat n
  ∧ (live w' = true → zlen (filter (λ w, live w = true) (<[i := w']> (b_workers b))) = b_wg b)
  ∧ (live w' = true → Exited ∈ <[i := w']> (b_workers b) → b_jobsClosed b = true)
  ∧ b_feeder b ≠ Closed ∧ b_returned b = false.
Proof.
  intros Hi Hw. destruct HI. split_and!.
  - by rewrite length_insert.
  - intros Hw'. rewrite (filter_live_insert _ _ w) by done. rewrite Hw, Hw'. lia.
  - intros Hw' [<-|Hin]%elem_of_insert_inv; [done|auto].
  - intros Hc. specialize (bo_closed0 Hc). rewrite Forall_forall in bo_closed0.
    apply list_elem_of_lookup_2, bo_closed0 in Hi as ->. done.
  - destruct (b_returned b) eqn:Hr; [|done]. destruct (bo_returned0 eq_refl) as [Hc _].
    specialize (bo_closed0 Hc). rewrite Forall_forall in bo_closed0.
    apply list_elem_of_lookup_2, bo_closed0 in Hi as ->. done.
Qed.

(** A worker moves on while the feeder and the counting stay as they are. *)
Ltac worker Hi w' :=
  let H1 := fresh "Hrun" in let H2 := fresh "Hrun'" in
  let H3 := fresh "Hrep" in let H4 := fresh "Hrep'" in
  destruct (insert_workers _ _ w' Hi eq_refl) as (Hlen & Hwg & Hex & Hncl & Hnret);
  destruct (bind_insert running _ _ _ w' Hi) as (? & H1 & H2);
  destruct (bind_insert reporting _ _ _ w' Hi) as (? & H3 & H4);
  cbn [running reporting app] in H1, H2, H3, H4; destruct HI;
  rewrite H1 in *; rewrite H3 in *.

(** The two equations between multisets. *)
Ltac balance :=
  cbn; rewrite ?fmap_app; cbn;
  match goal with
  | H : _ ≡ₚ ?c |- _ ≡ₚ ?c =>
      etransitivity; [|exact H]; rewrite ?fmap_app;
      repeat match goal with E : _ ≫= _ ≡ₚ _ |- _ => rewrite E end; cbn; solve_Permutation
  | H : ?c ≡ₚ _ |- _ => rewrite H;
      repeat match goal with E : _ ≫= _ ≡ₚ _ |- _ => rewrite E end; cbn; solve_Permutation
  end.

Lemma deliver_ok i conn rest :
  b_feeder b = Feeding (conn :: rest) → b_workers b !! i = Some Receiving →
  batch_ok kind connections n (set_feeder (Feeding rest) (set_worker i (Running conn) b)).
Proof.
  intros Hf Hi. worker Hi (Running conn). rewrite Hf in *.
  constructor; cbn in *; try done; auto; try congruence; try balance. by rewrite Hwg.
Qed.

Lemma returned_ok i conn x :
  b_workers b !! i = Some (Running conn) →
  (kind = SendBatch → ∃ e, x = Ran e) → (∀ e, x = Skipped e → is_Some e) →
  batch_ok kind connections n
    (log_fate conn x (set_worker i (Reporting (fate_result x)) b)).
Proof.
  intros Hi Hx Hs. worker Hi (Reporting (fate_result x)).
  constructor; cbn in *; try done; auto; try congruence; try balance.
  - by rewrite Hwg.
  - intros Hk. destruct (bo_send0 Hk) as [? Hl]. split; [done|].
    intros c y [?|[= -> ->]%list_elem_of_singleton]%elem_of_app; eauto.
  - intros c e [?|[= -> <-]%list_elem_of_singleton]%elem_of_app; eauto.
Qed.

Lemma report_ok i e :
  b_workers b !! i = Some (Reporting e) →
  batch_ok kind connections n (set_worker i Receiving (put_result e b)).
Proof.
  intros Hi. worker Hi Receiving.
  constructor; cbn in *; try done; auto; try congruence; try balance. by rewrite Hwg.
Qed.

Lemma exit_ok i :
  b_workers b !! i = Some Receiving → b_jobsClosed b = true →
  batch_ok kind connections n (set_wg (b_wg b - 1) (set_worker i Exited b)).
Proof.
  intros Hi Hj. pose proof (filter_live_insert _ _ _ Exited Hi) as Hw. worker Hi Exited.
  constructor; cbn in *; try done; auto; try congruence; try balance; lia.
Qed.

Lemma give_up_ok conn rest e :
  b_feeder b = Feeding (conn :: rest) → kind = CloseBatch →
  batch_ok kind connections n
    (log_fate conn (Skipped (Some e)) (set_feeder (Cancelling (Some e) rest) b)).
Proof.
  intros Hf ->. destruct HI. rewrite Hf in *.
  constructor; cbn in *; try done; auto; try congruence; try balance.
  - intros Hr. by destruct (bo_returned0 Hr).
  - intros c x [?|[= -> ->]%list_elem_of_singleton]%elem_of_app; eauto.
Qed.

Lemma put_given_up_ok e rest :
  b_feeder b = Cancelling e rest →
  batch_ok kind connections n (set_feeder (Feeding rest) (put_result e b)).
Proof.
  intros Hf. destruct HI. rewrite Hf in *.
  constructor; cbn in *; try done; auto; try congruence; try balance.
  - intros Hr. by destruct (bo_returned0 Hr).
  - intros Hk. by destruct (bo_send0 Hk).
Qed.

Lemma close_jobs_ok :
  b_feeder b = Feeding [] → batch_ok kind connections n (set_feeder Waiting (close_jobs b)).
Proof.
  intros Hf. destruct HI. rewrite Hf in *.
  constructor; cbn in *; try done; auto; try congruence; try balance.
  intros Hr. by destruct (bo_returned0 Hr).
Qed.

Lemma close_results_ok :
  b_feeder b = Waiting → b_wg b = 0 →
  batch_ok kind connections n (set_feeder Closed (close_results b)).
Proof.
  intros Hf Hw. destruct HI. rewrite Hf in *.
  constructor; cbn in *; try done; auto; try congruence; try balance.
  - intros _. apply Forall_forall. intros w Hin. destruct (live w) eqn:Hlw; [|by destruct w].
    assert (Hl : filter (λ w, live w = true) (b_workers b) = []).
    { apply nil_length_inv. unfold zlen in *. lia. }
    exfalso. by apply (filter_nil_not_elem_of _ _ w Hl Hlw).
  - intros Hr. by destruct (bo_returned0 Hr).
Qed.

Lemma take_ok e rest :
  b_results b = e :: rest → b_returned b = false →
  batch_ok kind connections n (count_result e rest b).
Proof.
  intros Hr Hn. destruct HI. rewrite Hr in *.
  constructor; cbn in *; try done; auto; try congruence; try balance.
  - rewrite oks_app. destruct e; lia.
  - rewrite errs_app, zlen_app. destruct e; cbn; unfold zlen in *; cbn; lia.
  - rewrite errs_app. destruct e; [|by rewrite app_nil_r].
    rewrite bo_samples0. apply sample_snoc.
Qed.

Lemma finish_ok :
  b_results b = [] → b_resultsClosed b = true → batch_ok kind connections n (set_returned b).
Proof.
  intros Hr Hc. destruct HI. constructor; cbn in *; try done; auto.
  intros _. split; [|done]. destruct (b_feeder b); congruence.
Qed.

Lemma ctx_done_ok e : batch_ok kind connections n (cancel_ctx e b).
Proof. destruct HI. by constructor. Qed.
End step.

Lemma batch_step_ok kind connections n b b' :
  batch_ok kind connections n b → batch_next kind b b' → batch_ok kind connections n b'.
Proof.
  intros HI [ch Hs]. destruct ch; cbn in Hs; repeat case_match; simplify_eq;
    first [ by apply deliver_ok | by apply give_up_ok | by eapply put_given_up_ok
          | by apply close_jobs_ok | by apply report_ok | by apply exit_ok
          | by apply finish_ok | by apply ctx_done_ok | by apply take_ok
          | by apply close_results_ok; [..|lia] | idtac ].
  - apply (returned_ok _ _ _ _ HI i conn (Ran err)); [done|eauto|done].
  - apply (returned_ok _ _ _ _ HI i conn (Ran err)); [done|eauto|done].
  - apply (returned_ok _ _ _ _ HI i conn (Skipped (Some e))); [done|done|]. by intros ? [= <-].
  - apply finish_ok; [done..|]. by destruct (b_resultsClosed b).
Qed.

Lemma batch_steps_ok kind connections n b b' :
  batch_ok kind connections n b → rtc (batch_next kind) b b' → batch_ok kind connections n b'.
Proof. intros HI Hs. induction Hs; eauto using batch_step_ok. Qed.

(** ** Every schedule ends *)

Definition worker_work (w : worker) : Z :=
  match w with Running _ => 4 | Reporting _ => 3 | Receiving => 1 | Exited => 0 end.

Definition feeder_work (f : feeder) : Z :=
  match f with
  | Feeding rest => 2 + 4 * zlen rest
  | Cancelling _ rest => 4 + 4 * zlen rest
  | Waiting => 1
  | Closed => 0
  end.

Definition workers_work (ws : list worker) : Z := foldr (λ w acc, worker_work w + acc) 0 ws.

(** What is left to do; every step takes some of it away. *)
Definition work (b : batch) : Z :=
  feeder_work (b_feeder b) + workers_work (b_workers b) + zlen (b_results b)
  + (if b_returned b then 0 else 1) + match b_ctx b with None => 1 | Some _ => 0 end.

Lemma workers_work_insert ws i w w' :
  ws !! i = Some w → workers_work (<[i := w']> ws) = workers_work ws - worker_work w + worker_work w'.
Proof.
  unfold workers_work. revert i.
  induction ws as [|v ws IH]; intros [|i] Hi; cbn in *; simplify_eq; [lia|].
  etransitivity; [apply (f_equal (Z.add (worker_work v))), (IH i Hi)|lia].
Qed.

Lemma workers_work_nonneg ws : 0 ≤ workers_work ws.
Proof.
  induction ws as [|w ws IH]; [done|]. change (0 ≤ worker_work w + workers_work ws).
  destruct w; cbn [worker_work]; lia.
Qed.

Lemma work_nonneg b : 0 ≤ work b.
Proof.
  unfold work, zlen. pose proof (workers_work_nonneg (b_workers b)).
  destruct (b_feeder b), (b_returned b), (b_ctx b); cbn [feeder_work]; unfold zlen; lia.
Qed.

Lemma zlen_cons {A} (a : A) l : zlen (a :: l) = 1 + zlen l.
Proof. unfold zlen. cbn. lia. Qed.

Lemma work_decreases kind b b' : batch_next kind b b' → work b' < work b.
Proof.
  intros [ch Hs]. destruct ch; cbn in Hs; repeat case_match; simplify_eq; unfold work; cbn -[workers_work];
    repeat match goal with H : b_feeder b = _ |- _ => rewrite H end;
    repeat match goal with H : b_results b = _ |- _ => rewrite H end;
    repeat match goal with H : b_ctx b = _ |- _ => rewrite H end;
    repeat match goal with H : b_returned b = _ |- _ => rewrite H end;
    repeat match goal with H : b_workers b !! _ = Some _ |- _ =>
      rewrite (workers_work_insert _ _ _ _ H); clear H end;
    cbn [feeder_work worker_work]; rewrite ?zlen_app, ?zlen_cons; unfold zlen; cbn -[workers_work];
    repeat case_match; try lia.
Qed.

Lemma batch_finite kind b : Acc (λ b' b, batch_next kind b b') b.
Proof.
  assert (H : ∀ n b, work b < Z.of_nat n → Acc (λ b' b, batch_next kind b b') b).
  { intros n. induction n as [|n IH]; intros b' Hb; [pose proof (work_nonneg b'); lia|].
    constructor. intros b2 H2%work_decreases. apply IH. lia. }
  apply (H (S (Z.to_nat (work b)))). pose proof (work_nonneg b). lia.
Qed.

(** ** No schedule gets stuck *)

Lemma some_worker (f : worker → bool) (ws : list worker) :
  (∃ i w, ws !! i = Some w ∧ f w = true) ∨ ∀ w, w ∈ ws → f w = false.
Proof.
  destruct (existsb f ws) eqn:E.
  - left. apply existsb_exists in E as (w & Hw & ?). apply list_elem_of_In, list_elem_of_lookup in Hw as [i Hi].
    eauto.
  - right. intros w Hw. destruct (f w) eqn:Ew; [|done]. rewrite <- E. symmetry.
    apply existsb_exists. exists w. split; [by apply list_elem_of_In|done].
Qed.

Definition busy (w : worker) : bool :=
  match w with Running _ | Reporting _ => true | _ => false end.
Definition receiving (w : worker) : bool := match w with Receiving => true | _ => false end.

Lemma batch_progress kind connections n b :
  batch_ok kind connections n b → 0 < n → b_returned b = false → ∃ b', batch_next kind b b'.
Proof.
  intros HI Hn Hr. destruct HI.
  destruct (b_results b) as [|e rest] eqn:Hres; [|eexists; exists Take; cbn; by rewrite Hres, Hr].
  assert (Hroom : has_room b = true).
  { unfold has_room. rewrite Hres, bo_cap0. apply Z.ltb_lt. done. }
  destruct (some_worker busy (b_workers b)) as [(i & w & Hi & Hb)|Hidle].
  { destruct w as [|conn|e|]; [done| | |done].
    - destruct kind, (b_ctx b) as [e|] eqn:Hc.
      + eexists. exists (Return i None). cbn. by rewrite Hi.
      + eexists. exists (Return i None). cbn. by rewrite Hi.
      + eexists. exists (Skip i). cbn. by rewrite Hi, Hc.
      + eexists. exists (Return i None). cbn. by rewrite Hi, Hc.
    - eexists. exists (Report i). cbn. by rewrite Hi, Hroom. }
  destruct (some_worker receiving (b_workers b)) as [(i & w & Hi & Hw)|Hnone].
  { destruct w; try done. destruct (b_feeder b) as [[|conn rest]|e rest| |] eqn:Hf.
    - eexists. exists CloseJobs. cbn. by rewrite Hf.
    - eexists. exists (Deliver i). cbn. by rewrite Hf, Hi.
    - eexists. exists PutGivenUp. cbn. by rewrite Hf, Hroom.
    - eexists. exists (Exit i). cbn. by rewrite Hi, bo_jobs0.
    - eexists. exists (Exit i). cbn. by rewrite Hi, bo_jobs0. }
  assert (Hall : Forall (λ w, w = Exited) (b_workers b)).
  { apply Forall_forall. intros w Hw. specialize (Hidle w Hw). specialize (Hnone w Hw).
    by destruct w. }
  assert (Hex : Exited ∈ b_workers b).
  { destruct (b_workers b) as [|w ws]; [cbn in *; lia|]. apply Forall_cons in Hall as [-> _]. left. }
  specialize (bo_exited0 Hex). rewrite bo_jobs0 in bo_exited0.
  destruct (b_feeder b) eqn:Hf; try done.
  - eexists. exists CloseResults. cbn. rewrite Hf, bo_wg0.
    replace (filter _ _) with ([] : list worker); [done|]. symmetry. apply filter_nil_all.
    intros w Hw. rewrite Forall_forall in Hall. by rewrite (Hall w Hw).
  - eexists. exists Finish. cbn. by rewrite Hres, bo_resc0, Hr.
Qed.

(** ** What a batch returns *)

Lemma normalizeSendConcurrency_pos n : 0 < normalizeSendConcurrency n.
Proof. unfold normalizeSendConcurrency, DefaultSendConcurrency. case_match; lia. Qed.

Lemma batch_reachable kind conc ctx connections b :
  0 < conc → connections ≠ [] →
  rtc (batch_next kind) (start_batch conc ctx connections) b →
  ∃ m, 0 < m ∧ batch_ok kind connections m b.
Proof.
  intros Hc Hne Hs. destruct (start_batch_ok kind _ ctx connections Hc Hne) as [H0 Hm].
  eexists. split; [exact Hm|]. by eapply batch_steps_ok.
Qed.

Lemma oks_perm l1 l2 : l1 ≡ₚ l2 → oks l1 = oks l2.
Proof. intros H. unfold oks, zlen. by rewrite H. Qed.

Lemma errs_perm l1 l2 : l1 ≡ₚ l2 → errs l1 ≡ₚ errs l2.
Proof. intros H. unfold errs. by rewrite H. Qed.

Lemma oks_errs l : oks l + zlen (errs l) = zlen l.
Proof.
  induction l as [|[e|] l IH]; [done|..]; unfold oks, errs in *; cbn [omap list_omap];
    rewrite ?filter_cons; repeat case_decide; try done; rewrite ?zlen_cons in *; cbn; rewrite ?zlen_cons; lia.
Qed.

Lemma buildBatchError_none op failed samples : buildBatchError op failed samples = None ↔ failed = 0.
Proof.
  unfold buildBatchError. destruct (Z.eqb_spec failed 0); [done|].
  destruct (errors_Join _); split; done.
Qed.

(** The end of a batch: every fate is counted and nothing runs any more. *)
Lemma batch_returned kind connections n b :
  batch_ok kind connections n b → b_returned b = true →
  (b_log b).*1 ≡ₚ connections
  ∧ fate_result <$> (b_log b).*2 ≡ₚ b_taken b
  ∧ Forall (λ w, w = Exited) (b_workers b) ∧ b_feeder b = Closed.
Proof.
  intros HI Hr. destruct HI. destruct (bo_returned0 Hr) as [Hf Hres].
  specialize (bo_closed0 Hf). rewrite Hf, Hres in *.
  assert (Hbind : ∀ {B} (f : worker → list B), f Exited = [] → b_workers b ≫= f = []).
  { intros B f Hx. clear -bo_closed0 Hx. induction bo_closed0 as [|w ws -> _ IH]; cbn; [done|].
    by rewrite Hx. }
  rewrite !Hbind in * by done. cbn in *. rewrite app_nil_r in bo_conns0. done.
Qed.

(** The outcome of a send batch over [connections]. *)
Definition send_counted (connections : list ptr) (r : SendResult) : Prop :=
  ∃ calls : list (ptr * option error),
    calls.*1 ≡ₚ connections
    ∧ sr_Matched r = zlen connections ∧ sr_Sent r = oks calls.*2 ∧ sr_Failed r = zlen (errs calls.*2)
    ∧ sr_Sent r + sr_Failed r = sr_Matched r
    ∧ (sr_Err r = None ↔ sr_Failed r = 0)
    ∧ ∃ samples, sr_Err r = buildSendError (sr_Failed r) samples
        ∧ samples ⊆+ errs calls.*2 ∧ zlen samples = Z.min 4 (sr_Failed r).

Lemma sendConnections_counts conc ctx connections r :
  0 < conc → sendConnections conc ctx connections r → send_counted connections r.
Proof.
  intros Hc [->|b Hne Hs Hr]; unfold send_counted; cbn.
  { exists []. split_and!; try done. exists []. done. }
  destruct (batch_reachable _ _ _ _ _ Hc Hne Hs) as (m & Hm & HI).
  destruct (batch_returned _ _ _ _ HI Hr) as (Hconns & Hres & _).
  exists ((λ '(c, x), (c, fate_result x)) <$> b_log b).
  assert (H1 : ((λ '(c, x), (c, fate_result x)) <$> b_log b).*1 = (b_log b).*1).
  { rewrite <- list_fmap_compose. by apply list_fmap_ext; intros ? []. }
  assert (H2 : ((λ '(c, x), (c, fate_result x)) <$> b_log b).*2 = fate_result <$> (b_log b).*2).
  { rewrite <- !list_fmap_compose. by apply list_fmap_ext; intros ? []. }
  rewrite H1, H2. pose proof (bo_ok _ _ _ _ HI) as Hok. pose proof (bo_failed _ _ _ _ HI) as Hfl.
  assert (Hlen : zlen (fate_result <$> (b_log b).*2) = zlen connections).
  { unfold zlen. rewrite <- Hconns. by rewrite !length_fmap. }
  split_and!; [done|done|rewrite Hok; by apply oks_perm| | |apply buildBatchError_none|].
  - rewrite Hfl. unfold zlen. by rewrite (errs_perm _ _ Hres).
  - rewrite Hok, Hfl, oks_errs. rewrite <- Hlen. unfold zlen. by rewrite Hres.
  - exists (b_samples b). split; [done|]. rewrite (bo_samples _ _ _ _ HI). split.
    + rewrite (errs_perm _ _ Hres). apply sublist_submseteq, sublist_take.
    + rewrite Hfl. unfold zlen. rewrite length_take. lia.
Qed.

(** The outcome of a close batch over [connections]. *)
Definition close_counted (connections : list ptr) (r : CloseResult) : Prop :=
  ∃ fates : list (ptr * fate),
    fates.*1 ≡ₚ connections
    ∧ (∀ conn e, (conn, Skipped e) ∈ fates → is_Some e)
    ∧ cr_Matched r = zlen connections
    ∧ cr_Closed r = oks (fate_result <$> fates.*2)
    ∧ cr_Failed r = zlen (errs (fate_result <$> fates.*2))
    ∧ cr_Closed r + cr_Failed r = cr_Matched r
    ∧ (cr_Err r = None ↔ cr_Failed r = 0)
    ∧ ∃ samples, cr_Err r = buildCloseError (cr_Failed r) samples
        ∧ samples ⊆+ errs (fate_result <$> fates.*2) ∧ zlen samples = Z.min 4 (cr_Failed r).

Lemma closeConnections_counts conc ctx connections r :
  0 < conc → closeConnections conc ctx connections r → close_counted connections r.
Proof.
  intros Hc [->|b Hne Hs Hr]; unfold close_counted; cbn.
  { exists []. split_and!; try done; [set_solver|]. by exists []. }
  destruct (batch_reachable _ _ _ _ _ Hc Hne Hs) as (m & Hm & HI).
  destruct (batch_returned _ _ _ _ HI Hr) as (Hconns & Hres & _).
  exists (b_log b).
  pose proof (bo_ok _ _ _ _ HI) as Hok. pose proof (bo_failed _ _ _ _ HI) as Hfl.
  assert (Hlen : zlen (fate_result <$> (b_log b).*2) = zlen connections).
  { unfold zlen. rewrite <- Hconns. by rewrite !length_fmap. }
  split_and!; [done|by apply (bo_skipped _ _ _ _ HI)|done|rewrite Hok; by apply oks_perm
              | | |apply buildBatchError_none|].
  - rewrite Hfl. unfold zlen. by rewrite (errs_perm _ _ Hres).
  - rewrite Hok, Hfl, oks_errs. rewrite <- Hlen. unfold zlen. by rewrite Hres.
  - exists (b_samples b). split; [done|]. rewrite (bo_samples _ _ _ _ HI). split.
    + rewrite (errs_perm _ _ Hres). apply sublist_submseteq, sublist_take.
    + rewrite Hfl. unfold zlen. rewrite length_take. lia.
Qed.

(** C19. [sendConnections] calls [SendRaw] exactly once for every connection of the
    snapshot, whatever the number of workers and the schedule; [Matched] is
    the size of the snapshot, [Sent] and [Failed] count the calls that
    returned nil and an error and add up to [Matched], and [Err] is nil exactly
    when nothing failed and otherwise joins up to four of the errors. *)
Theorem sendConnections_result n ctx connections r :
  sendConnections (normalizeSendConcurrency n) ctx connections r →
  send_counted connections r.
Proof. apply sendConnections_counts, normalizeSendConcurrency_pos. Qed.

(** C29. [closeConnections] accounts for every connection of the snapshot exactly
    once: it is closed, or the context was done before and it counts as failed
    with the context's error; [Closed] and [Failed] add up to [Matched], and
    [Err] is nil exactly when nothing failed. *)
Theorem closeConnections_result n ctx connections r :
  closeConnections (normalizeSendConcurrency n) ctx connections r →
  close_counted connections r.
Proof. apply closeConnections_counts, normalizeSendConcurrency_pos. Qed.

(** C20. A batch always comes to an end: from any state it reaches, with any
    context, only finitely many steps are possible, and until the calling
    goroutine has left its loop one is.  When it has, every worker has exited
    and the feeder has closed the channels, so no goroutine leaks and nobody
    reads the snapshot that is then released. *)
Theorem batch_always_returns kind n ctx connections b :
  connections ≠ [] →
  rtc (batch_next kind) (start_batch (normalizeSendConcurrency n) ctx connections) b →
  Acc (λ b' b, batch_next kind b b') b
  ∧ (b_returned b = false → ∃ b', batch_next kind b b')
  ∧ (b_returned b = true → Forall (λ w, w = Exited) (b_workers b) ∧ b_feeder b = Closed).
Proof.
  intros Hne Hs.
  destruct (batch_reachable _ _ _ _ _ (normalizeSendConcurrency_pos n) Hne Hs) as (m & Hm & HI).
  split; [apply batch_finite|]. split; [by eapply batch_progress|].
  intros Hr. by destruct (batch_returned _ _ _ _ HI Hr) as (_ & _ & ? & ?).
Qed.

(** ** Witnesses *)

Lemma batch_run_sound kind chs b b' : batch_run kind chs b = Some b' → rtc (batch_next kind) b b'.
Proof.
  revert b. induction chs as [|ch chs IH]; intros b H; cbn in H; [simplify_eq; apply rtc_refl|].
  destruct (batch_step kind ch b) as [b1|] eqn:E; [|done]. eapply rtc_l; [by exists ch|by apply IH].
Qed.

(** Two workers and three connections; the second send fails. *)
Definition sample_send : list choice :=
  [Deliver 0; Deliver 1; Return 1 (Some (ErrSlowConsumer : error)); Return 0 None; Report 1;
   Deliver 1; Report 0; Take; Take; CloseJobs; Exit 0; Return 1 None; Report 1; Exit 1; Take;
   CloseResults; Finish].

Definition sample_send_end : batch :=
  default (start_batch 2 None [7; 8; 9]%nat)
    (batch_run SendBatch sample_send (start_batch (normalizeSendConcurrency 2) None [7; 8; 9]%nat)).

(** One worker; the context is done after the first connection. *)
Definition sample_close : list choice :=
  [Deliver 0; Return 0 None; Report 0; CtxDone Canceled; GiveUp; Take; PutGivenUp; Deliver 0;
   Take; Skip 0; Report 0; CloseJobs; Take; Exit 0; CloseResults; Finish].

Definition sample_close_end : batch :=
  default (start_batch 1 None [7; 8; 9]%nat)
    (batch_run CloseBatch sample_close (start_batch (normalizeSendConcurrency 1) None [7; 8; 9]%nat)).

Lemma sendConnections_result_witness :
  b_ok sample_send_end = 2 ∧ b_failed sample_send_end = 1
  ∧ ∃ calls : list (ptr * option error), calls.*1 ≡ₚ [7; 8; 9]%nat ∧ oks calls.*2 = 2.
Proof.
  split; [by vm_compute|]. split; [by vm_compute|].
  destruct (sendConnections_result 2 None [7; 8; 9]%nat
    {| sr_Matched := 3; sr_Sent := b_ok sample_send_end; sr_Failed := b_failed sample_send_end;
       sr_Err := buildSendError (b_failed sample_send_end) (b_samples sample_send_end) |})
    as (calls & Hc & _ & Hs & _).
  - apply send_some; [done|by apply (batch_run_sound _ sample_send); vm_compute|by vm_compute].
  - exists calls. split; [done|]. rewrite <- Hs. by vm_compute.
Defined.

Lemma closeConnections_result_witness :
  b_ok sample_close_end = 1 ∧ b_failed sample_close_end = 2
  ∧ ∃ fates : list (ptr * fate), fates.*1 ≡ₚ [7; 8; 9]%nat ∧ oks (fate_result <$> fates.*2) = 1.
Proof.
  split; [by vm_compute|]. split; [by vm_compute|].
  destruct (closeConnections_result 1 None [7; 8; 9]%nat
    {| cr_Matched := 3; cr_Closed := b_ok sample_close_end; cr_Failed := b_failed sample_close_end;
       cr_Err := buildCloseError (b_failed sample_close_end) (b_samples sample_close_end) |})
    as (fates & Hc & _ & _ & Hs & _).
  - apply close_some; [done|by apply (batch_run_sound _ sample_close); vm_compute|by vm_compute].
  - exists fates. split; [done|]. rewrite <- Hs. by vm_compute.
Defined.

Lemma batch_always_returns_witness :
  Forall (λ w, w = Exited) (b_workers sample_close_end) ∧ b_feeder sample_close_end = Closed.
Proof.
  apply (batch_always_returns CloseBatch 1 None [7; 8; 9]%nat sample_close_end).
  - done.
  - by apply (batch_run_sound _ sample_close); vm_compute.
  - by vm_compute.
Defined.
