(* ===== verification/Dispatcher.v ===== *)
(** * Routing messages to hub methods by reflection (dispatcher.go)

    [buildDispatcher] keeps the methods of a hub whose signature is
    [func(context.Context, *Req) (Res, error)]; [dispatch] decodes the payload
    into a new request and calls the method. *)

From Stdlib Require Import Ascii String.
From S2P Require Import Prelude GoStd Errors Protocol Proc Connection.

Local Open Scope Z_scope.
Local Open Scope go_scope.

(** ** What the source uses of the package reflect *)

Inductive reflectKind :=
| KChan | KFunc | KInterface | KMap | KPointer | KSlice | KStruct | KOther.

(** A type: of kind pointer (with the name it has, if any), or of another kind;
    both may implement [error]. *)
Inductive goType :=
| TPointer (name : string) (elem : goType) (is_error : bool)
| TNamed (name : string) (kind : reflectKind) (is_error : bool).

#[export] Instance reflectKind_eq_dec : EqDecision reflectKind.
Proof. solve_decision. Defined.
#[export] Instance goType_eq_dec : EqDecision goType.
Proof. solve_decision. Defined.

Definition Type_Kind (t : goType) : reflectKind :=
  match t with TPointer _ _ _ => KPointer | TNamed _ k _ => k end.

(** [t.Implements(errorType)]. *)
Definition Implements_error (t : goType) : bool :=
  match t with TPointer _ _ e | TNamed _ _ e => e end.

Definition contextType : goType := TNamed "context.Context" KInterface false.
Definition errorType : goType := TNamed "error" KInterface true.

(** A [reflect.Value]: its kind, whether it is nil (when its kind has nil) and
    what [Interface()] gives. *)
Record reflectValue {V : Type} := {
  rv_Kind : reflectKind;
  rv_IsNil : bool;
  rv_Interface : V;
}.
Arguments reflectValue V : clear implicits.

Definition isNilValue {V} (v : reflectValue V) : bool :=
  match rv_Kind v with
  | KChan | KFunc | KInterface | KMap | KPointer | KSlice => rv_IsNil v
  | _ => false
  end.

(** [v.IsNil()], a panic for a kind without nil. *)
Definition Value_IsNil {V} (v : reflectValue V) : option bool :=
  match rv_Kind v with
  | KChan | KFunc | KInterface | KMap | KPointer | KSlice => Some (rv_IsNil v)
  | _ => None
  end.

(** A method: its signature (the receiver is the first parameter) and its
    function value. *)
Record hubMethod {F : Type} := {
  m_Name : string;
  m_In : list goType;
  m_Out : list goType;
  m_Func : F;
}.
Arguments hubMethod F : clear implicits.

Record hubRoute {F : Type} := {
  route_method : hubMethod F;
  route_reqType : goType;
}.
Arguments hubRoute F : clear implicits.

(** [routes map[string]hubRoute]. *)
Definition hubDispatcher (F : Type) : Type := gmap string (hubRoute F).

Section dispatcher.
Context {S V F : Type}.

(** [reflect.New(t)], a pointer to a zero value, and [Func.Call] of the hub, the
    context and a request: user code on the store [S], which gives the two
    results; the second is of a type that implements [error]. *)
Context (reflect_New : goType → V).
Context (Func_Call : F → option V → proc S (reflectValue V * reflectValue error)).

Definition zeroType : goType := TNamed "" KOther false.

(** [methodType.In(i)] and [Out(i)]; the callers check the number first. *)
Definition type_at (l : list goType) (i : nat) : goType := default zeroType (l !! i).

(** The element type of a pointer (a panic for other types). *)
Definition Type_Elem (t : goType) : goType :=
  match t with TPointer _ elem _ => elem | t => t end.

(** The body of the loop over [hubType.Methods()]. *)
Definition add_route (routes : hubDispatcher F) (method : hubMethod F) : hubDispatcher F :=
  if negb (zlen (m_In method) =? 3) || negb (zlen (m_Out method) =? 2) then routes
  else if negb (bool_decide (type_at (m_In method) 1 = contextType)) then routes
  else
    let reqType := type_at (m_In method) 2 in
    if negb (bool_decide (Type_Kind reqType = KPointer)) then routes
    else if negb (Implements_error (type_at (m_Out method) 1)) then routes
    else <[m_Name method := {| route_method := method; route_reqType := reqType |}]> routes.

(** [methods] are those of the hub's type. *)
Definition buildDispatcher (methods : list (hubMethod F)) : hubDispatcher F :=
  fold_left add_route methods ∅.

(** The result, nil beside every error; or the panic of [errValue.IsNil()] on an error
    type that has no nil, which [add_route] lets through. *)
Definition dispatch (d : option (hubDispatcher F)) (msg : Message V)
    : proc S (result failure (option V)) :=
  match d with
  | None => mret (Err (Returned ErrMethodNotFound))
  | Some routes =>
      match routes !! msg_Method msg with
      | None => mret (Err (Returned (Errorf "" ErrMethodNotFound (": " ++ msg_Method msg))))
      | Some route =>
          let req := Some (reflect_New (Type_Elem (route_reqType route))) in
          let '(req, err) := Message_Decode msg req in
          match err with
          | Some err => mret (Err (Returned err))
          | None =>
              results <- Func_Call (m_Func (route_method route)) req ;;;
              let '(res, errValue) := results in
              match Value_IsNil errValue with
              | None => mret (Err Panicked)
              | Some false => mret (Err (Returned (rv_Interface errValue)))
              | Some true => mret (Ok (if isNilValue res then None else Some (rv_Interface res)))
              end
          end
      end
  end.
End dispatcher.

(** ** The cache of dispatchers *)

(** [dispatcherCache], a [sync.Map] from hub types to dispatchers. *)
Section cache.
Context {F : Type} (Methods : goType → list (hubMethod F)).

Local Abbreviation cache := (list (goType * hubDispatcher F)).

Definition cache_Load (hubType : goType) (c : cache) : option (hubDispatcher F) :=
  (list_find (λ kv, kv.1 = hubType) c) ≫= λ r, Some r.2.2.

(** [LoadOrStore]: the value that stays. *)
Definition cache_LoadOrStore (hubType : goType) (d : hubDispatcher F) (c : cache)
    : hubDispatcher F * cache :=
  match cache_Load hubType c with
  | Some d' => (d', c)
  | None => (d, (hubType, d) :: c)
  end.

(** A hub is nil or has a type. *)
Definition dispatcherFor (hub : option goType) : proc cache (result error (hubDispatcher F)) :=
  match hub with
  | None => mret (Err (errNilDispatcherTarget : error))
  | Some hubType =>
      cached <- reads (cache_Load hubType) ;;;
      match cached with
      | Some d => mret (Ok d)
      | None =>
          let dispatcher := buildDispatcher (Methods hubType) in
          actual <- atomically (cache_LoadOrStore hubType dispatcher) ;;;
          mret (Ok actual)
      end
  end.
End cache.
