(* ===== verification/DispatcherFacts.v ===== *)
(** * The dispatcher calls exactly the methods with a handler's signature *)

From Stdlib Require Import Ascii String.
From S2P Require Import Prelude GoStd Errors Protocol Samples Proc Connection Dispatcher.

Local Open Scope Z_scope.
Local Open Scope go_scope.

(** [func(context.Context, *Req) (Res, error)], after the receiver. *)
Definition handler_signature {F} (m : hubMethod F) : Prop :=
  ∃ recv req res err, m_In m = [recv; contextType; req] ∧ m_Out m = [res; err]
    ∧ Type_Kind req = KPointer ∧ Implements_error err = true.

(** The type of the request. *)
Definition request_type {F} (m : hubMethod F) : goType := type_at (m_In m) 2.

Section routes.
Context {F : Type}.
Implicit Types m : hubMethod F.

Definition route_of m : hubRoute F := {| route_method := m; route_reqType := request_type m |}.

Lemma zlen_2 {A} (l : list A) : zlen l = 2 → ∃ a b, l = [a; b].
Proof. unfold zlen. destruct l as [|a [|b [|c l]]]; cbn; intros; eauto; lia. Qed.

Lemma zlen_3 {A} (l : list A) : zlen l = 3 → ∃ a b c, l = [a; b; c].
Proof. unfold zlen. destruct l as [|a [|b [|c [|d l]]]]; cbn; intros; eauto; lia. Qed.

Lemma add_route_spec routes m :
  (handler_signature m ∧ add_route routes m = <[m_Name m := route_of m]> routes)
  ∨ (¬ handler_signature m ∧ add_route routes m = routes).
Proof.
  unfold add_route.
  destruct (Z.eqb_spec (zlen (m_In m)) 3) as [(a & b & c & Hin)%zlen_3|Hin]; cbn [negb orb];
    [|right; split; [|done]; intros (? & ? & ? & ? & H & _); by rewrite H in Hin].
  destruct (Z.eqb_spec (zlen (m_Out m)) 2) as [(d & e & Hout)%zlen_2|Hout]; cbn [negb orb];
    [|right; split; [|done]; intros (? & ? & ? & ? & _ & H & _); by rewrite H in Hout].
  unfold route_of, request_type. rewrite Hin, Hout. unfold type_at. cbn [lookup list_lookup default from_option]. unfold id.
  case_bool_decide as Hb; cbn [negb];
    [|right; split; [|done]; intros (? & ? & ? & ? & H & _); rewrite Hin in H; congruence].
  case_bool_decide as Hc; cbn [negb];
    [|right; split; [|done]; intros (? & ? & ? & ? & H & _ & H2 & _); rewrite Hin in H; congruence].
  destruct (Implements_error e) eqn:He; cbn [negb].
  - left. split; [|done]. exists a, c, d, e. cbn in *. by subst b.
  - right. split; [|done]. intros (? & ? & ? & ? & _ & H & _ & H2). rewrite Hout in H. congruence.
Qed.

Lemma buildDispatcher_lookup (methods : list (hubMethod F)) name r :
  buildDispatcher methods !! name = Some r →
  ∃ m, m ∈ methods ∧ m_Name m = name ∧ handler_signature m ∧ r = route_of m.
Proof.
  unfold buildDispatcher.
  assert (H : ∀ routes, fold_left add_route methods routes !! name = Some r →
    routes !! name = Some r ∨
    ∃ m, m ∈ methods ∧ m_Name m = name ∧ handler_signature m ∧ r = route_of m).
  { induction methods as [|m ms IH]; cbn; intros routes Hl; [by left|].
    apply IH in Hl as [Hl|(m' & ? & ?)]; [|right; exists m'; split; [by right|done]].
    destruct (add_route_spec routes m) as [[Hs E]|[_ E]]; rewrite E in Hl; [|by left].
    apply (lookup_insert_Some (M := gmap string)) in Hl as [[<- <-]|[_ ?]]; [|by left].
    right. exists m. split; [by left|done]. }
  intros Hl. destruct (H ∅ Hl) as [Hl'|?]; [|done]. by destruct (lookup_empty_Some (M := gmap string) name r).
Qed.

Lemma buildDispatcher_keeps (methods : list (hubMethod F)) m routes :
  m_Name m ∉ m_Name <$> methods →
  fold_left add_route methods routes !! m_Name m = routes !! m_Name m.
Proof.
  revert routes. induction methods as [|m' ms IH]; cbn; intros routes Hn; [done|].
  rewrite IH by set_solver. destruct (add_route_spec routes m') as [[_ ->]|[_ ->]]; [|done].
  apply (lookup_insert_ne (M := gmap string)). set_solver.
Qed.

Lemma buildDispatcher_complete (methods : list (hubMethod F)) m :
  NoDup (m_Name <$> methods) → m ∈ methods → handler_signature m →
  buildDispatcher methods !! m_Name m = Some (route_of m).
Proof.
  unfold buildDispatcher. generalize (∅ : hubDispatcher F) as routes.
  induction methods as [|m' ms IH]; cbn; intros routes Hnames Hm Hs; [set_solver|].
  apply NoDup_cons in Hnames as [Hn Hnames]. apply elem_of_cons in Hm as [->|Hm]; [|by apply IH].
  rewrite buildDispatcher_keeps by done. destruct (add_route_spec routes m') as [[_ ->]|[? _]]; [|done].
  apply (lookup_insert_eq (M := gmap string)).
Qed.

(** C31. The routes of a hub are exactly its methods with a handler's signature,
    by name: a method that takes a context and a pointer and returns a result
    and an error is routed, any other is not. *)
Theorem buildDispatcher_routes (methods : list (hubMethod F)) name r
    (Hnames : NoDup (m_Name <$> methods)) :
  buildDispatcher methods !! name = Some r
  ↔ ∃ m, m ∈ methods ∧ m_Name m = name ∧ handler_signature m ∧ r = route_of m.
Proof.
  split; [apply buildDispatcher_lookup|]. intros (m & Hm & <- & Hs & ->).
  by apply buildDispatcher_complete.
Qed.
End routes.

Section dispatch.
Context {S V F : Type} (reflect_New : goType → V).
Context (Func_Call : F → option V → proc S (reflectValue V * reflectValue error)).

(** The method a message is for. *)
Definition handles (methods : list (hubMethod F)) (msg : Message V) (m : hubMethod F) : Prop :=
  m ∈ methods ∧ m_Name m = msg_Method msg ∧ handler_signature m.

(** The payload as a new request of the method's type, with the codec's error. *)
Definition decoded (msg : Message V) (m : hubMethod F) : option V * option error :=
  Message_Decode msg (Some (reflect_New (Type_Elem (request_type m)))).

(** The kinds of values that may be nil. *)
Definition nilable (k : reflectKind) : Prop :=
  k = KChan ∨ k = KFunc ∨ k = KInterface ∨ k = KMap ∨ k = KPointer ∨ k = KSlice.

(** A nil pointer, map and the like. *)
Definition is_nil_value {A} (v : reflectValue A) : Prop := nilable (rv_Kind v) ∧ rv_IsNil v = true.

(** The ways to dispatch a message, each with the result and the store after it. *)
Inductive dispatches (methods : list (hubMethod F)) (msg : Message V) (s : S)
    : result failure (option V) → S → Prop :=
| no_handler :
    (∀ m, ¬ handles methods msg m) →
    dispatches methods msg s
      (Err (Returned (Errorf "" ErrMethodNotFound (": " ++ msg_Method msg)))) s
| undecodable m req e :
    handles methods msg m → decoded msg m = (req, Some e) →
    dispatches methods msg s (Err (Returned e)) s
| call_panics m req res err s' :
    handles methods msg m → decoded msg m = (req, None) →
    ((res, err), s') ∈ outcomes (Func_Call (m_Func m) req) s → ¬ nilable (rv_Kind err) →
    dispatches methods msg s (Err Panicked) s'
| call_fails m req res err s' :
    handles methods msg m → decoded msg m = (req, None) →
    ((res, err), s') ∈ outcomes (Func_Call (m_Func m) req) s →
    nilable (rv_Kind err) → rv_IsNil err = false →
    dispatches methods msg s (Err (Returned (rv_Interface err))) s'
| call_returns_nil m req res err s' :
    handles methods msg m → decoded msg m = (req, None) →
    ((res, err), s') ∈ outcomes (Func_Call (m_Func m) req) s →
    is_nil_value err → is_nil_value res →
    dispatches methods msg s (Ok None) s'
| call_returns m req res err s' :
    handles methods msg m → decoded msg m = (req, None) →
    ((res, err), s') ∈ outcomes (Func_Call (m_Func m) req) s →
    is_nil_value err → ¬ is_nil_value res →
    dispatches methods msg s (Ok (Some (rv_Interface res))) s'.

Lemma Value_IsNil_spec {A} (v : reflectValue A) :
  (nilable (rv_Kind v) ∧ Value_IsNil v = Some (rv_IsNil v))
  ∨ (¬ nilable (rv_Kind v) ∧ Value_IsNil v = None).
Proof. unfold nilable, Value_IsNil. destruct (rv_Kind v); naive_solver. Qed.

Lemma isNilValue_spec {A} (v : reflectValue A) : isNilValue v = true ↔ is_nil_value v.
Proof. unfold is_nil_value, nilable, isNilValue. destruct (rv_Kind v); naive_solver. Qed.

(** What comes back from the call of a method. *)
Definition returned_by (r : reflectValue V * reflectValue error) : result failure (option V) :=
  match Value_IsNil r.2 with
  | None => Err Panicked
  | Some false => Err (Returned (rv_Interface r.2))
  | Some true => Ok (if isNilValue r.1 then None else Some (rv_Interface r.1))
  end.

Lemma dispatch_call_outcomes methods m req msg s r s' :
  handles methods msg m → decoded msg m = (req, None) →
  buildDispatcher methods !! msg_Method msg = Some (route_of m) →
  (r, s') ∈ outcomes (dispatch reflect_New Func_Call (Some (buildDispatcher methods)) msg) s
  ↔ ∃ res, r = returned_by res ∧ (res, s') ∈ outcomes (Func_Call (m_Func m) req) s.
Proof.
  intros Hm Hd Hr. unfold dispatch. rewrite Hr. cbn [route_reqType route_of].
  unfold decoded in Hd. rewrite Hd, outcomes_bind, list_elem_of_bind.
  split.
  - intros ([[v err] s1] & Hin & Hcall). exists (v, err). unfold returned_by. cbn [fst snd].
    destruct (Value_IsNil err) as [[]|]; by apply list_elem_of_singleton in Hin as [= -> ->].
  - intros ([v err] & -> & Hcall). exists ((v, err), s'). split; [|done]. unfold returned_by.
    cbn [fst snd]. destruct (Value_IsNil err) as [[]|]; by apply list_elem_of_singleton.
Qed.

Lemma call_dispatches methods msg m req res s s' :
  handles methods msg m → decoded msg m = (req, None) →
  (res, s') ∈ outcomes (Func_Call (m_Func m) req) s →
  dispatches methods msg s (returned_by res) s'.
Proof.
  intros Hm Hd Hc. destruct res as [res err]. unfold returned_by. cbn [fst snd].
  destruct (Value_IsNil_spec err) as [[Hk ->]|[Hk ->]]; [|by eapply call_panics].
  destruct (rv_IsNil err) eqn:He; [|by eapply call_fails].
  destruct (isNilValue res) eqn:Hn; [eapply call_returns_nil|eapply call_returns]; try done.
  - by apply isNilValue_spec.
  - by rewrite <- isNilValue_spec, Hn.
Qed.

Lemma dispatches_call methods msg s r s' :
  dispatches methods msg s r s' →
  ((∀ m, ¬ handles methods msg m) ∧ s' = s
   ∧ r = Err (Returned (Errorf "" ErrMethodNotFound (": " ++ msg_Method msg))))
  ∨ (∃ m req e, handles methods msg m ∧ decoded msg m = (req, Some e) ∧ s' = s ∧ r = Err (Returned e))
  ∨ ∃ m req res, handles methods msg m ∧ decoded msg m = (req, None)
      ∧ (res, s') ∈ outcomes (Func_Call (m_Func m) req) s ∧ r = returned_by res.
Proof.
  intros [Hno|m req e Hm Hd|m req res err s1 Hm Hd Hc Hk|m req res err s1 Hm Hd Hc Hk Hf
         |m req res err s1 Hm Hd Hc [Hk He] Hn|m req res err s1 Hm Hd Hc [Hk He] Hn];
    [by left|right; left; eauto 10|right; right; exists m, req, (res, err); split_and!; try done..];
    unfold returned_by; cbn [fst snd]; destruct (Value_IsNil_spec err) as [[Hk' ->]|[Hk' ->]]; try done.
  - by rewrite Hf.
  - rewrite He. by rewrite (proj2 (isNilValue_spec res)).
  - rewrite He. destruct (isNilValue res) eqn:E; [|done]. by apply isNilValue_spec in E.
Qed.

(** C30. Exactly what a dispatched message does, for the methods of a hub.  Without a
    method of its name that has a handler's signature, [ErrMethodNotFound] with the
    name; when the codec rejects the payload, its error; in both cases the
    store is untouched.  Otherwise the method runs once, on the decoded request:
    a non-nil error of it is the result, else its value, nil when it is
    a nil pointer or the like; and if the error it returns is of a type without nil,
    the dispatcher panics.  Nothing else can come out, and each of these does. *)
Theorem dispatch_outcomes (methods : list (hubMethod F)) msg s r s'
    (Hnames : NoDup (m_Name <$> methods)) :
  (r, s') ∈ outcomes (dispatch reflect_New Func_Call (Some (buildDispatcher methods)) msg) s
  ↔ dispatches methods msg s r s'.
Proof.
  destruct (buildDispatcher methods !! msg_Method msg) as [route|] eqn:Hr.
  - destruct (buildDispatcher_lookup _ _ _ Hr) as (m & Hin & Hn & Hs & ->).
    assert (Hm : handles methods msg m) by done.
    assert (Hone : ∀ m', handles methods msg m' → route_of m' = route_of m).
    { intros m' (Hin' & Hn' & Hs'). rewrite <- Hn', buildDispatcher_complete in Hr by done. congruence. }
    destruct (decoded msg m) as [req [e|]] eqn:Hd.
    + unfold dispatch. rewrite Hr. cbn [route_reqType route_of]. unfold decoded in Hd. rewrite Hd.
      cbn [outcomes mret proc_mret]. rewrite list_elem_of_singleton. split.
      * intros [= -> ->]. by eapply undecodable.
      * intros [(Hno & _)|[(m' & req' & e' & Hm' & Hd' & -> & ->)|(m' & req' & res & Hm' & Hd' & _)]]%dispatches_call;
          [by destruct (Hno m)|..]; unfold decoded in Hd';
          injection (Hone m' Hm') as _ Ht; rewrite Ht, Hd in Hd'; congruence.
    + rewrite (dispatch_call_outcomes methods m req) by done. split.
      * intros (res & -> & Hc). by eapply call_dispatches.
      * intros [(Hno & _)|[(m' & req' & e' & Hm' & Hd' & _)|(m' & req' & res & Hm' & Hd' & Hc & ->)]]%dispatches_call;
          [by destruct (Hno m)|..]; unfold decoded in Hd, Hd'; injection (Hone m' Hm') as E Ht;
          rewrite Ht, Hd in Hd'; [congruence|]. subst m'. injection Hd' as ->. eauto.
  - assert (Hno : ∀ m, ¬ handles methods msg m).
    { intros m (Hin & Hn & Hs). rewrite <- Hn, buildDispatcher_complete in Hr by done. congruence. }
    unfold dispatch. rewrite Hr. cbn [outcomes mret proc_mret]. rewrite list_elem_of_singleton. split.
    + intros [= -> ->]. by apply no_handler.
    + intros [(_ & -> & ->)|[(m & ? & ? & Hm & _)|(m & ? & ? & Hm & _)]]%dispatches_call;
        [done|by destruct (Hno m)..].
Qed.
End dispatch.

(** ** The cache *)

Section cache.
Context {F : Type} (Methods : goType → list (hubMethod F)).

Definition cache_ok (c : list (goType * hubDispatcher F)) : Prop :=
  ∀ t d, cache_Load t c = Some d → d = buildDispatcher (Methods t).

Lemma cache_Load_cons t t' d (c : list (goType * hubDispatcher F)) :
  cache_Load t ((t', d) :: c) = if decide (t' = t) then Some d else cache_Load t c.
Proof.
  unfold cache_Load. cbn. case_decide; [done|]. by destruct (list_find _ c) as [[]|].
Qed.

Lemma cache_LoadOrStore_ok t c :
  cache_ok c →
  (cache_LoadOrStore t (buildDispatcher (Methods t)) c).1 = buildDispatcher (Methods t)
  ∧ cache_ok (cache_LoadOrStore t (buildDispatcher (Methods t)) c).2.
Proof.
  intros Hc. unfold cache_LoadOrStore. destruct (cache_Load t c) as [d|] eqn:E; cbn.
  - split; [by apply Hc|done].
  - split; [done|]. intros t' d. rewrite cache_Load_cons. case_decide as Ht; [|apply Hc].
    by intros [= <-]; subst.
Qed.

(** Whatever other goroutines do to the cache between its two accesses (each
    keeps what it finds), [dispatcherFor] gives a hub the dispatcher built from
    the methods of its own type, and an error for a nil hub. *)
Lemma dispatcherFor_own_type hub :
  safe (T := unit) (λ c _, cache_ok c) (λ _ _, True)
    (λ r _, r = match hub with
                | None => Err (errNilDispatcherTarget : error)
                | Some t => Ok (buildDispatcher (Methods t))
                end) [] (dispatcherFor Methods hub).
Proof.
  destruct hub as [t|]; [|done]. intros c fr Hc cached c' [= -> ->]%list_elem_of_singleton.
  split; [done|]. exists []. split; [done|].
  destruct (cache_Load t c) as [d|] eqn:E; cbn; [by f_equal; apply Hc|].
  intros c1 fr1 Hc1 d c2 Hin%list_elem_of_singleton.
  destruct (cache_LoadOrStore_ok t c1 Hc1) as [H1 H2]. rewrite <- Hin in *.
  split; [done|]. exists []. split; [done|]. cbn in *. by subst.
Qed.
End cache.

(** ** Witnesses *)

Definition sample_request : goType := TNamed "Request" KStruct false.

(** A handler [Echo], from a context and a request to a response, and a lifecycle method. *)
Definition echo_method : hubMethod nat :=
  {| m_Name := "Echo"; m_Func := 0%nat;
     m_In := [TPointer "" (TNamed "Hub" KStruct false) false; contextType; TPointer "" sample_request false];
     m_Out := [TPointer "" sample_request false; errorType] |}.

Definition sample_methods : list (hubMethod nat) :=
  [echo_method;
   {| m_Name := "OnConnected"; m_Func := 1%nat;
      m_In := [TPointer "" (TNamed "Hub" KStruct false) false; contextType;
               TPointer "" (TNamed "Connection" KStruct false) false];
      m_Out := [errorType] |}].

Lemma buildDispatcher_routes_witness :
  buildDispatcher sample_methods !! "OnConnected"%string = None
  ∧ ∃ r, buildDispatcher sample_methods !! "Echo"%string = Some r.
Proof.
  split; [by vm_compute|]. eexists. apply buildDispatcher_routes.
  - by apply (bool_decide_unpack _); vm_compute.
  - eexists. split; [left|]. split; [done|]. split; [|done].
    by exists (TPointer "" (TNamed "Hub" KStruct false) false), (TPointer "" sample_request false),
      (TPointer "" sample_request false), errorType.
Defined.

(** A message on a connection with the sample codecs. *)
Definition sample_message (method : string) : Message (list byte) :=
  {| msg_Header := {| Magic := 5; Version := 1; Codec := 2; Kind := 1; MethodLen := slen method;
                      InvocationIDLen := 1; BodyLen := 1 |};
     msg_Kind := FrameKindInvoke; msg_Method := method;
     msg_InvocationID := "7"; msg_Payload := [x01]; msg_codec := Some jsonCodec |}.

(** A method whose error type is a struct. *)
Definition strict_method : hubMethod nat :=
  {| m_Name := "Strict"; m_Func := 2%nat; m_In := m_In echo_method;
     m_Out := [TPointer "" sample_request false; TNamed "StrictError" KStruct true] |}.

Definition calling_methods : list (hubMethod nat) := sample_methods ++ [strict_method].

Definition echoed (req : list byte) : reflectValue (list byte) :=
  {| rv_Kind := KPointer; rv_IsNil := false; rv_Interface := req |}.

Definition no_error : reflectValue error :=
  {| rv_Kind := KInterface; rv_IsNil := true; rv_Interface := External "nil" |}.

(** User code that counts its calls and returns the request. *)
Definition sample_call (f : nat) (req : option (list byte))
    : proc nat (reflectValue (list byte) * reflectValue error) :=
  modify S ;;;
  mret (echoed (default [] req),
        if Nat.eqb f 2 then {| rv_Kind := KStruct; rv_IsNil := false; rv_Interface := External "strict" |}
        else no_error).

(** [Echo] is called once and its result comes back; the call of [Strict] panics; a method
    that is not there is an error. *)
Lemma dispatch_outcomes_witness :
  let results method := outcomes (dispatch (λ _, []) sample_call
        (Some (buildDispatcher calling_methods)) (sample_message method)) 0%nat in
  (Ok (Some [x01]), 1%nat) ∈ results "Echo"%string
  ∧ (Err Panicked, 1%nat) ∈ results "Strict"%string
  ∧ ∀ r s', (r, s') ∈ results "Missing"%string →
      s' = 0%nat ∧ r = Err (Returned (Errorf "" ErrMethodNotFound ": Missing")).
Proof.
  assert (Hnames : NoDup (m_Name <$> calling_methods)) by by apply (bool_decide_unpack _); vm_compute.
  cbn zeta. split; [|split].
  - apply dispatch_outcomes; [exact Hnames|].
    eapply (call_returns (λ _, []) sample_call _ _ _ echo_method (Some [x01]) (echoed [x01]) no_error).
    + split; [by left|]. split; [done|]. by do 4 eexists.
    + by vm_compute.
    + by left.
    + by split; [do 2 right; left|].
    + by intros [_ ?].
  - apply dispatch_outcomes; [exact Hnames|].
    eapply (call_panics (λ _, []) sample_call _ _ _ strict_method (Some [x01])).
    + split; [do 2 right; by left|]. split; [done|]. by do 4 eexists.
    + by vm_compute.
    + by left.
    + unfold nilable. cbn. naive_solver.
  - intros r s' Hin. apply dispatch_outcomes in Hin; [|exact Hnames].
    destruct Hin as [|m ? ? (Hm & Hn & _)|m ? ? ? ? (Hm & Hn & _)|m ? ? ? ? (Hm & Hn & _)
                    |m ? ? ? ? (Hm & Hn & _)|m ? ? ? ? (Hm & Hn & _)]; [done|exfalso..];
      repeat (apply elem_of_cons in Hm as [->|Hm]; [done|]); by apply not_elem_of_nil in Hm.
Defined.
