(* ===== verification/Config.v ===== *)
(** * Handler and server configuration (server.go, connected.go)

    The defaults, [NewHandler] up to the goroutine it starts, [NewServer], the
    options of the websocket upgrade and the first message to a client. *)

From Stdlib Require Import Ascii String.
From S2P Require Import Prelude GoStd GoText Errors Protocol Framing Connection Registry Batch.

Local Open Scope Z_scope.
Local Open Scope go_scope.

(** ** Defaults; durations are in nanoseconds *)

Definition Millisecond : Z := 1000000.
Definition Second : Z := 1000 * Millisecond.

Definition DefaultPath : string := "/signalg".
Definition DefaultSendQueueSize : Z := 256.
Definition DefaultPingInterval : Z := 15 * Second.
Definition DefaultWriteTimeout : Z := 5 * Second.

Definition normalizePath (p : string) : string :=
  let p := TrimSpace p in
  if (p =? "")%string then DefaultPath
  else
    let p := if negb (HasPrefix p "/") then ("/" ++ p)%string else p in
    path_Clean p.

Definition normalizePingInterval (d : Z) : Z := if d <? 0 then DefaultPingInterval else d.

(** The product is an [int64]. *)
Definition normalizePingTimeout (timeout interval : Z) : Z :=
  if interval <=? 0 then 0
  else if timeout <=? 0 then i64 (5 * interval)
  else timeout.

Definition normalizeSendQueueSize (n : Z) : Z := if n <=? 0 then DefaultSendQueueSize else n.

Definition normalizeWriteTimeout (d : Z) : Z := if d <=? 0 then DefaultWriteTimeout else d.

(** ** The configuration *)

(** [R] is the type of requests and [U] that of user providers. *)
Record Config {R : Type} := {
  cfg_Path : string;
  cfg_UserProvider : option (R → string * option error);
  cfg_CheckOrigin : option (R → bool);
  cfg_OriginPatterns : list string;
  cfg_InsecureSkipVerify : bool;
  cfg_Subprotocols : list string;
  cfg_CompressionMode : Z;
  cfg_CompressionThreshold : Z;
  cfg_ReadLimit : Z;
  cfg_Serialization : Serialization;
  cfg_MaxPayloadSize : Z;
  cfg_SendConcurrency : Z;
  cfg_SendQueueSize : Z;
  cfg_WriteTimeout : Z;
  cfg_SlowConsumerPolicy : Z;
  cfg_PingInterval : Z;
  cfg_PingTimeout : Z;
}.
Arguments Config R : clear implicits.

(** The fields of a [Handler] that never change. *)
Record handlerSettings {R V : Type} := {
  hs_cfg : Config R;
  hs_protocol : protocolConfig V;
  hs_sendConcurrency : Z;
  hs_sendQueueSize : Z;
  hs_writeTimeout : Z;
  hs_slowConsumerPolicy : Z;
}.
Arguments handlerSettings R V : clear implicits.

Section config.
Context {R V : Type} `{!ExternalCodecs V}.

(** [cfg] with the values [NewHandler] replaces. *)
Definition normalizeConfig (protocol : protocolConfig V) (cfg : Config R) : Config R :=
  let pingInterval := normalizePingInterval (cfg_PingInterval cfg) in
  {| cfg_Path := normalizePath (cfg_Path cfg);
     cfg_UserProvider := cfg_UserProvider cfg;
     cfg_CheckOrigin := cfg_CheckOrigin cfg;
     cfg_OriginPatterns := cfg_OriginPatterns cfg;
     cfg_InsecureSkipVerify := cfg_InsecureSkipVerify cfg;
     cfg_Subprotocols := cfg_Subprotocols cfg;
     cfg_CompressionMode := cfg_CompressionMode cfg;
     cfg_CompressionThreshold := cfg_CompressionThreshold cfg;
     cfg_ReadLimit :=
       if cfg_ReadLimit cfg =? 0
       then i64 (HeaderSize + MaxMethodNameLen + MaxInvocationIDLen + pc_maxPayloadSize protocol)
       else cfg_ReadLimit cfg;
     cfg_Serialization := cfg_Serialization cfg;
     cfg_MaxPayloadSize := cfg_MaxPayloadSize cfg;
     cfg_SendConcurrency := cfg_SendConcurrency cfg;
     cfg_SendQueueSize := normalizeSendQueueSize (cfg_SendQueueSize cfg);
     cfg_WriteTimeout := normalizeWriteTimeout (cfg_WriteTimeout cfg);
     cfg_SlowConsumerPolicy := cfg_SlowConsumerPolicy cfg;
     cfg_PingInterval := pingInterval;
     cfg_PingTimeout := normalizePingTimeout (cfg_PingTimeout cfg) pingInterval |}.

(** [NewHandler]; [factory] is nil or not. *)
Definition NewHandler {H : Type} (cfg : Config R) (factory : option H)
    : result error (handlerSettings R V) :=
  match factory with
  | None => Err (ErrNilHubFactory : error)
  | Some _ =>
      let* protocol := newProtocolConfig (cfg_Serialization cfg) (cfg_MaxPayloadSize cfg) in
      let sendConcurrency := normalizeSendConcurrency (cfg_SendConcurrency cfg) in
      let cfg := normalizeConfig protocol cfg in
      Ok {| hs_cfg := cfg; hs_protocol := protocol;
            hs_sendConcurrency := sendConcurrency;
            hs_sendQueueSize := cfg_SendQueueSize cfg;
            hs_writeTimeout := cfg_WriteTimeout cfg;
            hs_slowConsumerPolicy := cfg_SlowConsumerPolicy cfg |}
  end.

(** Whether [NewHandler] starts the heartbeat goroutine. *)
Definition heartbeatEnabled (h : handlerSettings R V) : bool :=
  (0 <? cfg_PingInterval (hs_cfg h)) && (0 <? cfg_PingTimeout (hs_cfg h)).

(** [ServerConfig]; the address is kept for [Start]. *)
Record serverSettings := {
  ss_Addr : string;
  ss_handler : handlerSettings R V;
  ss_ReadHeaderTimeout : Z;
}.

Definition NewServer {H : Type} (cfg : Config R) (addr : string) (readHeaderTimeout : Z)
    (factory : option H) : result error serverSettings :=
  let addr := TrimSpace addr in
  if (addr =? "")%string then Err (ErrMissingAddr : error)
  else
    let* handler := NewHandler cfg factory in
    Ok {| ss_Addr := addr; ss_handler := handler; ss_ReadHeaderTimeout := readHeaderTimeout |}.

(** ** The upgrade *)

(** [websocket.AcceptOptions]. *)
Record AcceptOptions := {
  ao_Subprotocols : list string;
  ao_InsecureSkipVerify : bool;
  ao_OriginPatterns : list string;
  ao_CompressionMode : Z;
  ao_CompressionThreshold : Z;
}.

Definition acceptOptions (h : handlerSettings R V) : AcceptOptions :=
  let cfg := hs_cfg h in
  let opts :=
    {| ao_Subprotocols := cfg_Subprotocols cfg;
       ao_InsecureSkipVerify := cfg_InsecureSkipVerify cfg;
       ao_OriginPatterns := cfg_OriginPatterns cfg;
       ao_CompressionMode := cfg_CompressionMode cfg;
       ao_CompressionThreshold := cfg_CompressionThreshold cfg |} in
  match cfg_CheckOrigin cfg with
  | Some _ =>
      {| ao_Subprotocols := ao_Subprotocols opts;
         ao_InsecureSkipVerify := true;
         ao_OriginPatterns := [];
         ao_CompressionMode := ao_CompressionMode opts;
         ao_CompressionThreshold := ao_CompressionThreshold opts |}
  | None => opts
  end.

Definition resolveUserID (h : handlerSettings R V) (r : R) : string * option error :=
  match cfg_UserProvider (hs_cfg h) with
  | None => (""%string, None)
  | Some p => p r
  end.
End config.
Arguments serverSettings R V : clear implicits.

(** ** The first message *)

Definition ConnectedMethod : string := "server.connected".

Record ConnectedPayload := {
  cp_ConnectionID : string;
  cp_UserID : string;
  cp_RemoteAddr : string;
  cp_PingIntervalMilliseconds : Z;
}.

(** [d.Milliseconds()]. *)
Definition Milliseconds (d : Z) : Z := goquot d Millisecond.

Definition newConnectedPayload (conn : connInfo) (remoteAddr : string) (pingInterval : Z)
    : ConnectedPayload :=
  let pingInterval := if pingInterval <? 0 then 0 else pingInterval in
  {| cp_ConnectionID := ID conn; cp_UserID := UserID conn; cp_RemoteAddr := remoteAddr;
     cp_PingIntervalMilliseconds := Milliseconds pingInterval |}.

(** The dynamic value: the struct itself, or the generated protobuf message with
    the same fields. *)
Inductive connectedValue :=
| PlainPayload (payload : ConnectedPayload)
| ProtoPayload (ConnectionId UserId RemoteAddr : string) (PingIntervalMs : Z).

Definition connectedBody (payload : ConnectedPayload) (serialization : Serialization)
    : connectedValue :=
  if negb (serialization =? SerializationProtobuf) then PlainPayload payload
  else ProtoPayload (cp_ConnectionID payload) (cp_UserID payload) (cp_RemoteAddr payload)
         (cp_PingIntervalMilliseconds payload).
