(* ===== verification/ConfigFacts.v ===== *)
(** * What a configuration becomes *)

From Stdlib Require Import Ascii String.
From S2P Require Import Prelude GoStd GoText Errors Protocol Framing Samples ProtocolFacts.
From S2P Require Import Connection Registry Batch Config.

Local Open Scope Z_scope.
Local Open Scope go_scope.

(** ** Paths *)

Lemma HasPrefix_slash p : HasPrefix p "/" = true → ∃ r, bytes p = slash :: r.
Proof. unfold HasPrefix. intros H%bool_decide_eq_true. destruct H as [r Hr]. by exists r. Qed.

Lemma bytes_slash p : bytes ("/" ++ p) = slash :: bytes p.
Proof. reflexivity. Qed.

(** The path a handler serves is always absolute and clean: a slash followed
    by elements none of which is empty, [.] or [..] or holds a slash; cleaning
    it again changes nothing, and an empty or blank path means the default. *)
Lemma normalizePath_clean p :
  (∃ es, Forall clean_elem es ∧ bytes (normalizePath p) = slash :: join_slash es)
  ∧ path_Clean (normalizePath p) = normalizePath p
  ∧ (TrimSpace p = ""%string → normalizePath p = DefaultPath).
Proof.
  unfold normalizePath. set (t := TrimSpace p).
  assert (Hclean : ∀ q r, bytes q = slash :: r →
    (∃ es, Forall clean_elem es ∧ bytes (path_Clean q) = slash :: join_slash es)
    ∧ path_Clean (path_Clean q) = path_Clean q).
  { intros q r Hq. unfold path_Clean. rewrite bytes_str, Hq. split; [apply path_Clean_rooted|].
    by rewrite path_Clean_idempotent. }
  destruct (String.eqb_spec t "") as [->|Hne].
  - split; [|by split].
    exists [bytes "signalg"]. split; [|reflexivity].
    repeat constructor; try done. apply (bool_decide_unpack _). by vm_compute.
  - assert (H : ∃ r, bytes (if negb (HasPrefix t "/") then ("/" ++ t)%string else t) = slash :: r).
    { destruct (HasPrefix t "/") eqn:Hp; cbn [negb]; [by apply HasPrefix_slash|].
      eexists. apply bytes_slash. }
    destruct H as [r Hr]. destruct (Hclean _ _ Hr). done.
Qed.

Section facts.
Context {R V : Type} `{!ExternalCodecs V}.

Definition supported (s : Serialization) : Prop := s = 0 ∨ s = 1 ∨ s = 2.

Lemma newBodyCodec_cases s :
  match newBodyCodec (V := V) s with
  | Ok codec => supported s ∧ codec_Serialization codec = s
  | Err e => ¬ supported s ∧ errors_Is e ErrUnsupportedCodec = true
  end.
Proof.
  unfold newBodyCodec, supported, SerializationMessagePack, SerializationProtobuf, SerializationJSON.
  destruct (Z.eqb_spec s 0) as [->|]; [split; [auto|done]|].
  destruct (Z.eqb_spec s 1) as [->|]; [split; [auto|done]|].
  destruct (Z.eqb_spec s 2) as [->|]; [split; [auto|done]|]. split; [tauto|done].
Qed.

Lemma normalizeMaxPayloadSize_pos n : 0 < normalizeMaxPayloadSize n.
Proof. unfold normalizeMaxPayloadSize. case_match; [done|lia]. Qed.

(** C35. [NewHandler] fails exactly without a hub factory or with a serialization
    that is none of the three supported, with the matching error; otherwise
    every limit of the handler is usable: the payload limit, the send
    concurrency, the queue size and the write timeout are positive, the ping
    interval is not negative, the body codec is the one asked for, and values
    that were already usable are kept. *)
Theorem NewHandler_settings {H : Type} (cfg : Config R) (factory : option H) :
  match NewHandler (V := V) cfg factory with
  | Err e =>
      (factory = None ∧ e = ErrNilHubFactory)
      ∨ (factory ≠ None ∧ ¬ supported (cfg_Serialization cfg)
         ∧ errors_Is e ErrUnsupportedCodec = true)
  | Ok h =>
      factory ≠ None ∧ supported (cfg_Serialization cfg)
      ∧ pc_serialization (Some (hs_protocol h)) = cfg_Serialization cfg
      ∧ 0 < pc_maxPayloadSize (hs_protocol h)
      ∧ (0 < cfg_MaxPayloadSize cfg → pc_maxPayloadSize (hs_protocol h) = cfg_MaxPayloadSize cfg)
      ∧ 0 < hs_sendConcurrency h
      ∧ (0 < cfg_SendConcurrency cfg → hs_sendConcurrency h = cfg_SendConcurrency cfg)
      ∧ 0 < hs_sendQueueSize h
      ∧ (0 < cfg_SendQueueSize cfg → hs_sendQueueSize h = cfg_SendQueueSize cfg)
      ∧ 0 < hs_writeTimeout h
      ∧ (0 < cfg_WriteTimeout cfg → hs_writeTimeout h = cfg_WriteTimeout cfg)
      ∧ 0 ≤ cfg_PingInterval (hs_cfg h)
      ∧ (0 ≤ cfg_PingInterval cfg → cfg_PingInterval (hs_cfg h) = cfg_PingInterval cfg)
      ∧ cfg_Path (hs_cfg h) = normalizePath (cfg_Path cfg)
  end.
Proof.
  unfold NewHandler. destruct factory as [f|]; [|by left].
  unfold newProtocolConfig. pose proof (newBodyCodec_cases (cfg_Serialization cfg)) as Hc.
  destruct (newBodyCodec _) as [codec|e]; cbn; [|by right].
  pose proof (normalizeMaxPayloadSize_pos (cfg_MaxPayloadSize cfg)).
  unfold normalizeMaxPayloadSize, normalizeSendConcurrency, normalizeSendQueueSize,
    normalizeWriteTimeout, normalizePingInterval, DefaultSendConcurrency, DefaultSendQueueSize,
    DefaultWriteTimeout, DefaultPingInterval, Second, Millisecond in *.
  destruct Hc as [? ->]. split_and!; try done; repeat case_match; try lia.
Qed.

(** C36. With the default read limit the websocket lets every frame through that
    the protocol accepts: the limit covers the header, the longest method
    name, the longest invocation id and the largest payload (as long as the
    sum fits 64 bits). *)
Theorem read_limit_admits_frames {H : Type} (cfg : Config R) (factory : option H) h f msg
    (Hnew : NewHandler (V := V) cfg factory = Ok h) (Hdefault : cfg_ReadLimit cfg = 0)
    (Hmax : cfg_MaxPayloadSize cfg ≤ 2 ^ 63 - 1 - 518)
    (Hf : pc_decodeFrame (Some (hs_protocol h)) f = Ok msg) :
  zlen f ≤ cfg_ReadLimit (hs_cfg h).
Proof.
  unfold NewHandler in Hnew. destruct factory as [f'|]; [|done].
  unfold newProtocolConfig in Hnew. pose proof (newBodyCodec_cases (cfg_Serialization cfg)) as Hc.
  destruct (newBodyCodec _) as [codec|e]; cbn in Hnew; [|done]. injection Hnew as <-. cbn in *.
  rewrite Hdefault. cbn. destruct Hc as [Hs Hcodec].
  apply decodeFrame_sound in Hf as (k & m & i & p & Hv & -> & _).
  rewrite frameBytes_length. destruct Hv as ((_ & [Hm Hi] & _) & _ & Hp & _).
  pose proof (normalizeMaxPayloadSize_pos (cfg_MaxPayloadSize cfg)) as Hpos.
  assert (Hle : normalizeMaxPayloadSize (cfg_MaxPayloadSize cfg) ≤ 2 ^ 63 - 1 - 518).
  { unfold normalizeMaxPayloadSize. case_match; [done|lia]. }
  replace (normalizeMaxPayloadSize (normalizeMaxPayloadSize _))
    with (normalizeMaxPayloadSize (cfg_MaxPayloadSize cfg)) in Hp.
  - unfold HeaderSize, MaxMethodNameLen, MaxInvocationIDLen. rewrite i64_small; [lia|].
    unfold is_i64. lia.
  - unfold normalizeMaxPayloadSize at 2. case_match; [lia|done].
Qed.

(** The heartbeat goroutine runs exactly when the ping interval is positive
    (a negative one means the default), and then a connection may stay silent
    for the configured timeout, or five intervals when there is none; clients
    are told the interval in milliseconds, rounded down. *)
Lemma heartbeat_settings {H : Type} (cfg : Config R) (factory : option H) h conn addr
    (Hnew : NewHandler (V := V) cfg factory = Ok h) (Hsmall : cfg_PingInterval cfg ≤ 2 ^ 60) :
  let interval := normalizePingInterval (cfg_PingInterval cfg) in
  heartbeatEnabled h = negb (cfg_PingInterval cfg =? 0)
  ∧ (heartbeatEnabled h = true →
       cfg_PingTimeout (hs_cfg h)
       = if 0 <? cfg_PingTimeout cfg then cfg_PingTimeout cfg else 5 * interval)
  ∧ let ms := cp_PingIntervalMilliseconds (newConnectedPayload conn addr (cfg_PingInterval (hs_cfg h))) in
    ms * Millisecond ≤ interval < (ms + 1) * Millisecond.
Proof.
  unfold NewHandler in Hnew. destruct factory as [f'|]; [|done].
  unfold newProtocolConfig in Hnew. destruct (newBodyCodec _) as [codec|e]; cbn in Hnew; [|done].
  injection Hnew as <-. unfold heartbeatEnabled. cbn.
  assert (Hi : normalizePingInterval (cfg_PingInterval cfg) = 0 ∧ cfg_PingInterval cfg = 0
    ∨ 0 < normalizePingInterval (cfg_PingInterval cfg) ≤ 2 ^ 60 ∧ cfg_PingInterval cfg ≠ 0).
  { unfold normalizePingInterval, DefaultPingInterval, Second, Millisecond.
    destruct (Z.ltb_spec (cfg_PingInterval cfg) 0); lia. }
  set (iv := normalizePingInterval _) in *. unfold normalizePingTimeout.
  assert (H5 : i64 (5 * iv) = 5 * iv) by (apply i64_small; unfold is_i64; lia). rewrite H5.
  split_and!.
  - destruct (Z.eqb_spec (cfg_PingInterval cfg) 0), (Z.leb_spec iv 0), (Z.leb_spec (cfg_PingTimeout cfg) 0),
      (Z.ltb_spec 0 iv); cbn [andb negb]; lia.
  - intros [Hen%Z.ltb_lt _]%andb_true_iff. destruct (Z.leb_spec iv 0), (Z.leb_spec (cfg_PingTimeout cfg) 0),
      (Z.ltb_spec 0 (cfg_PingTimeout cfg)); lia.
  - assert (H0 : (if iv <? 0 then 0 else iv) = iv) by (destruct (Z.ltb_spec iv 0); lia).
    rewrite H0. unfold Milliseconds, goquot. rewrite Z.quot_div_nonneg by (unfold Millisecond; lia).
    unfold Millisecond. Z.to_euclidean_division_equations. lia.
  - assert (H0 : (if iv <? 0 then 0 else iv) = iv) by (destruct (Z.ltb_spec iv 0); lia).
    rewrite H0. unfold Milliseconds, goquot. rewrite Z.quot_div_nonneg by (unfold Millisecond; lia).
    unfold Millisecond. Z.to_euclidean_division_equations. lia.
Qed.
End facts.

(** ** Witnesses *)

Definition sample_cfg : Config unit :=
  {| cfg_Path := " api//ws/ "; cfg_UserProvider := None; cfg_CheckOrigin := None;
     cfg_OriginPatterns := []; cfg_InsecureSkipVerify := false; cfg_Subprotocols := [];
     cfg_CompressionMode := 0; cfg_CompressionThreshold := 0; cfg_ReadLimit := 0;
     cfg_Serialization := SerializationJSON; cfg_MaxPayloadSize := 100;
     cfg_SendConcurrency := 0; cfg_SendQueueSize := 0; cfg_WriteTimeout := 0;
     cfg_SlowConsumerPolicy := 0; cfg_PingInterval := 1500000000; cfg_PingTimeout := 0 |}.

Definition sample_settings : handlerSettings unit (list byte) :=
  {| hs_cfg := normalizeConfig {| pc_codec := Some jsonCodec; pc_maxPayloadSize := 100 |} sample_cfg;
     hs_protocol := {| pc_codec := Some jsonCodec; pc_maxPayloadSize := 100 |};
     hs_sendConcurrency := 256; hs_sendQueueSize := 256; hs_writeTimeout := 5 * Second;
     hs_slowConsumerPolicy := 0 |}.

Lemma read_limit_admits_frames_witness :
  zlen (frameBytes 2 0 [x6d] [] [x01; x02]) ≤ 8 + 255 + 255 + 100.
Proof.
  change (8 + 255 + 255 + 100) with (cfg_ReadLimit (hs_cfg sample_settings)).
  eapply (read_limit_admits_frames sample_cfg (Some tt) sample_settings);
    [reflexivity|reflexivity|by vm_compute|].
  by vm_compute.
Defined.
