(* ===== verification/Handler.v ===== *)
(** * The handler (server.go)

    The store [hstate] of a [Handler]: the registry, the connections by pointer,
    the admission mutex, the wait group and counters, the heartbeat channels and
    what the goroutines share outside the package's types (the buffer pool of the
    read loops, the dispatcher cache, contexts).  Methods are [proc]s that lift those of
    Registry.v and Connection.v to this store. *)

From Stdlib Require Import Ascii String.
From S2P Require Import Prelude GoStd GoText Errors Protocol Framing Proc Connection.
From S2P Require Import Registry Batch Dispatcher Config.

Local Open Scope Z_scope.
Local Open Scope go_scope.

(** ** Lifting programs to a larger store *)

(** The program on a part of the store that may be missing. *)
Fixpoint lift {S S' A} (get : S → option S') (put : S' → S → S) (p : proc S' A) : proc S A :=
  match p with
  | Ret a => Ret a
  | Act f k =>
      Act (λ s, match get s with
                | Some s' => (λ '(x, s''), (x, put s'' s)) <$> f s'
                | None => []
                end) (λ x, lift get put (k x))
  end.

(** ** The store *)

(** What callers and hubs see happen, in order. *)
Inductive event :=
| HTTPError (code : Z)                        (* http.Error, http.NotFound *)
| Upgraded                                    (* websocket.Accept succeeded *)
| SocketClosed                                (* ws.CloseNow() before there is a connection *)
| Connected (conn : ptr)                      (* hub.OnConnected starts *)
| Received (conn : ptr) (method : string)     (* hub.OnMessage starts *)
| Disconnected (conn : ptr) (err : option error).  (* hub.OnDisconnected starts *)

(** [sync.Once], with the error kept beside it. *)
Inductive once := OnceFree | OnceRunning | OnceDone (err : option error).

Record hstate {M : Type → Type} {P V PF F : Type} := {
  h_registry : rstate M P;
  h_conns : gmap ptr (cstate V PF);
  h_admissionMu : bool;
  h_active : Z;                      (* the WaitGroup *)
  h_shuttingDown : bool;
  h_online : Z;
  h_heartbeatWake : bool;            (* the buffer of the channel, one slot *)
  h_heartbeatStop : bool;            (* closed *)
  h_heartbeatStopOnce : bool;        (* done *)
  h_shutdownOnce : once;
  h_bpool : list (list byte);        (* internal/bpool: contents of free buffers *)
  h_dispatchers : list (goType * hubDispatcher F);
  h_ctxs : gmap nat error;           (* contexts that are done *)
  h_events : list event;             (* history *)
  h_panicked : bool;
}.
Arguments hstate M P V PF F : clear implicits.

Section updates.
Context {M : Type → Type} {P V PF F : Type}.

Local Abbreviation state := (hstate M P V PF F).

Definition set_registry (v : rstate M P) (s : state) : state :=
  {| h_registry := v; h_conns := h_conns s; h_admissionMu := h_admissionMu s;
     h_active := h_active s; h_shuttingDown := h_shuttingDown s; h_online := h_online s;
     h_heartbeatWake := h_heartbeatWake s; h_heartbeatStop := h_heartbeatStop s;
     h_heartbeatStopOnce := h_heartbeatStopOnce s; h_shutdownOnce := h_shutdownOnce s;
     h_bpool := h_bpool s; h_dispatchers := h_dispatchers s; h_ctxs := h_ctxs s;
     h_events := h_events s; h_panicked := h_panicked s |}.

Definition set_conns (v : gmap ptr (cstate V PF)) (s : state) : state :=
  {| h_registry := h_registry s; h_conns := v; h_admissionMu := h_admissionMu s;
     h_active := h_active s; h_shuttingDown := h_shuttingDown s; h_online := h_online s;
     h_heartbeatWake := h_heartbeatWake s; h_heartbeatStop := h_heartbeatStop s;
     h_heartbeatStopOnce := h_heartbeatStopOnce s; h_shutdownOnce := h_shutdownOnce s;
     h_bpool := h_bpool s; h_dispatchers := h_dispatchers s; h_ctxs := h_ctxs s;
     h_events := h_events s; h_panicked := h_panicked s |}.

Definition set_admissionMu (v : bool) (s : state) : state :=
  {| h_registry := h_registry s; h_conns := h_conns s; h_admissionMu := v;
     h_active := h_active s; h_shuttingDown := h_shuttingDown s; h_online := h_online s;
     h_heartbeatWake := h_heartbeatWake s; h_heartbeatStop := h_heartbeatStop s;
     h_heartbeatStopOnce := h_heartbeatStopOnce s; h_shutdownOnce := h_shutdownOnce s;
     h_bpool := h_bpool s; h_dispatchers := h_dispatchers s; h_ctxs := h_ctxs s;
     h_events := h_events s; h_panicked := h_panicked s |}.

(** A negative counter of the WaitGroup panics. *)
Definition set_active (v : Z) (s : state) : state :=
  {| h_registry := h_registry s; h_conns := h_conns s; h_admissionMu := h_admissionMu s;
     h_active := v; h_shuttingDown := h_shuttingDown s; h_online := h_online s;
     h_heartbeatWake := h_heartbeatWake s; h_heartbeatStop := h_heartbeatStop s;
     h_heartbeatStopOnce := h_heartbeatStopOnce s; h_shutdownOnce := h_shutdownOnce s;
     h_bpool := h_bpool s; h_dispatchers := h_dispatchers s; h_ctxs := h_ctxs s;
     h_events := h_events s; h_panicked := h_panicked s || (v <? 0) |}.

Definition set_shuttingDown (v : bool) (s : state) : state :=
  {| h_registry := h_registry s; h_conns := h_conns s; h_admissionMu := h_admissionMu s;
     h_active := h_active s; h_shuttingDown := v; h_online := h_online s;
     h_heartbeatWake := h_heartbeatWake s; h_heartbeatStop := h_heartbeatStop s;
     h_heartbeatStopOnce := h_heartbeatStopOnce s; h_shutdownOnce := h_shutdownOnce s;
     h_bpool := h_bpool s; h_dispatchers := h_dispatchers s; h_ctxs := h_ctxs s;
     h_events := h_events s; h_panicked := h_panicked s |}.

Definition set_online (v : Z) (s : state) : state :=
  {| h_registry := h_registry s; h_conns := h_conns s; h_admissionMu := h_admissionMu s;
     h_active := h_active s; h_shuttingDown := h_shuttingDown s; h_online := v;
     h_heartbeatWake := h_heartbeatWake s; h_heartbeatStop := h_heartbeatStop s;
     h_heartbeatStopOnce := h_heartbeatStopOnce s; h_shutdownOnce := h_shutdownOnce s;
     h_bpool := h_bpool s; h_dispatchers := h_dispatchers s; h_ctxs := h_ctxs s;
     h_events := h_events s; h_panicked := h_panicked s |}.

Definition set_heartbeatWake (v : bool) (s : state) : state :=
  {| h_registry := h_registry s; h_conns := h_conns s; h_admissionMu := h_admissionMu s;
     h_active := h_active s; h_shuttingDown := h_shuttingDown s; h_online := h_online s;
     h_heartbeatWake := v; h_heartbeatStop := h_heartbeatStop s;
     h_heartbeatStopOnce := h_heartbeatStopOnce s; h_shutdownOnce := h_shutdownOnce s;
     h_bpool := h_bpool s; h_dispatchers := h_dispatchers s; h_ctxs := h_ctxs s;
     h_events := h_events s; h_panicked := h_panicked s |}.

(** [heartbeatStopOnce.Do(close)]. *)
Definition stop_heartbeat (s : state) : state :=
  if h_heartbeatStopOnce s then s
  else
  {| h_registry := h_registry s; h_conns := h_conns s; h_admissionMu := h_admissionMu s;
     h_active := h_active s; h_shuttingDown := h_shuttingDown s; h_online := h_online s;
     h_heartbeatWake := h_heartbeatWake s; h_heartbeatStop := true;
     h_heartbeatStopOnce := true; h_shutdownOnce := h_shutdownOnce s;
     h_bpool := h_bpool s; h_dispatchers := h_dispatchers s; h_ctxs := h_ctxs s;
     h_events := h_events s; h_panicked := h_panicked s || h_heartbeatStop s |}.

Definition set_shutdownOnce (v : once) (s : state) : state :=
  {| h_registry := h_registry s; h_conns := h_conns s; h_admissionMu := h_admissionMu s;
     h_active := h_active s; h_shuttingDown := h_shuttingDown s; h_online := h_online s;
     h_heartbeatWake := h_heartbeatWake s; h_heartbeatStop := h_heartbeatStop s;
     h_heartbeatStopOnce := h_heartbeatStopOnce s; h_shutdownOnce := v;
     h_bpool := h_bpool s; h_dispatchers := h_dispatchers s; h_ctxs := h_ctxs s;
     h_events := h_events s; h_panicked := h_panicked s |}.

Definition set_bpool (v : list (list byte)) (s : state) : state :=
  {| h_registry := h_registry s; h_conns := h_conns s; h_admissionMu := h_admissionMu s;
     h_active := h_active s; h_shuttingDown := h_shuttingDown s; h_online := h_online s;
     h_heartbeatWake := h_heartbeatWake s; h_heartbeatStop := h_heartbeatStop s;
     h_heartbeatStopOnce := h_heartbeatStopOnce s; h_shutdownOnce := h_shutdownOnce s;
     h_bpool := v; h_dispatchers := h_dispatchers s; h_ctxs := h_ctxs s;
     h_events := h_events s; h_panicked := h_panicked s |}.

Definition set_dispatchers (v : list (goType * hubDispatcher F)) (s : state) : state :=
  {| h_registry := h_registry s; h_conns := h_conns s; h_admissionMu := h_admissionMu s;
     h_active := h_active s; h_shuttingDown := h_shuttingDown s; h_online := h_online s;
     h_heartbeatWake := h_heartbeatWake s; h_heartbeatStop := h_heartbeatStop s;
     h_heartbeatStopOnce := h_heartbeatStopOnce s; h_shutdownOnce := h_shutdownOnce s;
     h_bpool := h_bpool s; h_dispatchers := v; h_ctxs := h_ctxs s;
     h_events := h_events s; h_panicked := h_panicked s |}.

Definition add_event (e : event) (s : state) : state :=
  {| h_registry := h_registry s; h_conns := h_conns s; h_admissionMu := h_admissionMu s;
     h_active := h_active s; h_shuttingDown := h_shuttingDown s; h_online := h_online s;
     h_heartbeatWake := h_heartbeatWake s; h_heartbeatStop := h_heartbeatStop s;
     h_heartbeatStopOnce := h_heartbeatStopOnce s; h_shutdownOnce := h_shutdownOnce s;
     h_bpool := h_bpool s; h_dispatchers := h_dispatchers s; h_ctxs := h_ctxs s;
     h_events := h_events s ++ [e]; h_panicked := h_panicked s |}.

(** A goroutine panics. *)
Definition set_panicked (s : state) : state :=
  {| h_registry := h_registry s; h_conns := h_conns s; h_admissionMu := h_admissionMu s;
     h_active := h_active s; h_shuttingDown := h_shuttingDown s; h_online := h_online s;
     h_heartbeatWake := h_heartbeatWake s; h_heartbeatStop := h_heartbeatStop s;
     h_heartbeatStopOnce := h_heartbeatStopOnce s; h_shutdownOnce := h_shutdownOnce s;
     h_bpool := h_bpool s; h_dispatchers := h_dispatchers s; h_ctxs := h_ctxs s;
     h_events := h_events s; h_panicked := true |}.

(** A context ends (its first error stays). *)
Definition cancel_ctx (ctx : nat) (e : error) (s : state) : state :=
  {| h_registry := h_registry s; h_conns := h_conns s; h_admissionMu := h_admissionMu s;
     h_active := h_active s; h_shuttingDown := h_shuttingDown s; h_online := h_online s;
     h_heartbeatWake := h_heartbeatWake s; h_heartbeatStop := h_heartbeatStop s;
     h_heartbeatStopOnce := h_heartbeatStopOnce s; h_shutdownOnce := h_shutdownOnce s;
     h_bpool := h_bpool s; h_dispatchers := h_dispatchers s;
     h_ctxs := match h_ctxs s !! ctx with Some _ => h_ctxs s | None => <[ctx := e]> (h_ctxs s) end;
     h_events := h_events s; h_panicked := h_panicked s |}.
End updates.

Section handler.
Context {M : Type → Type} `{!ShardMap M} {P : Type} `{!SlicePool P}.
Context {V PF : Type} `{!ExternalCodecs V} `{!SlicePool PF} {F R : Type}.
(** The connections by pointer, [fmt.Sprintf("%p", conn)], and the handler. *)
Context (Conn : ptr → connInfo) (fmt_p : ptr → string) (h : handlerSettings R V).

Local Abbreviation state := (hstate M P V PF F).
Local Abbreviation Mo := (proc (hstate M P V PF F)).

Definition on_registry {A} (p : proc (rstate M P) A) : Mo A :=
  lift (λ s, Some (h_registry s)) set_registry p.

(** A method of a connection. *)
Definition on_conn (conn : ptr) {A} (p : proc (cstate V PF) A) : Mo A :=
  lift (λ s, h_conns s !! conn) (λ c s, set_conns (<[conn := c]> (h_conns s)) s) p.

(** The fields [NewHandler] makes, with the pool of slices of the registry and the time. *)
Definition newHandlerState (pool : P) (now : Z) : state :=
  {| h_registry := newConnectionRegistry pool now; h_conns := ∅; h_admissionMu := false;
     h_active := 0; h_shuttingDown := false; h_online := 0; h_heartbeatWake := false;
     h_heartbeatStop := false; h_heartbeatStopOnce := false; h_shutdownOnce := OnceFree;
     h_bpool := []; h_dispatchers := []; h_ctxs := ∅; h_events := []; h_panicked := false |}.

Definition emit (e : event) : Mo unit := modify (add_event e).

(** A panic that the package does not recover ends the goroutine; its deferred
    calls are not modelled. *)
Definition go_panic {A} : Mo A := modify set_panicked ;;; atomic (λ _, []).

(** A context that callers pass: nil stands for [context.Background()], which
    never ends. *)
Definition ctx_done (ctx : option nat) (s : state) : option error :=
  match ctx with
  | None => None
  | Some n => h_ctxs s !! n
  end.

(** ** Admission *)

Definition lock_admissionMu : Mo unit :=
  atomic (λ s, if h_admissionMu s then [] else [(tt, set_admissionMu true s)]).
Definition unlock_admissionMu : Mo unit := modify (set_admissionMu false).

(** A send to a channel with one slot that gives up when it is full. *)
Definition wakeHeartbeatLoop : Mo unit :=
  if negb (heartbeatEnabled h) then mret tt else modify (set_heartbeatWake true).

Definition stopHeartbeatLoop : Mo unit := modify stop_heartbeat.

Definition add_active (n : Z) : Mo unit := modify (λ s, set_active (h_active s + n) s).
Definition add_online (n : Z) : Mo unit := modify (λ s, set_online (h_online s + n) s).

Definition addConnection (conn : ptr) : Mo bool :=
  lock_admissionMu ;;;
  down <- reads h_shuttingDown ;;;
  if down : bool then
    unlock_admissionMu ;;;
    mret false
  else
    add_active 1 ;;;
    on_registry (add Conn fmt_p conn) ;;;
    add_online 1 ;;;
    wakeHeartbeatLoop ;;;
    unlock_admissionMu ;;;
    mret true.

Definition removeConnection (conn : ptr) : Mo unit :=
  ok <- on_registry (remove Conn fmt_p conn) ;;;
  if negb ok then mret tt
  else
    add_online (-1) ;;;
    wakeHeartbeatLoop.

Definition finishConnection : Mo unit := add_active (-1).

Definition Online : Mo Z := reads h_online.

(** ** Heartbeats *)

Definition closeExpiredIdleConnections : Mo unit :=
  now <- reads (λ s, r_now (h_registry s)) ;;;
  expired <- on_registry (expired Conn now (cfg_PingTimeout (hs_cfg h))) ;;;
  if zlen expired =? 0 then mret tt
  else
    add_online (- zlen expired) ;;;
    for_each expired (λ conn,
      on_conn conn (closeContext theConn) ;;;
      on_conn conn (closeNow theConn) ;;;
      mret tt) ;;;
    wakeHeartbeatLoop.

Inductive wake_up := TimerFired | Woken | Stopped.

(** [select] on the wake and stop channels, and on the timer when there is one
    (it may fire at any moment). *)
Definition heartbeat_select (timer : bool) : Mo wake_up :=
  atomic (λ s,
    (if timer then [(TimerFired, s)] else [])
    ++ (if h_heartbeatWake s then [(Woken, set_heartbeatWake false s)] else [])
    ++ (if h_heartbeatStop s then [(Stopped, s)] else [])).

(** At most [fuel] rounds. *)
Fixpoint heartbeatLoop (fuel : nat) : Mo unit :=
  match fuel with
  | O => mret tt
  | S fuel =>
      wait <- on_registry (nextExpiration (cfg_PingTimeout (hs_cfg h))) ;;;
      ev <- heartbeat_select wait.2 ;;;
      match ev with
      | TimerFired => closeExpiredIdleConnections ;;; heartbeatLoop fuel
      | Woken => heartbeatLoop fuel
      | Stopped => mret tt
      end
  end.

(** ** Shutdown *)

(** [drainingConnection]: a connection and its done channel. *)
Definition drainingConnection : Type := ptr * nat.

Definition beginShutdown : Mo (list drainingConnection) :=
  lock_admissionMu ;;;
  modify (set_shuttingDown true) ;;;
  snapshot <- on_registry allConnections ;;;
  connections <- fold_each snapshot [] (λ connections conn,
    done <- on_conn conn (beginDrain theConn) ;;;
    mret (connections ++ [(conn, done)])) ;;;
  unlock_admissionMu ;;;
  mret connections.

(** Whether the done channel is closed. *)
Definition drained (draining : drainingConnection) (s : state) : bool :=
  match h_conns s !! draining.1 with
  | Some c => bool_decide (draining.2 ∈ closedChans (c_ops c))
  | None => false
  end.

(** [select] on the done channel and the context; it blocks until one is ready. *)
Definition select_drained (ctx : option nat) (draining : drainingConnection) : Mo (option error) :=
  atomic (λ s,
    (if drained draining s then [(None, s)] else [])
    ++ match ctx_done ctx s with Some e => [(Some e, s)] | None => [] end).

Fixpoint waitConnectionsDrained (ctx : option nat) (connections : list drainingConnection)
    : Mo (option error) :=
  match connections with
  | [] => mret None
  | draining :: connections =>
      r <- select_drained ctx draining ;;;
      match r with
      | Some e => mret (Some e)
      | None => waitConnectionsDrained ctx connections
      end
  end.

Definition closeDrainingConnections (connections : list drainingConnection) : Mo unit :=
  for_each connections (λ '(conn, _),
    on_conn conn (closeContext theConn) ;;;
    on_conn conn (closeNow theConn) ;;;
    mret tt).

(** [h.active.Wait()] in its goroutine, against the context. *)
Definition wait_active (ctx : option nat) : Mo (option error) :=
  atomic (λ s,
    (if h_active s =? 0 then [(None, s)] else [])
    ++ match ctx_done ctx s with Some e => [(Some e, s)] | None => [] end).

Definition shutdown (ctx : option nat) : Mo (option error) :=
  stopHeartbeatLoop ;;;
  drainingConnections <- beginShutdown ;;;
  err <- waitConnectionsDrained ctx drainingConnections ;;;
  match err with
  | Some err =>
      closeDrainingConnections drainingConnections ;;;
      mret (Some err)
  | None =>
      closeDrainingConnections drainingConnections ;;;
      wait_active ctx
  end.

(** [shutdownOnce.Do]: whether this call runs the function, or the error of the
    one that did; it blocks while that one runs. *)
Definition enter_shutdown : Mo (option (option error)) :=
  atomic (λ s,
    match h_shutdownOnce s with
    | OnceFree => [(None, set_shutdownOnce OnceRunning s)]
    | OnceRunning => []
    | OnceDone err => [(Some err, s)]
    end).

Definition Shutdown (ctx : option nat) : Mo (option error) :=
  r <- enter_shutdown ;;;
  match r with
  | Some err => mret err
  | None =>
      err <- shutdown ctx ;;;
      modify (set_shutdownOnce (OnceDone err)) ;;;
      mret err
  end.
End handler.

(** Putting back what is there changes nothing. *)
Lemma set_registry_same {M : Type → Type} {P V PF F} (s : hstate M P V PF F) :
  set_registry (h_registry s) s = s.
Proof. by destruct s. Qed.
