(* ===== verification/RegistryMoves.v ===== *)
(** * Which registry programs add connections

    [always G p]: every action of [p] respects [G].  Every registry program but
    [add] only ever removes keys from the connections map and keeps the
    connection of every entry; [add] creates entries of its connection only. *)

From Stdlib Require Import Ascii String.
From S2P Require Import Prelude GoStd GoText Errors Proc Connection Registry RegistryProps.

Local Open Scope Z_scope.
Local Open Scope go_scope.

(** ** A relation that every action of a program respects *)

Section always.
Context {S : Type} (G : S → S → Prop).

Fixpoint always {A} (p : proc S A) : Prop :=
  match p with
  | Ret _ => True
  | Act f k => (∀ s x s', (x, s') ∈ f s → G s s') ∧ ∀ x, always (k x)
  end.

Lemma always_bind {A B} (p : proc S A) (g : A → proc S B) :
  always p → (∀ a, always (g a)) → always (proc_bind g p).
Proof. intros Hp Hg. induction p as [a|X f k IH]; cbn in *; [apply Hg|]. destruct Hp. auto. Qed.

Lemma always_atomically {X} (f : S → X * S) : (∀ s, G s (f s).2) → always (atomically f).
Proof. intros Hf. split; [|done]. intros s x s' Hin%list_elem_of_singleton. rewrite (surjective_pairing (f s)) in Hin. by injection Hin as -> ->. Qed.

Lemma always_for_each {A} (l : list A) (body : A → proc S unit) :
  (∀ a, always (body a)) → always (for_each l body).
Proof. intros Hb. induction l; cbn; [done|]. by apply always_bind. Qed.

Lemma always_fold_each {A B} (l : list A) (acc : B) (body : B → A → proc S B) :
  (∀ acc a, always (body acc a)) → always (fold_each l acc body).
Proof. intros Hb. revert acc. induction l; cbn; intros acc; [done|]. by apply always_bind. Qed.

(** Run alone, it also relates the first store to the last. *)
Lemma twp_always `{!PreOrder G} {A} (p : proc S A) Q s :
  always p → twp p Q s → twp p (λ a s', Q a s' ∧ G s s') s.
Proof.
  revert s. induction p as [a|X f k IH]; intros s; cbn; [done|]. intros [Hf Hk] [Hne Hw].
  split; [done|]. intros x s' Hin. eapply twp_mono; [by apply IH, Hw|].
  intros a s2 [HQ HG]. split; [done|]. etransitivity; [by eapply Hf|done].
Qed.
End always.

(** ** How registry programs move the registered connections *)

Section moves.
Context {M : Type → Type} `{!ShardMap M} `{!ShardMapLaws M} {P : Type} `{!SlicePool P}.
Context (Conn : ptr → connInfo) (fmt_p : ptr → string).

Implicit Types r : rstate M P.

Definition registered r (c : ptr) : Prop :=
  ∃ k p e, sm_model (r_connections r) !! k = Some p ∧ r_entries r !! p = Some e ∧ e_conn e = c.

(** No key is added, and there are the same entries with the same connections. *)
Definition Shrinks r r' : Prop :=
  (∀ k p, sm_model (r_connections r') !! k = Some p → sm_model (r_connections r) !! k = Some p)
  ∧ ∀ p, e_conn <$> r_entries r' !! p = e_conn <$> r_entries r !! p.

(** The only new entries are of [conn], and only its key may be added. *)
Definition Adds (conn : ptr) r r' : Prop :=
  (∀ p e', r_entries r' !! p = Some e' →
    e_conn e' = conn ∨ ∃ e, r_entries r !! p = Some e ∧ e_conn e = e_conn e')
  ∧ ∀ k p, k ≠ connectionKey Conn fmt_p conn →
      sm_model (r_connections r') !! k = Some p → sm_model (r_connections r) !! k = Some p.

Lemma Shrinks_entry r r' p e' :
  Shrinks r r' → r_entries r' !! p = Some e' → ∃ e, r_entries r !! p = Some e ∧ e_conn e = e_conn e'.
Proof.
  intros [_ He] Hp. specialize (He p). rewrite Hp in He. destruct (r_entries r !! p) as [e|]; [|done].
  exists e. cbn in He. split; [done|congruence].
Qed.

Lemma Shrinks_entry_back r r' p e :
  Shrinks r r' → r_entries r !! p = Some e → ∃ e', r_entries r' !! p = Some e' ∧ e_conn e' = e_conn e.
Proof.
  intros [_ He] Hp. specialize (He p). rewrite Hp in He. destruct (r_entries r' !! p) as [e'|]; [|done].
  exists e'. cbn in He. split; [done|congruence].
Qed.

Lemma Shrinks_registered r r' c : Shrinks r r' → registered r' c → registered r c.
Proof.
  intros Hs (k & p & e' & Hk & Hp & <-). destruct (Shrinks_entry _ _ _ _ Hs Hp) as (e & ? & <-).
  exists k, p, e. split_and!; [by apply (proj1 Hs)|done|done].
Qed.

Lemma Shrinks_same r r' :
  r_connections r' = r_connections r → r_entries r' = r_entries r → Shrinks r r'.
Proof. intros Hc He. split; [by rewrite Hc|]. by rewrite He. Qed.

Lemma Shrinks_Adds conn r r' : Shrinks r r' → Adds conn r r'.
Proof.
  intros Hs. split; [|intros k p _; apply (proj1 Hs)].
  intros p e' Hp. right. by eapply Shrinks_entry.
Qed.

Lemma Shrinks_refl r : Shrinks r r.
Proof. by apply Shrinks_same. Qed.

Lemma Shrinks_update r p f : (∀ e, e_conn (f e) = e_conn e) → Shrinks r (update_entry p f r).
Proof.
  intros Hf. split; [done|]. intros q. cbn. destruct (decide (p = q)) as [<-|].
  - rewrite lookup_alter_eq. destruct (r_entries r !! p); cbn; [by rewrite Hf|done].
  - by rewrite lookup_alter_ne.
Qed.

Local Abbreviation Sh p := (always Shrinks p).

Lemma sh_reads {A} (g : rstate M P → A) : Sh (reads g).
Proof. apply (always_atomically _ (λ s, (g s, s))). intros r. apply Shrinks_refl. Qed.

Lemma sh_modify (g : rstate M P → rstate M P) : (∀ r, Shrinks r (g r)) → Sh (modify g).
Proof. intros Hg. by apply (always_atomically _ (λ s, (tt, g s))). Qed.

Lemma sh_index_Set i u sp : Sh (index_Set i u sp).
Proof. apply sh_modify. intros r. by apply Shrinks_same. Qed.
Lemma sh_index_Delete i u : Sh (index_Delete i u).
Proof. apply sh_modify. intros r. by apply Shrinks_same. Qed.
Lemma sh_update_set sp g : Sh (modify (update_set sp g)).
Proof. apply sh_modify. intros r. by apply Shrinks_same. Qed.
Lemma sh_update_entry p f : (∀ e, e_conn (f e) = e_conn e) → Sh (modify (update_entry p f)).
Proof. intros Hf. apply sh_modify. intros r. by apply Shrinks_update. Qed.
Lemma sh_connections_Delete k : Sh (connections_Delete k).
Proof.
  apply sh_modify. intros r. split; [|done]. intros k' p. cbn. rewrite sm_Delete_model.
  by intros [_ ?]%lookup_delete_Some.
Qed.
Lemma sh_new_set : Sh new_set.
Proof. apply always_atomically. intros r. by apply Shrinks_same. Qed.

Lemma sh_lock_entry p : Sh (lock_entry p).
Proof.
  split; [|done]. intros r x r' Hin. case_match; [set_solver|].
  apply list_elem_of_singleton in Hin as [= _ ->]. by apply Shrinks_update.
Qed.
Lemma sh_unlock_entry p : Sh (unlock_entry p).
Proof.
  apply sh_modify. intros r. case_match; [by apply Shrinks_update|by apply Shrinks_same].
Qed.
Lemma sh_lock_stripe u : Sh (lock_stripe u).
Proof.
  split; [|done]. intros r x r' Hin. case_match; [set_solver|].
  apply list_elem_of_singleton in Hin as [= _ ->]. by apply Shrinks_same.
Qed.
Lemma sh_unlock_stripe u : Sh (unlock_stripe u).
Proof. apply sh_modify. intros r. case_match; by apply Shrinks_same. Qed.

Lemma sh_groups_Range p : Sh (groups_Range p).
Proof.
  split; [|done]. intros r x r' (l & [= -> ->] & _)%list_elem_of_fmap. apply Shrinks_refl.
Qed.

Lemma sh_getConnectionSlice n : Sh (getConnectionSlice n).
Proof.
  unfold getConnectionSlice. case_match; [done|]. apply always_atomically. intros r.
  destruct (sp_Get _ _ _) as [[b p] next]. by apply Shrinks_same.
Qed.
Lemma sh_putConnectionSlice b : Sh (putConnectionSlice b).
Proof. unfold putConnectionSlice. case_match; [done|]. apply sh_modify. intros r. by apply Shrinks_same. Qed.
Lemma sh_append_conn b c : Sh (append_conn b c).
Proof.
  unfold append_conn. case_match; [done|]. apply always_atomically. intros r. by apply Shrinks_same.
Qed.
End moves.

Create HintDb shrinks.
#[export] Hint Resolve sh_reads sh_index_Set sh_index_Delete sh_update_set sh_connections_Delete
  sh_new_set sh_lock_entry sh_unlock_entry sh_lock_stripe sh_unlock_stripe sh_groups_Range
  sh_getConnectionSlice sh_putConnectionSlice sh_append_conn : shrinks.

(** A program made of actions that add nothing. *)
Ltac shrinks :=
  repeat first
    [ exact I | progress eauto 2 with shrinks | apply sh_update_entry; done
    | apply always_for_each; intros | apply always_fold_each; intros
    | apply always_bind; [|intros] | case_match ].

Section registry_moves.
Context {M : Type → Type} `{!ShardMap M} `{!ShardMapLaws M} {P : Type} `{!SlicePool P}.
Context (Conn : ptr → connInfo) (fmt_p : ptr → string).

Local Abbreviation Sh p := (always (Shrinks (M := M) (P := P)) p).

Lemma sh_connectionSetFor i u : Sh (connectionSetFor i u).
Proof. unfold connectionSetFor, index_Get. shrinks. Qed.

Lemma sh_removeConnectionFromIndex i u k : Sh (removeConnectionFromIndex i u k).
Proof. unfold removeConnectionFromIndex, index_Get, set_Delete, set_Len. shrinks. Qed.

Lemma sh_removeFromUserIndex c k : Sh (removeFromUserIndex Conn c k).
Proof. unfold removeFromUserIndex. case_match; [apply sh_removeConnectionFromIndex|done]. Qed.
End registry_moves.

#[export] Hint Resolve sh_connectionSetFor sh_removeConnectionFromIndex sh_removeFromUserIndex : shrinks.

Section registry_calls.
Context {M : Type → Type} `{!ShardMap M} `{!ShardMapLaws M} {P : Type} `{!SlicePool P}.
Context (Conn : ptr → connInfo) (fmt_p : ptr → string).

Local Abbreviation Sh p := (always (Shrinks (M := M) (P := P)) p).

Lemma sh_lookup_entry c : Sh (lookup_entry Conn fmt_p c).
Proof. unfold lookup_entry, connections_Get. shrinks. Qed.

Lemma sh_remove c : Sh (remove Conn fmt_p c).
Proof.
  unfold remove. case_match; [done|]. apply always_bind; [apply sh_lookup_entry|]. intros [p|]; [|done].
  shrinks.
Qed.

Lemma sh_expired now timeout : Sh (expired Conn now timeout).
Proof.
  unfold expired, collect_expired, expire_entry, connections_Range, connections_Get, entry_conn.
  case_match; [done|]. shrinks.
Qed.

Lemma sh_allConnections : Sh allConnections.
Proof. unfold allConnections, connections_Len, connections_Range, entry_conn. shrinks. Qed.

Lemma sh_entry_conn p : Sh (entry_conn p).
Proof. unfold entry_conn. shrinks. Qed.

(** Every call but [add]. *)
Definition is_add (op : reg_op) : bool := match op with OpAdd _ => true | _ => false end.

Lemma sh_copySetPooled sp : Sh (copyConnectionSetPooled sp).
Proof. unfold copyConnectionSetPooled, set_Range, set_Len. shrinks. Qed.

Lemma sh_copySet sp : Sh (copyConnectionSet sp).
Proof. unfold copyConnectionSet, set_Range. shrinks. Qed.

Lemma sh_snapshot_ids {B} ids (b : B) visit :
  (∀ b c, Sh (visit b c)) → Sh (snapshot_ids ids b visit).
Proof. intros Hv. unfold snapshot_ids, lookup_conn, connections_Get, entry_conn. shrinks; apply Hv. Qed.

Lemma sh_snapshot_users {B} ids (b : B) visit :
  (∀ b c, Sh (visit b c)) → Sh (snapshot_users ids b visit).
Proof. intros Hv. unfold snapshot_users, index_Get, set_Range. shrinks; apply Hv. Qed.

Lemma sh_user_total ids : Sh (user_total ids).
Proof. unfold user_total, index_Get, set_Len. shrinks. Qed.

#[local] Hint Resolve sh_entry_conn sh_lookup_entry sh_remove sh_expired sh_copySetPooled sh_copySet
  sh_snapshot_ids sh_snapshot_users sh_user_total : shrinks.

Lemma sh_run_op op : is_add op = false → Sh (run_op Conn fmt_p op).
Proof.
  intros Hop. destruct op; try done; cbn [run_op]; unfold pooled_snapshot, touch, addToGroup,
    removeFromGroup, removeFromAllGroups, userOnline, groupOnline, userConnections,
    groupConnections, groupConnectionsPooled, allConnections, allConnectionsPooled,
    connectionSnapshot, connectionSnapshotPooled, userSnapshot, userSnapshotPooled,
    nextExpiration, connections_Len, connections_Range, connections_Get, index_Get, set_Len,
    set_Set, time_Now, lookup_conn, entry_conn; shrinks.
  apply sh_modify. intros r. by apply Shrinks_same.
Qed.

(** [add] only creates entries of its connection, under its key. *)
Lemma adds_add c : always (Adds Conn fmt_p c) (add (M := M) (P := P) Conn fmt_p c).
Proof.
  assert (Hsh : ∀ {A} (p : proc (rstate M P) A), Sh p → always (Adds Conn fmt_p c) p).
  { intros A p Hp. induction p as [a|X f k IH]; cbn in *; [done|]. destruct Hp as [Hf Hk].
    split; [|auto]. intros s x s' Hin. eapply Shrinks_Adds, Hf, Hin. }
  unfold add. case_match; [done|]. apply always_bind; [apply Hsh, sh_reads|]. intros now.
  apply always_bind.
  { apply always_atomically. intros r. split; [|done]. intros p e'. cbn.
    intros [[<- <-]|[_ Hp]]%lookup_insert_Some; [by left|eauto]. }
  intros p. apply always_bind.
  { apply (always_atomically _ (λ s, (tt, _))). intros r. split; [intros q e' Hq; right; eauto|].
    intros k q Hk. cbn. by rewrite sm_Set_model, lookup_insert_ne. }
  intros []. apply Hsh. unfold set_Set, connections_Get. shrinks.
Qed.
End registry_calls.
