(* ===== verification/HandlerInv.v ===== *)
(** * The handler's invariant

    [HI] ties the registry's invariant, that of every connection, the wait group
    and the admission mutex together.  Programs of the registry and of a
    connection that are safe for their own invariant are safe for it. *)

From Stdlib Require Import Ascii String.
From S2P Require Import Prelude GoStd GoText Errors Protocol Framing Proc Locks Connection.
From S2P Require Import ConnectionInv ConnectionSafety ConnectionWriter.
From S2P Require Import Registry RegistryProps RegistryLocks RegistryCalls RegistryMoves.
From S2P Require Import Batch Dispatcher Config Handler.

Local Open Scope Z_scope.
Local Open Scope go_scope.

(** ** What a goroutine holds *)

(** [ServeHTTP]'s hold on the connection it made. *)
Inductive admission :=
| Outside                (* not admitted, or all finished *)
| Counted               (* a unit of the wait group; it may be in the registry *)
| Under (p : ptr)        (* the same; if it is in the registry, then as the entry [p] *)
| Removed.               (* a unit of the wait group; it is not in the registry *)

Inductive htok :=
| HReg (r : rtok)                      (* a resource of the registry *)
| HConn (c : ptr) (t : tok)            (* a resource of a connection *)
| HAdmit (down : bool)                 (* admissionMu, and what shuttingDown says *)
| HOwner (c : ptr) (a : admission)     (* the request that made the connection *)
| HDraining (o : option (list ptr))    (* admissionMu, in shutdown: the connections still to drain *)
| HEntry (p c : ptr)                   (* shutdown: the entry [p] is of [c] *)
| HDown (quiet : bool).                (* shutting down; and nobody is admitted *)

Definition regs_of (t : htok) : list rtok := match t with HReg r => [r] | _ => [] end.
Definition conn_of (c : ptr) (t : htok) : list tok :=
  match t with HConn c' t => if Nat.eqb c c' then [t] else [] | _ => [] end.
Definition admit_of (t : htok) : list bool :=
  match t with HAdmit b => [b] | HDraining _ => [true] | _ => [] end.
Definition active_of (t : htok) : list unit :=
  match t with HOwner _ Outside => [] | HOwner _ _ => [tt] | _ => [] end.
Definition owner_of (c : ptr) (t : htok) : list admission :=
  match t with HOwner c' a => if Nat.eqb c c' then [a] else [] | _ => [] end.

Section inv.
Context {M : Type → Type} `{!ShardMap M} `{!ShardMapLaws M} {P : Type} `{!SlicePool P}.
Context {V PF : Type} `{!ExternalCodecs V} `{!SlicePool PF} `{!SlicePoolLaws PF} {F R : Type}.
Context (Conn : ptr → connInfo) (fmt_p : ptr → string) (h : handlerSettings R V).
(** The connections with a writer goroutine: it is blocked until its connection
    is made. *)
Context (W : gset ptr).

Local Abbreviation state := (hstate M P V PF F).
Local Abbreviation Mo := (proc (hstate M P V PF F)).
Local Abbreviation key := (connectionKey Conn fmt_p).

Implicit Types s : state.
Implicit Types L t fr x : list htok.

(** A connection of the handler that takes no more operations. *)
Definition draining_at s (c : ptr) : Prop :=
  ∃ cs, h_conns s !! c = Some cs ∧ draining (c_ops cs) = true.

Definition registered_at s (c : ptr) : Prop := registered (h_registry s) c.

(** Whether an owner in this state may have its connection in the registry. *)
Definition may_register s (c : ptr) (a : admission) : Prop :=
  match a with
  | Counted => True
  | Under p => sm_model (r_connections (h_registry s)) !! key c = Some p
  | Outside | Removed => False
  end.

Record HI s L : Prop := {
  hi_reg : ∃ kn, facts rank kn ∧ RI Conn fmt_p (h_registry s) (kn ++ (L ≫= regs_of));
  hi_conns c cs : h_conns s !! c = Some cs → Inv cs (L ≫= conn_of c);
  hi_dom c cs : h_conns s !! c = Some cs → c ∈ W;
  hi_unborn c : c ∈ W → h_conns s !! c = None → L ≫= conn_of c = [TWriter WIdle];
  hi_entries p e : r_entries (h_registry s) !! p = Some e → is_Some (h_conns s !! e_conn e);
  hi_owner c a : HOwner c a ∈ L → is_Some (h_conns s !! c);
  hi_owners c : (length (L ≫= owner_of c) ≤ 1)%nat;
  hi_registered c : registered_at s c → ∃ a, HOwner c a ∈ L ∧ may_register s c a;
  hi_admit : L ≫= admit_of ≡ₚ if h_admissionMu s then [h_shuttingDown s] else [];
  hi_active : h_active s = zlen (L ≫= active_of);
  hi_stop : h_heartbeatStop s = h_heartbeatStopOnce s;
  hi_panicked : h_panicked s = false;
  hi_covers o : HDraining o ∈ L →
    h_shuttingDown s = true
    ∧ ∀ l, o = Some l → ∀ c, registered_at s c → draining_at s c ∨ c ∈ l;
  hi_entry p c : HEntry p c ∈ L →
    h_shuttingDown s = true ∧ ∃ e, r_entries (h_registry s) !! p = Some e ∧ e_conn e = c;
  hi_drained : h_shuttingDown s = true →
    (∃ o, HDraining o ∈ L) ∨ ∀ c, registered_at s c → draining_at s c;
  hi_down b : HDown b ∈ L → h_shuttingDown s = true ∧ (b = true → h_active s = 0);
  hi_done : h_shutdownOnce s = OnceDone None → h_shuttingDown s = true ∧ h_active s = 0;
}.

#[export] Instance HI_proper s : Proper ((≡ₚ) ==> iff) (HI s).
Proof.
  assert (H : ∀ L1 L2, L1 ≡ₚ L2 → HI s L1 → HI s L2).
  { intros L1 L2 HL []. constructor; auto.
    - destruct hi_reg0 as (kn & ? & ?). exists kn. by rewrite <- HL.
    - intros c cs. rewrite <- HL. auto.
    - intros c Hc Hn. apply Permutation_singleton_r. by rewrite <- HL, (hi_unborn0 c Hc Hn).
    - intros c a. rewrite <- HL. apply hi_owner0.
    - intros c. rewrite <- HL. auto.
    - intros c Hc. destruct (hi_registered0 c Hc) as (a & ? & ?). exists a. by rewrite <- HL.
    - by rewrite <- HL.
    - unfold zlen in *. by rewrite <- HL.
    - intros o. rewrite <- HL. auto.
    - intros p c. rewrite <- HL. auto.
    - intros Hs. destruct (hi_drained0 Hs) as [[o Ho]|?]; [|auto]. left. exists o. by rewrite <- HL.
    - intros b. rewrite <- HL. auto. }
  intros L1 L2 HL. split; apply H; [done|by symmetry].
Qed.

(** Once shutting down, connections and the wait group only go down. *)
Definition HG s s' : Prop :=
  h_shuttingDown s = true →
  h_shuttingDown s' = true ∧ h_active s' ≤ h_active s
  ∧ ∀ c, registered_at s' c → registered_at s c.

#[export] Instance HG_PreOrder : PreOrder HG.
Proof.
  split; [by intros s|]. intros s1 s2 s3 H1 H2 Hs.
  destruct (H1 Hs) as (Hs2 & ? & ?). destruct (H2 Hs2) as (? & ? & ?). split_and!; auto. lia.
Qed.

Local Abbreviation Safe := (safe (S := hstate M P V PF F) HI HG).

(** ** Registry programs *)

Lemma regs_of_HReg (t : list rtok) : (HReg <$> t) ≫= regs_of = t.
Proof. induction t; cbn; [done|]. by f_equal. Qed.

Lemma other_of_HReg {A} (f : htok → list A) (t : list rtok) :
  (∀ r, f (HReg r) = []) → (HReg <$> t) ≫= f = [].
Proof. intros Hf. induction t; cbn; [done|]. by rewrite Hf. Qed.

Lemma admit_known s L b : HI s L → HAdmit b ∈ L → h_admissionMu s = true ∧ h_shuttingDown s = b.
Proof.
  intros HI0 Hb. assert (H : b ∈ L ≫= admit_of).
  { apply list_elem_of_bind. exists (HAdmit b). split; [left|done]. }
  rewrite (hi_admit _ _ HI0) in H. destruct (h_admissionMu s); [|set_solver].
  apply list_elem_of_singleton in H as ->. done.
Qed.

(** The mutex has one holder. *)
Lemma admit_unique s a b t :
  HI s (a :: t) → admit_of a = [b] → t ≫= admit_of = [] ∧ h_admissionMu s = true ∧ h_shuttingDown s = b.
Proof.
  intros HI0 Ha. pose proof (hi_admit _ _ HI0) as H. rewrite bind_cons, Ha in H.
  pose proof (Permutation_length H) as Hlen. destruct (h_admissionMu s); [|done]. cbn in *.
  apply Permutation_singleton_r in H as [= ? ?]. done.
Qed.

(** What only shutdown holds. *)
Definition of_shutdown (t : htok) : bool :=
  match t with HDraining _ | HEntry _ _ | HDown _ => true | _ => false end.

Lemma no_shutdown s L a : HI s L → HAdmit false ∈ L → a ∈ L → of_shutdown a = false.
Proof.
  intros HI0 [_ Hb]%(admit_known s L) Ht; [|done]. destruct a as [| | | |o|p c|q]; try done.
  - destruct (hi_covers _ _ HI0 o Ht). congruence.
  - destruct (hi_entry _ _ HI0 p c Ht). congruence.
  - destruct (hi_down _ _ HI0 q Ht). congruence.
Qed.

(** A connection is registered under its key. *)
Lemma registered_key s L c :
  HI s L → registered_at s c → ∃ p e, sm_model (r_connections (h_registry s)) !! key c = Some p
    ∧ r_entries (h_registry s) !! p = Some e ∧ e_conn e = c.
Proof.
  intros HI0 (k & p & e & Hk & He & <-). destruct (hi_reg _ _ HI0) as (kn & _ & HR).
  destruct (ri_conns _ _ _ _ HR k p Hk) as (e' & He' & _ & <-). simplify_eq. eauto.
Qed.

Lemma owner_known s L c a a' : HI s L → HOwner c a ∈ L → HOwner c a' ∈ L → a = a'.
Proof.
  intros HI0 Ha Ha'. pose proof (hi_owners _ _ HI0 c) as Hlen.
  assert (H : ∀ a, HOwner c a ∈ L → a ∈ L ≫= owner_of c).
  { intros a0 Ha0. apply list_elem_of_bind. exists (HOwner c a0). split; [|done]. cbn.
    rewrite Nat.eqb_refl. left. }
  apply H in Ha, Ha'. destruct (L ≫= owner_of c) as [|a0 [|]]; [set_solver| |cbn in Hlen; lia].
  apply list_elem_of_singleton in Ha as ->, Ha' as ->. done.
Qed.

(** The owners when the registry loses connections. *)
Lemma Shrinks_owned s r' L L' kn l :
  HI s L → RI Conn fmt_p r' (kn ++ l) → Shrinks (h_registry s) r' →
  (∀ c a, HOwner c a ∈ L → HOwner c a ∈ L') →
  ∀ c, registered r' c → ∃ a, HOwner c a ∈ L' ∧ may_register (set_registry r' s) c a.
Proof.
  intros HI0 HR Hsh HL c Hc.
  destruct (hi_registered _ _ HI0 c) as (a & Ha & Hmay); [by eapply Shrinks_registered|].
  exists a. split; [by apply HL|]. destruct a as [| |p|]; try done. cbn in *.
  destruct Hc as (k & p' & e & Hk & He & <-). destruct (ri_conns _ _ _ _ HR k p' Hk) as (e' & He' & _ & <-).
  simplify_eq. pose proof (proj1 Hsh _ _ Hk). congruence.
Qed.

(** The keys of these connections in the registry are distinct. *)
Context (Hkeys : ∀ c c', c ∈ W → c' ∈ W → key c = key c' → c = c').

(** The owners when a connection is added. *)
Lemma Adds_owned s r' L L' kn l c :
  HI s L → RI Conn fmt_p r' (kn ++ l) → Adds Conn fmt_p c (h_registry s) r' →
  HOwner c Counted ∈ L → (∀ c a, HOwner c a ∈ L → HOwner c a ∈ L') →
  (∀ p e, r_entries r' !! p = Some e → is_Some (h_conns s !! e_conn e)) →
  ∀ c', registered r' c' → ∃ a, HOwner c' a ∈ L' ∧ may_register (set_registry r' s) c' a.
Proof.
  intros HI0 HR [He Hk] Hc HL Hent c' Hc'. destruct (decide (c' = c)) as [->|Hne]; [exists Counted; split; [by apply HL|done]|].
  destruct Hc' as (k & p & e' & Hp & He' & <-).
  destruct (ri_conns _ _ _ _ HR k p Hp) as (e1 & He1 & _ & <-). simplify_eq.
  destruct (He p e' He') as [?|(e & Hpe & Heq)]; [done|]. rewrite <- Heq in *.
  assert (Hkey : key (e_conn e) ≠ key c).
  { intros Hkey. apply Hne, Hkeys; [| |done].
    - destruct (hi_entries _ _ HI0 p e Hpe) as [cs Hcs]. by eapply hi_dom.
    - destruct (hi_owner _ _ HI0 c _ Hc) as [cs Hcs]. by eapply hi_dom. }
  pose proof (Hk _ _ Hkey Hp) as Hp0.
  destruct (hi_registered _ _ HI0 (e_conn e)) as (a & Ha & Hmay); [by exists (key (e_conn e)), p, e|].
  exists a. split; [auto|]. destruct a; try done. cbn in *. congruence.
Qed.

(** The registry moves to [r'] and the goroutine's registry resources from [t]
    to [t']. *)
Lemma HI_registry s r' kn (t t' : list rtok) fr :
  HI s ((HReg <$> t) ++ fr) → facts rank kn →
  RI Conn fmt_p r' (kn ++ t' ++ (fr ≫= regs_of)) →
  (Shrinks (h_registry s) r'
   ∨ (HAdmit false ∈ fr ∧ ∃ c, HOwner c Counted ∈ fr ∧ Adds Conn fmt_p c (h_registry s) r')) →
  HG s (set_registry r' s) ∧ HI (set_registry r' s) ((HReg <$> t') ++ fr).
Proof.
  intros HI0 Hkn HR Hmove.
  assert (Hadd : Shrinks (h_registry s) r' ∨ h_shuttingDown s = false
    ∧ ∀ a, a ∈ (HReg <$> t) ++ fr → of_shutdown a = false).
  { destruct Hmove as [?|[Hin _]]; [by left|right].
    assert (HAdmit false ∈ (HReg <$> t) ++ fr) as Hb by set_solver. split.
    - by apply (admit_known s _ false HI0).
    - intros a. by eapply no_shutdown. }
  assert (Hcover : ∀ a, regs_of a = [] → a ∈ (HReg <$> t') ++ fr ↔ a ∈ (HReg <$> t) ++ fr).
  { intros a Ha. rewrite !elem_of_app.
    split; (intros [(? & -> & ?)%list_elem_of_fmap|?]; [done|auto]). }
  assert (Hsame : ∀ {A} (f : htok → list A), (∀ r, f (HReg r) = []) →
    ((HReg <$> t') ++ fr) ≫= f = ((HReg <$> t) ++ fr) ≫= f).
  { intros A f Hf. rewrite !bind_app. by rewrite !other_of_HReg. }
  split.
  - intros Hs. destruct Hadd as [Hsh|[Hs' _]]; [|congruence].
    split_and!; [done|done|]. intros c. by apply Shrinks_registered.
  - assert (Hent : ∀ p e, r_entries r' !! p = Some e → is_Some (h_conns s !! e_conn e)).
    { intros p e Hp. destruct Hmove as [Hsh|[_ (c & Hc & [Hadds _])]].
      + destruct (Shrinks_entry _ _ _ _ Hsh Hp) as (e0 & He0 & <-). by eapply (hi_entries _ _ HI0).
      + destruct (Hadds p e Hp) as [->|(e0 & He0 & <-)]; [|by eapply (hi_entries _ _ HI0)].
        apply (hi_owner _ _ HI0 c Counted), elem_of_app. by right. }
    assert (Howned : ∀ c, registered r' c →
      ∃ a, HOwner c a ∈ (HReg <$> t') ++ fr ∧ may_register (set_registry r' s) c a).
    { assert (HL : ∀ c a, HOwner c a ∈ (HReg <$> t) ++ fr → HOwner c a ∈ (HReg <$> t') ++ fr)
        by (intros c a; by apply Hcover).
      destruct Hmove as [Hsh|[_ (c & Hc & Hadds)]]; [by eapply Shrinks_owned|].
      eapply Adds_owned; eauto. apply elem_of_app. by right. }
    destruct HI0. constructor; cbn; rewrite ?Hsame by done; auto.
    + exists kn. split; [done|]. by rewrite bind_app, regs_of_HReg.
    + intros c cs. rewrite Hsame by done. auto.
    + intros c. rewrite Hsame by done. auto.
    + intros c a Hc%Hcover; [|done]. by eapply hi_owner0.
    + intros c. rewrite Hsame by done. auto.
    + intros o Ho%Hcover; [|done]. destruct Hadd as [Hsh|[_ Hno]]; [|by specialize (Hno _ Ho)].
      destruct (hi_covers0 o Ho) as [Hs Hl]. split; [done|]. intros l -> c Hc.
      apply (Hl l eq_refl). by eapply Shrinks_registered.
    + intros p c Ho%Hcover; [|done]. destruct Hadd as [Hsh|[_ Hno]]; [|by specialize (Hno _ Ho)].
      destruct (hi_entry0 p c Ho) as (Hs & e & He & <-). split; [done|].
      by destruct (Shrinks_entry_back _ _ _ _ Hsh He) as (e' & ? & ?); exists e'.
    + intros Hs. destruct Hadd as [Hsh|[Hs' _]]; [|congruence].
      destruct (hi_drained0 Hs) as [[o Ho]|Hall]; [left; exists o; by apply Hcover|right].
      intros c Hc. apply Hall. by eapply Shrinks_registered.
    + intros b Hb%Hcover; [|done]. auto.
Qed.

(** ** Goroutines *)

(** At its end a goroutine holds nothing but facts about the registry (and a
    writer, its role). *)
Definition leftover (a : htok) : Prop :=
  match a with
  | HReg r => rank r = None
  | HConn _ (TWriter _) => True
  | HOwner _ Outside => True
  | HDown _ => True
  | _ => False
  end.
Definition hended t : Prop := Forall leftover t.

(** From holding [t] the program is safe up to its end. *)
Definition Ends {B} t (p : Mo B) : Prop := Safe (λ _ t', hended t') t p.

Lemma ends_perm {B} t1 t2 (p : Mo B) : t1 ≡ₚ t2 → Ends t1 p → Ends t2 p.
Proof.
  intros Ht. destruct p as [b|X f k]; cbn.
  - unfold hended. by rewrite Ht.
  - intros Hp s fr. rewrite <- Ht. apply Hp.
Qed.

Lemma ends_facts {B} (kn : list rtok) t (p : Mo B) :
  facts rank kn → Ends t p → Ends ((HReg <$> kn) ++ t) p.
Proof.
  intros Hkn Hp. eapply ends_perm; [apply Permutation_app_comm|].
  eapply safe_mono; [by apply safe_frame|]. intros b t' (t0 & -> & Ht0).
  apply Forall_app. split; [done|]. by apply Forall_fmap.
Qed.

Lemma ends_ret {B} (b : B) : Ends [] (Ret b).
Proof. constructor. Qed.

(** A registry program, then the rest. *)
Lemma ends_registry {A B} (Q : A → list rtok → Prop) (t : list rtok) x (p : proc (rstate M P) A)
    (g : A → Mo B) :
  lsafe (RI Conn fmt_p) rank Q t p →
  (always Shrinks p ∨ (HAdmit false ∈ x ∧ ∃ c, HOwner c Counted ∈ x ∧ always (Adds Conn fmt_p c) p)) →
  (∀ a (t0 : list rtok), Q a t0 → Ends ((HReg <$> t0) ++ x) (g a)) →
  Ends ((HReg <$> t) ++ x) (proc_bind g (on_registry p)).
Proof.
  intros Hp Hmove Hg. revert t Hp. induction p as [a|X f k IH]; intros t Hp.
  - destruct Hp as (kn & t0 & Hkn & Ht & HQ). cbn. specialize (Hg a t0 HQ).
    eapply ends_perm; [|apply (ends_facts kn); [done|exact Hg]].
    by rewrite Ht, fmap_app, app_assoc.
  - intros s fr HI0 y s' Hin. cbn in Hin.
    apply list_elem_of_fmap in Hin as ([y' r'] & [= -> ->] & Hin).
    rewrite <- app_assoc in HI0. destruct (hi_reg _ _ HI0) as (kn & Hkn & HR).
    rewrite bind_app, regs_of_HReg, Permutation_app_swap_app in HR.
    destruct (Hp (h_registry s) _ HR) as [_ Hk]. destruct (Hk y' r' Hin) as (t' & HR2 & Hk').
    rewrite Permutation_app_swap_app in HR2.
    destruct (HI_registry s r' kn t t' (x ++ fr) HI0 Hkn HR2) as [HG' HI'].
    + destruct Hmove as [[Hsh _]|(Hin' & c & Hc & [Hadd _])]; [left; by eapply Hsh|right].
      split; [set_solver|]. exists c. split; [set_solver|by eapply Hadd].
    + split; [done|]. exists ((HReg <$> t') ++ x). rewrite <- app_assoc. split; [done|].
      apply IH; [|done]. destruct Hmove as [[_ Hsh]|(Hin' & c & Hc & [_ Hadd])]; [left; apply Hsh|].
      right. split; [done|]. exists c. split; [done|apply Hadd].
Qed.

(** ** Connection programs *)

Lemma conn_of_HConn c (t : list tok) : (HConn c <$> t) ≫= conn_of c = t.
Proof. induction t; cbn; [done|]. rewrite Nat.eqb_refl. cbn. by f_equal. Qed.

Lemma conn_of_other c c' (t : list tok) : c' ≠ c → (HConn c <$> t) ≫= conn_of c' = [].
Proof. intros Hc. induction t; cbn; [done|]. rewrite (proj2 (Nat.eqb_neq c' c)) by done. done. Qed.

Lemma other_of_HConn {A} (f : htok → list A) c (t : list tok) :
  (∀ r, f (HConn c r) = []) → (HConn c <$> t) ≫= f = [].
Proof. intros Hf. induction t; cbn; [done|]. by rewrite Hf. Qed.

Definition put_conn (c : ptr) (cs : cstate V PF) s : state := set_conns (<[c := cs]> (h_conns s)) s.

Lemma draining_put s c cs cs' c' :
  h_conns s !! c = Some cs → (draining (c_ops cs) = true → draining (c_ops cs') = true) →
  draining_at s c' → draining_at (put_conn c cs' s) c'.
Proof.
  intros Hc Hd (cs0 & Hcs & Hdr). unfold draining_at. cbn. destruct (decide (c = c')) as [<-|].
  - exists cs'. rewrite lookup_insert_eq. split; [done|]. apply Hd. congruence.
  - exists cs0. by rewrite lookup_insert_ne.
Qed.

(** The connection moves to [cs'] and the goroutine's resources of it from [t]
    to [t']. *)
Lemma HI_conn s c cs cs' (t t' : list tok) fr :
  HI s ((HConn c <$> t) ++ fr) → h_conns s !! c = Some cs →
  Inv cs' (t' ++ (fr ≫= conn_of c)) → Grows cs cs' →
  HG s (put_conn c cs' s) ∧ HI (put_conn c cs' s) ((HConn c <$> t') ++ fr).
Proof.
  intros HI0 Hc HV HGr. split; [by intros Hs|].
  assert (Hsame : ∀ {A} (f : htok → list A), (∀ r, f (HConn c r) = []) →
    ((HConn c <$> t') ++ fr) ≫= f = ((HConn c <$> t) ++ fr) ≫= f).
  { intros A f Hf. rewrite !bind_app. by rewrite !other_of_HConn. }
  assert (Hcover : ∀ a, (∀ c', conn_of c' a = []) →
    a ∈ (HConn c <$> t') ++ fr ↔ a ∈ (HConn c <$> t) ++ fr).
  { intros a Ha. rewrite !elem_of_app.
    split; (intros [(t0 & -> & ?)%list_elem_of_fmap|?]; [|auto]);
      specialize (Ha c); cbn in Ha; by rewrite Nat.eqb_refl in Ha. }
  assert (Hdr : ∀ c', draining_at s c' → draining_at (put_conn c cs' s) c').
  { intros c'. eapply draining_put; [done|]. intros Hd. by destruct (grows_draining _ _ HGr Hd). }
  destruct HI0. constructor; cbn; rewrite ?Hsame by done; auto.
  - intros c' cs0. destruct (decide (c = c')) as [<-|Hne].
    + rewrite lookup_insert_eq. intros [= <-]. by rewrite bind_app, conn_of_HConn.
    + rewrite lookup_insert_ne by done. intros Hc'. specialize (hi_conns0 c' cs0 Hc').
      rewrite !bind_app, conn_of_other in * by done. done.
  - intros c' cs0. destruct (decide (c = c')) as [<-|Hne].
    + rewrite lookup_insert_eq. intros _. by eapply hi_dom0.
    + rewrite lookup_insert_ne by done. apply hi_dom0.
  - intros c' Hc' Hn. apply lookup_insert_None in Hn as [Hn Hne].
    specialize (hi_unborn0 c' Hc' Hn). rewrite !bind_app, conn_of_other in * by done. done.
  - intros p e Hp%hi_entries0. by apply lookup_insert_is_Some'; right.
  - intros c' a Hc'%Hcover; [|done]. apply lookup_insert_is_Some'; right. by eapply hi_owner0.
  - intros c'. rewrite Hsame by done. auto.
  - intros c' Hc'. destruct (hi_registered0 c' Hc') as (a & Ha & Hmay). exists a.
    split; [by apply Hcover|]. by destruct a.
  - intros o Ho%Hcover; [|done]. destruct (hi_covers0 o Ho) as [Hs Hl]. split; [done|].
    intros l -> c' Hc'. destruct (Hl l eq_refl c' Hc'); auto.
  - intros p c' Ho%Hcover; [|done]. auto.
  - intros Hs. destruct (hi_drained0 Hs) as [[o Ho]|?]; [left; exists o; by apply Hcover|right]. auto.
  - intros b Hb%Hcover; [|done]. auto.
Qed.

Lemma ends_conn {A B} c (Q : A → list tok → Prop) (t : list tok) x (p : proc (cstate V PF) A)
    (g : A → Mo B) :
  safe Inv Grows Q t p →
  (∀ a (t0 : list tok), Q a t0 → Ends ((HConn c <$> t0) ++ x) (g a)) →
  Ends ((HConn c <$> t) ++ x) (proc_bind g (on_conn c p)).
Proof.
  intros Hp Hg. revert t Hp. induction p as [a|X f k IH]; intros t Hp; [by apply Hg|].
  intros s fr HI0 y s' Hin. cbn in Hin. destruct (h_conns s !! c) as [cs|] eqn:Hc; [|by apply not_elem_of_nil in Hin].
  apply list_elem_of_fmap in Hin as ([y' cs'] & [= -> ->] & Hin). rewrite <- app_assoc in HI0.
  pose proof (hi_conns _ _ HI0 c cs Hc) as HV. rewrite bind_app, conn_of_HConn in HV.
  destruct (Hp cs _ HV y' cs' Hin) as (HGr & t' & HV' & Hk').
  destruct (HI_conn s c cs cs' t t' (x ++ fr) HI0 Hc HV' HGr) as [HG' HI'].
  split; [done|]. exists ((HConn c <$> t') ++ x). rewrite <- app_assoc. split; [done|]. by apply IH.
Qed.
End inv.
