(* ===== verification/HandlerSafety.v ===== *)
(** * The handler's methods keep its invariant *)

From Stdlib Require Import Ascii String.
From S2P Require Import Prelude GoStd GoText Errors Protocol Framing Proc Locks Connection.
From S2P Require Import ConnectionInv ConnectionSafety ConnectionWriter.
From S2P Require Import Registry RegistryProps RegistryLocks RegistryCalls RegistryMoves.
From S2P Require Import Batch Dispatcher Config Handler HandlerInv.

Local Open Scope Z_scope.
Local Open Scope go_scope.

Section safety.
Context {M : Type → Type} `{!ShardMap M} `{!ShardMapLaws M} {P : Type} `{!SlicePool P}.
Context {V PF : Type} `{!ExternalCodecs V} `{!SlicePool PF} `{!SlicePoolLaws PF} {F R : Type}.
Context (Conn : ptr → connInfo) (fmt_p : ptr → string) (h : handlerSettings R V).
Context (W : gset ptr).

Local Abbreviation state := (hstate M P V PF F).
Local Abbreviation Mo := (proc (hstate M P V PF F)).
Local Abbreviation HI := (HI (F := F) Conn fmt_p W).
Local Abbreviation Ends := (Ends (F := F) Conn fmt_p W).
Local Abbreviation may_register := (may_register Conn fmt_p).

Implicit Types s : state.
Implicit Types L t fr : list htok.

(** ** Actions outside the invariant *)

(** Equal in what the invariant reads. *)
Record quiet s s' : Prop := {
  q_registry : h_registry s' = h_registry s;
  q_conns : h_conns s' = h_conns s;
  q_admit : h_admissionMu s' = h_admissionMu s;
  q_active : h_active s' = h_active s;
  q_down : h_shuttingDown s' = h_shuttingDown s;
  q_stop : h_heartbeatStop s' = h_heartbeatStop s ∧ h_heartbeatStopOnce s' = h_heartbeatStopOnce s;
  q_panicked : h_panicked s' = h_panicked s;
  q_once : h_shutdownOnce s' = h_shutdownOnce s;
}.

Lemma HI_quiet s s' L : quiet s s' → HI s L → HI s' L.
Proof.
  intros [E1 E2 E3 E4 E5 [E6 E7] E8 E9] [].
  constructor; unfold registered_at, draining_at, may_register in *;
    rewrite ?E1, ?E2, ?E3, ?E4, ?E5, ?E6, ?E7, ?E8, ?E9; auto.
Qed.

Lemma HG_quiet s s' : quiet s s' → HG s s'.
Proof.
  intros [E1 E2 E3 E4 E5 _ _ _] Hs. unfold registered_at. rewrite E1, E4, E5. split_and!; [done|lia|done].
Qed.

Lemma ends_quiet {B X} t (f : state → list (X * state)) (g : X → Mo B) :
  (∀ s x s', (x, s') ∈ f s → quiet s s') → (∀ x, Ends t (g x)) → Ends t (Act f g).
Proof.
  intros Hf Hg s fr HI0 x s' Hin. specialize (Hf s x s' Hin).
  split; [by apply HG_quiet|]. exists t. split; [by eapply HI_quiet|apply Hg].
Qed.

Lemma ends_atomically {B X} t (f : state → X * state) (g : X → Mo B) :
  (∀ s, quiet s (f s).2) → (∀ x, Ends t (g x)) → Ends t (proc_bind g (atomically f)).
Proof.
  intros Hf Hg. apply ends_quiet; [|done]. intros s x s' Hin%list_elem_of_singleton.
  specialize (Hf s). by rewrite <- Hin in Hf.
Qed.

Lemma ends_reads {B X} t (f : state → X) (g : X → Mo B) :
  (∀ x, Ends t (g x)) → Ends t (proc_bind g (reads f)).
Proof. intros Hg. by apply (ends_atomically t (λ s, (f s, s))). Qed.

Lemma ends_modify {B} t (f : state → state) (g : unit → Mo B) :
  (∀ s, quiet s (f s)) → Ends t (g tt) → Ends t (proc_bind g (modify f)).
Proof. intros Hf Hg. apply (ends_atomically t (λ s, (tt, f s))); [done|]. by intros []. Qed.

Lemma ends_online {B} t n (g : unit → Mo B) : Ends t (g tt) → Ends t (proc_bind g (add_online n)).
Proof. by apply ends_modify. Qed.

Lemma ends_wake {B} t (g : unit → Mo B) :
  Ends t (g tt) → Ends t (proc_bind g (wakeHeartbeatLoop h)).
Proof. intros Hg. unfold wakeHeartbeatLoop. case_match; [done|]. by apply ends_modify. Qed.

(** ** The admission mutex *)

Lemma ends_lock {B} t (g : unit → Mo B) :
  (∀ b, Ends (HAdmit b :: t) (g tt)) → Ends t (proc_bind g lock_admissionMu).
Proof.
  intros Hg s fr HI0 [] s' Hin. destruct (h_admissionMu s) eqn:Hmu; [set_solver|].
  apply list_elem_of_singleton in Hin as [= ->]. split; [by intros ?|].
  exists (HAdmit (h_shuttingDown s) :: t). split; [|apply Hg]. destruct HI0.
  rewrite Hmu in *. constructor; auto.
  - intros c a [?|?]%elem_of_cons; [done|by eapply hi_owner].
  - intros c Hc. destruct (hi_registered c Hc) as (a & ? & ?). exists a. split; [by right|done].
  - cbn. by rewrite hi_admit.
  - intros o [?|?]%elem_of_cons; [done|auto].
  - intros p c [?|?]%elem_of_cons; [done|auto].
  - intros Hs. destruct (hi_drained Hs) as [[o ?]|?]; [left; exists o; by right|by right].
  - intros q [?|?]%elem_of_cons; [done|auto].
Qed.

Lemma ends_down {B} t b (g : bool → Mo B) :
  Ends (HAdmit b :: t) (g b) → Ends (HAdmit b :: t) (proc_bind g (reads h_shuttingDown)).
Proof.
  intros Hg s fr HI0 d s' [= -> ->]%list_elem_of_singleton. split; [by intros ?|].
  exists (HAdmit b :: t). split; [done|]. destruct (admit_known _ _ _ s _ b HI0) as [_ Hb]; [left|].
  by rewrite Hb.
Qed.

(** Releasing it; shutdown has nothing left to drain, and forgets the entries it read. *)
Definition entry_tokens (es : list (ptr * ptr)) : list htok := (λ '(p, c), HEntry p c) <$> es.

Lemma entry_tokens_bind {A} (f : htok → list A) es :
  (∀ p c, f (HEntry p c) = []) → entry_tokens es ≫= f = [].
Proof. intros Hf. induction es as [|[p c] es IH]; [done|]. cbn. by rewrite Hf. Qed.

Lemma HI_unlock s a es t :
  HI s (a :: entry_tokens es ++ t) → (∃ b, a = HAdmit b) ∨ a = HDraining (Some []) →
  HI (set_admissionMu false s) t.
Proof.
  intros HI0 Ha. assert (Hadm : ∃ b, admit_of a = [b]) by (destruct Ha as [[b ->]| ->]; eauto).
  destruct Hadm as [b Hb]. destruct (admit_unique _ _ _ s a b _ HI0 Hb) as (Hone & Hmu & Hdown).
  rewrite bind_app, entry_tokens_bind in Hone by done. cbn in Hone.
  assert (Hsub : ∀ o, o ∈ t → o ∈ a :: entry_tokens es ++ t) by set_solver.
  assert (Hbind : ∀ {A} (f : htok → list A), f a = [] → (∀ p c, f (HEntry p c) = []) →
    (a :: entry_tokens es ++ t) ≫= f = t ≫= f).
  { intros A f Hf Hf'. rewrite bind_cons, bind_app, Hf, entry_tokens_bind by done. done. }
  assert (Hno : ∀ o, HDraining o ∉ t).
  { intros o Ho. assert (H : true ∈ t ≫= admit_of).
    { apply list_elem_of_bind. exists (HDraining o). split; [left|done]. }
    rewrite Hone in H. by apply not_elem_of_nil in H. }
  assert (Hnil : regs_of a = [] ∧ (∀ c, conn_of c a = []) ∧ active_of a = [] ∧ (∀ c, owner_of c a = [])
    ∧ ∀ c x, a ≠ HOwner c x) by (destruct Ha as [[? ->]| ->]; done).
  destruct Hnil as (Hr & Hc & Hac & Ho & Hneq). destruct HI0. constructor; auto.
  - by rewrite Hbind in hi_reg.
  - intros c cs Hcs. specialize (hi_conns c cs Hcs). by rewrite Hbind in hi_conns.
  - intros c HcW Hn. specialize (hi_unborn c HcW Hn). by rewrite Hbind in hi_unborn.
  - intros c x Hx. apply (hi_owner c x). auto.
  - intros c. specialize (hi_owners c). by rewrite Hbind in hi_owners.
  - intros c Hreg. destruct (hi_registered c Hreg) as (x & Hx & ?). exists x. split; [|done].
    apply elem_of_cons in Hx as [Hx|[([p q] & ? & _)%list_elem_of_fmap|?]%elem_of_app]; [|done|done].
    by destruct (Hneq c x).
  - cbn. by rewrite Hone.
  - cbn. by rewrite Hbind in hi_active.
  - intros Hs. right. destruct (hi_drained Hs) as [[o Hin]|?]; [|done].
    apply elem_of_cons in Hin as [<-|[([p q] & ? & _)%list_elem_of_fmap|Hin]%elem_of_app]; [|done|by destruct (Hno o)].
    destruct Ha as [[? ?]|[= ->]]; [done|]. intros c Hreg.
    destruct (hi_covers (Some [])) as [_ Hl]; [left|].
    destruct (Hl [] eq_refl c Hreg) as [?|?%not_elem_of_nil]; done.
Qed.

Lemma ends_unlock {B} t b (g : unit → Mo B) :
  Ends t (g tt) → Ends (HAdmit b :: t) (proc_bind g unlock_admissionMu).
Proof.
  intros Hg s fr HI0 [] s' [= ->]%list_elem_of_singleton. split; [by intros ?|]. exists t.
  split; [|done]. apply (HI_unlock s (HAdmit b) [] (t ++ fr) HI0). by left; exists b.
Qed.

Lemma ends_unlock_drained {B} es t (g : unit → Mo B) :
  Ends t (g tt) →
  Ends (HDraining (Some []) :: entry_tokens es ++ t) (proc_bind g unlock_admissionMu).
Proof.
  intros Hg s fr HI0 [] s' [= ->]%list_elem_of_singleton. split; [by intros ?|]. exists t.
  split; [|done]. rewrite <- app_comm_cons, <- app_assoc in HI0.
  apply (HI_unlock s _ es (t ++ fr) HI0). by right.
Qed.

(** ** The wait group *)

(** The owner of [c] goes from one state to another, and the wait group with it. *)
Lemma HI_owner s c a a' n t :
  HI s (HOwner c a :: t) →
  zlen (active_of (HOwner c a')) = n + zlen (active_of (HOwner c a)) →
  (registered_at s c → may_register s c a → may_register s c a') →
  (n = 0 ∨ n = -1 ∨ h_shuttingDown s = false) →
  HI (set_active (h_active s + n) s) (HOwner c a' :: t).
Proof.
  intros HI0 Hn Hmay Hdown. pose proof (zlen_nonneg (active_of (HOwner c a'))).
  assert (Hact : h_active s + n = zlen (active_of (HOwner c a')) + zlen (t ≫= active_of)).
  { rewrite (hi_active _ _ _ _ _ HI0), bind_cons, zlen_app. lia. }
  assert (Hge : 0 ≤ h_active s + n) by (pose proof (zlen_nonneg (t ≫= active_of)); lia).
  assert (Hother : ∀ o : htok, (∀ c' a, o ≠ HOwner c' a) → o ∈ HOwner c a' :: t → o ∈ HOwner c a :: t).
  { intros o Ho [->|?]%elem_of_cons; [by destruct (Ho c a')|by right]. }
  assert (Hzero : h_shuttingDown s = true → h_active s = 0 → h_active s + n = 0).
  { intros Hs Hz. destruct Hdown as [->|[->|?]]; [lia|lia|congruence]. }
  destruct HI0. constructor; auto.
  - intros c' a0 [[= -> ->]|?]%elem_of_cons; [apply (hi_owner c a); left|].
    apply (hi_owner c' a0). by right.
  - intros c' . specialize (hi_owners c'). cbn in hi_owners |- *. by destruct (Nat.eqb c' c).
  - intros c' Hc. destruct (hi_registered c' Hc) as (a0 & [[= -> ->]|?]%elem_of_cons & ?).
    + exists a'. split; [left|auto].
    + exists a0. split; [by right|done].
  - by rewrite bind_cons, zlen_app.
  - cbn. rewrite hi_panicked. apply Z.ltb_ge. lia.
  - intros Hs. destruct (hi_drained Hs) as [[o [?|?]%elem_of_cons]|?]; [done| |by right].
    left. exists o. by right.
  - intros b Hb. destruct (hi_down b) as [Hs Hz]; [by apply Hother|]. cbn. auto.
  - cbn. intros Hd. destruct (hi_done Hd). auto.
Qed.

Lemma HI_owner_same s c a a' t :
  HI s (HOwner c a :: t) → zlen (active_of (HOwner c a')) = zlen (active_of (HOwner c a)) →
  (registered_at s c → may_register s c a → may_register s c a') → HI s (HOwner c a' :: t).
Proof.
  intros HI0 Hn Hmay. pose proof (HI_owner s c a a' 0 t HI0 ltac:(lia) Hmay ltac:(by left)) as H.
  eapply HI_quiet; [|exact H]. constructor; try done; cbn.
  - lia.
  - rewrite (Z.add_0_r (h_active s)). pose proof (hi_active _ _ _ _ _ HI0) as Ha.
    rewrite (proj2 (Z.ltb_ge _ _)); [by rewrite orb_false_r|]. rewrite Ha. apply zlen_nonneg.
Qed.

Lemma ends_add_active {B} c t (g : unit → Mo B) :
  Ends (HOwner c Counted :: HAdmit false :: t) (g tt) →
  Ends (HOwner c Outside :: HAdmit false :: t) (proc_bind g (add_active 1)).
Proof.
  intros Hg s fr HI0 [] s' [= ->]%list_elem_of_singleton.
  destruct (admit_known _ _ _ s _ false HI0) as [_ Hdown]; [right; left|].
  split; [intros ?; congruence|]. exists (HOwner c Counted :: HAdmit false :: t). split; [|done].
  apply (HI_owner s c Outside Counted 1 (HAdmit false :: t ++ fr) HI0); [done|done|auto].
Qed.

Lemma ends_finish {B} c t (g : unit → Mo B) :
  Ends (HOwner c Outside :: t) (g tt) → Ends (HOwner c Removed :: t) (proc_bind g finishConnection).
Proof.
  intros Hg s fr HI0 [] s' [= ->]%list_elem_of_singleton. split.
  - intros ?. cbn. split_and!; [done|lia|done].
  - exists (HOwner c Outside :: t). split; [|done].
    apply (HI_owner s c Removed Outside (-1) (t ++ fr) HI0); [done|done|auto].
Qed.

(** ** The snapshot of shutdown *)

Lemma ends_set_down {B} t b (g : unit → Mo B) :
  Ends (HDraining None :: HDown false :: t) (g tt) →
  Ends (HAdmit b :: t) (proc_bind g (modify (set_shuttingDown true))).
Proof.
  intros Hg s fr HI0 [] s' [= ->]%list_elem_of_singleton. split; [by intros ?|].
  exists (HDraining None :: HDown false :: t). split; [|done].
  destruct (admit_unique _ _ _ s (HAdmit b) b (t ++ fr) HI0 eq_refl) as (Hone & Hmu & _).
  assert (Hother : ∀ o, o ∈ t ++ fr → o ∈ (HAdmit b :: t) ++ fr) by (intros; by right).
  destruct HI0. constructor; auto.
  - intros c a [?|[?|Ho]%elem_of_cons]%elem_of_cons; [done..|]. apply (hi_owner c a). auto.
  - intros c Hc. destruct (hi_registered c Hc) as (a & [?|?]%elem_of_cons & ?); [done|].
    exists a. split; [by do 2 right|done].
  - cbn. rewrite Hmu. by rewrite Hone.
  - intros o [[= ->]|[?|Ho]%elem_of_cons]%elem_of_cons; [by split|done|].
    split; [done|]. apply hi_covers. auto.
  - intros p c [?|[?|Ho]%elem_of_cons]%elem_of_cons; [done..|]. split; [done|]. apply hi_entry. auto.
  - intros _. left. exists None. left.
  - intros q [?|[[= ->]|Ho]%elem_of_cons]%elem_of_cons; [done| |].
    + done.
    + split; [done|]. apply hi_down. auto.
  - cbn. intros Hd. destruct (hi_done Hd). done.
Qed.

(** Knowing the connections behind a range, entry by entry. *)
Definition entries_of s (range : list (string * ptr)) : list (ptr * ptr) :=
  (λ kp, (kp.2, e_conn (entry_at (h_registry s) kp.2))) <$> range.

Definition nonnil (l : list ptr) : list ptr := filter (λ c, is_nil c = false) l.

Lemma nonnil_cons c l : nonnil (c :: l) = if is_nil c then nonnil l else c :: nonnil l.
Proof. unfold nonnil. rewrite filter_cons. destruct (is_nil c); by case_decide. Qed.

Lemma registered_nonnil s L c : HI s L → registered_at s c → c ≠ nil.
Proof.
  intros HI0 (k & p & e & Hk & Hp & <-). destruct (hi_reg _ _ _ _ _ HI0) as (kn & _ & HR).
  destruct (ri_conns _ _ _ _ HR k p Hk) as (e' & Hp' & Hc & _). congruence.
Qed.

(** Shutdown learns which connections are registered. *)
Lemma HI_covers s l (es : list (ptr * ptr)) t :
  HI s (HDraining None :: t) →
  (∀ c, registered_at s c → c ∈ l) →
  (∀ p c, (p, c) ∈ es → ∃ e, r_entries (h_registry s) !! p = Some e ∧ e_conn e = c) →
  HI s (HDraining (Some l) :: entry_tokens es ++ t).
Proof.
  intros HI0 Hl Hes. destruct (hi_covers _ _ _ _ _ HI0 None) as [Hs _]; [left|].
  assert (Hsame : ∀ {A} (f : htok → list A), f (HDraining (Some l)) = f (HDraining None) →
    (∀ p c, f (HEntry p c) = []) → (HDraining (Some l) :: entry_tokens es ++ t) ≫= f = (HDraining None :: t) ≫= f).
  { intros A f Hf Hf'. rewrite !bind_cons, bind_app, Hf. by rewrite entry_tokens_bind. }
  destruct HI0. constructor; rewrite ?Hsame by done; auto.
  - intros c cs. rewrite Hsame by done. auto.
  - intros c. rewrite Hsame by done. auto.
  - intros c a [?|[([p c'] & ? & _)%list_elem_of_fmap|Ho]%elem_of_app]%elem_of_cons; [done|done|].
    apply (hi_owner c a). by right.
  - intros c. rewrite Hsame by done. auto.
  - intros c Hc. destruct (hi_registered c Hc) as (a & [?|?]%elem_of_cons & ?); [done|].
    exists a. split; [|done]. right. apply elem_of_app. by right.
  - intros o [[= ->]|[([p c] & ? & _)%list_elem_of_fmap|Ho]%elem_of_app]%elem_of_cons; [|done|].
    + split; [done|]. intros l' [= <-] c Hc. right. auto.
    + apply hi_covers. by right.
  - intros p c [?|[([p' c'] & [= -> ->] & Hin)%list_elem_of_fmap|Ho]%elem_of_app]%elem_of_cons; [done| |].
    + split; [done|]. by apply Hes.
    + apply hi_entry. by right.
  - intros _. left. exists (Some l). left.
  - intros q [?|[([p c'] & ? & _)%list_elem_of_fmap|Ho]%elem_of_app]%elem_of_cons; [done|done|].
    apply hi_down. by right.
Qed.

(** The loop that reads the connections. *)
Lemma ends_read_conns {B} (es : list (ptr * ptr)) (range : list (string * ptr)) acc t
    (g : list ptr → Mo B) :
  Forall2 (λ kp pc, kp.2 = pc.1 ∧ pc.1 ≠ nil ∧ HEntry pc.1 pc.2 ∈ t) range es →
  Ends t (g (acc ++ nonnil es.*2)) →
  Ends t (proc_bind g (on_registry (fold_each range acc (λ connections '(_, entry),
    conn <- entry_conn entry ;;;
    mret (if is_nil conn then connections else connections ++ [conn]))))).
Proof.
  intros Hes. revert acc. induction Hes as [|[k p] [p' c] range es (Hp & Hnil & Hin) Hes IH]; intros acc Hg.
  - cbn in Hg |- *. by rewrite app_nil_r in Hg.
  - cbn in Hp, Hnil, Hin. subst p'. cbn [fold_each].
    destruct p as [|p]; [done|]. cbn [entry_conn is_nil Nat.eqb nil].
    intros s fr HI0 x s' [= -> ->]%list_elem_of_singleton. split; [by intros ?|].
    exists t. split; [by destruct s|].
    assert (Hc : e_conn (entry_at (h_registry s) (S p)) = c).
    { destruct (hi_entry _ _ _ _ _ HI0 (S p) c) as (_ & e & He & <-); [set_solver|].
      unfold entry_at. by rewrite He. }
    cbn [proc_bind mret proc_mret]. rewrite Hc. apply IH.
    change (((S p, c) :: es).*2) with (c :: es.*2) in Hg. rewrite nonnil_cons in Hg.
    destruct (is_nil c); [done|]. by rewrite <- app_assoc.
Qed.

Lemma ends_allConnections {B} t (g : list ptr → Mo B) :
  (∀ l (es : list (ptr * ptr)),
     Ends (HDraining (Some l) :: entry_tokens es ++ t) (g l)) →
  Ends (HDraining None :: t) (proc_bind g (on_registry allConnections)).
Proof.
  intros Hg. unfold allConnections.
  intros s fr HI0 n s1 [= -> ->]%list_elem_of_singleton. split; [by intros ?|].
  assert (Hs : set_registry (h_registry s) s = s) by (by destruct s). rewrite Hs.
  cbn [proc_bind mret proc_mret]. rewrite sm_Len_model.
  destruct (Z.eqb_spec (Z.of_nat (size (sm_model (r_connections (h_registry s))))) 0) as [Hz|Hz].
  { exists (HDraining (Some []) :: ((λ '(p, c), HEntry p c) <$> []) ++ t). split; [|apply Hg].
    apply (HI_covers s [] [] (t ++ fr) HI0); [|set_solver]. intros c (k & p & e & Hk & _).
    assert (He : sm_model (r_connections (h_registry s)) = ∅) by (apply map_size_empty_inv; lia).
    by rewrite He, lookup_empty in Hk. }
  exists (HDraining None :: t). split; [done|]. clear s fr HI0 Hs Hz.
  intros s fr HI0 range s2 [= -> ->]%list_elem_of_singleton. split; [by intros ?|].
  assert (Hs : set_registry (h_registry s) s = s) by (by destruct s). rewrite Hs.
  set (range := sm_Range _). set (es := entries_of s range).
  assert (Hrange : ∀ k p, (k, p) ∈ range ↔ sm_model (r_connections (h_registry s)) !! k = Some p).
  { intros k p. unfold range. by rewrite sm_Range_model, elem_of_map_to_list. }
  assert (Hentry : ∀ k p, (k, p) ∈ range → p ≠ nil ∧
    ∃ e, r_entries (h_registry s) !! p = Some e ∧ e_conn e = e_conn (entry_at (h_registry s) p)).
  { intros k p Hkp%Hrange. destruct (hi_reg _ _ _ _ _ HI0) as (kn & _ & HR).
    destruct (ri_conns _ _ _ _ HR k p Hkp) as (e & He & _).
    split; [intros ->; apply (ri_fresh_entries _ _ _ _ HR) in He; unfold nil in *; lia|].
    exists e. unfold entry_at. by rewrite He. }
  exists (HDraining (Some (nonnil es.*2)) :: entry_tokens es ++ t). split.
  - rewrite <- app_comm_cons, <- app_assoc.
    apply (HI_covers s (nonnil es.*2) es (t ++ fr) HI0).
    + intros c Hc. pose proof (registered_nonnil s _ c HI0 Hc) as Hnil.
      destruct Hc as (k & p & e & Hk & He & <-). apply list_elem_of_filter. split.
      * by apply Nat.eqb_neq.
      * apply list_elem_of_fmap. exists (p, e_conn (entry_at (h_registry s) p)).
        split; [unfold entry_at; by rewrite He|]. apply list_elem_of_fmap. exists (k, p).
        split; [done|]. by apply Hrange.
    + intros p c ([k p'] & [= -> ->] & Hin)%list_elem_of_fmap. by apply (Hentry k p').
  - cbn [proc_bind]. eapply (ends_read_conns es range []); [|apply Hg].
    unfold es, entries_of. apply Forall2_fmap_r, Forall_Forall2_diag, Forall_forall.
    intros [k p] Hin. cbn. split; [done|]. split; [by apply (Hentry k p)|].
    right. apply elem_of_app. left. apply list_elem_of_fmap.
    exists (p, e_conn (entry_at (h_registry s) p)). split; [done|].
    apply list_elem_of_fmap. exists (k, p). done.
Qed.

(** ** Draining the snapshot *)

Lemma HI_drained_one s c l t :
  HI s (HDraining (Some (c :: l)) :: t) → draining_at s c → HI s (HDraining (Some l) :: t).
Proof.
  intros [] Hc. destruct (hi_covers (Some (c :: l))) as [Hs Hl]; [left|]. constructor; auto.
  - intros c' a [?|Ho]%elem_of_cons; [done|apply (hi_owner c' a); by right].
  - intros c' Hc'. destruct (hi_registered c' Hc') as (a & [?|?]%elem_of_cons & ?); [done|].
    exists a. split; [by right|done].
  - intros o [[= ->]|Ho]%elem_of_cons; [|apply hi_covers; by right]. split; [done|].
    intros l' [= <-] c' Hc'. destruct (Hl _ eq_refl c' Hc') as [?|[->|?]%elem_of_cons]; auto.
  - intros p c' [?|Ho]%elem_of_cons; [done|apply hi_entry; by right].
  - intros _. left. exists (Some l). left.
  - intros q [?|Ho]%elem_of_cons; [done|apply hi_down; by right].
Qed.

Lemma ends_drain {B} snapshot acc t (g : list drainingConnection → Mo B) :
  (∀ connections, Ends (HDraining (Some []) :: t) (g connections)) →
  Ends (HDraining (Some snapshot) :: t)
    (proc_bind g (fold_each snapshot acc (λ connections conn,
       done <- on_conn conn (beginDrain theConn) ;;;
       mret (connections ++ [(conn, done)])))).
Proof.
  intros Hg. revert acc. induction snapshot as [|c l IH]; intros acc; [apply Hg|].
  intros s fr HI0 x s' Hin. cbn in Hin. destruct (h_conns s !! c) as [cs|] eqn:Hc; [|set_solver].
  cbn in Hin. apply list_elem_of_singleton in Hin as [= -> ->].
  set (cs' := set_ops _ _).
  assert (HV : Inv cs ([] ++ (t ++ fr) ≫= conn_of c)) by apply (hi_conns _ _ _ _ _ HI0 c cs Hc).
  pose proof (beginDrain_safe (V := V) (P := PF) theConn cs _ HV _ cs' ltac:(left)) as (HGr & t' & HV' & Ht').
  cbn in Ht'. subst t'.
  destruct (HI_conn (M := M) (P := P) Conn fmt_p W s c cs cs' [] []
    ((HDraining (Some (c :: l)) :: t) ++ fr) HI0 Hc HV' HGr) as [HG' HI'].
  split; [exact HG'|]. exists (HDraining (Some l) :: t). split; [|apply IH].
  apply HI_drained_one with c; [exact HI'|]. exists cs'. cbn. by rewrite lookup_insert_eq.
Qed.
End safety.
