(* ===== verification/Serve.v ===== *)
(** * Serving one websocket request (server.go, internal/bpool)

    [ServeHTTP] from the HTTP request to the last callback, with the loop that
    reads frames.  User code (the hub factory, the hub, its methods) is a program on the handler's
    store; what the network does with a request is an [exchange]. *)

From Stdlib Require Import Ascii String.
From S2P Require Import Prelude GoStd GoText Errors Protocol Framing Proc Connection.
From S2P Require Import Registry Batch Dispatcher Config Handler.

Local Open Scope Z_scope.
Local Open Scope go_scope.

(** ** What comes from outside *)

(** A websocket message a client sends. *)
Record inbound := {
  in_type : Z;
  in_data : list byte;
}.

Definition MessageText : Z := 1.
Definition MessageBinary : Z := 2.

Definition StatusProtocolError : Z := 1002.
Definition StatusUnsupportedData : Z := 1003.

(** One HTTP request with what happens on its connection: the path of its URL
    (none when the URL is nil), the upgrade ([websocket.Accept]), the random id, the
    address of the [Connection], the buffers it starts with, and the messages
    its client sends before the socket fails or closes. *)
Record exchange {R PF : Type} := {
  x_request : R;
  x_path : option string;
  x_accept : AcceptOptions → option error;
  x_id : result error string;
  x_conn : ptr;
  x_pool : PF;
  x_inbox : list inbound;
}.
Arguments exchange R PF : clear implicits.

(** The value behind [Hub] (with its type) and the two interfaces it may also have. *)
Record hub {S V : Type} := {
  hub_type : goType;
  OnConnected : ptr → proc S (option error);
  OnDisconnected : ptr → option error → proc S unit;
  OnMessage : option (ptr → Message V → proc S (option error));
  OnPing : option (ptr → proc S unit);
}.
Arguments hub S V : clear implicits.

(** ** The pool of read buffers (internal/bpool) *)

Section bpool.
Context {S : Type} (get : S → list (list byte)) (put : list (list byte) → S → S).

(** A [sync.Pool] gives any buffer it holds, or a new one. *)
Definition bpool_Get : proc S (list byte) :=
  atomic (λ s,
    ([], s) :: imap (λ i b, (b, put (delete i (get s)) s)) (get s)).

(** [b.Reset()] comes first. *)
Definition bpool_Put : proc S unit := modify (λ s, put ([] :: get s) s).
End bpool.

Section serve.
Context {M : Type → Type} `{!ShardMap M} {P : Type} `{!SlicePool P}.
Context {V PF : Type} `{!ExternalCodecs V} `{!SlicePool PF} {F R : Type}.
Context (Conn : ptr → connInfo) (fmt_p : ptr → string) (h : handlerSettings R V).

Local Abbreviation state := (hstate M P V PF F).
Local Abbreviation Mo := (proc (hstate M P V PF F)).

(** Reflection on hubs (package reflect), and calls of their methods. *)
Context (Methods : goType → list (hubMethod F)) (reflect_New : goType → V).
Context (Func_Call : ptr → F → option V → Mo (reflectValue V * reflectValue error)).
(** The body of the first message as a value, and [conn.remoteAddr] as text. *)
Context (any_of : connectedValue → V) (remoteAddr : ptr → string).
(** [b.ReadFrom] on a message, under the limit given to [SetReadLimit], if any. *)
Context (ReadFrom : option Z → inbound → list byte * option error).
(** The values the factory returns, and their methods. *)
Context {H : Type} (hub_of : H → hub state V) (factory : ptr → Mo (option H * option error)).

(** ** The connection object *)

(** A fresh address, non-nil, and the values of the exported fields. *)
Definition new_connection (conn : ptr) (id userID : string) (c : cstate V PF) : Mo unit :=
  atomic (λ s,
    if is_nil conn || bool_decide (is_Some (h_conns s !! conn))
       || negb (bool_decide (ID (Conn conn) = id ∧ UserID (Conn conn) = userID))
    then []
    else [(tt, set_conns (<[conn := c]> (h_conns s)) s)]).

Definition runHandlerOperation (conn : ptr) (fn : Mo (option error)) : Mo (option error) :=
  ok <- on_conn conn (beginHandlerOperation theConn) ;;;
  if negb ok then mret (Some (ErrHandlerShuttingDown : error))
  else
    err <- fn ;;;
    on_conn conn (endHandlerOperation theConn) ;;;
    mret err.

Definition sendConnected (conn : ptr) : Mo (option error) :=
  let payload := newConnectedPayload (Conn conn) (remoteAddr conn) (cfg_PingInterval (hs_cfg h)) in
  let body := connectedBody payload (pc_serialization (Some (hs_protocol h))) in
  on_conn conn (Send theConn CtxConn ConnectedMethod (Some (any_of body))).

(** ** Frames *)

Definition dispatchMessage (conn : ptr) (dispatcher : option (hubDispatcher F)) (msg : Message V)
    : Mo (option error) :=
  if msg_Kind msg =? FrameKindMessage then
    r <- dispatch reflect_New (Func_Call conn) dispatcher msg ;;;
    match r with
    | Ok _ => mret None
    | Err (Returned err) => mret (Some err)
    | Err Panicked => go_panic
    end
  else if msg_Kind msg =? FrameKindInvoke then
    r <- dispatch reflect_New (Func_Call conn) dispatcher msg ;;;
    match r with
    | Ok res => on_conn conn (Complete theConn CtxConn (msg_InvocationID msg) res)
    | Err (Returned err) => on_conn conn (CompleteError theConn CtxConn (msg_InvocationID msg) (Some err))
    | Err Panicked => go_panic
    end
  else mret (Some (Errorf "" ErrInvalidFrameKind (": " ++ FrameKind_String (msg_Kind msg)))).

Definition handleProtocolPing (conn : ptr) (hub : hub state V) : Mo (option error) :=
  err <- on_conn conn (Pong theConn CtxConn) ;;;
  match err with
  | Some err => mret (Some err)
  | None =>
      match OnPing hub with
      | Some onPing =>
          _ <- runHandlerOperation conn (onPing conn ;;; mret None) ;;;
          mret None
      | None => mret None
      end
  end.

(** A decoded frame. *)
Definition handle_message (conn : ptr) (hub : hub state V) (dispatcher : option (hubDispatcher F))
    (msg : Message V) : Mo (option error) :=
  on_registry (touch Conn fmt_p conn) ;;;
  if msg_Kind msg =? FrameKindPing then handleProtocolPing conn hub
  else if msg_Kind msg =? FrameKindPong then mret None
  else
    match OnMessage hub with
    | Some onMessage =>
        runHandlerOperation conn (emit (Received conn (msg_Method msg)) ;;; onMessage conn msg)
    | None =>
        runHandlerOperation conn
          (emit (Received conn (msg_Method msg)) ;;; dispatchMessage conn dispatcher msg)
    end.

(** The function literal in [readLoop]: one binary message through a pooled buffer. *)
Definition handle_frame (conn : ptr) (hub : hub state V) (dispatcher : option (hubDispatcher F))
    (readLimit : option Z) (m : inbound) : Mo (option error) :=
  b <- bpool_Get h_bpool set_bpool ;;;
  err <-
    (let '(data, err) := ReadFrom readLimit m in
     match err with
     | Some err => mret (Some err)
     | None =>
         match pc_decodeFrame (Some (hs_protocol h)) (b ++ data) with
         | Err Panicked => go_panic
         | Err (Returned err) =>
             _ <- on_conn conn (CloseWithStatus theConn StatusProtocolError
                    "invalid signalg protocol frame") ;;;
             mret (Some err)
         | Ok msg => handle_message conn hub dispatcher msg
         end
     end) ;;;
  bpool_Put h_bpool set_bpool ;;;
  mret err.

(** [ws.Reader(conn.ctx)]: a message that arrived, or a failure: of a closed
    socket or a done context always, otherwise at any moment. *)
Definition ws_Reader : proc (cstate V PF) (option error) :=
  atomic (λ s,
    let failed := (Some (External "websocket: read failed"), s) in
    match c_ws s, c_ctx s with
    | Some {| ws_closed := false |}, None => [(None, s); failed]
    | _, _ => [failed]
    end).

(** The loop of [readLoop]; after its last message the client is gone. *)
Fixpoint read_frames (conn : ptr) (hub : hub state V) (dispatcher : option (hubDispatcher F))
    (readLimit : option Z) (inbox : list inbound) : Mo (option error) :=
  match inbox with
  | [] => mret (Some (External "websocket: read failed"))
  | m :: inbox =>
      err <- on_conn conn ws_Reader ;;;
      match err with
      | Some err => mret (Some err)
      | None =>
          if negb (in_type m =? MessageBinary) then
            let err : error := ErrInvalidMessageType in
            _ <- on_conn conn (CloseWithStatus theConn StatusUnsupportedData (error_text err)) ;;;
            mret (Some err)
          else
            err <- handle_frame conn hub dispatcher readLimit m ;;;
            match err with
            | Some err => mret (Some err)
            | None => read_frames conn hub dispatcher readLimit inbox
            end
      end
  end.

(** [dispatcherFor] on the package's cache. *)
Definition hub_dispatcher (hub : hub state V) : Mo (result error (hubDispatcher F)) :=
  lift (λ s, Some (h_dispatchers s)) set_dispatchers (dispatcherFor Methods (Some (hub_type hub))).

Definition readLoop (conn : ptr) (hub : hub state V) (readLimit : option Z) (inbox : list inbound)
    : Mo (option error) :=
  match OnMessage hub with
  | Some _ => read_frames conn hub None readLimit inbox
  | None =>
      dispatcher <- hub_dispatcher hub ;;;
      match dispatcher with
      | Err err => mret (Some err)
      | Ok dispatcher => read_frames conn hub (Some dispatcher) readLimit inbox
      end
  end.

(** ** ServeHTTP *)

(** [ws.CloseNow()] and [conn.closeContext()]. *)
Definition close_unserved (conn : ptr) : Mo unit :=
  _ <- on_conn conn (closeNow theConn) ;;;
  on_conn conn (closeContext theConn).

Definition disconnected (conn : ptr) (hub : hub state V) (err : option error) : Mo unit :=
  emit (Disconnected conn err) ;;;
  OnDisconnected hub conn err.

(** From [OnConnected] to the return; the result is the variable [removed]. *)
Definition serve_connection (conn : ptr) (hub : hub state V) (readLimit : option Z)
    (inbox : list inbound) : Mo bool :=
  err <- runHandlerOperation conn (emit (Connected conn) ;;; OnConnected hub conn) ;;;
  match err with
  | Some err =>
      if errors_Is err ErrHandlerShuttingDown then
        _ <- on_conn conn (closeNow theConn) ;;;
        mret false
      else
        removeConnection Conn fmt_p h conn ;;;
        disconnected conn hub (Some err) ;;;
        _ <- on_conn conn (closeNow theConn) ;;;
        mret true
  | None =>
      err <- sendConnected conn ;;;
      match err with
      | Some err =>
          removeConnection Conn fmt_p h conn ;;;
          disconnected conn hub (Some err) ;;;
          _ <- on_conn conn (closeNow theConn) ;;;
          mret true
      | None =>
          err <- readLoop conn hub readLimit inbox ;;;
          removeConnection Conn fmt_p h conn ;;;
          disconnected conn hub err ;;;
          mret true
      end
  end.

(** Admission and what is deferred after it. *)
Definition serve_admitted (conn : ptr) (hub : hub state V) (readLimit : option Z)
    (inbox : list inbound) : Mo unit :=
  ok <- addConnection Conn fmt_p h conn ;;;
  if negb ok then close_unserved conn
  else
    removed <- serve_connection conn hub readLimit inbox ;;;
    on_conn conn (closeContext theConn) ;;;
    (if removed : bool then mret tt else removeConnection Conn fmt_p h conn) ;;;
    finishConnection.

(** From the upgraded socket on. *)
Definition serve_upgraded (x : exchange R PF) (id userID : string) : Mo unit :=
  let conn := x_conn x in
  new_connection conn id userID
    (newConnection (Some (hs_protocol h)) (Some {| ws_written := []; ws_closed := false |})
       (hs_sendQueueSize h) (hs_writeTimeout h) (hs_slowConsumerPolicy h) (x_pool x) 0) ;;;
  let readLimit :=
    if negb (cfg_ReadLimit (hs_cfg h) =? 0) then Some (cfg_ReadLimit (hs_cfg h)) else None in
  r <- factory conn ;;;
  match r with
  | (_, Some _) | (None, None) => close_unserved conn
  | (Some hub, None) => serve_admitted conn (hub_of hub) readLimit (x_inbox x)
  end.

Definition ServeHTTP (x : exchange R PF) : Mo unit :=
  if negb (bool_decide (x_path x = Some (cfg_Path (hs_cfg h)))) then emit (HTTPError 404)
  else
    down <- reads h_shuttingDown ;;;
    if down : bool then emit (HTTPError 503)
    else if match cfg_CheckOrigin (hs_cfg h) with Some f => negb (f (x_request x)) | None => false end
    then emit (HTTPError 403)
    else
      match x_accept x (acceptOptions h) with
      | Some _ => mret tt
      | None =>
          emit Upgraded ;;;
          match x_id x with
          | Err _ => emit SocketClosed
          | Ok id =>
              let '(userID, err) := resolveUserID h (x_request x) in
              match err with
              | Some _ => emit SocketClosed
              | None => serve_upgraded x id userID
              end
          end
      end.
End serve.
