(* ===== verification/ServeSafety.v ===== *)
(** * Requests, callbacks and shutdown keep the handler's invariant

    [harmless]: the program can run in any goroutine, whatever that goroutine
    holds and the others do.  Every exported operation is harmless, and so is
    [ServeHTTP] when the hub's callbacks are; the admission protocol between
    [addConnection] and [Shutdown] is what the proofs are about. *)

From Stdlib Require Import Ascii String.
From S2P Require Import Prelude GoStd GoText Errors Protocol Framing Proc Locks Connection.
From S2P Require Import ConnectionInv ConnectionSafety ConnectionWriter ConnectionProps.
From S2P Require Import Registry RegistryProps RegistryLocks RegistryCalls RegistryMoves.
From S2P Require Import Batch Dispatcher Config Handler HandlerInv HandlerSafety Serve.

Local Open Scope Z_scope.
Local Open Scope go_scope.

Section harmless.
Context {M : Type → Type} `{!ShardMap M} `{!ShardMapLaws M} {P : Type} `{!SlicePool P}.
Context {V PF : Type} `{!ExternalCodecs V} `{!SlicePool PF} `{!SlicePoolLaws PF} {F R : Type}.
Context (Conn : ptr → connInfo) (fmt_p : ptr → string) (h : handlerSettings R V).
Context (W : gset ptr).

Local Abbreviation state := (hstate M P V PF F).
Local Abbreviation Mo := (proc (hstate M P V PF F)).
Local Abbreviation HI := (HI (F := F) Conn fmt_p W).
Local Abbreviation Ends := (Ends (F := F) Conn fmt_p W).

Implicit Types s : state.
Implicit Types L t fr : list htok.

Definition harmless {A} (p : Mo A) : Prop :=
  ∀ t B (g : A → Mo B), (∀ a, Ends t (g a)) → Ends t (proc_bind g p).

(** ** Composition *)

Lemma ends_assoc {A B C} t (p : Mo A) (f : A → Mo B) (g : B → Mo C) :
  Ends t (proc_bind (λ a, proc_bind g (f a)) p) → Ends t (proc_bind g (proc_bind f p)).
Proof.
  revert t. induction p as [a|X f0 k IH]; intros t H; [done|].
  intros s fr HI0 x s' Hin. destruct (H s fr HI0 x s' Hin) as (? & t' & ? & ?).
  split; [done|]. exists t'. split; [done|]. by apply IH.
Qed.

Lemma harmless_ret {A} (a : A) : harmless (Ret a).
Proof. intros t B g Hg. apply Hg. Qed.

Lemma harmless_bind {A B} (p : Mo A) (g : A → Mo B) :
  harmless p → (∀ a, harmless (g a)) → harmless (proc_bind g p).
Proof. intros Hp Hg t C k Hk. apply ends_assoc, Hp. intros a. by apply Hg. Qed.

(** After a program, only the results it can have matter. *)
Lemma harmless_bind_yields {A B} (Q : A → Prop) `{∀ a, Decision (Q a)} (p : Mo A) (g : A → Mo B) :
  harmless p → yields Q p → (∀ a, Q a → harmless (g a)) → harmless (proc_bind g p).
Proof.
  intros Hp Hy Hg t C k Hk. apply ends_assoc.
  apply (safe_bind_yields _ _ Q _ _ _ _
    (λ a, if decide (Q a) then proc_bind k (g a) else atomic (λ _, []))); [done| |].
  - intros a Ha. by rewrite decide_True.
  - apply Hp. intros a. case_decide; [by apply Hg|]. by intros s fr _ x s' ?%not_elem_of_nil.
Qed.

Lemma harmless_for_each {A} (l : list A) (body : A → Mo unit) :
  (∀ a, harmless (body a)) → harmless (for_each l body).
Proof.
  intros Hb. induction l as [|a l IH]; cbn [for_each]; [apply harmless_ret|].
  by apply harmless_bind.
Qed.

Lemma ends_bind_ret {A} t (p : Mo A) : Ends t (proc_bind Ret p) → Ends t p.
Proof.
  revert t. induction p as [a|X f k IH]; intros t Hr; [done|].
  intros s fr HI0 x s' Hin. destruct (Hr s fr HI0 x s' Hin) as (? & t' & ? & ?).
  split; [done|]. exists t'. split; [done|]. by apply IH.
Qed.

Lemma harmless_Ends {A} t (p : Mo A) : harmless p → hended t → Ends t p.
Proof. intros Hp Ht. apply ends_bind_ret, Hp. by intros a. Qed.

(** ** One action *)

Lemma harmless_quiet {X} (f : state → list (X * state)) :
  (∀ s x s', (x, s') ∈ f s → quiet s s') → harmless (atomic f).
Proof. intros Hf t B g Hg. by apply ends_quiet. Qed.

Lemma harmless_reads {X} (f : state → X) : harmless (reads f).
Proof. intros t B g Hg. by apply ends_reads. Qed.

Lemma harmless_modify (f : state → state) : (∀ s, quiet s (f s)) → harmless (modify f).
Proof. intros Hf t B g Hg. by apply ends_modify. Qed.

Lemma harmless_emit e : harmless (emit e).
Proof. by apply harmless_modify. Qed.

(** A program on a part of the store the invariant does not read. *)
Lemma harmless_lift {S A} (get : state → option S) (put : S → state → state) (p : proc S A) :
  (∀ v s, quiet s (put v s)) → harmless (lift get put p).
Proof.
  intros Hput. induction p as [a|X f k IH]; [apply harmless_ret|].
  intros t B g Hg. cbn. apply ends_quiet; [|intros x; by apply IH].
  intros s x s' Hin. destruct (get s) as [v|]; [|set_solver].
  apply list_elem_of_fmap in Hin as ([y v'] & [= -> ->] & _). apply Hput.
Qed.

(** The keys of the connections in the registry are distinct. *)
Context (Hkeys : ∀ c c', c ∈ W → c' ∈ W → connectionKey Conn fmt_p c = connectionKey Conn fmt_p c' → c = c').

Lemma harmless_registry {A} (p : proc (rstate M P) A) :
  lsafe (RI Conn fmt_p) rank (λ _ (t : list rtok), t = []) [] p → always Shrinks p → harmless (on_registry p).
Proof.
  intros Hp Hsh t B g Hg. apply (ends_registry Conn fmt_p W Hkeys _ [] t p g Hp); [by left|].
  by intros a t0 ->.
Qed.

Lemma harmless_conn {A} c (p : proc (cstate V PF) A) :
  safe Inv Grows (λ _ (t : list tok), t = []) [] p → harmless (on_conn c p).
Proof.
  intros Hp t B g Hg. apply (ends_conn Conn fmt_p W c _ [] t p g Hp). by intros a t0 ->.
Qed.

(** ** What a goroutine may forget *)

Lemma ends_forget {B} a t (p : Mo B) : leftover a → Ends t p → Ends (a :: t) p.
Proof.
  intros Ha Hp. eapply ends_perm; [symmetry; apply Permutation_cons_append|].
  eapply safe_mono; [by apply safe_frame|]. intros b t' (t0 & -> & Ht0).
  apply Forall_app. split; [done|]. by constructor.
Qed.
End harmless.

Create HintDb harmless.

(** Composition, by the shape of the program. *)
Ltac harmless :=
  repeat first
    [ apply harmless_ret
    | apply harmless_reads
    | apply harmless_emit
    | match goal with |- forall _, _ => intro; cbn beta end
    | (apply harmless_modify; intros; done)
    | solve [eauto with harmless]
    | apply harmless_bind
    | apply harmless_for_each
    | case_match ].

Section operations.
Context {M : Type → Type} `{!ShardMap M} `{!ShardMapLaws M} {P : Type} `{!SlicePool P}.
Context {V PF : Type} `{!ExternalCodecs V} `{!SlicePool PF} `{!SlicePoolLaws PF} {F R : Type}.
Context (Conn : ptr → connInfo) (fmt_p : ptr → string) (h : handlerSettings R V).
Context (W : gset ptr).
Context (Hkeys : ∀ c c', c ∈ W → c' ∈ W → connectionKey Conn fmt_p c = connectionKey Conn fmt_p c' → c = c').

Local Abbreviation state := (hstate M P V PF F).
Local Abbreviation Mo := (proc (hstate M P V PF F)).
Local Abbreviation HI := (HI (F := F) Conn fmt_p W).
Local Abbreviation Ends := (Ends (F := F) Conn fmt_p W).
Local Abbreviation harmless := (harmless (M := M) (P := P) (V := V) (PF := PF) (F := F) Conn fmt_p W).

Implicit Types s : state.
Implicit Types L t fr : list htok.

(** ** Connections *)

Lemma harmless_closeContext c : harmless (on_conn c (closeContext theConn)).
Proof. apply harmless_conn, closeContext_safe. Qed.
Lemma harmless_closeNow c : harmless (on_conn c (closeNow theConn)).
Proof. apply harmless_conn, closeNow_safe. Qed.
Lemma harmless_CloseWithStatus c code reason :
  harmless (on_conn c (CloseWithStatus theConn code reason)).
Proof. apply harmless_conn, CloseWithStatus_safe. Qed.
Lemma harmless_Send c ctx m body : harmless (on_conn c (Send theConn ctx m body)).
Proof. apply harmless_conn, Send_safe. Qed.
Lemma harmless_SendRaw c ctx m payload : harmless (on_conn c (SendRaw theConn ctx m payload)).
Proof. apply harmless_conn, SendRaw_safe. Qed.
Lemma harmless_Complete c ctx i body : harmless (on_conn c (Complete theConn ctx i body)).
Proof. apply harmless_conn, Complete_safe. Qed.
Lemma harmless_CompleteError c ctx i err : harmless (on_conn c (CompleteError theConn ctx i err)).
Proof. apply harmless_conn, CompleteError_safe. Qed.
Lemma harmless_Pong c ctx : harmless (on_conn c (Pong theConn ctx)).
Proof. apply harmless_conn, Pong_safe. Qed.

Lemma harmless_ws_Reader c : harmless (on_conn c ws_Reader).
Proof.
  clear Hkeys.
  apply harmless_conn. apply safe_act with (t' := λ _, []); [|done].
  intros s fr x s' HI0 Hin. assert (s' = s) as ->.
  { repeat case_match; set_solver. }
  by split.
Qed.

Lemma harmless_runHandlerOperation c (fn : Mo (option error)) :
  harmless fn → harmless (runHandlerOperation c fn).
Proof.
  intros Hfn t B g Hg. unfold runHandlerOperation. apply ends_assoc.
  apply (ends_conn Conn fmt_p W c (λ (b : bool) (t' : list tok), t' = if b then [THandler] else []) [] t).
  { apply (beginHandler_safe _ Ret); done. }
  intros b t0 ->. destruct b; cbn [negb fmap list_fmap app]; [|apply Hg].
  apply ends_assoc, Hfn. intros err. apply ends_assoc.
  apply (ends_conn Conn fmt_p W c (λ _ (t' : list tok), t' = []) [THandler] t).
  { apply (endHandler_safe _ Ret); done. }
  intros [] t1 ->. apply Hg.
Qed.

(** ** The registry *)

(** Every call of the registry but [add]. *)
Lemma harmless_run_op op : is_add op = false → harmless (on_registry (run_op Conn fmt_p op)).
Proof.
  intros Hop. apply (harmless_registry _ _ _ Hkeys); [|by apply sh_run_op]. apply keeps_run_op. constructor.
Qed.

Lemma harmless_remove c : harmless (on_registry (remove Conn fmt_p c)).
Proof. apply (harmless_registry _ _ _ Hkeys); [apply keeps_remove; constructor|apply sh_remove]. Qed.

Lemma harmless_expired now timeout : harmless (on_registry (expired Conn now timeout)).
Proof. apply (harmless_registry _ _ _ Hkeys); [apply keeps_expired; constructor|apply sh_expired]. Qed.

Lemma harmless_touch c : harmless (on_registry (touch Conn fmt_p c)).
Proof.
  apply (harmless_registry _ _ _ Hkeys); [apply keeps_touch; constructor|]. unfold touch.
  case_match; [done|]. apply always_bind; [apply sh_lookup_entry|]. intros [p|]; [|done]. shrinks.
Qed.

Lemma harmless_nextExpiration timeout : harmless (on_registry (nextExpiration timeout)).
Proof.
  apply (harmless_registry _ _ _ Hkeys); unfold nextExpiration, connections_Len; case_match; try done.
  - apply keeps_ret.
  - apply step_bind; [apply keeps_reads|]. intros n. case_match; apply keeps_ret.
  - shrinks.
Qed.
#[local] Hint Resolve harmless_closeContext harmless_closeNow harmless_CloseWithStatus
  harmless_Send harmless_Complete harmless_CompleteError harmless_Pong harmless_ws_Reader
  harmless_runHandlerOperation harmless_remove harmless_expired harmless_touch
  harmless_nextExpiration : harmless.

(** ** The handler *)

Lemma harmless_wake : harmless (wakeHeartbeatLoop h).
Proof. unfold wakeHeartbeatLoop. harmless. Qed.

Lemma harmless_online n : harmless (add_online n).
Proof. harmless. Qed.

#[local] Hint Resolve harmless_wake harmless_online : harmless.

Lemma harmless_removeConnection c : harmless (removeConnection Conn fmt_p h c).
Proof. unfold removeConnection. harmless. Qed.

Lemma harmless_closeExpired : harmless (closeExpiredIdleConnections Conn h).
Proof.
  unfold closeExpiredIdleConnections. harmless.
Qed.

#[local] Hint Resolve harmless_removeConnection harmless_closeExpired : harmless.

Lemma harmless_heartbeat_select timer : harmless (heartbeat_select timer).
Proof.
  clear Hkeys.
  apply harmless_quiet. intros s x s' Hin.
  assert (s' = s ∨ s' = set_heartbeatWake false s) as [-> | ->]; [|done..].
  repeat case_match; set_solver.
Qed.

#[local] Hint Resolve harmless_heartbeat_select : harmless.

Lemma harmless_heartbeatLoop fuel : harmless (heartbeatLoop Conn h fuel).
Proof. induction fuel as [|fuel IH]; cbn [heartbeatLoop]; harmless. Qed.

(** ** Shutdown *)

Lemma harmless_stopHeartbeat : harmless (@stopHeartbeatLoop M P V PF F).
Proof.
  intros t B g Hg s fr HI0 [] s' [= ->]%list_elem_of_singleton.
  assert (H : HI (stop_heartbeat s) (t ++ fr) ∧ HG s (stop_heartbeat s)).
  { unfold stop_heartbeat. destruct (h_heartbeatStopOnce s) eqn:Ho; [by split; [|intros ?]|].
    split; [|by intros ?]. destruct HI0. constructor; auto. cbn. by rewrite hi_panicked, hi_stop, Ho. }
  destruct H. split; [done|]. exists t. split; [done|apply Hg].
Qed.

Lemma ends_beginShutdown {B} t (g : list drainingConnection → Mo B) :
  (∀ connections, Ends (HDown false :: t) (g connections)) → Ends t (proc_bind g beginShutdown).
Proof.
  intros Hg. unfold beginShutdown. apply ends_assoc, ends_lock. intros b.
  apply ends_assoc, ends_set_down, ends_assoc, ends_allConnections. intros l es.
  apply ends_assoc, ends_drain. intros connections. apply ends_assoc.
  apply ends_unlock_drained, Hg.
Qed.

Lemma harmless_waitDrained ctx l : harmless (waitConnectionsDrained ctx l).
Proof.
  clear Hkeys.
  induction l as [|d l IH]; cbn [waitConnectionsDrained]; [harmless|].
  apply harmless_bind; [|harmless]. apply harmless_quiet. intros s x s' Hin.
  assert (s' = s) as ->; [|done]. repeat case_match; set_solver.
Qed.

Lemma harmless_closeDraining l : harmless (closeDrainingConnections l).
Proof. apply harmless_for_each. intros [c d]. harmless. Qed.

#[local] Hint Resolve harmless_stopHeartbeat harmless_waitDrained harmless_closeDraining : harmless.

(** When the wait group is at zero, it stays there. *)
Lemma HI_quiet_now s t :
  HI s (HDown false :: t) → h_active s = 0 → HI s (HDown true :: t).
Proof.
  intros [] Hz. destruct (hi_down false) as [Hs _]; [left|]. constructor; auto.
  - intros c a [?|?]%elem_of_cons; [done|apply (hi_owner c a); by right].
  - intros c Hc. destruct (hi_registered c Hc) as (a & [?|?]%elem_of_cons & ?); [done|].
    exists a. split; [by right|done].
  - intros o [?|?]%elem_of_cons; [done|apply hi_covers; by right].
  - intros p c [?|?]%elem_of_cons; [done|apply hi_entry; by right].
  - intros _. destruct (hi_drained Hs) as [[o [?|?]%elem_of_cons]|?]; [done|left; exists o; by right|by right].
Qed.

Lemma ends_wait_active {B} ctx t (g : option error → Mo B) :
  Ends (HDown true :: t) (g None) → (∀ e, Ends (HDown false :: t) (g (Some e))) →
  Ends (HDown false :: t) (proc_bind g (wait_active ctx)).
Proof.
  intros Hn Hs s fr HI0 x s' [Hin|Hin]%elem_of_app.
  - destruct (Z.eqb_spec (h_active s) 0) as [Hz|]; [|by apply not_elem_of_nil in Hin].
    apply list_elem_of_singleton in Hin as [= -> ->]. split; [by intros ?|].
    exists (HDown true :: t). split; [by apply HI_quiet_now|done].
  - destruct (ctx_done ctx s) as [e|]; [|by apply not_elem_of_nil in Hin].
    apply list_elem_of_singleton in Hin as [= -> ->]. split; [by intros ?|].
    exists (HDown false :: t). split; [done|apply Hs].
Qed.

Lemma ends_shutdown {B} ctx t (g : option error → Mo B) :
  Ends (HDown true :: t) (g None) → (∀ e, Ends t (g (Some e))) →
  Ends t (proc_bind g (shutdown ctx)).
Proof.
  intros Hn Hs. unfold shutdown. apply ends_assoc, harmless_stopHeartbeat. intros [].
  apply ends_assoc, ends_beginShutdown. intros l. apply ends_assoc, harmless_waitDrained.
  intros [e|]; apply ends_assoc, harmless_closeDraining; intros [].
  - apply ends_forget; [done|apply Hs].
  - apply ends_wait_active; [done|]. intros e. apply ends_forget; [done|apply Hs].
Qed.

(** Shutdown has run: its result is kept. *)
Lemma HI_once s o t :
  HI s t → (o = OnceDone None → h_shuttingDown s = true ∧ h_active s = 0) →
  HI (set_shutdownOnce o s) t.
Proof. intros [] Ho. constructor; auto. Qed.

Lemma ends_enter_shutdown {B} t (g : option (option error) → Mo B) :
  (∀ r, Ends t (g r)) → Ends t (proc_bind g enter_shutdown).
Proof.
  intros Hg s fr HI0 x s' Hin. destruct (h_shutdownOnce s) eqn:Ho.
  - apply list_elem_of_singleton in Hin as [= -> ->]. split; [by intros ?|]. exists t.
    split; [by apply HI_once|apply Hg].
  - by apply not_elem_of_nil in Hin.
  - apply list_elem_of_singleton in Hin as [= -> ->]. split; [by intros ?|].
    exists t. split; [done|apply Hg].
Qed.

Lemma ends_set_once {B} t err (g : unit → Mo B) :
  (err = None → HDown true ∈ t) → Ends t (g tt) →
  Ends t (proc_bind g (modify (set_shutdownOnce (OnceDone err)))).
Proof.
  intros Hd Hg s fr HI0 [] s' [= ->]%list_elem_of_singleton. split; [by intros ?|]. exists t.
  split; [|done]. apply HI_once; [done|]. intros [= ->].
  destruct (hi_down _ _ _ _ _ HI0 true) as [? Hz]; [|by auto]. apply elem_of_app. left. by apply Hd.
Qed.

Lemma harmless_Shutdown ctx : harmless (Shutdown ctx).
Proof.
  intros t B g Hg. unfold Shutdown. apply ends_assoc, ends_enter_shutdown. intros [err|]; [apply Hg|].
  apply ends_assoc, ends_shutdown.
  - apply ends_assoc, ends_set_once; [by left|]. apply ends_forget; [done|apply Hg].
  - intros e. apply ends_assoc, ends_set_once; [done|apply Hg].
Qed.

(** ** Admission *)

Lemma ends_addConnection {B} t c (g : bool → Mo B) :
  Ends (HOwner c Counted :: t) (g true) → Ends (HOwner c Outside :: t) (g false) →
  Ends (HOwner c Outside :: t) (proc_bind g (addConnection Conn fmt_p h c)).
Proof.
  intros Ht Hf. unfold addConnection. apply ends_assoc, ends_lock. intros b.
  apply ends_assoc, ends_down. destruct b.
  - by apply ends_assoc, ends_unlock.
  - eapply ends_perm; [apply perm_swap|]. apply ends_assoc, ends_add_active, ends_assoc.
    apply (ends_registry Conn fmt_p W Hkeys (λ _ (t : list rtok), t = []) []
      (HOwner c Counted :: HAdmit false :: t)).
    + apply keeps_add. constructor.
    + right. split; [right; left|]. exists c. split; [left|]. apply adds_add.
    + intros [] t0 ->. cbn [fmap list_fmap app].
      apply ends_assoc, ends_online, ends_assoc, ends_wake, ends_assoc.
      eapply ends_perm; [apply perm_swap|].
      by apply ends_unlock.
Qed.
End operations.
