(* ===== verification/RequestSafety.v ===== *)
(** * A request keeps the handler's invariant

    The steps of [ServeHTTP] that move its hold on the connection it makes
    (creation, removal from the registry), then all of it, for hubs and factories
    that are [client]s: programs that use the package through its exported operations. *)

From Stdlib Require Import Ascii String.
From S2P Require Import Prelude GoStd GoText Errors Protocol Framing Proc Locks Connection.
From S2P Require Import ConnectionInv ConnectionSafety ConnectionWriter ConnectionProps.
From S2P Require Import Registry RegistryProps RegistryLocks RegistryCalls RegistryMoves.
From S2P Require Import Batch Dispatcher Config Handler HandlerInv HandlerSafety Serve ServeSafety ProtocolFacts.

Local Open Scope Z_scope.
Local Open Scope go_scope.

Section removal.
Context {M : Type → Type} `{!ShardMap M} `{!ShardMapLaws M} {P : Type} `{!SlicePool P}.
Context {V PF : Type} `{!ExternalCodecs V} `{!SlicePool PF} `{!SlicePoolLaws PF} {F R : Type}.
Context (Conn : ptr → connInfo) (fmt_p : ptr → string) (h : handlerSettings R V).
Context (W : gset ptr).
Context (Hkeys : ∀ c c', c ∈ W → c' ∈ W → connectionKey Conn fmt_p c = connectionKey Conn fmt_p c' → c = c').

Local Abbreviation state := (hstate M P V PF F).
Local Abbreviation Mo := (proc (hstate M P V PF F)).
Local Abbreviation HI := (HI (F := F) Conn fmt_p W).
Local Abbreviation Ends := (Ends (F := F) Conn fmt_p W).
Local Abbreviation key := (connectionKey Conn fmt_p).

Implicit Types s : state.
Implicit Types L t fr : list htok.

(** ** Removal *)

Lemma ends_registry_bind {A B C} t (p : proc (rstate M P) A) (f : A → proc (rstate M P) B)
    (g : B → Mo C) :
  Ends t (proc_bind (λ a, proc_bind g (on_registry (f a))) (on_registry p)) →
  Ends t (proc_bind g (on_registry (proc_bind f p))).
Proof.
  revert t. induction p as [a|X f0 k IH]; intros t H; [done|].
  intros s fr HI0 x s' Hin. destruct (H s fr HI0 x s' Hin) as (? & t' & ? & ?).
  split; [done|]. exists t'. split; [done|]. by apply IH.
Qed.

(** Nothing registers [c], so its owner has removed it. *)
Lemma HI_unregistered s c a t :
  HI s (HOwner c a :: t) → active_of (HOwner c a) = [tt] → ¬ registered_at s c →
  HI s (HOwner c Removed :: t).
Proof.
  intros HI0 Ha Hc. eapply HI_owner_same; [exact HI0|by rewrite Ha|done].
Qed.

Lemma HI_learn_entry s p k t :
  HI s t → sm_model (r_connections (h_registry s)) !! k = Some p → HI s (HReg (TIsEntry p k) :: t).
Proof.
  intros HI0 Hk. pose proof (hi_reg _ _ _ _ _ HI0) as (kn & Hkn & HR).
  pose proof (ri_conns _ _ _ _ HR k p Hk) as Hgood. destruct HI0. constructor; auto.
  - exists kn. split; [done|]. rewrite bind_cons. cbn [regs_of app].
    rewrite <- Permutation_middle. by apply RI_learn.
  - intros c a [?|?]%elem_of_cons; [done|by apply (hi_owner c a)].
  - intros c Hc. destruct (hi_registered c Hc) as (a & ? & ?). exists a. split; [by right|done].
  - intros o [?|?]%elem_of_cons; [done|auto].
  - intros q c [?|?]%elem_of_cons; [done|auto].
  - intros Hs. destruct (hi_drained Hs) as [[o ?]|?]; [left; exists o; by right|by right].
  - intros b [?|?]%elem_of_cons; [done|auto].
Qed.

(** Reading the entry: [c] is not in the registry, or only as that entry. *)
Lemma ends_read_key {B} c t (g : option ptr → Mo B) :
  Ends (HOwner c Removed :: t) (g None) →
  (∀ p, Ends (HReg (TIsEntry p (key c)) :: HOwner c (Under p) :: t) (g (Some p))) →
  Ends (HOwner c Counted :: t) (proc_bind g (on_registry (connections_Get (key c)))).
Proof.
  intros Hn Hs s fr HI0 x s' [= -> ->]%list_elem_of_singleton. rewrite set_registry_same.
  split; [by intros ?|]. cbn [proc_bind lift]. rewrite sm_Get_model.
  destruct (sm_model (r_connections (h_registry s)) !! key c) as [p|] eqn:Hk.
  - exists (HReg (TIsEntry p (key c)) :: HOwner c (Under p) :: t). split; [|apply Hs].
    apply HI_learn_entry; [|done]. by eapply HI_owner_same.
  - exists (HOwner c Removed :: t). split; [|done]. eapply HI_unregistered; [exact HI0|done|].
    intros Hc. destruct (registered_key _ _ _ _ _ _ HI0 Hc) as (p & e & Hp & _). congruence.
Qed.

Lemma ends_read_conn {B} c p t (g : ptr → Mo B) :
  Ends (HOwner c (Under p) :: t) (g c) → (∀ c', c' ≠ c → Ends (HOwner c Removed :: t) (g c')) →
  Ends (HOwner c (Under p) :: t)
    (proc_bind g (on_registry (reads (λ r : rstate M P, e_conn (entry_at r p))))).
Proof.
  intros Hsame Hother s fr HI0 x s' [= -> ->]%list_elem_of_singleton. rewrite set_registry_same.
  split; [by intros ?|]. destruct (decide (e_conn (entry_at (h_registry s) p) = c)) as [Hc|Hne].
  - exists (HOwner c (Under p) :: t). split; [done|]. cbn [proc_bind lift]. rewrite Hc. exact Hsame.
  - exists (HOwner c Removed :: t). split; [|by apply Hother]. eapply HI_unregistered; [exact HI0|done|].
    intros Hreg. destruct (hi_registered _ _ _ _ _ HI0 c Hreg) as (a & Ha & Hmay).
    rewrite (owner_known _ _ _ _ _ c a (Under p) HI0 Ha ltac:(left)) in Hmay. cbn in Hmay.
    destruct (registered_key _ _ _ _ _ _ HI0 Hreg) as (p' & e & Hp' & He & Hec).
    apply Hne. unfold entry_at. assert (p' = p) as -> by congruence. by rewrite He.
Qed.

Lemma ends_delete_key {B} c a x (t : list rtok) (g : unit → Mo B) :
  active_of (HOwner c a) = [tt] →
  Ends ((HReg <$> t) ++ HOwner c Removed :: x) (g tt) →
  Ends ((HReg <$> t) ++ HOwner c a :: x) (proc_bind g (on_registry (connections_Delete (key c)))).
Proof.
  intros Ha Hg s fr HI0 [] s' [= ->]%list_elem_of_singleton. rewrite <- app_assoc in HI0.
  destruct (hi_reg _ _ _ _ _ HI0) as (kn & Hkn & HR).
  rewrite bind_app, regs_of_HReg, Permutation_app_swap_app in HR.
  destruct (safe_connections_Delete Conn fmt_p t (key c) _ _ HR) as [_ Hk].
  destruct (Hk tt _ ltac:(left)) as (t' & HR' & kn' & t0 & Hkn' & Ht' & ->).
  set (r' := set_connections _ _) in *.
  assert (HR2 : RI Conn fmt_p r' ((kn' ++ kn) ++ t ++ ((HOwner c a :: x) ++ fr) ≫= regs_of)).
  { rewrite <- app_assoc, (Permutation_app_swap_app kn t), (app_assoc kn'). by rewrite <- Ht'. }
  assert (Hsh : Shrinks (h_registry s) r').
  { split; [|done]. intros k p. cbn. rewrite sm_Delete_model. by intros [_ ?]%lookup_delete_Some. }
  destruct (HI_registry Conn fmt_p W Hkeys s r' (kn' ++ kn) t t _ HI0 ltac:(by apply Forall_app) HR2
    ltac:(by left)) as [HG' HI'].
  split; [done|]. exists ((HReg <$> t) ++ HOwner c Removed :: x). split; [|done].
  rewrite <- app_assoc. cbn [app] in HI' |- *. rewrite <- Permutation_middle in HI' |- *.
  eapply HI_unregistered; [exact HI'|done|]. intros Hc.
  destruct (registered_key _ _ _ _ _ _ HI' Hc) as (p & e & Hp & _). cbn in Hp.
  by rewrite sm_Delete_model, lookup_delete_eq in Hp.
Qed.

(** [remove] leaves its connection out of the registry, whatever it returns. *)
Lemma ends_remove {B} c t (g : bool → Mo B) :
  c ≠ nil → (∀ b, Ends (HOwner c Removed :: t) (g b)) →
  Ends (HOwner c Counted :: t) (proc_bind g (on_registry (remove Conn fmt_p c))).
Proof.
  intros Hc Hg. unfold remove. destruct (Nat.eqb_spec c nil) as [|_]; [done|]. unfold is_nil.
  rewrite (proj2 (Nat.eqb_neq c nil) Hc). apply ends_registry_bind. unfold lookup_entry.
  apply ends_registry_bind, ends_read_key; [apply Hg|]. intros p.
  apply ends_registry_bind. eapply ends_perm; [apply perm_swap|].
  apply ends_read_conn; [|intros c' Hne].
  - cbn [on_registry lift proc_bind]. rewrite Nat.eqb_refl. apply ends_registry_bind.
    eapply ends_perm; [apply perm_swap|].
    apply (ends_registry Conn fmt_p W Hkeys (λ _ (t : list rtok), t = [TEntry p; TIsEntry p (key c)])
      [TIsEntry p (key c)] (HOwner c (Under p) :: t)).
    { apply (safe_lock_entry Conn fmt_p [TIsEntry p (key c)] p (key c)); [left|done|done]. }
    { left. apply sh_lock_entry. }
    intros [] t0 ->. apply ends_registry_bind.
    apply ends_delete_key; [done|].
    apply (ends_registry Conn fmt_p W Hkeys (λ _ (t : list rtok), t = [TIsEntry p (key c)])
      [TEntry p; TIsEntry p (key c)] (HOwner c Removed :: t)).
    + apply keeps_clear. by repeat constructor.
    + left. shrinks.
    + intros b t0 ->. apply ends_forget; [done|]. apply Hg.
  - cbn [on_registry lift proc_bind]. rewrite (proj2 (Nat.eqb_neq c' c) Hne).
    eapply ends_perm; [apply perm_swap|]. apply ends_forget; [done|]. apply Hg.
Qed.
(** ** Creation *)

(** A connection as [newConnection] makes it, over a socket just upgraded. *)
Lemma HI_new_connection s c cs t :
  HI s t → c ∈ W → h_conns s !! c = None → fresh_connection cs →
  HI (set_conns (<[c := cs]> (h_conns s)) s) (HOwner c Outside :: t).
Proof.
  intros HI0 Hc Hnone Hfresh.
  assert (Hno : ∀ a, HOwner c a ∉ t).
  { intros a Ha. destruct (hi_owner _ _ _ _ _ HI0 c a Ha). congruence. }
  assert (Hmono : ∀ c', is_Some (h_conns s !! c') → is_Some (<[c := cs]> (h_conns s) !! c')).
  { intros c' Hc'. apply lookup_insert_is_Some'. by right. }
  assert (Hdr : ∀ c', draining_at s c' → draining_at (set_conns (<[c := cs]> (h_conns s)) s) c').
  { intros c' (cs' & Hcs' & ?). exists cs'. cbn. rewrite lookup_insert_ne; [done|congruence]. }
  destruct HI0. constructor; auto.
  - intros c' cs'. cbn. intros [[<- <-]|[_ Hc']]%lookup_insert_Some.
    + rewrite (hi_unborn c Hc Hnone). by apply fresh_Inv.
    + by apply hi_conns.
  - intros c' cs'. cbn. intros [[<- <-]|[_ Hc']]%lookup_insert_Some; [done|by eapply hi_dom].
  - intros c' Hc'. cbn. intros [Hn _]%lookup_insert_None. by apply hi_unborn.
  - intros p e Hp. by apply Hmono, (hi_entries p).
  - intros c' a [[= -> ->]|Ha]%elem_of_cons; [by cbn; rewrite lookup_insert_eq|].
    by apply Hmono, (hi_owner c' a).
  - intros c'. cbn. destruct (Nat.eqb_spec c' c) as [->|]; [|apply hi_owners].
    replace (t ≫= owner_of c) with ([] : list admission); [cbn; lia|]. symmetry.
    apply elem_of_nil_inv. intros a (o & Ha & Ho)%list_elem_of_bind.
    destruct o as [| | |c' a'| | |]; cbn in Ha; try by apply not_elem_of_nil in Ha.
    destruct (Nat.eqb_spec c c') as [<-|]; [by apply (Hno a')|by apply not_elem_of_nil in Ha].
  - intros c' Hc'. destruct (hi_registered c' Hc') as (a & ? & ?). exists a. split; [by right|].
    by destruct a.
  - intros o [?|Ho]%elem_of_cons; [done|]. destruct (hi_covers o Ho) as [? Hl]. split; [done|].
    intros l -> c' Hc'. destruct (Hl l eq_refl c' Hc'); auto.
  - intros p c' [?|?]%elem_of_cons; [done|auto].
  - intros Hs. destruct (hi_drained Hs) as [[o ?]|?]; [left; exists o; by right|right; auto].
  - intros b [?|?]%elem_of_cons; [done|auto].
Qed.

Lemma ends_new_connection {B} c id userID cs t (g : unit → Mo B) :
  c ∈ W → fresh_connection cs → (c ≠ nil → Ends (HOwner c Outside :: t) (g tt)) →
  Ends t (proc_bind g (new_connection Conn c id userID cs)).
Proof.
  intros Hc Hcs Hg s fr HI0 [] s' Hin. unfold is_nil in Hin.
  destruct (Nat.eqb_spec c nil) as [|Hnil]; [by apply not_elem_of_nil in Hin|].
  destruct (bool_decide_reflect (is_Some (h_conns s !! c))) as [|Hnone];
    [by apply not_elem_of_nil in Hin|].
  destruct (negb _); [by apply not_elem_of_nil in Hin|].
  apply list_elem_of_singleton in Hin as [= ->]. split; [by intros ?|].
  exists (HOwner c Outside :: t). split; [|by apply Hg].
  apply HI_new_connection; [done|done|by apply eq_None_not_Some|done].
Qed.
End removal.

(** ** User code *)

Section requests.
Context {M : Type → Type} `{!ShardMap M} `{!ShardMapLaws M} {P : Type} `{!SlicePool P}.
Context {V PF : Type} `{!ExternalCodecs V} `{!SlicePool PF} `{!SlicePoolLaws PF} {F R : Type}.
Context (Conn : ptr → connInfo) (fmt_p : ptr → string) (h : handlerSettings R V).

Local Abbreviation state := (hstate M P V PF F).
Local Abbreviation Mo := (proc (hstate M P V PF F)).

(** The calls of the registry that the handler exports. *)
Definition exported (op : reg_op) : bool :=
  match op with
  | OpAdd _ | OpRemove _ | OpTouch _ | OpExpired _ _ | OpTick _ | OpNextExpiration _ => false
  | _ => true
  end.

(** Programs that touch the store through the exported operations only: sends and
    closes of connections, groups and lookups, [Online], [Shutdown]. *)
Inductive client : ∀ A, Mo A → Prop :=
| client_ret A (a : A) : client A (Ret a)
| client_bind A B (p : Mo A) (g : A → Mo B) :
    client A p → (∀ a, client B (g a)) → client B (proc_bind g p)
| client_call c (m : call V) : client _ (on_conn c (run_call m))
| client_registry op : exported op = true → client _ (on_registry (run_op Conn fmt_p op))
| client_online : client _ Online
| client_down : client _ (reads h_shuttingDown)
| client_shutdown ctx : client _ (Shutdown ctx).

(** The error that a method returns is of a type whose values may be nil. *)
Definition nilable_error (r : reflectValue V * reflectValue error) : Prop := is_Some (Value_IsNil r.2).

Record client_hub (hub : hub state V) : Prop := {
  ch_connected c : client _ (OnConnected hub c);
  ch_disconnected c err : client _ (OnDisconnected hub c err);
  ch_message f c msg : OnMessage hub = Some f → client _ (f c msg);
  ch_ping f c : OnPing hub = Some f → client _ (f c);
}.

(** ** Harmless programs *)

Context (W : gset ptr).
Context (Hkeys : ∀ c c', c ∈ W → c' ∈ W → connectionKey Conn fmt_p c = connectionKey Conn fmt_p c' → c = c').

Local Abbreviation Ends := (Ends (F := F) Conn fmt_p W).
Local Abbreviation harmless := (harmless (M := M) (P := P) (V := V) (PF := PF) (F := F) Conn fmt_p W).

Lemma harmless_client A (p : Mo A) : client A p → harmless p.
Proof.
  induction 1.
  - apply harmless_ret.
  - by apply harmless_bind.
  - apply harmless_conn, run_call_safe.
  - apply (harmless_run_op _ _ _ Hkeys). by destruct op.
  - apply harmless_reads.
  - apply harmless_reads.
  - apply harmless_Shutdown.
Qed.

Context (Methods : goType → list (hubMethod F)) (reflect_New : goType → V).
Context (Func_Call : ptr → F → option V → Mo (reflectValue V * reflectValue error)).
Context (any_of : connectedValue → V) (remoteAddr : ptr → string).
Context (ReadFrom : option Z → inbound → list byte * option error).
Context (Hcall : ∀ c f v, client _ (Func_Call c f v)).
Context (Herrors : ∀ c f v, yields nilable_error (Func_Call c f v)).

#[local] Hint Resolve harmless_client harmless_conn harmless_CloseWithStatus harmless_closeNow
  harmless_closeContext harmless_Send harmless_Complete harmless_CompleteError harmless_Pong
  harmless_ws_Reader harmless_emit : harmless.

Lemma harmless_dispatch c d msg : harmless (dispatch reflect_New (Func_Call c) d msg).
Proof. unfold dispatch. harmless. Qed.

(** With such errors the dispatcher does not panic. *)
Lemma dispatch_never_panics c d msg :
  yields (λ r, panics r = false) (dispatch reflect_New (Func_Call c) d msg).
Proof.
  unfold dispatch. destruct d as [routes|]; [|done]. destruct (routes !! _) as [route|]; [|done].
  destruct (Message_Decode _ _) as [req [e|]]; [done|].
  eapply yields_bind_mono; [apply Herrors|]. intros [res err] [isnil Hn]. cbn in Hn. rewrite Hn.
  by destruct isnil.
Qed.

Lemma harmless_dispatchMessage c d msg : harmless (dispatchMessage reflect_New Func_Call c d msg).
Proof.
  unfold dispatchMessage.
  assert (Hd : ∀ B (g : result failure (option V) → Mo B), (∀ r, panics r = false → harmless (g r)) →
    harmless (proc_bind g (dispatch reflect_New (Func_Call c) d msg))).
  { intros B g. apply harmless_bind_yields; [apply _|apply harmless_dispatch|apply dispatch_never_panics]. }
  case_match; [|case_match; [|harmless]]; apply Hd; intros [v|[e|]] Hr; by harmless.
Qed.

#[local] Hint Resolve harmless_dispatchMessage : harmless.

Lemma harmless_handle_message c (hub : hub state V) d msg :
  client_hub hub → harmless (handle_message Conn fmt_p reflect_New Func_Call c hub d msg).
Proof.
  intros []. unfold handle_message, handleProtocolPing.
  apply harmless_bind; [by apply (harmless_touch _ _ _ Hkeys)|]. intros [].
  case_match; [|case_match; [harmless|]].
  - apply harmless_bind; [harmless|]. intros [e|]; [harmless|]. case_match; [|harmless].
    apply harmless_bind; [|harmless]. apply harmless_runHandlerOperation. harmless.
  - case_match; apply harmless_runHandlerOperation; harmless.
Qed.

Lemma harmless_handle_frame c (hub : hub state V) d limit m :
  client_hub hub → harmless (handle_frame Conn fmt_p h reflect_New Func_Call ReadFrom c hub d limit m).
Proof.
  intros Hhub. unfold handle_frame. apply harmless_bind.
  - apply harmless_quiet. intros s x s' [[= -> ->]|Hin]%elem_of_cons; [by constructor|].
    apply elem_of_lookup_imap in Hin as (i & b & [= -> ->] & _). by constructor.
  - intros b. apply harmless_bind; [|intros; harmless].
    destruct (ReadFrom limit m) as [data [err|]]; [harmless|].
    pose proof (pc_decodeFrame_returns (Some (hs_protocol h)) (b ++ data)) as Hdec.
    destruct (pc_decodeFrame _ _) as [msg|[err|]]; [by apply harmless_handle_message|harmless|done].
Qed.

Lemma harmless_read_frames c (hub : hub state V) d limit inbox :
  client_hub hub →
  harmless (read_frames Conn fmt_p h reflect_New Func_Call ReadFrom c hub d limit inbox).
Proof.
  intros Hhub. induction inbox as [|m inbox IH]; cbn [read_frames]; [harmless|].
  apply harmless_bind; [harmless|]. intros [err|]; [harmless|]. case_match; [harmless|].
  apply harmless_bind; [by apply harmless_handle_frame|]. intros [err|]; [harmless|done].
Qed.

Lemma harmless_readLoop c (hub : hub state V) limit inbox :
  client_hub hub →
  harmless (readLoop Conn fmt_p h Methods reflect_New Func_Call ReadFrom c hub limit inbox).
Proof.
  intros Hhub. unfold readLoop. case_match; [by apply harmless_read_frames|].
  apply harmless_bind; [by apply harmless_lift|].
  intros [d|err]; [by apply harmless_read_frames|harmless].
Qed.

(** ** The life of a connection *)

Lemma ends_removeConnection {B} c t (g : unit → Mo B) :
  c ≠ nil → Ends (HOwner c Removed :: t) (g tt) →
  Ends (HOwner c Counted :: t) (proc_bind g (removeConnection Conn fmt_p h c)).
Proof.
  intros Hc Hg. unfold removeConnection. apply ends_assoc, (ends_remove _ _ _ Hkeys); [done|].
  intros b. destruct (negb b); [exact Hg|]. apply ends_assoc, harmless_online. intros [].
  apply harmless_wake. by intros [].
Qed.

Lemma harmless_sendConnected c : harmless (sendConnected Conn h any_of remoteAddr c).
Proof. apply harmless_Send. Qed.

Lemma harmless_disconnected c (hub : hub state V) err :
  client_hub hub → harmless (disconnected c hub err).
Proof. intros []. unfold disconnected. harmless. Qed.

(** [OnDisconnected] and what follows, when the connection is out of the registry. *)
Lemma ends_leave {A B} c (hub : hub state V) err (p : Mo A) t (g : A → Mo B) :
  client_hub hub → c ≠ nil → Ends (HOwner c Removed :: t) (proc_bind g p) →
  Ends (HOwner c Counted :: t)
    (proc_bind g (removeConnection Conn fmt_p h c ;;; disconnected c hub err ;;; p)).
Proof.
  intros Hhub Hc Hp. apply ends_assoc, ends_removeConnection; [done|].
  apply ends_assoc, harmless_disconnected; [done|]. by intros [].
Qed.

Lemma ends_serve_connection {B} c (hub : hub state V) limit inbox t (g : bool → Mo B) :
  client_hub hub → c ≠ nil →
  Ends (HOwner c Removed :: t) (g true) → Ends (HOwner c Counted :: t) (g false) →
  Ends (HOwner c Counted :: t) (proc_bind g (serve_connection Conn fmt_p h Methods reflect_New
    Func_Call any_of remoteAddr ReadFrom c hub limit inbox)).
Proof.
  intros Hhub Hc Ht Hf. unfold serve_connection. pose proof (ch_connected _ Hhub c) as Hconn.
  assert (Hend : Ends (HOwner c Removed :: t)
    (proc_bind g (_ <- on_conn c (closeNow theConn) ;;; mret true))).
  { apply ends_assoc, harmless_closeNow. by intros _. }
  apply ends_assoc, harmless_runHandlerOperation; [apply harmless_bind; [apply harmless_emit|by intros; apply harmless_client]|].
  intros [err|].
  - case_match; [|by apply ends_leave]. apply ends_assoc, harmless_closeNow. by intros _.
  - apply ends_assoc, harmless_sendConnected. intros [err|]; [by apply ends_leave|].
    apply ends_assoc, harmless_readLoop; [done|]. intros err. by apply ends_leave.
Qed.

Lemma harmless_close_unserved c : harmless (close_unserved c).
Proof. apply harmless_bind; [apply harmless_closeNow|]. intros _. apply harmless_closeContext. Qed.

Lemma ends_serve_admitted {B} c (hub : hub state V) limit inbox t (g : unit → Mo B) :
  client_hub hub → c ≠ nil → Ends t (g tt) →
  Ends (HOwner c Outside :: t) (proc_bind g (serve_admitted Conn fmt_p h Methods reflect_New
    Func_Call any_of remoteAddr ReadFrom c hub limit inbox)).
Proof.
  intros Hhub Hc Hg. unfold serve_admitted.
  assert (Hfin : Ends (HOwner c Removed :: t) (proc_bind g finishConnection)).
  { apply ends_finish, ends_forget; done. }
  apply ends_assoc, (ends_addConnection _ _ _ _ Hkeys).
  - apply ends_assoc, ends_serve_connection; [done|done|..];
      (apply ends_assoc, harmless_closeContext; intros []; apply ends_assoc).
    + exact Hfin.
    + by apply ends_removeConnection.
  - apply harmless_close_unserved. intros []. by apply ends_forget.
Qed.

Context {H : Type} (hub_of : H → hub state V) (factory : ptr → Mo (option H * option error)).
Context (Hhubs : ∀ x, client_hub (hub_of x)) (Hfactory : ∀ c, client _ (factory c)).
Context (Hqueue : 0 ≤ hs_sendQueueSize h).

Lemma harmless_ServeHTTP (x : exchange R PF) :
  x_conn x ∈ W → sp_free (x_pool x) = ∅ →
  harmless (ServeHTTP Conn fmt_p h Methods reflect_New Func_Call any_of remoteAddr ReadFrom hub_of
    factory x).
Proof.
  intros HW Hpool. unfold ServeHTTP. case_match; [apply harmless_emit|].
  apply harmless_bind; [apply harmless_reads|]. intros []; [apply harmless_emit|].
  destruct (match cfg_CheckOrigin (hs_cfg h) with Some f => negb (f (x_request x)) | None => false end);
    [apply harmless_emit|].
  destruct (x_accept x (acceptOptions h)); [apply harmless_ret|].
  apply harmless_bind; [apply harmless_emit|]. intros [].
  destruct (x_id x) as [id|]; [|apply harmless_emit].
  destruct (resolveUserID h (x_request x)) as [userID [err|]]; [apply harmless_emit|].
  intros t B g Hg. unfold serve_upgraded. apply ends_assoc, ends_new_connection; [done|..].
  - unfold fresh_connection. do 6 eexists. split; [done|]. split; [done|]. rewrite Hpool. set_solver.
  - intros Hnil. apply ends_assoc, harmless_client; [done|].
    intros [[y|] [err|]]; try (apply harmless_close_unserved; intros []; by apply ends_forget).
    by apply ends_serve_admitted.
Qed.
End requests.
