(* ===== verification/HandlerProps.v ===== *)
(** * What the handler guarantees

    The pool of everything a handler runs (requests with their writers, the
    heartbeat loop, user code, time) and the theorems about all its
    interleavings, read off the invariant of HandlerInv.v. *)

From Stdlib Require Import Ascii String.
From S2P Require Import Prelude GoStd GoText Errors Protocol Framing Proc Locks Connection.
From S2P Require Import ConnectionInv ConnectionSafety ConnectionWriter ConnectionProps.
From S2P Require Import Registry RegistryProps RegistryLocks RegistryCalls RegistryMoves.
From S2P Require Import Batch Dispatcher Config Handler HandlerInv HandlerSafety Serve ServeSafety.
From S2P Require Import RequestSafety Samples ConfigFacts DispatcherFacts.

Local Open Scope Z_scope.
Local Open Scope go_scope.

(** ** The goroutines *)

Section pools.
Context {M : Type → Type} `{!ShardMap M} {P : Type} `{!SlicePool P}.
Context {V PF : Type} `{!ExternalCodecs V} `{!SlicePool PF} {F R H : Type}.

Local Abbreviation state := (hstate M P V PF F).
Local Abbreviation Mo := (proc (hstate M P V PF F)).

(** A program that uses the package: its configuration, its hubs, its factory and
    the rest of what the source takes from outside. *)
Record program := {
  pr_handler : handlerSettings R V;
  pr_Conn : ptr → connInfo;
  pr_fmt_p : ptr → string;
  pr_Methods : goType → list (hubMethod F);
  pr_reflect_New : goType → V;
  pr_Func_Call : ptr → F → option V → Mo (reflectValue V * reflectValue error);
  pr_any_of : connectedValue → V;
  pr_remoteAddr : ptr → string;
  pr_ReadFrom : option Z → inbound → list byte * option error;
  pr_hub_of : H → hub state V;
  pr_factory : ptr → Mo (option H * option error);
}.

Context (p : program).

Definition pr_serve (x : exchange R PF) : Mo unit :=
  ServeHTTP (pr_Conn p) (pr_fmt_p p) (pr_handler p) (pr_Methods p) (pr_reflect_New p)
    (pr_Func_Call p) (pr_any_of p) (pr_remoteAddr p) (pr_ReadFrom p) (pr_hub_of p) (pr_factory p) x.

(** The writer goroutine [newConnection] starts (at most [fuel] frames). *)
Definition pr_writer (fuel : nat) (x : exchange R PF) : Mo unit :=
  on_conn (x_conn x) (writeLoop fuel theConn).

(** User code outside of callbacks, and what happens by itself. *)
Inductive bystander : Mo unit → Prop :=
| by_client q : client (pr_Conn p) (pr_fmt_p p) unit q → bystander q
| by_tick d : bystander (_ <- on_registry (run_op (pr_Conn p) (pr_fmt_p p) (OpTick d)) ;;; mret tt)
| by_cancel ctx e : bystander (modify (cancel_ctx ctx e)).

Definition handler_pool (fuel : nat) (xs : list (exchange R PF)) (others : list (Mo unit)) (s : state)
    : pool state :=
  ((pr_serve <$> xs) ++ (pr_writer fuel <$> xs)
     ++ heartbeatLoop (pr_Conn p) (pr_handler p) fuel :: others, s).

(** What the theorems ask of a program: hubs, methods and the factory use the
    exported operations, the errors of methods are of types that have nil (such as
    [error] itself), and the send queue has a size. *)
Record well_behaved : Prop := {
  wb_call c f v : client (pr_Conn p) (pr_fmt_p p) _ (pr_Func_Call p c f v);
  wb_errors c f v : yields nilable_error (pr_Func_Call p c f v);
  wb_hubs y : client_hub (pr_Conn p) (pr_fmt_p p) (pr_hub_of p y);
  wb_factory c : client (pr_Conn p) (pr_fmt_p p) _ (pr_factory p c);
  wb_queue : 0 ≤ hs_sendQueueSize (pr_handler p);
}.

(** And of its requests: the connections get distinct keys (so distinct
    addresses), and the frame pools start empty. *)
Definition requests_ok (xs : list (exchange R PF)) : Prop :=
  NoDup (connectionKey (pr_Conn p) (pr_fmt_p p) <$> (x_conn <$> xs))
  ∧ Forall (λ x, sp_free (x_pool x) = ∅) xs.
End pools.
Arguments program M P V PF F R H : clear implicits.

Section props.
Context {M : Type → Type} `{!ShardMap M} `{!ShardMapLaws M} {P : Type} `{!SlicePool P}.
Context {V PF : Type} `{!ExternalCodecs V} `{!SlicePool PF} `{!SlicePoolLaws PF} {F R H : Type}.
Context (p : program M P V PF F R H).

Local Abbreviation state := (hstate M P V PF F).
Local Abbreviation Mo := (proc (hstate M P V PF F)).
Local Abbreviation Conn := (pr_Conn p).
Local Abbreviation fmt_p := (pr_fmt_p p).

Implicit Types s : state.
Implicit Types xs : list (exchange R PF).

Definition conns_of_requests xs : gset ptr := list_to_set (x_conn <$> xs).

(** ** The start *)

Definition writer_tokens xs : list htok := (λ x, HConn (x_conn x) (TWriter WIdle)) <$> xs.

Lemma writer_tokens_other {A} (f : htok → list A) xs :
  (∀ c t, f (HConn c t) = []) → writer_tokens xs ≫= f = [].
Proof. intros Hf. induction xs; cbn; [done|]. by rewrite Hf. Qed.

Lemma writer_tokens_conn xs c :
  NoDup (x_conn <$> xs) → c ∈ x_conn <$> xs → writer_tokens xs ≫= conn_of c = [TWriter WIdle].
Proof.
  assert (Hno : ∀ xs, c ∉ x_conn <$> xs → writer_tokens xs ≫= conn_of c = []).
  { clear xs. induction xs as [|x xs IH]; cbn; [done|]. intros [Hne Hin]%not_elem_of_cons.
    rewrite (proj2 (Nat.eqb_neq c (x_conn x))) by done. by apply IH. }
  induction xs as [|x xs IH]; cbn; [by intros _ ?%not_elem_of_nil|]. intros [Hx Hnd]%NoDup_cons Hin.
  destruct (Nat.eqb_spec c (x_conn x)) as [->|Hne]; cbn; [by rewrite Hno|].
  apply IH; [done|]. by apply elem_of_cons in Hin as [?|?].
Qed.

Lemma HI_start pool now xs :
  NoDup (x_conn <$> xs) →
  HI Conn fmt_p (conns_of_requests xs) (newHandlerState pool now : state) (writer_tokens xs).
Proof.
  intros Hnd.
  assert (Hreg : ∀ c, ¬ registered (newConnectionRegistry pool now : rstate M P) c).
  { intros c (k & q & e & Hk & He & _). cbn in He. by rewrite lookup_empty in He. }
  constructor; cbn; try done.
  - exists []. split; [constructor|]. rewrite writer_tokens_other by done. apply RI_new.
  - intros c Hc%elem_of_list_to_set _. by apply writer_tokens_conn.
  - intros c a (x & ? & _)%list_elem_of_fmap. done.
  - intros c. rewrite writer_tokens_other; [cbn; lia|done].
  - intros c Hc. by destruct (Hreg c).
  - by rewrite writer_tokens_other.
  - by rewrite writer_tokens_other.
  - intros o (x & ? & _)%list_elem_of_fmap. done.
  - intros q c (x & ? & _)%list_elem_of_fmap. done.
  - intros b (x & ? & _)%list_elem_of_fmap. done.
Qed.

(** ** Every interleaving *)

Context (Hp : well_behaved p) (fuel : nat) (xs : list (exchange R PF)) (others : list (Mo unit)).
Context (Hxs : requests_ok p xs) (Hothers : Forall (bystander p) others) (pool : P) (now : Z).

Local Abbreviation W := (conns_of_requests xs).
Local Abbreviation start := (handler_pool p fuel xs others (newHandlerState pool now)).

Lemma requests_NoDup : NoDup (x_conn <$> xs).
Proof.
  destruct Hxs as [Hnd _]. by apply NoDup_fmap_1 in Hnd.
Qed.

Lemma requests_keys c c' :
  c ∈ W → c' ∈ W → connectionKey Conn fmt_p c = connectionKey Conn fmt_p c' → c = c'.
Proof.
  destruct Hxs as [Hnd _].
  intros Hc%elem_of_list_to_set Hc'%elem_of_list_to_set Hk.
  apply list_elem_of_lookup in Hc as [i Hi], Hc' as [j Hj].
  assert (i = j) as ->; [|congruence].
  eapply NoDup_lookup; [exact Hnd|by rewrite list_lookup_fmap, Hi|].
  rewrite list_lookup_fmap, Hj. cbn. by rewrite Hk.
Qed.

Lemma harmless_bystander q : bystander p q → harmless (F := F) Conn fmt_p W q.
Proof.
  intros [q' Hq|d|ctx e].
  - by apply harmless_client; [apply requests_keys|].
  - apply harmless_bind; [|intros; apply harmless_ret].
    by apply (harmless_run_op _ _ _ requests_keys).
  - by apply harmless_modify.
Qed.

Lemma handler_pool_ok : pool_ok (HI Conn fmt_p W) HG hended start.
Proof.
  exists (((λ _, []) <$> xs) ++ ((λ x, [HConn (x_conn x) (TWriter WIdle)]) <$> xs)
           ++ [] :: ((λ _, []) <$> others)). split.
  - cbn. apply Forall2_app; [|apply Forall2_app; [|constructor]].
    + apply Forall2_fmap, Forall_Forall2_diag, Forall_forall. intros x Hx.
      apply harmless_Ends; [|constructor]. destruct Hp, Hxs as [_ Hpools].
      apply harmless_ServeHTTP; try done; [apply requests_keys| |].
      * apply elem_of_list_to_set, list_elem_of_fmap. eauto.
      * rewrite Forall_forall in Hpools. by apply Hpools.
    + apply Forall2_fmap, Forall_Forall2_diag, Forall_forall. intros x Hx. apply ends_bind_ret.
      apply (ends_conn Conn fmt_p W (x_conn x) (λ _, ended) [TWriter WIdle] []).
      * apply writeLoop_safe.
      * intros [] t0 Ht. rewrite app_nil_r. cbn. destruct Ht as [->|[->| ->]]; repeat constructor.
    + apply harmless_Ends; [|constructor]. apply (harmless_heartbeatLoop _ _ _ _ requests_keys).
    + apply Forall2_fmap_l, Forall_Forall2_diag. eapply Forall_impl; [exact Hothers|].
      intros q Hq. apply harmless_Ends; [by apply harmless_bystander|constructor].
  - replace (mjoin _) with (writer_tokens xs); [apply HI_start, requests_NoDup|].
    rewrite !join_app. cbn. rewrite !mjoin_nils, app_nil_r. cbn.
    unfold writer_tokens. clear. induction xs; cbn; [done|]. by f_equal.
Qed.

(** The invariant holds in every reachable state, and between any two the
    guarantee. *)
Lemma reachable_HI c : pool_steps start c → ∃ L, HI Conn fmt_p W c.2 L.
Proof.
  intros Hc. destruct (pool_ok_steps (HI Conn fmt_p W) HG (HI_proper _ _ _) hended _ c handler_pool_ok Hc).
  by eapply pool_ok_inv.
Qed.

Lemma reachable_HG c1 c2 : pool_steps start c1 → pool_steps c1 c2 → HG c1.2 c2.2.
Proof.
  intros H1 H2.
  destruct (pool_ok_steps (HI Conn fmt_p W) HG (HI_proper _ _ _) hended _ c1 handler_pool_ok H1) as [Hok _].
  by destruct (pool_ok_steps (HI Conn fmt_p W) HG (HI_proper _ _ _) hended _ c2 Hok H2).
Qed.

(** With the wait group at zero nobody holds a connection of the registry. *)
Lemma active_zero s L : HI Conn fmt_p W s L → h_active s = 0 → ∀ conn, ¬ registered_at s conn.
Proof.
  intros HI0 Hz conn Hreg. destruct (hi_registered _ _ _ _ _ HI0 conn Hreg) as (a & Ha & Hmay).
  assert (Hin : tt ∈ L ≫= active_of).
  { apply list_elem_of_bind. exists (HOwner conn a). split; [|done]. destruct a; try done; left. }
  rewrite (hi_active _ _ _ _ _ HI0) in Hz. unfold zlen in Hz.
  destruct (L ≫= active_of); [by apply not_elem_of_nil in Hin|done].
Qed.

(** ** Theorems *)

(** C11. The wait group counts the requests that were admitted: in every
    reachable state its counter is not negative (no interleaving panics), and
    when it is zero no connection is left in the registry. *)
Theorem wait_group_covers_registry c (Hc : pool_steps start c) :
  h_panicked c.2 = false ∧ 0 ≤ h_active c.2
  ∧ (h_active c.2 = 0 → ∀ conn, ¬ registered_at c.2 conn).
Proof.
  destruct (reachable_HI c Hc) as [L HI0]. split_and!; [apply HI0| |].
  - rewrite (hi_active _ _ _ _ _ HI0). apply zlen_nonneg.
  - by eapply active_zero.
Qed.

(** C2. No connection slips past a shutdown: once [beginShutdown] has released the
    admission mutex, every connection in the registry, whenever its request
    came, has begun to drain, so it takes no further operations. *)
Theorem shutdown_misses_nobody c (Hc : pool_steps start c)
    (Hdown : h_shuttingDown c.2 = true) (Hmu : h_admissionMu c.2 = false) conn :
  registered_at c.2 conn → draining_at c.2 conn.
Proof.
  destruct (reachable_HI c Hc) as [L HI0]. destruct (hi_drained _ _ _ _ _ HI0 Hdown) as [[o Ho]|Hall].
  - pose proof (hi_admit _ _ _ _ _ HI0) as Ha. rewrite Hmu in Ha. apply Permutation_nil_r in Ha.
    assert (Hin : true ∈ L ≫= admit_of) by (apply list_elem_of_bind; exists (HDraining o); by split; [left|]).
    rewrite Ha in Hin. by apply not_elem_of_nil in Hin.
  - apply Hall.
Qed.

(** C12. Shutting down is final: from a state that shuts down to any later one the
    flag stays set, no request is admitted (the wait group never grows) and no
    connection enters the registry. *)
Theorem shutdown_admits_nobody c1 c2 (H1 : pool_steps start c1) (H2 : pool_steps c1 c2)
    (Hdown : h_shuttingDown c1.2 = true) :
  h_shuttingDown c2.2 = true ∧ h_active c2.2 ≤ h_active c1.2
  ∧ ∀ conn, registered_at c2.2 conn → registered_at c1.2 conn.
Proof. exact (reachable_HG c1 c2 H1 H2 Hdown). Qed.

Lemma done_empty c :
  pool_steps start c → h_shutdownOnce c.2 = OnceDone None →
  h_shuttingDown c.2 = true ∧ h_active c.2 = 0 ∧ ∀ conn, ¬ registered_at c.2 conn.
Proof.
  intros Hc Hdone.
  destruct (reachable_HI c Hc) as [L HI0]. destruct (hi_done _ _ _ _ _ HI0 Hdone) as [Hs Hz].
  split_and!; [done|done|]. by eapply active_zero.
Qed.

(** C1. A shutdown that reports success is complete: when [Shutdown] has returned nil, the
    handler still rejects requests, no admitted request is running and the
    registry is empty, in that state and in all later ones. *)
Theorem shutdown_complete c (Hc : pool_steps start c)
    (Hdone : h_shutdownOnce c.2 = OnceDone None) :
  h_shuttingDown c.2 = true ∧ h_active c.2 = 0 ∧ ∀ conn, ¬ registered_at c.2 conn.
Proof. by apply done_empty. Qed.

(** C21. The parts keep their guarantees inside the whole: in every reachable
    state of a handler with any requests and user code, every connection's
    operation counters are right (its done channel is closed exactly when no
    operation runs, and never twice), and the registry is well filed and holds only
    connections that exist, under their own keys. *)
Theorem parts_keep_guarantees c (Hc : pool_steps start c) :
  (∀ conn cs, h_conns c.2 !! conn = Some cs →
     panicked (c_ops cs) = false ∧ 0 ≤ activeHandlers (c_ops cs) ≤ activeOps (c_ops cs)
     ∧ (opsDone (c_ops cs) ∈ closedChans (c_ops cs) ↔ activeOps (c_ops cs) = 0))
  ∧ well_filed Conn fmt_p (h_registry c.2)
  ∧ ∀ conn, registered_at c.2 conn → is_Some (h_conns c.2 !! conn).
Proof.
  destruct (reachable_HI c Hc) as [L HI0]. split_and!.
  - intros conn cs Hcs. destruct (inv_ops _ _ (hi_conns _ _ _ _ _ HI0 conn cs Hcs))
      as (Hpan & Hh & Hn & Hle & _ & _ & Hdone).
    rewrite Hh, Hn. split_and!; try done; lia.
  - destruct (hi_reg _ _ _ _ _ HI0) as (kn & _ & HR). by eapply RI_well_filed.
  - intros conn (k & q & e & _ & He & <-). by eapply (hi_entries _ _ _ _ _ HI0).
Qed.
End props.

(** ** A sample program *)

(** Two clients of a hub that puts them in a group and echoes; requests and
    callbacks of a concrete program. *)
Definition server_conn (c : ptr) : connInfo :=
  {| ID := if Nat.eqb c 1 then "a" else "b"; UserID := "" |}.

Definition server_fmt (c : ptr) : string := "0x".

Local Abbreviation server_state := (hstate (gmap string) unit (list byte) unit nat).

Definition server_hub (_ : unit) : hub server_state (list byte) :=
  {| hub_type := TNamed "Hub" KStruct false;
     OnConnected c :=
       _ <- on_registry (run_op server_conn server_fmt (OpAddToGroup c "room")) ;;;
       mret None;
     OnDisconnected c err := mret tt;
     OnMessage := None;
     OnPing := None |}.

Definition server_program : program (gmap string) unit (list byte) unit nat unit unit :=
  {| pr_handler := sample_settings;
     pr_Conn := server_conn; pr_fmt_p := server_fmt;
     pr_Methods t := sample_methods;
     pr_reflect_New t := [];
     pr_Func_Call c f req := mret (echoed (default [] req), no_error);
     pr_any_of v := [x01];
     pr_remoteAddr c := "";
     pr_ReadFrom limit m := (in_data m, None);
     pr_hub_of := server_hub;
     pr_factory c := mret (Some tt, None) |}.

Definition server_request (c : ptr) (id : string) (inbox : list inbound) : exchange unit unit :=
  {| x_request := tt; x_path := Some "/api/ws"; x_accept _ := None; x_id := Ok id;
     x_conn := c; x_pool := tt; x_inbox := inbox |}.

Definition server_requests : list (exchange unit unit) :=
  [server_request 1 "a" []; server_request 2 "b" []].

Definition server_others : list (proc server_state unit) :=
  [_ <- Shutdown (Some 0%nat) ;;; mret tt; modify (cancel_ctx 0 Canceled)].

Lemma server_well_behaved : well_behaved server_program.
Proof.
  constructor.
  - intros. apply client_ret.
  - intros c f v. by exists true.
  - intros []. constructor; try done.
    + intros c. apply client_bind; [by apply (client_registry _ _ (OpAddToGroup c "room"))|]. intros. apply client_ret.
    + intros c err. apply client_ret.
  - intros. apply client_ret.
  - done.
Qed.

Lemma server_requests_ok : requests_ok server_program server_requests.
Proof.
  split; [|by repeat constructor]. apply (bool_decide_unpack _). by vm_compute.
Qed.

Lemma server_others_ok : Forall (bystander server_program) server_others.
Proof.
  constructor; [apply by_client|constructor; [apply by_cancel|constructor]].
  apply client_bind; [apply client_shutdown|]. intros. apply client_ret.
Qed.

Definition server_pool : pool server_state :=
  handler_pool server_program 3 server_requests server_others (newHandlerState tt 1000).

(** The first client is connected and in the group; then the handler shuts down
    and waits; then the writer and the request finish and shutdown returns. *)
Definition server_draining_run : list (nat * nat) := repeat (0, 0)%nat 43 ++ repeat (5, 0)%nat 9.
Definition server_done_run : list (nat * nat) :=
  repeat (2, 0)%nat 5 ++ repeat (0, 0)%nat 21 ++ repeat (5, 0)%nat 5.

Definition server_draining := run_to server_draining_run server_pool.
Definition server_done := run_to server_done_run server_draining.

(** The only connection in the registry. *)
Lemma server_draining_registered : registered_at server_draining.2 1%nat.
Proof.
  exists "a"%string, 1%nat, (entry_at (h_registry server_draining.2) 1%nat).
  by vm_compute.
Qed.

Lemma wait_group_covers_registry_witness :
  possible server_draining_run server_pool = true ∧ h_active server_draining.2 = 1
  ∧ h_panicked server_draining.2 = false.
Proof.
  split; [by vm_compute|]. split; [by vm_compute|].
  apply (wait_group_covers_registry server_program server_well_behaved 3 server_requests server_others
    server_requests_ok server_others_ok tt 1000 server_draining (run_to_steps _ _)).
Defined.

Lemma shutdown_misses_nobody_witness :
  registered_at server_draining.2 1%nat ∧ draining_at server_draining.2 1%nat.
Proof.
  split; [exact server_draining_registered|].
  apply (shutdown_misses_nobody server_program server_well_behaved 3 server_requests server_others
    server_requests_ok server_others_ok tt 1000 server_draining (run_to_steps _ _)).
  - by vm_compute.
  - by vm_compute.
  - exact server_draining_registered.
Defined.

Lemma server_done_steps : pool_steps server_pool server_done.
Proof. etransitivity; apply run_to_steps. Qed.

Lemma shutdown_admits_nobody_witness :
  possible server_done_run server_draining = true ∧ h_active server_draining.2 = 1
  ∧ h_active server_done.2 = 0 ∧ h_active server_done.2 ≤ h_active server_draining.2.
Proof.
  split; [by vm_compute|]. split; [by vm_compute|]. split; [by vm_compute|].
  apply (shutdown_admits_nobody server_program server_well_behaved 3 server_requests server_others
    server_requests_ok server_others_ok tt 1000 server_draining server_done (run_to_steps _ _)
    (run_to_steps _ _)).
  by vm_compute.
Defined.

Lemma shutdown_complete_witness :
  h_shutdownOnce server_done.2 = OnceDone None ∧ ¬ registered_at server_done.2 1%nat.
Proof.
  assert (H : h_shutdownOnce server_done.2 = OnceDone None) by by vm_compute.
  split; [exact H|].
  apply (shutdown_complete server_program server_well_behaved 3 server_requests server_others
    server_requests_ok server_others_ok tt 1000 server_done server_done_steps H).
Defined.

Lemma parts_keep_guarantees_witness :
  is_Some (h_conns server_draining.2 !! 1%nat)
  ∧ well_filed server_conn server_fmt (h_registry server_draining.2).
Proof.
  destruct (parts_keep_guarantees server_program server_well_behaved 3 server_requests server_others
    server_requests_ok server_others_ok tt 1000 server_draining (run_to_steps _ _)) as (_ & Hfiled & Hreg).
  split; [apply Hreg, server_draining_registered|exact Hfiled].
Defined.
