(* ===== verification/HandlerAPI.v ===== *)
(** * The calls a handler exports (server.go, batch_send.go, batch_close.go)

    Sends and closes in bulk check the message and the shutdown flag, take a
    snapshot of the registry and end in the batch of Batch.v; groups and
    lookups go to the registry.  A receiver may be nil. *)

From Stdlib Require Import Ascii String.
From S2P Require Import Prelude GoStd GoText Errors Protocol Framing Proc Connection.
From S2P Require Import Registry Batch Dispatcher Config Handler.

Local Open Scope Z_scope.
Local Open Scope go_scope.

(** ** The message of a batch *)

Section payload.
Context {V : Type} `{!ExternalCodecs V}.

(** [h.protocol] may be nil. *)
Definition prepareBatchPayload (protocol : option (protocolConfig V)) (method : string)
    (body : option V) : result error (list byte) :=
  match protocol with
  | None => Err (ErrUnsupportedCodec : error)
  | Some _ =>
      match validateProtocolFrame FrameKindMessage method "" with
      | Some err => Err err
      | None =>
          let '(payload, err) := pc_marshalAppend protocol [] body in
          match err with
          | Some err => Err err
          | None =>
              match pc_ensurePayloadSize protocol (zlen payload) with
              | Some err => Err err
              | None => Ok payload
              end
          end
      end
  end.

Definition prepareBatchRawPayload (protocol : option (protocolConfig V)) (method : string)
    (payload : list byte) : option error :=
  match protocol with
  | None => Some (ErrUnsupportedCodec : error)
  | Some _ =>
      match validateProtocolFrame FrameKindMessage method "" with
      | Some err => Some err
      | None => pc_ensurePayloadSize protocol (zlen payload)
      end
  end.
End payload.

(** ** Outcomes *)

(** [SendResult{}] and [SendResult{Err: err}]. *)
Definition zeroSendResult : SendResult :=
  {| sr_Matched := 0; sr_Sent := 0; sr_Failed := 0; sr_Err := None |}.
Definition send_failed (err : error) : SendResult :=
  {| sr_Matched := 0; sr_Sent := 0; sr_Failed := 0; sr_Err := Some err |}.

Definition zeroCloseResult : CloseResult :=
  {| cr_Matched := 0; cr_Closed := 0; cr_Failed := 0; cr_Err := None |}.
Definition close_failed (err : error) : CloseResult :=
  {| cr_Matched := 0; cr_Closed := 0; cr_Failed := 0; cr_Err := Some err |}.

(** A call returns before its batch, or ends in [sendConnections] on a snapshot. *)
Inductive send_call :=
| SendReturns (r : SendResult)
| SendsTo (snapshot : connSlice) (method : string) (payload : list byte).

Inductive close_call :=
| CloseReturns (r : CloseResult)
| Closes (snapshot : connSlice).

Section api.
Context {M : Type → Type} `{!ShardMap M} {P : Type} `{!SlicePool P}.
Context {V PF : Type} `{!ExternalCodecs V} `{!SlicePool PF} {F R : Type}.
Context (Conn : ptr → connInfo) (fmt_p : ptr → string).

Local Abbreviation state := (hstate M P V PF F).
Local Abbreviation Mo := (proc (hstate M P V PF F)).
Local Abbreviation handler := (option (handlerSettings R V)).

(** What the call returns: [sendConnections] with the handler's workers and the
    context as the call finds it. *)
Definition send_result (h : handlerSettings R V) (ctx : option error) (c : send_call)
    (r : SendResult) : Prop :=
  match c with
  | SendReturns r' => r = r'
  | SendsTo snapshot _ _ => sendConnections (hs_sendConcurrency h) ctx (cs_conns snapshot) r
  end.

Definition close_result (h : handlerSettings R V) (ctx : option error) (c : close_call)
    (r : CloseResult) : Prop :=
  match c with
  | CloseReturns r' => r = r'
  | Closes snapshot => closeConnections (hs_sendConcurrency h) ctx (cs_conns snapshot) r
  end.

(** [defer snapshot.release()]. *)
Definition release (snapshot : connSlice) : Mo unit := on_registry (putConnectionSlice snapshot).

(** ** Sends *)

(** The end of every send: the flag, then the snapshot. *)
Definition send_snapshot (take : proc (rstate M P) connSlice) (method : string)
    (payload : list byte) : Mo send_call :=
  down <- reads h_shuttingDown ;;;
  if down : bool then mret (SendReturns (send_failed ErrHandlerShuttingDown))
  else
    snapshot <- on_registry take ;;;
    mret (SendsTo snapshot method payload).

Definition SendUsers (h : handler) (userIDs : list string) (method : string) (body : option V)
    : Mo send_call :=
  match h with
  | None => mret (SendReturns zeroSendResult)
  | Some h =>
      match prepareBatchPayload (Some (hs_protocol h)) method body with
      | Err err => mret (SendReturns (send_failed err))
      | Ok payload => send_snapshot (userSnapshotPooled userIDs) method payload
      end
  end.

Definition SendUsersRaw (h : handler) (userIDs : list string) (method : string)
    (payload : list byte) : Mo send_call :=
  match h with
  | None => mret (SendReturns zeroSendResult)
  | Some h =>
      match prepareBatchRawPayload (Some (hs_protocol h)) method payload with
      | Some err => mret (SendReturns (send_failed err))
      | None => send_snapshot (userSnapshotPooled userIDs) method payload
      end
  end.

Definition sendConnectionsRaw (h : handlerSettings R V) (connectionIDs : list string)
    (method : string) (payload : list byte) : Mo send_call :=
  match prepareBatchRawPayload (Some (hs_protocol h)) method payload with
  | Some err => mret (SendReturns (send_failed err))
  | None => send_snapshot (connectionSnapshotPooled connectionIDs) method payload
  end.

Definition SendConnectionsRaw (h : handler) (connectionIDs : list string) (method : string)
    (payload : list byte) : Mo send_call :=
  match h with
  | None => mret (SendReturns zeroSendResult)
  | Some h => sendConnectionsRaw h connectionIDs method payload
  end.

Definition SendGroup (h : handler) (group method : string) (body : option V) : Mo send_call :=
  match h with
  | None => mret (SendReturns zeroSendResult)
  | Some h =>
      let group := normalizeGroup group in
      if (group =? "")%string then mret (SendReturns (send_failed ErrInvalidGroup))
      else
        match prepareBatchPayload (Some (hs_protocol h)) method body with
        | Err err => mret (SendReturns (send_failed err))
        | Ok payload => send_snapshot (groupConnectionsPooled group) method payload
        end
  end.

Definition SendGroupRaw (h : handler) (group method : string) (payload : list byte)
    : Mo send_call :=
  match h with
  | None => mret (SendReturns zeroSendResult)
  | Some h =>
      let group := normalizeGroup group in
      if (group =? "")%string then mret (SendReturns (send_failed ErrInvalidGroup))
      else
        match prepareBatchRawPayload (Some (hs_protocol h)) method payload with
        | Some err => mret (SendReturns (send_failed err))
        | None => send_snapshot (groupConnectionsPooled group) method payload
        end
  end.

Definition SendAll (h : handler) (method : string) (body : option V) : Mo send_call :=
  match h with
  | None => mret (SendReturns zeroSendResult)
  | Some h =>
      match prepareBatchPayload (Some (hs_protocol h)) method body with
      | Err err => mret (SendReturns (send_failed err))
      | Ok payload => send_snapshot allConnectionsPooled method payload
      end
  end.

Definition SendAllRaw (h : handler) (method : string) (payload : list byte) : Mo send_call :=
  match h with
  | None => mret (SendReturns zeroSendResult)
  | Some h =>
      match prepareBatchRawPayload (Some (hs_protocol h)) method payload with
      | Some err => mret (SendReturns (send_failed err))
      | None => send_snapshot allConnectionsPooled method payload
      end
  end.

(** ** Closes *)

Definition close_snapshot (take : proc (rstate M P) connSlice) : Mo close_call :=
  down <- reads h_shuttingDown ;;;
  if down : bool then mret (CloseReturns (close_failed ErrHandlerShuttingDown))
  else
    snapshot <- on_registry take ;;;
    mret (Closes snapshot).

Definition CloseUsers (h : handler) (userIDs : list string) : Mo close_call :=
  match h with
  | None => mret (CloseReturns zeroCloseResult)
  | Some _ => close_snapshot (userSnapshotPooled userIDs)
  end.

Definition CloseConnections (h : handler) (connectionIDs : list string) : Mo close_call :=
  match h with
  | None => mret (CloseReturns zeroCloseResult)
  | Some _ => close_snapshot (connectionSnapshotPooled connectionIDs)
  end.

(** ** Lookups and groups *)

Definition UserOnline (h : handler) (userID : string) : Mo Z :=
  match h with
  | None => mret 0
  | Some _ => if (userID =? "")%string then mret 0 else on_registry (userOnline userID)
  end.

Definition UserConnections (h : handler) (userID : string) : Mo (list ptr) :=
  match h with
  | None => mret []
  | Some _ => if (userID =? "")%string then mret [] else on_registry (userConnections userID)
  end.

Definition AddToGroup (h : handler) (conn : ptr) (group : string) : Mo (option error) :=
  match h with
  | None => mret (Some (ErrConnectionNotFound : error))
  | Some _ => on_registry (addToGroup Conn fmt_p conn group)
  end.

Definition RemoveFromGroup (h : handler) (conn : ptr) (group : string) : Mo (option error) :=
  match h with
  | None => mret (Some (ErrConnectionNotFound : error))
  | Some _ => on_registry (removeFromGroup Conn fmt_p conn group)
  end.

Definition RemoveFromAllGroups (h : handler) (conn : ptr) : Mo unit :=
  match h with
  | None => mret tt
  | Some _ => on_registry (removeFromAllGroups Conn fmt_p conn)
  end.

Definition GroupOnline (h : handler) (group : string) : Mo Z :=
  match h with
  | None => mret 0
  | Some _ =>
      let group := normalizeGroup group in
      if (group =? "")%string then mret 0 else on_registry (groupOnline group)
  end.

Definition GroupConnections (h : handler) (group : string) : Mo (list ptr) :=
  match h with
  | None => mret []
  | Some _ =>
      let group := normalizeGroup group in
      if (group =? "")%string then mret [] else on_registry (groupConnections group)
  end.
End api.
