(* ===== verification/HandlerRuns.v ===== *)
(** * Running one method of a handler alone

    Total correctness of programs lifted from the registry and from a connection
    to the handler's store. *)

From Stdlib Require Import Ascii String.
From S2P Require Import Prelude GoStd GoText Errors Protocol Framing Samples Proc Connection ConnectionProps.
From S2P Require Import Registry RegistrySpec RegistryOps RegistryReads RegistryProps.
From S2P Require Import Batch Dispatcher Config Handler.

Local Open Scope Z_scope.
Local Open Scope go_scope.

Section runs.
Context {M : Type → Type} `{!ShardMap M} {P : Type} `{!SlicePool P}.
Context {V PF : Type} `{!ExternalCodecs V} `{!SlicePool PF} {F R : Type}.

Local Abbreviation state := (hstate M P V PF F).

Implicit Types s : state.

Lemma set_conns_same s : set_conns (h_conns s) s = s.
Proof. by destruct s. Qed.

Lemma twp_on_registry {A} (p : proc (rstate M P) A) (Q : A → state → Prop) s :
  twp p (λ a r, Q a (set_registry r s)) (h_registry s) → twp (on_registry p) Q s.
Proof.
  revert s. induction p as [a|X f k IH]; intros s; cbn; [by rewrite set_registry_same|].
  intros [Hne H]. split.
  - destruct (f (h_registry s)); [by destruct Hne|done].
  - intros x s' ([x' r] & [= -> ->] & Hin)%list_elem_of_fmap. by apply IH, H.
Qed.

Lemma twp_on_conn {A} conn (p : proc (cstate V PF) A) (Q : A → state → Prop) s c :
  h_conns s !! conn = Some c →
  twp p (λ a c', Q a (set_conns (<[conn := c']> (h_conns s)) s)) c →
  twp (on_conn conn p) Q s.
Proof.
  revert s c. induction p as [a|X f k IH]; intros s c Hc; cbn.
  - by rewrite insert_id, set_conns_same.
  - rewrite Hc. intros [Hne H]. split; [destruct (f c); [by destruct Hne|done]|].
    intros x s' ([x' c'] & [= -> ->] & Hin)%list_elem_of_fmap.
    apply (IH x' _ c'); [cbn; by rewrite lookup_insert_eq|].
    eapply twp_mono; [by apply H|]. intros a c2 HQ. cbn. by rewrite insert_insert_eq.
Qed.
End runs.

(** ** Shutdown *)

Section shutdown.
Context {M : Type → Type} `{!ShardMap M} `{!ShardMapLaws M} {P : Type} `{!SlicePool P}.
Context {V PF : Type} `{!ExternalCodecs V} `{!SlicePool PF} {F : Type}.
Context (Conn : ptr → connInfo) (fmt_p : ptr → string).

Local Abbreviation state := (hstate M P V PF F).
Local Abbreviation Mo := (proc (hstate M P V PF F)).

Implicit Types s : state.

(** A connection that is cut off: its context is done (if it can be) and its
    socket closed. *)
Definition cut_off (c : cstate V PF) : Prop :=
  (c_hasCancel c = true → is_Some (c_ctx c)) ∧ ∀ w, c_ws c = Some w → ws_closed w = true.

Definition conn_with (Q : cstate V PF → Prop) s (conn : ptr) : Prop :=
  ∃ c, h_conns s !! conn = Some c ∧ Q c.

(** From [s] to [s'] only connections moved, and none was reopened. *)
Definition conns_close s s' : Prop :=
  s' = set_conns (h_conns s') s
  ∧ ∀ conn c, h_conns s !! conn = Some c → conn_with (λ c',
      (draining (c_ops c) = true → draining (c_ops c') = true) ∧ (cut_off c → cut_off c')) s' conn.

#[export] Instance conns_close_PreOrder : PreOrder conns_close.
Proof.
  split.
  - intros s. split; [by rewrite set_conns_same|]. intros conn c Hc. by exists c.
  - intros s1 s2 s3 [E1 H1] [E2 H2]. split.
    + rewrite E2, E1. by destruct s1.
    + intros conn c (c2 & Hc2 & Hd2 & Hk2)%H1.
      destruct (H2 conn c2 Hc2) as (c3 & Hc3 & Hd3 & Hk3). exists c3. split; [done|]. split; auto.
Qed.

Lemma conns_close_draining s s' conn :
  conns_close s s' → conn_with (λ c, draining (c_ops c) = true) s conn →
  conn_with (λ c, draining (c_ops c) = true) s' conn.
Proof. intros [_ H] (c & Hc & Hd). destruct (H conn c Hc) as (c' & ? & ? & _). exists c'. auto. Qed.

Lemma conns_close_cut s s' conn :
  conns_close s s' → conn_with cut_off s conn → conn_with cut_off s' conn.
Proof. intros [_ H] (c & Hc & Hd). destruct (H conn c Hc) as (c' & ? & _ & ?). exists c'. auto. Qed.

Lemma conns_close_some s s' conn :
  conns_close s s' → is_Some (h_conns s !! conn) → is_Some (h_conns s' !! conn).
Proof. intros [_ H] [c Hc]. by destruct (H conn c Hc) as (c' & -> & _). Qed.

(** One connection moves. *)
Lemma conns_close_insert s conn c c' :
  h_conns s !! conn = Some c →
  (draining (c_ops c) = true → draining (c_ops c') = true) → (cut_off c → cut_off c') →
  conns_close s (set_conns (<[conn := c']> (h_conns s)) s).
Proof.
  intros Hc Hd Hk. split; [done|]. intros conn2 c2 Hc2. unfold conn_with. cbn.
  destruct (decide (conn = conn2)) as [<-|Hne].
  - rewrite lookup_insert_eq. replace c2 with c by congruence. eauto.
  - rewrite lookup_insert_ne by done. eauto.
Qed.

Lemma twp_drain_conn s conn :
  is_Some (h_conns s !! conn) →
  twp (on_conn conn (beginDrain theConn)) (λ _ s', conns_close s s'
    ∧ conn_with (λ c, draining (c_ops c) = true) s' conn) s.
Proof.
  intros [c Hc]. eapply twp_on_conn; [exact Hc|]. apply twp_atomically. cbn. split.
  - by eapply conns_close_insert.
  - eexists. cbn. by rewrite lookup_insert_eq.
Qed.

Lemma twp_cut_conn s conn :
  is_Some (h_conns s !! conn) →
  twp (on_conn conn (closeContext theConn) ;;; on_conn conn (closeNow theConn) ;;; mret tt)
    (λ _ s', conns_close s s' ∧ conn_with cut_off s' conn) s.
Proof.
  intros [c Hc]. apply twp_bind. eapply twp_on_conn; [exact Hc|]. apply twp_modify.
  set (c1 := if negb _ then c else _).
  assert (H1 : draining (c_ops c1) = draining (c_ops c) ∧ c_ws c1 = c_ws c
    ∧ (c_hasCancel c1 = true → is_Some (c_ctx c1))).
  { unfold c1. destruct (c_hasCancel c) eqn:Eh; cbn; [|by rewrite Eh].
    destruct (c_ctx c) eqn:Ec; cbn; rewrite ?Ec; eauto. }
  destruct H1 as (Hd1 & Hw1 & Hk1).
  assert (Hc1 : h_conns (set_conns (<[conn := c1]> (h_conns s)) s) !! conn = Some c1)
    by apply lookup_insert_eq.
  assert (C1 : conns_close s (set_conns (<[conn := c1]> (h_conns s)) s)).
  { eapply conns_close_insert; [exact Hc|by rewrite Hd1|]. intros [_ Hw]. split; [done|].
    by rewrite Hw1. }
  apply twp_bind. eapply twp_on_conn; [exact Hc1|]. cbn -[set_conns]. unfold ws_close. rewrite Hw1.
  assert (Hgoal : ∀ c2, draining (c_ops c2) = draining (c_ops c) → cut_off c2 →
    conns_close s (set_conns (<[conn := c2]> (<[conn := c1]> (h_conns s))) s)
    ∧ conn_with cut_off (set_conns (<[conn := c2]> (<[conn := c1]> (h_conns s))) s) conn).
  { intros c2 Hd2 Hk2. rewrite insert_insert_eq. split.
    - eapply conns_close_insert; [exact Hc|by rewrite Hd2|done].
    - exists c2. split; [apply lookup_insert_eq|done]. }
  destruct (c_ws c) as [w|] eqn:Ew; (split; [done|]); intros x c2 Hin;
    rewrite ?list_elem_of_singleton, ?elem_of_cons, ?elem_of_nil in Hin.
  - assert (c2 = set_ws (Some {| ws_written := ws_written w; ws_closed := true |}) c1) as ->
      by naive_solver.
    apply Hgoal; [done|]. split; [done|]. by intros w' [= <-].
  - injection Hin as -> ->. apply Hgoal; [done|]. split; [done|]. congruence.
Qed.
(** The connections of [l] exist. *)
Definition present s (l : list ptr) : Prop := ∀ conn, conn ∈ l → is_Some (h_conns s !! conn).

Lemma present_close s s' l : conns_close s s' → present s l → present s' l.
Proof. intros Hs Hl conn Hin. eapply conns_close_some; [exact Hs|by apply Hl]. Qed.

Lemma twp_drain_all s l :
  present s l →
  twp (fold_each l [] (λ connections conn,
         done <- on_conn conn (beginDrain theConn) ;;;
         mret (connections ++ [(conn, done)])))
    (λ ds s', ds.*1 = l ∧ conns_close s s'
       ∧ ∀ conn, conn ∈ l → conn_with (λ c, draining (c_ops c) = true) s' conn) s.
Proof.
  intros Hl.
  eapply (twp_fold_each _ _ _ (λ d ds s', ds.*1 = d ∧ conns_close s s'
    ∧ ∀ conn, conn ∈ d → conn_with (λ c, draining (c_ops c) = true) s' conn)).
  - split; [done|]. split; [reflexivity|]. by intros conn ?%not_elem_of_nil.
  - intros d conn rest ds s1 Hsplit (Hds & Hs1 & Hd). apply twp_bind.
    eapply twp_mono; [apply twp_drain_conn; eapply conns_close_some; [exact Hs1|]; apply Hl; set_solver|].
    intros n s2 [Hs2 Hc]. split; [by rewrite fmap_app, Hds|]. split; [by etransitivity|].
    intros conn' [Hin|[= ->]%list_elem_of_singleton]%elem_of_app; [|done].
    eapply conns_close_draining; [exact Hs2|by apply Hd].
Qed.

Lemma twp_cut_all s (ds : list drainingConnection) :
  present s ds.*1 →
  twp (closeDrainingConnections ds)
    (λ _ s', conns_close s s' ∧ ∀ conn, conn ∈ ds.*1 → conn_with cut_off s' conn) s.
Proof.
  intros Hl.
  eapply (twp_for_each _ _ (λ d s', conns_close s s' ∧ ∀ conn, conn ∈ d.*1 → conn_with cut_off s' conn)).
  - split; [reflexivity|]. by intros conn ?%not_elem_of_nil.
  - intros d [conn n] rest s1 Hsplit (Hs1 & Hd).
    eapply twp_mono; [apply twp_cut_conn; eapply conns_close_some; [exact Hs1|]; apply Hl; subst; set_solver|].
    intros [] s2 [Hs2 Hc]. split; [by etransitivity|].
    intros conn' Hin. rewrite fmap_app in Hin.
    apply elem_of_app in Hin as [Hin|[= ->]%list_elem_of_singleton]; [|done].
    eapply conns_close_cut; [exact Hs2|by apply Hd].
Qed.

(** Waiting with a context that is done, or for nothing. *)
Lemma twp_wait_drained ctx (ds : list drainingConnection) s :
  is_Some (ctx_done ctx s) ∨ ds = [] →
  twp (waitConnectionsDrained ctx ds) (λ r s', s' = s ∧ (r = None ∨ r = ctx_done ctx s)) s.
Proof.
  intros [[e He]| ->]; [|by split; [|left]].
  induction ds as [|d ds IH]; cbn [waitConnectionsDrained]; [by split; [|left]|].
  apply twp_bind. cbn. rewrite He. split; [by destruct (drained d s)|]. intros r s' Hin.
  apply elem_of_app in Hin as [Hin|[= -> ->]%list_elem_of_singleton]; [|by split; [|right]].
  destruct (drained d s); [|by apply not_elem_of_nil in Hin].
  apply list_elem_of_singleton in Hin as [= -> ->]. by rewrite He in IH.
Qed.

Lemma twp_wait_active ctx s :
  is_Some (ctx_done ctx s) ∨ h_active s = 0 →
  twp (wait_active ctx)
    (λ r s', s' = s ∧ (r = None ∧ h_active s = 0 ∨ ∃ e, r = Some e ∧ ctx_done ctx s = Some e)) s.
Proof.
  intros H. cbn. split.
  - destruct H as [[e ->]| ->]; [by destruct (_ =? _)|done].
  - intros r s' Hin. apply elem_of_app in Hin as [Hin|Hin].
    + destruct (Z.eqb_spec (h_active s) 0); [|by apply not_elem_of_nil in Hin].
      apply list_elem_of_singleton in Hin as [= -> ->]. auto.
    + destruct (ctx_done ctx s) as [e|]; [|by apply not_elem_of_nil in Hin].
      apply list_elem_of_singleton in Hin as [= -> ->]. eauto.
Qed.
Lemma twp_beginShutdown A s :
  h_admissionMu s = false → RegOk Conn fmt_p (h_registry s) A → present s (conns_of A) →
  twp beginShutdown
    (λ ds s', ds.*1 ≡ₚ conns_of A
       ∧ (∃ r, RegOk Conn fmt_p r A ∧ conns_close (set_registry r (set_shuttingDown true s)) s')
       ∧ ∀ conn, conn ∈ conns_of A → conn_with (λ c, draining (c_ops c) = true) s' conn) s.
Proof.
  intros Hmu HR Hl. apply twp_bind. cbn -[allConnections fold_each]. rewrite Hmu. split; [done|].
  intros [] s1 [= ->]%list_elem_of_singleton. split; [done|].
  intros [] s1 [= ->]%list_elem_of_singleton.
  apply twp_bind, twp_on_registry. cbn [h_registry set_shuttingDown set_admissionMu].
  eapply twp_mono; [by eapply twp_allConnections|]. intros l r [Hlp Hr].
  assert (HR1 : RegOk Conn fmt_p r A) by by eapply RegOk_same.
  apply twp_bind. eapply twp_mono; [apply twp_drain_all|].
  - intros conn. rewrite Hlp. apply Hl.
  - intros ds s2 (Hds & [E2 H2] & Hd). split; [done|]. intros [] s3 [= ->]%list_elem_of_singleton.
    split; [by rewrite Hds|]. split.
    + exists r. split; [done|]. split; [rewrite E2; destruct s; cbn in *; by subst|exact H2].
    + intros conn Hin. rewrite <- Hlp in Hin. exact (Hd conn Hin).
Qed.

(** What a shutdown of the connections of [A] from [s] leaves behind. *)
Record shut_down ctx A s (err : option error) s' : Prop := {
  sd_result : err = None ∧ h_active s' = 0 ∨ ∃ e, err = Some e ∧ ctx_done ctx s = Some e;
  sd_down : h_shuttingDown s' = true;
  sd_stopped : h_heartbeatStop s' = true;
  sd_panicked : h_panicked s' = false;
  sd_mu : h_admissionMu s' = false;
  sd_registry : RegOk Conn fmt_p (h_registry s') A;
  sd_conns conn : conn ∈ conns_of A →
    conn_with (λ c, draining (c_ops c) = true ∧ cut_off c) s' conn;
}.

Lemma conns_close_fields s s' :
  conns_close s s' →
  h_registry s' = h_registry s ∧ h_admissionMu s' = h_admissionMu s ∧ h_active s' = h_active s
  ∧ h_shuttingDown s' = h_shuttingDown s ∧ h_heartbeatStop s' = h_heartbeatStop s
  ∧ h_ctxs s' = h_ctxs s ∧ h_panicked s' = h_panicked s.
Proof. intros [E _]. rewrite E. by split_and!. Qed.

Lemma conn_with_and Q1 Q2 s conn :
  conn_with Q1 s conn → conn_with Q2 s conn → conn_with (λ c, Q1 c ∧ Q2 c) s conn.
Proof. intros (c & Hc & ?) (c' & Hc' & ?). exists c. simplify_eq. by split_and!. Qed.

Lemma twp_shutdown ctx A s :
  h_admissionMu s = false → h_heartbeatStop s = h_heartbeatStopOnce s → h_panicked s = false →
  RegOk Conn fmt_p (h_registry s) A → present s (conns_of A) →
  is_Some (ctx_done ctx s) ∨ A = ∅ ∧ h_active s = 0 →
  twp (shutdown ctx) (shut_down ctx A s) s.
Proof.
  intros Hmu Hstop Hpan HR Hl Hend. apply twp_bind, twp_modify. set (s1 := stop_heartbeat s).
  assert (H1 : h_admissionMu s1 = h_admissionMu s ∧ h_registry s1 = h_registry s ∧ h_conns s1 = h_conns s
    ∧ h_active s1 = h_active s ∧ h_ctxs s1 = h_ctxs s ∧ h_heartbeatStop s1 = true
    ∧ h_panicked s1 = false).
  { unfold s1, stop_heartbeat. destruct (h_heartbeatStopOnce s) eqn:E; cbn; rewrite ?Hpan, ?Hstop;
      by split_and!. }
  clearbody s1. destruct H1 as (Emu & Ereg & Econns & Eact & Ectx & Est & Epan).
  apply twp_bind. eapply twp_mono; [apply (twp_beginShutdown A)|]; rewrite ?Emu, ?Ereg; try done.
  { intros conn. rewrite Econns. apply Hl. }
  intros ds s2 (Hds & (r & HRr & H12) & Hd).
  destruct (conns_close_fields _ _ H12) as (Ereg2 & Emu2 & Eact2 & Edown2 & Est2 & Ectx2 & Epan2).
  cbn in *.
  assert (Hctx : ctx_done ctx s2 = ctx_done ctx s).
  { unfold ctx_done. destruct ctx; [|done]. by rewrite Ectx2, Ectx. }
  assert (Hpres : present s2 ds.*1).
  { intros conn. rewrite Hds. intros (c & Hc & _)%Hd. by exists c. }
  apply twp_bind. eapply twp_mono; [apply twp_wait_drained|].
  { rewrite Hctx. destruct Hend as [?|[-> _]]; [by left|right].
    unfold conns_of in Hds. rewrite map_to_list_empty in Hds. by destruct ds; [|apply Permutation_nil_r in Hds]. }
  intros w s2' [-> Hw].
  assert (Hcut : ∀ Q : unit → state → Prop,
    (∀ s3, conns_close s2 s3 → (∀ conn, conn ∈ conns_of A →
       conn_with (λ c, draining (c_ops c) = true ∧ cut_off c) s3 conn) → Q tt s3) →
    twp (closeDrainingConnections ds) Q s2).
  { intros Q HQ. eapply twp_mono; [by apply twp_cut_all|]. intros [] s3 [H23 Hc]. apply HQ; [done|].
    intros conn Hin. apply conn_with_and; [eapply conns_close_draining; [exact H23|by apply Hd]|].
    apply Hc. by rewrite Hds. }
  assert (Hdone : ∀ err s3, conns_close s2 s3 → (∀ conn, conn ∈ conns_of A →
       conn_with (λ c, draining (c_ops c) = true ∧ cut_off c) s3 conn) →
     (err = None ∧ h_active s3 = 0 ∨ ∃ e, err = Some e ∧ ctx_done ctx s = Some e) →
     shut_down ctx A s err s3).
  { intros err s3 H23 Hc He.
    destruct (conns_close_fields _ _ H23) as (Ereg3 & Emu3 & Eact3 & Edown3 & Est3 & Ectx3 & Epan3).
    constructor; first [done|congruence]. }
  destruct w as [e|]; (apply twp_bind, Hcut; intros s3 H23 Hc).
  - apply Hdone; [done..|]. right. exists e. destruct Hw as [|Hw]; [done|]. by rewrite <- Hctx, <- Hw.
  - destruct (conns_close_fields _ _ H23) as (_ & _ & Eact3 & _ & _ & Ectx3 & _).
    assert (Hctx3 : ctx_done ctx s3 = ctx_done ctx s).
    { rewrite <- Hctx. unfold ctx_done. destruct ctx; [|done]. by rewrite Ectx3. }
    eapply twp_mono; [apply twp_wait_active|].
    + rewrite Hctx3. destruct Hend as [?|[_ ?]]; [by left|right]. congruence.
    + intros err s4 [-> He]. apply Hdone; [done..|]. by rewrite <- Hctx3.
Qed.

(** C8. Shutdown returns.  Run on a handler whose registry represents [A], with
    nobody inside the admission mutex, and with a context that is done or with
    no request left, [Shutdown] never blocks: it returns nil, and then no
    admitted request is running, or the context's error.  Either way new requests
    are rejected and the heartbeat goroutine is told to stop, and every
    connection of the registry drains, with its context done and its socket
    closed; later calls return the same error and do nothing. *)
Theorem shutdown_returns ctx A s
    (Hmu : h_admissionMu s = false) (Honce : h_shutdownOnce s = OnceFree)
    (Hstop : h_heartbeatStop s = h_heartbeatStopOnce s) (Hpan : h_panicked s = false)
    (HR : RegOk Conn fmt_p (h_registry s) A) (Hconns : present s (conns_of A))
    (Hend : is_Some (ctx_done ctx s) ∨ A = ∅ ∧ h_active s = 0) :
  twp (Shutdown ctx)
    (λ err s',
       shut_down ctx A s err s'
       ∧ ∀ ctx', twp (Shutdown ctx') (λ err' s2, err' = err ∧ s2 = s') s') s.
Proof.
  apply twp_bind. cbn -[shutdown]. rewrite Honce. split; [done|].
  intros r s1 [= -> ->]%list_elem_of_singleton.
  apply twp_bind. eapply twp_mono; [by apply (twp_shutdown ctx A)|].
  intros err s2 [Hres Hd Hst Hp Hm HR2 Hc]. split; [done|].
  intros [] s3 [= ->]%list_elem_of_singleton. split; [by constructor|].
  intros ctx'. cbn. split; [done|]. by intros r s3 [= -> ->]%list_elem_of_singleton.
Qed.
End shutdown.

(** ** Witness *)

(** The busy registry of RegistryProps.v inside a handler, with its two
    connections and a context that is cancelled. *)
Definition sample_cstate : cstate (list byte) unit :=
  newConnection (Some sample_config) (Some {| ws_written := []; ws_closed := false |}) 16 1000 0 tt 0.

Definition busy_handler (down : bool) : hstate (gmap string) unit (list byte) unit nat :=
  cancel_ctx 7 Canceled (set_active 2 (set_shuttingDown down
    (set_conns {[ 1%nat := sample_cstate; 2%nat := sample_cstate ]}
      (set_registry sample_busy (newHandlerState tt 1000))))).

Lemma busy_handler_present down : present (busy_handler down) (conns_of sample_spec).
Proof.
  assert (H : Forall (λ c, is_Some (h_conns (busy_handler down) !! c)) (conns_of sample_spec)).
  { assert (E : conns_of sample_spec = [1%nat; 2%nat]) by by vm_compute.
    rewrite E. repeat constructor; cbn; eauto. }
  by rewrite Forall_forall in H.
Qed.

Lemma shutdown_returns_witness :
  ctx_done (Some 7%nat) (busy_handler false) = Some (Canceled : error)
  ∧ twp (Shutdown (Some 7%nat))
      (λ err s', (err = None ∧ h_active s' = 0 ∨ err = Some (Canceled : error))
         ∧ h_shuttingDown s' = true
         ∧ conn_with (λ c, draining (c_ops c) = true ∧ cut_off c) s' 1%nat) (busy_handler false).
Proof.
  split; [reflexivity|]. eapply twp_mono.
  - apply (shutdown_returns sample_conn sample_fmt (Some 7%nat) sample_spec (busy_handler false));
      try reflexivity; [exact sample_busy_ok|apply busy_handler_present|].
    left. eexists. reflexivity.
  - intros err s' [[Hr Hd _ _ _ _ Hc] _]. split_and!; [|exact Hd|].
    + destruct Hr as [?|(e & -> & He)]; [by left|right]. rewrite <- He. reflexivity.
    + apply Hc. assert (E : a_conn <$> sample_spec !! "a"%string = Some 1%nat) by by vm_compute.
      apply fmap_Some in E as (e & He & Hconn). apply conns_of_spec. by exists "a"%string, e.
Defined.
