(* ===== verification/HandlerAPIFacts.v ===== *)
(** * Batches reach exactly the connections they name

    Every send and close of the handler, run alone on a registry that
    represents a map (RegistrySpec.v), with the batch it ends in; and the
    message of a batch against the frames single sends make. *)

From Stdlib Require Import Ascii String.
From S2P Require Import Prelude GoStd GoText Errors Protocol Framing Samples.
From S2P Require Import ProtocolFacts FramingFacts Proc Connection ConnectionProps.
From S2P Require Import Registry RegistrySpec RegistryOps RegistryReads RegistryProps.
From S2P Require Import Batch BatchFacts Dispatcher Config Handler HandlerRuns HandlerAPI ConfigFacts.

Local Open Scope Z_scope.
Local Open Scope go_scope.

(** ** The message of a batch *)

Section message.
Context {V : Type} `{!ExternalCodecs V} `{!CodecLaws V}.

(** [prepareBatchRawPayload] makes the checks of the raw writer, so that a
    connection finds nothing more to complain about. *)
Lemma raw_payload_checked (p : protocolConfig V) method payload :
  match prepareBatchRawPayload (Some p) method payload with
  | Some err => rawFrameBytes (Some p) FrameKindMessage method "" payload = Err err
  | None => ∃ f, rawFrameBytes (Some p) FrameKindMessage method "" payload = Ok f
  end.
Proof.
  unfold prepareBatchRawPayload, rawFrameBytes.
  destruct (validateProtocolFrame _ _ _) as [e|]; cbn [check_err]; [done|].
  destruct (pc_ensurePayloadSize _ _) as [e|] eqn:He; cbn [check_err]; [done|].
  unfold sealFrame. rewrite zlen_app, framePrefix_length.
  rewrite (proj2 (Z.ltb_ge _ _)) by (pose proof (zlen_nonneg payload); lia). cbn [check_err].
  replace (prefixLen method "" + zlen payload - prefixLen method "") with (zlen payload) by lia.
  rewrite He. cbn [check_err]. eauto.
Qed.

(** C23. A batch sends what single sends send.  The payload prepared once for a
    batch makes, at every connection, the very frame that [Send] makes of the
    same body, and no connection refuses it for its method name or size; when
    preparing fails, no single send of that body makes a frame either.  The
    check of raw payloads fails exactly as the raw writer does. *)
Theorem batch_message_is_sent_message s max p method body payload
    (Hp : newProtocolConfig (V := V) s max = Ok p) :
  match prepareBatchPayload (Some p) method body with
  | Ok encoded =>
      ∃ f, encodedFrameBytes (Some p) FrameKindMessage method "" body = Ok f
         ∧ rawFrameBytes (Some p) FrameKindMessage method "" encoded = Ok f
  | Err _ => is_ok (encodedFrameBytes (Some p) FrameKindMessage method "" body) = false
  end
  ∧ match prepareBatchRawPayload (Some p) method payload with
    | Some err => rawFrameBytes (Some p) FrameKindMessage method "" payload = Err err
    | None => ∃ f, rawFrameBytes (Some p) FrameKindMessage method "" payload = Ok f
    end.
Proof.
  split; [|apply raw_payload_checked]. unfold prepareBatchPayload.
  destruct (validateProtocolFrame _ _ _) as [e|] eqn:Hv.
  { unfold encodedFrameBytes. by rewrite Hv. }
  destruct (pc_marshalAppend _ _ _) as [encoded [e|]] eqn:Henc.
  { by eapply encoded_frame_marshal_error. }
  rewrite (encoded_is_raw s max p _ _ _ body encoded) by done.
  pose proof (raw_payload_checked p method encoded) as H. unfold prepareBatchRawPayload in H.
  rewrite Hv in H. destruct (pc_ensurePayloadSize _ _) as [e|]; [by rewrite H|].
  destruct H as [f Hf]. eauto.
Qed.
End message.

(** ** Calls *)

(** What a batch send is given to send, and to whom. *)
Inductive content {V : Type} :=
| Body (body : option V)
| RawPayload (payload : list byte).
Arguments content V : clear implicits.

Inductive send_op {V : Type} :=
| ToUsers (userIDs : list string) (c : content V)
| ToConnections (connectionIDs : list string) (payload : list byte)
| ToGroup (group : string) (c : content V)
| ToAll (c : content V).
Arguments send_op V : clear implicits.

Inductive close_op :=
| TheUsers (userIDs : list string)
| TheConnections (connectionIDs : list string).

Section calls.
Context {M : Type → Type} `{!ShardMap M} `{!ShardMapLaws M} {P : Type} `{!SlicePool P}.
Context {V PF : Type} `{!ExternalCodecs V} `{!SlicePool PF} {F R : Type}.
Context (Conn : ptr → connInfo) (fmt_p : ptr → string) (h : handlerSettings R V).

Local Abbreviation state := (hstate M P V PF F).
Local Abbreviation Mo := (proc (hstate M P V PF F)).
Local Abbreviation RegOk := (RegOk Conn fmt_p).

Implicit Types s : state.
Implicit Types A : areg.

(** The exported method. *)
Definition run_send (op : send_op V) (method : string) : Mo send_call :=
  match op with
  | ToUsers ids (Body b) => SendUsers (Some h) ids method b
  | ToUsers ids (RawPayload pl) => SendUsersRaw (Some h) ids method pl
  | ToConnections ids pl => SendConnectionsRaw (Some h) ids method pl
  | ToGroup g (Body b) => SendGroup (Some h) g method b
  | ToGroup g (RawPayload pl) => SendGroupRaw (Some h) g method pl
  | ToAll (Body b) => SendAll (Some h) method b
  | ToAll (RawPayload pl) => SendAllRaw (Some h) method pl
  end.

Definition run_close (op : close_op) : Mo close_call :=
  match op with
  | TheUsers ids => CloseUsers (Some h) ids
  | TheConnections ids => CloseConnections (Some h) ids
  end.

(** The specification: which connections of the map are meant, *)
Definition of_user_ids (ids : list string) (e : aentry) : Prop :=
  UserID (Conn (a_conn e)) ∈ ids ∧ UserID (Conn (a_conn e)) ≠ ""%string.

Definition meant (op : send_op V) (key : string) (e : aentry) : Prop :=
  match op with
  | ToUsers ids _ => of_user_ids ids e
  | ToConnections ids _ => key ∈ ids ∧ key ≠ ""%string
  | ToGroup g _ => normalizeGroup g ∈ a_groups e
  | ToAll _ => True
  end.

Definition meant_to_close (op : close_op) (key : string) (e : aentry) : Prop :=
  match op with
  | TheUsers ids => of_user_ids ids e
  | TheConnections ids => key ∈ ids ∧ key ≠ ""%string
  end.

Definition prepared (method : string) (c : content V) : result error (list byte) :=
  match c with
  | Body b => prepareBatchPayload (Some (hs_protocol h)) method b
  | RawPayload pl =>
      match prepareBatchRawPayload (Some (hs_protocol h)) method pl with
      | Some err => Err err
      | None => Ok pl
      end
  end.

(** and what is sent to them, or the error of the first check that fails. *)
Definition message_of_op (op : send_op V) (method : string) (down : bool)
    : result error (list byte) :=
  fail_if match op with ToGroup g _ => (normalizeGroup g =? "")%string | _ => false end
    with (ErrInvalidGroup : error) ;;
  let* payload := prepared method
    match op with ToUsers _ c | ToGroup _ c | ToAll c => c | ToConnections _ pl => RawPayload pl end in
  fail_if down with (ErrHandlerShuttingDown : error) ;;
  Ok payload.

(** A snapshot with exactly the connections of the map that [which] names. *)
Definition exact A (which : string → aentry → Prop) (conns : list ptr) : Prop :=
  NoDup conns ∧ ∀ c, c ∈ conns ↔ ∃ k e, A !! k = Some e ∧ a_conn e = c ∧ which k e.

(** Only the pool of slices changes. *)
Definition only_slices s s' : Prop :=
  s' = set_registry (h_registry s') s ∧ same_reg (h_registry s) (h_registry s').

Lemma only_slices_refl s : only_slices s s.
Proof. split; [by rewrite set_registry_same|reflexivity]. Qed.

(** ** The snapshots *)

Lemma exact_users A ids s :
  RegOk (h_registry s) A →
  twp (userSnapshotPooled ids) (λ b r, exact A (λ _, of_user_ids ids) (cs_conns b)
    ∧ same_reg (h_registry s) r) (h_registry s).
Proof.
  intros HR. eapply twp_mono; [by eapply twp_user_snapshot_exact|]. intros b r [[Hnd Hb] ?].
  split; [|done]. split; [done|]. intros c. rewrite Hb. unfold of_user_ids.
  split; intros (k & e & ? & <- & ?); eauto.
Qed.

Lemma exact_ids A ids s :
  RegOk (h_registry s) A →
  twp (connectionSnapshotPooled ids) (λ b r, exact A (λ k _, k ∈ ids ∧ k ≠ ""%string) (cs_conns b)
    ∧ same_reg (h_registry s) r) (h_registry s).
Proof.
  intros HR. eapply twp_mono; [by eapply twp_connectionSnapshotPooled|]. intros b r [-> ?].
  split; [by eapply spec_ids_exact|done].
Qed.

Lemma exact_filter A (f : string * aentry → Prop) `{!∀ x, Decision (f x)} (r : rstate M P) conns :
  RegOk r A → conns ≡ₚ conns_of (filter f A) → exact A (λ k e, f (k, e)) conns.
Proof.
  intros HR Hc. split.
  - rewrite Hc. eapply conns_of_NoDup; [done|apply map_filter_subseteq].
  - intros c. rewrite Hc, conns_of_spec. setoid_rewrite map_lookup_filter_Some. naive_solver.
Qed.

Lemma exact_impl A (f g : string → aentry → Prop) conns :
  (∀ k e, f k e ↔ g k e) → exact A f conns → exact A g conns.
Proof. intros Hfg [Hnd Hc]. split; [done|]. intros c. rewrite Hc. by setoid_rewrite Hfg. Qed.

Lemma exact_group A g s :
  RegOk (h_registry s) A →
  twp (groupConnectionsPooled g) (λ b r, exact A (λ _ e, g ∈ a_groups e) (cs_conns b)
    ∧ same_reg (h_registry s) r) (h_registry s).
Proof.
  intros HR. eapply twp_mono; [by apply (twp_index_conns_pooled Conn fmt_p groupConnIndex g A)|].
  intros b r [Hb ?]. split; [|done].
  eapply exact_impl; [|eapply exact_filter; [exact HR|rewrite Hb; apply values_members]].
  intros k e. cbn. apply bool_decide_eq_true.
Qed.

Lemma exact_all A s :
  RegOk (h_registry s) A →
  twp allConnectionsPooled (λ b r, exact A (λ _ _, True) (cs_conns b)
    ∧ same_reg (h_registry s) r) (h_registry s).
Proof.
  intros HR. eapply twp_mono; [by eapply twp_allConnectionsPooled|]. intros b r [Hb ?].
  split; [|done]. split; [rewrite Hb; by eapply conns_of_NoDup|].
  intros c. rewrite Hb, conns_of_spec. naive_solver.
Qed.

(** The end of every call. *)
Lemma twp_send_snapshot take which A method payload s :
  twp take (λ b r, exact A which (cs_conns b) ∧ same_reg (h_registry s) r) (h_registry s) →
  twp (send_snapshot take method payload) (λ c s', only_slices s s'
    ∧ if h_shuttingDown s then c = SendReturns (send_failed ErrHandlerShuttingDown)
      else ∃ snapshot, c = SendsTo snapshot method payload ∧ exact A which (cs_conns snapshot)) s.
Proof.
  intros Ht. apply twp_bind, twp_reads. destruct (h_shuttingDown s).
  - split; [apply only_slices_refl|done].
  - apply twp_bind, twp_on_registry. eapply twp_mono; [exact Ht|]. intros b r [Hb Hr].
    split; [by split|]. eauto.
Qed.

Lemma twp_close_snapshot take which A s :
  twp take (λ b r, exact A which (cs_conns b) ∧ same_reg (h_registry s) r) (h_registry s) →
  twp (close_snapshot take) (λ c s', only_slices s s'
    ∧ if h_shuttingDown s then c = CloseReturns (close_failed ErrHandlerShuttingDown)
      else ∃ snapshot, c = Closes snapshot ∧ exact A which (cs_conns snapshot)) s.
Proof.
  intros Ht. apply twp_bind, twp_reads. destruct (h_shuttingDown s).
  - split; [apply only_slices_refl|done].
  - apply twp_bind, twp_on_registry. eapply twp_mono; [exact Ht|]. intros b r [Hb Hr].
    split; [by split|]. eauto.
Qed.

(** How a call ends, and which connections it then goes through. *)
Definition send_ends A (op : send_op V) (method : string) (down : bool) (c : send_call) : Prop :=
  match message_of_op op method down with
  | Err err => c = SendReturns (send_failed err)
  | Ok payload =>
      ∃ snapshot, c = SendsTo snapshot method payload ∧ exact A (meant op) (cs_conns snapshot)
  end.

Lemma twp_run_send A op method s :
  RegOk (h_registry s) A →
  twp (run_send op method)
    (λ c s', only_slices s s' ∧ send_ends A op method (h_shuttingDown s) c) s.
Proof.
  intros HR. unfold send_ends, message_of_op.
  destruct op as [ids [b|pl]|ids pl|g [b|pl]|[b|pl]];
    cbn [run_send prepared]; unfold SendUsers, SendUsersRaw, SendConnectionsRaw, sendConnectionsRaw,
      SendGroup, SendGroupRaw, SendAll, SendAllRaw; cbn [guard_err];
    try (destruct (_ =? _)%string; cbn [guard_err]; [split; [apply only_slices_refl|done]|]);
    (destruct (prepareBatchPayload _ _ _) as [pl'|err]
     || destruct (prepareBatchRawPayload _ _ _) as [err|]); cbn [result_bind];
    try (split; [apply only_slices_refl|done]);
    (eapply twp_mono; [eapply twp_send_snapshot|]);
    try (by apply exact_users); try (by apply exact_ids); try (by apply exact_group);
    try (by apply exact_all); intros c s' [? H]; (split; [done|]);
    destruct (h_shuttingDown s); cbn [guard_err]; done.
Qed.
(** The same for closes. *)
Definition close_ends A (op : close_op) (down : bool) (c : close_call) : Prop :=
  if down then c = CloseReturns (close_failed ErrHandlerShuttingDown)
  else ∃ snapshot, c = Closes snapshot ∧ exact A (meant_to_close op) (cs_conns snapshot).

Lemma twp_run_close A op s :
  RegOk (h_registry s) A →
  twp (run_close op) (λ c s', only_slices s s' ∧ close_ends A op (h_shuttingDown s) c) s.
Proof.
  intros HR. destruct op as [ids|ids]; apply twp_close_snapshot; [by apply exact_users|by apply exact_ids].
Qed.

(** A permutation of an exact snapshot has the same connections, once each. *)
Lemma exact_perm A which l l' : l' ≡ₚ l → exact A which l → exact A which l'.
Proof. intros Hl [Hnd Hc]. split; [by rewrite Hl|]. intros c. by rewrite Hl. Qed.

(** ** Theorems *)

(** C5. Every bulk send (to users, to connection ids, to a group or to all,
    encoded or raw), called on a registry that represents the map [A], never
    blocks before its batch and changes nothing but the pool of slices.  With
    an empty group name, a message the checks refuse, or after shutdown began,
    it returns the first of these errors and no connection is touched;
    otherwise, with any context and any schedule, its batch calls [SendRaw]
    exactly once for each connection the map has for it and for no other, and
    the result counts the calls by outcome. *)
Theorem sends_reach_members A op method s (Hpos : 0 < hs_sendConcurrency h)
    (HR : RegOk (h_registry s) A) :
  twp (run_send op method)
    (λ c s', only_slices s s' ∧
       match message_of_op op method (h_shuttingDown s) with
       | Err err => c = SendReturns (send_failed err)
       | Ok payload =>
           ∃ snapshot, c = SendsTo snapshot method payload ∧
           ∀ ctx r, send_result h ctx c r →
             ∃ calls : list (ptr * option error),
               exact A (meant op) calls.*1 ∧ sr_Matched r = zlen calls
               ∧ sr_Sent r = oks calls.*2 ∧ sr_Failed r = zlen (errs calls.*2)
               ∧ (sr_Err r = None ↔ sr_Failed r = 0)
       end) s.
Proof.
  eapply twp_mono; [by eapply twp_run_send|]. intros c s' [Hs He]. split; [done|].
  unfold send_ends in He. destruct (message_of_op _ _ _) as [payload|err]; [|done].
  destruct He as (snapshot & -> & Hx). exists snapshot. split; [done|]. intros ctx r Hr.
  destruct (sendConnections_counts _ _ _ _ Hpos Hr) as (calls & Hp & Hm & Ho & Hf & _ & Herr & _).
  exists calls. split_and!; [by eapply exact_perm| |done..].
  rewrite Hm. unfold zlen. by rewrite <- Hp, length_fmap.
Qed.

(** C22. Every bulk close, called on a registry that represents the map [A],
    changes nothing but the pool of slices before its batch.  After shutdown began
    it returns that error; otherwise its batch accounts exactly once for each
    connection the map has for it and for no other, as closed or as skipped
    because the context was done, and the result counts them. *)
Theorem closes_reach_members A op s (Hpos : 0 < hs_sendConcurrency h)
    (HR : RegOk (h_registry s) A) :
  twp (run_close op)
    (λ c s', only_slices s s' ∧
       if h_shuttingDown s then c = CloseReturns (close_failed ErrHandlerShuttingDown)
       else
         ∃ snapshot, c = Closes snapshot ∧
         ∀ ctx r, close_result h ctx c r →
           ∃ fates : list (ptr * fate),
             exact A (meant_to_close op) fates.*1 ∧ cr_Matched r = zlen fates
             ∧ cr_Closed r = oks (fate_result <$> fates.*2)
             ∧ cr_Failed r = zlen (errs (fate_result <$> fates.*2))
             ∧ (cr_Err r = None ↔ cr_Failed r = 0)) s.
Proof.
  eapply twp_mono; [by eapply twp_run_close|]. intros c s' [Hs He]. split; [done|].
  unfold close_ends in He. destruct (h_shuttingDown s); [done|].
  destruct He as (snapshot & -> & Hx). exists snapshot. split; [done|]. intros ctx r Hr.
  destruct (closeConnections_counts _ _ _ _ Hpos Hr) as (fates & Hp & _ & Hm & Ho & Hf & _ & Herr & _).
  exists fates. split_and!; [by eapply exact_perm| |done..].
  rewrite Hm. unfold zlen. by rewrite <- Hp, length_fmap.
Qed.
End calls.

(** ** Witnesses *)

Lemma batch_message_is_sent_message_witness :
  ∃ f, encodedFrameBytes (Some sample_config) FrameKindMessage "m" "" (Some (bytes "hello")) = Ok f
     ∧ rawFrameBytes (Some sample_config) FrameKindMessage "m" "" (bytes "hello") = Ok f.
Proof.
  exact (proj1 (batch_message_is_sent_message SerializationMessagePack DefaultMaxPayloadSize
    sample_config "m" (Some (bytes "hello")) [] eq_refl)).
Defined.

Lemma sends_reach_members_witness :
  message_of_op sample_settings (ToGroup " g " (RawPayload [x01])) "m" false = Ok [x01]
  ∧ (∃ e, sample_spec !! "a"%string = Some e ∧ meant sample_conn (V := list byte)
      (ToGroup " g " (RawPayload [x01])) "a" e)
  ∧ twp (run_send sample_settings (ToGroup " g " (RawPayload [x01])) "m")
      (λ c s', only_slices (busy_handler false) s' ∧
         ∃ snapshot, c = SendsTo snapshot "m" [x01]) (busy_handler false).
Proof.
  assert (Hm : message_of_op sample_settings (ToGroup " g " (RawPayload [x01])) "m" false = Ok [x01])
    by by vm_compute.
  split; [exact Hm|]. split.
  { assert (Hg : a_groups <$> sample_spec !! "a"%string = Some {[ normalizeGroup " g " ]}) by by vm_compute.
    apply fmap_Some in Hg as (e & He & Hg). exists e. split; [done|]. cbn [meant].
    rewrite <- Hg. by apply elem_of_singleton. }
  eapply twp_mono.
  - apply (sends_reach_members sample_conn sample_fmt sample_settings sample_spec
      (ToGroup " g " (RawPayload [x01])) "m" (busy_handler false) eq_refl sample_busy_ok).
  - intros c s' [Hs H]. split; [exact Hs|]. change (h_shuttingDown (busy_handler false)) with false in H.
    rewrite Hm in H. destruct H as (snapshot & Hc & _). by exists snapshot.
Defined.

Lemma closes_reach_members_witness :
  twp (run_close sample_settings (TheUsers ["u"%string]))
    (λ c s', only_slices (busy_handler false) s' ∧ ∃ snapshot, c = Closes snapshot) (busy_handler false)
  ∧ twp (run_close sample_settings (TheUsers ["u"%string]))
    (λ c s', c = CloseReturns (close_failed ErrHandlerShuttingDown)) (busy_handler true).
Proof.
  split.
  - eapply twp_mono.
    + apply (closes_reach_members sample_conn sample_fmt sample_settings sample_spec
        (TheUsers ["u"%string]) (busy_handler false) eq_refl sample_busy_ok).
    + intros c s' [? (snapshot & ? & _)]. eauto.
  - eapply twp_mono.
    + apply (closes_reach_members sample_conn sample_fmt sample_settings sample_spec
        (TheUsers ["u"%string]) (busy_handler true) eq_refl sample_busy_ok).
    + by intros c s' [_ ->].
Defined.
