(* ===== verification/Server.v ===== *)
(** * The standalone server (server.go)

    [Server] owns a handler and an [http.Server]: [Start] listens once and serves
    in a goroutine, [Shutdown] stops both.  Every other method passes its
    arguments on to the handler. *)

From Stdlib Require Import Ascii String.
From S2P Require Import Prelude GoStd GoText Errors Protocol Framing Proc Connection.
From S2P Require Import Registry Batch Dispatcher Config Handler HandlerAPI.

Local Open Scope Z_scope.
Local Open Scope go_scope.

(** ** The store *)

(** The state of a [Server] with its handler's.  Of the [http.Server] it keeps the
    goroutines in [Serve] and what its [Shutdown] returned. *)
Record sstate {M : Type → Type} {P V PF F : Type} := {
  s_handler : hstate M P V PF F;
  s_mu : bool;
  s_listener : bool;                          (* not nil *)
  s_serving : Z;                              (* goroutines that were started to serve *)
  s_shutdownOnce : once;
  s_shutdownCtx : option (option nat);        (* of the goroutine that shuts the HTTP server down *)
  s_serverDone : option (option error);       (* the buffer of the channel, one slot *)
  s_serverErr : option (option error);        (* history: what was sent on it *)
}.
Arguments sstate M P V PF F : clear implicits.

Section updates.
Context {M : Type → Type} {P V PF F : Type}.

Local Abbreviation state := (sstate M P V PF F).

Definition set_handler (v : hstate M P V PF F) (s : state) : state :=
  {| s_handler := v; s_mu := s_mu s; s_listener := s_listener s; s_serving := s_serving s;
     s_shutdownOnce := s_shutdownOnce s; s_shutdownCtx := s_shutdownCtx s;
     s_serverDone := s_serverDone s; s_serverErr := s_serverErr s |}.

Definition set_mu (v : bool) (s : state) : state :=
  {| s_handler := s_handler s; s_mu := v; s_listener := s_listener s; s_serving := s_serving s;
     s_shutdownOnce := s_shutdownOnce s; s_shutdownCtx := s_shutdownCtx s;
     s_serverDone := s_serverDone s; s_serverErr := s_serverErr s |}.

Definition set_listener (s : state) : state :=
  {| s_handler := s_handler s; s_mu := s_mu s; s_listener := true; s_serving := s_serving s;
     s_shutdownOnce := s_shutdownOnce s; s_shutdownCtx := s_shutdownCtx s;
     s_serverDone := s_serverDone s; s_serverErr := s_serverErr s |}.

Definition add_serving (s : state) : state :=
  {| s_handler := s_handler s; s_mu := s_mu s; s_listener := s_listener s;
     s_serving := s_serving s + 1;
     s_shutdownOnce := s_shutdownOnce s; s_shutdownCtx := s_shutdownCtx s;
     s_serverDone := s_serverDone s; s_serverErr := s_serverErr s |}.

Definition set_once (v : once) (s : state) : state :=
  {| s_handler := s_handler s; s_mu := s_mu s; s_listener := s_listener s; s_serving := s_serving s;
     s_shutdownOnce := v; s_shutdownCtx := s_shutdownCtx s;
     s_serverDone := s_serverDone s; s_serverErr := s_serverErr s |}.

Definition set_shutdownCtx (ctx : option nat) (s : state) : state :=
  {| s_handler := s_handler s; s_mu := s_mu s; s_listener := s_listener s; s_serving := s_serving s;
     s_shutdownOnce := s_shutdownOnce s; s_shutdownCtx := Some ctx;
     s_serverDone := s_serverDone s; s_serverErr := s_serverErr s |}.

(** [serverDone <- err] and [<-serverDone]. *)
Definition put_serverDone (err : option error) (s : state) : state :=
  {| s_handler := s_handler s; s_mu := s_mu s; s_listener := s_listener s; s_serving := s_serving s;
     s_shutdownOnce := s_shutdownOnce s; s_shutdownCtx := s_shutdownCtx s;
     s_serverDone := Some err; s_serverErr := Some err |}.

Definition take_serverDone (s : state) : state :=
  {| s_handler := s_handler s; s_mu := s_mu s; s_listener := s_listener s; s_serving := s_serving s;
     s_shutdownOnce := s_shutdownOnce s; s_shutdownCtx := s_shutdownCtx s;
     s_serverDone := None; s_serverErr := s_serverErr s |}.
End updates.

Section server.
Context {M : Type → Type} `{!ShardMap M} {P : Type} `{!SlicePool P}.
Context {V PF : Type} `{!ExternalCodecs V} `{!SlicePool PF} {F R : Type}.
Context (Conn : ptr → connInfo) (fmt_p : ptr → string) (cfg : serverSettings R V).

Local Abbreviation state := (sstate M P V PF F).
Local Abbreviation Mo := (proc (sstate M P V PF F)).

(** The ways [net.Listen] may answer for an address, and the errors
    [http.Server.Shutdown] may find when it closes listeners. *)
Context (net_Listen : string → list (option error)) (close_errors : list error).

Definition on_handler {A} (p : proc (hstate M P V PF F) A) : Mo A :=
  lift (λ s, Some (s_handler s)) set_handler p.

(** The fields [NewServer] makes around a handler. *)
Definition newServerState (handler : hstate M P V PF F) : state :=
  {| s_handler := handler; s_mu := false; s_listener := false; s_serving := 0;
     s_shutdownOnce := OnceFree; s_shutdownCtx := None; s_serverDone := None;
     s_serverErr := None |}.

(** ** Start *)

Definition lock_mu : Mo unit := atomic (λ s, if s_mu s then [] else [(tt, set_mu true s)]).
Definition unlock_mu : Mo unit := modify (set_mu false).

Definition Start : Mo (option error) :=
  lock_mu ;;;
  listening <- reads s_listener ;;;
  if listening : bool then
    unlock_mu ;;;
    mret None
  else
    err <- atomic (λ s, (λ e, (e, s)) <$> net_Listen (ss_Addr cfg)) ;;;
    match err with
    | Some err =>
        unlock_mu ;;;
        mret (Some err)
    | None =>
        modify set_listener ;;;
        modify add_serving ;;;
        unlock_mu ;;;
        mret None
    end.

(** ** Shutdown *)

Definition enter_once : Mo (option (option error)) :=
  atomic (λ s,
    match s_shutdownOnce s with
    | OnceFree => [(None, set_once OnceRunning s)]
    | OnceRunning => []
    | OnceDone err => [(Some err, s)]
    end).

(** [<-serverDone]. *)
Definition recv_serverDone : Mo (option error) :=
  atomic (λ s,
    match s_serverDone s with
    | Some err => [(err, take_serverDone s)]
    | None => []
    end).

Definition Shutdown (ctx : option nat) : Mo (option error) :=
  r <- enter_once ;;;
  match r with
  | Some err => mret err
  | None =>
      modify (set_shutdownCtx ctx) ;;;
      handlerErr <- on_handler (Handler.Shutdown ctx) ;;;
      serverErr <- recv_serverDone ;;;
      let err :=
        match handlerErr, serverErr with
        | None, None => None
        | _, _ => errors_Join [handlerErr; serverErr]
        end in
      modify (set_once (OnceDone err)) ;;;
      mret err
  end.

(** The goroutine that shuts the [http.Server] down, from the moment [Shutdown] starts it:
    the listeners are closed, perhaps with an error; then it returns when the
    HTTP connections are idle (hijacked ones are not waited for) or with the
    context's error. *)
Definition http_shutdown : Mo unit :=
  ctx <- atomic (λ s, match s_shutdownCtx s with Some ctx => [(ctx, s)] | None => [] end) ;;;
  err <- atomic (λ s,
    (None, s) :: ((λ e, (Some e, s)) <$> close_errors)
    ++ match ctx_done ctx (s_handler s) with Some e => [(Some e, s)] | None => [] end) ;;;
  modify (put_serverDone err).

(** ** Calls passed on to the handler *)

Local Abbreviation handler := (ss_handler cfg).

Definition Online : Mo Z := on_handler Handler.Online.
Definition UserOnline (userID : string) : Mo Z :=
  on_handler (HandlerAPI.UserOnline (Some handler) userID).
Definition UserConnections (userID : string) : Mo (list ptr) :=
  on_handler (HandlerAPI.UserConnections (Some handler) userID).
Definition SendUsers (userIDs : list string) (method : string) (body : option V) : Mo send_call :=
  on_handler (HandlerAPI.SendUsers (Some handler) userIDs method body).
Definition SendUsersRaw (userIDs : list string) (method : string) (payload : list byte)
    : Mo send_call :=
  on_handler (HandlerAPI.SendUsersRaw (Some handler) userIDs method payload).
Definition SendConnectionsRaw (connectionIDs : list string) (method : string) (payload : list byte)
    : Mo send_call :=
  on_handler (HandlerAPI.SendConnectionsRaw (Some handler) connectionIDs method payload).
Definition CloseUsers (userIDs : list string) : Mo close_call :=
  on_handler (HandlerAPI.CloseUsers (Some handler) userIDs).
Definition CloseConnections (connectionIDs : list string) : Mo close_call :=
  on_handler (HandlerAPI.CloseConnections (Some handler) connectionIDs).
Definition SendGroup (group method : string) (body : option V) : Mo send_call :=
  on_handler (HandlerAPI.SendGroup (Some handler) group method body).
Definition SendGroupRaw (group method : string) (payload : list byte) : Mo send_call :=
  on_handler (HandlerAPI.SendGroupRaw (Some handler) group method payload).
Definition SendAll (method : string) (body : option V) : Mo send_call :=
  on_handler (HandlerAPI.SendAll (Some handler) method body).
Definition SendAllRaw (method : string) (payload : list byte) : Mo send_call :=
  on_handler (HandlerAPI.SendAllRaw (Some handler) method payload).
Definition AddToGroup (conn : ptr) (group : string) : Mo (option error) :=
  on_handler (HandlerAPI.AddToGroup Conn fmt_p (Some handler) conn group).
Definition RemoveFromGroup (conn : ptr) (group : string) : Mo (option error) :=
  on_handler (HandlerAPI.RemoveFromGroup Conn fmt_p (Some handler) conn group).
Definition RemoveFromAllGroups (conn : ptr) : Mo unit :=
  on_handler (HandlerAPI.RemoveFromAllGroups Conn fmt_p (Some handler) conn).
Definition GroupOnline (group : string) : Mo Z :=
  on_handler (HandlerAPI.GroupOnline (Some handler) group).
Definition GroupConnections (group : string) : Mo (list ptr) :=
  on_handler (HandlerAPI.GroupConnections (Some handler) group).
End server.
