(* ===== verification/Hertz.v ===== *)
(** * The Hertz wrapper (hertz/handler.go)

    A [ManagedHandler] is a handler with the function Hertz calls for requests;
    the adaptor that makes the function is third-party code. *)

From Stdlib Require Import Ascii String.
From S2P Require Import Prelude GoStd GoText Errors Protocol Framing Proc Connection.
From S2P Require Import Registry Batch Dispatcher Config Handler.

Local Open Scope Z_scope.
Local Open Scope go_scope.

Section hertz.
Context {M : Type → Type} `{!ShardMap M} {P : Type} `{!SlicePool P}.
Context {V PF : Type} `{!ExternalCodecs V} `{!SlicePool PF} {F R : Type}.

Local Abbreviation Mo := (proc (hstate M P V PF F)).

(** [app.HandlerFunc] on requests [Req], and [adaptor.HertzHandler]. *)
Context {Req : Type}.
Local Abbreviation app_HandlerFunc := (Req → Mo unit).
Context (HertzHandler : handlerSettings R V → app_HandlerFunc).

(** Both fields may be nil in a value made without [NewHandler]. *)
Record ManagedHandler := {
  mh_handler : option (handlerSettings R V);
  mh_handlerFunc : option app_HandlerFunc;
}.

Definition newManagedHandler (handler : handlerSettings R V) : ManagedHandler :=
  {| mh_handler := Some handler; mh_handlerFunc := Some (HertzHandler handler) |}.

Definition NewHandler {H : Type} (cfg : Config R) (factory : option H)
    : result error ManagedHandler :=
  let* handler := Config.NewHandler cfg factory in
  Ok (newManagedHandler handler).

(** A panic with its value, or a result. *)
Inductive panics (A : Type) :=
| Panic (err : error)
| Returns (a : A).
#[global] Arguments Panic {A} err.
#[global] Arguments Returns {A} a.

Definition MustNewHandler {H : Type} (cfg : Config R) (factory : option H)
    : panics ManagedHandler :=
  match NewHandler cfg factory with
  | Err err => Panic err
  | Ok handler => Returns handler
  end.

(** [h.HandlerFunc()], on a receiver that may be nil. *)
Definition HandlerFunc (h : option ManagedHandler) : option app_HandlerFunc :=
  match h with
  | None => None
  | Some h => mh_handlerFunc h
  end.

Definition Handler {H : Type} (cfg : Config R) (factory : option H)
    : result error (option app_HandlerFunc) :=
  let* handler := NewHandler cfg factory in
  Ok (HandlerFunc (Some handler)).

Definition MustHandler {H : Type} (cfg : Config R) (factory : option H)
    : panics (option app_HandlerFunc) :=
  match Handler cfg factory with
  | Err err => Panic err
  | Ok handler => Returns handler
  end.

(** A nil pointer or a nil function panics. *)
Definition Handle (h : option ManagedHandler) (c : Req) : panics (Mo unit) :=
  match h with
  | Some {| mh_handlerFunc := Some handlerFunc |} => Returns (handlerFunc c)
  | _ => Panic (New "invalid memory address or nil pointer dereference")
  end.

Definition SignalGHandler (h : option ManagedHandler) : option (handlerSettings R V) :=
  match h with
  | None => None
  | Some h => mh_handler h
  end.

Definition Shutdown (h : option ManagedHandler) (ctx : option nat) : Mo (option error) :=
  match h with
  | Some {| mh_handler := Some handler |} => Handler.Shutdown ctx
  | _ => mret None
  end.
End hertz.
