(* ===== verification/Quiet.v ===== *)
(** * Programs that leave a part of the handler alone

    A proof about one field of the handler (its [shutdownOnce], its events) has
    to go through every operation, and nearly all leave the field as it is.
    [carries t]: the program keeps an invariant of the field, seen through [view],
    and holds [t] before and after.  What ignores the field carries anything,
    and so does user code when [Shutdown] does.  The wait group is not among the
    fields to ignore: only admission and the end of a request change it. *)

From Stdlib Require Import Ascii String.
From S2P Require Import Prelude GoStd GoText Errors Protocol Framing Proc Connection.
From S2P Require Import Registry RegistryProps Batch Dispatcher Config Handler Serve.
From S2P Require Import RequestSafety HandlerProps.

Local Open Scope Z_scope.
Local Open Scope go_scope.

Create HintDb quiet.

Section quiet.
Context {M : Type → Type} `{!ShardMap M} {P : Type} `{!SlicePool P}.
Context {V PF : Type} `{!ExternalCodecs V} `{!SlicePool PF} {F R : Type}.

Local Abbreviation state := (hstate M P V PF F).
Local Abbreviation Mo := (proc (hstate M P V PF F)).

Implicit Types s : state.

(** The view is of none of the fields that most operations change. *)
Record ignores {X : Type} (view : state → X) : Prop := {
  ig_registry v s : view (set_registry v s) = view s;
  ig_conns v s : view (set_conns v s) = view s;
  ig_admissionMu v s : view (set_admissionMu v s) = view s;
  ig_shuttingDown v s : view (set_shuttingDown v s) = view s;
  ig_online v s : view (set_online v s) = view s;
  ig_heartbeatWake v s : view (set_heartbeatWake v s) = view s;
  ig_heartbeatStop s : view (stop_heartbeat s) = view s;
  ig_bpool v s : view (set_bpool v s) = view s;
  ig_dispatchers v s : view (set_dispatchers v s) = view s;
  ig_ctxs ctx e s : view (cancel_ctx ctx e s) = view s;
  ig_panicked s : view (set_panicked s) = view s;
}.

Context {X T : Type} (view : state → X) (I : X → list T → Prop) (G : X → X → Prop).

Definition view_inv s (t : list T) : Prop := I (view s) t.
Definition view_keeps s s' : Prop := G (view s) (view s').

#[export] Instance view_keeps_PreOrder `{!PreOrder G} : PreOrder view_keeps.
Proof.
  split; unfold view_keeps; [by intros s|]. intros s1 s2 s3 H1 H2. by etransitivity.
Qed.

Definition carries (t : list T) {A} (p : Mo A) : Prop :=
  safe view_inv view_keeps (λ _ t', t' = t) t p.

Lemma carries_more {A} t (p : Mo A) : carries [] p → carries t p.
Proof.
  intros Hp. eapply safe_mono; [exact (safe_frame _ _ _ [] t p Hp)|]. by intros a t' (t0 & -> & ->).
Qed.

Context `{!Reflexive G} (Hview : ignores view) (t : list T).


Lemma carries_ret {A} (a : A) : carries t (Ret a).
Proof. done. Qed.

Lemma carries_mret {A} (a : A) : carries t (mret a).
Proof. done. Qed.

Lemma carries_bind {A B} (p : Mo A) (g : A → Mo B) :
  carries t p → (∀ a, carries t (g a)) → carries t (proc_bind g p).
Proof. intros Hp Hg. eapply safe_bind; [exact Hp|]. intros a t' ->. apply Hg. Qed.

(** Actions on other fields. *)
Definition elsewhere {Y} (f : state → list (Y * state)) : Prop :=
  ∀ s x s', (x, s') ∈ f s → view s' = view s.

Lemma safe_elsewhere {A Y} Q t' (f : state → list (Y * state)) (k : Y → Mo A) :
  elsewhere f → (∀ x, safe view_inv view_keeps Q t' (k x)) → safe view_inv view_keeps Q t' (Act f k).
Proof.
  intros Hf Hk. apply (safe_act _ _ _ _ _ _ (λ _, t')); [|exact Hk]. intros s fr x s' Hi Hin.
  specialize (Hf s x s' Hin). unfold view_keeps, view_inv in *. by rewrite Hf.
Qed.

Lemma carries_atomic {Y} (f : state → list (Y * state)) : elsewhere f → carries t (atomic f).
Proof. intros Hf. apply safe_elsewhere; [exact Hf|]. intros x. apply carries_ret. Qed.

(** An action that may choose but not change. *)
Lemma carries_choice {Y} (f : state → list (Y * state)) :
  (∀ s x s', (x, s') ∈ f s → s' = s) → carries t (atomic f).
Proof. intros Hf. apply carries_atomic. intros s x s' Hin. by rewrite (Hf s x s' Hin). Qed.

Lemma carries_modify (g : state → state) : (∀ s, view (g s) = view s) → carries t (modify g).
Proof. intros Hg. apply carries_atomic. by intros s x s' [= -> ->]%list_elem_of_singleton. Qed.

Lemma carries_reads {Y} (g : state → Y) : carries t (reads g).
Proof. apply (carries_choice (λ s, [(g s, s)])). by intros s x s' [= -> ->]%list_elem_of_singleton. Qed.

Lemma carries_panic {A} : carries t (go_panic : Mo A).
Proof.
  apply carries_bind; [apply carries_modify, Hview|]. intros _.
  apply carries_choice. by intros s x s' ?%not_elem_of_nil.
Qed.

Lemma carries_lift {S' A} (get : state → option S') (put : S' → state → state) (p : proc S' A) :
  (∀ v s, view (put v s) = view s) → carries t (lift get put p).
Proof.
  intros Hput. induction p as [a|Y f k IH]; [done|]. cbn [lift]. apply safe_elsewhere; [|exact IH].
  intros s x s' Hin. destruct (get s) as [s0|]; [|by apply not_elem_of_nil in Hin].
  apply list_elem_of_fmap in Hin as ([x0 s1] & [= -> ->] & _). apply Hput.
Qed.

Lemma carries_on_registry {A} (p : proc (rstate M P) A) : carries t (on_registry p).
Proof. apply carries_lift, Hview. Qed.

Lemma carries_on_conn {A} c (p : proc (cstate V PF) A) : carries t (on_conn c p).
Proof. apply carries_lift. intros v s. apply Hview. Qed.

Lemma carries_for_each {A} (l : list A) (body : A → Mo unit) :
  (∀ a, carries t (body a)) → carries t (for_each l body).
Proof. intros Hb. induction l; [done|]. cbn. by apply carries_bind. Qed.

Lemma carries_fold_each {A B} (l : list A) (acc : B) (body : B → A → Mo B) :
  (∀ b a, carries t (body b a)) → carries t (fold_each l acc body).
Proof. intros Hb. revert acc. induction l; intros acc; [done|]. cbn. by apply carries_bind. Qed.

(** Taking programs apart. *)
Ltac quiet :=
  repeat (intros; first
    [ assumption
    | progress cbn beta iota
    | solve [eauto with quiet]
    | apply carries_ret | apply carries_mret | apply carries_reads
    | apply carries_panic | apply carries_on_registry | apply carries_on_conn
    | apply carries_modify; intros; apply Hview
    | apply carries_bind | apply carries_for_each | apply carries_fold_each
    | case_match ]).

Lemma carries_add_online n : carries t (add_online n).
Proof. apply carries_modify. intros s. apply Hview. Qed.

Lemma carries_lock : carries t lock_admissionMu.
Proof.
  apply carries_atomic. intros s x s' Hin. destruct (h_admissionMu s); [by apply not_elem_of_nil in Hin|].
  apply list_elem_of_singleton in Hin as [= -> ->]. apply Hview.
Qed.

Lemma carries_stop : carries t stopHeartbeatLoop.
Proof. apply carries_modify. apply Hview. Qed.

Hint Resolve carries_add_online carries_lock carries_stop : quiet.

(** ** The parts of a handler *)

Lemma carries_select_drained ctx d : carries t (select_drained ctx d).
Proof.
  apply carries_choice. intros s x s' [Hin|Hin]%elem_of_app.
  - destruct (drained d s); [|by apply not_elem_of_nil in Hin].
    by apply list_elem_of_singleton in Hin as [= -> ->].
  - destruct (ctx_done ctx s); [|by apply not_elem_of_nil in Hin].
    by apply list_elem_of_singleton in Hin as [= -> ->].
Qed.

Lemma carries_wait_active ctx : carries t (wait_active ctx).
Proof.
  apply carries_choice. intros s x s' [Hin|Hin]%elem_of_app.
  - destruct (_ =? _); [|by apply not_elem_of_nil in Hin].
    by apply list_elem_of_singleton in Hin as [= -> ->].
  - destruct (ctx_done ctx s); [|by apply not_elem_of_nil in Hin].
    by apply list_elem_of_singleton in Hin as [= -> ->].
Qed.

Hint Resolve carries_select_drained carries_wait_active : quiet.

Lemma carries_wait_drained ctx l : carries t (waitConnectionsDrained ctx l).
Proof. induction l; cbn [waitConnectionsDrained]; quiet. Qed.

Lemma carries_close_draining l : carries t (closeDrainingConnections l).
Proof. unfold closeDrainingConnections. quiet. Qed.

Lemma carries_beginShutdown : carries t beginShutdown.
Proof. unfold beginShutdown, unlock_admissionMu. quiet. Qed.

Hint Resolve carries_wait_drained carries_close_draining carries_beginShutdown : quiet.

Lemma carries_shutdown ctx : carries t (shutdown ctx).
Proof. unfold shutdown. quiet. Qed.

Context (Conn : ptr → connInfo) (fmt_p : ptr → string) (h : handlerSettings R V).

Lemma carries_wake : carries t (wakeHeartbeatLoop h).
Proof. unfold wakeHeartbeatLoop. quiet. Qed.

Hint Resolve carries_wake : quiet.

Lemma carries_addConnection c :
  (∀ v s, view (set_active v s) = view s) → carries t (addConnection Conn fmt_p h c).
Proof.
  intros Hactive. assert (carries t (add_active 1)) by by apply carries_modify.
  unfold addConnection, unlock_admissionMu. quiet.
Qed.

Lemma carries_removeConnection c : carries t (removeConnection Conn fmt_p h c).
Proof. unfold removeConnection. quiet. Qed.

Lemma carries_closeExpired : carries t (closeExpiredIdleConnections Conn h).
Proof. unfold closeExpiredIdleConnections. quiet. Qed.

Lemma carries_heartbeat_select timer : carries t (heartbeat_select timer).
Proof.
  apply carries_atomic. intros s x s' Hin.
  repeat match type of Hin with _ ∈ _ ++ _ => apply elem_of_app in Hin as [Hin|Hin] end;
    case_match; try (by apply not_elem_of_nil in Hin);
    apply list_elem_of_singleton in Hin as [= -> ->]; first [done|apply Hview].
Qed.

Hint Resolve carries_removeConnection carries_closeExpired
  carries_heartbeat_select : quiet.

Lemma carries_heartbeatLoop fuel : carries t (heartbeatLoop Conn h fuel).
Proof. induction fuel; cbn [heartbeatLoop]; quiet. Qed.

(** ** User code *)

Context (HShutdown : ∀ ctx, carries [] (Shutdown ctx)).

Lemma carries_client A (p : Mo A) : client Conn fmt_p A p → carries t p.
Proof.
  induction 1; [apply carries_ret|by apply carries_bind|apply carries_on_conn|apply carries_on_registry
               |apply carries_reads|apply carries_reads|apply carries_more, HShutdown].
Qed.

(** ** Requests, when the event of a message carries [t] *)

Context (Methods : goType → list (hubMethod F)) (reflect_New : goType → V).
Context (Func_Call : ptr → F → option V → Mo (reflectValue V * reflectValue error)).
Context (any_of : connectedValue → V) (remoteAddr : ptr → string).
Context (ReadFrom : option Z → inbound → list byte * option error).
Context (Hcall : ∀ c f v, client Conn fmt_p _ (Func_Call c f v)).
Context (c : ptr) (Hreceived : ∀ method, carries t (emit (Received c method))).
Context (hub : hub state V) (Hhub : client_hub Conn fmt_p hub).

Hint Resolve carries_client : quiet.

Lemma carries_runHandlerOperation fn : carries t fn → carries t (Serve.runHandlerOperation c fn).
Proof. intros Hfn. unfold Serve.runHandlerOperation. quiet. Qed.

Lemma carries_dispatch d msg : carries t (dispatch reflect_New (Func_Call c) d msg).
Proof. unfold dispatch. quiet. Qed.

Hint Resolve carries_runHandlerOperation carries_dispatch : quiet.

Lemma carries_handle_message d msg :
  carries t (handle_message Conn fmt_p reflect_New Func_Call c hub d msg).
Proof.
  destruct Hhub. unfold handle_message, handleProtocolPing, dispatchMessage.
  repeat first [apply carries_runHandlerOperation|progress quiet].
Qed.

Lemma carries_bpool_Get : carries t (bpool_Get h_bpool set_bpool).
Proof.
  apply carries_atomic. intros s x s' [[= -> ->]|Hin]%elem_of_cons; [done|].
  apply elem_of_lookup_imap in Hin as (i & b & [= -> ->] & _). apply Hview.
Qed.

Lemma carries_bpool_Put : carries t (bpool_Put h_bpool set_bpool).
Proof. apply carries_modify. intros s. apply Hview. Qed.

Hint Resolve carries_handle_message carries_bpool_Get carries_bpool_Put : quiet.

Lemma carries_handle_frame d limit m :
  carries t (handle_frame Conn fmt_p h reflect_New Func_Call ReadFrom c hub d limit m).
Proof. unfold handle_frame. quiet. Qed.

Hint Resolve carries_handle_frame : quiet.

Lemma carries_read_frames d limit inbox :
  carries t (read_frames Conn fmt_p h reflect_New Func_Call ReadFrom c hub d limit inbox).
Proof. induction inbox; cbn [read_frames]; quiet. Qed.

Hint Resolve carries_read_frames : quiet.

Lemma carries_readLoop limit inbox :
  carries t (readLoop Conn fmt_p h Methods reflect_New Func_Call ReadFrom c hub limit inbox).
Proof.
  unfold readLoop. case_match; [quiet|].
  apply carries_bind; [apply carries_lift; intros v s; apply Hview|]. quiet.
Qed.

Lemma carries_sendConnected : carries t (sendConnected Conn h any_of remoteAddr c).
Proof. apply carries_on_conn. Qed.

Lemma carries_close_unserved : carries t (close_unserved c).
Proof. unfold close_unserved. quiet. Qed.

Lemma carries_new_connection id userID cs : carries t (new_connection Conn c id userID cs).
Proof.
  apply carries_atomic. intros s x s' Hin. case_match; [by apply not_elem_of_nil in Hin|].
  apply list_elem_of_singleton in Hin as [= -> ->]. apply Hview.
Qed.
End quiet.

(** ** The goroutines of a program *)

Section programs.
Context {M : Type → Type} `{!ShardMap M} {P : Type} `{!SlicePool P}.
Context {V PF : Type} `{!ExternalCodecs V} `{!SlicePool PF} {F R H : Type}.
Context (p : program M P V PF F R H) (Hp : well_behaved p).

Local Abbreviation state := (hstate M P V PF F).
Local Abbreviation Mo := (proc (hstate M P V PF F)).

Context {X T : Type} (view : state → X) (I : X → list T → Prop) (G : X → X → Prop).
Context `{!Reflexive G} (Hview : ignores view).
Context (HShutdown : ∀ ctx, carries view I G [] (Shutdown ctx)).

Lemma carries_user t A (q : Mo A) : client (pr_Conn p) (pr_fmt_p p) A q → carries view I G t q.
Proof. intros Hq. eapply carries_client; [apply _|exact Hview|exact HShutdown|exact Hq]. Qed.

Lemma carries_bystander t q : bystander p q → carries view I G t q.
Proof.
  intros [q' Hq|d|ctx e].
  - by apply carries_user.
  - apply carries_bind; [by apply carries_on_registry|]. intros _. apply carries_mret.
  - apply carries_modify; [apply _|]. intros s. apply Hview.
Qed.

Lemma carries_reading t c (hub : hub state V) limit inbox :
  (∀ method, carries view I G t (emit (Received c method))) →
  client_hub (pr_Conn p) (pr_fmt_p p) hub →
  carries view I G t (readLoop (pr_Conn p) (pr_fmt_p p) (pr_handler p) (pr_Methods p)
    (pr_reflect_New p) (pr_Func_Call p) (pr_ReadFrom p) c hub limit inbox).
Proof. intros Hreceived Hhub. destruct Hp. by apply carries_readLoop. Qed.
End programs.
