(* ===== verification/Answers.v ===== *)
(** * A frame that arrives is answered

    The path of one binary message through the handler, run alone: a read buffer, the
    decoder, the registry, a route of the hub, and the frame that goes back.
    Hub methods are any programs that return and leave the connection usable. *)

From Stdlib Require Import Ascii String.
From S2P Require Import Prelude GoStd GoText Errors Protocol Framing Proc Connection.
From S2P Require Import ConnectionProps ConnectionSpec Registry RegistrySpec RegistryOps RegistryProps.
From S2P Require Import Batch Dispatcher DispatcherFacts Config ConfigFacts Handler Serve RequestSafety.
From S2P Require Import HandlerProps HandlerRuns Samples ProtocolFacts.

Local Open Scope Z_scope.
Local Open Scope go_scope.

Section answers.
Context {M : Type → Type} `{!ShardMap M} `{!ShardMapLaws M} {P : Type} `{!SlicePool P}.
Context {V PF : Type} `{!ExternalCodecs V} `{!SlicePool PF} {F R : Type}.
Context (Conn : ptr → connInfo) (fmt_p : ptr → string) (h : handlerSettings R V).
Context (reflect_New : goType → V).

Local Abbreviation state := (hstate M P V PF F).
Local Abbreviation Mo := (proc (hstate M P V PF F)).

Context (Func_Call : ptr → F → option V → Mo (reflectValue V * reflectValue error)).
Context (ReadFrom : option Z → inbound → list byte * option error).

Implicit Types s : state.

(** ** Hub methods *)

(** A callback runs on the connection, which has accepted the frames [acc]. *)
Definition at_work (acc : list (list byte)) (cs : cstate V PF) : Prop :=
  sendable cs ∧ activeHandlers (c_ops cs) ≠ 0 ∧ c_protocol cs = Some (hs_protocol h)
  ∧ c_accepted cs = acc.

(** What a method may return for a request, with the frames it queues on its
    connection before. *)
Context (reply : F → option V → reflectValue V * reflectValue error → list (list byte) → Prop).

(** Methods return, with an error whose type has nil, and may use their
    connection (and everything else) meanwhile. *)
Definition methods_return (c : ptr) : Prop :=
  ∀ f req acc s, conn_with (at_work acc) s c →
    twp (Func_Call c f req)
      (λ r s', nilable_error r ∧ ∃ own, reply f req r own ∧ conn_with (at_work (acc ++ own)) s' c) s.

(** What the dispatcher makes of a message. *)
Inductive dispatched (routes : hubDispatcher F) (msg : Message V)
    : result error (option V) → list (list byte) → Prop :=
| no_route :
    routes !! msg_Method msg = None →
    dispatched routes msg (Err (Errorf "" ErrMethodNotFound (": " ++ msg_Method msg))) []
| bad_payload route req e :
    routes !! msg_Method msg = Some route →
    Message_Decode msg (Some (reflect_New (Type_Elem (route_reqType route)))) = (req, Some e) →
    dispatched routes msg (Err e) []
| method_called route req res err isnil own :
    routes !! msg_Method msg = Some route →
    Message_Decode msg (Some (reflect_New (Type_Elem (route_reqType route)))) = (req, None) →
    reply (m_Func (route_method route)) req (res, err) own → Value_IsNil err = Some isnil →
    dispatched routes msg
      (if isnil then Ok (if isNilValue res then None else Some (rv_Interface res))
       else Err (rv_Interface err)) own.

(** No panic. *)
Definition returns {A} (r : result error A) : result failure A :=
  match r with Ok a => Ok a | Err e => Err (Returned e) end.

Lemma twp_dispatch c routes msg acc s :
  methods_return c → conn_with (at_work acc) s c →
  twp (dispatch reflect_New (Func_Call c) (Some routes) msg)
    (λ r s', ∃ r0 own, r = returns r0 ∧ dispatched routes msg r0 own
                       ∧ conn_with (at_work (acc ++ own)) s' c) s.
Proof.
  intros Hm Hc. unfold dispatch. destruct (routes !! msg_Method msg) as [route|] eqn:Hr.
  - destruct (Message_Decode _ _) as [req [e|]] eqn:Hd.
    + exists (Err e), []. rewrite app_nil_r. split; [done|]. split; [by eapply bad_payload|done].
    + apply twp_bind. eapply twp_mono; [by apply Hm|]. intros [res err] s' ([isnil Hnil] & own & Hrep & Hw).
      cbn in Hnil. pose proof (method_called routes msg route req res err isnil own Hr Hd Hrep Hnil).
      rewrite Hnil. destruct isnil; [by eexists (Ok _), own|by eexists (Err _), own].
  - eexists (Err _), []. rewrite app_nil_r. split; [done|]. split; [by apply no_route|done].
Qed.

(** ** Answers *)

(** The reference frame that answers an invocation. *)
Definition answer (id : string) (r : result error (option V)) : result error (list byte) :=
  match r with
  | Err e => rawFrameBytes (Some (hs_protocol h)) FrameKindError "" id (bytes (error_text e))
  | Ok v => encodedFrameBytes (Some (hs_protocol h)) FrameKindCompletion "" id v
  end.

(** Why a frame that could be built was not queued: the connection is done, its
    queue is closed, or it was too slow and has lost its socket. *)
Definition lost (e : error) (cs : cstate V PF) : Prop :=
  c_ctx cs = Some e
  ∨ (e = (ErrHandlerShuttingDown : error) ∧ c_sendClosed cs = true)
  ∨ (e = (ErrSlowConsumer : error) ∧ ∀ w, c_ws cs = Some w → ws_closed w = true).

(** The answer [o] is queued after the frames [acc], or the error says why not. *)
Definition answered (o : result error (list byte)) (acc : list (list byte)) (err : option error)
    (cs : cstate V PF) : Prop :=
  match err with
  | None => ∃ frame, o = Ok frame ∧ c_accepted cs = acc ++ [frame]
  | Some e => c_accepted cs = acc ∧ (o = Err e ∨ lost e cs)
  end.

Lemma send_outcome_answered o acc err cs cs' :
  at_work acc cs → send_outcome cs CtxConn o err cs' → answered o acc err cs'.
Proof.
  intros (Hs & Hh & _ & Ha) Hout. unfold answered, lost.
  destruct Hout as [Hn|e s' _ -> [] _|f e s' _ -> He [] Hctx|f s' _ -> _ Hcl [] _|f s' _ -> _ _ _ [] _ Hw
                   |f s' _ -> _ _ _ _ Hacc].
  - exfalso. apply Hn. by right.
  - split; [congruence|by left].
  - split; [congruence|]. right. left. rewrite Hctx. by destruct He.
  - split; [congruence|]. right. right. left. split; congruence.
  - split; [congruence|]. right. right. by right.
  - exists f. by rewrite Hacc, Ha.
Qed.

(** The answer survives the end of the callback. *)
Lemma answered_ops o acc err cs v : answered o acc err cs → answered o acc err (set_ops v cs).
Proof. by destruct err. Qed.

(** What the return of a message leaves. *)
Definition message_done (routes : hubDispatcher F) (msg : Message V) (acc : list (list byte))
    (err : option error) (cs : cstate V PF) : Prop :=
  ∃ r own, dispatched routes msg r own ∧
    if msg_Kind msg =? FrameKindInvoke
    then answered (answer (msg_InvocationID msg) r) (acc ++ own) err cs
    else err = match r with Ok _ => None | Err e => Some e end ∧ c_accepted cs = acc ++ own.

Lemma message_done_ops routes msg acc err cs v :
  message_done routes msg acc err cs → message_done routes msg acc err (set_ops v cs).
Proof.
  intros (r & own & Hd & Hr). exists r, own. split; [done|].
  case_match; [by apply answered_ops|done].
Qed.

Lemma twp_dispatchMessage c routes msg acc s :
  methods_return c → conn_with (at_work acc) s c →
  msg_Kind msg = FrameKindInvoke ∨ msg_Kind msg = FrameKindMessage →
  twp (dispatchMessage reflect_New Func_Call c (Some routes) msg)
    (λ err s', conn_with (message_done routes msg acc err) s' c) s.
Proof.
  intros Hm Hc Hkind. unfold dispatchMessage.
  assert (Hanswer : ∀ r own err cs cs', dispatched routes msg r own → msg_Kind msg = FrameKindInvoke →
    at_work (acc ++ own) cs → send_outcome cs CtxConn (answer (msg_InvocationID msg) r) err cs' →
    message_done routes msg acc err cs').
  { intros r own err cs cs' Hd Hk Hw Hout. exists r, own. split; [done|]. rewrite Hk.
    by eapply send_outcome_answered. }
  destruct Hkind as [Hk|Hk]; rewrite Hk; cbn [Z.eqb FrameKindInvoke FrameKindMessage].
  - change (FrameKindInvoke =? FrameKindMessage) with false.
    change (FrameKindInvoke =? FrameKindInvoke) with true. cbn iota.
    apply twp_bind. eapply twp_mono; [by apply twp_dispatch|].
    intros r s' ([v|e] & own & -> & Hd & cs & Hcs & Hw); cbn [returns];
      (eapply twp_on_conn; [exact Hcs|]); destruct (id Hw) as (Hs & _ & Hp & _).
    + eapply twp_mono; [by apply twp_sendEncoded|]. intros err cs' Hout. exists cs'.
      split; [apply lookup_insert_eq|]. eapply Hanswer; [exact Hd|done|exact Hw|].
      unfold answer. by rewrite <- Hp.
    + eapply twp_mono; [by apply twp_sendRaw|]. intros err cs' Hout. exists cs'.
      split; [apply lookup_insert_eq|]. eapply Hanswer; [exact Hd|done|exact Hw|].
      unfold answer. by rewrite <- Hp.
  - change (FrameKindMessage =? FrameKindMessage) with true. cbn iota.
    apply twp_bind. eapply twp_mono; [by apply twp_dispatch|].
    intros r s' (r0 & own & -> & Hd & cs & Hcs & (_ & _ & _ & Ha)).
    destruct r0 as [v|e]; exists cs; (split; [done|]); eexists _, own; (split; [exact Hd|]); by rewrite Hk.
Qed.

(** ** From the bytes to the answer *)

Lemma twp_emit e (Q : unit → state → Prop) s : Q tt (add_event e s) → twp (emit e) Q s.
Proof. apply twp_modify. Qed.

(** A callback around [fn]: refused while draining, otherwise counted. *)
Lemma twp_runHandlerOperation c cs (fn : Mo (option error)) (Q : option error → cstate V PF → Prop) s :
  h_conns s !! c = Some cs → sendable cs → 0 ≤ activeHandlers (c_ops cs) →
  c_protocol cs = Some (hs_protocol h) →
  (∀ err cs v, Q err cs → Q err (set_ops v cs)) →
  (∀ s', conn_with (at_work (c_accepted cs)) s' c →
     twp fn (λ err s', conn_with (Q err) s' c) s') →
  twp (Serve.runHandlerOperation c fn)
    (λ err s', if draining (c_ops cs)
               then err = Some (ErrHandlerShuttingDown : error) ∧ s' = s
               else conn_with (Q err) s' c) s.
Proof.
  intros Hc [] Hn Hp HQ Hfn. unfold Serve.runHandlerOperation. apply twp_bind.
  eapply twp_on_conn; [exact Hc|]. apply twp_atomically. unfold beginHandlerOperation_ops.
  destruct (draining (c_ops cs)) eqn:Hd; cbn [fst snd negb].
  - split; [done|]. replace (set_ops (c_ops cs) cs) with cs by (by destruct cs).
    by rewrite insert_id, set_conns_same.
  - apply twp_bind. eapply twp_mono.
    { apply Hfn. eexists. split; [apply lookup_insert_eq|]. split; [|split; [|done]].
      - split; cbn; try done. rewrite beginOperation_count. lia.
      - cbn. unfold beginOperationLocked. destruct (_ =? 0); cbn; lia. }
    intros err s' (cs' & Hcs' & HQ'). apply twp_bind. eapply twp_on_conn; [exact Hcs'|].
    apply twp_atomically. eexists. split; [apply lookup_insert_eq|]. by apply HQ.
Qed.

Context (hub : hub state V) (Hhub : OnMessage hub = None).

Lemma twp_handle_message c cs routes msg A s :
  RegOk Conn fmt_p (h_registry s) A → methods_return c →
  h_conns s !! c = Some cs → sendable cs → 0 ≤ activeHandlers (c_ops cs) →
  c_protocol cs = Some (hs_protocol h) →
  msg_Kind msg = FrameKindInvoke ∨ msg_Kind msg = FrameKindMessage →
  twp (handle_message Conn fmt_p reflect_New Func_Call c hub (Some routes) msg)
    (λ err s', if draining (c_ops cs)
               then err = Some (ErrHandlerShuttingDown : error) ∧ h_conns s' !! c = Some cs
               else conn_with (message_done routes msg (c_accepted cs) err) s' c) s.
Proof.
  intros HR Hm Hc Hs Hn Hp Hkind. unfold handle_message. rewrite Hhub.
  apply twp_bind, twp_on_registry. eapply twp_mono; [by apply twp_touch|]. intros [] r _.
  replace (msg_Kind msg =? FrameKindPing) with false by (by destruct Hkind as [-> | ->]).
  replace (msg_Kind msg =? FrameKindPong) with false by (by destruct Hkind as [-> | ->]).
  eapply twp_mono.
  - apply (twp_runHandlerOperation c cs _ (message_done routes msg (c_accepted cs)));
      [exact Hc|exact Hs|exact Hn|exact Hp|intros; by apply message_done_ops|].
    intros s' Hw. apply twp_bind, twp_emit. by apply twp_dispatchMessage.
  - intros err s' Hout. destruct (draining (c_ops cs)); [|done]. by destruct Hout as [-> ->].
Qed.

(** C6. A frame that arrives is answered.  A binary message whose bytes decode to an
    invocation or a message, read alone on a usable connection of a hub with methods, is
    always handled to the end when the methods return.  If the connection
    drains, it is refused and nothing is sent.  Otherwise the route of its name is
    called with the decoded payload, and an invocation gets exactly one
    frame back, after those the method sent itself: the completion with the
    result, or the error of the method, of the payload or of the missing route;
    unless that frame breaks a limit or the connection is lost, which the
    returned error says, ending the read loop. *)
Theorem frame_answered c cs routes limit m data msg A s
    (Hread : ReadFrom limit m = (data, None)) (Hpool : Forall (eq []) (h_bpool s))
    (Hdecode : pc_decodeFrame (Some (hs_protocol h)) data = Ok msg)
    (Hkind : msg_Kind msg = FrameKindInvoke ∨ msg_Kind msg = FrameKindMessage)
    (HR : RegOk Conn fmt_p (h_registry s) A) (Hmethods : methods_return c)
    (Hc : h_conns s !! c = Some cs) (Hs : sendable cs) (Hhandlers : 0 ≤ activeHandlers (c_ops cs))
    (Hp : c_protocol cs = Some (hs_protocol h)) :
  twp (handle_frame Conn fmt_p h reflect_New Func_Call ReadFrom c hub (Some routes) limit m)
    (λ err s', if draining (c_ops cs)
               then err = Some (ErrHandlerShuttingDown : error) ∧ h_conns s' !! c = Some cs
               else conn_with (message_done routes msg (c_accepted cs) err) s' c) s.
Proof.
  unfold handle_frame. apply twp_bind. split; [done|]. intros b s1 Hin.
  assert (Hb : b = [] ∧ h_registry s1 = h_registry s ∧ h_conns s1 = h_conns s).
  { apply elem_of_cons in Hin as [[= -> ->]|Hin]; [done|].
    apply elem_of_lookup_imap in Hin as (i & b' & [= -> ->] & Hi). split_and!; [|done..].
    rewrite Forall_forall in Hpool. symmetry. apply Hpool. by eapply list_elem_of_lookup_2. }
  destruct Hb as (-> & Er & Ec). rewrite Hread. cbn beta iota.
  cbn [twp]. rewrite app_nil_l, Hdecode.
  apply twp_bind. eapply twp_mono; [apply (twp_handle_message c cs routes msg A)|];
    rewrite ?Er, ?Ec; try done.
  intros err s2 Hout. apply twp_bind, twp_modify. exact Hout.
Qed.
End answers.

(** ** Witness *)

(** A connection in a group of a handler with one hub method, that echoes. *)
Definition echo_connection : cstate (list byte) unit :=
  newConnection (Some (hs_protocol sample_settings)) (Some {| ws_written := []; ws_closed := false |})
    16 1000 0 tt 0.

Definition echo_handler : hstate (gmap string) unit (list byte) unit nat :=
  set_conns {[ 1%nat := echo_connection ]} (set_registry sample_busy (newHandlerState tt 1000)).

Definition echo_reply (f : nat) (req : option (list byte))
    (r : reflectValue (list byte) * reflectValue error) (own : list (list byte)) : Prop :=
  r = (echoed (default [] req), no_error) ∧ own = [].

Definition echo_invocation : inbound :=
  {| in_type := MessageBinary;
     in_data := frameBytes (pc_serialization (Some (hs_protocol sample_settings))) FrameKindInvoke
                  (bytes "Echo") (bytes "7") [x05; x06] |}.

Definition echo_completion : list byte :=
  frameBytes (pc_serialization (Some (hs_protocol sample_settings))) FrameKindCompletion
    [] (bytes "7") [x05; x06].

Definition echo_message : Message (list byte) :=
  {| msg_Header := {| Magic := 5; Version := 1; Codec := 2; Kind := 1; MethodLen := 4;
                      InvocationIDLen := 1; BodyLen := 2 |};
     msg_Kind := FrameKindInvoke; msg_Method := "Echo"; msg_InvocationID := "7";
     msg_Payload := [x05; x06]; msg_codec := pc_codec (hs_protocol sample_settings) |}.

Lemma echo_methods_return : methods_return (F := nat) (P := unit) sample_settings
  (pr_Func_Call server_program) echo_reply 1%nat.
Proof.
  intros f req acc s Hc. split; [by exists true|]. exists []. rewrite app_nil_r. split; [by split|done].
Qed.

(** The invocation of [Echo] is answered with its own payload, or the
    connection is lost. *)
Lemma frame_answered_witness :
  twp (handle_frame sample_conn sample_fmt sample_settings (λ _, []) (pr_Func_Call server_program)
         (λ _ m, (in_data m, None)) 1%nat (server_hub tt) (Some (buildDispatcher sample_methods))
         None echo_invocation)
    (λ err s', conn_with (answered (Ok echo_completion) [] err) s' 1%nat) echo_handler.
Proof.
  eapply twp_mono.
  - apply (frame_answered sample_conn sample_fmt sample_settings (λ _, [])
      (pr_Func_Call server_program) (λ _ m, (in_data m, None)) echo_reply (server_hub tt) eq_refl
      1%nat echo_connection (buildDispatcher sample_methods) None echo_invocation
      (in_data echo_invocation) echo_message sample_spec echo_handler);
      [reflexivity|constructor|by vm_compute|by left|exact sample_busy_ok|exact echo_methods_return
      |reflexivity|by split|done|reflexivity].
  - intros err s' (cs & Hcs & r & own & Hd & Hans). exists cs. split; [exact Hcs|]. cbn in Hans.
    destruct Hd as [Hr|route req e Hr Hdec|route req res e isnil own Hr Hdec [[= -> ->] ->] [= <-]].
    + by vm_compute in Hr.
    + vm_compute in Hr. injection Hr as <-. by vm_compute in Hdec.
    + vm_compute in Hr. injection Hr as <-. vm_compute in Hdec. injection Hdec as <-.
      exact Hans.
Defined.
