(* ===== verification/Heartbeat.v ===== *)
(** * What one heartbeat does

    [closeExpiredIdleConnections] run alone on a registry that represents a
    map: it closes the connections that were silent too long and no others, and
    what the loop waits for afterwards. *)

From Stdlib Require Import Ascii String.
From S2P Require Import Prelude GoStd GoText Errors Protocol Framing Proc Connection ConnectionProps.
From S2P Require Import Registry RegistrySpec RegistryOps RegistryReads RegistryProps RegistryMoves.
From S2P Require Import Batch BatchFacts Dispatcher Config ConfigFacts Handler HandlerRuns Samples.

Local Open Scope Z_scope.
Local Open Scope go_scope.

Section heartbeat.
Context {M : Type → Type} `{!ShardMap M} `{!ShardMapLaws M} {P : Type} `{!SlicePool P}.
Context {V PF : Type} `{!ExternalCodecs V} `{!SlicePool PF} {F R : Type}.
Context (Conn : ptr → connInfo) (fmt_p : ptr → string) (h : handlerSettings R V).

Local Abbreviation state := (hstate M P V PF F).
Local Abbreviation Mo := (proc (hstate M P V PF F)).

Implicit Types s : state.

(** ** Connections that are left alone *)

Definition others_kept (l : list ptr) s s' : Prop :=
  ∀ conn, conn ∉ l → h_conns s' !! conn = h_conns s !! conn.

#[export] Instance others_kept_PreOrder l : PreOrder (others_kept l).
Proof. split; [by intros s conn|]. intros s1 s2 s3 H1 H2 conn Hc. by rewrite H2, H1. Qed.

Lemma others_kept_more l l' s s' : l ⊆ l' → others_kept l s s' → others_kept l' s s'.
Proof. intros Hl H conn Hc. apply H. set_solver. Qed.

Lemma always_on_conn c {A} (p : proc (cstate V PF) A) : always (others_kept [c]) (on_conn c p : Mo A).
Proof.
  induction p as [a|X f k IH]; cbn; [done|]. split; [|done]. intros s x s' Hin conn Hc.
  destruct (h_conns s !! c); [|by apply not_elem_of_nil in Hin].
  apply list_elem_of_fmap in Hin as ([x' c'] & [= -> ->] & _). cbn. apply lookup_insert_ne. set_solver.
Qed.

Lemma twp_cut_only s conn :
  is_Some (h_conns s !! conn) →
  twp (on_conn conn (closeContext theConn) ;;; on_conn conn (closeNow theConn) ;;; mret tt)
    (λ _ s', (conns_close s s' ∧ conn_with cut_off s' conn) ∧ others_kept [conn] s s') s.
Proof.
  intros Hc. apply twp_always; [apply _| |by apply twp_cut_conn].
  apply always_bind; [apply always_on_conn|]. intros []. apply always_bind; [apply always_on_conn|done].
Qed.

(** The loop over the expired connections. *)
Lemma twp_cut_list s l :
  present s l →
  twp (for_each l (λ conn,
         on_conn conn (closeContext theConn) ;;; on_conn conn (closeNow theConn) ;;; mret tt))
    (λ _ s', conns_close s s' ∧ (∀ conn, conn ∈ l → conn_with cut_off s' conn)
       ∧ others_kept l s s') s.
Proof.
  intros Hl.
  eapply (twp_for_each _ _ (λ d s', conns_close s s' ∧ (∀ conn, conn ∈ d → conn_with cut_off s' conn)
    ∧ others_kept d s s')).
  - split; [reflexivity|]. split; [by intros conn ?%not_elem_of_nil|reflexivity].
  - intros d conn rest s1 Hsplit (Hs1 & Hd & Ho).
    eapply twp_mono; [apply twp_cut_only; eapply conns_close_some; [exact Hs1|]; apply Hl; set_solver|].
    intros [] s2 [[Hs2 Hc] Ho2]. split; [by etransitivity|]. split.
    + intros conn' [Hin|[= ->]%list_elem_of_singleton]%elem_of_app; [|done].
      eapply conns_close_cut; [exact Hs2|by apply Hd].
    + etransitivity; (eapply others_kept_more; [|eassumption]); set_solver.
Qed.

(** ** The sweep *)

Local Abbreviation timeout := (cfg_PingTimeout (hs_cfg h)).

(** What the loop waits for when the registry represents [A]. *)
Definition next_wait (A : areg) : Z * bool :=
  if Z.of_nat (size A) =? 0 then (0, false) else (goquot timeout 2, true).

Lemma twp_next_wait A s :
  0 < timeout → RegOk Conn fmt_p (h_registry s) A →
  twp (on_registry (nextExpiration timeout)) (λ wait s', s' = s ∧ wait = next_wait A) s.
Proof.
  intros Ht HR. apply twp_on_registry. eapply twp_mono; [by eapply twp_nextExpiration|].
  intros w r [-> ->]. rewrite set_registry_same. split; [done|]. unfold next_wait.
  destruct (Z.ltb_spec 0 timeout); [|lia]. cbn [andb]. by destruct (Z.of_nat (size A) =? 0).
Qed.

Definition woken s : state := if heartbeatEnabled h then set_heartbeatWake true s else s.

Lemma woken_fields s :
  h_registry (woken s) = h_registry s ∧ h_conns (woken s) = h_conns s ∧ h_online (woken s) = h_online s.
Proof. unfold woken. by destruct (heartbeatEnabled h). Qed.

Lemma twp_wakeHeartbeatLoop (Q : unit → state → Prop) s :
  Q tt (woken s) → twp (wakeHeartbeatLoop h) Q s.
Proof.
  unfold wakeHeartbeatLoop, woken. destruct (heartbeatEnabled h); cbn [negb]; [|done]. apply twp_modify.
Qed.

Lemma conns_of_expired A deadline conn : conn ∈ conns_of (spec_expired A deadline) → conn ∈ conns_of A.
Proof.
  rewrite !conns_of_spec. intros (k & e & He & <-). exists k, e.
  by apply map_lookup_filter_Some in He as [? _].
Qed.

Lemma conns_of_length A (l : list ptr) : l ≡ₚ conns_of A → zlen l = Z.of_nat (size A).
Proof. intros Hl. unfold zlen. rewrite Hl. unfold conns_of. by rewrite length_fmap, length_map_to_list. Qed.

(** C14. A heartbeat closes the silent connections and no others.  Run alone on a
    handler whose registry represents [A], the sweep never blocks; afterwards the
    registry represents the connections seen within the ping timeout, the online
    counter is lower by the number of the rest, and these have their context done and
    their socket closed, while every other connection is as it was.  The loop is
    woken when something was closed, and then waits half a timeout, or
    until it is woken when no connection is left. *)
Theorem sweep_closes_silent A s
    (HR : RegOk Conn fmt_p (h_registry s) A) (Hconns : present s (conns_of A))
    (Htimeout : 0 < timeout) (Hclock : is_i64 (r_now (h_registry s) - timeout)) :
  let deadline := r_now (h_registry s) - timeout in
  let silent := spec_expired A deadline in
  let alive := spec_alive A deadline in
  twp (closeExpiredIdleConnections Conn h)
    (λ _ s',
       RegOk Conn fmt_p (h_registry s') alive
       ∧ h_online s' = h_online s - Z.of_nat (size silent)
       ∧ (∀ conn, conn ∈ conns_of silent → conn_with cut_off s' conn)
       ∧ others_kept (conns_of silent) s s'
       ∧ (silent ≠ ∅ → heartbeatEnabled h = true → h_heartbeatWake s' = true)
       ∧ twp (on_registry (nextExpiration timeout))
           (λ wait s2, s2 = s' ∧ wait = next_wait alive) s') s.
Proof.
  intros deadline silent alive. unfold closeExpiredIdleConnections.
  apply twp_bind, twp_reads, twp_bind, twp_on_registry.
  eapply twp_mono; [by apply twp_expired|]. intros l r (HR' & Hnow & Hl).
  rewrite i64_small in HR', Hl by done. destruct (Z.leb_spec timeout 0) as [|_]; [lia|].
  fold deadline silent alive in HR', Hl. pose proof (conns_of_length _ _ Hl) as Hn.
  destruct (Z.eqb_spec (zlen l) 0) as [Hz|Hz].
  - assert (silent = ∅) as He by (apply map_size_empty_inv; lia).
    split_and!; [done|cbn; lia| |done|by rewrite He|by apply twp_next_wait].
    intros conn. rewrite He. unfold conns_of. rewrite map_to_list_empty. by intros ?%not_elem_of_nil.
  - apply twp_bind, twp_modify, twp_bind. eapply twp_mono; [apply twp_cut_list|].
    { intros conn Hin. rewrite Hl in Hin. change (is_Some (h_conns s !! conn)).
      by eapply Hconns, conns_of_expired. }
    intros [] s2 (Hs2 & Hcut & Hkept). destruct (conns_close_fields _ _ Hs2) as (Ereg & _).
    destruct (woken_fields s2) as (E1 & E2 & E3). apply twp_wakeHeartbeatLoop. split_and!.
    + by rewrite E1, Ereg.
    + rewrite E3. destruct Hs2 as [-> _]. cbn. lia.
    + intros conn Hin. unfold conn_with. rewrite E2. apply Hcut. by rewrite Hl.
    + intros conn Hno. rewrite E2, Hkept; [done|]. by rewrite Hl.
    + intros _ Hen. unfold woken. by rewrite Hen.
    + apply twp_next_wait; [done|]. by rewrite E1, Ereg.
Qed.
End heartbeat.

(** ** Witness *)

(** Two connections; nine seconds pass, the second one sends a frame. *)
Definition later_ops : list reg_op :=
  [OpAdd 1%nat; OpAdd 2%nat; OpTick 9000000000; OpTouch 2%nat].

Definition later_registry : rstate (gmap string) unit :=
  (hd ([], sample_registry) (outcomes (run_ops sample_conn sample_fmt later_ops) sample_registry)).2.

Definition later_spec : areg := (spec_run sample_conn sample_fmt later_ops ∅ 1000).1.

Lemma later_registry_ok : RegOk sample_conn sample_fmt later_registry later_spec.
Proof.
  apply (twp_head _ (λ _ s', RegOk sample_conn sample_fmt s' later_spec)).
  eapply twp_mono.
  - apply (twp_run_ops sample_conn sample_fmt later_ops ∅ sample_registry).
    + apply new_RegOk.
    + by vm_compute.
  - by intros rs s' (_ & H & _).
Qed.

Definition later_handler : hstate (gmap string) unit (list byte) unit nat :=
  set_online 2 (set_conns {[ 1%nat := sample_cstate; 2%nat := sample_cstate ]}
    (set_registry later_registry (newHandlerState tt 1000))).

Lemma later_handler_present : present later_handler (conns_of later_spec).
Proof.
  assert (H : Forall (λ c, is_Some (h_conns later_handler !! c)) (conns_of later_spec)).
  { assert (E : conns_of later_spec = [1%nat; 2%nat]) by by vm_compute.
    rewrite E. repeat constructor; cbn; eauto. }
  by rewrite Forall_forall in H.
Qed.

(** The first connection is closed and the second is not touched. *)
Lemma sweep_closes_silent_witness :
  twp (closeExpiredIdleConnections sample_conn sample_settings)
    (λ _ s', h_online s' = 1 ∧ conn_with cut_off s' 1%nat
       ∧ h_conns s' !! 2%nat = Some sample_cstate ∧ h_heartbeatWake s' = true) later_handler.
Proof.
  assert (E : conns_of (spec_expired later_spec (9000001000 - 7500000000)) = [1%nat]) by by vm_compute.
  eapply twp_mono.
  - apply (sweep_closes_silent sample_conn sample_fmt sample_settings later_spec later_handler);
      [exact later_registry_ok|exact later_handler_present|reflexivity|by vm_compute].
  - change (r_now (h_registry later_handler) - cfg_PingTimeout (hs_cfg sample_settings))
      with (9000001000 - 7500000000). cbn zeta.
    intros [] s' (_ & Hon & Hcut & Hkept & Hwake & _). rewrite E in Hcut, Hkept. split_and!.
    + rewrite Hon. reflexivity.
    + apply Hcut. left.
    + rewrite Hkept; [reflexivity|]. set_solver.
    + apply Hwake; [|reflexivity]. intros H0. by rewrite H0 in E.
Defined.
