(* ===== verification/Lifecycle.v ===== *)
(** * What a hub sees of a connection

    The events of one connection, in every interleaving of a handler: nothing, or
    [OnConnected], messages, and [OnDisconnected] last and once.  The wait group covers
    connections whose [OnDisconnected] is to come, when [OnConnected] does not
    return [ErrHandlerShuttingDown] itself. *)

From Stdlib Require Import Ascii String.
From S2P Require Import Prelude GoStd GoText Errors Protocol Framing Proc Locks Connection.
From S2P Require Import ConnectionProps Registry RegistryProps Batch Dispatcher Config Handler.
From S2P Require Import HandlerInv Serve RequestSafety HandlerProps Quiet Samples ConfigFacts DispatcherFacts.

Local Open Scope Z_scope.
Local Open Scope go_scope.

(** ** Stories *)

Inductive phase := Unseen | Opened | Closed.

#[export] Instance phase_eq_dec : EqDecision phase.
Proof. solve_decision. Defined.

Definition about (c : ptr) (e : event) : bool :=
  match e with
  | Connected c' | Received c' _ | Disconnected c' _ => Nat.eqb c c'
  | _ => false
  end.

Definition story (c : ptr) (es : list event) : list event := filter (about c) es.

(** The story of a connection in each phase. *)
Definition tells (c : ptr) (ph : phase) (es : list event) : Prop :=
  match ph with
  | Unseen => es = []
  | Opened => ∃ methods, es = Connected c :: (Received c <$> methods)
  | Closed => ∃ methods err, es = Connected c :: (Received c <$> methods) ++ [Disconnected c err]
  end.

Lemma story_app c es evs : story c (es ++ evs) = story c es ++ story c evs.
Proof. apply filter_app. Qed.

Lemma story_own c e : about c e = true → story c [e] = [e].
Proof. intros He. unfold story. cbn. by rewrite He. Qed.

Lemma story_other c e : about c e = false → story c [e] = [].
Proof. intros He. unfold story. cbn. by rewrite He. Qed.

Lemma tells_connected c es : tells c Unseen es → tells c Opened (es ++ [Connected c]).
Proof. cbn. intros ->. by exists []. Qed.

Lemma tells_received c m es : tells c Opened es → tells c Opened (es ++ [Received c m]).
Proof. intros [ms ->]. exists (ms ++ [m]). by rewrite fmap_app. Qed.

Lemma tells_disconnected c err es : tells c Opened es → tells c Closed (es ++ [Disconnected c err]).
Proof. intros [ms ->]. by exists ms, err. Qed.

(** ** The invariant *)

(** What the goroutine of a request holds: how far its connection has come,
    and whether the wait group counts the request. *)
Record life_tok := Life { lt_conn : ptr; lt_phase : phase; lt_counted : bool }.

Definition counted_of (l : life_tok) : list unit := if lt_counted l then [tt] else [].

(** An opened connection is counted, if hubs are [polite] (below). *)
Record life_state (polite : Prop) (v : list event * Z) (t : list life_tok) : Prop := {
  li_conns : NoDup (lt_conn <$> t);
  li_story l : l ∈ t → tells (lt_conn l) (lt_phase l) (story (lt_conn l) v.1);
  li_others c : c ∉ lt_conn <$> t → story c v.1 = [];
  li_opened : polite → ∀ l, l ∈ t → lt_phase l = Opened → lt_counted l = true;
  li_active : v.2 = zlen (t ≫= counted_of);
}.

Definition any_change (v v' : list event * Z) : Prop := True.

#[export] Instance any_change_PreOrder : PreOrder any_change.
Proof. by split. Qed.

Section invariant.
Context (polite : Prop).

#[export] Instance life_state_proper v : Proper ((≡ₚ) ==> iff) (life_state polite v).
Proof.
  assert (H : ∀ t1 t2, t1 ≡ₚ t2 → life_state polite v t1 → life_state polite v t2).
  { intros t1 t2 Ht []. constructor.
    - by rewrite <- Ht.
    - intros l. rewrite <- Ht. auto.
    - intros c. rewrite <- Ht. auto.
    - intros Hp l. rewrite <- Ht. auto.
    - unfold zlen in *. by rewrite <- Ht. }
  intros t1 t2 Ht. split; by apply H.
Qed.

(** A request moves on: events of its own connection, and the wait group counts
    it or not. *)
Lemma life_move c ph ph' a a' es n fr evs :
  life_state polite (es, n) (Life c ph a :: fr) →
  (∀ c', c' ≠ c → story c' evs = []) →
  (tells c ph (story c es) → tells c ph' (story c es ++ story c evs)) →
  (polite → ph' = Opened → a' = true) →
  life_state polite (es ++ evs, n + (if a' then 1 else 0) - (if a then 1 else 0)) (Life c ph' a' :: fr).
Proof.
  intros [Hnd Hst Hoth Hop Hact] Hown Htell Hpol. cbn [fmap list_fmap lt_conn fst snd] in *.
  apply NoDup_cons in Hnd as [Hni Hnd].
  assert (Hsame : ∀ c', c' ≠ c → story c' (es ++ evs) = story c' es).
  { intros c' Hne. by rewrite story_app, Hown, app_nil_r. }
  constructor; cbn [fmap list_fmap lt_conn fst snd].
  - by constructor.
  - intros l [->|Hl]%elem_of_cons; cbn [lt_conn lt_phase].
    + rewrite story_app. apply Htell, (Hst (Life c ph a)). left.
    + rewrite Hsame; [apply Hst; by right|]. intros Heq. apply Hni. rewrite <- Heq. by apply list_elem_of_fmap_2.
  - intros c' Hni'. apply not_elem_of_cons in Hni' as [Hne Hni']. rewrite Hsame by done.
    apply Hoth. by apply not_elem_of_cons.
  - intros Hp l [->|Hl]%elem_of_cons; cbn; [by apply Hpol|]. apply Hop; [done|by right].
  - assert (Hz : ∀ x b, zlen ((Life c x b :: fr) ≫= counted_of)
                        = (if b then 1 else 0) + zlen (fr ≫= counted_of)).
    { intros x b. cbn. rewrite zlen_app. by destruct b. }
    rewrite Hact, !Hz. lia.
Qed.

(** What is not about a connection goes on beside them. *)
Lemma life_aside es n t e :
  life_state polite (es, n) t → (∀ c, about c e = false) → life_state polite (es ++ [e], n) t.
Proof.
  intros [] He. constructor; cbn [fst snd] in *; try done.
  - intros l Hl. rewrite story_app, (story_other _ e) by done. rewrite app_nil_r. auto.
  - intros c Hc. rewrite story_app, (story_other _ e) by done. rewrite app_nil_r. auto.
Qed.
End invariant.

(** ** Hubs that do not confuse the server *)

Section requests.
Context {M : Type → Type} `{!ShardMap M} {P : Type} `{!SlicePool P}.
Context {V PF : Type} `{!ExternalCodecs V} `{!SlicePool PF} {F R H : Type}.
Context (p : program M P V PF F R H) (Hp : well_behaved p).

Local Abbreviation state := (hstate M P V PF F).
Local Abbreviation Mo := (proc (hstate M P V PF F)).

Definition unlike_shutdown (err : option error) : Prop :=
  ∀ e, err = Some e → errors_Is e ErrHandlerShuttingDown = false.

(** [OnConnected] does not return an error that looks like the server's own. *)
Definition polite : Prop := ∀ y c, yields unlike_shutdown (OnConnected (pr_hub_of p y) c).

(** ** Requests *)

Definition events_and_count (s : state) : list event * Z := (h_events s, h_active s).

Local Abbreviation lives := (life_state polite).
Local Abbreviation inv := (view_inv events_and_count lives).
Local Abbreviation keeps := (view_keeps events_and_count any_change).
Local Abbreviation steady := (carries events_and_count lives any_change).
Local Abbreviation becomes t t' := (safe inv keeps (λ _ t0, t0 = t') t).

Lemma life_ignores : ignores events_and_count.
Proof.
  split; try done. intros s. unfold stop_heartbeat. by destruct (h_heartbeatStopOnce s).
Qed.

Lemma steady_Shutdown ctx : steady [] (Shutdown ctx : Mo _).
Proof.
  apply carries_bind.
  - apply carries_atomic; [apply _|]. intros s x s' Hin.
    destruct (h_shutdownOnce s); [|by apply not_elem_of_nil in Hin|];
      by apply list_elem_of_singleton in Hin as [= -> ->].
  - intros [err|]; [apply carries_mret|].
    apply carries_bind; [apply carries_shutdown; [apply _|apply life_ignores]|]. intros err.
    apply carries_bind; [by apply carries_modify; [apply _|]|]. intros _. apply carries_mret.
Qed.

Lemma steady_user t A (q : Mo A) : client (pr_Conn p) (pr_fmt_p p) A q → steady t q.
Proof. apply carries_user; [apply _|apply life_ignores|apply steady_Shutdown]. Qed.

Lemma steady_on_conn t c {A} (q : proc (cstate V PF) A) : steady t (on_conn c q : Mo A).
Proof. apply carries_on_conn; [apply _|apply life_ignores]. Qed.

Lemma steady_remove t c : steady t (removeConnection (pr_Conn p) (pr_fmt_p p) (pr_handler p) c : Mo _).
Proof. apply carries_removeConnection; [apply _|apply life_ignores]. Qed.

Lemma steady_emit t e : (∀ c, about c e = false) → steady t (emit e : Mo unit).
Proof.
  intros He. apply (safe_act _ _ _ _ _ _ (λ _, t)); [|done].
  intros s fr x s' Hi [= -> ->]%list_elem_of_singleton. split; [done|]. by apply life_aside.
Qed.

(** The events of the request's connection. *)
Lemma emit_own c ph ph' e :
  (∀ c', about c' e = Nat.eqb c' c) → ph' ≠ Unseen →
  (∀ es, tells c ph es → tells c ph' (es ++ [e])) →
  becomes [Life c ph true] [Life c ph' true] (emit e : Mo unit).
Proof.
  intros He Hph Htell. apply (safe_act _ _ _ _ _ _ (λ _, [Life c ph' true])); [|done].
  intros s fr x s' Hi [= -> ->]%list_elem_of_singleton. split; [done|].
  unfold view_inv, events_and_count in *. cbn [h_events h_active add_event].
  replace (h_active s) with (h_active s + 1 - 1) by lia.
  apply (life_move _ c ph ph' true true); [done| | |done].
  - intros c' Hne. apply story_other. rewrite He. by apply Nat.eqb_neq.
  - rewrite (story_own c); [apply Htell|]. by rewrite He, Nat.eqb_refl.
Qed.

Lemma steady_received c method : steady [Life c Opened true] (emit (Received c method) : Mo unit).
Proof. apply emit_own; [done|done|]. apply tells_received. Qed.

(** Admission counts the request, and its end does no longer. *)
Lemma count_request c ph (a a' : bool) n :
  (polite → ph = Opened → a' = true) → n = (if a' then 1 else 0) - (if a then 1 else 0) →
  becomes [Life c ph a] [Life c ph a'] (add_active n : Mo unit).
Proof.
  intros Hph ->. apply (safe_act _ _ _ _ _ _ (λ _, [Life c ph a'])); [|done].
  intros s fr x s' Hi [= -> ->]%list_elem_of_singleton. split; [done|].
  unfold view_inv, events_and_count in *. cbn [h_events h_active set_active].
  rewrite <- (app_nil_r (h_events s)), Z.add_sub_assoc.
  apply (life_move _ c ph ph a a'); [done|done| |done]. cbn. by rewrite app_nil_r.
Qed.

(** Steady steps, then what follows. *)
Lemma steady_then {A B} Q t (q : Mo A) (g : A → Mo B) :
  steady t q → (∀ a, safe inv keeps Q t (g a)) → safe inv keeps Q t (proc_bind g q).
Proof. intros Hq Hg. eapply safe_bind; [exact Hq|]. intros a t' ->. apply Hg. Qed.

Lemma becomes_then {B} Q t t' (q : Mo unit) (g : unit → Mo B) :
  becomes t t' q → safe inv keeps Q t' (g tt) → safe inv keeps Q t (proc_bind g q).
Proof. intros Hq Hg. eapply safe_bind; [exact Hq|]. by intros [] t0 ->. Qed.

Lemma life_addConnection c :
  safe inv keeps (λ ok t, t = [Life c Unseen ok]) [Life c Unseen false]
    (addConnection (pr_Conn p) (pr_fmt_p p) (pr_handler p) c : Mo bool).
Proof.
  unfold addConnection, unlock_admissionMu.
  apply steady_then; [apply carries_lock; [apply _|apply life_ignores]|]. intros [].
  apply steady_then; [by apply carries_reads; apply _|]. intros [].
  - apply steady_then; [by apply carries_modify; [apply _|]|]. by intros [].
  - eapply becomes_then; [by apply (count_request c Unseen false true 1)|].
    apply steady_then; [apply carries_on_registry; [apply _|apply life_ignores]|]. intros [].
    apply steady_then; [apply carries_add_online; [apply _|apply life_ignores]|]. intros [].
    apply steady_then; [apply carries_wake; [apply _|apply life_ignores]|]. intros [].
    apply steady_then; [by apply carries_modify; [apply _|]|]. by intros [].
Qed.

(** [OnConnected], and why it did not run. *)
Lemma life_connected c (y : H) :
  safe inv keeps
    (λ err t, (t = [Life c Unseen true] ∧ err = Some (ErrHandlerShuttingDown : error))
              ∨ (t = [Life c Opened true] ∧ (polite → unlike_shutdown err)))
    [Life c Unseen true]
    (Serve.runHandlerOperation c (emit (Connected c) ;;; OnConnected (pr_hub_of p y) c)).
Proof.
  unfold Serve.runHandlerOperation. apply steady_then; [apply steady_on_conn|]. intros [].
  - eapply safe_bind.
    + eapply becomes_then; [apply (emit_own c Unseen Opened); [done|done|apply tells_connected]|].
      eapply (safe_yields _ _ _ polite unlike_shutdown); [apply steady_user, Hp|]. intros Hpol. apply Hpol.
    + intros err t [-> Herr]. apply steady_then; [apply steady_on_conn|]. intros _. by right.
  - by left.
Qed.

(** [OnDisconnected], last. *)
Lemma life_disconnected c (y : H) err :
  becomes [Life c Opened true] [Life c Closed true] (disconnected c (pr_hub_of p y) err).
Proof.
  eapply becomes_then; [apply (emit_own c Opened Closed); [done|done|intros es; apply tells_disconnected]|].
  by apply steady_user, Hp.
Qed.

(** A counted request whose connection is not open, or whose hub is impolite. *)
Definition told (c : ptr) (t : list life_tok) : Prop :=
  ∃ ph, t = [Life c ph true] ∧ (polite → ph ≠ Opened).

Lemma life_serve_connection c (y : H) limit inbox :
  safe inv keeps (λ _, told c) [Life c Unseen true]
    (serve_connection (pr_Conn p) (pr_fmt_p p) (pr_handler p) (pr_Methods p) (pr_reflect_New p)
       (pr_Func_Call p) (pr_any_of p) (pr_remoteAddr p) (pr_ReadFrom p) c (pr_hub_of p y) limit inbox).
Proof.
  assert (Hclose : ∀ t, told c t → safe inv keeps (λ _, told c) t
    (_ <- on_conn c (closeNow theConn) ;;; mret true : Mo bool)).
  { intros t Ht. apply steady_then; [apply steady_on_conn|]. done. }
  assert (Hend : ∀ err (q : Mo bool), safe inv keeps (λ _, told c) [Life c Closed true] q →
    safe inv keeps (λ _, told c) [Life c Opened true]
      (removeConnection (pr_Conn p) (pr_fmt_p p) (pr_handler p) c ;;;
       disconnected c (pr_hub_of p y) err ;;; q)).
  { intros err q Hq. apply steady_then; [apply steady_remove|]. intros [].
    eapply becomes_then; [apply life_disconnected|exact Hq]. }
  assert (Hclosed : told c [Life c Closed true]) by by exists Closed.
  unfold serve_connection. eapply safe_bind; [apply life_connected|].
  intros [e|] t Ht; [destruct (errors_Is e ErrHandlerShuttingDown) eqn:He|].
  - apply steady_then; [apply steady_on_conn|]. intros _. cbn.
    destruct Ht as [[-> _]|[-> Hpol]]; [by exists Unseen|]. exists Opened. split; [done|].
    intros HK. specialize (Hpol HK e eq_refl). congruence.
  - destruct Ht as [[-> [= ->]]|[-> _]]; [by vm_compute in He|]. apply Hend, Hclose, Hclosed.
  - destruct Ht as [[_ [=]]|[-> _]].
    apply steady_then; [apply steady_on_conn|]. intros [e|]; [apply Hend, Hclose, Hclosed|].
    apply steady_then; [|intros err; apply Hend, Hclosed].
    apply carries_reading; [exact Hp|apply _|apply life_ignores|apply steady_Shutdown| |apply Hp].
    apply steady_received.
Qed.

(** What a request holds when it is over. *)
Definition settled (c : ptr) (t : list life_tok) : Prop :=
  ∃ ph, t = [Life c ph false] ∧ (polite → ph ≠ Opened).

Lemma settled_unseen c : settled c [Life c Unseen false].
Proof. by exists Unseen. Qed.

Lemma life_close_unserved c t : settled c t → safe inv keeps (λ _, settled c) t (close_unserved c : Mo unit).
Proof.
  intros Ht. apply steady_then; [apply steady_on_conn|]. intros _.
  eapply safe_mono; [apply (steady_on_conn t)|]. by intros _ t' ->.
Qed.

Lemma life_serve_admitted c (y : H) limit inbox :
  safe inv keeps (λ _, settled c) [Life c Unseen false]
    (serve_admitted (pr_Conn p) (pr_fmt_p p) (pr_handler p) (pr_Methods p) (pr_reflect_New p)
       (pr_Func_Call p) (pr_any_of p) (pr_remoteAddr p) (pr_ReadFrom p) c (pr_hub_of p y) limit inbox).
Proof.
  unfold serve_admitted. eapply safe_bind; [apply life_addConnection|]. intros [] t ->.
  - eapply safe_bind; [apply life_serve_connection|]. intros removed t (ph & -> & Hph).
    apply steady_then; [apply steady_on_conn|]. intros [].
    apply steady_then; [case_match; [apply carries_mret|apply steady_remove]|]. intros [].
    eapply safe_mono; [apply (count_request c ph true false (-1)); [intros HK Ho; by destruct (Hph HK)|done]|].
    intros _ t ->. by exists ph.
  - apply life_close_unserved, settled_unseen.
Qed.

Lemma life_ServeHTTP (x : exchange R PF) :
  safe inv keeps (λ _, settled (x_conn x)) [Life (x_conn x) Unseen false] (pr_serve p x).
Proof.
  pose proof (settled_unseen (x_conn x)) as Hs.
  assert (Hemit : ∀ e, (∀ c, about c e = false) →
    safe inv keeps (λ _, settled (x_conn x)) [Life (x_conn x) Unseen false] (emit e : Mo unit)).
  { intros e He. eapply safe_mono; [by apply (steady_emit [Life (x_conn x) Unseen false])|].
    by intros _ t ->. }
  unfold pr_serve, ServeHTTP. case_match; [by apply Hemit|].
  apply steady_then; [by apply carries_reads; apply _|]. intros [].
  { by apply Hemit. }
  match goal with |- context [if ?b then emit (HTTPError 403) else _] => destruct b end;
    [by apply Hemit|]. case_match; [exact Hs|].
  apply steady_then; [by apply steady_emit|]. intros []. case_match; [|by apply Hemit].
  destruct (resolveUserID _ _) as [u [e|]]; [by apply Hemit|]. unfold serve_upgraded.
  apply steady_then; [apply carries_new_connection; [apply _|apply life_ignores]|]. intros [].
  apply steady_then; [apply steady_user, Hp|].
  intros [[y|] [e|]]; first [by apply life_close_unserved|apply life_serve_admitted].
Qed.
End requests.

(** ** Pools *)

Section pools.
Context {M : Type → Type} `{!ShardMap M} `{!ShardMapLaws M} {P : Type} `{!SlicePool P}.
Context {V PF : Type} `{!ExternalCodecs V} `{!SlicePool PF} `{!SlicePoolLaws PF} {F R H : Type}.
Context (p : program M P V PF F R H) (Hp : well_behaved p).

Local Abbreviation state := (hstate M P V PF F).
Local Abbreviation Mo := (proc (hstate M P V PF F)).
Local Abbreviation inv := (view_inv events_and_count (life_state (polite p))).
Local Abbreviation keeps := (view_keeps events_and_count any_change).

Context (fuel : nat) (xs : list (exchange R PF)) (others : list (Mo unit)).
Context (Hxs : requests_ok p xs) (Hothers : Forall (bystander p) others) (pool : P) (now : Z).

Local Abbreviation start := (handler_pool p fuel xs others (newHandlerState pool now)).

Definition unseen (x : exchange R PF) : life_tok := Life (x_conn x) Unseen false.

Lemma unseen_conns : lt_conn <$> (unseen <$> xs) = x_conn <$> xs.
Proof. by rewrite <- list_fmap_compose. Qed.

Lemma life_start : inv (newHandlerState pool now : state) (unseen <$> xs).
Proof.
  constructor; cbn [events_and_count fst snd].
  - rewrite unseen_conns. by apply (requests_NoDup p xs Hxs).
  - by intros l (x & -> & _)%list_elem_of_fmap.
  - done.
  - by intros _ l (x & -> & _)%list_elem_of_fmap.
  - clear. by induction xs.
Qed.

Lemma life_pool_ok : pool_ok inv keeps (λ _, True) start.
Proof.
  assert (Hsteady : ∀ q : Mo unit, carries events_and_count (life_state (polite p)) any_change [] q →
    safe inv keeps (λ _ _, True) [] q) by (intros q Hq; by eapply safe_mono).
  exists (((λ x, [unseen x]) <$> xs) ++ ((λ _, []) <$> xs) ++ [] :: ((λ _, []) <$> others)). split.
  - cbn. apply Forall2_app; [|apply Forall2_app; [|constructor]].
    + apply Forall2_fmap, Forall_Forall2_diag, Forall_true. intros x.
      eapply safe_mono; [by apply life_ServeHTTP|done].
    + apply Forall2_fmap, Forall_Forall2_diag, Forall_true. intros x. apply Hsteady, steady_on_conn.
    + apply Hsteady, carries_heartbeatLoop; [apply _|apply life_ignores].
    + apply Forall2_fmap_l, Forall_Forall2_diag. eapply Forall_impl; [exact Hothers|]. intros q Hq.
      apply Hsteady. eapply carries_bystander; [apply _|apply life_ignores|apply steady_Shutdown|exact Hq].
  - replace (mjoin _) with (unseen <$> xs); [apply life_start|].
    rewrite !join_app. cbn. rewrite !mjoin_nils, app_nil_r. clear. induction xs; cbn; [done|]. by f_equal.
Qed.

(** C9. A hub sees every connection from beginning to end.  In every interleaving
    and for every connection, what its hub saw so far is nothing; or [OnConnected]
    and then messages; or that with [OnDisconnected] once and last.  When no
    request is admitted, in particular when [Shutdown] has returned nil,
    [OnDisconnected] was called for every connection that was announced, if no
    [OnConnected] returns an error that matches [ErrHandlerShuttingDown]. *)
Theorem connection_lifecycle c (Hc : pool_steps start c) conn :
  ∃ ph, tells conn ph (story conn (h_events c.2))
    ∧ (polite p → h_active c.2 = 0 ∨ h_shutdownOnce c.2 = OnceDone None → ph ≠ Opened).
Proof.
  destruct (pool_ok_steps inv keeps (λ s, life_state_proper _ _) _ _ _ life_pool_ok Hc)
    as [(toks & _ & Hi) _].
  destruct Hi as [_ Hst Hoth Hop Hact]. cbn [events_and_count fst snd] in *.
  destruct (decide (conn ∈ lt_conn <$> mjoin toks)) as [(l & -> & Hl)%list_elem_of_fmap|Hno].
  - exists (lt_phase l). split; [by apply Hst|]. intros Hpol Hz Ho. specialize (Hop Hpol l Hl Ho).
    assert (Hin : tt ∈ mjoin toks ≫= counted_of).
    { apply list_elem_of_bind. exists l. split; [|done]. unfold counted_of. rewrite Hop. left. }
    assert (h_active c.2 = 0) as Hzero.
    { destruct Hz as [?|Hd]; [done|]. by destruct (done_empty p Hp fuel xs others Hxs Hothers pool now c Hc Hd) as (_ & ? & _). }
    rewrite Hzero in Hact. destruct (mjoin toks ≫= counted_of); [by apply not_elem_of_nil in Hin|done].
  - exists Unseen. split; [by apply Hoth|done].
Qed.
End pools.

(** ** Witnesses *)

Lemma server_polite : polite server_program.
Proof. intros [] c. apply yields_bind. intros _. by intros e [=]. Qed.

Lemma connection_lifecycle_witness :
  h_active server_done.2 = 0
  ∧ tells 1%nat Closed (story 1%nat (h_events server_done.2))
  ∧ ∃ ph, tells 1%nat ph (story 1%nat (h_events server_done.2)) ∧ ph ≠ Opened.
Proof.
  assert (Hz : h_active server_done.2 = 0) by by vm_compute.
  split; [exact Hz|]. split.
  - eexists [], _. by vm_compute.
  - destruct (connection_lifecycle server_program server_well_behaved 3 server_requests server_others
      server_requests_ok server_others_ok tt 1000 server_done server_done_steps 1%nat) as (ph & Ht & Hph).
    exists ph. split; [exact Ht|]. exact (Hph server_polite (or_introl Hz)).
Defined.

(** A hub that sends to a group when a client connects, and passes the error
    of [SendGroup] on. *)
Definition sending_hub (_ : unit) : hub (hstate (gmap string) unit (list byte) unit nat) (list byte) :=
  {| hub_type := TNamed "Hub" KStruct false;
     OnConnected c :=
       down <- reads h_shuttingDown ;;;
       mret (if down : bool then Some (ErrHandlerShuttingDown : error) else None);
     OnDisconnected c err := mret tt;
     OnMessage := None;
     OnPing := None |}.

Definition sending_program : program (gmap string) unit (list byte) unit nat unit unit :=
  {| pr_handler := sample_settings;
     pr_Conn := server_conn; pr_fmt_p := server_fmt;
     pr_Methods t := sample_methods;
     pr_reflect_New t := [];
     pr_Func_Call c f req := mret (echoed (default [] req), no_error);
     pr_any_of v := [x01];
     pr_remoteAddr c := "";
     pr_ReadFrom limit m := (in_data m, None);
     pr_hub_of := sending_hub;
     pr_factory c := mret (Some tt, None) |}.

Definition sending_pool : pool (hstate (gmap string) unit (list byte) unit nat) :=
  handler_pool sending_program 3 [server_request 1 "a" []] server_others (newHandlerState tt 1000).

(** The client connects, the handler starts to shut down while [OnConnected]
    runs, the request and its writer finish, and [Shutdown] returns. *)
Definition sending_run : list (nat * nat) :=
  repeat (0, 0)%nat 17 ++ repeat (3, 0)%nat 9 ++ repeat (0, 0)%nat 13 ++ repeat (1, 0)%nat 7
  ++ repeat (3, 0)%nat 5.

(** C37. The condition of [connection_lifecycle] is needed.  [ServeHTTP] takes an error of
    [OnConnected] that matches [ErrHandlerShuttingDown] for its own rejection of the
    callback: a hub that returns the error of a bulk send made while the handler
    starts to shut down is never told that its connection is gone, although
    [Shutdown] returns nil. *)
Theorem announced_never_told :
  ∃ c, pool_steps sending_pool c ∧ h_shutdownOnce c.2 = OnceDone None
    ∧ h_active c.2 = 0 ∧ Forall (eq (mret tt)) (take 2 c.1)
    ∧ story 1%nat (h_events c.2) = [Connected 1%nat].
Proof.
  exists (run_to sending_run sending_pool). split; [apply run_to_steps|].
  split_and!; [by vm_compute..| |by vm_compute].
  vm_compute. by repeat constructor.
Qed.
