(* ===== verification/HandlerOnce.v ===== *)
(** * Shutdown runs once

    The error of the first shutdown, once there, stays: everything a handler runs
    touches [shutdownOnce] only through [Shutdown]. *)

From Stdlib Require Import Ascii String.
From S2P Require Import Prelude GoStd GoText Errors Protocol Framing Proc Connection.
From S2P Require Import Registry RegistryProps Batch Dispatcher Config Handler Serve.
From S2P Require Import RequestSafety HandlerProps Quiet.

Local Open Scope Z_scope.
Local Open Scope go_scope.

(** What goroutines hold: the run of [shutdownOnce.Do], and the result it left. *)
Inductive once_tok :=
| InOnce
| Result (err : option error).

Definition inside (o : once_tok) : list unit := match o with InOnce => [tt] | Result _ => [] end.

Record once_state (o : once) (t : list once_tok) : Prop := {
  oi_inside : t ≫= inside = match o with OnceRunning => [tt] | _ => [] end;
  oi_result err : Result err ∈ t → o = OnceDone err;
}.

(** A result stays. *)
Definition once_after (o o' : once) : Prop := ∀ err, o = OnceDone err → o' = OnceDone err.

#[export] Instance once_after_PreOrder : PreOrder once_after.
Proof. split; [by intros o err|]. intros o1 o2 o3 H1 H2 err ?. by apply H2, H1. Qed.

Notation once_inv := (view_inv h_shutdownOnce once_state).
Notation once_keeps := (view_keeps h_shutdownOnce once_after).
Notation orderly := (carries h_shutdownOnce once_state once_after []).

Section once.
Context {M : Type → Type} `{!ShardMap M} {P : Type} `{!SlicePool P}.
Context {V PF : Type} `{!ExternalCodecs V} `{!SlicePool PF} {F R : Type}.

Local Abbreviation state := (hstate M P V PF F).
Local Abbreviation Mo := (proc (hstate M P V PF F)).

Implicit Types s : state.
Implicit Types t : list once_tok.

#[export] Instance once_inv_proper s : Proper ((≡ₚ) ==> iff) (once_inv s).
Proof.
  assert (H : ∀ t1 t2, t1 ≡ₚ t2 → once_inv s t1 → once_inv s t2).
  { intros t1 t2 Ht [H1 H2]. split; [|intros err; rewrite <- Ht; apply H2].
    assert (Hp : t2 ≫= inside ≡ₚ t1 ≫= inside) by by rewrite Ht.
    rewrite H1 in Hp. destruct (h_shutdownOnce s); [by apply Permutation_nil_r in Hp
      |by apply Permutation_singleton_r in Hp|by apply Permutation_nil_r in Hp]. }
  intros t1 t2 Ht. split; by apply H.
Qed.

Lemma once_ignores : ignores (h_shutdownOnce : state → once).
Proof.
  split; try done. intros s. unfold stop_heartbeat. by destruct (h_heartbeatStopOnce s).
Qed.

(** [Shutdown], for a caller that keeps the knowledge of its result or not. *)
Definition kept (keep : bool) (err : option error) : list once_tok :=
  if keep then [Result err] else [].

Lemma once_inv_kept s fr keep err :
  once_inv s fr → h_shutdownOnce s = OnceDone err → once_inv s (kept keep err ++ fr).
Proof.
  intros [H1 H2] Ho. destruct keep; [|done]. split; [done|].
  by intros err' [[= ->]|?]%elem_of_cons; [|auto].
Qed.

(** Entering takes the run, unless there is a result. *)
Lemma safe_enter_shutdown keep :
  safe once_inv once_keeps
    (λ r t, t = match r with None => [InOnce] | Some err => kept keep err end) [] (enter_shutdown : Mo _).
Proof.
  apply (safe_act _ _ _ _ _ _ (λ r, match r with None => [InOnce] | Some err => kept keep err end)); [|done].
  intros s fr r s' Hi Hin. cbn in Hi.
  destruct (h_shutdownOnce s) as [| |err] eqn:Ho; [|by apply not_elem_of_nil in Hin|];
    apply list_elem_of_singleton in Hin as [= -> ->].
  - destruct Hi as [H1 H2]. rewrite Ho in *. split; [intros err He; cbn in *; congruence|].
    split; cbn; [by rewrite H1|]. intros err [?|Hr]%elem_of_cons; [done|]. by specialize (H2 err Hr).
  - split; [reflexivity|]. by apply once_inv_kept.
Qed.

(** Leaving gives the run back, and the result stays. *)
Lemma safe_leave_shutdown keep err :
  safe once_inv once_keeps (λ _ t, t = kept keep err) [InOnce]
    (modify (set_shutdownOnce (OnceDone err)) : Mo unit).
Proof.
  apply (safe_act _ _ _ _ _ _ (λ _, kept keep err)); [|done].
  intros s fr x s' [H1 H2] [= -> ->]%list_elem_of_singleton. cbn in H1.
  destruct (h_shutdownOnce s) eqn:Ho; try done. injection H1 as H1. split.
  - intros err' He. cbn in *. congruence.
  - apply once_inv_kept; [|done]. split; [done|]. intros err' Hr.
    specialize (H2 err'). discriminate H2. by right.
Qed.

Lemma safe_Shutdown keep ctx :
  safe once_inv once_keeps (λ err t, t = kept keep err) [] (Shutdown ctx : Mo _).
Proof.
  eapply safe_bind; [apply (safe_enter_shutdown keep)|]. intros [err|] t ->; [done|].
  eapply (safe_bind_frame _ _ _ _ [] [InOnce]); [by apply (carries_shutdown _ _ _ once_ignores [])|]. intros err t ->.
  eapply safe_bind; [apply (safe_leave_shutdown keep)|]. by intros [] t ->.
Qed.

Lemma orderly_Shutdown ctx : orderly (Shutdown ctx : Mo _).
Proof. exact (safe_Shutdown false ctx). Qed.
End once.

(** ** Every goroutine of a handler *)

Section pools.
Context {M : Type → Type} `{!ShardMap M} {P : Type} `{!SlicePool P}.
Context {V PF : Type} `{!ExternalCodecs V} `{!SlicePool PF} {F R H : Type}.
Context (p : program M P V PF F R H) (Hp : well_behaved p).

Local Abbreviation state := (hstate M P V PF F).
Local Abbreviation Mo := (proc (hstate M P V PF F)).

Lemma orderly_emit e : orderly (emit e : Mo unit).
Proof. by apply carries_modify; [apply _|]. Qed.

Lemma orderly_client A (q : Mo A) : client (pr_Conn p) (pr_fmt_p p) A q → orderly q.
Proof. apply carries_user; [apply _|apply once_ignores|apply orderly_Shutdown]. Qed.

Lemma orderly_bystander q : bystander p q → orderly q.
Proof. apply carries_bystander; [apply _|apply once_ignores|apply orderly_Shutdown]. Qed.

Lemma orderly_readLoop c (hub : hub state V) limit inbox :
  client_hub (pr_Conn p) (pr_fmt_p p) hub →
  orderly (readLoop (pr_Conn p) (pr_fmt_p p) (pr_handler p) (pr_Methods p) (pr_reflect_New p)
    (pr_Func_Call p) (pr_ReadFrom p) c hub limit inbox).
Proof.
  apply carries_reading; [done|apply _|apply once_ignores|apply orderly_Shutdown|].
  intros m. apply orderly_emit.
Qed.

Lemma orderly_on_conn c {A} (q : proc (cstate V PF) A) : orderly (on_conn c q : Mo A).
Proof. apply carries_on_conn; [apply _|apply once_ignores]. Qed.

Lemma orderly_run c (fn : Mo (option error)) : orderly fn → orderly (Serve.runHandlerOperation c fn).
Proof. apply carries_runHandlerOperation; [apply _|apply once_ignores]. Qed.

Lemma orderly_remove c : orderly (removeConnection (pr_Conn p) (pr_fmt_p p) (pr_handler p) c : Mo _).
Proof. apply carries_removeConnection; [apply _|apply once_ignores]. Qed.

Lemma orderly_disconnected c (hub : hub state V) err :
  client_hub (pr_Conn p) (pr_fmt_p p) hub → orderly (disconnected c hub err).
Proof. intros []. apply carries_bind; [apply orderly_emit|]. intros _. by eapply orderly_client. Qed.

Lemma orderly_finish : orderly (finishConnection : Mo unit).
Proof. by apply carries_modify; [apply _|]. Qed.

(** Programs made of these. *)
Ltac orderly :=
  repeat (intros; first
    [ assumption | apply orderly_emit | apply orderly_on_conn | apply orderly_remove
    | by apply orderly_disconnected | by apply orderly_readLoop
    | apply carries_ret; apply _ | apply carries_mret; apply _ | apply carries_reads; apply _
    | apply orderly_run | apply orderly_finish
    | apply carries_bind
    | case_match ]).

Lemma orderly_serve_admitted c (hub : hub state V) limit inbox :
  client_hub (pr_Conn p) (pr_fmt_p p) hub →
  orderly (serve_admitted (pr_Conn p) (pr_fmt_p p) (pr_handler p) (pr_Methods p) (pr_reflect_New p)
    (pr_Func_Call p) (pr_any_of p) (pr_remoteAddr p) (pr_ReadFrom p) c hub limit inbox).
Proof.
  intros Hhub. pose proof (orderly_client _ _ (ch_connected _ _ _ Hhub c)) as Hc.
  unfold serve_admitted, serve_connection, close_unserved, sendConnected.
  apply carries_bind; [apply carries_addConnection; [apply _|apply once_ignores|done]|]. intros ok.
  destruct (negb ok); orderly.
Qed.

Lemma orderly_ServeHTTP (x : exchange R PF) : orderly (pr_serve p x).
Proof.
  unfold pr_serve, ServeHTTP, serve_upgraded, close_unserved. destruct Hp.
  repeat (intros; first
    [ by apply orderly_serve_admitted
    | apply carries_new_connection; [apply _|apply once_ignores]
    | by eapply orderly_client
    | apply orderly_emit | apply orderly_on_conn
    | apply carries_mret; apply _ | apply carries_reads; apply _
    | apply carries_bind
    | case_match ]).
Qed.

Lemma handler_pool_orderly fuel xs others s :
  Forall (bystander p) others → Forall orderly (handler_pool p fuel xs others s).1.
Proof.
  intros Ho. cbn. apply Forall_app. split; [|apply Forall_app; split; [|constructor]].
  - apply Forall_fmap, Forall_true. intros x. apply orderly_ServeHTTP.
  - apply Forall_fmap, Forall_true. intros x. apply orderly_on_conn.
  - apply carries_heartbeatLoop; [apply _|apply once_ignores].
  - eapply Forall_impl; [exact Ho|]. apply orderly_bystander.
Qed.
End pools.
