(* ===== verification/ServerFacts.v ===== *)
(** * What the server guarantees

    Every run of a server projects to a run of its handler's goroutines, so
    that the theorems of HandlerProps.v apply; and an invariant of the server's
    own fields says that it listens once and what its [Shutdown] returns. *)

From Stdlib Require Import Ascii String.
From S2P Require Import Prelude GoStd GoText Errors Protocol Framing Proc Locks Connection.
From S2P Require Import ConnectionProps Registry RegistryProps RegistryCalls Batch Dispatcher Config.
From S2P Require Import Handler HandlerInv Serve RequestSafety HandlerProps HandlerOnce HandlerAPI Server.
From S2P Require Import Samples ConfigFacts BatchFacts.

Local Open Scope Z_scope.
Local Open Scope go_scope.

(** ** Projecting runs *)

Section projection.
Context {S S' : Type} (view : S → S').

(** Every action of [q] leaves the view alone or is the next action of [p]
    on it. *)
Fixpoint proj {A B} (q : proc S A) (p : proc S' B) : Prop :=
  match q with
  | Ret _ => True
  | Act f k =>
      (∀ s x s', (x, s') ∈ f s → view s' = view s ∧ proj (k x) p)
      ∨ match p with
        | Ret _ => False
        | Act g kp =>
            ∀ s x s', (x, s') ∈ f s → ∃ y, (y, view s') ∈ g (view s) ∧ proj (k x) (kp y)
        end
  end.

Lemma proj_step ts ps s c' :
  Forall2 proj ts ps → pool_step (ts, s) c' →
  ∃ ps', pool_steps (ps, view s) (ps', view c'.2) ∧ Forall2 proj c'.1 ps'.
Proof.
  intros Hts Hstep. inversion Hstep as [i X f k x s0 s' ts0 Hi Hin]; simplify_eq. cbn.
  destruct (Forall2_lookup_l _ _ _ _ _ Hts Hi) as (p & Hp & [H|H]).
  - destruct (H s x s' Hin) as [-> Hk]. exists ps. split; [apply rtc_refl|].
    rewrite <- (list_insert_id ps i p) by done. by apply Forall2_insert.
  - destruct p as [|Y g kp]; [done|]. destruct (H s x s' Hin) as (y & Hy & Hk).
    exists (<[i := kp y]> ps). split; [|by apply Forall2_insert].
    apply rtc_once. by eapply pool_step_intro.
Qed.

Lemma proj_steps ts ps s c' :
  Forall2 proj ts ps → pool_steps (ts, s) c' →
  ∃ ps', pool_steps (ps, view s) (ps', view c'.2).
Proof.
  intros Hts Hsteps. remember (ts, s) as c eqn:E. revert ts s ps E Hts.
  induction Hsteps as [c|c [ts1 s1] c' Hstep _ IH]; intros ts s ps -> Hts.
  - exists ps. apply rtc_refl.
  - destruct (proj_step _ _ _ _ Hts Hstep) as (ps1 & H1 & Hts1).
    destruct (IH _ _ _ eq_refl Hts1) as (ps' & H2). exists ps'. by etransitivity.
Qed.

(** An action that leaves the view alone. *)
Definition apart {X} (f : S → list (X * S)) : Prop := ∀ s x s', (x, s') ∈ f s → view s' = view s.

Lemma proj_apart {A B X} (f : S → list (X * S)) (k : X → proc S A) (p : proc S' B) :
  apart f → (∀ x, proj (k x) p) → proj (Act f k) p.
Proof. intros Hf Hk. left. eauto. Qed.

Lemma proj_assoc {A B C D} (q : proc S A) (g1 : A → proc S B) (g2 : B → proc S C) (p : proc S' D) :
  proj (proc_bind (λ a, proc_bind g2 (g1 a)) q) p → proj (proc_bind g2 (proc_bind g1 q)) p.
Proof.
  revert p. induction q as [a|X f k IH]; intros p; [done|]. cbn. intros [Hq|Hq]; [left|right].
  - intros s x s' Hin. destruct (Hq s x s' Hin) as [? Hk]. split; [done|]. by apply IH.
  - destruct p as [|Y g kp]; [done|]. intros s x s' Hin.
    destruct (Hq s x s' Hin) as (y & ? & Hk). exists y. split; [done|]. by apply IH.
Qed.
End projection.

Section server.
Context {M : Type → Type} `{!ShardMap M} `{!ShardMapLaws M} {P : Type} `{!SlicePool P}.
Context {V PF : Type} `{!ExternalCodecs V} `{!SlicePool PF} `{!SlicePoolLaws PF} {F R H : Type}.
Context (cfg : serverSettings R V) (net_Listen : string → list (option error)).
Context (close_errors : list error).

Local Abbreviation state := (sstate M P V PF F).
Local Abbreviation Mo := (proc (sstate M P V PF F)).
Local Abbreviation HMo := (proc (hstate M P V PF F)).

Implicit Types s : state.

Lemma proj_on_handler {A B C} (p : HMo A) (g : A → Mo B) (g' : A → HMo C) :
  (∀ a, proj s_handler (g a) (g' a)) → proj s_handler (proc_bind g (on_handler p)) (proc_bind g' p).
Proof.
  intros Hg. induction p as [a|X f k IH]; [apply Hg|]. right.
  intros s x s' ([y s1] & [= -> ->] & Hin)%list_elem_of_fmap. eauto.
Qed.

(** ** The goroutines of a server *)

(** Calls of the server and of its handler; the goroutine of [Shutdown]; and
    goroutines of the handler. *)
Inductive server_call :=
| CallStart
| CallShutdown (ctx : option nat)
| CallHandlerShutdown (ctx : option nat).

Definition run_server_call (c : server_call) : Mo unit :=
  match c with
  | CallStart => _ <- Start cfg net_Listen ;;; mret tt
  | CallShutdown ctx => _ <- Server.Shutdown ctx ;;; mret tt
  | CallHandlerShutdown ctx => _ <- on_handler (Handler.Shutdown ctx) ;;; mret tt
  end.

Definition server_pool (calls : list server_call) (goroutines : list (HMo unit)) s : pool state :=
  ((on_handler <$> goroutines) ++ http_shutdown close_errors :: (run_server_call <$> calls), s).

(** What such a call is for the handler. *)
Definition handler_part (c : server_call) : HMo unit :=
  match c with
  | CallStart => mret tt
  | CallShutdown ctx | CallHandlerShutdown ctx => _ <- Handler.Shutdown ctx ;;; mret tt
  end.

Lemma apart_single {X} (x : X) (f : state → state) :
  (∀ s, s_handler (f s) = s_handler s) → apart s_handler (λ s, [(x, f s)]).
Proof. by intros Hf s y s' [= -> ->]%list_elem_of_singleton. Qed.

Lemma proj_lock {A B} (g : unit → Mo A) (p : HMo B) :
  proj s_handler (g tt) p → proj s_handler (proc_bind g lock_mu) p.
Proof.
  intros Hg. apply proj_apart; [|by intros []]. intros s x s' Hin.
  destruct (s_mu s); [by apply not_elem_of_nil in Hin|].
  by apply list_elem_of_singleton in Hin as [= -> ->].
Qed.

Lemma proj_reads {X A B} (r : state → X) (g : X → Mo A) (p : HMo B) :
  (∀ x, proj s_handler (g x) p) → proj s_handler (proc_bind g (reads r)) p.
Proof.
  intros Hg. apply proj_apart; [|exact Hg]. by intros s x s' [= -> ->]%list_elem_of_singleton.
Qed.

Lemma proj_modify {A B} (f : state → state) (g : unit → Mo A) (p : HMo B) :
  (∀ s, s_handler (f s) = s_handler s) → proj s_handler (g tt) p →
  proj s_handler (proc_bind g (modify f)) p.
Proof. intros Hf Hg. apply proj_apart; [by apply apart_single|by intros []]. Qed.

Lemma proj_call c : proj s_handler (run_server_call c) (handler_part c).
Proof.
  destruct c as [|ctx|ctx]; cbn [run_server_call handler_part].
  - apply proj_assoc, proj_lock, proj_assoc, proj_reads. intros []; apply proj_assoc.
    + by apply proj_modify.
    + apply proj_apart; [by intros s x s' (e & [= -> ->] & _)%list_elem_of_fmap|].
      intros [e|]; apply proj_assoc; [by apply proj_modify|]. apply proj_modify; [done|].
      apply proj_assoc, proj_modify; [done|]. by apply proj_assoc, proj_modify.
  - apply proj_assoc, proj_apart.
    + intros s x s' Hin. destruct (s_shutdownOnce s); [|by apply not_elem_of_nil in Hin|];
        by apply list_elem_of_singleton in Hin as [= -> ->].
    + intros [err|]; [done|]. apply proj_assoc, proj_modify; [done|].
      apply proj_assoc, (proj_on_handler (Handler.Shutdown ctx)). intros he. apply proj_assoc, proj_apart.
      * intros s x s' Hin. destruct (s_serverDone s); [|by apply not_elem_of_nil in Hin].
        by apply list_elem_of_singleton in Hin as [= -> ->].
      * intros se. by apply proj_assoc, proj_modify.
  - apply (proj_on_handler (Handler.Shutdown ctx) _ (λ _, mret tt)). done.
Qed.
Lemma proj_http : proj s_handler (http_shutdown close_errors : Mo unit) (mret tt : HMo unit).
Proof.
  apply proj_apart.
  - intros s x s' Hin. destruct (s_shutdownCtx s); [|by apply not_elem_of_nil in Hin].
    by apply list_elem_of_singleton in Hin as [= -> ->].
  - intros ctx. apply proj_apart.
    + intros s x s' [[= -> ->]|[Hin|Hin]%elem_of_app]%elem_of_cons; [done| |].
      * by apply list_elem_of_fmap in Hin as (e & [= -> ->] & _).
      * destruct (ctx_done ctx (s_handler s)); [|by apply not_elem_of_nil in Hin].
        by apply list_elem_of_singleton in Hin as [= -> ->].
    + intros err. apply proj_apart; [by intros s x s' [= -> ->]%list_elem_of_singleton|done].
Qed.

Lemma proj_self {A} (p : HMo A) : proj s_handler (on_handler p) p.
Proof.
  induction p as [a|X f k IH]; [done|]. right.
  intros s x s' ([y s1] & [= -> ->] & Hin)%list_elem_of_fmap. eauto.
Qed.

(** What a server's run is for its handler. *)
Lemma server_projects calls goroutines s c :
  pool_steps (server_pool calls goroutines s) c →
  ∃ ps, pool_steps (goroutines ++ mret tt :: (handler_part <$> calls), s_handler s) (ps, s_handler c.2).
Proof.
  apply proj_steps. apply Forall2_app.
  - apply Forall2_fmap_l, Forall_Forall2_diag, Forall_true. intros p. apply proj_self.
  - constructor; [apply proj_http|].
    apply Forall2_fmap, Forall_Forall2_diag, Forall_true, proj_call.
Qed.

(** ** The server's own fields *)

(** The holder of the mutex: just so, knowing that there is no listener, or
    about to start the goroutine that serves. *)
Inductive holder := Holds | NotListening | ToServe.

(** Where [Shutdown] is: before and after its two waits. *)
Inductive stage :=
| Stopping
| AllStopped (handlerErr serverErr : option error).

Inductive stok :=
| SMu (m : holder)
| SStage (st : stage)
| SHttp (sent : bool)       (* the goroutine of the HTTP server *)
| SOnce (o : once_tok).     (* of the handler *)

Definition mu_of (t : stok) : list unit := match t with SMu _ => [tt] | _ => [] end.
Definition to_serve_of (t : stok) : list unit := match t with SMu ToServe => [tt] | _ => [] end.
Definition stage_of (t : stok) : list stage := match t with SStage st => [st] | _ => [] end.
Definition http_of (t : stok) : list bool := match t with SHttp b => [b] | _ => [] end.
Definition once_of (t : stok) : list once_tok := match t with SOnce o => [o] | _ => [] end.

(** The error of [Shutdown] from the two it waits for. *)
Definition joined (handlerErr serverErr : option error) : option error :=
  match handlerErr, serverErr with
  | None, None => None
  | _, _ => errors_Join [handlerErr; serverErr]
  end.

Definition stage_ok s (st : stage) : Prop :=
  match st with
  | Stopping => True
  | AllStopped he se =>
      h_shutdownOnce (s_handler s) = OnceDone he ∧ s_serverErr s = Some se
  end.

Record SI s (L : list stok) : Prop := {
  si_mu : zlen (L ≫= mu_of) = if s_mu s then 1 else 0;
  si_serving : s_serving s + zlen (L ≫= to_serve_of) = if s_listener s then 1 else 0;
  si_nonneg : 0 ≤ s_serving s;
  si_free : SMu NotListening ∈ L → s_listener s = false;
  si_once : once_inv (s_handler s) (L ≫= once_of);
  si_stage :
    match s_shutdownOnce s with
    | OnceFree => L ≫= stage_of = []
    | OnceRunning => ∃ st, L ≫= stage_of = [st] ∧ stage_ok s st
    | OnceDone err =>
        L ≫= stage_of = []
        ∧ ∃ he se, h_shutdownOnce (s_handler s) = OnceDone he ∧ s_serverErr s = Some se
                   ∧ err = joined he se
    end;
  si_http : ∃ sent, L ≫= http_of = [sent] ∧ (sent = false → s_serverErr s = None);
  si_chan err : s_serverDone s = Some err → s_serverErr s = Some err;
}.
#[export] Instance SI_proper s : Proper ((≡ₚ) ==> iff) (SI s).
Proof.
  assert (H1 : ∀ {A} (f : stok → list A) L1 L2, L1 ≡ₚ L2 → zlen (L1 ≫= f) = zlen (L2 ≫= f)).
  { intros A f L1 L2 HL. unfold zlen. by rewrite HL. }
  assert (H2 : ∀ {A} (f : stok → list A) L1 L2 l, L1 ≡ₚ L2 → L1 ≫= f = l → (length l ≤ 1)%nat →
    L2 ≫= f = l).
  { intros A f L1 L2 l HL <- Hlen. assert (Hp : L2 ≫= f ≡ₚ L1 ≫= f) by by rewrite HL.
    destruct (L1 ≫= f) as [|a [|]]; [by apply Permutation_nil_r in Hp
      |by apply Permutation_singleton_r in Hp|cbn in Hlen; lia]. }
  assert (Himp : ∀ L1 L2, L1 ≡ₚ L2 → SI s L1 → SI s L2).
  { intros L1 L2 HL []. constructor; auto.
    - by rewrite <- (H1 _ mu_of L1).
    - by rewrite <- (H1 _ to_serve_of L1).
    - rewrite <- HL. done.
    - by rewrite <- HL.
    - destruct (s_shutdownOnce s).
      + eapply H2; [done..|cbn; lia].
      + destruct si_stage0 as (st & Hst & ?). exists st. split; [|done]. eapply H2; [done..|cbn; lia].
      + destruct si_stage0 as (Hst & ?). split; [|done]. eapply H2; [done..|cbn; lia].
    - destruct si_http0 as (b & Hb & ?). exists b. split; [|done]. eapply H2; [done..|cbn; lia]. }
  intros L1 L2 HL. split; by apply Himp.
Qed.

(** The counter never falls, and what is done stays done. *)
Definition SG s s' : Prop :=
  (s_listener s = true → s_listener s' = true)
  ∧ ∀ err, s_shutdownOnce s = OnceDone err → s_shutdownOnce s' = OnceDone err.

#[export] Instance SG_PreOrder : PreOrder SG.
Proof. split; [by intros s|]. intros s1 s2 s3 [] []. split; auto. Qed.

Local Abbreviation ssafe := (safe SI SG).

(** The handler's goroutines inside the server. *)
Lemma SI_on_handler s t r fr h' t' :
  SI s ((SOnce <$> t) ++ r ++ fr) → once_keeps (s_handler s) h' →
  once_inv h' (t' ++ ((r ++ fr) ≫= once_of)) →
  SI (set_handler h' s) ((SOnce <$> t') ++ r ++ fr).
Proof.
  intros [] Hk Hi.
  assert (Hb : ∀ {A} (f : stok → list A) l, (∀ o, f (SOnce o) = []) →
    ((SOnce <$> l) ++ r ++ fr) ≫= f = (r ++ fr) ≫= f).
  { intros A f l Hf. rewrite bind_app. induction l as [|o l IH]; [done|]. cbn. by rewrite Hf. }
  rewrite !Hb in * by done. constructor; rewrite ?Hb by done; cbn; auto.
  - intros [(o & ? & _)%list_elem_of_fmap|Hin]%elem_of_app; [done|].
    apply si_free0. apply elem_of_app. by right.
  - rewrite bind_app. replace ((SOnce <$> t') ≫= once_of) with t'; [done|].
    clear. induction t'; cbn; [done|]. by f_equal.
  - destruct (s_shutdownOnce s); [done| |].
    + destruct si_stage0 as (st & ? & Hst). exists st. split; [done|].
      destruct st; cbn in *; naive_solver.
    + destruct si_stage0 as (? & he & se & ? & ? & ?). split; [done|]. exists he, se. auto.
Qed.

Lemma safe_on_handler {A} (Q : A → list once_tok → Prop) t r (p : HMo A) :
  safe once_inv once_keeps Q t p →
  ssafe (λ a t', ∃ t0, t' = (SOnce <$> t0) ++ r ∧ Q a t0) ((SOnce <$> t) ++ r) (on_handler p).
Proof.
  revert t. induction p as [a|X f k IH]; intros t Hp; [by exists t|].
  intros s fr Hi x s' ([y h'] & [= -> ->] & Hin)%list_elem_of_fmap.
  rewrite <- app_assoc in Hi. pose proof (si_once _ _ Hi) as Ho.
  rewrite bind_app in Ho. replace ((SOnce <$> t) ≫= once_of) with t in Ho
    by (clear; induction t; cbn; [done|]; by f_equal).
  destruct (Hp _ _ Ho _ _ Hin) as (Hk & t' & Hi' & Hs).
  split; [by split|]. exists ((SOnce <$> t') ++ r). split; [|by apply IH].
  rewrite <- app_assoc. by eapply SI_on_handler.
Qed.
(** One action on the server's own fields. *)
Lemma safe_own {A X} (Q : A → list stok → Prop) t (f : state → list (X * state)) (k : X → Mo A) t' :
  (∀ s fr x s', SI s (t ++ fr) → (x, s') ∈ f s → SG s s' ∧ SI s' (t' x ++ fr)) →
  (∀ x, ssafe Q (t' x) (k x)) → ssafe Q t (Act f k).
Proof. apply safe_act. Qed.

Lemma holds_alone s m fr m' : SI s (SMu m :: fr) → SMu m' ∉ fr.
Proof.
  intros [Hmu _ _ _ _ _ _ _] Hin. cbn in Hmu. rewrite zlen_cons in Hmu.
  assert (Hnil : fr ≫= mu_of = []).
  { apply nil_length_inv. unfold zlen in Hmu. destruct (s_mu s); lia. }
  assert (Htt : tt ∈ fr ≫= mu_of) by (apply list_elem_of_bind; exists (SMu m'); by split; [left|]).
  rewrite Hnil in Htt. by apply not_elem_of_nil in Htt.
Qed.

Lemma held s m fr : SI s (SMu m :: fr) → s_mu s = true ∧ zlen (fr ≫= mu_of) = 0.
Proof.
  intros [Hmu _ _ _ _ _ _ _]. cbn in Hmu. rewrite zlen_cons in Hmu.
  pose proof (zlen_nonneg (fr ≫= mu_of)). destruct (s_mu s); [split; [done|lia]|lia].
Qed.

Lemma SI_lock s fr : SI s fr → s_mu s = false → SI (set_mu true s) (SMu Holds :: fr).
Proof.
  intros [] Hmu. rewrite Hmu in *. constructor; cbn; auto.
  - rewrite zlen_cons. lia.
  - intros [?|?]%elem_of_cons; [done|auto].
Qed.

Lemma SI_unlock s m fr : SI s (SMu m :: fr) → m ≠ ToServe → SI (set_mu false s) fr.
Proof.
  intros Hi Hm. destruct (held _ _ _ Hi) as [_ Hz]. destruct Hi. constructor; cbn in *; auto.
  - by destruct m.
  - intros Hin. apply si_free0. by right.
Qed.

Lemma SI_not_listening s fr :
  SI s (SMu Holds :: fr) → s_listener s = false → SI s (SMu NotListening :: fr).
Proof. intros [] Hl. by constructor. Qed.

Lemma SI_listen s fr :
  SI s (SMu NotListening :: fr) → SI (set_listener s) (SMu ToServe :: fr).
Proof.
  intros Hi. pose proof (holds_alone _ _ _ NotListening Hi) as Hno. destruct Hi.
  rewrite (si_free0 ltac:(left)) in si_serving0. constructor; cbn in *; auto.
  - rewrite zlen_cons. lia.
  - by intros [?|?]%elem_of_cons.
Qed.

Lemma SI_serve s fr : SI s (SMu ToServe :: fr) → SI (add_serving s) (SMu Holds :: fr).
Proof.
  intros Hi. pose proof (holds_alone _ _ _ NotListening Hi) as Hno. destruct Hi.
  constructor; cbn in *; auto.
  - rewrite zlen_cons in si_serving0. lia.
  - lia.
  - by intros [?|?]%elem_of_cons.
Qed.

Lemma safe_Start : ssafe (λ _ t, t = []) [] (Start cfg net_Listen).
Proof.
  apply (safe_own _ _ _ _ (λ _, [SMu Holds])).
  { intros s fr [] s' Hi Hin. destruct (s_mu s) eqn:E; [by apply not_elem_of_nil in Hin|].
    apply list_elem_of_singleton in Hin as [= ->]. split; [by split|by apply SI_lock]. }
  intros []. apply (safe_own _ _ _ _ (λ l : bool, [SMu (if l then Holds else NotListening)])).
  { intros s fr l s' Hi [= -> ->]%list_elem_of_singleton. split; [done|].
    destruct (s_listener s) eqn:E; [done|by apply SI_not_listening]. }
  assert (Hunlock : ∀ m (k : unit → Mo (option error)), m ≠ ToServe → ssafe (λ _ t, t = []) [] (k tt) →
    ssafe (λ _ t, t = []) [SMu m] (Act (λ s, [(tt, set_mu false s)]) k)).
  { intros m k Hm Hk. apply (safe_own _ _ _ _ (λ _, [])); [|by intros []].
    intros s fr x s' Hi [= -> ->]%list_elem_of_singleton. split; [done|by eapply SI_unlock]. }
  intros []; [by apply Hunlock|]. apply (safe_own _ _ _ _ (λ _, [SMu NotListening])).
  { by intros s fr e s' Hi (e' & [= -> ->] & _)%list_elem_of_fmap. }
  intros [e|]; [by apply Hunlock|]. apply (safe_own _ _ _ _ (λ _, [SMu ToServe])).
  { intros s fr x s' Hi [= -> ->]%list_elem_of_singleton. split; [by split|by apply SI_listen]. }
  intros []. apply (safe_own _ _ _ _ (λ _, [SMu Holds])).
  { intros s fr x s' Hi [= -> ->]%list_elem_of_singleton. split; [by split|by apply SI_serve]. }
  intros []. by apply Hunlock.
Qed.
Lemma SI_enter s fr :
  SI s fr → s_shutdownOnce s = OnceFree → SI (set_once OnceRunning s) (SStage Stopping :: fr).
Proof.
  intros [] Ho. rewrite Ho in *. constructor; cbn; auto.
  - intros [?|?]%elem_of_cons; [done|auto].
  - exists Stopping. by rewrite si_stage0.
Qed.

Lemma stage_running s st fr :
  SI s (SStage st :: fr) → s_shutdownOnce s = OnceRunning ∧ fr ≫= stage_of = [] ∧ stage_ok s st.
Proof.
  intros [_ _ _ _ _ Hst _ _]. cbn in Hst.
  destruct (s_shutdownOnce s); [done| |by destruct Hst].
  by destruct Hst as (st' & [= -> ->] & ?).
Qed.

Lemma SI_received s he se fr :
  SI s (SOnce (Result he) :: SStage Stopping :: fr) → s_serverDone s = Some se →
  SI (take_serverDone s) (SStage (AllStopped he se) :: fr).
Proof.
  intros Hi Hd.
  assert (Hp : SOnce (Result he) :: SStage Stopping :: fr ≡ₚ SStage Stopping :: SOnce (Result he) :: fr)
    by constructor.
  destruct (stage_running s Stopping (SOnce (Result he) :: fr)) as (Hr & Hnil & _); [by rewrite <- Hp|].
  destruct Hi. rewrite Hr in *. cbn in *. destruct si_once0 as [Hin Hres].
  constructor; cbn; auto.
  - intros [?|?]%elem_of_cons; [done|]. apply si_free0. do 2 right. done.
  - split; [done|]. intros err Herr. apply Hres. by right.
  - rewrite Hr, Hnil. eexists. split; [done|]. split; [apply Hres; left|by apply si_chan0].
  - done.
Qed.

Lemma SI_finish s he se fr :
  SI s (SStage (AllStopped he se) :: fr) → SI (set_once (OnceDone (joined he se)) s) fr.
Proof.
  intros Hi. destruct (stage_running _ _ _ Hi) as (Hr & Hnil & Ho & Hs). destruct Hi.
  constructor; cbn in *; auto.
  - intros Hin. apply si_free0. by right.
  - split; [done|]. by exists he, se.
Qed.

Lemma safe_Server_Shutdown ctx : ssafe (λ _ t, t = []) [] (Server.Shutdown ctx).
Proof.
  apply (safe_own _ _ _ _ (λ r, match r with None => [SStage Stopping] | Some _ => [] end)).
  { intros s fr r s' Hi Hin. destruct (s_shutdownOnce s) as [| |err] eqn:Ho;
      [|by apply not_elem_of_nil in Hin|]; apply list_elem_of_singleton in Hin as [= -> ->].
    - split; [split; [done|cbn; congruence]|by apply SI_enter].
    - by split. }
  intros [err|]; [done|]. apply (safe_own _ _ _ _ (λ _, [SStage Stopping])).
  { intros s fr x s' Hi [= -> ->]%list_elem_of_singleton. split; [by split|]. by destruct Hi. }
  intros []. eapply safe_bind.
  { exact (safe_on_handler _ [] [SStage Stopping] _ (safe_Shutdown true ctx)). }
  intros he t (t0 & -> & ->). cbn [kept fmap list_fmap app].
  apply (safe_own _ _ _ _ (λ se, [SStage (AllStopped he se)])).
  { intros s fr se s' Hi Hin. destruct (s_serverDone s) as [se'|] eqn:Hd; [|by apply not_elem_of_nil in Hin].
    apply list_elem_of_singleton in Hin as [= -> ->]. split; [by split|by apply SI_received]. }
  intros se. apply (safe_own _ _ _ _ (λ _, [])); [|done].
  intros s fr x s' Hi [= -> ->]%list_elem_of_singleton.
  destruct (stage_running _ _ _ Hi) as (Hr & _). split; [split; [done|cbn; congruence]|].
  by apply SI_finish.
Qed.

(** ** The goroutine of the HTTP server *)

Lemma SI_sent s err fr :
  SI s (SHttp false :: fr) → SI (put_serverDone err s) (SHttp true :: fr).
Proof.
  intros []. cbn in *. destruct si_http0 as (b & [= <- Hnil] & Hnone). specialize (Hnone eq_refl).
  constructor; cbn; auto.
  - intros [?|?]%elem_of_cons; [done|]. apply si_free0. by right.
  - destruct (s_shutdownOnce s); [done| |].
    + destruct si_stage0 as (st & ? & Hst). exists st. split; [done|].
      destruct st; [done|]. destruct Hst. congruence.
    + destruct si_stage0 as (_ & he & se & _ & ? & _). congruence.
  - exists true. by rewrite Hnil.
Qed.

Lemma safe_http : ssafe (λ _ t, t = [SHttp true]) [SHttp false] (http_shutdown close_errors).
Proof.
  assert (Hread : ∀ {A X} (Q : A → list stok → Prop) (f : state → list (X * state)) k,
    (∀ s x s', (x, s') ∈ f s → s' = s) → (∀ x, ssafe Q [SHttp false] (k x)) →
    ssafe Q [SHttp false] (Act f k)).
  { intros A X Q f k Hf Hk. apply (safe_own _ _ _ _ (λ _, [SHttp false])); [|done].
    intros s fr x s' Hi Hin. by rewrite (Hf s x s' Hin). }
  apply Hread.
  { intros s x s' Hin. destruct (s_shutdownCtx s); [|by apply not_elem_of_nil in Hin].
    by apply list_elem_of_singleton in Hin as [= -> ->]. }
  intros ctx. apply Hread.
  { intros s x s' [[= -> ->]|[Hin|Hin]%elem_of_app]%elem_of_cons; [done| |].
    - by apply list_elem_of_fmap in Hin as (e & [= -> ->] & _).
    - destruct (ctx_done ctx (s_handler s)); [|by apply not_elem_of_nil in Hin].
      by apply list_elem_of_singleton in Hin as [= -> ->]. }
  intros err. apply (safe_own _ _ _ _ (λ _, [SHttp true])); [|done].
  intros s fr x s' Hi [= -> ->]%list_elem_of_singleton. split; [by split|by apply SI_sent].
Qed.

(** ** Pools *)

Lemma server_pool_ok calls goroutines hs :
  h_shutdownOnce hs = OnceFree → Forall orderly goroutines →
  pool_ok SI SG (λ _, True) (server_pool calls goroutines (newServerState hs)).
Proof.
  intros Ho Hg. exists (((λ _, []) <$> goroutines) ++ [SHttp false] :: ((λ _, []) <$> calls)). split.
  - apply Forall2_app; [|constructor].
    + apply Forall2_fmap, Forall_Forall2_diag. eapply Forall_impl; [exact Hg|]. intros p Hp.
      eapply safe_mono; [exact (safe_on_handler _ [] [] _ Hp)|done].
    + eapply safe_mono; [apply safe_http|done].
    + apply Forall2_fmap, Forall_Forall2_diag, Forall_true. intros [|ctx|ctx]; cbn [run_server_call].
      * eapply safe_bind; [apply safe_Start|done].
      * eapply safe_bind; [apply safe_Server_Shutdown|done].
      * eapply safe_bind; [exact (safe_on_handler _ [] [] _ (safe_Shutdown false ctx))|done].
  - cbn [snd server_pool]. rewrite join_app. cbn. rewrite !mjoin_nils. cbn. constructor; cbn; try done.
    + split; cbn; [by rewrite Ho|by intros ? ?%not_elem_of_nil].
    + by exists false.
Qed.

(** ** Theorems *)

Context (p : program M P V PF F R H) (Hp : well_behaved p).
Context (fuel : nat) (xs : list (exchange R PF)) (others : list (HMo unit)) (calls : list server_call).
Context (Hxs : requests_ok p xs) (Hothers : Forall (bystander p) others) (pool0 : P) (now : Z).

Local Abbreviation start :=
  (server_pool calls (handler_pool p fuel xs others (newHandlerState pool0 now)).1
     (newServerState (newHandlerState pool0 now))).

Lemma reachable_SI c : pool_steps start c → ∃ L, SI c.2 L.
Proof.
  intros Hc. eapply pool_ok_inv, (pool_ok_steps SI SG SI_proper); [|exact Hc].
  apply server_pool_ok; [done|]. by apply handler_pool_orderly.
Qed.

Lemma reachable_SG c c2 : pool_steps start c → pool_steps c c2 → SG c.2 c2.2.
Proof.
  intros Hc Hc2. assert (Hok : pool_ok SI SG (λ _, True) c).
  { eapply (pool_ok_steps SI SG SI_proper); [|exact Hc]. apply server_pool_ok; [done|].
    by apply handler_pool_orderly. }
  by destruct (pool_ok_steps SI SG SI_proper _ _ _ Hok Hc2).
Qed.

(** The token of a goroutine about to serve is one of the mutex. *)
Lemma to_serve_held (L : list stok) : zlen (L ≫= to_serve_of) ≤ zlen (L ≫= mu_of).
Proof.
  induction L as [|[[]| | |] L IH]; cbn; rewrite ?zlen_cons; [done|lia..].
Qed.

Lemma reachable_handler c :
  pool_steps start c →
  ∃ ps, pool_steps (handler_pool p fuel xs (others ++ mret tt :: (handler_part <$> calls))
    (newHandlerState pool0 now)) (ps, s_handler c.2).
Proof.
  intros Hc. destruct (server_projects _ _ _ _ Hc) as (ps & Hps). exists ps.
  unfold handler_pool in *. cbn in Hps. by rewrite <- !app_assoc in Hps.
Qed.

Lemma parts_bystanders : Forall (bystander p) (others ++ mret tt :: ((handler_part <$> calls) : list (HMo unit))).
Proof.
  apply Forall_app. split; [done|]. constructor; [apply by_client, client_ret|].
  apply Forall_fmap, Forall_true. intros [|ctx|ctx]; cbn [handler_part]; apply by_client.
  - apply client_ret.
  - apply client_bind; [apply client_shutdown|]. intros. apply client_ret.
  - apply client_bind; [apply client_shutdown|]. intros. apply client_ret.
Qed.
Lemma errors_Is_joined he se target :
  (∃ e, joined he se = Some e ∧ errors_Is e target = true)
  ↔ ∃ e, (he = Some e ∨ se = Some e) ∧ errors_Is e target = true.
Proof.
  destruct he as [e1|], se as [e2|]; cbn; rewrite ?orb_false_r; split.
  - intros (e & [= <-] & H1). cbn in H1. rewrite orb_false_r in H1. apply orb_true_iff in H1 as []; eauto.
  - intros (e & [[= <-]|[= <-]] & H1); eexists; (split; [done|]); cbn; rewrite H1; by rewrite ?orb_true_r.
  - intros (e & [= <-] & H1). cbn in H1. rewrite orb_false_r in H1. eauto.
  - intros (e & [[= <-]|[=]] & H1). eexists. split; [done|]. cbn. by rewrite H1.
  - intros (e & [= <-] & H1). cbn in H1. rewrite orb_false_r in H1. eauto.
  - intros (e & [[=]|[= <-]] & H1). eexists. split; [done|]. cbn. by rewrite H1.
  - by intros (e & ? & _).
  - by intros (e & [?|?] & _).
Qed.

Lemma joined_none he se : joined he se = None ↔ he = None ∧ se = None.
Proof. destruct he, se; cbn; naive_solver. Qed.

(** C32. The server listens at most once.  Whatever calls of [Start] and
    [Shutdown] run together, and whatever the handler does, at most one
    goroutine is ever started to serve; with the mutex free there is one
    exactly when there is a listener, and the listener stays. *)
Theorem server_starts_once c c2 (Hc : pool_steps start c) (Hc2 : pool_steps c c2) :
  0 ≤ s_serving c.2 ≤ 1
  ∧ (s_mu c.2 = false → s_serving c.2 = if s_listener c.2 then 1 else 0)
  ∧ (s_listener c.2 = true → s_listener c2.2 = true).
Proof.
  destruct (reachable_SI c Hc) as [L Hi]. pose proof (to_serve_held L) as Hle. split_and!.
  - apply Hi.
  - pose proof (si_serving _ _ Hi). pose proof (zlen_nonneg (L ≫= to_serve_of)).
    destruct (s_listener c.2); lia.
  - intros Hmu. pose proof (si_serving _ _ Hi). rewrite (si_mu _ _ Hi), Hmu in Hle.
    pose proof (zlen_nonneg (L ≫= to_serve_of)). lia.
  - by destruct (reachable_SG c c2 Hc Hc2).
Qed.

(** C10. Shutting the server down stops both of its halves.  When [Shutdown] of the
    server is over, the handler's shutdown is over and the [http.Server] was shut
    down; the error is nil exactly when both were clean and otherwise matches
    ([errors.Is]) what either error matches.  If it is nil, the handler rejects
    requests, none is running and no connection is left.  This holds with any other
    calls of [Start] and [Shutdown], requests and user code running. *)
Theorem server_shutdown_stops_both c err (Hc : pool_steps start c)
    (Hdone : s_shutdownOnce c.2 = OnceDone err) :
  ∃ handlerErr serverErr,
    h_shutdownOnce (s_handler c.2) = OnceDone handlerErr ∧ s_serverErr c.2 = Some serverErr
    ∧ (err = None ↔ handlerErr = None ∧ serverErr = None)
    ∧ (∀ target, (∃ e, err = Some e ∧ errors_Is e target = true)
         ↔ ∃ e, (handlerErr = Some e ∨ serverErr = Some e) ∧ errors_Is e target = true)
    ∧ (err = None → h_shuttingDown (s_handler c.2) = true ∧ h_active (s_handler c.2) = 0
         ∧ ∀ conn, ¬ registered_at (s_handler c.2) conn).
Proof.
  destruct (reachable_SI c Hc) as [L Hi]. pose proof (si_stage _ _ Hi) as Hst. rewrite Hdone in Hst.
  destruct Hst as (_ & he & se & Hhe & Hse & ->). exists he, se.
  split_and!; [done..|apply joined_none|apply errors_Is_joined|].
  intros [-> _]%joined_none. destruct (reachable_handler c Hc) as (ps & Hps).
  exact (done_empty p Hp fuel xs _ Hxs parts_bystanders pool0 now _ Hps Hhe).
Qed.
End server.

(** ** Witnesses *)

Definition sample_server : serverSettings unit (list byte) :=
  {| ss_Addr := ":8080"; ss_handler := sample_settings; ss_ReadHeaderTimeout := 0 |}.

Definition sample_calls : list server_call := [CallStart; CallStart; CallShutdown (Some 0%nat)].

(** The requests of HandlerProps.v behind a server that is started twice and
    shut down; listening works. *)
Definition sample_server_pool : pool (sstate (gmap string) unit (list byte) unit nat) :=
  server_pool sample_server (λ _, [None]) [] sample_calls
    (handler_pool server_program 3 server_requests [] (newHandlerState tt 1000)).1
    (newServerState (newHandlerState tt 1000)).

Definition sample_start_run : list (nat * nat) := repeat (6, 0)%nat 6 ++ repeat (7, 0)%nat 3.

(** The first client connects; then the server shuts down. *)
Definition sample_shutdown_run : list (nat * nat) :=
  repeat (0, 0)%nat 43 ++ repeat (8, 0)%nat 2 ++ repeat (5, 0)%nat 3 ++ repeat (8, 0)%nat 9
  ++ repeat (2, 0)%nat 5 ++ repeat (0, 0)%nat 21 ++ repeat (8, 0)%nat 7.

Definition sample_started := run_to sample_start_run sample_server_pool.
Definition sample_stopped := run_to sample_shutdown_run sample_started.

Lemma server_starts_once_witness :
  possible sample_start_run sample_server_pool = true ∧ s_listener sample_started.2 = true
  ∧ 0 ≤ s_serving sample_started.2 ≤ 1 ∧ s_listener sample_stopped.2 = true.
Proof.
  assert (Hl : s_listener sample_started.2 = true) by by vm_compute.
  destruct (server_starts_once sample_server (λ _, [None]) [] server_program server_well_behaved 3
    server_requests [] sample_calls (List.Forall_nil _) tt 1000 sample_started sample_stopped
    (run_to_steps _ _) (run_to_steps _ _)) as (Hs & _ & Hk).
  split; [by vm_compute|]. split; [exact Hl|]. split; [exact Hs|exact (Hk Hl)].
Defined.

Lemma sample_stopped_steps : pool_steps sample_server_pool sample_stopped.
Proof. etransitivity; apply run_to_steps. Qed.

Lemma server_shutdown_stops_both_witness :
  possible sample_shutdown_run sample_started = true
  ∧ s_shutdownOnce sample_stopped.2 = OnceDone None
  ∧ h_active (s_handler sample_stopped.2) = 0.
Proof.
  assert (Hd : s_shutdownOnce sample_stopped.2 = OnceDone None) by by vm_compute.
  destruct (server_shutdown_stops_both sample_server (λ _, [None]) [] server_program
    server_well_behaved 3 server_requests [] sample_calls server_requests_ok (List.Forall_nil _) tt
    1000 sample_stopped None sample_stopped_steps Hd) as (he & se & _ & _ & _ & _ & Hz).
  split; [by vm_compute|]. split; [exact Hd|]. by apply Hz.
Defined.
